(* ===== verification/_CoqProject ===== *)
-Q . S2P
Prelude.v
RowLock.v
LockTable.v
RowMvcc.v
HashTable.v
Maat.v
RowMaat.v
Occ.v
RowTs.v
Globals.v
Pool.v
TxnTable.v
IndexHash.v
TwoPC.v
Codec.v
Message.v
MsgThread.v
TxnAccess.v
Sequencer.v
Calvin.v
CalvinLocks.v
YcsbTxn.v
Catalog.v
Schema.v
Rand.v
Double.v
YcsbLoad.v
Framework.v
TpccTxn.v
TpccRun.v
TpccProps.v
CalvinExec.v
TpccCalvin.v
CalvinQueries.v
TpccRandom.v
TpccLoad.v
TpccGen.v
