(* ===== verification/Prelude.v ===== *)
(** * Deneva: a verification development

    Deneva is a distributed main-memory database for comparing concurrency control
    algorithms.  Client nodes send transactions to server nodes; a server has worker
    threads that run transactions, message threads that batch what goes to other
    nodes, and, for the deterministic algorithm Calvin, a sequencer and a scheduler.
    Every row has a manager of the algorithm the system was compiled for, and a
    transaction that touches several nodes commits by two-phase commit.

    The development is a shallow embedding: functions of the code are Rocq functions
    on explicit states, and every definition can be evaluated.  Machine integers are
    [Z] with the wrap-around of their width written out where the code computes with
    them.  A failed [assert], an access outside an array and a read through a NULL
    pointer are [None].  Pointers are addresses in heaps, which are functions.  Where
    threads or nodes interleave, the atomic sections of the code (what is done under
    one latch, or the handling of one message) are the steps of a transition system
    and theorems are about all reachable states; ghost fields record history the code
    does not keep.

    ** Files

    - [Prelude]: integers, assertions, finite functions, list lemmas, tactics.
    - [RowLock]: [Row_lock] (concurrency_control/row_lock.cpp) for NO_WAIT, WAIT_DIE
      and CALVIN.  [LockTable]: all rows of a node with the transaction managers.
    - [RowMvcc]: [Row_mvcc] (row_mvcc.cpp), versions and their recycling.
    - [HashTable]: arrays of bucket lists as finite maps, shared by the next files.
    - [Maat]: [TimeTable] and [Maat] (maat.cpp), validation against the interface
      [TimeTableOps], which the hash table implements.  [RowMaat]: [Row_maat].
    - [Occ]: [OptCC] and [Row_occ] (occ.cpp, row_occ.cpp).
    - [RowTs]: [Row_ts] (row_ts.cpp), timestamp ordering.
    - [Globals]: macros of system/global.h, helper.cpp, [Manager], the timestamps and
      transaction ids of [WorkerThread].
    - [Pool]: the object pools (system/pool.cpp).
    - [TxnTable]: the table of running transactions (system/txn_table.cpp).
    - [IndexHash]: the hash index (storage/index_hash.cpp).
    - [TwoPC]: two-phase commit (system/txn.cpp, system/worker_thread.cpp).
    - [Codec], [Message]: memory images and all message classes
      (transport/message.cpp).  [MsgThread]: batching (transport/msg_thread.cpp) and
      the receiving side.
    - [TxnAccess]: how a transaction acquires, changes, commits and rolls back rows
      under locking (storage/row.cpp, system/txn.cpp), against the interface
      [LockService], which [LockTable] implements.
    - [Sequencer]: Calvin's sequencer (system/sequencer.cpp).  [Calvin]: sequencers,
      schedulers and the network between them (system/work_queue.cpp,
      calvin_thread.cpp, io_thread.cpp).  [CalvinLocks]: the lock threads of all nodes
      on their lock tables.
    - [YcsbTxn]: the state machine of a YCSB transaction on its nodes
      (benchmarks/ycsb_txn.cpp, system/worker_thread.cpp).
    - [Catalog]: table schemas and the bytes of a row (storage/catalog.cpp,
      storage/row.cpp).  [Schema]: loading the schema file (system/wl.cpp).
    - [Rand]: computations that draw random numbers, and threads that run at once.
      [Double]: IEEE doubles as the 64 bits of a column, and their conversions.
      [YcsbLoad]: the loader and the query generator of YCSB with its [zipf]
      (benchmarks/ycsb_wl.cpp, benchmarks/ycsb_query.cpp), on [IndexHash].
    - [Framework]: the pessimistic framework that runs beside the row managers
      (framework/framework.cpp, concurrency_controller_locks.cpp and utils/), with the
      latches that a blocked transaction keeps.
    - [TpccTxn]: the state machine of the TPC-C transactions on their nodes, the rows
      they change and the messages between the nodes (benchmarks/tpcc_txn.cpp,
      benchmarks/tpcc_helper.cpp, transport/message.cpp), with the transaction as a list
      of accesses.  [TpccRun]: the simulation between them.  [TpccProps]: what they do to
      the rows.
    - [CalvinExec]: the phases of a transaction under Calvin on all its nodes
      ([run_calvin_txn], system/worker_thread.cpp), against the class [Analysis] of what
      the analysis of a query promises and for any work of the phases, which may fail.
      [TpccCalvin]: the locks and the phases of TPC-C transactions under Calvin.
      [CalvinQueries]: the analyses of YCSB and TPC-C queries, and the work of both.
    - [TpccRandom]: the random values of TPC-C (benchmarks/tpcc_helper.cpp).
      [TpccLoad]: the threads of its loader (benchmarks/tpcc_wl.cpp), on [IndexHash] and
      [Schema].  [TpccGen]: its query generator (benchmarks/tpcc_query.cpp), and generated
      queries on loaded nodes.

    ** What is shown

    - Locking: holders of a row are compatible, there is no deadlock, no wake-up is
      lost, no assertion fails, and [lock_ready_cnt] is exact; every execution of
      transactions over rows is equivalent to the serial execution in commit order.
    - Timestamp ordering and MVCC: reads return the right version for their timestamp
      also with respect to later writes, recycling frees nothing that is in use, calls
      return.  Without the Thomas write rule an accepted write of [Row_ts] takes effect
      at once, in timestamp order.
    - MaaT: when validation accepts, what it does to the ranges of the transaction and
      of its conflicts, and that conflicts are always recorded.
    - Optimistic control: of two accepted concurrent transactions the later has read
      nothing that the earlier writes; the comparison with the history is shown to be
      ineffective.
    - Commit: nodes agree, the client is answered once, a round terminates.
    - Calvin: all nodes take the transactions they share in one order; conflicting
      transactions get their rows in that order on all nodes together; each starts
      when it has all its locks; every query is answered exactly once.  The nodes of a
      transaction write after all participants have read, and execute each YCSB request
      once.  They finish when the rows are there; but TPC-C orders fail whose home node
      supplies one of the items.  The others access the rows they have locked.
    - YCSB: a query that runs on several nodes is the query executed request by
      request; a generated query asks for rows that are loaded where it looks for them.
    - TPC-C: a payment or a new order that runs on several nodes is the list of its
      accesses, where its last name is a string that fits and its amount is below 2^53;
      the orders of a district get consecutive ids and stock stays within its bounds; but lines that other nodes insert have the wrong order id.  The loader puts
      every row where it is looked for, whatever the order of its threads, and every
      generated query finds all its rows, if the memory it is made in is a string and a
      number where the generator leaves it as it is; but some last names find customers of others.
    - Framework: the granted accesses are strictly serializable, commit and abort
      return, unless a blocked transaction has the latch of a lock, and leave no lock; but
      a result is replicated after its contents may have
      been deleted.
    - Schemas and rows: what a schema file describes is loaded, and calls that fit
      a schema access rows safely, column by column.
    - Data structures refine finite maps; pools hand out exclusive objects except
      after a late push; messages survive the wire and batches arrive in order;
      timestamps and ids are unique, with the exact condition for clock timestamps.

    ** Bounds and fuel

    Loops over lists are structural.  The [while (true)] of [Row_ts::update_buffer] has
    fuel one more than the buffered writes, which is proved to be enough; a YCSB query
    has more than two steps for each request, a TPC-C transaction more than six for each
    item and eight, a schema more than the characters of its
    file, and the loaders more than the rows of a table.  Random numbers are lists: a
    computation that needs more of them says so, and can be continued.  Counters are
    assumed below their wrap-around only where a theorem says so ([cfg_ok] and the
    epoch premise of [Calvin.step], for example).

    ** Not modelled

    - Statistics, debug output, timers, command line and start-up: they do not
      influence the results.
    - Transport sockets, the allocator, lock-free queues and the bundled third-party
      code: what the code relies on (queues are first-in first-out, a batch arrives
      unchanged) is in the steps of the models that use them.
    - Logging, which is off by default; its message is shown to fail its assertions.
    - The optimistic variant of the framework under framework/ and its sockets and
      group membership.
    - The B+ tree, which is not compiled when the hash index is chosen.
    - The PPS workload, the order table of TPC-C, whose loading is commented out, and of
      YCSB the generators for tests and for hot sets: the models of concurrency control
      take any sequence of row accesses.  Of the YCSB generator [pow] of the C library is
      a parameter. *)

From stdpp Require Export base tactics option list numbers gmap functions sorting.
From Stdlib Require Export ZArith Lia.

#[global] Open Scope Z_scope.

(** ** Machine integers *)

(** [uint64_t] and [uint32_t] are [Z] in range; every operation of the source
    that can leave the range is written with its wrap-around. *)
Definition u64_mod : Z := 2 ^ 64.
Definition u32_mod : Z := 2 ^ 32.
Definition UINT64_MAX : Z := 2 ^ 64 - 1.
Definition wrap64 (z : Z) : Z := z `mod` u64_mod.
Definition wrap32 (z : Z) : Z := z `mod` u32_mod.
Definition is_u64 (z : Z) : Prop := 0 ≤ z < u64_mod.
Definition is_u32 (z : Z) : Prop := 0 ≤ z < u32_mod.

Declare Scope u64_scope.
Delimit Scope u64_scope with u64.
Notation "a + b" := (wrap64 (a + b)) : u64_scope.
Notation "a - b" := (wrap64 (a - b)) : u64_scope.
Notation "a * b" := (wrap64 (a * b)) : u64_scope.

Abbreviation zlen l := (Z.of_nat (length l)).

(** ** Assertions *)

(** An operation that runs into a failing [assert], [ASSERT] or [M_ASSERT], or
    into an access outside an array, returns [None]: the process stops. *)
Definition assert_ (b : bool) : option unit := if b then Some tt else None.

Notation "'ASSERT' b ; k" := (mbind (M:=option) (fun _ : unit => k) (assert_ b))
  (at level 100, b at level 99, k at level 200, right associativity,
   only parsing) : stdpp_scope.

(** ** Enumerations of system/global.h *)

Inductive RC := RCOK | Commit | Abort | WAIT | WAIT_REM | ERROR | FINISH | NONE.
Inductive access_t := RD | WR | XP | SCAN.
Inductive lock_t := LOCK_EX | LOCK_SH | LOCK_NONE.
Inductive TsType := R_REQ | W_REQ | P_REQ | XP_REQ.

(** The compile-time choices of config.h the modelled code branches on. *)
Inductive CC_ALG := NO_WAIT | WAIT_DIE | TIMESTAMP | MVCC | OCC | CALVIN | MAAT.
Inductive WORKLOAD := YCSB | TPCC | PPS.
Inductive ISOLATION_LEVEL := SERIALIZABLE | READ_COMMITTED | READ_UNCOMMITTED | NOLOCK.

#[global] Instance RC_eq_dec : EqDecision RC.
Proof. solve_decision. Defined.
#[global] Instance access_t_eq_dec : EqDecision access_t.
Proof. solve_decision. Defined.
#[global] Instance lock_t_eq_dec : EqDecision lock_t.
Proof. solve_decision. Defined.
#[global] Instance TsType_eq_dec : EqDecision TsType.
Proof. solve_decision. Defined.
#[global] Instance CC_ALG_eq_dec : EqDecision CC_ALG.
Proof. solve_decision. Defined.
#[global] Instance WORKLOAD_eq_dec : EqDecision WORKLOAD.
Proof. solve_decision. Defined.
#[global] Instance ISOLATION_LEVEL_eq_dec : EqDecision ISOLATION_LEVEL.
Proof. solve_decision. Defined.

(** ** Automation *)

Create HintDb deneva.

(** Split the first option bind or boolean test of a hypothesis. *)
Ltac inv_option :=
  repeat match goal with
  | H : Some _ = Some _ |- _ => injection H as H
  | H : None = Some _ |- _ => discriminate H
  | H : Some _ = None |- _ => discriminate H
  | H : mbind _ (assert_ ?b) = Some _ |- _ =>
      let E := fresh "Hassert" in
      destruct b eqn:E; cbn [assert_ mbind option_bind] in H; [|discriminate H]
  | H : mbind _ ?o = Some _ |- _ =>
      let E := fresh "Hbind" in
      destruct o eqn:E; cbn [mbind option_bind] in H; [|discriminate H]
  end.

Ltac bool_to_prop :=
  repeat match goal with
  | H : (_ <? _) = true |- _ => apply Z.ltb_lt in H
  | H : (_ <? _) = false |- _ => apply Z.ltb_ge in H
  | H : (_ <=? _) = true |- _ => apply Z.leb_le in H
  | H : (_ <=? _) = false |- _ => apply Z.leb_gt in H
  | H : (_ =? _) = true |- _ => apply Z.eqb_eq in H
  | H : (_ =? _) = false |- _ => apply Z.eqb_neq in H
  | H : (_ && _)%bool = true |- _ => apply andb_true_iff in H as [? ?]
  | H : (_ || _)%bool = false |- _ => apply orb_false_iff in H as [? ?]
  | H : negb _ = true |- _ => apply negb_true_iff in H
  | H : negb _ = false |- _ => apply negb_false_iff in H
  | H : bool_decide _ = true |- _ => apply bool_decide_eq_true in H
  | H : bool_decide _ = false |- _ => apply bool_decide_eq_false in H
  end.

(** Case on the innermost [if]/[match] of the goal, with the equation kept. *)
Ltac case_if :=
  match goal with
  | |- context [if ?b then _ else _] =>
      let E := fresh "Hif" in destruct b eqn:E
  end.

(** ** Machine-integer lemmas *)

Lemma wrap64_small z : is_u64 z → wrap64 z = z.
Proof. apply Z.mod_small. Qed.

Lemma wrap32_small z : is_u32 z → wrap32 z = z.
Proof. apply Z.mod_small. Qed.

Lemma wrap64_u64 z : is_u64 (wrap64 z).
Proof. apply Z.mod_pos_bound. unfold u64_mod. lia. Qed.

Lemma wrap32_u32 z : is_u32 (wrap32 z).
Proof. apply Z.mod_pos_bound. unfold u32_mod. lia. Qed.

Lemma wrap64_add a b : wrap64 (wrap64 a + b) = wrap64 (a + b).
Proof. unfold wrap64. by rewrite Zplus_mod_idemp_l. Qed.

Lemma UINT64_MAX_u64 : is_u64 UINT64_MAX.
Proof. unfold is_u64, UINT64_MAX, u64_mod. lia. Qed.

#[export] Hint Resolve wrap64_u64 wrap32_u32 UINT64_MAX_u64 : deneva.

(** ** Options and assertions *)

Lemma assert_bind_true {A} (b : bool) (k : option A) :
  b = true → (ASSERT b; k) = k.
Proof. by intros ->. Qed.

Lemma assert_bind_false {A} (b : bool) (k : option A) :
  b = false → (ASSERT b; k) = None.
Proof. by intros ->. Qed.

Lemma assert_bind_Some {A} (b : bool) (k : option A) r :
  (ASSERT b; k) = Some r → b = true ∧ k = Some r.
Proof. by destruct b. Qed.

(** Numbers in base [K] with digits from 1 to [K] *)
Lemma radix_inj K w b w' b' : 1 ≤ b ≤ K → 1 ≤ b' ≤ K → 0 ≤ w → 0 ≤ w' → w * K + b = w' * K + b' → w = w' ∧ b = b'.
Proof.
  intros Hb Hb' Hw Hw' He. destruct (Z.lt_trichotomy w w') as [Hl|[->|Hl]]; [|lia|].
  - assert ((w + 1) * K ≤ w' * K) by (apply Z.mul_le_mono_nonneg_r; lia). lia.
  - assert ((w' + 1) * K ≤ w * K) by (apply Z.mul_le_mono_nonneg_r; lia). lia.
Qed.

(** ** Lists *)

Lemma exists_cons {A} (P : A → Prop) x l : (∃ y, y ∈ x :: l ∧ P y) ↔ P x ∨ ∃ y, y ∈ l ∧ P y.
Proof.
  split; [intros (y&[->|Hy]%elem_of_cons&HP); [by left|right; eauto]|]. intros [HP|(y&Hy&HP)]; [exists x; split; [left|done]|].
  exists y. split; [by right|done].
Qed.

(** A list of distinct values longer than another has a value that is not in it. *)
Lemma pick_fresh {A} `{EqDecision A} (l k : list A) : NoDup l → (length k < length l)%nat → ∃ x, x ∈ l ∧ x ∉ k.
Proof.
  intros Hl Hlt. destruct (decide (Exists (λ x, x ∉ k) l)) as [Hex|Hn]; [by apply Exists_exists in Hex|].
  exfalso. assert (l ⊆+ k) as Hsub%submseteq_length; [|lia]. apply NoDup_submseteq; [done|].
  intros x Hx. destruct (decide (x ∈ k)) as [|Hk]; [done|]. exfalso. apply Hn, Exists_exists. eauto.
Qed.

Lemma concat_insert_perm {A} (ls : list (list A)) (i : nat) (b b' : list A) :
  ls !! i = Some b →
  concat (<[i:=b']> ls) ++ b ≡ₚ concat ls ++ b'.
Proof.
  revert i. induction ls as [|l ls IH]; intros [|i]; simpl; intros Hi;
    simplify_eq.
  - rewrite <-!app_assoc. rewrite (Permutation_app_comm (concat ls) b).
    rewrite (Permutation_app_comm (concat ls) b'). rewrite !app_assoc.
    by rewrite (Permutation_app_comm b' b).
  - rewrite <-!app_assoc. by rewrite IH.
Qed.

Lemma concat_push_perm {A} (ls : list (list A)) (i : nat) (b : list A) (x : A) :
  ls !! i = Some b →
  concat (<[i:=x :: b]> ls) ≡ₚ x :: concat ls.
Proof.
  intros Hi. apply (Permutation_app_inv_r b).
  rewrite (concat_insert_perm _ _ _ (x :: b) Hi). simpl.
  by rewrite Permutation_middle.
Qed.

Lemma concat_snoc_perm {A} (ls : list (list A)) (i : nat) (b : list A) (x : A) :
  ls !! i = Some b →
  concat (<[i:=b ++ [x]]> ls) ≡ₚ x :: concat ls.
Proof.
  intros Hi. apply (Permutation_app_inv_r b).
  rewrite (concat_insert_perm _ _ _ (b ++ [x]) Hi), app_assoc.
  symmetry. apply Permutation_cons_append.
Qed.

(** Insertion in front of the first element that does not satisfy [p]: the
    "walk while, then LIST_INSERT_BEFORE or LIST_PUT_TAIL" idiom. *)
Fixpoint insert_after_while {A} (p : A → bool) (x : A) (l : list A) : list A :=
  match l with
  | [] => [x]
  | y :: l' => if p y then y :: insert_after_while p x l' else x :: l
  end.

Lemma insert_after_while_perm {A} (p : A → bool) x l :
  insert_after_while p x l ≡ₚ x :: l.
Proof.
  induction l as [|y l IH]; simpl; [done|]. destruct (p y); [|done].
  rewrite IH. by apply perm_swap.
Qed.

Lemma insert_after_while_length {A} (p : A → bool) x l :
  length (insert_after_while p x l) = S (length l).
Proof. by rewrite insert_after_while_perm. Qed.

(** Removal of the first element satisfying [p] (the "find, then unlink"
    idiom); [None] when there is none. *)
Fixpoint remove_first {A} (p : A → bool) (l : list A) : option (A * list A) :=
  match l with
  | [] => None
  | y :: l' =>
      if p y then Some (y, l')
      else '(z, r) ← remove_first p l'; Some (z, y :: r)
  end.

Lemma remove_first_perm {A} (p : A → bool) l x r :
  remove_first p l = Some (x, r) → l ≡ₚ x :: r ∧ p x = true.
Proof.
  revert x r. induction l as [|y l IH]; simpl; intros x r H; [done|].
  destruct (p y) eqn:Hp; simplify_eq; [done|].
  destruct (remove_first p l) as [[z r']|] eqn:E; simplify_eq/=.
  destruct (IH _ _ eq_refl) as [-> ?]. split; [apply perm_swap|done].
Qed.

Lemma remove_first_sublist {A} (p : A → bool) l x r :
  remove_first p l = Some (x, r) → r `sublist_of` l.
Proof.
  revert x r. induction l as [|y l IH]; simpl; intros x r H; [done|].
  destruct (p y) eqn:Hp; simplify_eq; [by apply sublist_cons|].
  destruct (remove_first p l) as [[z r']|] eqn:E; simplify_eq/=.
  apply sublist_skip. by eapply IH.
Qed.

Lemma remove_first_Some {A} (p : A → bool) l x :
  x ∈ l → p x = true → is_Some (remove_first p l).
Proof.
  induction l as [|y l IH]; simpl; intros Hx Hp; [by apply elem_of_nil in Hx|].
  destruct (p y) eqn:Hy; [eauto|].
  apply elem_of_cons in Hx as [->|Hx]; [congruence|].
  destruct (IH Hx Hp) as [[z r] ->]. simpl. eauto.
Qed.

Lemma remove_first_None {A} (p : A → bool) l :
  remove_first p l = None ↔ Forall (λ x, p x = false) l.
Proof.
  induction l as [|y l IH]; simpl; [by split|].
  destruct (p y) eqn:Hy.
  - split; [done|]. intros H. apply Forall_cons in H as [? _]. congruence.
  - rewrite Forall_cons, <-IH.
    destruct (remove_first p l) as [[z r]|]; simpl; naive_solver.
Qed.

(** A [std::set<uint64_t>] is the ascending list of its elements. *)
Fixpoint sset_insert (x : Z) (l : list Z) : list Z :=
  match l with
  | [] => [x]
  | y :: l' => if x <? y then x :: l else if x =? y then l else y :: sset_insert x l'
  end.

Definition sset_erase (x : Z) (l : list Z) : list Z := filter (λ y, y ≠ x) l.
Definition sset_count (x : Z) (l : list Z) : bool := bool_decide (x ∈ l).

Lemma elem_of_sset_insert x y l : y ∈ sset_insert x l ↔ y = x ∨ y ∈ l.
Proof.
  induction l as [|z l IH]; simpl; [by rewrite list_elem_of_singleton, elem_of_nil; naive_solver|].
  destruct (Z.ltb_spec x z); [by rewrite elem_of_cons|].
  destruct (Z.eqb_spec x z); [subst; rewrite elem_of_cons; naive_solver|].
  rewrite !elem_of_cons, IH. naive_solver.
Qed.

Lemma sset_insert_sorted x l : StronglySorted Z.lt l → StronglySorted Z.lt (sset_insert x l).
Proof.
  induction 1 as [|y l Hs IH Hy]; simpl; [repeat constructor|].
  destruct (Z.ltb_spec x y); [|destruct (Z.eqb_spec x y)].
  - constructor; [by constructor|]. constructor; [done|]. eapply Forall_impl; [done|]. simpl. lia.
  - by constructor.
  - constructor; [done|]. rewrite Forall_forall in *. intros z Hz.
    apply elem_of_sset_insert in Hz as [->|Hz]; [lia|auto].
Qed.

Lemma sset_insert_length x l : StronglySorted Z.lt l →
  length (sset_insert x l) = if decide (x ∈ l) then length l else S (length l).
Proof.
  induction 1 as [|y l Hs IH Hy]; simpl; [done|].
  destruct (Z.ltb_spec x y).
  - rewrite decide_False; [done|]. intros [->|Hx]%elem_of_cons; [lia|]. rewrite Forall_forall in Hy. apply Hy in Hx. lia.
  - destruct (Z.eqb_spec x y) as [->|Hne]; [rewrite decide_True; [done|by left]|]. simpl. rewrite IH.
    destruct (decide (x ∈ l)); [rewrite decide_True; [done|by right]|]. rewrite decide_False; [done|].
    by intros [?|?]%elem_of_cons.
Qed.

Lemma elem_of_sset_erase x y l : y ∈ sset_erase x l ↔ y ≠ x ∧ y ∈ l.
Proof. unfold sset_erase. by rewrite list_elem_of_filter. Qed.

Lemma list_filter_all {A} (P : A → Prop) `{!∀ x, Decision (P x)} (l : list A) :
  Forall P l → filter P l = l.
Proof.
  induction 1 as [|x l Hx _ IH]; [done|]. by rewrite filter_cons_True, IH.
Qed.

Lemma list_filter_ext {A} (P Q : A → Prop) `{!∀ x, Decision (P x)} `{!∀ x, Decision (Q x)} (l : list A) :
  (∀ x, x ∈ l → P x ↔ Q x) → filter P l = filter Q l.
Proof.
  induction l as [|x l IH]; intros Hpq; [done|].
  assert (filter P l = filter Q l) as E by (apply IH; intros; apply Hpq; by right).
  destruct (decide (P x)) as [HP|HP].
  - rewrite !filter_cons_True, E by (done || (apply Hpq; [left|done])). done.
  - rewrite !filter_cons_False, E by (done || (rewrite <-Hpq; [done|left])). done.
Qed.

Lemma elem_of_concat_fmap {A B} (f : A → list B) (l : list A) x :
  x ∈ concat (f <$> l) ↔ ∃ y, y ∈ l ∧ x ∈ f y.
Proof.
  induction l as [|y l IH]; simpl; [split; [by intros ?%elem_of_nil|by intros (?&?%elem_of_nil&_)]|].
  rewrite elem_of_app, IH. split.
  - intros [Hx|(z&Hz&Hx)]; [exists y|exists z]; (split; [|done]); [by left|by right].
  - intros (z&[->|Hz]%elem_of_cons&Hx); eauto.
Qed.

(** [a] occurs in the list before an occurrence of [b]. *)
Definition before {A} (l : list A) (a b : A) : Prop := [a; b] `sublist_of` l.

Lemma before_lookup {A} (l : list A) a b :
  before l a b ↔ ∃ p q, l !! p = Some a ∧ l !! q = Some b ∧ (p < q)%nat.
Proof.
  unfold before. split.
  - intros (l1&l2&->&(l3&l4&->&_)%sublist_cons_l)%sublist_cons_l.
    exists (length l1), (length l1 + S (length l3))%nat. split; [by apply list_lookup_middle|]. split; [|lia].
    rewrite lookup_app_r by lia. replace (_ - _)%nat with (S (length l3)) by lia. by apply list_lookup_middle.
  - intros (p&q&Hp&Hq&Hlt). apply sublist_cons_l. exists (take p l), (drop (S p) l).
    split; [by rewrite take_drop_middle|]. apply singleton_sublist_l. apply (list_elem_of_lookup_2 _ (q - S p)).
    rewrite lookup_drop. by replace (S p + (q - S p))%nat with q by lia.
Qed.

Lemma NoDup_concat_fmap {A B K} (key : B → K) (f : A → list B) (l : list A) :
  NoDup l → (∀ x, x ∈ l → NoDup (key <$> f x)) →
  (∀ x y a b, x ∈ l → y ∈ l → a ∈ f x → b ∈ f y → key a = key b → x = y) →
  NoDup (key <$> concat (f <$> l)).
Proof.
  induction 1 as [|x l Hx Hl IH]; intros Hf Hd; simpl; [constructor|]. rewrite fmap_app. apply NoDup_app.
  split_and!; [apply Hf; by left| |].
  - intros k (a&->&Ha)%list_elem_of_fmap (b&Hk&(y&Hy&Hb)%elem_of_concat_fmap)%list_elem_of_fmap.
    apply Hx. rewrite (Hd x y a b); [done|by left|by right|done..].
  - apply IH; [intros; apply Hf; by right|]. intros y z a b Hy Hz. apply Hd; by right.
Qed.

(** Taking an element out of a list in which its key occurs once. *)
Lemma filter_out_key {A K} `{EqDecision K} (f : A → K) (l : list A) x :
  NoDup (f <$> l) → x ∈ l → l ≡ₚ x :: filter (λ y, f y ≠ f x) l.
Proof.
  intros Hd Hx. apply list_elem_of_split in Hx as (l1&l2&->).
  rewrite fmap_app, fmap_cons in Hd. apply NoDup_app in Hd as (_&Hd1&Hd2).
  apply NoDup_cons in Hd2 as [Hd2 _].
  rewrite filter_app, filter_cons_False by naive_solver.
  rewrite <-Permutation_middle. constructor. f_equiv; symmetry; apply reflexive_eq;
    apply list_filter_all, Forall_forall; intros e He Het.
  - apply (Hd1 (f x)); [|by left]. apply list_elem_of_fmap. eauto.
  - apply Hd2, list_elem_of_fmap. eauto.
Qed.

(** Unlinking keeps what is around another element in place. *)
Lemma remove_first_split {A} (p : A → bool) l1 w l2 x r :
  p w = false → remove_first p (l1 ++ w :: l2) = Some (x, r) →
  ∃ l1' l2', r = l1' ++ w :: l2' ∧ (∀ e, e ∈ l1' → e ∈ l1) ∧ ∀ e, e ∈ l2' → e ∈ l2.
Proof.
  intros Hw. revert r. induction l1 as [|a l1 IH]; intros r; simpl.
  - rewrite Hw. destruct (remove_first p l2) as [[y r']|] eqn:E; simpl; [|done].
    intros [= <- <-]. exists [], r'. split_and!; [done..|].
    intros e He. eapply elem_of_sublist; [exact He|]. by eapply remove_first_sublist.
  - destruct (p a); [intros [= <- <-]; exists l1, l2; set_solver|].
    destruct (remove_first p (l1 ++ w :: l2)) as [[y r']|]; simpl; [|done].
    intros [= -> <-]. destruct (IH r' eq_refl) as (l1'&l2'&->&?&?).
    exists (a :: l1'), l2'. set_solver.
Qed.

Lemma StronglySorted_mono {A} (R R' : A → A → Prop) l :
  (∀ x y, x ∈ l → y ∈ l → R x y → R' x y) → StronglySorted R l → StronglySorted R' l.
Proof.
  intros HR HS. induction HS as [|x l ? IH HF]; constructor.
  - apply IH. intros y z ??. apply HR; by apply elem_of_cons; right.
  - rewrite Forall_forall in HF |- *. intros y Hy.
    apply HR; [by apply elem_of_cons; left|by apply elem_of_cons; right|auto].
Qed.

Lemma StronglySorted_sublist {A} (R : A → A → Prop) (l k : list A) :
  k `sublist_of` l → StronglySorted R l → StronglySorted R k.
Proof.
  induction 1 as [|x l1 l2 Hs IH|x l1 l2 Hs IH]; intros HS; [done| |];
    apply StronglySorted_inv in HS as [HS HF].
  - constructor; [auto|]. rewrite Forall_forall in HF |- *.
    intros y Hy. apply HF. by eapply elem_of_sublist.
  - auto.
Qed.

(** Insertion behind the elements satisfying [p] keeps a list sorted when [p]
    tells which side of [x] an element belongs to. *)
Lemma insert_after_while_sorted {A} (R : A → A → Prop) `{!Transitive R}
    (p : A → bool) x l :
  (∀ y, y ∈ l → p y = true → R y x) →
  (∀ y, y ∈ l → p y = false → R x y) →
  StronglySorted R l → StronglySorted R (insert_after_while p x l).
Proof.
  intros Hp1 Hp2 HS. induction HS as [|y l HS IH HF]; simpl.
  { by repeat constructor. }
  destruct (p y) eqn:Hy.
  - constructor.
    + apply IH; intros; [apply Hp1|apply Hp2]; set_solver.
    + rewrite insert_after_while_perm. constructor; [|done].
      apply Hp1; [set_solver|done].
  - constructor; [by constructor|]. constructor; [apply Hp2; [set_solver|done]|].
    eapply Forall_impl; [exact HF|]. intros z Hz. simpl.
    transitivity y; [apply Hp2; [set_solver|done]|done].
Qed.

Lemma insert_after_while_head {A} (p : A → bool) x l :
  (∀ y l', l = y :: l' → p y = false) →
  insert_after_while p x l = x :: l.
Proof. destruct l as [|y l]; simpl; [done|]. intros H. by rewrite (H y l). Qed.
