(* ===== verification/RowLock.v ===== *)
(** * Row_lock: two-phase locking on one row

    Model of [class Row_lock] (concurrency_control/row_lock.h, row_lock.cpp)
    for the three algorithms that use it, NO_WAIT, WAIT_DIE and CALVIN, and of
    the [TxnManager] fields it reads and writes.  [LockEntry] lists are Rocq
    lists (head first); [TxnManager *] is an address in a heap.  The latch makes
    each call one atomic step.  Counters that only feed [INC_STATS]
    ([own_starttime], [twopl_wait_start], [start_ts]) are left out. *)

From S2P Require Import Prelude.

Module RowLock.

(** ** Data *)

Definition txn_ptr := nat.

(** The fields of [TxnManager] that [Row_lock] touches (system/txn.h). *)
Record TxnManager := mkTxn {
  txn_id : Z;
  batch_id : Z;
  timestamp : Z;
  lock_ready : bool;
  lock_ready_cnt : Z;
  recon : bool }.

Definition heap := txn_ptr → TxnManager.

Definition set_lock_ready (b : bool) (x : TxnManager) : TxnManager :=
  mkTxn (txn_id x) (batch_id x) (timestamp x) b (lock_ready_cnt x) (recon x).

Definition set_lock_ready_cnt (c : Z) (x : TxnManager) : TxnManager :=
  mkTxn (txn_id x) (batch_id x) (timestamp x) (lock_ready x) c (recon x).

(** [TxnManager::incr_lr] and [decr_lr]: the new count is also the result. *)
Definition incr_lr (x : TxnManager) : TxnManager :=
  set_lock_ready_cnt (wrap32 (lock_ready_cnt x + 1)) x.

Definition decr_lr (x : TxnManager) : TxnManager :=
  set_lock_ready_cnt (wrap32 (lock_ready_cnt x - 1)) x.

Record LockEntry := mkEntry { le_type : lock_t; le_txn : txn_ptr }.

Record Row_lock := mkRow {
  lock_type : lock_t;
  owner_cnt : Z;
  waiter_cnt : Z;
  owners_size : Z;
  owners : list (list LockEntry);
  waiters : list LockEntry;
  max_owner_ts : Z }.

(** One call works on the row, the transactions and the work queue, which
    receives the transactions handed to [txn_table.restart_txn]. *)
Record state := mkState {
  row : Row_lock;
  txns : heap;
  restarts : list (Z * Z) }.

(** ** Operations *)

Definition init : Row_lock :=
  {| lock_type := LOCK_NONE; owner_cnt := 0; waiter_cnt := 0; owners_size := 1;
     owners := [[]]; waiters := []; max_owner_ts := 0 |}.

Definition hash (r : Row_lock) (id : Z) : Z := id `mod` owners_size r.

Definition conflict_lock (l1 l2 : lock_t) : bool :=
  if bool_decide (l1 = LOCK_NONE) || bool_decide (l2 = LOCK_NONE) then false
  else if bool_decide (l1 = LOCK_EX) || bool_decide (l2 = LOCK_EX) then true
  else false.

(** [STACK_PUSH(owners[hash(entry->txn->get_txn_id())], entry)] *)
Definition push_owner (h : heap) (e : LockEntry) (r : Row_lock)
    : list (list LockEntry) :=
  let i := Z.to_nat (hash r (txn_id (h (le_txn e)))) in
  <[i := e :: (owners r !!! i)]> (owners r).

(** The WAIT_DIE scan of the owners: abort as soon as one owner is older. *)
Fixpoint canwait_bucket (h : heap) (t : txn_ptr) (es : list LockEntry)
    : option bool :=
  match es with
  | [] => Some true
  | en :: es' =>
      ASSERT negb (txn_id (h t) =? txn_id (h (le_txn en)));
      ASSERT negb (timestamp (h t) =? timestamp (h (le_txn en)));
      if timestamp (h (le_txn en)) <? timestamp (h t) then Some false
      else canwait_bucket h t es'
  end.

Fixpoint canwait (h : heap) (t : txn_ptr) (buckets : list (list LockEntry))
    : option bool :=
  match buckets with
  | [] => Some true
  | b :: bs =>
      c ← canwait_bucket h t b;
      if (c : bool) then canwait h t bs else Some false
  end.

(** The decision of lock_get: the lock modes conflict, or a waiter goes first. *)
Definition get_conflict (alg : CC_ALG) (h : heap) (r : Row_lock)
    (type : lock_t) (t : txn_ptr) : bool :=
  let conflict := conflict_lock (lock_type r) type in
  let conflict :=
    if bool_decide (alg = WAIT_DIE) && negb conflict then
      match waiters r with
      | w :: _ => timestamp (h t) <? timestamp (h (le_txn w))
      | [] => conflict
      end
    else conflict in
  if bool_decide (alg = CALVIN) && negb conflict then
    match waiters r with _ :: _ => true | [] => conflict end
  else conflict.

(** [ATOM_CAS(txn->lock_ready,1,0); txn->incr_lr();] *)
Definition start_wait (h : heap) (t : txn_ptr) : heap :=
  <[t := incr_lr (set_lock_ready false (h t))]> h.

Definition add_waiter (r : Row_lock) (ws : list LockEntry) : Row_lock :=
  {| lock_type := lock_type r; owner_cnt := owner_cnt r;
     waiter_cnt := wrap32 (waiter_cnt r + 1); owners_size := owners_size r;
     owners := owners r; waiters := ws; max_owner_ts := max_owner_ts r |}.

Definition add_owner (alg : CC_ALG) (h : heap) (e : LockEntry) (r : Row_lock)
    : Row_lock :=
  {| lock_type := le_type e;
     owner_cnt := wrap32 (owner_cnt r + 1);
     waiter_cnt := waiter_cnt r;
     owners_size := owners_size r;
     owners := if bool_decide (alg = NO_WAIT) then owners r else push_owner h e r;
     waiters := waiters r;
     max_owner_ts :=
       if max_owner_ts r <? timestamp (h (le_txn e))
       then timestamp (h (le_txn e)) else max_owner_ts r |}.

Definition lock_get (alg : CC_ALG) (type : lock_t) (t : txn_ptr) (s : state)
    : option (RC * state) :=
  let r := row s in
  let h := txns s in
  let entry := mkEntry type t in
  ASSERT bool_decide (alg = NO_WAIT ∨ alg = WAIT_DIE ∨ alg = CALVIN);
  if get_conflict alg h r type t then
    match alg with
    | NO_WAIT => Some (Abort, s)
    | WAIT_DIE =>
        cw ← canwait h t (owners r);
        if (cw : bool) then
          let ws := insert_after_while
            (λ en, timestamp (h t) <? timestamp (h (le_txn en))) entry (waiters r) in
          Some (WAIT, mkState (add_waiter r ws) (start_wait h t) (restarts s))
        else Some (Abort, s)
    | CALVIN =>
        Some (WAIT, mkState (add_waiter r (waiters r ++ [entry]))
                            (start_wait h t) (restarts s))
    | _ => None
    end
  else
    ASSERT negb (0 <? owner_cnt r) || bool_decide (type = LOCK_SH);
    Some (RCOK, mkState (add_owner alg h entry r) h (restarts s)).

(** The hand-over loop of lock_release:
    "If any waiter can join the owners, just do it!" *)
Fixpoint promote (alg : CC_ALG) (ws : list LockEntry) (s : state) : option state :=
  match ws with
  | [] => Some s
  | entry :: ws' =>
      let r := row s in
      let h := txns s in
      if conflict_lock (lock_type r) (le_type entry) then Some s
      else
        let r1 := {| lock_type := lock_type r; owner_cnt := owner_cnt r;
                     waiter_cnt := wrap32 (waiter_cnt r - 1);
                     owners_size := owners_size r; owners := owners r;
                     waiters := ws'; max_owner_ts := max_owner_ts r |} in
        let r2 := add_owner alg h entry r1 in
        let w := h (le_txn entry) in
        ASSERT negb (lock_ready w);
        let w1 := decr_lr w in
        if lock_ready_cnt w1 =? 0 then
          promote alg ws'
            (mkState r2 (<[le_txn entry := set_lock_ready true w1]> h)
                     (restarts s ++ [(txn_id w, batch_id w)]))
        else promote alg ws' (mkState r2 (<[le_txn entry := w1]> h) (restarts s))
  end.

(** The row after the releasing transaction has left the owners. *)
Definition drop_owner (r : Row_lock) (os : list (list LockEntry)) : Row_lock :=
  let cnt := wrap32 (owner_cnt r - 1) in
  {| lock_type := if cnt =? 0 then LOCK_NONE else lock_type r;
     owner_cnt := cnt; waiter_cnt := waiter_cnt r;
     owners_size := owners_size r; owners := os;
     waiters := waiters r; max_owner_ts := max_owner_ts r |}.

Definition lock_release (alg : CC_ALG) (t : txn_ptr) (s : state) : option state :=
  let r := row s in
  if bool_decide (alg = CALVIN) && recon (txns s t) then Some s
  else
    r1 ← (if bool_decide (alg = NO_WAIT) then
            ASSERT 0 <? owner_cnt r; Some (drop_owner r (owners r))
          else
            let i := Z.to_nat (hash r (txn_id (txns s t))) in
            match remove_first (λ en, bool_decide (le_txn en = t)) (owners r !!! i) with
            | Some (_, b) => Some (drop_owner r (<[i := b]> (owners r)))
            | None => None (* assert(false) *)
            end);
    ASSERT negb (owner_cnt r1 =? 0) || bool_decide (lock_type r1 = LOCK_NONE);
    promote alg (waiters r1) (mkState r1 (txns s) (restarts s)).

(** ** The row invariant *)

(** Two heaps that agree on everything a row's bookkeeping depends on. *)
Definition same_static (h h' : heap) : Prop :=
  ∀ t, txn_id (h t) = txn_id (h' t) ∧ batch_id (h t) = batch_id (h' t) ∧
       timestamp (h t) = timestamp (h' t) ∧ recon (h t) = recon (h' t).

Definition all_owners (r : Row_lock) : list LockEntry := concat (owners r).

Definition younger (h : heap) (a b : LockEntry) : Prop :=
  timestamp (h (le_txn b)) < timestamp (h (le_txn a)).

(** Everything but the hand-over condition on the first waiter. *)
Record row_core (alg : CC_ALG) (h : heap) (r : Row_lock) : Prop := {
  rc_size : 0 < owners_size r;
  rc_len : length (owners r) = Z.to_nat (owners_size r);
  rc_bucket : ∀ i b e, owners r !! i = Some b → e ∈ b →
    Z.to_nat (hash r (txn_id (h (le_txn e)))) = i;
  rc_wcnt : waiter_cnt r = zlen (waiters r);
  rc_ocnt : 0 ≤ owner_cnt r;
  rc_none : lock_type r = LOCK_NONE ↔ owner_cnt r = 0;
  rc_ex : lock_type r = LOCK_EX → owner_cnt r = 1;
  rc_own : alg ≠ NO_WAIT →
    owner_cnt r = zlen (all_owners r) ∧
    Forall (λ e, le_type e = lock_type r) (all_owners r);
  rc_nowait : alg = NO_WAIT → waiters r = [];
  rc_wtypes : Forall (λ e, le_type e ≠ LOCK_NONE) (waiters r);
  rc_sorted : alg = WAIT_DIE → StronglySorted (younger h) (waiters r);
  rc_older : alg = WAIT_DIE →
    ∀ w o, w ∈ waiters r → o ∈ all_owners r → younger h o w;
  rc_bound : owner_cnt r + waiter_cnt r < u32_mod }.

Definition head_blocked (r : Row_lock) : Prop :=
  match waiters r with
  | [] => True
  | w :: _ => conflict_lock (lock_type r) (le_type w) = true
  end.

Definition row_inv (alg : CC_ALG) (h : heap) (r : Row_lock) : Prop :=
  row_core alg h r ∧ head_blocked r.

(** The reference description of the hand-over loop: the longest prefix of the
    waiters that can be granted one after the other from lock mode [lt]. *)
Fixpoint grant_prefix (lt : lock_t) (ws : list LockEntry)
    : list LockEntry * list LockEntry :=
  match ws with
  | [] => ([], [])
  | e :: ws' =>
      if conflict_lock lt (le_type e) then ([], ws)
      else let '(g, rest) := grant_prefix (le_type e) ws' in (e :: g, rest)
  end.

(** ** Lemmas *)

#[global] Instance same_static_equiv : Equivalence same_static.
Proof.
  split.
  - by intros h t.
  - intros h h' H t. destruct (H t) as (?&?&?&?). auto.
  - intros h1 h2 h3 H1 H2 t. destruct (H1 t) as (?&?&?&?), (H2 t) as (?&?&?&?).
    repeat split; congruence.
Qed.

Lemma heap_insert_eq (h : heap) t x : (<[t:=x]> h : heap) t = x.
Proof. apply fn_lookup_insert. Qed.

Lemma heap_insert_ne (h : heap) t t' x : t ≠ t' → (<[t:=x]> h : heap) t' = h t'.
Proof. apply fn_lookup_insert_ne. Qed.

Lemma same_static_insert h t x :
  txn_id x = txn_id (h t) → batch_id x = batch_id (h t) →
  timestamp x = timestamp (h t) → recon x = recon (h t) →
  same_static h (<[t:=x]> h).
Proof.
  intros ???? t'. destruct (decide (t = t')) as [<-|].
  - rewrite fn_lookup_insert. auto.
  - by rewrite fn_lookup_insert_ne.
Qed.

Lemma start_wait_static h t : same_static h (start_wait h t).
Proof. by apply same_static_insert. Qed.

#[global] Instance younger_proper : Proper (same_static ==> eq ==> eq ==> iff) younger.
Proof.
  intros h h' H a ? <- b ? <-. unfold younger.
  destruct (H (le_txn a)) as (_&_&->&_), (H (le_txn b)) as (_&_&->&_). done.
Qed.

(** A row only depends on the transactions that own it or wait for it. *)
Lemma row_core_agree alg h h' r :
  (∀ e, e ∈ all_owners r ∨ e ∈ waiters r →
    txn_id (h (le_txn e)) = txn_id (h' (le_txn e)) ∧
    timestamp (h (le_txn e)) = timestamp (h' (le_txn e))) →
  row_core alg h r → row_core alg h' r.
Proof.
  intros H []. split; auto.
  - intros i b e Hi He. rewrite <-(rc_bucket0 i b e Hi He).
    destruct (H e) as (->&_); [left|done].
    apply list_elem_of_In, in_concat. exists b. split; apply list_elem_of_In; [|done].
    by eapply list_elem_of_lookup_2.
  - intros Ha. apply (StronglySorted_mono (younger h)); [|by apply rc_sorted0].
    intros x y Hx Hy. unfold younger.
    by destruct (H x (or_intror Hx)) as (_&<-), (H y (or_intror Hy)) as (_&<-).
  - intros Ha w o Hw Ho. specialize (rc_older0 Ha w o Hw Ho). unfold younger in *.
    by destruct (H w (or_intror Hw)) as (_&<-), (H o (or_introl Ho)) as (_&<-).
Qed.

#[global] Instance row_core_proper alg :
  Proper (same_static ==> eq ==> iff) (row_core alg).
Proof.
  intros h h' H r ? <-. split; apply row_core_agree; intros e _;
    by destruct (H (le_txn e)) as (->&_&->&_).
Qed.

Lemma conflict_lock_false l1 l2 :
  conflict_lock l1 l2 = false ↔
  l1 = LOCK_NONE ∨ l2 = LOCK_NONE ∨ (l1 = LOCK_SH ∧ l2 = LOCK_SH).
Proof. destruct l1, l2; cbn; naive_solver. Qed.

Lemma conflict_lock_sym l1 l2 : conflict_lock l1 l2 = conflict_lock l2 l1.
Proof. by destruct l1, l2. Qed.

Lemma hash_lt alg h r id :
  row_core alg h r → (Z.to_nat (hash r id) < length (owners r))%nat.
Proof.
  intros []. rewrite rc_len0. unfold hash.
  pose proof (Z.mod_pos_bound id (owners_size r) rc_size0). lia.
Qed.

Lemma owners_bucket alg h r id :
  row_core alg h r →
  owners r !! Z.to_nat (hash r id) = Some (owners r !!! Z.to_nat (hash r id)).
Proof.
  intros H. by apply list_lookup_lookup_total_lt, (hash_lt alg h).
Qed.

Lemma push_owner_perm alg h r e :
  row_core alg h r → concat (push_owner h e r) ≡ₚ e :: all_owners r.
Proof.
  intros H. unfold push_owner. apply concat_push_perm. by eapply owners_bucket.
Qed.

Lemma push_owner_bucket alg h r e i b e' :
  row_core alg h r → push_owner h e r !! i = Some b → e' ∈ b →
  Z.to_nat (hash r (txn_id (h (le_txn e')))) = i.
Proof.
  intros H. unfold push_owner. intros Hi He'.
  apply list_lookup_insert_Some in Hi as [(<-&<-&_)|[? Hi]].
  - apply elem_of_cons in He' as [->|He']; [done|].
    eapply rc_bucket; eauto using owners_bucket.
  - eapply rc_bucket; eauto.
Qed.

Lemma all_owners_add alg h e r :
  row_core alg h r → alg ≠ NO_WAIT →
  all_owners (add_owner alg h e r) ≡ₚ e :: all_owners r.
Proof.
  intros H Ha. unfold all_owners at 1, add_owner. simpl.
  rewrite bool_decide_false by done. by eapply push_owner_perm.
Qed.

Lemma all_owners_add_nowait h e r :
  all_owners (add_owner NO_WAIT h e r) = all_owners r.
Proof. done. Qed.

(** Joining the owners keeps the row consistent when the modes are compatible
    and, under WAIT_DIE, the newcomer is younger than every waiter. *)
Lemma add_owner_core alg h e r :
  row_core alg h r →
  conflict_lock (lock_type r) (le_type e) = false → le_type e ≠ LOCK_NONE →
  owner_cnt r + waiter_cnt r + 1 < u32_mod →
  (alg = WAIT_DIE → ∀ w, w ∈ waiters r → younger h e w) →
  row_core alg h (add_owner alg h e r).
Proof.
  intros Hc Hconf Hty Hb Hy. pose proof Hc as [].
  assert (wrap32 (owner_cnt r + 1) = owner_cnt r + 1) as Hw.
  { apply wrap32_small. unfold is_u32. lia. }
  apply conflict_lock_false in Hconf.
  split; cbn [add_owner owners_size owners waiter_cnt waiters owner_cnt lock_type];
    rewrite ?Hw; auto.
  - case_bool_decide; [done|]. unfold push_owner. by rewrite length_insert.
  - intros i b e'. case_bool_decide; [by apply rc_bucket0|].
    exact (push_owner_bucket alg h r e i b e' Hc).
  - lia.
  - split; [done|lia].
  - intros He. destruct Hconf as [Hn|[?|[? ?]]]; [|congruence..].
    apply rc_none0 in Hn. lia.
  - intros Ha. rewrite all_owners_add by done.
    destruct (rc_own0 Ha) as [Hl Hf]. split; [simpl; lia|].
    constructor; [done|]. destruct Hconf as [Hn|[?|[Hs He]]]; [|congruence|].
    + apply rc_none0 in Hn. destruct (all_owners r); [done|simpl in *; lia].
    + by rewrite He, <-Hs.
  - intros Ha w o Hw' Ho. rewrite all_owners_add in Ho by (done || congruence).
    apply elem_of_cons in Ho as [->|Ho]; auto.
  - lia.
Qed.

Lemma add_waiter_core alg h e r ws :
  row_core alg h r → alg ≠ NO_WAIT → ws ≡ₚ e :: waiters r → le_type e ≠ LOCK_NONE →
  (alg = WAIT_DIE → StronglySorted (younger h) ws) →
  (alg = WAIT_DIE → ∀ o, o ∈ all_owners r → younger h o e) →
  owner_cnt r + waiter_cnt r + 1 < u32_mod →
  row_core alg h (add_waiter r ws).
Proof.
  intros [] Ha Hp Hty Hs Ho Hb.
  assert (wrap32 (waiter_cnt r + 1) = waiter_cnt r + 1) as Hw.
  { apply wrap32_small. unfold is_u32. lia. }
  split; cbn [add_waiter owners_size owners waiter_cnt waiters owner_cnt lock_type];
    rewrite ?Hw; auto.
  - rewrite Hp. simpl. lia.
  - done.
  - rewrite Hp. by constructor.
  - intros Hwd w o Hw' Ho'. rewrite Hp in Hw'.
    apply elem_of_cons in Hw' as [->|Hw']; auto.
  - lia.
Qed.

(** The owners scan: it answers, and [true] means every owner is younger. *)
Definition distinct_from (h : heap) (t : txn_ptr) (es : list LockEntry) : Prop :=
  Forall (λ e, txn_id (h t) ≠ txn_id (h (le_txn e)) ∧
               timestamp (h t) ≠ timestamp (h (le_txn e))) es.

Lemma canwait_bucket_spec h t es :
  distinct_from h t es →
  ∃ c, canwait_bucket h t es = Some c ∧
       (c = true ↔ Forall (λ e, timestamp (h t) < timestamp (h (le_txn e))) es).
Proof.
  induction 1 as [|e es [Hid Hts] Hd IH]; simpl; [by exists true|].
  rewrite !assert_bind_true by (apply negb_true_iff, Z.eqb_neq; done).
  destruct (Z.ltb_spec (timestamp (h (le_txn e))) (timestamp (h t))).
  - exists false. split; [done|]. rewrite Forall_cons. split; [done|lia].
  - destruct IH as (c&->&Hc). exists c. split; [done|].
    rewrite Forall_cons, Hc. split; [intros; split; [lia|done]|tauto].
Qed.

Lemma canwait_spec h t bs :
  distinct_from h t (concat bs) →
  ∃ c, canwait h t bs = Some c ∧
       (c = true ↔ Forall (λ e, timestamp (h t) < timestamp (h (le_txn e))) (concat bs)).
Proof.
  induction bs as [|b bs IH]; simpl; intros Hd; [by exists true|].
  apply Forall_app in Hd as [Hb Hbs].
  destruct (canwait_bucket_spec h t b Hb) as (c&->&Hc). simpl.
  destruct (IH Hbs) as (c'&->&Hc').
  destruct c; [exists c'|exists false]; split; try done; rewrite Forall_app; naive_solver.
Qed.

(** ** lock_get *)

(** What a caller of [lock_get] guarantees: a real lock mode, room in the
    32-bit counters and, under WAIT_DIE, an identity and a timestamp of its own. *)
Record get_pre (alg : CC_ALG) (h : heap) (r : Row_lock) (type : lock_t) (t : txn_ptr)
    : Prop := {
  gp_type : type ≠ LOCK_NONE;
  gp_room : owner_cnt r + waiter_cnt r + 1 < u32_mod;
  gp_distinct : alg = WAIT_DIE → distinct_from h t (all_owners r ++ waiters r) }.

(** What each outcome of [lock_get] does to the row and the transactions. *)
Definition get_outcome (alg : CC_ALG) (type : lock_t) (t : txn_ptr) (s : state)
    (rc : RC) (s' : state) : Prop :=
  restarts s' = restarts s ∧
  match rc with
  | RCOK =>
      conflict_lock (lock_type (row s)) type = false ∧
      (alg = CALVIN → waiters (row s) = []) ∧
      row s' = add_owner alg (txns s) (mkEntry type t) (row s) ∧ txns s' = txns s
  | WAIT =>
      alg ≠ NO_WAIT ∧ txns s' = start_wait (txns s) t ∧
      (∃ ws, row s' = add_waiter (row s) ws ∧ ws ≡ₚ mkEntry type t :: waiters (row s) ∧
        (alg = CALVIN → ws = waiters (row s) ++ [mkEntry type t]))
  | Abort => s' = s ∧ alg ≠ CALVIN
  | _ => False
  end.

Definition locking (alg : CC_ALG) : Prop :=
  alg = NO_WAIT ∨ alg = WAIT_DIE ∨ alg = CALVIN.

Lemma get_conflict_false alg h r type t :
  get_conflict alg h r type t = false →
  conflict_lock (lock_type r) type = false ∧
  (alg = WAIT_DIE → ∀ w ws, waiters r = w :: ws →
     timestamp (h (le_txn w)) ≤ timestamp (h t)) ∧
  (alg = CALVIN → waiters r = []).
Proof.
  unfold get_conflict. destruct (conflict_lock (lock_type r) type) eqn:Hc; simpl.
  { by rewrite !andb_false_r. }
  rewrite !andb_true_r. intros H. split; [done|].
  destruct alg; simpl in *; (split; [|]); try done; intros _.
  - intros w ws Hw. rewrite Hw in H. simpl in H. by apply Z.ltb_ge in H.
  - by destruct (waiters r).
Qed.

Lemma get_conflict_true alg h r type t :
  get_conflict alg h r type t = true →
  conflict_lock (lock_type r) type = true ∨
  (alg = WAIT_DIE ∧ ∃ w ws, waiters r = w :: ws ∧
     timestamp (h t) < timestamp (h (le_txn w))) ∨
  (alg = CALVIN ∧ waiters r ≠ []).
Proof.
  unfold get_conflict. destruct (conflict_lock (lock_type r) type) eqn:Hc; [by left|].
  simpl. rewrite !andb_true_r. destruct alg; simpl; try done;
    destruct (waiters r) as [|w ws]; try done; simpl.
  - destruct (Z.ltb_spec (timestamp (h t)) (timestamp (h (le_txn w)))); [|done].
    intros _. right. left. eauto.
  - intros _. right. right. done.
Qed.

#[global] Instance younger_trans h : Transitive (younger h).
Proof. intros a b c. unfold younger. lia. Qed.

(** A granted request is younger than every waiter (WAIT_DIE). *)
Lemma granted_youngest h r type t w :
  row_core WAIT_DIE h r → get_pre WAIT_DIE h r type t →
  get_conflict WAIT_DIE h r type t = false →
  w ∈ waiters r → younger h (mkEntry type t) w.
Proof.
  intros Hc [_ _ Hd] Hg Hw. destruct (get_conflict_false _ _ _ _ _ Hg) as (_&Hh&_).
  specialize (Hh eq_refl). specialize (Hd eq_refl).
  apply Forall_app in Hd as [_ Hd]. pose proof (rc_sorted _ _ _ Hc eq_refl) as HS.
  unfold younger in *; simpl.
  destruct (waiters r) as [|w0 ws]; [by apply elem_of_nil in Hw|].
  specialize (Hh _ _ eq_refl). rewrite Forall_forall in Hd.
  destruct (Hd w Hw) as [_ ?]. apply elem_of_cons in Hw as [->|Hw]; [lia|].
  apply StronglySorted_inv in HS as [_ HF]. rewrite Forall_forall in HF.
  specialize (HF _ Hw). simpl in HF. lia.
Qed.

(** A waiting request leaves the head of the queue blocked. *)
Lemma insert_wait_head alg h r type t :
  row_inv alg h r → get_conflict alg h r type t = true → alg = WAIT_DIE →
  head_blocked (add_waiter r (insert_after_while
    (λ en, timestamp (h t) <? timestamp (h (le_txn en))) (mkEntry type t) (waiters r))).
Proof.
  intros [Hc Hh] Hg ->. unfold head_blocked in *. simpl in *.
  destruct (get_conflict_true _ _ _ _ _ Hg) as [Hcl|[(_&w&ws&Hw&Hlt)|[? ?]]]; [| |done].
  - destruct (waiters r) as [|w ws]; simpl; [done|]. by destruct (timestamp (h t) <? timestamp (h (le_txn w))).
  - rewrite Hw in *. simpl. rewrite (proj2 (Z.ltb_lt _ _) Hlt). done.
Qed.

Lemma lock_get_spec alg type t s :
  locking alg → row_inv alg (txns s) (row s) → get_pre alg (txns s) (row s) type t →
  ∃ rc s', lock_get alg type t s = Some (rc, s') ∧
    row_inv alg (txns s') (row s') ∧ get_outcome alg type t s rc s'.
Proof.
  intros Hal Hinv Hpre. pose proof Hinv as [Hc Hh]. pose proof Hpre as [Hty Hroom Hdist].
  unfold lock_get. rewrite assert_bind_true by (by apply bool_decide_eq_true).
  destruct (get_conflict alg (txns s) (row s) type t) eqn:Hg.
  - destruct alg; try (by destruct Hal as [|[|]]).
    + exists Abort, s. done.
    + specialize (Hdist eq_refl). pose proof Hdist as Hd.
      apply Forall_app in Hd as [Hdo Hdw].
      destruct (canwait_spec (txns s) t (owners (row s)) Hdo) as (c&->&Hcw). simpl.
      destruct c; [|by exists Abort, s].
      eexists WAIT, _. split; [reflexivity|]. split; [split|].
      * simpl. rewrite <-start_wait_static.
        eapply add_waiter_core; [done|done|apply insert_after_while_perm|done| | |done].
        -- intros _. apply insert_after_while_sorted; [apply _| | |by apply Hc].
           ++ intros y _. by rewrite Z.ltb_lt.
           ++ intros y Hy. rewrite Z.ltb_ge. rewrite Forall_forall in Hdw.
              destruct (Hdw y Hy). unfold younger; simpl. lia.
        -- intros _ o Ho. destruct Hcw as [Hcw _]. specialize (Hcw eq_refl).
           rewrite Forall_forall in Hcw. by apply Hcw.
      * by eapply insert_wait_head.
      * split; [done|]. split; [done|]. split; [done|].
        eexists. split; [reflexivity|]. split; [apply insert_after_while_perm|done].
    + eexists WAIT, _. split; [reflexivity|]. split; [split|].
      * simpl. rewrite <-start_wait_static.
        apply (add_waiter_core _ _ (mkEntry type t)); [done|done| |done|done|done|done].
        by rewrite Permutation_app_comm.
      * unfold head_blocked in *. simpl.
        destruct (waiters (row s)) as [|w ws] eqn:Hw; simpl; [|done].
        by destruct (get_conflict_true _ _ _ _ _ Hg) as [|[[]|[_ ?]]].
      * split; [done|]. split; [done|]. split; [done|].
        eexists. split; [reflexivity|]. split; [apply (Permutation_app_comm _ [_])|done].
  - destruct (get_conflict_false _ _ _ _ _ Hg) as (Hcl&_&Hcal).
    rewrite assert_bind_true; last first.
    { apply orb_true_iff. destruct (Z.ltb_spec 0 (owner_cnt (row s))); [right|by left].
      apply bool_decide_eq_true. apply conflict_lock_false in Hcl.
      destruct Hcl as [Hn|[?|[_ ?]]]; [|done|done].
      apply (rc_none _ _ _ Hc) in Hn. lia. }
    eexists RCOK, _. split; [reflexivity|].
    split; [split|by destruct (get_conflict_false _ _ _ _ _ Hg) as (_&_&?)].
    + apply add_owner_core; try done. intros -> w. by apply granted_youngest.
    + unfold head_blocked in *. simpl. destruct (waiters (row s)) as [|w ws] eqn:Hw; [done|].
      apply conflict_lock_false in Hcl. destruct Hcl as [Hn|[?|[Hs ->]]]; [|done|].
      * by rewrite Hn in Hh.
      * by rewrite Hs in Hh.
Qed.

(** ** lock_release *)

Definition wcount (t : txn_ptr) (es : list LockEntry) : Z :=
  zlen (filter (λ e, le_txn e = t) es).

Lemma wcount_cons t e es :
  wcount t (e :: es) = (if decide (le_txn e = t) then 1 else 0) + wcount t es.
Proof. unfold wcount. rewrite filter_cons. case_decide; simpl; lia. Qed.

Lemma wcount_app t es es' : wcount t (es ++ es') = wcount t es + wcount t es'.
Proof. unfold wcount. rewrite filter_app, length_app. lia. Qed.

Lemma wcount_nonneg t es : 0 ≤ wcount t es.
Proof. unfold wcount. lia. Qed.

#[global] Instance wcount_proper t : Proper (Permutation ==> eq) (wcount t).
Proof. intros l l' H. unfold wcount. by rewrite H. Qed.

(** Every entry of [ws] is accounted for in its transaction's counter, and a
    transaction with an entry in [ws] is not ready. *)
Definition wait_ok (h : heap) (ws : list LockEntry) : Prop :=
  ∀ t, wcount t ws ≤ lock_ready_cnt (h t) < u32_mod ∧
       (0 < wcount t ws → lock_ready (h t) = false).

(** What granting the waiters [g] does to the transactions. *)
Definition granted_heap (h h' : heap) (g : list LockEntry) : Prop :=
  same_static h h' ∧
  ∀ t, lock_ready_cnt (h' t) = lock_ready_cnt (h t) - wcount t g ∧
       lock_ready (h' t) =
         if bool_decide (0 < wcount t g) && (lock_ready_cnt (h' t) =? 0)
         then true else lock_ready (h t).

(** Exactly the transactions whose last wait was granted are restarted, in the order
    of the queue and each once. *)
Definition restarts_of (h h' : heap) (g : list LockEntry) (new : list (Z * Z)) : Prop :=
  (∀ p, p ∈ new ↔ ∃ t, 0 < wcount t g ∧ lock_ready_cnt (h' t) = 0 ∧
                      p = (txn_id (h t), batch_id (h t))) ∧
  new `sublist_of` ((λ e, (txn_id (h (le_txn e)), batch_id (h (le_txn e)))) <$> g).

Record promote_outcome (alg : CC_ALG) (ws : list LockEntry) (s s' : state) : Prop := {
  po_core : row_core alg (txns s') (row s');
  po_head : head_blocked (row s');
  po_rest : waiters (row s') = (grant_prefix (lock_type (row s)) ws).2;
  po_own : alg ≠ NO_WAIT → all_owners (row s') ≡ₚ
    (grant_prefix (lock_type (row s)) ws).1 ++ all_owners (row s);
  po_nil : ws = [] → s' = s;
  po_heap : granted_heap (txns s) (txns s') (grant_prefix (lock_type (row s)) ws).1;
  po_restarts : ∃ new, restarts s' = restarts s ++ new ∧
    restarts_of (txns s) (txns s') (grant_prefix (lock_type (row s)) ws).1 new }.

Lemma granted_heap_nil h : granted_heap h h [].
Proof. split; [done|]. intros t. rewrite andb_false_l. split; [unfold wcount; simpl; lia|done]. Qed.

(** One iteration of the loop on the heap. *)
Definition grant_one (h : heap) (e : LockEntry) : heap :=
  let w1 := decr_lr (h (le_txn e)) in
  <[le_txn e := if lock_ready_cnt w1 =? 0 then set_lock_ready true w1 else w1]> h.

Lemma grant_one_static h e : same_static h (grant_one h e).
Proof. unfold grant_one. simpl. apply same_static_insert; by case_match. Qed.

Lemma grant_one_at h e :
  0 < lock_ready_cnt (h (le_txn e)) < u32_mod →
  lock_ready_cnt (grant_one h e (le_txn e)) = lock_ready_cnt (h (le_txn e)) - 1 ∧
  lock_ready (grant_one h e (le_txn e)) =
    if lock_ready_cnt (h (le_txn e)) - 1 =? 0 then true else lock_ready (h (le_txn e)).
Proof.
  intros Hb. unfold grant_one, decr_lr. cbv zeta. rewrite heap_insert_eq. simpl.
  rewrite (wrap32_small (_ - 1)) by (unfold is_u32; lia). by case_match.
Qed.

Lemma grant_one_ne h e t : le_txn e ≠ t → grant_one h e t = h t.
Proof. intros. unfold grant_one. cbv zeta. by rewrite heap_insert_ne. Qed.

Lemma grant_one_wait_ok h e ws :
  wait_ok h (e :: ws) → wait_ok (grant_one h e) ws ∧ lock_ready (h (le_txn e)) = false.
Proof.
  intros H. destruct (H (le_txn e)) as [Hc Hr].
  rewrite wcount_cons, decide_True in Hc, Hr by done.
  pose proof (wcount_nonneg (le_txn e) ws). split; [|apply Hr; lia].
  intros t. destruct (decide (le_txn e = t)) as [<-|Hne].
  - destruct (grant_one_at h e) as [-> ->]; [lia|]. split; [lia|].
    intros ?. rewrite (proj2 (Z.eqb_neq _ _)) by lia. apply Hr; lia.
  - rewrite grant_one_ne by done. destruct (H t) as [Ht Hr'].
    rewrite wcount_cons, decide_False in Ht, Hr' by done. split; [lia|exact Hr'].
Qed.

Lemma grant_prefix_app lt ws :
  (grant_prefix lt ws).1 ++ (grant_prefix lt ws).2 = ws.
Proof.
  revert lt. induction ws as [|e ws IH]; intros lt; simpl; [done|].
  destruct (conflict_lock _ _); [done|]. specialize (IH (le_type e)).
  destruct (grant_prefix (le_type e) ws); simpl in *. by rewrite IH.
Qed.

Lemma wait_ok_prefix h g rest : wait_ok h (g ++ rest) → wait_ok h g.
Proof.
  intros H t. destruct (H t) as [Hc Hr]. rewrite wcount_app in Hc, Hr.
  pose proof (wcount_nonneg t rest). split; [lia|intros; apply Hr; lia].
Qed.

Lemma granted_heap_cons h h' e g :
  0 < lock_ready_cnt (h (le_txn e)) < u32_mod → wait_ok (grant_one h e) g →
  granted_heap (grant_one h e) h' g → granted_heap h h' (e :: g).
Proof.
  intros Hb Hok [Hs Hg]. split; [by rewrite (grant_one_static h e)|].
  intros t. destruct (Hg t) as [Hc Hr], (Hok t) as [Hle _].
  rewrite wcount_cons, Hr, Hc.
  pose proof (wcount_nonneg t g).
  destruct (decide (le_txn e = t)) as [<-|Hne].
  - destruct (grant_one_at h e Hb) as [Hc1 ->]. rewrite Hc1 in *. split; [lia|].
    rewrite (bool_decide_true (0 < 1 + _)) by lia. simpl.
    destruct (decide (0 < wcount (le_txn e) g)).
    + rewrite bool_decide_true by done. simpl.
      repeat case_match; bool_to_prop; try done; lia.
    + rewrite bool_decide_false by done. simpl. by replace (wcount (le_txn e) g) with 0 by lia; rewrite Z.sub_0_r.
  - rewrite grant_one_ne by done. split; [lia|]. by rewrite Z.add_0_l.
Qed.

Lemma restarts_of_nil h h' : restarts_of h h' [] [].
Proof.
  split; [|done]. intros p. split; [by intros ?%elem_of_nil|]. by intros (t&?&_).
Qed.

Lemma restarts_of_cons h h' e g new :
  0 < lock_ready_cnt (h (le_txn e)) < u32_mod → wait_ok (grant_one h e) g →
  granted_heap (grant_one h e) h' g →
  restarts_of (grant_one h e) h' g new →
  restarts_of h h' (e :: g)
    ((if lock_ready_cnt (decr_lr (h (le_txn e))) =? 0
      then [(txn_id (h (le_txn e)), batch_id (h (le_txn e)))] else []) ++ new).
Proof.
  intros Hb Hok [_ Hg] [Hnew Hsub]. split.
  2:{ assert ((λ e', (txn_id (h (le_txn e')), batch_id (h (le_txn e')))) <$> g =
        (λ e', (txn_id (grant_one h e (le_txn e')), batch_id (grant_one h e (le_txn e')))) <$> g) as Heq.
      { apply list_fmap_ext. intros _ e' _. by destruct (grant_one_static h e (le_txn e')) as (->&->&_). }
      rewrite fmap_cons, Heq. case_match; simpl; by constructor. }
  intros p. rewrite elem_of_app.
  unfold decr_lr at 1. cbn [set_lock_ready_cnt lock_ready_cnt].
  rewrite wrap32_small by (unfold is_u32; lia).
  destruct (grant_one_at h e Hb) as [Hc1 _]. split.
  - intros [Hp|Hp].
    + destruct (Z.eqb_spec (lock_ready_cnt (h (le_txn e)) - 1) 0);
        [apply list_elem_of_singleton in Hp as ->|by apply elem_of_nil in Hp].
      exists (le_txn e). rewrite wcount_cons, decide_True by done.
      destruct (Hg (le_txn e)) as [-> _], (Hok (le_txn e)) as [? _].
      pose proof (wcount_nonneg (le_txn e) g). repeat split; lia.
    + apply Hnew in Hp as (t&Hw&Hz&->). exists t. rewrite wcount_cons.
      destruct (grant_one_static h e t) as (->&->&_). repeat split; try done; case_decide; lia.
  - intros (t&Hw&Hz&->). destruct (decide (0 < wcount t g)).
    + right. apply Hnew. exists t. by destruct (grant_one_static h e t) as (->&->&_).
    + left. pose proof (wcount_nonneg t g). rewrite wcount_cons in Hw. case_decide as Ht; [|lia].
      subst t. destruct (Hg (le_txn e)) as [Hc _].
      rewrite (proj2 (Z.eqb_eq _ _)) by lia. set_solver.
Qed.

Lemma promote_step alg e ws s :
  promote alg (e :: ws) s =
  if conflict_lock (lock_type (row s)) (le_type e) then Some s
  else
    ASSERT negb (lock_ready (txns s (le_txn e)));
    promote alg ws (mkState
      (add_owner alg (txns s) e
        {| lock_type := lock_type (row s); owner_cnt := owner_cnt (row s);
           waiter_cnt := wrap32 (waiter_cnt (row s) - 1);
           owners_size := owners_size (row s); owners := owners (row s);
           waiters := ws; max_owner_ts := max_owner_ts (row s) |})
      (grant_one (txns s) e)
      (restarts s ++ if lock_ready_cnt (decr_lr (txns s (le_txn e))) =? 0
                     then [(txn_id (txns s (le_txn e)), batch_id (txns s (le_txn e)))]
                     else [])).
Proof.
  cbn [promote]. destruct (conflict_lock _ _); [done|].
  destruct (negb _); [|done]. cbn [assert_ mbind option_bind]. unfold grant_one.
  case_match; [done|]. by rewrite app_nil_r.
Qed.

Lemma promote_spec alg ws s :
  locking alg → row_core alg (txns s) (row s) → waiters (row s) = ws →
  wait_ok (txns s) ws →
  ∃ s', promote alg ws s = Some s' ∧ promote_outcome alg ws s s'.
Proof.
  intros Hal. revert s. induction ws as [|e ws IH]; intros s Hc Hw Hok.
  { exists s. split; [done|].
    split; simpl; [..|by exists []; rewrite app_nil_r; auto using restarts_of_nil]; eauto using granted_heap_nil.
    unfold head_blocked. by rewrite Hw. }
  rewrite promote_step. destruct (conflict_lock _ _) eqn:Hcl.
  { exists s. split; [done|].
    split; simpl; rewrite ?Hcl; simpl;
      [..|by exists []; rewrite app_nil_r; auto using restarts_of_nil]; eauto using granted_heap_nil.
    unfold head_blocked. by rewrite Hw. }
  destruct (grant_one_wait_ok _ _ _ Hok) as [Hok' Hnr]. rewrite assert_bind_true by by rewrite Hnr.
  set (r1 := mkRow _ _ _ _ _ _ _).
  assert (alg ≠ NO_WAIT) as Hnw.
  { intros ->. pose proof (rc_nowait _ _ _ Hc eq_refl). by rewrite Hw in *. }
  pose proof (rc_wcnt _ _ _ Hc) as Hwc. rewrite Hw in Hwc. simpl in Hwc.
  pose proof (rc_ocnt _ _ _ Hc) as Hoc. pose proof (rc_bound _ _ _ Hc) as Hbd.
  assert (wrap32 (waiter_cnt (row s) - 1) = waiter_cnt (row s) - 1) as Hwr.
  { apply wrap32_small. unfold is_u32. lia. }
  pose proof (rc_wtypes _ _ _ Hc) as Hty. rewrite Hw in Hty. apply Forall_cons in Hty as [Hte Hty].
  assert (row_core alg (txns s) r1) as Hc1.
  { destruct Hc. split; cbn [r1 owners_size owners waiter_cnt waiters owner_cnt lock_type];
      rewrite ?Hwr; auto.
    - lia.
    - done.
    - intros Ha. specialize (rc_sorted0 Ha). rewrite Hw in rc_sorted0.
      by apply StronglySorted_inv in rc_sorted0 as [? _].
    - intros Ha w o Hw' Ho. apply rc_older0; [done| |done]. rewrite Hw. set_solver.
    - lia. }
  assert (row_core alg (grant_one (txns s) e) (add_owner alg (txns s) e r1)) as Hc2.
  { rewrite <-(grant_one_static (txns s) e). apply add_owner_core; try done.
    - cbn. lia.
    - intros Ha w Hw'. pose proof (rc_sorted _ _ _ Hc Ha) as HS. rewrite Hw in HS.
      apply StronglySorted_inv in HS as [_ HF]. rewrite Forall_forall in HF. auto. }
  set (s1 := mkState _ _ _).
  destruct (IH s1 Hc2 eq_refl Hok') as (s'&->&[]).
  exists s'. split; [done|]. destruct (Hok (le_txn e)) as [Hcnt _].
  rewrite wcount_cons, decide_True in Hcnt by done. pose proof (wcount_nonneg (le_txn e) ws).
  simpl in po_rest0, po_own0, po_heap0, po_restarts0.
  assert (wait_ok (grant_one (txns s) e) (grant_prefix (le_type e) ws).1).
  { eapply wait_ok_prefix. by rewrite <-(grant_prefix_app (le_type e) ws) in Hok'. }
  split; simpl; rewrite ?Hcl; destruct (grant_prefix (le_type e) ws) as [g rest] eqn:Hg;
    simpl in *; auto.
  - intros Ha. rewrite (po_own0 Ha), (all_owners_add alg (txns s)) by done.
    by rewrite Permutation_middle.
  - done.
  - by apply granted_heap_cons; [lia|..].
  - destruct po_restarts0 as (new&->&Hnew). eexists. rewrite <-app_assoc.
    split; [reflexivity|]. by apply restarts_of_cons; [lia|..].
Qed.

(** What a caller of [lock_release] guarantees: it holds the lock. *)
Definition release_pre (alg : CC_ALG) (r : Row_lock) (t : txn_ptr) : Prop :=
  if bool_decide (alg = NO_WAIT) then 0 < owner_cnt r
  else ∃ e, e ∈ all_owners r ∧ le_txn e = t.

(** [r1] is [r] after one holder left; [o] is its entry. *)
Record dropped (alg : CC_ALG) (t : txn_ptr) (r r1 : Row_lock) : Prop := {
  dr_cnt : owner_cnt r1 = owner_cnt r - 1;
  dr_type : lock_type r1 = if owner_cnt r =? 1 then LOCK_NONE else lock_type r;
  dr_waiters : waiters r1 = waiters r;
  dr_nowait : alg = NO_WAIT → all_owners r1 = all_owners r;
  dr_owners : alg ≠ NO_WAIT → ∃ o, le_txn o = t ∧ all_owners r ≡ₚ o :: all_owners r1 }.

Lemma drop_owner_core alg h t r os :
  row_core alg h r → 0 < owner_cnt r → length os = length (owners r) →
  (∀ i b e, os !! i = Some b → e ∈ b → ∃ b', owners r !! i = Some b' ∧ e ∈ b') →
  (alg = NO_WAIT → concat os = all_owners r) →
  (alg ≠ NO_WAIT → ∃ o, le_txn o = t ∧ all_owners r ≡ₚ o :: concat os) →
  row_core alg h (drop_owner r os) ∧ dropped alg t r (drop_owner r os).
Proof.
  intros [] Hpos Hlen Hin Hnw Hos. unfold drop_owner.
  assert (wrap32 (owner_cnt r - 1) = owner_cnt r - 1) as ->.
  { apply wrap32_small. unfold is_u32. lia. }
  assert ((owner_cnt r - 1 =? 0) = (owner_cnt r =? 1)) as ->.
  { destruct (Z.eqb_spec (owner_cnt r - 1) 0), (Z.eqb_spec (owner_cnt r) 1); done || lia. }
  split; [|by split].
  split; cbn [owners_size owners waiter_cnt waiters owner_cnt lock_type]; auto; try lia.
  - intros i b e Hi He. destruct (Hin _ _ _ Hi He) as (b'&Hi'&He'). eauto.
  - destruct (Z.eqb_spec (owner_cnt r) 1); [split; [lia|done]|].
    rewrite rc_none0. lia.
  - destruct (Z.eqb_spec (owner_cnt r) 1); [done|]. intros ?%rc_ex0. lia.
  - intros Ha. destruct (rc_own0 Ha) as [Hc Hf], (Hos Ha) as (o&_&Hp).
    rewrite Hp in Hc, Hf. simpl in Hc. apply Forall_cons in Hf as [_ Hf].
    unfold all_owners; simpl. split; [lia|].
    destruct (Z.eqb_spec (owner_cnt r) 1); [|done].
    destruct (concat os); [done|simpl in *; lia].
  - intros Ha w o Hw Ho. destruct Hos as (o'&_&Hp); [congruence|].
    apply rc_older0; [done|done|]. rewrite Hp. by apply elem_of_cons; right.
Qed.

Lemma lock_release_unfold alg t s :
  row_core alg (txns s) (row s) → release_pre alg (row s) t →
  ¬ (alg = CALVIN ∧ recon (txns s t) = true) →
  ∃ r1, row_core alg (txns s) r1 ∧ dropped alg t (row s) r1 ∧
    lock_release alg t s =
      promote alg (waiters (row s)) (mkState r1 (txns s) (restarts s)).
Proof.
  intros Hc Hp Hr. unfold lock_release, release_pre in *.
  assert (bool_decide (alg = CALVIN) && recon (txns s t) = false) as ->.
  { apply not_true_is_false. intros [?%bool_decide_eq_true ?]%andb_true_iff. auto. }
  assert (∀ r1 : Row_lock, row_core alg (txns s) r1 →
    negb (owner_cnt r1 =? 0) || bool_decide (lock_type r1 = LOCK_NONE) = true) as Hassert.
  { intros r1 H1. destruct (Z.eqb_spec (owner_cnt r1) 0); [|done].
    simpl. by apply bool_decide_eq_true, (rc_none _ _ _ H1). }
  case_bool_decide as Ha.
  - rewrite (assert_bind_true (0 <? _)) by by apply Z.ltb_lt.
    destruct (drop_owner_core alg (txns s) t (row s) (owners (row s))) as [H1 H2]; eauto; [done|].
    eexists. split; [exact H1|]. split; [exact H2|]. cbn [mbind option_bind].
    by rewrite assert_bind_true by auto.
  - destruct Hp as (e&He&Het). set (i := Z.to_nat (hash (row s) (txn_id (txns s t)))).
    pose proof (owners_bucket _ _ _ (txn_id (txns s t)) Hc) as Hi. fold i in Hi.
    assert (e ∈ owners (row s) !!! i) as Hei.
    { apply list_elem_of_In, in_concat in He as (b&Hb%list_elem_of_In&Heb%list_elem_of_In).
      apply list_elem_of_lookup in Hb as [j Hj].
      pose proof (rc_bucket _ _ _ Hc _ _ _ Hj Heb) as Hij. rewrite Het in Hij.
      fold i in Hij. subst j. by rewrite Hi in Hj; simplify_eq. }
    destruct (remove_first_Some (λ en, bool_decide (le_txn en = t)) _ e Hei) as [[o b] Hrm].
    { by apply bool_decide_eq_true. }
    rewrite Hrm. destruct (remove_first_perm _ _ _ _ Hrm) as [Hperm Ho%bool_decide_eq_true].
    pose proof (remove_first_sublist _ _ _ _ Hrm) as Hsub.
    destruct (drop_owner_core alg (txns s) t (row s) (<[i:=b]> (owners (row s)))) as [H1 H2].
    + done.
    + destruct (rc_own _ _ _ Hc Ha) as [-> _]. destruct (all_owners (row s)); [set_solver|simpl; lia].
    + apply length_insert.
    + intros j b' e' Hj He'. apply list_lookup_insert_Some in Hj as [(<-&<-&_)|[_ Hj]]; [|eauto].
      eexists. split; [exact Hi|]. by eapply elem_of_sublist.
    + done.
    + intros _. exists o. split; [done|]. apply (Permutation_app_inv_r b).
      unfold all_owners. rewrite <-(concat_insert_perm _ _ _ b Hi), Hperm. simpl.
      by rewrite Permutation_middle.
    + eexists. split; [exact H1|]. split; [exact H2|]. cbn [mbind option_bind].
      by rewrite assert_bind_true by auto.
Qed.

Lemma lock_release_spec alg t s :
  locking alg → row_inv alg (txns s) (row s) → release_pre alg (row s) t →
  wait_ok (txns s) (waiters (row s)) →
  ¬ (alg = CALVIN ∧ recon (txns s t) = true) →
  ∃ s' r1, lock_release alg t s = Some s' ∧ row_inv alg (txns s') (row s') ∧
    dropped alg t (row s) r1 ∧
    promote_outcome alg (waiters (row s)) (mkState r1 (txns s) (restarts s)) s'.
Proof.
  intros Hal [Hc Hh] Hp Hok Hr.
  destruct (lock_release_unfold alg t s Hc Hp Hr) as (r1&H1&H2&->).
  destruct (promote_spec alg (waiters (row s)) (mkState r1 (txns s) (restarts s)))
    as (s'&->&Ho); [done..|apply H2|done|].
  exists s', r1. split; [done|]. split; [by split; apply Ho|done].
Qed.

(** ** Properties *)

(** What a release does.  A release by a holder takes its entry out, hands
    the row to exactly the longest prefix of the queue that is compatible with
    the mode left behind and then with each other, keeps the rest of the queue in
    order, and restarts exactly the transactions whose last wait this was. *)
Theorem lock_release_hands_over alg t s :
  locking alg → row_inv alg (txns s) (row s) → release_pre alg (row s) t →
  wait_ok (txns s) (waiters (row s)) → ¬ (alg = CALVIN ∧ recon (txns s t) = true) →
  let mode := if owner_cnt (row s) =? 1 then LOCK_NONE else lock_type (row s) in
  let '(granted, rest) := grant_prefix mode (waiters (row s)) in
  ∃ s' new, lock_release alg t s = Some s' ∧ row_inv alg (txns s') (row s') ∧
    waiters (row s') = rest ∧
    (alg ≠ NO_WAIT → ∃ o, le_txn o = t ∧
       o :: all_owners (row s') ≡ₚ granted ++ all_owners (row s)) ∧
    granted_heap (txns s) (txns s') granted ∧
    restarts s' = restarts s ++ new ∧ restarts_of (txns s) (txns s') granted new.
Proof.
  intros Hal Hinv Hp Hok Hr mode.
  destruct (lock_release_spec alg t s Hal Hinv Hp Hok Hr) as (s'&r1&Hrel&Hinv'&[]&[]).
  simpl in *. fold mode in dr_type0. rewrite dr_type0 in *.
  destruct (grant_prefix mode (waiters (row s))) as [g rest]; simpl in *.
  destruct po_restarts0 as (new&?&?). exists s', new. split_and!; try done.
  intros Ha. destruct (dr_owners0 Ha) as (o&Ho&Hperm). exists o. split; [done|].
  by rewrite Hperm, <-Permutation_middle, (po_own0 Ha).
Qed.

(** What a request does.  A request with a fresh identity always gets an
    answer.  It is granted only if its mode is compatible with the current one
    and then joins the owners; it is queued only under WAIT_DIE and CALVIN, and
    then its transaction is marked as waiting; it is refused, with the state
    unchanged, never under CALVIN.  In all cases the row stays well formed. *)
Theorem lock_get_outcome alg type t s :
  locking alg → row_inv alg (txns s) (row s) → get_pre alg (txns s) (row s) type t →
  ∃ rc s', lock_get alg type t s = Some (rc, s') ∧
    row_inv alg (txns s') (row s') ∧ get_outcome alg type t s rc s'.
Proof. apply lock_get_spec. Qed.

(** *** A concrete row: an exclusive owner and two shared waiters (WAIT_DIE) *)
Definition ex_heap : heap := λ t,
  match t with
  | 0%nat => mkTxn 10 0 9 true 0 false
  | 1%nat => mkTxn 11 0 7 false 1 false
  | _ => mkTxn 12 0 5 false 1 false
  end.
Definition ex_row : Row_lock :=
  mkRow LOCK_EX 1 2 1 [[mkEntry LOCK_EX 0%nat]]
    [mkEntry LOCK_SH 1%nat; mkEntry LOCK_SH 2%nat] 9.
Definition ex_state : state := mkState ex_row ex_heap [].

Lemma ex_row_inv : row_inv WAIT_DIE ex_heap ex_row.
Proof.
  split; [|done]. split; simpl; try done.
  - intros [|i] b e; [|done]. intros [= <-] ->%list_elem_of_singleton. done.
  - intros _. split; [done|by repeat constructor].
  - by repeat constructor.
  - intros _. repeat constructor.
  - intros _ w o Hw ->%list_elem_of_singleton.
    apply elem_of_cons in Hw as [->| ->%list_elem_of_singleton]; done.
Qed.

Lemma lock_release_hands_over_witness :
  ∃ s' new, lock_release WAIT_DIE 0%nat ex_state = Some s' ∧
    waiters (row s') = [] ∧ restarts s' = new ∧
    restarts_of ex_heap (txns s') (waiters ex_row) new.
Proof.
  destruct (lock_release_hands_over WAIT_DIE 0%nat ex_state)
    as (s'&new&Hrel&_&Hw&_&_&Hres&Hof).
  - by right; left.
  - exact ex_row_inv.
  - exists (mkEntry LOCK_EX 0%nat). by split; [left|].
  - intros [|[|[|t]]]; split; simpl; done.
  - by intros [? _].
  - by exists s', new.
Defined.

Lemma lock_get_outcome_witness :
  ∃ rc s', lock_get WAIT_DIE LOCK_SH 3%nat
      (mkState ex_row (<[3%nat := mkTxn 13 0 4 false 0 false]> ex_heap) []) = Some (rc, s') ∧
    row_inv WAIT_DIE (txns s') (row s').
Proof.
  set (h := <[3%nat := _]> ex_heap : heap).
  destruct (lock_get_outcome WAIT_DIE LOCK_SH 3%nat (mkState ex_row h []))
    as (rc&s'&Hg&Hi&_).
  - by right; left.
  - split; [|done]. apply (row_core_agree _ ex_heap); [|apply ex_row_inv].
    intros e [->%list_elem_of_singleton|He]; [done|].
    apply elem_of_cons in He as [->| ->%list_elem_of_singleton]; done.
  - split; [done|done|]. intros _. by repeat constructor.
  - eauto.
Defined.

End RowLock.
