(* ===== verification/LockTable.v ===== *)
(** * LockTable: the rows of a node under two-phase locking

    The rows of one server node, the transaction managers and the work queue,
    as a transition system.  Its steps are the calls the workers and the Calvin
    scheduler make: a manager taken for a new transaction or reset after an abort
    (whatever its [lock_ready] flag says), [Row_lock::lock_get],
    [Row_lock::lock_release] and the two ends of [acquire_locks].  Every row
    carries the list of its current holders as ghost state, so that the theorems
    also speak about NO_WAIT, where the code keeps only a counter. *)

From S2P Require Import Prelude RowLock.

Module LockTable.
Import RowLock.

(** ** The transition system *)

(** One row with its holders; the holders are ghost state. *)
Record locked_row := mkLR { lr_row : Row_lock; lr_held : list LockEntry }.

Definition lr_entries (x : locked_row) : list LockEntry :=
  lr_held x ++ waiters (lr_row x).

Record sys := mkSys {
  s_rows : list locked_row;
  s_txns : heap;
  s_restarts : list (Z * Z);
  s_active : list txn_ptr;         (* started and not finished *)
  s_cur : option txn_ptr;          (* CALVIN: inside acquire_locks *)
  s_seq : txn_ptr → Z;             (* CALVIN: position in the lock order, ghost *)
  s_next : Z }.

(** The start and the end of [YCSBTxnManager::acquire_locks] (and of the TPCC
    and PPS versions, which are the same around their own requests). *)
Definition acquire_begin (h : heap) (t : txn_ptr) : heap := <[t := incr_lr (h t)]> h.

Definition acquire_end (h : heap) (t : txn_ptr) : heap :=
  let x := decr_lr (h t) in
  <[t := if lock_ready_cnt x =? 0 then set_lock_ready true x else x]> h.

(** The holders after a release by [t]: its entry is gone and the waiters that
    left the queue have joined. *)
Definition held_after (t : txn_ptr) (x : locked_row) (r' : Row_lock) : list LockEntry :=
  take (length (waiters (lr_row x)) - length (waiters r')) (waiters (lr_row x)) ++
  filter (λ e, le_txn e ≠ t) (lr_held x).

Inductive step (alg : CC_ALG) (s : sys) : sys → Prop :=
  | step_begin t x :
      t ∉ s_active s →
      (alg ≠ CALVIN → Forall (λ t', txn_id (s_txns s t') ≠ txn_id x ∧
                                    timestamp (s_txns s t') ≠ timestamp x) (s_active s)) →
      lock_ready_cnt x = lock_ready_cnt (s_txns s t) ∨ lock_ready_cnt x = 0 →
      zlen (s_active s) + 2 < u32_mod →
      step alg s (mkSys (s_rows s) (<[t := x]> (s_txns s)) (s_restarts s)
                    (t :: s_active s) (s_cur s) (s_seq s) (s_next s))
  | step_end t :
      s_cur s ≠ Some t →
      Forall (λ x, t ∉ le_txn <$> lr_entries x) (s_rows s) →
      step alg s (mkSys (s_rows s) (s_txns s) (s_restarts s)
                    (filter (λ t', t' ≠ t) (s_active s)) (s_cur s) (s_seq s) (s_next s))
  | step_acquire_begin t :
      alg = CALVIN → s_cur s = None → t ∈ s_active s →
      Forall (λ x, t ∉ le_txn <$> lr_entries x) (s_rows s) →
      step alg s (mkSys (s_rows s) (acquire_begin (s_txns s) t) (s_restarts s)
                    (s_active s) (Some t) (<[t := s_next s]> (s_seq s)) (s_next s + 1))
  | step_acquire_end t :
      s_cur s = Some t →
      step alg s (mkSys (s_rows s) (acquire_end (s_txns s) t) (s_restarts s)
                    (s_active s) None (s_seq s) (s_next s))
  | step_get i x type t rc s' :
      s_rows s !! i = Some x → t ∈ s_active s → t ∉ le_txn <$> lr_entries x →
      type ≠ LOCK_NONE → (alg = CALVIN → s_cur s = Some t) →
      lock_get alg type t (mkState (lr_row x) (s_txns s) (s_restarts s)) = Some (rc, s') →
      step alg s (mkSys
        (<[i := mkLR (row s') (if bool_decide (rc = RCOK)
                               then mkEntry type t :: lr_held x else lr_held x)]> (s_rows s))
        (txns s') (restarts s') (s_active s) (s_cur s) (s_seq s) (s_next s))
  | step_release i x t s' :
      s_rows s !! i = Some x → t ∈ le_txn <$> lr_held x →
      (alg = CALVIN → recon (s_txns s t) = false) →
      lock_release alg t (mkState (lr_row x) (s_txns s) (s_restarts s)) = Some s' →
      step alg s (mkSys (<[i := mkLR (row s') (held_after t x (row s'))]> (s_rows s))
        (txns s') (restarts s') (s_active s) (s_cur s) (s_seq s) (s_next s)).

Definition init_sys (n : nat) (h : heap) : sys :=
  mkSys (replicate n (mkLR init [])) h [] [] None (λ _, 0) 0.

Definition reachable (alg : CC_ALG) (s : sys) : Prop :=
  ∃ n h, Z.of_nat n + 1 < u32_mod ∧
    (∀ t, lock_ready_cnt (h t) = 0) ∧
    rtc (step alg) (init_sys n h) s.

(** ** The invariant *)

Definition total_waits (t : txn_ptr) (xs : list locked_row) : Z :=
  foldr (λ x n, wcount t (waiters (lr_row x)) + n) 0 xs.

(** The position of a request in the order that excludes deadlocks: older
    transactions come last under WAIT_DIE, later ones under CALVIN. *)
Definition rank (alg : CC_ALG) (s : sys) (t : txn_ptr) : Z :=
  match alg with WAIT_DIE => - timestamp (s_txns s t) | _ => s_seq s t end.

Record calvin_ok (s : sys) (x : locked_row) : Prop := {
  ca_sorted : StronglySorted (λ a b, s_seq s (le_txn a) < s_seq s (le_txn b))
    (waiters (lr_row x));
  ca_held : ∀ w o, w ∈ waiters (lr_row x) → o ∈ lr_held x →
    s_seq s (le_txn o) < s_seq s (le_txn w);
  ca_bound : ∀ e, e ∈ lr_entries x → s_seq s (le_txn e) < s_next s ∧
    (∀ t, s_cur s = Some t → le_txn e ≠ t → s_seq s (le_txn e) < s_seq s t) }.

Record row_ok (alg : CC_ALG) (s : sys) (x : locked_row) : Prop := {
  ro_inv : row_inv alg (s_txns s) (lr_row x);
  ro_cnt : owner_cnt (lr_row x) = zlen (lr_held x);
  ro_types : Forall (λ e, le_type e = lock_type (lr_row x)) (lr_held x);
  ro_held : alg ≠ NO_WAIT → all_owners (lr_row x) ≡ₚ lr_held x;
  ro_nowait : alg = NO_WAIT → all_owners (lr_row x) = [];
  ro_nodup : NoDup (le_txn <$> lr_entries x);
  ro_active : ∀ e, e ∈ lr_entries x → le_txn e ∈ s_active s;
  ro_calvin : alg = CALVIN → calvin_ok s x }.

Record sys_inv (alg : CC_ALG) (s : sys) : Prop := {
  si_rows : Forall (row_ok alg s) (s_rows s);
  si_len : zlen (s_rows s) + 1 < u32_mod;
  si_cnt : ∀ t, lock_ready_cnt (s_txns s t) =
    total_waits t (s_rows s) + if bool_decide (s_cur s = Some t) then 1 else 0;
  si_ready : ∀ t, 0 < total_waits t (s_rows s) → lock_ready (s_txns s t) = false;
  si_active : NoDup (s_active s) ∧ zlen (s_active s) + 1 < u32_mod;
  si_distinct : alg ≠ CALVIN → ∀ t t', t ∈ s_active s → t' ∈ s_active s → t ≠ t' →
    txn_id (s_txns s t) ≠ txn_id (s_txns s t') ∧
    timestamp (s_txns s t) ≠ timestamp (s_txns s t');
  si_cur : ∀ t, s_cur s = Some t → alg = CALVIN ∧ s_seq s t < s_next s ∧ t ∈ s_active s }.

(** A transaction waits for the holders of the row it queues on and for the
    requests queued before its own. *)
Definition waits_for (s : sys) (t t' : txn_ptr) : Prop :=
  ∃ x w, x ∈ s_rows s ∧ w ∈ waiters (lr_row x) ∧ le_txn w = t ∧
    ((∃ o, o ∈ lr_held x ∧ le_txn o = t') ∨
     (∃ pre w' mid post, waiters (lr_row x) = pre ++ w' :: mid ++ w :: post ∧
        le_txn w' = t')).

Definition waiting (s : sys) (t : txn_ptr) : Prop :=
  ∃ x w, x ∈ s_rows s ∧ w ∈ waiters (lr_row x) ∧ le_txn w = t.

(** ** Counting waits *)

Lemma total_waits_insert t xs i x y :
  xs !! i = Some x →
  total_waits t (<[i:=y]> xs) =
    total_waits t xs - wcount t (waiters (lr_row x)) + wcount t (waiters (lr_row y)).
Proof.
  revert i. induction xs as [|z xs IH]; intros [|i] Hi; simplify_eq/=; [lia|].
  rewrite (IH _ Hi). lia.
Qed.

Lemma total_waits_nonneg t xs : 0 ≤ total_waits t xs.
Proof.
  induction xs as [|x xs IH]; simpl; [done|].
  pose proof (wcount_nonneg t (waiters (lr_row x))). lia.
Qed.

Lemma total_waits_lookup t xs i x :
  xs !! i = Some x → wcount t (waiters (lr_row x)) ≤ total_waits t xs.
Proof.
  intros Hi. pose proof (total_waits_insert t xs i x (mkLR init []) Hi) as H.
  pose proof (total_waits_nonneg t (<[i:=mkLR init []]> xs)). simpl in H.
  unfold wcount at 2 in H. simpl in H. lia.
Qed.

Lemma wcount_zero t es : wcount t es = 0 ↔ t ∉ le_txn <$> es.
Proof.
  induction es as [|e es IH]; [by split; [intros _ ?%elem_of_nil|]|].
  rewrite wcount_cons. simpl. pose proof (wcount_nonneg t es).
  rewrite not_elem_of_cons. case_decide; split; intros; try lia; naive_solver lia.
Qed.

Lemma wcount_le_1 t es : NoDup (le_txn <$> es) → wcount t es ≤ 1.
Proof.
  induction es as [|e es IH]; [done|].
  rewrite fmap_cons, NoDup_cons, wcount_cons. intros [Hn Hd]. case_decide; [|by apply IH].
  subst. apply wcount_zero in Hn. lia.
Qed.

Lemma row_ok_waits alg s x t : row_ok alg s x → wcount t (waiters (lr_row x)) ≤ 1.
Proof.
  intros H. apply wcount_le_1. pose proof (ro_nodup _ _ _ H) as Hn.
  unfold lr_entries in Hn. rewrite fmap_app in Hn. by apply NoDup_app in Hn as (_&_&?).
Qed.

Lemma total_waits_le alg s t xs :
  Forall (row_ok alg s) xs → total_waits t xs ≤ zlen xs.
Proof.
  induction 1 as [|x xs Hx _ IH]; simpl; [done|].
  pose proof (row_ok_waits _ _ _ t Hx). lia.
Qed.

Lemma waiting_total s t : waiting s t ↔ 0 < total_waits t (s_rows s).
Proof.
  unfold waiting. induction (s_rows s) as [|x xs IH]; simpl.
  { split; [by intros (?&?&?%elem_of_nil&_)|lia]. }
  pose proof (total_waits_nonneg t xs). pose proof (wcount_nonneg t (waiters (lr_row x))).
  split.
  - intros (x'&w&Hx&Hw&Ht). apply elem_of_cons in Hx as [->|Hx].
    + destruct (decide (wcount t (waiters (lr_row x)) = 0)) as [Hz|]; [|lia].
      apply wcount_zero in Hz. destruct Hz. apply list_elem_of_fmap. eauto.
    + assert (0 < total_waits t xs) by (apply IH; eauto). lia.
  - intros Hp. destruct (decide (wcount t (waiters (lr_row x)) = 0)) as [Hz|Hz].
    + destruct IH as [_ IH]. destruct IH as (x'&w&?&?&?); [lia|].
      exists x', w. split; [|done]. by apply elem_of_cons; right.
    + rewrite wcount_zero in Hz. apply dec_stable in Hz.
      apply list_elem_of_fmap in Hz as (w&->&?). exists x, w. by rewrite elem_of_cons; auto.
Qed.

(** ** Invariance *)

(** [row_ok] only depends on the transactions that appear in the row. *)
Lemma row_ok_agree alg s s' x :
  row_ok alg s x →
  (∀ e, e ∈ lr_entries x →
    txn_id (s_txns s (le_txn e)) = txn_id (s_txns s' (le_txn e)) ∧
    timestamp (s_txns s (le_txn e)) = timestamp (s_txns s' (le_txn e)) ∧
    le_txn e ∈ s_active s' ∧ s_seq s' (le_txn e) = s_seq s (le_txn e)) →
  s_next s ≤ s_next s' →
  (alg = CALVIN → ∀ e t, e ∈ lr_entries x → s_cur s' = Some t → le_txn e ≠ t →
    s_seq s (le_txn e) < s_seq s' t) →
  row_ok alg s' x.
Proof.
  intros [] Hag Hnext Hcur. destruct ro_inv0 as [Hrc Hhb]. split; auto.
  - split; [|done]. apply (row_core_agree _ (s_txns s)); [|done]. intros e He.
    destruct (Hag e) as (?&?&_); [|done]. apply elem_of_app.
    destruct He as [He|?]; [left|by right]. destruct (decide (alg = NO_WAIT)) as [Ha|Ha].
    + rewrite (ro_nowait0 Ha) in He. by apply elem_of_nil in He.
    + by rewrite (ro_held0 Ha) in He.
  - intros e He. by destruct (Hag e He) as (_&_&?&_).
  - intros Ha. destruct (ro_calvin0 Ha). split.
    + eapply StronglySorted_mono; [|exact ca_sorted0]. intros w w' Hw Hw' Hlt.
      destruct (Hag w) as (_&_&_&->); [by apply elem_of_app; right|].
      destruct (Hag w') as (_&_&_&->); [by apply elem_of_app; right|done].
    + intros w o Hw Ho. specialize (ca_held0 w o Hw Ho).
      destruct (Hag w) as (_&_&_&->); [by apply elem_of_app; right|].
      destruct (Hag o) as (_&_&_&->); [by apply elem_of_app; left|done].
    + intros e He. destruct (Hag e He) as (_&_&_&->), (ca_bound0 e He) as [? _].
      split; [lia|]. intros t. by apply Hcur.
Qed.

Lemma row_ok_static alg s s' x :
  same_static (s_txns s) (s_txns s') → s_active s' = s_active s → s_cur s' = s_cur s →
  s_seq s' = s_seq s → s_next s' = s_next s → row_ok alg s x → row_ok alg s' x.
Proof.
  intros Hh Ha Hc Hs Hn Hx. apply (row_ok_agree alg s); [done| |lia|].
  - intros e He. destruct (Hh (le_txn e)) as (?&_&?&_). rewrite Ha, Hs.
    by repeat split; auto; apply (ro_active _ _ _ Hx).
  - intros Hal e t He. rewrite Hc, Hs. by apply (ca_bound _ _ (ro_calvin _ _ _ Hx Hal)).
Qed.

(** A step that works on one row. *)
Lemma sys_inv_update alg s i x y h' rs :
  let s' := mkSys (<[i:=y]> (s_rows s)) h' rs (s_active s) (s_cur s) (s_seq s) (s_next s) in
  sys_inv alg s → s_rows s !! i = Some x →
  same_static (s_txns s) h' →
  (∀ t, lock_ready_cnt (h' t) = lock_ready_cnt (s_txns s t)
          - wcount t (waiters (lr_row x)) + wcount t (waiters (lr_row y))) →
  (∀ t, 0 < total_waits t (s_rows s') → lock_ready (h' t) = false) →
  row_ok alg s' y → sys_inv alg s'.
Proof.
  intros s' [] Hi Hh Hcnt Hready Hy. split; simpl; auto.
  - apply Forall_insert; [|done]. eapply Forall_impl; [exact si_rows0|].
    intros z Hz. by eapply (row_ok_static alg s).
  - by rewrite length_insert.
  - intros t. rewrite (total_waits_insert t _ _ x) by done. rewrite Hcnt, si_cnt0. lia.
  - intros Ha t t' Ht Ht' Hne. destruct (Hh t) as (<-&_&<-&_), (Hh t') as (<-&_&<-&_). auto.
Qed.

Lemma total_waits_bound alg s t :
  sys_inv alg s → total_waits t (s_rows s) ≤ lock_ready_cnt (s_txns s t) < u32_mod.
Proof.
  intros []. rewrite si_cnt0. pose proof (total_waits_le _ _ t _ si_rows0).
  case_bool_decide; lia.
Qed.

Lemma sys_wait_ok alg s i x :
  sys_inv alg s → s_rows s !! i = Some x → wait_ok (s_txns s) (waiters (lr_row x)).
Proof.
  intros Hs Hi t. pose proof (total_waits_lookup t _ _ _ Hi).
  pose proof (total_waits_bound _ _ t Hs). split; [lia|].
  intros ?. apply (si_ready _ _ Hs). lia.
Qed.

Lemma sys_row_ok alg s i x : sys_inv alg s → s_rows s !! i = Some x → row_ok alg s x.
Proof. intros [] Hi. by eapply Forall_lookup_1. Qed.

Lemma sys_get_pre alg s i x type t :
  sys_inv alg s → s_rows s !! i = Some x → t ∈ s_active s →
  t ∉ le_txn <$> lr_entries x → type ≠ LOCK_NONE →
  get_pre alg (s_txns s) (lr_row x) type t.
Proof.
  intros Hs Hi Ht Hn Hty. pose proof (sys_row_ok _ _ _ _ Hs Hi) as Hx. destruct Hx, Hs.
  split; [done| |].
  - rewrite ro_cnt0, (rc_wcnt _ _ _ (proj1 ro_inv0)).
    assert (length (le_txn <$> lr_entries x) ≤ length (s_active s))%nat as Hl.
    { apply submseteq_length, NoDup_submseteq; [done|].
      intros t' (e&->&He)%list_elem_of_fmap. auto. }
    unfold lr_entries in Hl. rewrite length_fmap, length_app in Hl. lia.
  - intros Ha. unfold distinct_from. apply Forall_forall. intros e He.
    assert (e ∈ lr_entries x) as He'.
    { unfold lr_entries. rewrite ro_held0 in He by by rewrite Ha. done. }
    apply si_distinct0; [by rewrite Ha|done|auto|]. intros ->. apply Hn, list_elem_of_fmap. eauto.
Qed.

(** A granted request: the requester joins the holders. *)
Lemma row_ok_granted alg s i x type t :
  sys_inv alg s → s_rows s !! i = Some x → t ∈ s_active s →
  t ∉ le_txn <$> lr_entries x → type ≠ LOCK_NONE →
  (alg = CALVIN → s_cur s = Some t) →
  conflict_lock (lock_type (lr_row x)) type = false →
  (alg = CALVIN → waiters (lr_row x) = []) →
  let r' := add_owner alg (s_txns s) (mkEntry type t) (lr_row x) in
  row_inv alg (s_txns s) r' → row_ok alg s (mkLR r' (mkEntry type t :: lr_held x)).
Proof.
  intros Hs Hi Ht Hn Hty Hcur Hcl Hw r' Hinv.
  pose proof (sys_get_pre _ _ _ _ _ _ Hs Hi Ht Hn Hty) as [_ Hroom _].
  destruct (sys_row_ok _ _ _ _ Hs Hi). destruct ro_inv0 as [Hrc _].
  pose proof (rc_ocnt _ _ _ Hrc). pose proof (rc_wcnt _ _ _ Hrc).
  split; [done|..]; simpl.
  - rewrite wrap32_small by (unfold is_u32; lia). lia.
  - constructor; [done|]. apply conflict_lock_false in Hcl.
    destruct Hcl as [Hn0|[?|[Hs1 ->]]]; [|done|].
    + apply (rc_none _ _ _ Hrc) in Hn0. destruct (lr_held x); [done|simpl in *; lia].
    + by rewrite <-Hs1.
  - intros Ha. unfold r'. rewrite (all_owners_add alg) by done. by rewrite ro_held0.
  - intros ->. unfold r'. rewrite all_owners_add_nowait. auto.
  - by constructor.
  - intros e He. unfold lr_entries in He; simpl in He.
    apply elem_of_cons in He as [->|He]; [done|]. by apply ro_active0.
  - intros Ha. destruct (ro_calvin0 Ha). split; simpl.
    + done.
    + rewrite (Hw Ha). by intros w o ?%elem_of_nil.
    + intros e He. unfold lr_entries in He; simpl in He.
      apply elem_of_cons in He as [->|He]; [|by apply ca_bound0]. simpl.
      destruct (si_cur _ _ Hs t (Hcur Ha)) as (_&?&_). split; [done|].
      rewrite (Hcur Ha). by intros ? [= <-].
Qed.

(** A request that is queued. *)
Lemma row_ok_queued alg s s' i x type t ws :
  sys_inv alg s → s_rows s !! i = Some x → t ∈ s_active s →
  t ∉ le_txn <$> lr_entries x → type ≠ LOCK_NONE → alg ≠ NO_WAIT →
  (alg = CALVIN → s_cur s = Some t) →
  ws ≡ₚ mkEntry type t :: waiters (lr_row x) →
  (alg = CALVIN → ws = waiters (lr_row x) ++ [mkEntry type t]) →
  s_active s' = s_active s → s_cur s' = s_cur s → s_seq s' = s_seq s → s_next s' = s_next s →
  row_inv alg (s_txns s') (add_waiter (lr_row x) ws) →
  row_ok alg s' (mkLR (add_waiter (lr_row x) ws) (lr_held x)).
Proof.
  intros Hs Hi Ht Hn Hty Hal Hcur Hws Hws' Eact Ecur Eseq Enext Hinv.
  destruct (sys_row_ok _ _ _ _ Hs Hi).
  assert (lr_entries (mkLR (add_waiter (lr_row x) ws) (lr_held x))
            ≡ₚ mkEntry type t :: lr_entries x) as Hent.
  { unfold lr_entries. simpl. by rewrite Hws, <-Permutation_middle. }
  split; simpl; auto.
  - rewrite Hent. by constructor.
  - intros e He. rewrite Hent in He. rewrite Eact.
    apply elem_of_cons in He as [->|He]; auto.
  - intros Ha. destruct (ro_calvin0 Ha), (si_cur _ _ Hs t (Hcur Ha)) as (_&?&_).
    assert (∀ e, e ∈ lr_entries x → s_seq s (le_txn e) < s_seq s t) as Hlt.
    { intros e He. destruct (ca_bound0 e He) as [_ Hb]. apply Hb; [by apply Hcur|].
      intros <-. apply Hn, list_elem_of_fmap. eauto. }
    split; simpl; rewrite ?Eseq, ?Enext, ?Ecur.
    + rewrite (Hws' Ha). apply StronglySorted_app_2; [|done|by repeat constructor].
      intros a b Hwa ->%list_elem_of_singleton. apply Hlt.
      by apply elem_of_app; right.
    + intros w o Hw Ho. rewrite Hws in Hw. apply elem_of_cons in Hw as [->|Hw]; [|auto].
      apply Hlt. by apply elem_of_app; left.
    + intros e He. rewrite Hent in He.
      apply elem_of_cons in He as [->|He]; [|by apply ca_bound0].
      split; [done|]. rewrite (Hcur Ha). by intros ? [= <-].
Qed.

Lemma start_wait_cnt h t t' :
  0 ≤ lock_ready_cnt (h t) < u32_mod - 1 →
  lock_ready_cnt (start_wait h t t') =
    lock_ready_cnt (h t') + if decide (t = t') then 1 else 0.
Proof.
  intros Hb. unfold start_wait. case_decide as Ht; [subst t'|].
  - rewrite heap_insert_eq. simpl. apply wrap32_small. unfold is_u32. lia.
  - rewrite heap_insert_ne by done. lia.
Qed.

Lemma start_wait_ready h t t' :
  lock_ready (h t') = false ∨ t = t' → lock_ready (start_wait h t t') = false.
Proof.
  unfold start_wait. destruct (decide (t = t')) as [<-|Ht].
  - by rewrite heap_insert_eq.
  - rewrite heap_insert_ne by done. naive_solver.
Qed.

(** A transaction that is not queued on a row waits on fewer than all rows. *)
Lemma room_to_wait alg s i x t :
  sys_inv alg s → s_rows s !! i = Some x → t ∉ le_txn <$> lr_entries x →
  0 ≤ lock_ready_cnt (s_txns s t) < u32_mod - 1.
Proof.
  intros Hs Hi Hn. destruct Hs. rewrite si_cnt0.
  pose proof (total_waits_insert t (s_rows s) i x (mkLR init [mkEntry LOCK_SH t]) Hi) as H.
  assert (wcount t (waiters (lr_row x)) = 0) as Hz.
  { apply wcount_zero. unfold lr_entries in Hn. rewrite fmap_app in Hn. set_solver. }
  assert (total_waits t (s_rows s) ≤ zlen (s_rows s) - 1) as Hle.
  { rewrite <-(take_drop_middle _ _ _ Hi) in *.
    assert (∀ a b, total_waits t (a ++ b) = total_waits t a + total_waits t b) as Happ.
    { intros a b. induction a as [|z a IH]; simpl; [done|]. rewrite IH. lia. }
    apply Forall_app in si_rows0 as [H1 H2]. apply Forall_cons in H2 as [_ H2].
    rewrite Happ, length_app. simpl.
    pose proof (total_waits_le _ _ t _ H1). pose proof (total_waits_le _ _ t _ H2). lia. }
  pose proof (total_waits_nonneg t (s_rows s)). case_bool_decide; lia.
Qed.

Lemma step_get_inv alg s i x type t rc s1 :
  locking alg → sys_inv alg s → s_rows s !! i = Some x → t ∈ s_active s →
  t ∉ le_txn <$> lr_entries x → type ≠ LOCK_NONE → (alg = CALVIN → s_cur s = Some t) →
  lock_get alg type t (mkState (lr_row x) (s_txns s) (s_restarts s)) = Some (rc, s1) →
  sys_inv alg (mkSys
    (<[i := mkLR (row s1) (if bool_decide (rc = RCOK)
                           then mkEntry type t :: lr_held x else lr_held x)]> (s_rows s))
    (txns s1) (restarts s1) (s_active s) (s_cur s) (s_seq s) (s_next s)).
Proof.
  intros Hal Hs Hi Ht Hn Hty Hcur Hget. pose proof (sys_row_ok _ _ _ _ Hs Hi) as Hx.
  destruct (lock_get_spec alg type t (mkState (lr_row x) (s_txns s) (s_restarts s)))
    as (rc'&s'&Hget'&Hinv&Hout);
    [done|apply Hx|by eapply sys_get_pre|].
  rewrite Hget in Hget'. simplify_eq. destruct Hout as [_ Hout]. simpl in Hout.
  apply (sys_inv_update alg s i x); [done|done|..].
  all: destruct rc'; try done; simpl.
  - by destruct Hout as (_&_&_&->).
  - by destruct Hout as (->&_).
  - destruct Hout as (_&->&_). apply start_wait_static.
  - destruct Hout as (_&_&->&->). simpl. lia.
  - destruct Hout as (->&_). simpl. lia.
  - destruct Hout as (_&->&ws&->&Hws&_). intros t'. simpl.
    rewrite start_wait_cnt by (by eapply room_to_wait).
    rewrite Hws, wcount_cons. simpl. case_decide; lia.
  - destruct Hout as (_&_&->&->). intros t'. rewrite (total_waits_insert _ _ _ x) by done.
    simpl. intros. apply (si_ready _ _ Hs). lia.
  - destruct Hout as (->&_). intros t'. rewrite (total_waits_insert _ _ _ x) by done.
    simpl. intros. apply (si_ready _ _ Hs). lia.
  - destruct Hout as (_&->&ws&->&Hws&_). intros t'.
    rewrite (total_waits_insert _ _ _ x) by done. simpl. rewrite Hws, wcount_cons. simpl.
    intros Hp. apply start_wait_ready. case_decide; [by right|].
    left. apply (si_ready _ _ Hs). lia.
  - destruct Hout as (?&?&Hr&Hh). rewrite Hr, Hh in *.
    eapply (row_ok_static alg s); [done..|]. by eapply row_ok_granted.
  - destruct Hout as (->&_). replace (mkLR _ _) with x by by destruct x.
    by eapply (row_ok_static alg s).
  - destruct Hout as (?&Hh&ws&Hr&Hws&?). rewrite Hr in *.
    by eapply (row_ok_queued alg s).
Qed.

(** Taking one transaction out of a list in which it occurs once. *)
Lemma filter_out_one (l : list LockEntry) t :
  NoDup (le_txn <$> l) → t ∈ le_txn <$> l →
  ∃ o, le_txn o = t ∧ l ≡ₚ o :: filter (λ e, le_txn e ≠ t) l.
Proof.
  intros Hd (o&->&Ho)%list_elem_of_fmap. exists o. split; [done|].
  by apply filter_out_key.
Qed.

Lemma sys_release_pre alg s i x t :
  sys_inv alg s → s_rows s !! i = Some x → t ∈ le_txn <$> lr_held x →
  release_pre alg (lr_row x) t.
Proof.
  intros Hs Hi (e&->&He)%list_elem_of_fmap. destruct (sys_row_ok _ _ _ _ Hs Hi).
  unfold release_pre. case_bool_decide.
  - rewrite ro_cnt0. destruct (lr_held x); [by apply elem_of_nil in He|simpl; lia].
  - exists e. by rewrite ro_held0.
Qed.

(** The holders after a release, whatever the algorithm. *)
Lemma held_after_spec alg s i x t r1 s1 :
  sys_inv alg s → s_rows s !! i = Some x → t ∈ le_txn <$> lr_held x →
  dropped alg t (lr_row x) r1 →
  promote_outcome alg (waiters (lr_row x)) (mkState r1 (s_txns s) (s_restarts s)) s1 →
  held_after t x (row s1) =
    (grant_prefix (lock_type r1) (waiters (lr_row x))).1 ++
    filter (λ e, le_txn e ≠ t) (lr_held x).
Proof.
  intros Hs Hi Ht Hd Hp. unfold held_after. rewrite (po_rest _ _ _ _ Hp). simpl.
  pose proof (grant_prefix_app (lock_type r1) (waiters (lr_row x))) as E.
  destruct (grant_prefix _ _) as [g rest]; simpl in *. rewrite <-E, length_app.
  replace (length g + length rest - length rest)%nat with (length g) by lia.
  by rewrite take_app_length.
Qed.

Lemma dropped_owners alg s i x t r1 :
  sys_inv alg s → s_rows s !! i = Some x → t ∈ le_txn <$> lr_held x →
  dropped alg t (lr_row x) r1 → alg ≠ NO_WAIT →
  all_owners r1 ≡ₚ filter (λ e, le_txn e ≠ t) (lr_held x).
Proof.
  intros Hs Hi Ht Hd Ha. destruct (sys_row_ok _ _ _ _ Hs Hi).
  destruct (dr_owners _ _ _ _ Hd Ha) as (o&Ho&Hp). rewrite <-ro_held0, Hp by done.
  rewrite filter_cons_False by naive_solver. rewrite list_filter_all; [done|].
  assert (NoDup (le_txn <$> o :: all_owners r1)) as Hn.
  { rewrite <-Hp, ro_held0 by done. unfold lr_entries in ro_nodup0.
    rewrite fmap_app in ro_nodup0. by apply NoDup_app in ro_nodup0 as (?&_&_). }
  apply NoDup_cons in Hn as [Hn _]. apply Forall_forall. intros e He Het.
  apply Hn. rewrite Ho, <-Het. apply list_elem_of_fmap. eauto.
Qed.

(** The holders, the granted waiters and the remaining queue, in one place. *)
Lemma release_parts alg s i x t r1 s1 :
  sys_inv alg s → s_rows s !! i = Some x → t ∈ le_txn <$> lr_held x →
  dropped alg t (lr_row x) r1 →
  promote_outcome alg (waiters (lr_row x)) (mkState r1 (s_txns s) (s_restarts s)) s1 →
  ∃ g hs rest o, held_after t x (row s1) = g ++ hs ∧ waiters (row s1) = rest ∧
    waiters (lr_row x) = g ++ rest ∧ lr_held x ≡ₚ o :: hs ∧
    granted_heap (s_txns s) (txns s1) g ∧
    owner_cnt (row s1) = zlen (g ++ hs) ∧
    Forall (λ e, le_type e = lock_type (row s1)) (g ++ hs) ∧
    (alg ≠ NO_WAIT → all_owners (row s1) ≡ₚ g ++ hs) ∧
    (alg = NO_WAIT → all_owners (row s1) = []).
Proof.
  intros Hs Hi Ht Hd Hp. rewrite (held_after_spec alg s i x t r1) by done.
  pose proof (dropped_owners _ _ _ _ _ _ Hs Hi Ht Hd) as Ho.
  destruct (sys_row_ok _ _ _ _ Hs Hi), Hp, Hd. simpl in *.
  pose proof (grant_prefix_app (lock_type r1) (waiters (lr_row x))) as Hg.
  destruct (grant_prefix _ _) as [g rest] eqn:Hgp; simpl in *.
  assert (NoDup (le_txn <$> lr_held x)) as Hnh.
  { unfold lr_entries in ro_nodup0. rewrite fmap_app in ro_nodup0.
    by apply NoDup_app in ro_nodup0 as (?&_&_). }
  destruct (filter_out_one _ t Hnh Ht) as (o&Hot&Hho).
  set (hs := filter _ _) in *. exists g, hs, rest, o. do 5 (split; [done|]).
  destruct (decide (alg = NO_WAIT)) as [Ha|Ha].
  - pose proof (rc_nowait _ _ _ (proj1 ro_inv0) Ha) as Hw. rewrite Hw in *.
    apply app_nil in Hg as [-> ->]. rewrite po_nil0 by done. simpl.
    rewrite dr_cnt0, dr_type0, ro_cnt0, Hho. simpl.
    rewrite Hho in ro_types0. apply Forall_cons in ro_types0 as [_ Hf].
    split; [lia|]. split; [|split; [done|]].
    + assert (zlen (lr_held x) = Z.of_nat (S (length hs))) as -> by by rewrite Hho.
      destruct (Z.eqb_spec (Z.of_nat (S (length hs))) 1); [|done].
      destruct hs; [done|simpl in *; lia].
    + intros _. by rewrite dr_nowait0, ro_nowait0.
  - destruct (rc_own _ _ _ po_core0 Ha) as [H1 H2].
    assert (all_owners (row s1) ≡ₚ g ++ hs) as Hown by by rewrite (po_own0 Ha), (Ho Ha).
    rewrite Hown in H1, H2. done.
Qed.

(** The row after a release and the hand-overs it causes. *)
Lemma row_ok_released alg s s' i x t r1 s1 :
  sys_inv alg s → s_rows s !! i = Some x → t ∈ le_txn <$> lr_held x →
  dropped alg t (lr_row x) r1 →
  promote_outcome alg (waiters (lr_row x)) (mkState r1 (s_txns s) (s_restarts s)) s1 →
  s_txns s' = txns s1 → s_active s' = s_active s → s_cur s' = s_cur s →
  s_seq s' = s_seq s → s_next s' = s_next s →
  row_ok alg s' (mkLR (row s1) (held_after t x (row s1))).
Proof.
  intros Hs Hi Ht Hd Hp Eh Eact Ecur Eseq Enext.
  destruct (release_parts _ _ _ _ _ _ _ Hs Hi Ht Hd Hp)
    as (g&hs&rest&o&->&Hrest&Hg&Hho&_&Hcnt&Hty&Hown&Hnw).
  destruct (sys_row_ok _ _ _ _ Hs Hi).
  assert (lr_entries x ≡ₚ o :: lr_entries (mkLR (row s1) (g ++ hs))) as Hent.
  { unfold lr_entries. simpl. rewrite Hrest, Hg, Hho. simpl. constructor.
    rewrite (Permutation_app_comm g hs). by rewrite <-app_assoc. }
  assert (∀ e, e ∈ lr_entries (mkLR (row s1) (g ++ hs)) → e ∈ lr_entries x) as Hin.
  { intros e He. rewrite Hent. by apply elem_of_cons; right. }
  split; simpl; rewrite ?Eh, ?Eact; auto.
  - split; apply Hp.
  - rewrite Hent in ro_nodup0. by apply NoDup_cons in ro_nodup0 as [_ ?].
  - intros Ha. destruct (ro_calvin0 Ha). rewrite Hg in *. split; simpl;
      rewrite ?Hrest, ?Ecur, ?Eseq, ?Enext.
    + by eapply StronglySorted_app_1_r.
    + intros w e Hw [He|He]%elem_of_app.
      * by eapply (StronglySorted_app_1_elem_of _ g rest) in ca_sorted0.
      * apply ca_held0; [by apply elem_of_app; right|].
        rewrite Hho. by apply elem_of_cons; right.
    + intros e He. auto.
Qed.

Lemma step_release_inv alg s i x t s1 :
  locking alg → sys_inv alg s → s_rows s !! i = Some x → t ∈ le_txn <$> lr_held x →
  (alg = CALVIN → recon (s_txns s t) = false) →
  lock_release alg t (mkState (lr_row x) (s_txns s) (s_restarts s)) = Some s1 →
  sys_inv alg (mkSys (<[i := mkLR (row s1) (held_after t x (row s1))]> (s_rows s))
    (txns s1) (restarts s1) (s_active s) (s_cur s) (s_seq s) (s_next s)).
Proof.
  intros Hal Hs Hi Ht Hrec Hrel.
  destruct (lock_release_spec alg t (mkState (lr_row x) (s_txns s) (s_restarts s)))
    as (s'&r1&Hrel'&_&Hd&Hp); simpl.
  { done. } { by eapply sys_row_ok. } { by eapply sys_release_pre. }
  { by eapply sys_wait_ok. } { intros [Ha Hr]. by rewrite Hrec in Hr. }
  rewrite Hrel in Hrel'. simplify_eq. simpl in *.
  destruct (release_parts _ _ _ _ _ _ _ Hs Hi Ht Hd Hp)
    as (g&hs&rest&o&_&Hrest&Hg&_&[Hst Hgh]&_).
  assert (∀ t', lock_ready_cnt (txns s' t') = lock_ready_cnt (s_txns s t')
    - wcount t' (waiters (lr_row x)) + wcount t' (waiters (row s'))) as Hc.
  { intros t'. destruct (Hgh t') as [-> _]. rewrite Hg, Hrest, wcount_app. lia. }
  apply (sys_inv_update alg s i x); [done..| |by eapply (row_ok_released alg s)].
  intros t'. simpl. rewrite (total_waits_insert _ _ _ x) by done. simpl. intros Hpos.
  destruct (Hgh t') as [_ ->]. pose proof (total_waits_bound _ _ t' Hs).
  rewrite (proj2 (Z.eqb_neq _ _)) by (rewrite Hc; lia). rewrite andb_false_r.
  apply (si_ready _ _ Hs). rewrite Hg, wcount_app, Hrest in Hpos.
  pose proof (wcount_nonneg t' g). lia.
Qed.

Lemma step_begin_inv alg s t x :
  sys_inv alg s → t ∉ s_active s →
  (alg ≠ CALVIN → Forall (λ t', txn_id (s_txns s t') ≠ txn_id x ∧
                                timestamp (s_txns s t') ≠ timestamp x) (s_active s)) →
  lock_ready_cnt x = lock_ready_cnt (s_txns s t) ∨ lock_ready_cnt x = 0 →
  zlen (s_active s) + 2 < u32_mod →
  sys_inv alg (mkSys (s_rows s) (<[t := x]> (s_txns s)) (s_restarts s)
                 (t :: s_active s) (s_cur s) (s_seq s) (s_next s)).
Proof.
  intros Hs Ht Hnew Hcnt Hlen. destruct Hs.
  assert (total_waits t (s_rows s) = 0 ∧ s_cur s ≠ Some t) as [Hz Hcur].
  { split; [|intros Hc; by destruct (si_cur0 _ Hc) as (_&_&?)].
    pose proof (total_waits_nonneg t (s_rows s)).
    destruct (decide (total_waits t (s_rows s) = 0)); [done|].
    assert (waiting s t) as (y&w&Hy&Hw&<-) by (apply waiting_total; lia).
    rewrite Forall_forall in si_rows0. destruct Ht. apply (ro_active _ _ _ (si_rows0 y Hy)).
    by apply elem_of_app; right. }
  split; simpl; auto.
  - eapply Forall_impl; [exact si_rows0|]. intros y Hy.
    apply (row_ok_agree alg s); [done| |simpl; lia|].
    + intros e He. pose proof (ro_active _ _ _ Hy e He) as Hea. simpl.
      rewrite heap_insert_ne by (intros ->; done). set_solver.
    + intros Ha e t' He. simpl. by apply (ca_bound _ _ (ro_calvin _ _ _ Hy Ha)).
  - intros t'. destruct (decide (t = t')) as [<-|].
    + rewrite heap_insert_eq, Hz. rewrite si_cnt0, Hz in Hcnt.
      rewrite bool_decide_false in * by done. lia.
    + by rewrite heap_insert_ne.
  - intros t' Hp. destruct (decide (t = t')) as [<-|]; [lia|]. rewrite heap_insert_ne by done. auto.
  - split; [by constructor; [|apply si_active0]|lia].
  - intros Ha t1 t2 H1 H2 Hne. specialize (Hnew Ha). rewrite Forall_forall in Hnew.
    apply elem_of_cons in H1, H2.
    destruct (decide (t = t1)) as [<-|], (decide (t = t2)) as [<-|]; [done|..].
    + rewrite heap_insert_eq, heap_insert_ne by done. destruct (Hnew t2); naive_solver.
    + rewrite heap_insert_eq, heap_insert_ne by done. destruct (Hnew t1); naive_solver.
    + rewrite !heap_insert_ne by done. apply si_distinct0; naive_solver.
  - intros t' Hc. destruct (si_cur0 t' Hc) as (?&?&?). repeat split; auto.
    by apply elem_of_cons; right.
Qed.

Lemma step_end_inv alg s t :
  sys_inv alg s → s_cur s ≠ Some t →
  Forall (λ x, t ∉ le_txn <$> lr_entries x) (s_rows s) →
  sys_inv alg (mkSys (s_rows s) (s_txns s) (s_restarts s)
    (filter (λ t', t' ≠ t) (s_active s)) (s_cur s) (s_seq s) (s_next s)).
Proof.
  intros [] Hcur Hfree. split; simpl; auto.
  - rewrite Forall_forall in si_rows0, Hfree |- *. intros y Hy.
    specialize (si_rows0 y Hy). apply (row_ok_agree alg s); [done| |simpl; lia|].
    + intros e He. do 2 (split; [done|]). split; [|done]. simpl.
      apply list_elem_of_filter. split; [|by apply (ro_active _ _ _ si_rows0)].
      intros <-. apply (Hfree y Hy), list_elem_of_fmap. eauto.
    + intros Ha e t' He. simpl. by apply (ca_bound _ _ (ro_calvin _ _ _ si_rows0 Ha)).
  - destruct si_active0. split; [by apply NoDup_filter|].
    pose proof (length_filter (λ t', t' ≠ t) (s_active s)). lia.
  - intros Ha t1 t2 [_ ?]%list_elem_of_filter [_ ?]%list_elem_of_filter. auto.
  - intros t' Hc. destruct (si_cur0 t' Hc) as (?&?&?). repeat split; auto.
    apply list_elem_of_filter. split; [|done]. intros ->. done.
Qed.

Lemma acquire_begin_static h t : same_static h (acquire_begin h t).
Proof. by apply same_static_insert. Qed.

Lemma acquire_end_static h t : same_static h (acquire_end h t).
Proof. unfold acquire_end. cbv zeta. apply same_static_insert; by case_match. Qed.

Lemma step_acquire_begin_inv s t :
  sys_inv CALVIN s → s_cur s = None → t ∈ s_active s →
  Forall (λ x, t ∉ le_txn <$> lr_entries x) (s_rows s) →
  sys_inv CALVIN (mkSys (s_rows s) (acquire_begin (s_txns s) t) (s_restarts s)
    (s_active s) (Some t) (<[t := s_next s]> (s_seq s)) (s_next s + 1)).
Proof.
  intros Hs Hcur Ht Hfree. pose proof (acquire_begin_static (s_txns s) t) as Hst.
  destruct Hs. rewrite Forall_forall in Hfree.
  assert (∀ y e, y ∈ s_rows s → e ∈ lr_entries y → le_txn e ≠ t) as Hne.
  { intros y e Hy He <-. apply (Hfree y Hy), list_elem_of_fmap. eauto. }
  split; simpl; auto.
  - rewrite Forall_forall in si_rows0 |- *. intros y Hy. specialize (si_rows0 y Hy).
    apply (row_ok_agree CALVIN s); [done| |simpl; lia|]; simpl.
    + intros e He. destruct (Hst (le_txn e)) as (?&_&?&_).
      rewrite fn_lookup_insert_ne by (intros E; by eapply Hne). repeat split; auto.
      by apply (ro_active _ _ _ si_rows0).
    + intros _ e t' He [= <-] _. rewrite fn_lookup_insert.
      by apply (ca_bound _ _ (ro_calvin _ _ _ si_rows0 eq_refl)).
  - intros t'. unfold acquire_begin. specialize (si_cnt0 t').
    rewrite Hcur in si_cnt0. rewrite bool_decide_false in si_cnt0 by done.
    pose proof (total_waits_le _ _ t' _ si_rows0). pose proof (total_waits_nonneg t' (s_rows s)).
    destruct (decide (t = t')) as [<-|].
    + rewrite heap_insert_eq, bool_decide_true by done. simpl.
      rewrite wrap32_small by (unfold is_u32; lia). lia.
    + rewrite heap_insert_ne by done. rewrite bool_decide_false by congruence. lia.
  - intros t' Hp. unfold acquire_begin. destruct (decide (t = t')) as [<-|].
    + rewrite heap_insert_eq. simpl. auto.
    + rewrite heap_insert_ne by done. auto.
  - intros t' [= <-]. rewrite fn_lookup_insert. split; [done|]. split; [lia|done].
Qed.

Lemma step_acquire_end_inv alg s t :
  sys_inv alg s → s_cur s = Some t →
  sys_inv alg (mkSys (s_rows s) (acquire_end (s_txns s) t) (s_restarts s)
    (s_active s) None (s_seq s) (s_next s)).
Proof.
  intros Hs Hcur. pose proof (acquire_end_static (s_txns s) t) as Hst. destruct Hs.
  assert (∀ t', lock_ready_cnt (acquire_end (s_txns s) t t') = total_waits t' (s_rows s)) as Hc.
  { intros t'. specialize (si_cnt0 t'). rewrite Hcur in si_cnt0. unfold acquire_end. cbv zeta.
    pose proof (total_waits_le _ _ t' _ si_rows0). pose proof (total_waits_nonneg t' (s_rows s)).
    destruct (decide (t = t')) as [<-|].
    - rewrite bool_decide_true in si_cnt0 by done. rewrite heap_insert_eq.
      transitivity (lock_ready_cnt (decr_lr (s_txns s t))); [by case_match|]. simpl.
      rewrite wrap32_small by (unfold is_u32; lia). lia.
    - rewrite bool_decide_false in si_cnt0 by congruence. rewrite heap_insert_ne by done. lia. }
  split; simpl; auto.
  - eapply Forall_impl; [exact si_rows0|]. intros y Hy.
    apply (row_ok_agree alg s); [done| |simpl; lia|done].
    intros e He. destruct (Hst (le_txn e)) as (?&_&?&_).
    repeat split; auto. by apply (ro_active _ _ _ Hy).
  - intros t'. rewrite Hc. lia.
  - intros t' Hp. specialize (Hc t'). unfold acquire_end in *. cbv zeta in *.
    destruct (decide (t = t')) as [<-|].
    + rewrite heap_insert_eq in *. destruct (_ =? 0) eqn:E; [|by apply si_ready0].
      simpl in *. apply Z.eqb_eq in E. lia.
    + rewrite heap_insert_ne by done. auto.
  - intros Ha t1 t2 H1 H2 Hn. destruct (Hst t1) as (<-&_&<-&_), (Hst t2) as (<-&_&<-&_). auto.
  - done.
Qed.

Lemma step_inv alg s s' : locking alg → sys_inv alg s → step alg s s' → sys_inv alg s'.
Proof.
  intros Hal Hs Hstep. destruct Hstep; subst;
    eauto using step_begin_inv, step_end_inv, step_acquire_begin_inv,
      step_acquire_end_inv, step_get_inv, step_release_inv.
Qed.

Lemma init_row_ok alg s : row_ok alg s (mkLR init []).
Proof.
  split; simpl; auto.
  - split; [|done]. split; simpl; auto; try done.
    + intros [|i] b e; [intros [= <-]; by intros ?%elem_of_nil|done].
    + by repeat constructor.
    + by intros _ ? ? ?%elem_of_nil.
  - constructor.
  - intros e. by intros ?%elem_of_nil.
  - intros _. split; simpl.
    + constructor.
    + by intros ? ? ?%elem_of_nil.
    + by intros ? ?%elem_of_nil.
Qed.

Lemma init_sys_inv alg n h :
  Z.of_nat n + 1 < u32_mod → (∀ t, lock_ready_cnt (h t) = 0) → sys_inv alg (init_sys n h).
Proof.
  intros Hn Hh.
  assert (∀ t, total_waits t (s_rows (init_sys n h)) = 0) as Hz.
  { intros t. simpl. clear. by induction n. }
  split; simpl in *.
  - apply Forall_replicate, init_row_ok.
  - by rewrite length_replicate.
  - intros t. by rewrite Hz, Hh.
  - intros t. rewrite Hz. lia.
  - split; [constructor|]. unfold u32_mod. simpl. lia.
  - by intros _ ? ? ?%elem_of_nil.
  - done.
Qed.

Lemma reachable_inv alg s : locking alg → reachable alg s → sys_inv alg s.
Proof.
  intros Hal (n&h&Hn&Hh&Hrtc). pose proof (init_sys_inv alg n h Hn Hh) as Hi.
  induction Hrtc as [|s1 s2 s3 Hst _ IH]; eauto using step_inv.
Qed.

(** ** Deadlocks *)

(** Waiting goes up in the order that the algorithm imposes. *)
Lemma waits_for_rank alg s t t' :
  alg ≠ NO_WAIT → locking alg → sys_inv alg s → waits_for s t t' →
  rank alg s t' < rank alg s t.
Proof.
  intros Hnw Hal Hs (x&w&Hx&Hw&<-&Hwf). pose proof (si_rows _ _ Hs) as HF.
  rewrite Forall_forall in HF. specialize (HF x Hx). destruct HF, ro_inv0 as [Hrc _].
  destruct Hwf as [(o&Ho&<-)|(pre&w'&mid&post&Heq&<-)];
    destruct Hal as [->|[->| ->]]; try done; simpl.
  - rewrite <-ro_held0 in Ho by done. pose proof (rc_older _ _ _ Hrc eq_refl w o Hw Ho) as Hy.
    unfold younger in Hy. lia.
  - by apply ro_calvin0.
  - pose proof (rc_sorted _ _ _ Hrc eq_refl) as HS. rewrite Heq in HS.
    apply StronglySorted_app_1_r, StronglySorted_inv in HS as [_ HF].
    rewrite Forall_forall in HF. specialize (HF w ltac:(set_solver)).
    unfold younger in HF. lia.
  - pose proof (ca_sorted _ _ (ro_calvin0 eq_refl)) as HS. rewrite Heq in HS.
    apply StronglySorted_app_1_r, StronglySorted_inv in HS as [_ HF].
    rewrite Forall_forall in HF. by specialize (HF w ltac:(set_solver)).
Qed.

Lemma no_wait_no_waits s t t' : sys_inv NO_WAIT s → ¬ waits_for s t t'.
Proof.
  intros Hs (x&w&Hx&Hw&_). pose proof (si_rows _ _ Hs) as HF.
  rewrite Forall_forall in HF. specialize (HF x Hx). destruct HF, ro_inv0 as [Hrc _].
  rewrite (rc_nowait _ _ _ Hrc eq_refl) in Hw. by apply elem_of_nil in Hw.
Qed.

Lemma tc_waits_rank alg s t t' :
  alg ≠ NO_WAIT → locking alg → sys_inv alg s → tc (waits_for s) t t' →
  rank alg s t' < rank alg s t.
Proof.
  intros Hnw Hal Hs Htc. induction Htc as [t t' H|t t' t'' H _ IH].
  - by apply waits_for_rank.
  - pose proof (waits_for_rank _ _ _ _ Hnw Hal Hs H). lia.
Qed.

(** The first request of a queue waits for a holder in a conflicting mode. *)
Lemma head_waits alg s x w ws :
  row_ok alg s x → waiters (lr_row x) = w :: ws →
  ∃ o, o ∈ lr_held x ∧ conflict_lock (le_type o) (le_type w) = true.
Proof.
  intros [[Hrc Hhb] Hcnt Hty _ _ _ _ _] Hw. unfold head_blocked in Hhb. rewrite Hw in Hhb.
  destruct (lr_held x) as [|o hs].
  - apply (rc_none _ _ _ Hrc) in Hcnt. by rewrite Hcnt in Hhb.
  - exists o. apply Forall_cons in Hty as [-> _]. split; [by left|done].
Qed.

(** The request with the smallest rank among those queued anywhere. *)
Lemma min_rank_waiter alg s (es : list LockEntry) :
  es ≠ [] → ∃ m, m ∈ es ∧ ∀ e, e ∈ es → rank alg s (le_txn m) ≤ rank alg s (le_txn e).
Proof.
  induction es as [|e es IH]; [done|]. intros _. destruct es as [|e' es].
  { exists e. split; [by left|]. by intros ? ->%list_elem_of_singleton. }
  destruct IH as (m&Hm&Hle); [done|].
  destruct (Z.le_gt_cases (rank alg s (le_txn m)) (rank alg s (le_txn e))).
  - exists m. split; [by right|]. intros a [->|Ha]%elem_of_cons; auto.
  - exists e. split; [by left|]. intros a [->|Ha]%elem_of_cons; [lia|].
    specialize (Hle a Ha). lia.
Qed.

Definition all_waiters (s : sys) : list LockEntry :=
  concat ((λ x, waiters (lr_row x)) <$> s_rows s).

Lemma all_waiters_spec s w :
  w ∈ all_waiters s ↔ ∃ x, x ∈ s_rows s ∧ w ∈ waiters (lr_row x).
Proof.
  unfold all_waiters. rewrite list_elem_of_In, in_concat. split.
  - intros (l&Hl%list_elem_of_In&Hw%list_elem_of_In).
    apply list_elem_of_fmap in Hl as (x&->&Hx). eauto.
  - intros (x&Hx&Hw). exists (waiters (lr_row x)).
    split; apply list_elem_of_In; [|done]. apply list_elem_of_fmap. eauto.
Qed.

Lemma progress_inv alg s t :
  locking alg → sys_inv alg s → waiting s t →
  ∃ t', ¬ waiting s t' ∧ ∃ x o w ws, x ∈ s_rows s ∧ o ∈ lr_held x ∧ le_txn o = t' ∧
    waiters (lr_row x) = w :: ws ∧ conflict_lock (le_type o) (le_type w) = true.
Proof.
  intros Hal Hs (x0&w0&Hx0&Hw0&_).
  destruct (decide (alg = NO_WAIT)) as [->|Hnw].
  { pose proof (si_rows _ _ Hs) as HF. rewrite Forall_forall in HF.
    destruct (HF x0 Hx0) as [[Hrc _] _ _ _ _ _ _ _].
    rewrite (rc_nowait _ _ _ Hrc eq_refl) in Hw0. by apply elem_of_nil in Hw0. }
  destruct (min_rank_waiter alg s (all_waiters s)) as (m&Hm&Hmin).
  { intros E. assert (w0 ∈ all_waiters s) as H by (apply all_waiters_spec; eauto).
    rewrite E in H. by apply elem_of_nil in H. }
  apply all_waiters_spec in Hm as (x&Hx&Hm).
  destruct (waiters (lr_row x)) as [|w ws] eqn:Hw; [by apply elem_of_nil in Hm|].
  pose proof (si_rows _ _ Hs) as HF. rewrite Forall_forall in HF.
  destruct (head_waits alg s x w ws (HF x Hx) Hw) as (o&Ho&Hconf).
  assert (rank alg s (le_txn o) < rank alg s (le_txn m)) as Hlt.
  { apply waits_for_rank; [done..|]. exists x, m. rewrite Hw. split_and!; [done..|].
    left. eauto. }
  exists (le_txn o). split; [|by exists x, o, w, ws].
  intros (x'&w'&Hx'&Hw'&E). assert (w' ∈ all_waiters s) as H by (apply all_waiters_spec; eauto).
  specialize (Hmin w' H). rewrite E in Hmin. lia.
Qed.

(** Two requests that hold a row are compatible. *)
Lemma held_compatible alg s x e1 e2 :
  sys_inv alg s → x ∈ s_rows s → e1 ∈ lr_held x → e2 ∈ lr_held x → e1 ≠ e2 →
  conflict_lock (le_type e1) (le_type e2) = false ∧ le_txn e1 ≠ le_txn e2.
Proof.
  intros Hs Hx H1 H2 Hne. pose proof (si_rows _ _ Hs) as HF.
  rewrite Forall_forall in HF. destruct (HF x Hx). destruct ro_inv0 as [Hrc _].
  rewrite Forall_forall in ro_types0. split.
  - rewrite (ro_types0 _ H1), (ro_types0 _ H2).
    apply conflict_lock_false. pose proof (rc_ex _ _ _ Hrc) as Hex.
    destruct (lock_type (lr_row x)) eqn:E; auto. specialize (Hex eq_refl).
    rewrite ro_cnt0 in Hex. destruct (lr_held x) as [|a [|b hs]]; simpl in *; try lia.
    apply list_elem_of_singleton in H1, H2. congruence.
  - intros E. apply Hne. unfold lr_entries in ro_nodup0. rewrite fmap_app in ro_nodup0.
    apply NoDup_app in ro_nodup0 as (Hn&_&_).
    apply list_elem_of_lookup in H1 as [i1 H1], H2 as [i2 H2].
    assert (i1 = i2) as ->; [|congruence].
    eapply (NoDup_lookup _ _ _ (le_txn e1)); [exact Hn| |]; rewrite list_lookup_fmap.
    + by rewrite H1.
    + by rewrite H2, E.
Qed.

(** ** Properties *)

(** C1: mutual exclusion.  In every reachable state of the lock table, under
    NO_WAIT, WAIT_DIE and CALVIN, two different requests that hold the same row
    are in compatible modes: an exclusive holder is the only holder. *)
Theorem mutual_exclusion alg s x e1 e2 :
  locking alg → reachable alg s → x ∈ s_rows s →
  e1 ∈ lr_held x → e2 ∈ lr_held x → e1 ≠ e2 →
  conflict_lock (le_type e1) (le_type e2) = false ∧ le_txn e1 ≠ le_txn e2.
Proof. eauto using held_compatible, reachable_inv. Qed.

(** C2: no deadlock.  In every reachable state no transaction waits for itself,
    directly or through others: under WAIT_DIE waiting goes to strictly younger
    transactions, under CALVIN to transactions earlier in the lock order, and
    under NO_WAIT nobody waits. *)
Theorem deadlock_free alg s t :
  locking alg → reachable alg s → ¬ tc (waits_for s) t t.
Proof.
  intros Hal Hr Htc. pose proof (reachable_inv _ _ Hal Hr) as Hs.
  destruct (decide (alg = NO_WAIT)) as [->|Hnw].
  - destruct Htc as [? ? H|? ? ? H _]; by eapply no_wait_no_waits.
  - pose proof (tc_waits_rank _ _ _ _ Hnw Hal Hs Htc). lia.
Qed.

(** C3: no lost wake-up.  Whenever a transaction waits, some row with a queue is
    held, in a mode that conflicts with the first request of the queue, by a
    transaction that waits for nothing: a release by it is still to come. *)
Theorem waiting_has_runner alg s t :
  locking alg → reachable alg s → waiting s t →
  ∃ t', ¬ waiting s t' ∧ ∃ x o w ws, x ∈ s_rows s ∧ o ∈ lr_held x ∧ le_txn o = t' ∧
    waiters (lr_row x) = w :: ws ∧ conflict_lock (le_type o) (le_type w) = true.
Proof. intros Hal Hr. apply (progress_inv alg); [done|by apply reachable_inv]. Qed.

(** The assertions of the lock manager hold.  In every reachable state a
    request for a row the transaction has no entry in, and a release by a holder,
    run to the end: no assertion of [lock_get] or [lock_release] fails. *)
Theorem lock_calls_safe alg s i x type t :
  locking alg → reachable alg s → s_rows s !! i = Some x → type ≠ LOCK_NONE →
  (t ∈ s_active s → t ∉ le_txn <$> lr_entries x →
   is_Some (lock_get alg type t (mkState (lr_row x) (s_txns s) (s_restarts s)))) ∧
  (t ∈ le_txn <$> lr_held x →
   is_Some (lock_release alg t (mkState (lr_row x) (s_txns s) (s_restarts s)))).
Proof.
  intros Hal Hr Hi Hty. pose proof (reachable_inv _ _ Hal Hr) as Hs. split.
  - intros Ht Hn.
    destruct (lock_get_spec alg type t (mkState (lr_row x) (s_txns s) (s_restarts s)))
      as (rc&s'&->&_); [done|by eapply sys_row_ok|by eapply sys_get_pre|eauto].
  - intros Ht. destruct (decide (alg = CALVIN ∧ recon (s_txns s t) = true)) as [[-> Hc]|Hc].
    + unfold lock_release. simpl. rewrite Hc. eauto.
    + destruct (lock_release_spec alg t (mkState (lr_row x) (s_txns s) (s_restarts s)))
        as (s'&_&->&_); eauto using sys_release_pre, sys_wait_ok.
      by eapply sys_row_ok.
Qed.

(** The ready counter is exact.  In every reachable state [lock_ready_cnt]
    of a transaction is the number of rows it is queued on, plus one while
    [acquire_locks] runs for it, and a queued transaction is not [lock_ready]. *)
Theorem ready_count_exact alg s t :
  locking alg → reachable alg s →
  lock_ready_cnt (s_txns s t) =
    total_waits t (s_rows s) + (if bool_decide (s_cur s = Some t) then 1 else 0) ∧
  (waiting s t → lock_ready (s_txns s t) = false).
Proof.
  intros Hal Hr. destruct (reachable_inv _ _ Hal Hr). split; [done|].
  rewrite waiting_total. auto.
Qed.

(** ** A concrete run *)

(** One row under WAIT_DIE: transaction 0 (timestamp 5) takes it exclusively,
    transaction 1 (timestamp 3, older) asks for it shared and queues. *)
Definition ex_txn (id ts : Z) : TxnManager := mkTxn id 0 ts false 0 false.
Definition ex_h0 : heap := λ _, ex_txn 0 0.
Definition ex_h2 : heap := <[1%nat := ex_txn 11 3]> (<[0%nat := ex_txn 10 5]> ex_h0).
Definition ex_row : locked_row :=
  mkLR (mkRow LOCK_EX 1 1 1 [[mkEntry LOCK_EX 0%nat]] [mkEntry LOCK_SH 1%nat] 5)
       [mkEntry LOCK_EX 0%nat].
Definition ex_sys : sys :=
  mkSys [ex_row] (start_wait ex_h2 1%nat) [] [1%nat; 0%nat] None (λ _, 0) 0.

Lemma ex_reachable : reachable WAIT_DIE ex_sys.
Proof.
  exists 1%nat, ex_h0. split; [done|]. split; [done|].
  eapply rtc_l; [apply (step_begin _ _ 0%nat (ex_txn 10 5)); try done|].
  { by intros ?%elem_of_nil. } { by left. }
  eapply rtc_l; [apply (step_begin _ _ 1%nat (ex_txn 11 3)); try done|].
  { by intros ?%list_elem_of_singleton. } { by repeat constructor. } { by left. }
  eapply rtc_l; [eapply (step_get _ _ 0%nat (mkLR init []) LOCK_EX 0%nat RCOK); try done|].
  { by right; left. } { by intros ?%elem_of_nil. }
  eapply rtc_l; [eapply (step_get _ _ 0%nat _ LOCK_SH 1%nat WAIT); try done|].
  { by left. } { by intros ?%list_elem_of_singleton. }
  apply rtc_refl.
Qed.

(** Two shared holders under NO_WAIT. *)
Definition ex_shared_row : locked_row :=
  mkLR (mkRow LOCK_SH 2 0 1 [[]] [] 5) [mkEntry LOCK_SH 1%nat; mkEntry LOCK_SH 0%nat].
Definition ex_shared : sys :=
  mkSys [ex_shared_row] ex_h2 [] [1%nat; 0%nat] None (λ _, 0) 0.

Lemma ex_shared_reachable : reachable NO_WAIT ex_shared.
Proof.
  exists 1%nat, ex_h0. split; [done|]. split; [done|].
  eapply rtc_l; [apply (step_begin _ _ 0%nat (ex_txn 10 5)); try done|].
  { by intros ?%elem_of_nil. } { by left. }
  eapply rtc_l; [apply (step_begin _ _ 1%nat (ex_txn 11 3)); try done|].
  { by intros ?%list_elem_of_singleton. } { by repeat constructor. } { by left. }
  eapply rtc_l; [eapply (step_get _ _ 0%nat (mkLR init []) LOCK_SH 0%nat RCOK); try done|].
  { by right; left. } { by intros ?%elem_of_nil. }
  eapply rtc_l; [eapply (step_get _ _ 0%nat _ LOCK_SH 1%nat RCOK); try done|].
  { by left. } { by intros ?%list_elem_of_singleton. }
  apply rtc_refl.
Qed.

Lemma mutual_exclusion_witness :
  conflict_lock LOCK_SH LOCK_SH = false ∧ 1%nat ≠ 0%nat.
Proof.
  apply (mutual_exclusion NO_WAIT ex_shared ex_shared_row
    (mkEntry LOCK_SH 1%nat) (mkEntry LOCK_SH 0%nat)).
  - by left.
  - exact ex_shared_reachable.
  - by left.
  - by left.
  - by right; left.
  - done.
Defined.

Lemma deadlock_free_witness : ¬ tc (waits_for ex_sys) 1%nat 1%nat.
Proof. apply (deadlock_free WAIT_DIE); [by right; left|exact ex_reachable]. Defined.

Lemma waiting_has_runner_witness :
  ∃ t', ¬ waiting ex_sys t' ∧ ∃ x o w ws, x ∈ s_rows ex_sys ∧ o ∈ lr_held x ∧
    le_txn o = t' ∧ waiters (lr_row x) = w :: ws ∧
    conflict_lock (le_type o) (le_type w) = true.
Proof.
  apply (waiting_has_runner WAIT_DIE ex_sys 1%nat).
  - by right; left.
  - exact ex_reachable.
  - exists ex_row, (mkEntry LOCK_SH 1%nat). by repeat split; left.
Defined.

Lemma lock_calls_safe_witness :
  is_Some (lock_release WAIT_DIE 0%nat (mkState (lr_row ex_row) (s_txns ex_sys) [])).
Proof.
  destruct (lock_calls_safe WAIT_DIE ex_sys 0%nat ex_row LOCK_SH 0%nat) as [_ H].
  - by right; left.
  - exact ex_reachable.
  - done.
  - done.
  - apply H. by left.
Defined.

Lemma ready_count_exact_witness :
  lock_ready_cnt (s_txns ex_sys 1%nat) = 1 + 0 ∧
  (waiting ex_sys 1%nat → lock_ready (s_txns ex_sys 1%nat) = false).
Proof.
  apply (ready_count_exact WAIT_DIE ex_sys 1%nat); [by right; left|exact ex_reachable].
Defined.

End LockTable.
