(* ===== verification/RowMvcc.v ===== *)
(** * Row_mvcc: multi-version timestamp ordering on one row

    Model of [class Row_mvcc] (concurrency_control/row_mvcc.h, row_mvcc.cpp).
    The four linked lists are Rocq lists, head first: the histories from the
    newest to the oldest timestamp, the request stacks from the last push.
    [row_t *] is an address in a store of contents; recycling a version writes
    its content into the base row and frees older versions, so both are part of
    the state.  The latch makes a call one atomic step.  The timing fields
    ([starttime], [cc_time], [cc_block_time]) only feed statistics. *)

From S2P Require Import Prelude.

Module RowMvcc.
Section mvcc.

(** The content of a row. *)
Context {V : Type}.
(** [g_max_read_req], [g_max_pre_req] and [g_his_recycle_len]. *)
Context (max_read_req max_pre_req his_recycle_len : Z).

Definition txn_ptr := nat.
Definition row_ptr := nat.

Record MVReqEntry := mkReq { rq_txn : txn_ptr; rq_ts : Z }.
Record MVHisEntry := mkHis { hi_ts : Z; hi_row : option row_ptr }.

(** A performed read: the transaction, its timestamp and the row its [cur_row]
    was pointed to. *)
Record read := mkRead { rd_txn : txn_ptr; rd_ts : Z; rd_row : row_ptr }.

Record Row_mvcc := mkMvcc {
  m_row : row_ptr;
  readreq : list MVReqEntry;
  prereq : list MVReqEntry;
  readhis : list MVHisEntry;
  writehis : list MVHisEntry;
  whis_len : Z; rhis_len : Z; rreq_len : Z; preq_len : Z }.

(** The row with the store of contents, the rows handed back to the allocator,
    the [ts_ready] flags, the assignments to [cur_row] (newest first) and the
    transactions passed to [txn_table.restart_txn]. *)
Record state := mkSt {
  mv : Row_mvcc;
  store : row_ptr → V;
  freed : list row_ptr;
  ts_ready : txn_ptr → bool;
  reads : list read;
  restarts : list txn_ptr }.

(** ** Operations *)

Definition init (row : row_ptr) : Row_mvcc :=
  mkMvcc row [] [] [] [] 0 0 0 0.

(** The loop of [clear_history] from the tail, over the reversed list: the kept
    entries, the row of the last entry removed, the rows freed and the number of
    entries removed. *)
Fixpoint clear_loop (ts : Z) (his : list MVHisEntry) (row : option row_ptr)
    (fr : list row_ptr) (n : Z) : option (list MVHisEntry * option row_ptr * list row_ptr * Z) :=
  match his with
  | h :: ((prev :: _) as rest) =>
      if hi_ts prev <? ts then
        ASSERT hi_ts h <=? hi_ts prev;
        clear_loop ts rest (hi_row h)
          (match row with Some r => r :: fr | None => fr end) (n + 1)
      else Some (his, row, fr, n)
  | _ => Some (his, row, fr, n)
  end.

Definition clear_history (type : TsType) (ts : Z) (s : state)
    : option (option row_ptr * state) :=
  let m := mv s in
  match type with
  | R_REQ =>
      '(kept, row, fr, n) ← clear_loop ts (rev (readhis m)) None (freed s) 0;
      Some (row, mkSt (mkMvcc (m_row m) (readreq m) (prereq m) (rev kept) (writehis m)
                         (whis_len m) (wrap64 (rhis_len m - n)) (rreq_len m) (preq_len m))
                      (store s) fr (ts_ready s) (reads s) (restarts s))
  | W_REQ =>
      '(kept, row, fr, n) ← clear_loop ts (rev (writehis m)) None (freed s) 0;
      Some (row, mkSt (mkMvcc (m_row m) (readreq m) (prereq m) (readhis m) (rev kept)
                         (wrap64 (whis_len m - n)) (rhis_len m) (rreq_len m) (preq_len m))
                      (store s) fr (ts_ready s) (reads s) (restarts s))
  | _ => None
  end.

Definition buffer_req (type : TsType) (t : txn_ptr) (ts : Z) (m : Row_mvcc) : Row_mvcc :=
  match type with
  | R_REQ => mkMvcc (m_row m) (mkReq t ts :: readreq m) (prereq m) (readhis m) (writehis m)
               (whis_len m) (rhis_len m) (wrap64 (rreq_len m + 1)) (preq_len m)
  | P_REQ => mkMvcc (m_row m) (readreq m) (mkReq t ts :: prereq m) (readhis m) (writehis m)
               (whis_len m) (rhis_len m) (rreq_len m) (wrap64 (preq_len m + 1))
  | _ => m
  end.

(** [debuffer_req(P_REQ, txn)]: the request of [txn] leaves the stack. *)
Definition debuffer_pre (t : txn_ptr) (m : Row_mvcc) : option (MVReqEntry * Row_mvcc) :=
  '(req, rest) ← remove_first (λ r, bool_decide (rq_txn r = t)) (prereq m);
  Some (req, mkMvcc (m_row m) (readreq m) rest (readhis m) (writehis m)
               (whis_len m) (rhis_len m) (rreq_len m) (wrap64 (preq_len m - 1))).

Fixpoint min_pts (l : list MVReqEntry) (acc : Z) : Z :=
  match l with
  | [] => acc
  | preq :: l' => min_pts l' (if rq_ts preq <? acc then rq_ts preq else acc)
  end.

(** The unlinking loop of [debuffer_req(R_REQ, NULL)]: requests up to [bound] are
    pushed on the returned stack, the others stay in order. *)
Fixpoint debuffer_loop (bound : Z) (reqs : list MVReqEntry) (ret : list MVReqEntry)
    : list MVReqEntry * list MVReqEntry :=
  match reqs with
  | [] => ([], ret)
  | req :: reqs' =>
      if rq_ts req <=? bound then debuffer_loop bound reqs' (req :: ret)
      else let '(keep, out) := debuffer_loop bound reqs' ret in (req :: keep, out)
  end.

(** [debuffer_req(R_REQ, NULL)]. *)
Definition debuffer_reads (m : Row_mvcc) : list MVReqEntry * Row_mvcc :=
  let '(keep, out) := debuffer_loop (min_pts (prereq m) UINT64_MAX) (readreq m) [] in
  (out, mkMvcc (m_row m) keep (prereq m) (readhis m) (writehis m)
          (whis_len m) (rhis_len m) (wrap64 (rreq_len m - zlen out)) (preq_len m)).

(** [insert_history(ts, row)]: before the first entry that is not newer. *)
Definition insert_his (e : MVHisEntry) (l : list MVHisEntry) : list MVHisEntry :=
  insert_after_while (λ h, hi_ts e <? hi_ts h) e l.

Definition insert_history (ts : Z) (row : option row_ptr) (m : Row_mvcc) : Row_mvcc :=
  match row with
  | Some r => mkMvcc (m_row m) (readreq m) (prereq m) (readhis m)
                (insert_his (mkHis ts (Some r)) (writehis m))
                (wrap64 (whis_len m + 1)) (rhis_len m) (rreq_len m) (preq_len m)
  | None => mkMvcc (m_row m) (readreq m) (prereq m)
                (insert_his (mkHis ts None) (readhis m)) (writehis m)
                (whis_len m) (wrap64 (rhis_len m + 1)) (rreq_len m) (preq_len m)
  end.

(** The newest prewrite older than [ts], or [0]. *)
Fixpoint newest_pre (ts : Z) (l : list MVReqEntry) (pts : Z) : Z :=
  match l with
  | [] => pts
  | req :: l' =>
      newest_pre ts l' (if (rq_ts req <? ts) && (pts <? rq_ts req) then rq_ts req else pts)
  end.

(** The oldest read newer than [ts], or [0]: the scan stops at the first read
    that is not newer. *)
Fixpoint oldest_read (ts : Z) (l : list MVHisEntry) (rts : Z) : Z :=
  match l with
  | [] => rts
  | his :: l' => if ts <? hi_ts his then oldest_read ts l' (hi_ts his) else rts
  end.

(** No version strictly between [pts] and [rts]. *)
Fixpoint no_write_between (pts rts : Z) (l : list MVHisEntry) : bool :=
  match l with
  | [] => true
  | whis :: l' =>
      if pts <? hi_ts whis then
        if hi_ts whis <? rts then false else no_write_between pts rts l'
      else true
  end.

Definition conflict (type : TsType) (ts : Z) (m : Row_mvcc) : option bool :=
  match type with
  | R_REQ =>
      let pts := newest_pre ts (prereq m) 0 in
      if pts =? 0 then Some false else Some (no_write_between pts ts (writehis m))
  | P_REQ =>
      let rts := oldest_read ts (readhis m) 0 in
      if rts =? 0 then Some false
      else ASSERT ts <? rts; Some (no_write_between ts rts (writehis m))
  | _ => None
  end.

(** The version a read at [ts] sees. *)
Fixpoint find_version (ts : Z) (base : row_ptr) (l : list MVHisEntry) : option row_ptr :=
  match l with
  | [] => Some base
  | whis :: l' => if ts <? hi_ts whis then find_version ts base l' else hi_row whis
  end.

(** One iteration of [update_buffer]. *)
Definition serve_read (s : state) (req : MVReqEntry) : option state :=
  row ← find_version (rq_ts req) (m_row (mv s)) (writehis (mv s));
  Some (mkSt (insert_history (rq_ts req) None (mv s)) (store s) (freed s)
          (<[rq_txn req := true]> (ts_ready s))
          (mkRead (rq_txn req) (rq_ts req) row :: reads s) (restarts s ++ [rq_txn req])).

Fixpoint serve_reads (reqs : list MVReqEntry) (s : state) : option state :=
  match reqs with
  | [] => Some s
  | req :: reqs' => s' ← serve_read s req; serve_reads reqs' s'
  end.

Definition set_mv (m : Row_mvcc) (s : state) : state :=
  mkSt m (store s) (freed s) (ts_ready s) (reads s) (restarts s).

Definition update_buffer (s : state) : option state :=
  let '(ready, m) := debuffer_reads (mv s) in serve_reads ready (set_mv m s).

(** The recycling at the end of [access]; [t_th] is the answer of
    [glob_manager.get_min_ts]. *)
Definition recycle_reads (t_th : Z) (s : state) : option state :=
  match last (readhis (mv s)) with
  | Some tail =>
      if hi_ts tail <? t_th then '(_, s') ← clear_history R_REQ t_th s; Some s' else Some s
  | None => Some s
  end.

Definition recycle_writes (t_th : Z) (s : state) : option state :=
  if 1 <? whis_len (mv s) then
    match rev (writehis (mv s)) with
    | _ :: prev :: _ =>
        if hi_ts prev <? t_th then
          '(latest, s') ← clear_history W_REQ t_th s;
          match latest with
          | Some r =>
              ASSERT negb (bool_decide (m_row (mv s') = r));
              Some (mkSt (mv s') (<[m_row (mv s') := store s' r]> (store s')) (freed s')
                      (ts_ready s') (reads s') (restarts s'))
          | None => Some s'
          end
        else Some s
    | _ => None (* writehistail->prev is dereferenced *)
    end
  else Some s.

Definition recycle (t_th : Z) (s : state) : option state :=
  if (his_recycle_len <? whis_len (mv s)) || (his_recycle_len <? rhis_len (mv s)) then
    s' ← recycle_reads t_th s; recycle_writes t_th s'
  else Some s.

(** [access(txn, type, row)] up to the recycling. *)
Definition access_op (t : txn_ptr) (ts : Z) (type : TsType) (row : option row_ptr) (s : state)
    : option (RC * state) :=
  let m := mv s in
  match type with
  | R_REQ =>
      conf ← conflict R_REQ ts m;
      if (conf : bool) && (rreq_len m <? max_read_req) then
        Some (WAIT, mkSt (buffer_req R_REQ t ts m) (store s) (freed s)
                      (<[t := false]> (ts_ready s)) (reads s) (restarts s))
      else if conf then Some (Abort, s)
      else
        ret ← find_version ts (m_row m) (writehis m);
        Some (RCOK, mkSt (insert_history ts None m) (store s) (freed s) (ts_ready s)
                      (mkRead t ts ret :: reads s) (restarts s))
  | P_REQ =>
      conf ← conflict P_REQ ts m;
      if (conf : bool) then Some (Abort, s)
      else if preq_len m <? max_pre_req then Some (RCOK, set_mv (buffer_req P_REQ t ts m) s)
      else Some (Abort, s)
  | W_REQ =>
      '(_, m') ← debuffer_pre t (insert_history ts row m);
      s' ← update_buffer (set_mv m' s);
      Some (RCOK, s')
  | XP_REQ =>
      '(_, m') ← debuffer_pre t m;
      s' ← update_buffer (set_mv m' s);
      Some (RCOK, s')
  end.

Definition access (t : txn_ptr) (ts : Z) (type : TsType) (row : option row_ptr) (t_th : Z)
    (s : state) : option (RC * state) :=
  '(rc, s') ← access_op t ts type row s;
  if bool_decide (rc = RCOK) then s'' ← recycle t_th s'; Some (rc, s'')
  else Some (rc, s').

(** ** The row in its environment *)

(** Ghost state: all versions ever committed, every read with the content it
    returned, and the largest answer of [get_min_ts] so far. *)
Record gstate := mkG {
  g_st : state;
  g_writes : list (Z * V);
  g_seen : list (read * V);
  g_floor : Z }.

Definition new_reads (s s' : state) : list read :=
  take (length (reads s') - length (reads s)) (reads s').

(** What the callers guarantee: a transaction reads before it commits, prewrites
    once, and writes or cancels only what it has prewritten, with a row of its
    own.  Nothing is assumed of the answers of [get_min_ts]: a transaction that
    is not yet in the transaction table, or runs on another node, may have a
    timestamp below them. *)
Record enabled (x : gstate) (t : txn_ptr) (ts : Z) (type : TsType) (row : option row_ptr) : Prop := {
  en_pos : 0 < ts;
  en_fresh : ts ∉ (g_writes x).*1;
  en_pre : match type with
    | P_REQ => Forall (λ q, rq_txn q ≠ t ∧ rq_ts q ≠ ts) (prereq (mv (g_st x)))
    | W_REQ | XP_REQ => mkReq t ts ∈ prereq (mv (g_st x))
    | R_REQ => True
    end;
  en_row : type = W_REQ →
    Forall (λ q, rq_ts q ≠ ts) (readreq (mv (g_st x))) ∧
    ∃ p, row = Some p ∧ p ≠ m_row (mv (g_st x)) ∧ (p ∉ freed (g_st x)) ∧
         Some p ∉ (hi_row <$> writehis (mv (g_st x))) }.

(** Whether the call asks for the smallest timestamp, before [recycle]. *)
Definition asks (rc : RC) (s : state) : bool :=
  bool_decide (rc = RCOK) && ((his_recycle_len <? whis_len (mv s)) || (his_recycle_len <? rhis_len (mv s))).

Inductive step (x : gstate) : gstate → Prop :=
  | step_access t ts type row t_th rc s1 s' :
      enabled x t ts type row →
      access_op t ts type row (g_st x) = Some (rc, s1) →
      access t ts type row t_th (g_st x) = Some (rc, s') →
      step x (mkG s'
        (match type, row with W_REQ, Some p => (ts, store (g_st x) p) :: g_writes x
                            | _, _ => g_writes x end)
        (map (λ r, (r, store s1 (rd_row r))) (new_reads (g_st x) s1) ++ g_seen x)
        (if asks rc s1 then Z.max (g_floor x) t_th else g_floor x))
  | step_fill p v :
      (* a transaction prepares the content of a row of its own *)
      p ≠ m_row (mv (g_st x)) → Some p ∉ (hi_row <$> writehis (mv (g_st x))) →
      step x (mkG (mkSt (mv (g_st x)) (<[p := v]> (store (g_st x))) (freed (g_st x))
                     (ts_ready (g_st x)) (reads (g_st x)) (restarts (g_st x)))
                (g_writes x) (g_seen x) (g_floor x)).

Definition start (row : row_ptr) (st : row_ptr → V) : gstate :=
  mkG (mkSt (init row) st [] (λ _, true) [] []) [] [] 0.

(** [v] is the newest version committed before [r], or the initial content. *)
Definition latest (ws : list (Z * V)) (v0 : V) (r : Z) (v : V) : Prop :=
  (∃ w, (w, v) ∈ ws ∧ w < r ∧ ∀ w' v', (w', v') ∈ ws → w' < r → w' ≤ w) ∨
  (v = v0 ∧ ∀ w' v', (w', v') ∈ ws → r ≤ w').

(** The row a read holds is still what it was, and still allocated. *)
Definition held (x : gstate) (v0 : V) (rd : read) (v : V) : Prop :=
  (∃ e, e ∈ writehis (mv (g_st x)) ∧ hi_row e = Some (rd_row rd) ∧
        store (g_st x) (rd_row rd) = v ∧ hi_ts e < rd_ts rd ∧
        ∀ w' v', (w', v') ∈ g_writes x → w' < rd_ts rd → w' ≤ hi_ts e) ∨
  (rd_row rd = m_row (mv (g_st x)) ∧ store (g_st x) (rd_row rd) = v ∧ v = v0 ∧
   ∀ w' v', (w', v') ∈ g_writes x → rd_ts rd ≤ w').

Definition between (x : gstate) (p r : Z) : Prop :=
  ∃ w v, (w, v) ∈ g_writes x ∧ p < w < r.

Record inv (v0 : V) (x : gstate) : Prop := {
  i_wsorted : StronglySorted (λ a b, hi_ts b < hi_ts a) (writehis (mv (g_st x)));
  i_rsorted : StronglySorted (λ a b, hi_ts b ≤ hi_ts a) (readhis (mv (g_st x)));
  i_rrow : ∀ e, e ∈ readhis (mv (g_st x)) → hi_row e = None;
  i_wlen : whis_len (mv (g_st x)) = wrap64 (zlen (writehis (mv (g_st x))));
  i_wrow : ∀ e, e ∈ writehis (mv (g_st x)) → ∃ p, hi_row e = Some p ∧
    p ≠ m_row (mv (g_st x)) ∧ (p ∉ freed (g_st x)) ∧ (hi_ts e, store (g_st x) p) ∈ g_writes x;
  i_wnodup : NoDup (hi_row <$> writehis (mv (g_st x)));
  i_removed : ∀ w v, (w, v) ∈ g_writes x →
    (∃ e, e ∈ writehis (mv (g_st x)) ∧ hi_ts e = w) ∨
    (∃ e, e ∈ writehis (mv (g_st x)) ∧ w < hi_ts e < g_floor x);
  i_base : (m_row (mv (g_st x)) ∉ freed (g_st x)) ∧
    (store (g_st x) (m_row (mv (g_st x))) = v0 ∨
     ∃ e, e ∈ writehis (mv (g_st x)) ∧ hi_ts e < g_floor x);
  i_pre : NoDup (rq_txn <$> prereq (mv (g_st x))) ∧ NoDup (rq_ts <$> prereq (mv (g_st x))) ∧
    ∀ q, q ∈ prereq (mv (g_st x)) →
      0 < rq_ts q ∧ rq_ts q ∉ (g_writes x).*1;
  i_rreq : ∀ q, q ∈ readreq (mv (g_st x)) → rq_ts q ∉ (g_writes x).*1;
  i_reads : (g_seen x).*1 = reads (g_st x);
  i_readhis : ∀ rd v, (rd, v) ∈ g_seen x → g_floor x ≤ rd_ts rd →
    ∃ e, e ∈ readhis (mv (g_st x)) ∧ hi_ts e = rd_ts rd;
  i_pend : ∀ rd v q, (rd, v) ∈ g_seen x → g_floor x ≤ rd_ts rd → q ∈ prereq (mv (g_st x)) →
    rq_ts q < rd_ts rd → between x (rq_ts q) (rd_ts rd);
  i_held : ∀ rd v, (rd, v) ∈ g_seen x → g_floor x ≤ rd_ts rd → held x v0 rd v;
  i_latest : ∀ rd v, (rd, v) ∈ g_seen x → g_floor x ≤ rd_ts rd → latest (g_writes x) v0 (rd_ts rd) v }.

(** ** Lemmas on the scans *)

Lemma newest_pre_spec ts l acc :
  acc ≤ newest_pre ts l acc ∧
  (newest_pre ts l acc = acc ∨ newest_pre ts l acc < ts) ∧
  ∀ q, q ∈ l → rq_ts q < ts → rq_ts q ≤ newest_pre ts l acc.
Proof.
  revert acc. induction l as [|q l IH]; intros acc; simpl.
  { split; [lia|]. split; [by left|]. by intros ? ?%elem_of_nil. }
  destruct (IH (if (rq_ts q <? ts) && (acc <? rq_ts q) then rq_ts q else acc)) as (H1&H2&H3).
  destruct (Z.ltb_spec (rq_ts q) ts), (Z.ltb_spec acc (rq_ts q)); simpl in *;
    (split; [lia|split; [lia|]]); intros q' [->|Hq]%elem_of_cons Hlt; auto; lia.
Qed.

Lemma oldest_read_spec ts l acc :
  StronglySorted (λ a b, hi_ts b ≤ hi_ts a) l → acc = 0 ∨ ts < acc → 0 < ts →
  (oldest_read ts l acc = 0 → acc = 0 ∧ ∀ e, e ∈ l → hi_ts e ≤ ts) ∧
  (oldest_read ts l acc ≠ 0 → ts < oldest_read ts l acc ∧
     ∀ e, e ∈ l → ts < hi_ts e → oldest_read ts l acc ≤ hi_ts e).
Proof.
  revert acc. induction l as [|h l IH]; intros acc HS Hacc Hts; simpl.
  { split; intros; split; try lia; by intros ? ?%elem_of_nil. }
  apply StronglySorted_inv in HS as [HS HF]. rewrite Forall_forall in HF.
  destruct (Z.ltb_spec ts (hi_ts h)).
  - destruct (IH (hi_ts h) HS) as [H1 H2]; [lia|done|]. split.
    + intros Hz. destruct (H1 Hz). lia.
    + intros Hnz. destruct (H2 Hnz) as [? Hmin]. split; [done|].
      intros e [->|He]%elem_of_cons Hlt; [|auto].
      clear IH H1 H2. destruct l as [|h' l]; simpl in *; [lia|].
      destruct (Z.ltb_spec ts (hi_ts h')).
      * specialize (Hmin h' ltac:(by left) ltac:(done)). specialize (HF h' ltac:(by left)). lia.
      * lia.
  - split.
    + intros ->. split; [done|]. intros e [->|He]%elem_of_cons; [lia|].
      specialize (HF e He). simpl in HF. lia.
    + intros ?. split; [lia|]. intros e [->|He]%elem_of_cons ?; [lia|].
      specialize (HF e He). simpl in HF. lia.
Qed.

Lemma no_write_between_false pts rts l :
  no_write_between pts rts l = false → ∃ e, e ∈ l ∧ pts < hi_ts e < rts.
Proof.
  induction l as [|h l IH]; simpl; [done|].
  destruct (Z.ltb_spec pts (hi_ts h)); [|done]. destruct (Z.ltb_spec (hi_ts h) rts).
  - intros _. exists h. split; [by left|lia].
  - intros H'. destruct (IH H') as (e&?&?). exists e. split; [by right|done].
Qed.

Lemma min_pts_spec l acc :
  min_pts l acc ≤ acc ∧ ∀ q, q ∈ l → min_pts l acc ≤ rq_ts q.
Proof.
  revert acc. induction l as [|q l IH]; intros acc; simpl.
  { split; [lia|]. by intros ? ?%elem_of_nil. }
  destruct (IH (if rq_ts q <? acc then rq_ts q else acc)) as [H1 H2].
  destruct (Z.ltb_spec (rq_ts q) acc); (split; [lia|]);
    intros q' [->|Hq]%elem_of_cons; auto; lia.
Qed.

Lemma debuffer_loop_spec bound reqs ret keep out :
  debuffer_loop bound reqs ret = (keep, out) →
  (∀ q, q ∈ keep → q ∈ reqs) ∧
  (∀ q, q ∈ out → q ∈ ret ∨ (q ∈ reqs ∧ rq_ts q ≤ bound)).
Proof.
  revert ret keep out. induction reqs as [|q reqs IH]; intros ret keep out; simpl.
  { intros [= <- <-]. split; [by intros ? ?%elem_of_nil|auto]. }
  destruct (Z.leb_spec (rq_ts q) bound).
  - intros E. destruct (IH _ _ _ E) as [H1 H2]. split.
    + intros q' Hq'. right. auto.
    + intros q' Hq'. destruct (H2 q' Hq') as [[->|?]%elem_of_cons|[? ?]]; auto.
      * right. split; [by left|done].
      * right. split; [by right|done].
  - destruct (debuffer_loop bound reqs ret) as [k o] eqn:E. intros [= <- <-].
    destruct (IH _ _ _ E) as [H1 H2]. split.
    + intros q' [->|Hq']%elem_of_cons; [by left|right; auto].
    + intros q' Hq'. destruct (H2 q' Hq') as [|[? ?]]; auto. right. split; [by right|done].
Qed.

(** Walking the version list: the first entry that is not newer than [ts], or
    the base row when every entry is newer. *)
Lemma find_version_spec ts base l :
  StronglySorted (λ a b, hi_ts b < hi_ts a) l →
  (find_version ts base l = Some base ∧ ∀ e, e ∈ l → ts < hi_ts e) ∨
  (∃ e, e ∈ l ∧ find_version ts base l = hi_row e ∧ hi_ts e ≤ ts ∧
     ∀ e', e' ∈ l → hi_ts e' ≤ ts → hi_ts e' ≤ hi_ts e).
Proof.
  induction l as [|h l IH]; intros HS; simpl.
  { left. split; [done|]. by intros ? ?%elem_of_nil. }
  apply StronglySorted_inv in HS as [HS HF]. rewrite Forall_forall in HF.
  destruct (Z.ltb_spec ts (hi_ts h)).
  - destruct (IH HS) as [[-> Hn]|(e&He&->&Hle&Hmax)].
    + left. split; [done|]. intros e [->|He]%elem_of_cons; auto.
    + right. exists e. split; [by right|]. split_and!; [done..|].
      intros e' [->|He']%elem_of_cons ?; [lia|auto].
  - right. exists h. split; [by left|]. split_and!; [done..|].
    intros e' [->|He']%elem_of_cons ?; [lia|]. specialize (HF e' He'). simpl in HF. lia.
Qed.

Lemma insert_his_elem e e' l : e' ∈ insert_his e l ↔ e' = e ∨ e' ∈ l.
Proof. unfold insert_his. by rewrite insert_after_while_perm, elem_of_cons. Qed.

(** ** Reads *)

(** The versions a read below [r] can see are all in the list. *)
Lemma no_version_below v0 x r :
  inv v0 x → g_floor x ≤ r →
  (∀ e, e ∈ writehis (mv (g_st x)) → r < hi_ts e) →
  store (g_st x) (m_row (mv (g_st x))) = v0 ∧ ∀ w v, (w, v) ∈ g_writes x → r < w.
Proof.
  intros [] Hf Hn. split.
  - destruct i_base0 as [_ [|(e&He&?)]]; [done|]. specialize (Hn e He). lia.
  - intros w v Hw. destruct (i_removed0 w v Hw) as [(e&He&<-)|(e&He&?)]; [auto|].
    specialize (Hn e He). lia.
Qed.

Lemma version_below v0 x r e :
  inv v0 x → g_floor x ≤ r → e ∈ writehis (mv (g_st x)) →
  (∀ e', e' ∈ writehis (mv (g_st x)) → hi_ts e' ≤ r → hi_ts e' ≤ hi_ts e) →
  ∀ w v, (w, v) ∈ g_writes x → w < r → w ≤ hi_ts e.
Proof.
  intros [] Hf He Hmax w v Hw Hlt.
  destruct (i_removed0 w v Hw) as [(e'&He'&<-)|(e'&He'&?)].
  - apply Hmax; [done|lia].
  - specialize (Hmax e' He'). lia.
Qed.

(** The state after a read of [row] at [ts] by [t]. *)
Definition add_read (x : gstate) (t : txn_ptr) (ts : Z) (row : row_ptr)
    (rdy : txn_ptr → bool) (rst : list txn_ptr) : gstate :=
  mkG (mkSt (insert_history ts None (mv (g_st x))) (store (g_st x)) (freed (g_st x)) rdy
        (mkRead t ts row :: reads (g_st x)) rst)
    (g_writes x) ((mkRead t ts row, store (g_st x) row) :: g_seen x) (g_floor x).

Lemma read_total v0 x ts : inv v0 x →
  ∃ row, find_version ts (m_row (mv (g_st x))) (writehis (mv (g_st x))) = Some row.
Proof.
  intros Hi. destruct (find_version_spec ts (m_row (mv (g_st x))) _ (i_wsorted _ _ Hi)) as [[-> _]|(e&He&->&_)]; [eauto|].
  destruct (i_wrow _ _ Hi e He) as (p&->&_). eauto.
Qed.

Lemma read_found v0 x t ts row :
  inv v0 x → g_floor x ≤ ts → ts ∉ (g_writes x).*1 →
  find_version ts (m_row (mv (g_st x))) (writehis (mv (g_st x))) = Some row →
  held x v0 (mkRead t ts row) (store (g_st x) row).
Proof.
  intros Hi Hf Hn.
  destruct (find_version_spec ts (m_row (mv (g_st x))) _ (i_wsorted _ _ Hi))
    as [[-> Hno]|(e&He&->&Hle&Hmax)].
  - intros [= <-]. right. simpl.
    destruct (no_version_below _ _ _ Hi Hf Hno) as [-> Hw]. split_and!; try done.
    intros w v Hwv. specialize (Hw w v Hwv). lia.
  - destruct (i_wrow _ _ Hi e He) as (p&Hp&_&_&Hin). rewrite Hp. intros [= <-].
    left. exists e. simpl. split_and!; try done.
    + assert (hi_ts e ≠ ts); [|lia]. intros <-. apply Hn.
      apply list_elem_of_fmap. by exists (hi_ts e, store (g_st x) p).
    + by eapply version_below.
Qed.

Lemma held_latest v0 x rd v : inv v0 x → held x v0 rd v → latest (g_writes x) v0 (rd_ts rd) v.
Proof.
  intros Hi [(e&He&Hp&Hv&Hlt&Hmax)|(_&_&->&Hno)]; [left|by right].
  exists (hi_ts e). split_and!; [|done..].
  destruct (i_wrow _ _ Hi e He) as (p&Hp'&_&_&Hin). rewrite Hp in Hp'. by simplify_eq.
Qed.

Lemma add_read_inv v0 x t ts row rdy rst :
  inv v0 x → ts ∉ (g_writes x).*1 →
  (∀ q, q ∈ prereq (mv (g_st x)) → rq_ts q < ts → between x (rq_ts q) ts) →
  find_version ts (m_row (mv (g_st x))) (writehis (mv (g_st x))) = Some row →
  inv v0 (add_read x t ts row rdy rst).
Proof.
  intros Hi Hn Hp Hrow. pose proof (λ Hf, read_found v0 x t ts row Hi Hf Hn Hrow) as Hheld.
  pose proof (λ Hf, held_latest _ _ _ _ Hi (Hheld Hf)) as Hlat. simpl in Hlat.
  destruct Hi. split; simpl; auto.
  - apply insert_after_while_sorted; simpl.
    + intros a b c. lia.
    + intros y _ ?%Z.ltb_lt. lia.
    + intros y _ ?%Z.ltb_ge. lia.
    + done.
  - intros e [->|He]%insert_his_elem; auto.
  - by f_equal.
  - intros rd v [[= -> ->]|Hin]%elem_of_cons Hle; simpl.
    + exists (mkHis ts None). split; [|done]. apply insert_his_elem. by left.
    + destruct (i_readhis0 rd v Hin Hle) as (e&?&?). exists e. split; [|done].
      apply insert_his_elem. by right.
  - intros rd v q [[= -> ->]|Hin]%elem_of_cons Hf Hq; simpl; [by apply Hp|eauto].
  - intros rd v [[= -> ->]|Hin]%elem_of_cons Hle; [by apply Hheld|by apply i_held0].
  - intros rd v [[= -> ->]|Hin]%elem_of_cons Hle; [by apply Hlat|by apply i_latest0].
Qed.

(** A read that finds no conflict: a committed version lies between every
    pending prewrite below it and the read. *)
Lemma read_no_conflict v0 x ts :
  inv v0 x → conflict R_REQ ts (mv (g_st x)) = Some false →
  ∀ q, q ∈ prereq (mv (g_st x)) → rq_ts q < ts → between x (rq_ts q) ts.
Proof.
  intros Hi Hc q Hq Hlt. unfold conflict in Hc.
  destruct (newest_pre_spec ts (prereq (mv (g_st x))) 0) as (_&_&Hnew).
  specialize (Hnew q Hq Hlt). destruct (i_pre _ _ Hi) as (_&_&Hpos).
  destruct (Hpos q Hq) as [? _].
  destruct (Z.eqb_spec (newest_pre ts (prereq (mv (g_st x))) 0) 0); [lia|].
  injection Hc as Hc. apply no_write_between_false in Hc as (e&He&?).
  destruct (i_wrow _ _ Hi e He) as (p&_&_&_&Hin). exists (hi_ts e), (store (g_st x) p).
  split; [done|lia].
Qed.

(** A prewrite that finds no conflict: a committed version lies between it and
    every read above it. *)
Lemma prewrite_no_conflict v0 x ts :
  inv v0 x → 0 < ts → conflict P_REQ ts (mv (g_st x)) = Some false →
  ∀ rd v, (rd, v) ∈ g_seen x → g_floor x ≤ rd_ts rd → ts < rd_ts rd → between x ts (rd_ts rd).
Proof.
  intros Hi Hpos Hc rd v Hrd Hf Hlt. unfold conflict in Hc.
  destruct (i_readhis _ _ Hi rd v Hrd) as (e&He&Hets); [done|].
  destruct (oldest_read_spec ts _ 0 (i_rsorted _ _ Hi)) as [H1 H2]; [by left|done|].
  destruct (Z.eqb_spec (oldest_read ts (readhis (mv (g_st x))) 0) 0) as [Hz|Hz].
  { destruct (H1 Hz) as [_ Hall]. specialize (Hall e He). lia. }
  destruct (H2 Hz) as [Hts Hmin]. rewrite assert_bind_true in Hc by by apply Z.ltb_lt.
  injection Hc as Hc. apply no_write_between_false in Hc as (e'&He'&?).
  specialize (Hmin e He ltac:(lia)).
  destruct (i_wrow _ _ Hi e' He') as (p&_&_&_&Hin). exists (hi_ts e'), (store (g_st x) p).
  split; [done|lia].
Qed.

Lemma conflict_total v0 x ts type :
  inv v0 x → 0 < ts → type = R_REQ ∨ type = P_REQ →
  ∃ c, conflict type ts (mv (g_st x)) = Some c.
Proof.
  intros Hi Hpos [-> | ->]; unfold conflict.
  - case_match; eauto.
  - destruct (oldest_read_spec ts _ 0 (i_rsorted _ _ Hi)) as [_ H2]; [by left|done|].
    destruct (Z.eqb_spec (oldest_read ts (readhis (mv (g_st x))) 0) 0) as [Hz|Hz]; [eauto|].
    destruct (H2 Hz). rewrite assert_bind_true by by apply Z.ltb_lt. eauto.
Qed.

(** ** Serving the buffered reads *)

Definition seen_of (s : state) (rs : list read) : list (read * V) :=
  map (λ r, (r, store s (rd_row r))) rs.

(** [s'] is [x] after some reads were performed: they are on top of the log. *)
Definition served (v0 : V) (x : gstate) (s' : state) : Prop :=
  ∃ new, reads s' = new ++ reads (g_st x) ∧ store s' = store (g_st x) ∧
    prereq (mv s') = prereq (mv (g_st x)) ∧ readreq (mv s') = readreq (mv (g_st x)) ∧
    inv v0 (mkG s' (g_writes x) (seen_of s' new ++ g_seen x) (g_floor x)).

Lemma serve_reads_inv v0 reqs x :
  inv v0 x →
  (∀ q, q ∈ reqs → (rq_ts q ∉ (g_writes x).*1) ∧
     ∀ p, p ∈ prereq (mv (g_st x)) → rq_ts q ≤ rq_ts p) →
  ∃ s', serve_reads reqs (g_st x) = Some s' ∧ served v0 x s'.
Proof.
  revert x. induction reqs as [|q reqs IH]; intros x Hi Hreq; simpl.
  { exists (g_st x). split; [done|]. exists []. split_and!; try done. by destruct x. }
  destruct (Hreq q) as (Hn&Hp); [by left|].
  destruct (read_total v0 x (rq_ts q) Hi) as (row&Hrow).
  unfold serve_read. rewrite Hrow. simpl.
  set (rdy := <[rq_txn q := true]> (ts_ready (g_st x))).
  set (rst := restarts (g_st x) ++ [rq_txn q]).
  destruct (IH (add_read x (rq_txn q) (rq_ts q) row rdy rst)) as (s'&Hs'&new&E1&E2&E3&E4&Hi').
  - apply add_read_inv; try done. intros p Hpq Hlt. specialize (Hp p Hpq). lia.
  - intros q' Hq'. apply Hreq. by right.
  - exists s'. split; [exact Hs'|]. simpl in *. exists (new ++ [mkRead (rq_txn q) (rq_ts q) row]).
    rewrite <-app_assoc. split_and!; try done.
    unfold seen_of in *. rewrite map_app, <-app_assoc. simpl. by rewrite E2 in *.
Qed.

(** Requests may leave the two stacks. *)
Lemma inv_drop v0 x m' :
  inv v0 x →
  m_row m' = m_row (mv (g_st x)) → writehis m' = writehis (mv (g_st x)) →
  readhis m' = readhis (mv (g_st x)) → whis_len m' = whis_len (mv (g_st x)) →
  prereq m' `sublist_of` prereq (mv (g_st x)) →
  (∀ q, q ∈ readreq m' → q ∈ readreq (mv (g_st x))) →
  inv v0 (mkG (set_mv m' (g_st x)) (g_writes x) (g_seen x) (g_floor x)).
Proof.
  intros [] E1 E2 E3 E4 Hp Hr. destruct i_pre0 as (Hp1&Hp2&Hp3).
  split; simpl; rewrite ?E1, ?E2, ?E3, ?E4; auto.
  - split_and!; [by eapply sublist_NoDup; [exact Hp1|apply fmap_sublist]|
                 by eapply sublist_NoDup; [exact Hp2|apply fmap_sublist]|].
    intros q Hq. apply Hp3. by eapply elem_of_sublist.
  - intros rd v q Hrd Hf Hq. apply (i_pend0 rd v q Hrd Hf). by eapply elem_of_sublist.
  - intros rd v Hrd Hf. specialize (i_held0 rd v Hrd Hf). unfold held in *. simpl.
    by rewrite E1, E2.
Qed.

Lemma update_buffer_inv v0 x :
  inv v0 x →
  ∃ s' new, update_buffer (g_st x) = Some s' ∧
    reads s' = new ++ reads (g_st x) ∧ store s' = store (g_st x) ∧
    prereq (mv s') = prereq (mv (g_st x)) ∧
    (∀ q, q ∈ readreq (mv s') → q ∈ readreq (mv (g_st x))) ∧
    inv v0 (mkG s' (g_writes x) (seen_of s' new ++ g_seen x) (g_floor x)).
Proof.
  intros Hi. unfold update_buffer, debuffer_reads.
  destruct (debuffer_loop _ _ _) as [keep out] eqn:E.
  destruct (debuffer_loop_spec _ _ _ _ _ E) as [Hkeep Hout].
  destruct (min_pts_spec (prereq (mv (g_st x))) UINT64_MAX) as [_ Hmin].
  set (m' := mkMvcc _ keep _ _ _ _ _ _ _).
  assert (inv v0 (mkG (set_mv m' (g_st x)) (g_writes x) (g_seen x) (g_floor x))) as Hi1
    by by apply inv_drop.
  destruct (serve_reads_inv v0 out _ Hi1) as (s'&Hs'&new&E1&E2&E3&E4&Hi').
  - intros q Hq. destruct (Hout q Hq) as [?%elem_of_nil|[Hq' Hb]]; [done|].
    split; [by apply (i_rreq _ _ Hi)|]. simpl.
    intros p Hp. specialize (Hmin p Hp). lia.
  - exists s', new. split_and!; try done. rewrite E4. simpl. auto.
Qed.

(** ** Committing and cancelling *)

Lemma commit_held v0 x p ts v st' :
  inv v0 x → ts ∉ (g_writes x).*1 →
  (∀ rd u, (rd, u) ∈ g_seen x → g_floor x ≤ rd_ts rd → ts < rd_ts rd → between x ts (rd_ts rd)) →
  writehis (mv st') = insert_his (mkHis ts (Some p)) (writehis (mv (g_st x))) →
  m_row (mv st') = m_row (mv (g_st x)) → store st' = store (g_st x) →
  ∀ rd u sn f, (rd, u) ∈ g_seen x → g_floor x ≤ rd_ts rd →
    held (mkG st' ((ts, v) :: g_writes x) sn f) v0 rd u.
Proof.
  intros Hi Hn Hb E1 E2 E3 rd u sn f Hrd Hf.
  assert (ts < rd_ts rd → ∃ w u, (w, u) ∈ g_writes x ∧ ts < w < rd_ts rd) as Hbt
    by (intros; by eapply Hb).
  destruct (i_held _ _ Hi rd u Hrd Hf) as [(e&He&Hp&Hv&Hlt&Hmax)|(Hr&Hv&Hu&Hno)].
  - left. exists e. simpl. rewrite E1, E3. split_and!; try done.
    + apply insert_his_elem. by right.
    + intros w' v' [[= -> ->]|Hw]%elem_of_cons Hlt'; [|eauto].
      destruct (Hbt Hlt') as (w&u'&Hw&?). specialize (Hmax w u' Hw). lia.
  - right. simpl. rewrite E2, E3. split_and!; try done.
    intros w' v' [[= -> ->]|Hw]%elem_of_cons; [|eauto].
    destruct (Z.lt_ge_cases ts (rd_ts rd)) as [Hlt|]; [|done].
    destruct (Hbt Hlt) as (w&u'&Hw&?). specialize (Hno w u' Hw). lia.
Qed.

Lemma commit_latest v0 x ts v :
  (∀ rd u, (rd, u) ∈ g_seen x → g_floor x ≤ rd_ts rd → ts < rd_ts rd → between x ts (rd_ts rd)) →
  ∀ rd u, (rd, u) ∈ g_seen x → g_floor x ≤ rd_ts rd → latest (g_writes x) v0 (rd_ts rd) u →
    latest ((ts, v) :: g_writes x) v0 (rd_ts rd) u.
Proof.
  intros Hb rd u Hrd Hf [(w&Hw&Hlt&Hmax)|[-> Hno]].
  - left. exists w. split; [by right|]. split; [done|].
    intros w' v' [[= -> ->]|Hw']%elem_of_cons Hlt'; [|eauto].
    destruct (Hb rd u Hrd Hf Hlt') as (w2&u2&Hw2&?). specialize (Hmax w2 u2 Hw2). lia.
  - right. split; [done|]. intros w' v' [[= -> ->]|Hw']%elem_of_cons; [|eauto].
    destruct (Z.lt_ge_cases ts (rd_ts rd)) as [Hlt|]; [|done].
    destruct (Hb _ _ Hrd Hf Hlt) as (w2&u2&Hw2&?). specialize (Hno w2 u2 Hw2). lia.
Qed.

Lemma debuffer_pre_spec v0 x t ts m :
  inv v0 x → mkReq t ts ∈ prereq (mv (g_st x)) → prereq m = prereq (mv (g_st x)) →
  ∃ rest, debuffer_pre t m =
      Some (mkReq t ts, mkMvcc (m_row m) (readreq m) rest (readhis m) (writehis m)
              (whis_len m) (rhis_len m) (rreq_len m) (wrap64 (preq_len m - 1))) ∧
    rest `sublist_of` prereq (mv (g_st x)) ∧ (∀ q, q ∈ rest → rq_ts q ≠ ts).
Proof.
  intros Hi Hin E. destruct (i_pre _ _ Hi) as (Hd1&Hd2&_). unfold debuffer_pre. rewrite E.
  destruct (remove_first_Some (λ r, bool_decide (rq_txn r = t)) _ _ Hin) as [[q rest] Hr].
  { by apply bool_decide_eq_true. }
  destruct (remove_first_perm _ _ _ _ Hr) as [Hperm Hq%bool_decide_eq_true].
  rewrite Hr. simpl. rewrite Hperm in Hd1, Hd2, Hin.
  apply NoDup_cons in Hd1 as [Hd1 _], Hd2 as [Hd2 _].
  assert (q = mkReq t ts) as ->.
  { apply elem_of_cons in Hin as [?|Hin]; [done|]. destruct Hd1. rewrite Hq.
    apply list_elem_of_fmap. by exists (mkReq t ts). }
  exists rest. split; [done|]. split; [by eapply remove_first_sublist|].
  intros q Hq' E'. apply Hd2. simpl. rewrite <-E'. apply list_elem_of_fmap. eauto.
Qed.

Lemma commit_inv v0 x p ts m' :
  inv v0 x → ts ∉ (g_writes x).*1 →
  p ≠ m_row (mv (g_st x)) → p ∉ freed (g_st x) →
  Some p ∉ (hi_row <$> writehis (mv (g_st x))) →
  Forall (λ q, rq_ts q ≠ ts) (readreq (mv (g_st x))) →
  (∀ rd u, (rd, u) ∈ g_seen x → g_floor x ≤ rd_ts rd → ts < rd_ts rd → between x ts (rd_ts rd)) →
  m_row m' = m_row (mv (g_st x)) → readreq m' = readreq (mv (g_st x)) →
  readhis m' = readhis (mv (g_st x)) →
  writehis m' = insert_his (mkHis ts (Some p)) (writehis (mv (g_st x))) →
  whis_len m' = wrap64 (whis_len (mv (g_st x)) + 1) →
  prereq m' `sublist_of` prereq (mv (g_st x)) → (∀ q, q ∈ prereq m' → rq_ts q ≠ ts) →
  inv v0 (mkG (set_mv m' (g_st x)) ((ts, store (g_st x) p) :: g_writes x) (g_seen x)
            (g_floor x)).
Proof.
  intros Hi Hn Hp1 Hp2 Hp3 Hrr Hb E1 E2 E3 E4 E5 Hsub Hts.
  pose proof (commit_held v0 x p ts (store (g_st x) p) (set_mv m' (g_st x)) Hi Hn Hb E4 E1
    eq_refl) as Hheld.
  pose proof (commit_latest v0 x ts (store (g_st x) p) Hb) as Hlat.
  assert (∀ e, e ∈ writehis (mv (g_st x)) → hi_ts e ≠ ts) as Hne.
  { intros e He <-. apply Hn. destruct (i_wrow _ _ Hi e He) as (p'&_&_&_&Hin).
    apply list_elem_of_fmap. by eexists (_, _). }
  destruct Hi, i_pre0 as (Hd1&Hd2&Hd3). rewrite Forall_forall in Hrr.
  split; simpl; rewrite ?E1, ?E2, ?E3, ?E4, ?E5; auto.
  - apply insert_after_while_sorted; simpl.
    + intros a b c. lia.
    + intros y _ ?%Z.ltb_lt. lia.
    + intros y Hy ?%Z.ltb_ge. specialize (Hne y Hy). lia.
    + done.
  - unfold insert_his. rewrite insert_after_while_length, i_wlen0, wrap64_add. f_equal. lia.
  - intros e [->|He]%insert_his_elem.
    + exists p. split_and!; try done. by left.
    + destruct (i_wrow0 e He) as (p'&?&?&?&?). exists p'. split_and!; try done. by right.
  - unfold insert_his. rewrite insert_after_while_perm. by constructor.
  - intros w v [[= -> ->]|Hw]%elem_of_cons.
    + left. exists (mkHis ts (Some p)). split; [apply insert_his_elem; by left|done].
    + destruct (i_removed0 w v Hw) as [(e&?&?)|(e&?&?)]; [left|right];
        exists e; (split; [apply insert_his_elem; by right|done]).
  - destruct i_base0 as [? [?|(e&?&?)]]; (split; [done|]); [by left|right].
    exists e. split; [apply insert_his_elem; by right|done].
  - split_and!; [by eapply sublist_NoDup; [exact Hd1|apply fmap_sublist]|
                 by eapply sublist_NoDup; [exact Hd2|apply fmap_sublist]|].
    intros q Hq. destruct (Hd3 q) as (?&?); [by eapply elem_of_sublist|].
    split; [done|]. intros [?|?]%elem_of_cons; [by eapply Hts|done].
  - intros q Hq. pose proof (i_rreq0 q Hq).
    intros [?|?]%elem_of_cons; [by eapply Hrr|done].
  - intros rd v q Hrd Hf Hq Hlt.
    destruct (i_pend0 rd v q Hrd Hf) as (w&u&?&?); [by eapply elem_of_sublist|done|].
    exists w, u. split; [by right|done].
Qed.

Definition op_ok (v0 : V) (x : gstate) (ws : list (Z * V)) (s1 : state) : Prop :=
  ∃ new, reads s1 = new ++ reads (g_st x) ∧
    inv v0 (mkG s1 ws (seen_of s1 new ++ g_seen x) (g_floor x)).

(** A call that buffers the request and performs no read. *)
Lemma buffered_read_ok v0 x t ts rdy :
  inv v0 x → ts ∉ (g_writes x).*1 →
  op_ok v0 x (g_writes x)
    (mkSt (buffer_req R_REQ t ts (mv (g_st x))) (store (g_st x)) (freed (g_st x)) rdy
       (reads (g_st x)) (restarts (g_st x))).
Proof.
  intros [] Hn. exists []. simpl. split; [done|].
  split; simpl; auto. intros q [->|?]%elem_of_cons; auto.
Qed.

Lemma buffered_prewrite_ok v0 x t ts :
  inv v0 x → 0 < ts → ts ∉ (g_writes x).*1 →
  Forall (λ q, rq_txn q ≠ t ∧ rq_ts q ≠ ts) (prereq (mv (g_st x))) →
  (∀ rd v, (rd, v) ∈ g_seen x → g_floor x ≤ rd_ts rd → ts < rd_ts rd → between x ts (rd_ts rd)) →
  op_ok v0 x (g_writes x) (set_mv (buffer_req P_REQ t ts (mv (g_st x))) (g_st x)).
Proof.
  intros Hi Hpos Hn Hfr Hb. rewrite Forall_forall in Hfr.
  destruct Hi, i_pre0 as (Hd1&Hd2&Hd3). exists []. simpl. split; [done|].
  split; simpl; auto.
  - split_and!.
    + constructor; [|done]. intros (q&E&Hq)%list_elem_of_fmap. simpl in E. by destruct (Hfr q Hq).
    + constructor; [|done]. intros (q&E&Hq)%list_elem_of_fmap. simpl in E. by destruct (Hfr q Hq).
    + intros q [->|?]%elem_of_cons; auto.
  - intros rd v q Hrd Hf [->|Hq]%elem_of_cons Hlt; [by eapply Hb|by eapply i_pend0].
Qed.

Lemma access_op_inv v0 x t ts type row :
  inv v0 x → enabled x t ts type row →
  ∃ rc s1, access_op t ts type row (g_st x) = Some (rc, s1) ∧
    op_ok v0 x (match type, row with W_REQ, Some p => (ts, store (g_st x) p) :: g_writes x
                                      | _, _ => g_writes x end) s1.
Proof.
  intros Hi []. destruct type; cbn [access_op] in *.
  - destruct (conflict_total v0 x ts R_REQ Hi) as [c Hc]; [done|by left|].
    rewrite Hc. simpl. destruct c; simpl.
    + destruct (_ <? _); eexists _, _; (split; [reflexivity|]).
      * by apply buffered_read_ok.
      * exists []. split; [done|]. by destruct x.
    + destruct (read_total v0 x ts Hi) as (r&Hr). rewrite Hr. simpl.
      eexists _, _. split; [reflexivity|]. exists [mkRead t ts r]. split; [done|].
      apply (add_read_inv v0 x t ts r (ts_ready (g_st x)) (restarts (g_st x))); try done.
      by eapply read_no_conflict.
  - destruct (en_row0 eq_refl) as (Hrr&p&->&Hp1&Hp2&Hp3).
    edestruct (debuffer_pre_spec v0 x t ts (insert_history ts (Some p) (mv (g_st x))))
      as (rest&->&Hsub&Hts); [done..|]. simpl. set (m' := mkMvcc _ _ _ _ _ _ _ _ _).
    destruct (update_buffer_inv v0
      (mkG (set_mv m' (g_st x)) ((ts, store (g_st x) p) :: g_writes x) (g_seen x) (g_floor x)))
      as (s'&new&Hs'&E1&E2&E3&E4&Hi').
    { apply commit_inv; try done. intros rd u Hrd Hf Hlt.
      by apply (i_pend _ _ Hi rd u (mkReq t ts)). }
    simpl in Hs'. rewrite Hs'. eexists _, _. split; [reflexivity|]. by exists new.
  - destruct (conflict_total v0 x ts P_REQ Hi) as [c Hc]; [done|by right|].
    rewrite Hc. simpl. destruct c; simpl.
    + eexists _, _. split; [reflexivity|]. exists []. split; [done|]. by destruct x.
    + destruct (_ <? _); eexists _, _; (split; [reflexivity|]).
      * apply buffered_prewrite_ok; try done. by eapply prewrite_no_conflict.
      * exists []. split; [done|]. by destruct x.
  - destruct (debuffer_pre_spec v0 x t ts (mv (g_st x)) Hi en_pre0 eq_refl)
      as (rest&->&Hsub&Hts). simpl. set (m' := mkMvcc _ _ _ _ _ _ _ _ _).
    destruct (update_buffer_inv v0
      (mkG (set_mv m' (g_st x)) (g_writes x) (g_seen x) (g_floor x)))
      as (s'&new&Hs'&E1&E2&E3&E4&Hi'); [by apply inv_drop|].
    simpl in Hs'. rewrite Hs'. eexists _, _. split; [reflexivity|]. by exists new.
Qed.

(** ** Recycling *)

(** The loop removes a suffix of the history (a prefix of the reversed list); if
    it removes anything, the entry that becomes the tail is older than [ts]. *)
Lemma clear_loop_spec ts rl row fr n :
  StronglySorted (λ a b, hi_ts a ≤ hi_ts b) rl →
  ∃ removed kept row' fr', clear_loop ts rl row fr n =
      Some (kept, row', fr', n + zlen removed) ∧ rl = removed ++ kept ∧
    ((removed = [] ∧ row' = row ∧ fr' = fr) ∨
     ((∃ k ks, kept = k :: ks ∧ hi_ts k < ts) ∧
      (∃ e, e ∈ removed ∧ row' = hi_row e) ∧
      ∀ p, p ∈ fr' → p ∈ fr ∨ row = Some p ∨ Some p ∈ (hi_row <$> removed))).
Proof.
  revert row fr n. induction rl as [|h rl IH]; intros row fr n HS.
  { exists [], [], row, fr. split; [simpl; repeat f_equal; lia|]. auto. }
  apply StronglySorted_inv in HS as [HS HF]. rewrite Forall_forall in HF.
  destruct rl as [|prev rest]; cbn [clear_loop].
  { exists [], [h], row, fr. split; [simpl; repeat f_equal; lia|]. auto. }
  destruct (Z.ltb_spec (hi_ts prev) ts).
  2: { exists [], (h :: prev :: rest), row, fr. split; [simpl; repeat f_equal; lia|]. auto. }
  rewrite assert_bind_true by (apply Z.leb_le, HF; by left).
  destruct (IH (hi_row h) (match row with Some r => r :: fr | None => fr end) (n + 1) HS)
    as (removed&kept&row'&fr'&Heq&E&Hcase).
  exists (h :: removed), kept, row', fr'.
  split; [etransitivity; [exact Heq|simpl; do 2 f_equal; lia]|]. split; [by rewrite E|]. right.
  destruct Hcase as [(->&->&->)|(Hk&(e&He&->)&Hfr)].
  - simpl in E. subst kept. split; [eauto|]. split; [exists h; split; [by left|done]|].
    intros p Hp. destruct row as [r|]; [|by left].
    apply elem_of_cons in Hp as [->|?]; auto.
  - split; [done|]. split; [exists e; split; [by right|done]|].
    intros p Hp. destruct (Hfr p Hp) as [Hq|[Hq|Hq]].
    + destruct row as [r|]; [|by left]. apply elem_of_cons in Hq as [->|?]; auto.
    + right. right. rewrite fmap_cons, Hq. by left.
    + right. right. rewrite fmap_cons. by right.
Qed.

Lemma clear_list ts (l : list MVHisEntry) fr :
  StronglySorted (λ a b, hi_ts b ≤ hi_ts a) l →
  ∃ kept removed row' fr', clear_loop ts (rev l) None fr 0 =
      Some (rev kept, row', fr', zlen removed) ∧ l = kept ++ removed ∧
    ((removed = [] ∧ row' = None ∧ fr' = fr) ∨
     ((∃ k, k ∈ kept ∧ hi_ts k < ts ∧ ∀ e, e ∈ removed → hi_ts e ≤ hi_ts k) ∧
      (∃ e, e ∈ removed ∧ row' = hi_row e) ∧
      ∀ p, p ∈ fr' → p ∈ fr ∨ Some p ∈ (hi_row <$> removed))).
Proof.
  intros HS.
  assert (StronglySorted (λ a b, hi_ts a ≤ hi_ts b) (rev l)) as HR.
  { clear fr. induction HS as [|e l HS IH HF]; simpl; [constructor|].
    apply StronglySorted_app_2; [|done|by repeat constructor].
    intros a b Ha ->%list_elem_of_singleton. rewrite Forall_forall in HF. apply HF.
    apply list_elem_of_In, in_rev. by apply list_elem_of_In. }
  destruct (clear_loop_spec ts (rev l) None fr 0 HR)
    as (removed&kept&row'&fr'&Heq&E&Hcase).
  exists (rev kept), (rev removed), row', fr'.
  rewrite rev_involutive, length_rev. split; [done|].
  assert (l = rev kept ++ rev removed) as El.
  { by rewrite <-rev_app_distr, <-E, rev_involutive. }
  split; [done|]. destruct Hcase as [(->&->&->)|((k&ks&->&Hk)&(e&He&->)&Hfr)]; [by left|right].
  assert (∀ (z : MVHisEntry) zs, z ∈ rev zs ↔ z ∈ zs) as Hrev.
  { intros z zs. by rewrite !list_elem_of_In, <-in_rev. }
  split_and!.
  - exists k. rewrite Hrev. split; [by left|]. split; [done|]. intros e' He'.
    rewrite Hrev in He'. rewrite E in HR.
    apply (StronglySorted_app_1_elem_of _ removed (k :: ks) e' k HR He'). by left.
  - exists e. by rewrite Hrev.
  - intros p Hp. destruct (Hfr p Hp) as [|[?|Hq]]; [by left|done|right].
    apply list_elem_of_fmap in Hq as (z&->&Hz). apply list_elem_of_fmap.
    exists z. by rewrite Hrev.
Qed.

Definition with_floor (x : gstate) (f : Z) : gstate :=
  mkG (g_st x) (g_writes x) (g_seen x) f.

Lemma raise_floor v0 x f :
  inv v0 x → g_floor x ≤ f → inv v0 (with_floor x f).
Proof.
  intros [] Hf. split; simpl; auto.
  - intros w v Hw. destruct (i_removed0 w v Hw) as [|(e&?&?)]; [by left|right].
    exists e. split; [done|lia].
  - destruct i_base0 as [? [?|(e&?&?)]]; (split; [done|]); [by left|right].
    exists e. split; [done|lia].
  - intros rd v Hrd Hle. apply (i_readhis0 rd v Hrd). lia.
  - intros rd v q Hrd Hle. apply (i_pend0 rd v q Hrd). lia.
  - intros rd v Hrd Hle. apply (i_held0 rd v Hrd). lia.
  - intros rd v Hrd Hle. apply (i_latest0 rd v Hrd). lia.
Qed.

Lemma sorted_weak l :
  StronglySorted (λ a b : MVHisEntry, hi_ts b < hi_ts a) l →
  StronglySorted (λ a b, hi_ts b ≤ hi_ts a) l.
Proof. apply StronglySorted_mono. intros. lia. Qed.

Lemma recycle_reads_inv v0 x t_th :
  inv v0 x → t_th ≤ g_floor x →
  ∃ s', recycle_reads t_th (g_st x) = Some s' ∧
    inv v0 (mkG s' (g_writes x) (g_seen x) (g_floor x)).
Proof.
  intros Hi Hf. unfold recycle_reads.
  assert (inv v0 (mkG (g_st x) (g_writes x) (g_seen x) (g_floor x))) as Hi0 by by destruct x.
  destruct (last (readhis (mv (g_st x)))) as [tail|]; [|eauto].
  destruct (_ <? _); [|eauto]. unfold clear_history.
  destruct (clear_list t_th _ (freed (g_st x)) (i_rsorted _ _ Hi))
    as (kept&removed&row'&fr'&->&El&Hcase). cbn [mbind option_bind].
  eexists. split; [reflexivity|]. rewrite rev_involutive. clear Hi0.
  assert (∀ e, e ∈ readhis (mv (g_st x)) → t_th ≤ hi_ts e → e ∈ kept) as Hkept.
  { intros e He Hle. rewrite El in He. apply elem_of_app in He as [?|He]; [done|].
    destruct Hcase as [(->&_)|((k&_&?&Hmax)&_)]; [by apply elem_of_nil in He|].
    specialize (Hmax e He). lia. }
  assert (∀ p, p ∈ fr' → p ∈ freed (g_st x)) as Hfr.
  { destruct Hcase as [(_&_&->)|(_&_&Hfr)]; [done|]. intros p Hp.
    destruct (Hfr p Hp) as [|(e&E&He)%list_elem_of_fmap]; [done|].
    rewrite (i_rrow _ _ Hi) in E; [done|]. rewrite El. by apply elem_of_app; right. }
  destruct Hi. rewrite El in i_rsorted0. split; simpl; auto.
  - by eapply StronglySorted_app_1_l.
  - intros e He. apply i_rrow0. rewrite El. by apply elem_of_app; left.
  - intros e He. destruct (i_wrow0 e He) as (p&?&?&?&?). exists p. split_and!; auto.
  - destruct i_base0. split; auto.
  - intros rd v Hrd Hle. destruct (i_readhis0 rd v Hrd Hle) as (e&He&Hets).
    exists e. split; [|done]. apply Hkept; [done|lia].
Qed.

(** What recycling versions does: the removed ones are older than a version that
    is kept and older than every running transaction. *)
Lemma clear_writes_inv v0 x t_th kept removed k p fr' :
  let m := mv (g_st x) in
  inv v0 x → t_th ≤ g_floor x → writehis m = kept ++ removed →
  k ∈ kept → hi_ts k < t_th → (∀ e, e ∈ removed → hi_ts e ≤ hi_ts k) →
  (∀ q, q ∈ fr' → q ∈ freed (g_st x) ∨ Some q ∈ (hi_row <$> removed)) →
  inv v0 (mkG (mkSt (mkMvcc (m_row m) (readreq m) (prereq m) (readhis m) kept
                       (wrap64 (whis_len m - zlen removed)) (rhis_len m) (rreq_len m)
                       (preq_len m))
                (<[m_row m := store (g_st x) p]> (store (g_st x))) fr'
                (ts_ready (g_st x)) (reads (g_st x)) (restarts (g_st x)))
            (g_writes x) (g_seen x) (g_floor x)).
Proof.
  intros m Hi Hf El Hk Hkt Hmax Hfr. subst m.
  assert (∀ e, e ∈ kept → e ∈ writehis (mv (g_st x))) as Hkw by (intros; rewrite El; set_solver).
  assert (∀ e, e ∈ writehis (mv (g_st x)) → hi_ts k < hi_ts e → e ∈ kept) as Hwk.
  { intros e He Hlt. rewrite El in He. apply elem_of_app in He as [?|He]; [done|].
    specialize (Hmax e He). lia. }
  assert (∀ e q, e ∈ kept → hi_row e = Some q → q ≠ m_row (mv (g_st x)) ∧
    <[m_row (mv (g_st x)) := store (g_st x) p]> (store (g_st x)) q = store (g_st x) q ∧ (q ∉ fr')) as Hptr.
  { intros e q He Hq. destruct (i_wrow _ _ Hi e (Hkw e He)) as (q'&Hq'&Hn&Hnf&_).
    assert (q' = q) as -> by congruence. split; [done|].
    split; [by rewrite fn_lookup_insert_ne|]. intros Hin.
    destruct (Hfr q Hin) as [|Hrem]; [done|]. pose proof (i_wnodup _ _ Hi) as Hnd.
     rewrite El, fmap_app in Hnd. apply NoDup_app in Hnd as (_&Hdis&_).
    apply (Hdis (Some q)); [|done]. apply list_elem_of_fmap. eauto. }
  destruct (i_wrow _ _ Hi k (Hkw k Hk)) as (pk&_&_&_&Hkin).
  destruct Hi.
  split; simpl; auto.
  - rewrite El in i_wsorted0. by eapply StronglySorted_app_1_l.
  - rewrite i_wlen0, El, length_app. unfold wrap64.
    rewrite Zminus_mod_idemp_l. f_equal. lia.
  - intros e He. destruct (i_wrow0 e (Hkw e He)) as (q&Hq&?&?&?).
    destruct (Hptr e q He Hq) as (?&Est&?). exists q. by rewrite Est.
  - rewrite El, fmap_app in i_wnodup0. by apply NoDup_app in i_wnodup0 as (?&_&_).
  - intros w v Hw. destruct (Z.lt_ge_cases w (hi_ts k)).
    { right. exists k. split; [done|lia]. }
    destruct (i_removed0 w v Hw) as [(e&He&<-)|(e&He&?)].
    + left. destruct (decide (hi_ts k = hi_ts e)) as [E|].
      * exists k. done.
      * exists e. split; [|done]. apply Hwk; [done|lia].
    + right. exists e. split; [|done]. apply Hwk; [done|lia].
  - split; [|right; exists k; split; [done|lia]].
    intros Hin. destruct (Hfr _ Hin) as [|Hrem]; [by apply i_base0|].
    apply list_elem_of_fmap in Hrem as (e&Ee&He).
    destruct (i_wrow0 e) as (q&Hq&?&_); [|congruence]. rewrite El. set_solver.
  - intros rd v Hrd Hle. destruct (i_held0 rd v Hrd Hle)
      as [(e&He&Hp&Hv&Hlt&Hmx)|(_&_&_&Hno)].
    + left. exists e. simpl. pose proof (Hmx (hi_ts k) _ Hkin ltac:(lia)).
      assert (e ∈ kept) as Hek.
      { destruct (decide (hi_ts e = hi_ts k)) as [E|]; [|apply Hwk; [done|lia]].
        rewrite El in He, i_wsorted0. apply elem_of_app in He as [?|He]; [done|].
        pose proof (StronglySorted_app_1_elem_of _ _ _ _ _ i_wsorted0 Hk He). simpl in *. lia. }
      destruct (Hptr e _ Hek Hp) as (?&Est&?). rewrite Est. split_and!; try done.
    + specialize (Hno _ _ Hkin). lia.
Qed.

Lemma recycle_writes_inv v0 x t_th :
  inv v0 x → t_th ≤ g_floor x →
  ∃ s', recycle_writes t_th (g_st x) = Some s' ∧
    inv v0 (mkG s' (g_writes x) (g_seen x) (g_floor x)).
Proof.
  intros Hi Hf. unfold recycle_writes.
  assert (inv v0 (mkG (g_st x) (g_writes x) (g_seen x) (g_floor x))) as Hi0 by by destruct x.
  destruct (Z.ltb_spec 1 (whis_len (mv (g_st x)))) as [Hlen|]; [|eauto].
  assert (1 < zlen (writehis (mv (g_st x)))) as Hl.
  { rewrite (i_wlen _ _ Hi) in Hlen. unfold wrap64 in Hlen.
    pose proof (Z.mod_le (zlen (writehis (mv (g_st x)))) u64_mod ltac:(lia) ltac:(done)). lia. }
  destruct (rev (writehis (mv (g_st x)))) as [|h1 [|h2 hs]] eqn:Erev;
    [by rewrite <-length_rev, Erev in Hl..|].
  destruct (Z.ltb_spec (hi_ts h2) t_th); [|eauto]. unfold clear_history.
  destruct (clear_list t_th _ (freed (g_st x)) (sorted_weak _ (i_wsorted _ _ Hi)))
    as (kept&removed&row'&fr'&->&El&Hcase). cbn [mbind option_bind]. rewrite rev_involutive.
  destruct Hcase as [(->&->&->)|((k&Hk&Hkt&Hmax)&(e&He&->)&Hfr)].
  - eexists. split; [reflexivity|]. rewrite app_nil_r in El. subst kept.
    apply (inv_drop v0 x); try done. simpl. rewrite Z.sub_0_r, (i_wlen _ _ Hi).
    apply Z.mod_mod. done.
  - destruct (i_wrow _ _ Hi e) as (p&Hp&Hpr&Hpf&Hpin); [rewrite El; set_solver|].
    rewrite Hp. simpl. rewrite bool_decide_false by done. simpl.
    eexists. split; [reflexivity|]. by eapply clear_writes_inv.
Qed.

Lemma recycle_inv v0 x t_th rc :
  inv v0 x → rc = RCOK →
  ∃ s', recycle t_th (g_st x) = Some s' ∧
    inv v0 (mkG s' (g_writes x) (g_seen x) (if asks rc (g_st x) then Z.max (g_floor x) t_th else g_floor x)).
Proof.
  intros Hi ->. unfold recycle, asks. rewrite bool_decide_true by done. cbn [andb]. destruct (_ || _).
  - pose proof (raise_floor v0 x (Z.max (g_floor x) t_th) Hi ltac:(lia)) as Hi0.
    destruct (recycle_reads_inv v0 _ t_th Hi0 ltac:(simpl; lia)) as (s1&Hs1&Hi1). simpl in Hs1. rewrite Hs1. simpl.
    by apply (recycle_writes_inv v0 _ t_th Hi1 ltac:(simpl; lia)).
  - eexists. split; [done|]. by destruct x.
Qed.

(** ** Whole calls *)

Lemma new_reads_app s s' new :
  reads s' = new ++ reads s → new_reads s s' = new.
Proof.
  intros E. unfold new_reads. rewrite E, length_app.
  replace (length new + length (reads s) - length (reads s))%nat with (length new) by lia.
  apply take_app_length.
Qed.

Lemma access_inv v0 x t ts type row t_th :
  inv v0 x → enabled x t ts type row →
  ∃ rc s1 s', access_op t ts type row (g_st x) = Some (rc, s1) ∧
    access t ts type row t_th (g_st x) = Some (rc, s') ∧
    inv v0 (mkG s'
      (match type, row with W_REQ, Some p => (ts, store (g_st x) p) :: g_writes x
                          | _, _ => g_writes x end)
      (map (λ r, (r, store s1 (rd_row r))) (new_reads (g_st x) s1) ++ g_seen x)
      (if asks rc s1 then Z.max (g_floor x) t_th else g_floor x)).
Proof.
  intros Hi Hen. destruct (access_op_inv v0 x t ts type row Hi Hen) as (rc&s1&Hop&new&Hreads&Hi1).
  exists rc, s1. rewrite (new_reads_app _ _ _ Hreads). unfold access. rewrite Hop. cbn [mbind option_bind].
  case_bool_decide as Hrc.
  - destruct (recycle_inv _ _ t_th rc Hi1 Hrc) as (s'&Hr&Hi').
    simpl in Hr. rewrite Hr. by exists s'.
  - exists s1. unfold asks. by rewrite bool_decide_false.
Qed.

Lemma fill_inv v0 x p v :
  inv v0 x → p ≠ m_row (mv (g_st x)) → Some p ∉ (hi_row <$> writehis (mv (g_st x))) →
  inv v0 (mkG (mkSt (mv (g_st x)) (<[p := v]> (store (g_st x))) (freed (g_st x))
                 (ts_ready (g_st x)) (reads (g_st x)) (restarts (g_st x)))
            (g_writes x) (g_seen x) (g_floor x)).
Proof.
  intros Hi Hb Hn.
  assert (∀ e q, e ∈ writehis (mv (g_st x)) → hi_row e = Some q → p ≠ q) as Hne.
  { intros e q He Hq ->. apply Hn, list_elem_of_fmap. eauto. }
  destruct Hi. split; simpl; auto.
  - intros e He. destruct (i_wrow0 e He) as (q&Hq&?). exists q.
    by rewrite fn_lookup_insert_ne by (by eapply Hne).
  - by rewrite fn_lookup_insert_ne.
  - intros rd u Hrd Hle. destruct (i_held0 rd u Hrd Hle)
      as [(e&He&Hp&Hv&?&?)|(Hr&Hv&?&?)]; [left; exists e|right]; simpl.
    + rewrite fn_lookup_insert_ne by (by eapply Hne). split_and!; try done.
    + rewrite fn_lookup_insert_ne by (rewrite Hr; done). split_and!; try done.
Qed.

Lemma mvcc_step_inv v0 x x' : inv v0 x → step x x' → inv v0 x'.
Proof.
  intros Hi [t ts type row t_th rc s1 s' Hen Hop Hacc|p v Hb Hn]; [|by apply fill_inv].
  destruct (access_inv v0 x t ts type row t_th Hi Hen) as (rc'&s1'&s''&Hop'&Hacc'&Hi').
  rewrite Hop in Hop'. rewrite Hacc in Hacc'. by simplify_eq.
Qed.

Lemma start_inv row st : inv (st row) (start row st).
Proof.
  split; simpl; try (by constructor); try (by intros ? ?%elem_of_nil);
    try (by intros ? ? ?%elem_of_nil); try (by intros ? ? ? ?%elem_of_nil).
  - split; [by intros ?%elem_of_nil|by left].
  - split_and!; [constructor..|]. by intros ? ?%elem_of_nil.
Qed.

Lemma reach_inv row st x : rtc step (start row st) x → inv (st row) x.
Proof.
  intros H. pose proof (start_inv row st) as Hi. revert Hi. generalize (st row).
  induction H; eauto using mvcc_step_inv.
Qed.

(** ** Properties *)



(** No assertion of [Row_mvcc::access] fails, and no pointer of the history
    lists is dereferenced when it is NULL, for the calls a transaction makes. *)
Theorem mvcc_access_safe row st x t ts type r t_th :
  rtc step (start row st) x → enabled x t ts type r →
  is_Some (access t ts type r t_th (g_st x)).
Proof.
  intros Hx Hen.
  destruct (access_inv _ x t ts type r t_th (reach_inv _ _ _ Hx) Hen) as (rc&s1&s'&_&->&_).
  eauto.
Qed.

End mvcc.

(** ** A concrete run: transaction 0 writes 42 at timestamp 5, transaction 1 reads
    at timestamp 7. *)
Definition ex_st : row_ptr → Z := λ _, 0.

(** The call of [step_access], computed. *)
Definition ex_call (t : txn_ptr) (ts : Z) (type : TsType) (row : option row_ptr) (t_th : Z)
    (x : gstate (V:=Z)) : option gstate :=
  '(rc, s1) ← access_op 8 8 t ts type row (g_st x);
  '(_, s') ← access 8 8 4 t ts type row t_th (g_st x);
  Some (mkG s'
    (match type, row with W_REQ, Some p => (ts, store (g_st x) p) :: g_writes x
                        | _, _ => g_writes x end)
    (map (λ r, (r, store s1 (rd_row r))) (new_reads (g_st x) s1) ++ g_seen x)
    (if asks 4 rc s1 then Z.max (g_floor x) t_th else g_floor x)).

Lemma ex_call_step t ts type row t_th x y :
  enabled x t ts type row → ex_call t ts type row t_th x = Some y → step 8 8 4 x y.
Proof.
  unfold ex_call. intros Hen H.
  destruct (access_op _ _ _ _ _ _ _) as [[rc s1]|] eqn:E1; [|done]. cbn [mbind option_bind] in H.
  destruct (access _ _ _ _ _ _ _ _ _) as [[rc' s']|] eqn:E2; [|done]. cbn [mbind option_bind] in H.
  injection H as <-. apply (step_access 8 8 4 x t ts type row t_th rc s1 s'); [done..|].
  rewrite E2. unfold access in E2. rewrite E1 in E2. cbn [mbind option_bind] in E2.
  case_bool_decide; [|by simplify_eq]. by destruct (recycle _ _ _); simplify_eq/=.
Qed.

Definition ex_x1 : gstate :=
  Eval vm_compute in default (start 0%nat ex_st) (ex_call 0%nat 5 P_REQ None 3 (start 0%nat ex_st)).
Definition ex_x2 : gstate :=
  let s := g_st ex_x1 in
  mkG (mkSt (mv s) (<[1%nat := 42]> (store s)) (freed s) (ts_ready s) (reads s) (restarts s))
    (g_writes ex_x1) (g_seen ex_x1) (g_floor ex_x1).
Definition ex_x3 : gstate :=
  Eval vm_compute in default ex_x2 (ex_call 0%nat 5 W_REQ (Some 1%nat) 3 ex_x2).
Definition ex_x4 : gstate :=
  Eval vm_compute in default ex_x3 (ex_call 1%nat 7 R_REQ None 3 ex_x3).

Lemma ex_run : ∃ x, rtc (step 8 8 4) (start 0%nat ex_st) x ∧
  (mkRead 1%nat 7 1%nat, 42) ∈ g_seen x ∧ g_floor x = 0 ∧
  enabled x 2%nat 9 R_REQ None.
Proof.
  exists ex_x4. split.
  { eapply rtc_l; [apply (ex_call_step 0%nat 5 P_REQ None 3 _ ex_x1); [|vm_compute; reflexivity]|].
    { split; simpl; try done; try lia. by intros ?%elem_of_nil. }
    eapply (rtc_l _ _ ex_x2); [eapply (step_fill _ _ _ _ 1%nat 42); [done|by intros ?%elem_of_nil]|].
    eapply rtc_l; [apply (ex_call_step 0%nat 5 W_REQ (Some 1%nat) 3 _ ex_x3); [|vm_compute; reflexivity]|].
    { split; simpl; try done; try lia.
      - by intros ?%elem_of_nil.
      - by left.
      - intros _. split; [constructor|]. exists 1%nat. split_and!; try done; by intros ?%elem_of_nil. }
    eapply rtc_l; [apply (ex_call_step 1%nat 7 R_REQ None 3 _ ex_x4); [|vm_compute; reflexivity]|apply rtc_refl].
    split; simpl; try done; try lia. by intros ?%list_elem_of_singleton. }
  split; [by left|]. split; [done|].
  split; simpl; try done; try lia. by intros ?%list_elem_of_singleton.
Qed.



Lemma mvcc_access_safe_witness :
  ∃ x : gstate, is_Some (access 8 8 4 2%nat 9 R_REQ None 3 (g_st x)) ∧
    rtc (step 8 8 4) (start 0%nat ex_st) x.
Proof.
  destruct ex_run as (x&Hx&_&_&Hen). exists x. split; [|done].
  exact (mvcc_access_safe 8 8 4 0%nat ex_st x _ _ _ _ _ Hx Hen).
Defined.

End RowMvcc.
