(* ===== verification/HashTable.v ===== *)
(** * HashTable: arrays of buckets

    The time table, the transaction table and the hash indexes are all an array
    of linked lists with a scan for the key in the list its hash selects.  This
    file has the operations on such arrays once, and their laws in terms of the
    finite map that the table represents: what a lookup returns after a lookup
    key was appended, changed in place or unlinked. *)

From S2P Require Import Prelude.

Module HashTable.
Section table.

Context {K A : Type} `{EqDecision K} (key : A → K).

(** The scan [while (entry) { if (entry->key == key) break; entry = entry->next; }]. *)
Fixpoint scan (k : K) (l : list A) : option A :=
  match l with
  | [] => None
  | e :: l' => if bool_decide (key e = k) then Some e else scan k l'
  end.

(** Change the entry the scan finds, in place. *)
Fixpoint scan_update (k : K) (f : A → A) (l : list A) : list A :=
  match l with
  | [] => []
  | e :: l' => if bool_decide (key e = k) then f e :: l' else e :: scan_update k f l'
  end.

(** Unlink the entry the scan finds. *)
Fixpoint scan_remove (k : K) (l : list A) : list A :=
  match l with
  | [] => []
  | e :: l' => if bool_decide (key e = k) then l' else e :: scan_remove k l'
  end.

(** ** One bucket *)

Lemma scan_Some k l e : scan k l = Some e → e ∈ l ∧ key e = k.
Proof.
  induction l as [|a l IH]; simpl; [done|]. case_bool_decide.
  - intros [= ->]. split; [by left|done].
  - intros H'. destruct (IH H'). split; [by right|done].
Qed.

Lemma scan_None k l : scan k l = None ↔ k ∉ (key <$> l).
Proof.
  induction l as [|a l IH]; simpl.
  - split; [by intros _ ?%elem_of_nil|done].
  - rewrite not_elem_of_cons. case_bool_decide; naive_solver.
Qed.

Lemma scan_elem k l e : NoDup (key <$> l) → e ∈ l → key e = k → scan k l = Some e.
Proof.
  intros Hd He Hk. induction l as [|a l IH]; [by apply elem_of_nil in He|].
  simpl in *. apply NoDup_cons in Hd as [Hn Hd]. case_bool_decide as Ha.
  - apply elem_of_cons in He as [->|He]; [done|]. destruct Hn.
    rewrite Ha, <-Hk. apply list_elem_of_fmap. eauto.
  - apply elem_of_cons in He as [->|He]; [done|auto].
Qed.

Lemma scan_app k l l' :
  scan k (l ++ l') = match scan k l with Some e => Some e | None => scan k l' end.
Proof. induction l as [|a l IH]; simpl; [done|]. by case_bool_decide. Qed.

Lemma scan_update_keys k f l :
  (∀ e, key (f e) = key e) → key <$> scan_update k f l = key <$> l.
Proof.
  intros Hf. induction l as [|a l IH]; simpl; [done|].
  case_bool_decide; simpl; [by rewrite Hf|by f_equal].
Qed.

Lemma scan_update_spec k k' f l :
  (∀ e, key (f e) = key e) →
  scan k' (scan_update k f l) = if decide (k = k') then f <$> scan k l else scan k' l.
Proof.
  intros Hf. induction l as [|a l IH]; simpl; [by case_decide|].
  case_bool_decide as Ha; simpl; rewrite ?Hf; case_decide as Hk; subst.
  - by rewrite !bool_decide_true.
  - by rewrite bool_decide_false.
  - by rewrite bool_decide_false.
  - by rewrite IH.
Qed.

Lemma scan_remove_sublist k l : scan_remove k l `sublist_of` l.
Proof.
  induction l as [|a l IH]; simpl; [done|]. case_bool_decide.
  - by apply sublist_cons.
  - by apply sublist_skip.
Qed.

Lemma scan_remove_spec k k' l :
  NoDup (key <$> l) →
  scan k' (scan_remove k l) = if decide (k = k') then None else scan k' l.
Proof.
  induction l as [|a l IH]; simpl; [by case_decide|].
  intros [Hn Hd]%NoDup_cons. case_bool_decide as Ha; simpl.
  - case_decide as Hk; subst; [by apply scan_None|by rewrite bool_decide_false].
  - rewrite IH by done. case_decide as Hk; [subst|done]. by rewrite bool_decide_false.
Qed.

Lemma scan_remove_None k l : scan k l = None → scan_remove k l = l.
Proof.
  induction l as [|a l IH]; simpl; [done|]. case_bool_decide; [done|]. intros. f_equal. auto.
Qed.

Lemma scan_remove_length k l e : scan k l = Some e → length l = S (length (scan_remove k l)).
Proof.
  induction l as [|a l IH]; simpl; [done|]. case_bool_decide; [done|]. intros. simpl. f_equal. auto.
Qed.

(** ** The whole table *)

Context (h : K → nat).

Abbreviation table := (list (list A)).

Definition ht_find (t : table) (k : K) : option A := scan k (t !!! h k).
Definition ht_update (t : table) (k : K) (f : A → A) : table :=
  <[h k := scan_update k f (t !!! h k)]> t.
Definition ht_put_tail (t : table) (k : K) (e : A) : table :=
  <[h k := (t !!! h k) ++ [e]]> t.
Definition ht_put_head (t : table) (k : K) (e : A) : table :=
  <[h k := e :: (t !!! h k)]> t.
Definition ht_remove (t : table) (k : K) : table :=
  <[h k := scan_remove k (t !!! h k)]> t.

(** Every entry is in the bucket of its key, and no key occurs twice. *)
Record ht_wf (t : table) : Prop := {
  ht_range : ∀ k, (h k < length t)%nat;
  ht_place : ∀ i b e, t !! i = Some b → e ∈ b → h (key e) = i;
  ht_nodup : ∀ i b, t !! i = Some b → NoDup (key <$> b) }.

Lemma ht_bucket t k : ht_wf t → t !! h k = Some (t !!! h k).
Proof. intros []. by apply list_lookup_lookup_total_lt. Qed.

Lemma ht_lookup_insert t k b k' :
  ht_wf t → (<[h k := b]> t) !!! h k' = if decide (h k = h k') then b else t !!! h k'.
Proof.
  intros []. case_decide as E.
  - rewrite <-E. by apply list_lookup_total_insert_eq.
  - by apply list_lookup_total_insert_ne.
Qed.

Lemma ht_wf_insert t k b :
  ht_wf t → (∀ e, e ∈ b → h (key e) = h k) → NoDup (key <$> b) → ht_wf (<[h k := b]> t).
Proof.
  intros [] Hp Hn. split.
  - intros k'. by rewrite length_insert.
  - intros i b' e Hi He. apply list_lookup_insert_Some in Hi as [(<-&<-&_)|[_ Hi]]; eauto.
  - intros i b' Hi. apply list_lookup_insert_Some in Hi as [(<-&<-&_)|[_ Hi]]; eauto.
Qed.

Lemma ht_scan_other t k k' : ht_wf t → h k ≠ h k' → scan k' (t !!! h k) = None.
Proof.
  intros Ht Hne. apply scan_None. intros (e&->&He)%list_elem_of_fmap.
  by rewrite (ht_place _ Ht _ _ e (ht_bucket t k Ht) He) in Hne.
Qed.

Lemma ht_find_update t k f k' :
  ht_wf t → (∀ e, key (f e) = key e) →
  ht_find (ht_update t k f) k' =
    if decide (k = k') then f <$> ht_find t k else ht_find t k'.
Proof.
  intros Ht Hf. unfold ht_find, ht_update. rewrite ht_lookup_insert by done.
  case_decide as E; [rewrite scan_update_spec by done|].
  - case_decide; [done|]. by rewrite E.
  - case_decide; [by subst|done].
Qed.

Lemma ht_wf_update t k f :
  ht_wf t → (∀ e, key (f e) = key e) → ht_wf (ht_update t k f).
Proof.
  intros Ht Hf. apply ht_wf_insert; [done| |].
  - intros e He. assert (key e ∈ (key <$> scan_update k f (t !!! h k))) as Hk.
    { apply list_elem_of_fmap. eauto. }
    rewrite scan_update_keys in Hk by done. apply list_elem_of_fmap in Hk as (e'&->&He').
    by apply (ht_place _ Ht _ _ _ (ht_bucket t k Ht)).
  - rewrite scan_update_keys by done. by apply (ht_nodup _ Ht _ _ (ht_bucket t k Ht)).
Qed.

Lemma ht_find_put_tail t e k' :
  ht_wf t → ht_find t (key e) = None →
  ht_find (ht_put_tail t (key e) e) k' =
    if decide (key e = k') then Some e else ht_find t k'.
Proof.
  intros Ht Hn. unfold ht_find, ht_put_tail in *. rewrite ht_lookup_insert by done.
  case_decide as E; [rewrite scan_app|].
  - simpl. case_decide as Hk; [subst|].
    + by rewrite Hn, bool_decide_true.
    + rewrite E, bool_decide_false by done. by destruct (scan k' _).
  - case_decide; [by subst|done].
Qed.

Lemma ht_wf_put_tail t e :
  ht_wf t → ht_find t (key e) = None → ht_wf (ht_put_tail t (key e) e).
Proof.
  intros Ht Hn. apply ht_wf_insert; [done| |].
  - intros e' [He| ->%list_elem_of_singleton]%elem_of_app; [|done].
    by apply (ht_place _ Ht _ _ _ (ht_bucket t _ Ht)).
  - rewrite fmap_app. apply NoDup_app. split_and!.
    + by apply (ht_nodup _ Ht _ _ (ht_bucket t _ Ht)).
    + intros k Hk ->%list_elem_of_singleton. by apply scan_None in Hn.
    + apply NoDup_singleton.
Qed.

Lemma ht_find_remove t k k' :
  ht_wf t → ht_find (ht_remove t k) k' = if decide (k = k') then None else ht_find t k'.
Proof.
  intros Ht. unfold ht_find, ht_remove. rewrite ht_lookup_insert by done.
  case_decide as E; [rewrite scan_remove_spec|].
  - case_decide; [done|]. by rewrite E.
  - by apply (ht_nodup _ Ht _ _ (ht_bucket t _ Ht)).
  - case_decide; [by subst|done].
Qed.

Lemma ht_wf_remove t k : ht_wf t → ht_wf (ht_remove t k).
Proof.
  intros Ht. pose proof (scan_remove_sublist k (t !!! h k)) as Hs.
  apply ht_wf_insert; [done| |].
  - intros e He. apply (ht_place _ Ht _ _ _ (ht_bucket t k Ht)). by eapply elem_of_sublist.
  - eapply sublist_NoDup; [|by apply fmap_sublist].
    by apply (ht_nodup _ Ht _ _ (ht_bucket t k Ht)).
Qed.

Lemma ht_wf_empty n : (∀ k, (h k < n)%nat) → ht_wf (replicate n []).
Proof.
  intros Hn. split.
  - by rewrite length_replicate.
  - intros i b e [-> _]%lookup_replicate_1 ?%elem_of_nil. done.
  - intros i b [-> _]%lookup_replicate_1. constructor.
Qed.

Lemma ht_find_empty n k : ht_find (replicate n []) k = None.
Proof.
  unfold ht_find. rewrite list_lookup_total_alt.
  destruct (replicate n [] !! h k) as [b|] eqn:E; [|done].
  by apply lookup_replicate_1 in E as [-> _].
Qed.

End table.

(** The keys may be read through a heap: only those of the entries matter. *)
Lemma scan_key_ext {K A} `{EqDecision K} (key1 key2 : A → K) k l :
  (∀ e, e ∈ l → key1 e = key2 e) → scan key1 k l = scan key2 k l.
Proof.
  induction l as [|a l IH]; intros He; simpl; [done|]. rewrite (He a) by left.
  case_bool_decide; [done|]. apply IH. intros. apply He. by right.
Qed.

Lemma ht_wf_key_ext {K A} (key1 key2 : A → K) h (t : list (list A)) :
  (∀ i b e, t !! i = Some b → e ∈ b → key1 e = key2 e) → ht_wf key1 h t → ht_wf key2 h t.
Proof.
  intros He [Hr Hp Hd]. split; [done|..].
  - intros i b e Hi Hb. rewrite <-(He i b e Hi Hb). eauto.
  - intros i b Hi. rewrite <-(list_fmap_ext key1 key2); [eauto|].
    intros j e Hj. eapply He; [done|]. by eapply list_elem_of_lookup_2.
Qed.

End HashTable.
