(* ===== verification/Maat.v ===== *)
(** * Maat: dynamic timestamp ranges

    Model of [class TimeTable] and [class Maat] (concurrency_control/maat.h,
    maat.cpp).  Validation is written against an interface, the type class
    [TimeTableOps], and proved against its laws [TimeTableLaws]; the hash table of
    the code implements the interface and satisfies the laws.  A [std::set] is
    the list of its elements in the order of iteration.  The semaphore makes a
    validation one atomic step. *)

From S2P Require Import Prelude HashTable.

(** ** The time table *)

Inductive MAATState := MAAT_RUNNING | MAAT_VALIDATED | MAAT_COMMITTED | MAAT_ABORTED.

#[global] Instance MAATState_eq_dec : EqDecision MAATState.
Proof. solve_decision. Defined.

Record TimeTableEntry := mkTTE {
  te_lower : Z; te_upper : Z; te_key : Z; te_state : MAATState }.

Definition tte_init (key : Z) : TimeTableEntry := mkTTE 0 UINT64_MAX key MAAT_RUNNING.

Definition tte_set_lower (v : Z) (e : TimeTableEntry) : TimeTableEntry :=
  mkTTE v (te_upper e) (te_key e) (te_state e).
Definition tte_set_upper (v : Z) (e : TimeTableEntry) : TimeTableEntry :=
  mkTTE (te_lower e) v (te_key e) (te_state e).
Definition tte_set_state (v : MAATState) (e : TimeTableEntry) : TimeTableEntry :=
  mkTTE (te_lower e) (te_upper e) (te_key e) v.

(** What validation uses of the table. *)
Class TimeTableOps (T : Type) := {
  tt_find : T → Z → option TimeTableEntry;
  tt_init : Z → T → T;
  tt_release : Z → T → T;
  tt_set_lower : Z → Z → T → T;
  tt_set_upper : Z → Z → T → T;
  tt_set_state : Z → MAATState → T → T }.

(** [get_lower], [get_upper], [get_state] with their answers for a missing entry. *)
Definition get_lower `{TimeTableOps T} (t : T) (k : Z) : Z :=
  match tt_find t k with Some e => te_lower e | None => 0 end.
Definition get_upper `{TimeTableOps T} (t : T) (k : Z) : Z :=
  match tt_find t k with Some e => te_upper e | None => UINT64_MAX end.
Definition get_state `{TimeTableOps T} (t : T) (k : Z) : MAATState :=
  match tt_find t k with Some e => te_state e | None => MAAT_ABORTED end.

(** What the table promises: it is a finite map from transaction ids to entries. *)
Class TimeTableLaws (T : Type) `{TimeTableOps T} := {
  tt_wf : T → Prop;
  find_init t k k' : tt_wf t → tt_find (tt_init k t) k' =
    if decide (k = k') then Some (match tt_find t k with Some e => e | None => tte_init k end)
    else tt_find t k';
  find_release t k k' : tt_wf t →
    tt_find (tt_release k t) k' = if decide (k = k') then None else tt_find t k';
  find_set_lower t k v k' : tt_wf t → tt_find (tt_set_lower k v t) k' =
    if decide (k = k') then tte_set_lower v <$> tt_find t k else tt_find t k';
  find_set_upper t k v k' : tt_wf t → tt_find (tt_set_upper k v t) k' =
    if decide (k = k') then tte_set_upper v <$> tt_find t k else tt_find t k';
  find_set_state t k v k' : tt_wf t → tt_find (tt_set_state k v t) k' =
    if decide (k = k') then tte_set_state v <$> tt_find t k else tt_find t k';
  wf_init t k : tt_wf t → tt_wf (tt_init k t);
  wf_release t k : tt_wf t → tt_wf (tt_release k t);
  wf_set_lower t k v : tt_wf t → tt_wf (tt_set_lower k v t);
  wf_set_upper t k v : tt_wf t → tt_wf (tt_set_upper k v t);
  wf_set_state t k v : tt_wf t → tt_wf (tt_set_state k v t) }.

#[export] Hint Resolve wf_init wf_release wf_set_lower wf_set_upper wf_set_state : deneva.

Module TimeTable.
Import HashTable.

Record TimeTable := mkTT { table_size : Z; table : list (list TimeTableEntry) }.

(** [table_size = g_inflight_max + 1] *)
Definition init (inflight_max : Z) : TimeTable :=
  mkTT (inflight_max + 1) (replicate (Z.to_nat (inflight_max + 1)) []).

Definition hash (t : TimeTable) (key : Z) : nat := Z.to_nat (key `mod` table_size t).

Definition find (t : TimeTable) (key : Z) : option TimeTableEntry :=
  ht_find te_key (hash t) (table t) key.

Definition init_key (key : Z) (t : TimeTable) : TimeTable :=
  match find t key with
  | Some _ => t
  | None => mkTT (table_size t) (ht_put_tail (hash t) (table t) key (tte_init key))
  end.

Definition release (key : Z) (t : TimeTable) : TimeTable :=
  match find t key with
  | Some _ => mkTT (table_size t) (ht_remove te_key (hash t) (table t) key)
  | None => t
  end.

Definition modify (key : Z) (f : TimeTableEntry → TimeTableEntry) (t : TimeTable) : TimeTable :=
  match find t key with
  | Some _ => mkTT (table_size t) (ht_update te_key (hash t) (table t) key f)
  | None => t
  end.

Definition set_lower (key value : Z) : TimeTable → TimeTable := modify key (tte_set_lower value).
Definition set_upper (key value : Z) : TimeTable → TimeTable := modify key (tte_set_upper value).
Definition set_state (key : Z) (value : MAATState) : TimeTable → TimeTable :=
  modify key (tte_set_state value).

#[global] Instance ops : TimeTableOps TimeTable := {|
  tt_find := find; tt_init := init_key; tt_release := release;
  tt_set_lower := set_lower; tt_set_upper := set_upper; tt_set_state := set_state |}.

Definition wf (t : TimeTable) : Prop := ht_wf te_key (hash t) (table t).

Lemma modify_wf t k f : (∀ e, te_key (f e) = te_key e) → wf t → wf (modify k f t).
Proof.
  intros Hf Ht. unfold modify. destruct (find t k); [|done]. by apply ht_wf_update.
Qed.

Lemma find_modify t k f k' :
  (∀ e, te_key (f e) = te_key e) → wf t →
  find (modify k f t) k' = if decide (k = k') then f <$> find t k else find t k'.
Proof.
  intros Hf Ht. unfold modify. destruct (find t k) as [e|] eqn:E.
  - rewrite <-E. exact (ht_find_update te_key (hash t) (table t) k f k' Ht Hf).
  - case_decide; [by subst|done].
Qed.

#[global] Instance laws : TimeTableLaws TimeTable.
Proof.
  refine {| tt_wf := wf |}.
  - intros t k k' Ht. simpl. unfold init_key. destruct (find t k) as [e|] eqn:E.
    + by case_decide; subst.
    + exact (ht_find_put_tail te_key (hash t) (table t) (tte_init k) k' Ht E).
  - intros t k k' Ht. simpl. unfold release. destruct (find t k) as [e|] eqn:E.
    + exact (ht_find_remove te_key (hash t) (table t) k k' Ht).
    + by case_decide; subst.
  - intros t k v k'. by apply find_modify.
  - intros t k v k'. by apply find_modify.
  - intros t k v k'. by apply find_modify.
  - intros t k Ht. simpl. unfold init_key. destruct (find t k) as [e|] eqn:E; [done|].
    exact (ht_wf_put_tail te_key (hash t) (table t) (tte_init k) Ht E).
  - intros t k Ht. simpl. unfold release. destruct (find t k) as [e|] eqn:E; [|done].
    by apply ht_wf_remove.
  - intros t k v. by apply modify_wf.
  - intros t k v. by apply modify_wf.
  - intros t k v. by apply modify_wf.
Defined.

Lemma init_wf n : 0 ≤ n → wf (init n).
Proof.
  intros Hn. apply ht_wf_empty. intros k. unfold hash. simpl.
  pose proof (Z.mod_pos_bound k (n + 1)). lia.
Qed.

End TimeTable.

(** ** Validation *)

Module Maat.
Section maat.
Context `{TimeTableOps T}.

(** The fields of [TxnManager] that MaaT uses. *)
Record MaatTxn := mkMaatTxn {
  mt_id : Z;
  greatest_write_timestamp : Z;
  greatest_read_timestamp : Z;
  uncommitted_writes : list Z;
  uncommitted_writes_y : list Z;
  uncommitted_reads : list Z;
  commit_timestamp : Z }.

Definition fixed (st : MAATState) : bool :=
  bool_decide (st = MAAT_VALIDATED) || bool_decide (st = MAAT_COMMITTED).

(** "lower bound of txn greater than write (read) timestamp" *)
Definition raise_lower (lower g : Z) : Z :=
  if lower <=? g then wrap64 (g + 1) else lower.

(** "lower bound of uncommitted writes greater than upper bound of txn" *)
Definition check_write (tt : T) (it : Z) (s : Z * list Z) : Z * list Z :=
  let '(upper, after) := s in
  let it_lower := get_lower tt it in
  if it_lower <=? upper then
    let state := get_state tt it in
    (if fixed state then (if 0 <? it_lower then it_lower - 1 else it_lower) else upper,
     if bool_decide (state = MAAT_RUNNING) then sset_insert it after else after)
  else s.

(** "upper bound of uncommitted reads less than lower bound of txn" *)
Definition check_read (tt : T) (it : Z) (s : Z * list Z) : Z * list Z :=
  let '(lower, before) := s in
  let it_upper := get_upper tt it in
  if lower <=? it_upper then
    let state := get_state tt it in
    (if fixed state then (if it_upper <? UINT64_MAX then it_upper + 1 else it_upper) else lower,
     if bool_decide (state = MAAT_RUNNING) then sset_insert it before else before)
  else s.

(** "upper bound of uncommitted write writes less than lower bound of txn" *)
Definition check_write_y (tt : T) (it : Z) (s : Z * list Z) : Z * list Z :=
  let '(lower, after) := s in
  let state := get_state tt it in
  let it_upper := get_upper tt it in
  if bool_decide (state = MAAT_ABORTED) then s
  else
    (if fixed state && (lower <=? it_upper)
     then (if it_upper <? UINT64_MAX then it_upper + 1 else it_upper) else lower,
     if bool_decide (state = MAAT_RUNNING) then sset_insert it after else after).

Definition fold_set {S} (f : Z → S → S) (l : list Z) (s : S) : S :=
  foldl (λ s it, f it s) s l.

(** The bounds and the two sets before the decision. *)
Definition bounds (tt : T) (txn : MaatTxn) : Z * Z * list Z * list Z :=
  let lower := raise_lower (get_lower tt (mt_id txn)) (greatest_write_timestamp txn) in
  let '(upper, after) := fold_set (check_write tt) (uncommitted_writes txn)
                           (get_upper tt (mt_id txn), []) in
  let lower := raise_lower lower (greatest_read_timestamp txn) in
  let '(lower, before) := fold_set (check_read tt) (uncommitted_reads txn) (lower, []) in
  let '(lower, after) := fold_set (check_write_y tt) (uncommitted_writes_y txn) (lower, after) in
  (lower, upper, before, after).

Definition widen_before (tt : T) (upper : Z) (it lower : Z) : Z :=
  let it_upper := get_upper tt it in
  if (lower <? it_upper) && (it_upper <? wrap64 (upper - 1)) then wrap64 (it_upper + 1)
  else lower.

Definition push_before (lower : Z) (it : Z) (tt : T) : T :=
  if lower <=? get_upper tt it then
    tt_set_upper it (if 0 <? lower then lower - 1 else lower) tt
  else tt.

Definition widen_after (tt : T) (lower : Z) (it upper : Z) : Z :=
  let it_lower := get_lower tt it in
  let it_upper := get_upper tt it in
  let upper :=
    if negb (it_upper =? UINT64_MAX) && (wrap64 (lower + 2) <? it_upper) && (it_upper <? upper)
    then wrap64 (it_upper - 2) else upper in
  if (it_lower <? upper) && (wrap64 (lower + 1) <? it_lower) then wrap64 (it_lower - 1)
  else upper.

Definition push_after (upper : Z) (it : Z) (tt : T) : T :=
  if get_lower tt it <=? upper then
    tt_set_lower it (if upper <? UINT64_MAX then upper + 1 else upper) tt
  else tt.

Definition validate (txn : MaatTxn) (tt : T) : option (RC * T) :=
  let '(lower, upper, before, after) := bounds tt txn in
  if upper <=? lower then
    let tt := tt_set_state (mt_id txn) MAAT_ABORTED tt in
    Some (Abort, tt_set_upper (mt_id txn) upper (tt_set_lower (mt_id txn) lower tt))
  else
    let tt := tt_set_state (mt_id txn) MAAT_VALIDATED tt in
    let lower := fold_set (widen_before tt upper) before lower in
    let tt := fold_set (push_before lower) before tt in
    let upper := fold_set (widen_after tt lower) after upper in
    let tt := fold_set (push_after upper) after tt in
    ASSERT lower <? upper;
    Some (RCOK, tt_set_upper (mt_id txn) upper (tt_set_lower (mt_id txn) lower tt)).

Definition find_bound (txn : MaatTxn) (tt : T) : RC * MaatTxn * T :=
  let lower := get_lower tt (mt_id txn) in
  let upper := get_upper tt (mt_id txn) in
  if upper <=? lower then (Abort, txn, tt_set_state (mt_id txn) MAAT_VALIDATED tt)
  else (RCOK,
    mkMaatTxn (mt_id txn) (greatest_write_timestamp txn) (greatest_read_timestamp txn)
      (uncommitted_writes txn) (uncommitted_writes_y txn) (uncommitted_reads txn) lower,
    tt_set_state (mt_id txn) MAAT_COMMITTED tt).

End maat.

(** ** What validation establishes *)

Section proofs.
Context `{TimeTableLaws T}.
Implicit Types (tt : T) (txn : MaatTxn).

(** Bounds in the table are infinite or leave room for the additions of
    [validate]. *)
Definition roomy (z : Z) : Prop := 0 ≤ z < UINT64_MAX - 3 ∨ z = UINT64_MAX.

Record table_ok (tt : T) : Prop := {
  to_wf : tt_wf tt;
  to_roomy : ∀ k e, tt_find tt k = Some e → roomy (te_lower e) ∧ roomy (te_upper e) }.

(** The order a validated transaction has to the others: its range lies before
    that of every validated writer it did not see, and after that of every
    validated reader and writer it overwrites; running ones are moved out of the
    way.  A running transaction pushed to [UINT64_MAX] can no longer commit. *)
Record ordered (txn : MaatTxn) (tt tt' : T) (lo up : Z) : Prop := {
  od_range : lo < up;
  od_write : greatest_write_timestamp txn < lo;
  od_read : greatest_read_timestamp txn < lo;
  od_shrink : get_lower tt (mt_id txn) ≤ lo ∧ up ≤ get_upper tt (mt_id txn);
  od_uw : ∀ w, w ∈ uncommitted_writes txn → fixed (get_state tt w) = true →
    up < get_lower tt' w;
  od_uw_run : ∀ w, w ∈ uncommitted_writes txn → get_state tt w = MAAT_RUNNING →
    w ≠ mt_id txn → up < get_lower tt' w ∨ get_lower tt' w = UINT64_MAX;
  od_ur : ∀ r, r ∈ uncommitted_reads txn → fixed (get_state tt r) = true →
    get_upper tt' r < lo;
  od_ur_run : ∀ r, r ∈ uncommitted_reads txn → get_state tt r = MAAT_RUNNING →
    r ≠ mt_id txn → get_upper tt' r < lo;
  od_uwy : ∀ w, w ∈ uncommitted_writes_y txn → fixed (get_state tt w) = true →
    get_upper tt' w < lo;
  od_uwy_run : ∀ w, w ∈ uncommitted_writes_y txn → get_state tt w = MAAT_RUNNING →
    w ≠ mt_id txn → up < get_lower tt' w ∨ get_lower tt' w = UINT64_MAX }.

(** A range that the bounds of the table, the timestamps seen and the fixed
    transactions of the three sets leave to a transaction. *)
Record feasible (txn : MaatTxn) (tt : T) (lo up : Z) : Prop := {
  fe_range : lo < up;
  fe_own : get_lower tt (mt_id txn) ≤ lo ∧ up ≤ get_upper tt (mt_id txn);
  fe_write : greatest_write_timestamp txn < lo;
  fe_read : greatest_read_timestamp txn < lo;
  fe_uw : ∀ w, w ∈ uncommitted_writes txn → fixed (get_state tt w) = true → up < get_lower tt w;
  fe_ur : ∀ r, r ∈ uncommitted_reads txn → fixed (get_state tt r) = true → get_upper tt r < lo;
  fe_uwy : ∀ w, w ∈ uncommitted_writes_y txn → fixed (get_state tt w) = true → get_upper tt w < lo }.

(** What validation leaves alone: the states of the others, every entry that is
    not a running transaction of the three sets, the upper bounds of all but the
    running readers and the lower bounds of all but the running writers. *)
Record framed (txn : MaatTxn) (tt tt' : T) : Prop := {
  fr_state : ∀ k, k ≠ mt_id txn → get_state tt' k = get_state tt k;
  fr_rest : ∀ k, k ≠ mt_id txn →
    get_state tt k ≠ MAAT_RUNNING ∨ k ∉ uncommitted_reads txn ++ uncommitted_writes txn ++ uncommitted_writes_y txn →
    tt_find tt' k = tt_find tt k;
  fr_upper : ∀ k, k ≠ mt_id txn → k ∉ uncommitted_reads txn → get_upper tt' k = get_upper tt k;
  fr_lower : ∀ k, k ≠ mt_id txn → k ∉ uncommitted_writes txn ++ uncommitted_writes_y txn → get_lower tt' k = get_lower tt k }.

Lemma fold_set_spec {S} (f : Z → S → S) (R : S → Prop) (Q : Z → S → Prop) l s :
  (∀ it s, it ∈ l → R s → R (f it s)) →
  (∀ it s, it ∈ l → R s → Q it (f it s)) →
  (∀ it it' s, it' ∈ l → R s → Q it s → Q it (f it' s)) →
  R s → R (fold_set f l s) ∧ ∀ it, it ∈ l → Q it (fold_set f l s).
Proof.
  unfold fold_set. induction l as [|x l IH] using rev_ind; intros HR HQ HP Hs.
  { split; [done|]. by intros ? ?%elem_of_nil. }
  rewrite foldl_app. simpl.
  destruct IH as [IH1 IH2]; try done.
  { intros; apply HR; [set_solver|done]. } { intros; apply HQ; [set_solver|done]. }
  { intros; apply HP; [set_solver|done..]. }
  split; [apply HR; [set_solver|done]|].
  intros it [Hit| ->%list_elem_of_singleton]%elem_of_app.
  - apply HP; [set_solver|done|auto].
  - apply HQ; [set_solver|done].
Qed.

Lemma get_lower_roomy tt k : table_ok tt → roomy (get_lower tt k).
Proof.
  intros [_ Hr]. unfold get_lower. destruct (tt_find tt k) eqn:E; [by eapply Hr|].
  left. unfold UINT64_MAX. lia.
Qed.

Lemma get_upper_roomy tt k : table_ok tt → roomy (get_upper tt k).
Proof.
  intros [_ Hr]. unfold get_upper. destruct (tt_find tt k) eqn:E; [by eapply Hr|by right].
Qed.

(** A case split on the comparisons of the goal, closed by arithmetic. *)
Local Ltac cmp :=
  repeat match goal with
  | |- context [if ?a <? ?b then _ else _] => destruct (Z.ltb_spec a b)
  | |- context [if fixed ?s then _ else _] => destruct (fixed s)
  end; try done; try lia.

Lemma check_writes_spec tt ws up0 :
  table_ok tt → 0 ≤ up0 →
  let '(up, after) := fold_set (check_write tt) ws (up0, []) in
  0 ≤ up ≤ up0 ∧
  (∀ w, w ∈ ws → fixed (get_state tt w) = true → up < get_lower tt w ∨ up = 0) ∧
  (∀ w, w ∈ ws → get_state tt w = MAAT_RUNNING → up < get_lower tt w ∨ w ∈ after) ∧
  (∀ w, w ∈ after → get_state tt w = MAAT_RUNNING).
Proof.
  intros Hok Hup.
  destruct (fold_set_spec (check_write tt)
    (λ s, 0 ≤ s.1 ≤ up0 ∧ ∀ w, w ∈ s.2 → get_state tt w = MAAT_RUNNING)
    (λ w s, (fixed (get_state tt w) = true → s.1 < get_lower tt w ∨ s.1 = 0) ∧
            (get_state tt w = MAAT_RUNNING → s.1 < get_lower tt w ∨ w ∈ s.2))
    ws (up0, [])) as [(H1&H2) H3].
  - intros it [up af] _ (Hle&Haf). unfold check_write.
    pose proof (get_lower_roomy tt it Hok) as Hro. unfold roomy, UINT64_MAX in Hro.
    destruct (Z.leb_spec (get_lower tt it) up); [|done]. simpl in *. split; [cmp|].
    intros w. case_bool_decide; [|auto]. rewrite elem_of_sset_insert. intros [->|]; auto.
  - intros it [up af] _ (Hle&Haf). unfold check_write.
    pose proof (get_lower_roomy tt it Hok) as Hro. unfold roomy, UINT64_MAX in Hro.
    destruct (Z.leb_spec (get_lower tt it) up); simpl; [split|split; intros; lia].
    + intros ->. cmp.
    + intros E. rewrite bool_decide_true by done. right. apply elem_of_sset_insert. by left.
  - intros it it' [up af] _ (Hle&Haf) [Hq1 Hq2]. unfold check_write. simpl in *.
    pose proof (get_lower_roomy tt it' Hok) as Hro. unfold roomy, UINT64_MAX in Hro.
    destruct (Z.leb_spec (get_lower tt it') up); [|done]. simpl. split.
    + intros Hf. specialize (Hq1 Hf). cmp.
    + intros E. destruct (Hq2 E) as [?|Hin]; [left; cmp|right].
      case_bool_decide; [|done]. apply elem_of_sset_insert. by right.
  - simpl. split; [lia|by intros ? ?%elem_of_nil].
  - destruct (fold_set _ _ _) as [up after]. simpl in *.
    split_and!; [lia|lia|intros w Hw; by apply H3|intros w Hw; by apply H3|done].
Qed.

Lemma check_reads_spec tt rs lo0 :
  table_ok tt → lo0 ≤ UINT64_MAX →
  let '(lo, before) := fold_set (check_read tt) rs (lo0, []) in
  lo0 ≤ lo ≤ UINT64_MAX ∧ (lo = lo0 ∨ lo < UINT64_MAX - 2 ∨ lo = UINT64_MAX) ∧
  (∀ r, r ∈ rs → fixed (get_state tt r) = true → get_upper tt r < lo ∨ lo = UINT64_MAX) ∧
  (∀ r, r ∈ rs → get_state tt r = MAAT_RUNNING → get_upper tt r < lo ∨ r ∈ before) ∧
  (∀ r, r ∈ before → get_state tt r = MAAT_RUNNING).
Proof.
  intros Hok Hlo.
  destruct (fold_set_spec (check_read tt)
    (λ s, lo0 ≤ s.1 ≤ UINT64_MAX ∧ (s.1 = lo0 ∨ s.1 < UINT64_MAX - 2 ∨ s.1 = UINT64_MAX) ∧
          ∀ w, w ∈ s.2 → get_state tt w = MAAT_RUNNING)
    (λ w s, (fixed (get_state tt w) = true → get_upper tt w < s.1 ∨ s.1 = UINT64_MAX) ∧
            (get_state tt w = MAAT_RUNNING → get_upper tt w < s.1 ∨ w ∈ s.2))
    rs (lo0, [])) as [(H1&H2&H3) H4].
  - intros it [lo bf] _ (Hle&Hfar&Hbf). unfold check_read.
    pose proof (get_upper_roomy tt it Hok) as Hro. unfold roomy in Hro.
    destruct (Z.leb_spec lo (get_upper tt it)); [|done]. simpl in *. split_and!; [cmp..|].
    intros w. case_bool_decide; [|auto]. rewrite elem_of_sset_insert. intros [->|]; auto.
  - intros it [lo bf] _ (Hle&Hfar&Hbf). unfold check_read.
    pose proof (get_upper_roomy tt it Hok) as Hro. unfold roomy in Hro.
    destruct (Z.leb_spec lo (get_upper tt it)); simpl; [split|split; intros; lia].
    + intros ->. cmp.
    + intros E. rewrite bool_decide_true by done. right. apply elem_of_sset_insert. by left.
  - intros it it' [lo bf] _ (Hle&Hfar&Hbf) [Hq1 Hq2]. unfold check_read. simpl in *.
    pose proof (get_upper_roomy tt it' Hok) as Hro. unfold roomy in Hro.
    destruct (Z.leb_spec lo (get_upper tt it')); [|done]. simpl. split.
    + intros Hf. specialize (Hq1 Hf). cmp.
    + intros E. destruct (Hq2 E) as [?|Hin]; [left; cmp|right].
      case_bool_decide; [|done]. apply elem_of_sset_insert. by right.
  - simpl. split_and!; [lia|lia|by left|by intros ? ?%elem_of_nil].
  - destruct (fold_set _ _ _) as [lo before]. simpl in *.
    split_and!; [lia|lia|done|intros w Hw; by apply H4|intros w Hw; by apply H4|done].
Qed.

Lemma check_writes_y_spec tt ws lo0 af0 :
  table_ok tt → lo0 ≤ UINT64_MAX → (∀ w, w ∈ af0 → get_state tt w = MAAT_RUNNING) →
  let '(lo, after) := fold_set (check_write_y tt) ws (lo0, af0) in
  lo0 ≤ lo ≤ UINT64_MAX ∧ (lo = lo0 ∨ lo < UINT64_MAX - 2 ∨ lo = UINT64_MAX) ∧
  (∀ w, w ∈ ws → fixed (get_state tt w) = true → get_upper tt w < lo ∨ lo = UINT64_MAX) ∧
  (∀ w, w ∈ ws → get_state tt w = MAAT_RUNNING → w ∈ after) ∧
  (∀ w, w ∈ af0 → w ∈ after) ∧
  (∀ w, w ∈ after → get_state tt w = MAAT_RUNNING).
Proof.
  intros Hok Hlo Haf0.
  destruct (fold_set_spec (check_write_y tt)
    (λ s, lo0 ≤ s.1 ≤ UINT64_MAX ∧ (s.1 = lo0 ∨ s.1 < UINT64_MAX - 2 ∨ s.1 = UINT64_MAX) ∧
          (∀ w, w ∈ af0 → w ∈ s.2) ∧ ∀ w, w ∈ s.2 → get_state tt w = MAAT_RUNNING)
    (λ w s, (fixed (get_state tt w) = true → get_upper tt w < s.1 ∨ s.1 = UINT64_MAX) ∧
            (get_state tt w = MAAT_RUNNING → w ∈ s.2))
    ws (lo0, af0)) as [(H1&H2&H3&H4) H5].
  - intros it [lo af] _ (Hle&Hfar&Hsub&Haf). unfold check_write_y.
    pose proof (get_upper_roomy tt it Hok) as Hro. unfold roomy in Hro.
    case_bool_decide; [done|]. simpl in *.
    destruct (fixed _), (Z.leb_spec lo (get_upper tt it)); simpl; (split_and!; [cmp..| |]);
      intros w; case_bool_decide; rewrite ?elem_of_sset_insert; naive_solver.
  - intros it [lo af] _ (Hle&Hfar&Hsub&Haf). unfold check_write_y.
    pose proof (get_upper_roomy tt it Hok) as Hro. unfold roomy in Hro.
    case_bool_decide as Ha; [by rewrite Ha|]. simpl. split.
    + intros ->. destruct (Z.leb_spec lo (get_upper tt it)); simpl; cmp.
    + intros E. rewrite bool_decide_true by done. apply elem_of_sset_insert. by left.
  - intros it it' [lo af] _ (Hle&Hfar&Hsub&Haf) [Hq1 Hq2]. unfold check_write_y. simpl in *.
    pose proof (get_upper_roomy tt it' Hok) as Hro. unfold roomy in Hro.
    case_bool_decide; [done|]. simpl. split.
    + intros Hf. specialize (Hq1 Hf).
      destruct (fixed (get_state tt it')), (Z.leb_spec lo (get_upper tt it')); simpl; cmp.
    + intros E. case_bool_decide; [apply elem_of_sset_insert; right|]; auto.
  - simpl. split_and!; [lia|lia|by left|done|done].
  - destruct (fold_set _ _ _) as [lo after]. simpl in *.
    split_and!; [lia|lia|done|intros w Hw; by apply H5|intros w Hw; by apply H5|done|done].
Qed.

(** The four parts of the bounds together. *)
Record bounds_ok (txn : MaatTxn) (tt : T) (lo up : Z) (before after : list Z) : Prop := {
  bo_lo : get_lower tt (mt_id txn) ≤ lo ≤ UINT64_MAX;
  bo_far : lo < UINT64_MAX - 2 ∨ lo = UINT64_MAX;
  bo_up : 0 ≤ up ≤ get_upper tt (mt_id txn);
  bo_write : greatest_write_timestamp txn < lo;
  bo_read : greatest_read_timestamp txn < lo;
  bo_uw : ∀ w, w ∈ uncommitted_writes txn → fixed (get_state tt w) = true →
    up < get_lower tt w ∨ up = 0;
  bo_uw_run : ∀ w, w ∈ uncommitted_writes txn → get_state tt w = MAAT_RUNNING →
    up < get_lower tt w ∨ w ∈ after;
  bo_ur : ∀ r, r ∈ uncommitted_reads txn → fixed (get_state tt r) = true →
    get_upper tt r < lo ∨ lo = UINT64_MAX;
  bo_ur_run : ∀ r, r ∈ uncommitted_reads txn → get_state tt r = MAAT_RUNNING →
    get_upper tt r < lo ∨ r ∈ before;
  bo_uwy : ∀ w, w ∈ uncommitted_writes_y txn → fixed (get_state tt w) = true →
    get_upper tt w < lo ∨ lo = UINT64_MAX;
  bo_uwy_run : ∀ w, w ∈ uncommitted_writes_y txn → get_state tt w = MAAT_RUNNING →
    w ∈ after;
  bo_sets : (∀ w, w ∈ before → get_state tt w = MAAT_RUNNING) ∧
            (∀ w, w ∈ after → get_state tt w = MAAT_RUNNING) }.

(** The last committed timestamps a transaction has seen leave room too. *)
Definition txn_roomy (txn : MaatTxn) : Prop :=
  0 ≤ greatest_write_timestamp txn < UINT64_MAX - 3 ∧
  0 ≤ greatest_read_timestamp txn < UINT64_MAX - 3.

Lemma raise_lower_spec lower g :
  roomy lower ∨ 0 ≤ lower < UINT64_MAX - 2 → 0 ≤ g < UINT64_MAX - 3 →
  lower ≤ raise_lower lower g ∧ g < raise_lower lower g ∧
  (raise_lower lower g < UINT64_MAX - 2 ∨ raise_lower lower g = UINT64_MAX).
Proof.
  intros Hl Hg. unfold raise_lower, roomy in *.
  destruct (Z.leb_spec lower g); [|lia]. rewrite wrap64_small; [lia|].
  unfold is_u64, UINT64_MAX, u64_mod in *. lia.
Qed.

Lemma bounds_spec txn tt :
  table_ok tt → txn_roomy txn →
  let '(lo, up, before, after) := bounds tt txn in bounds_ok txn tt lo up before after.
Proof.
  intros Hok [Hgw Hgr]. unfold bounds.
  pose proof (get_lower_roomy tt (mt_id txn) Hok) as Hl0.
  pose proof (get_upper_roomy tt (mt_id txn) Hok) as Hu0.
  assert (0 ≤ get_upper tt (mt_id txn)) as Hup by (unfold roomy, UINT64_MAX in Hu0; lia).
  destruct (raise_lower_spec _ _ (or_introl Hl0) Hgw) as (R1&R2&R3).
  set (l1 := raise_lower (get_lower tt (mt_id txn)) (greatest_write_timestamp txn)) in *.
  destruct (raise_lower_spec l1 (greatest_read_timestamp txn)) as (R4&R5&R6); [|done|].
  { unfold roomy in *. unfold UINT64_MAX in *. lia. }
  set (l2 := raise_lower l1 (greatest_read_timestamp txn)) in *.
  pose proof (check_writes_spec tt (uncommitted_writes txn) _ Hok Hup) as Hw.
  destruct (fold_set (check_write tt) _ _) as [up af]. destruct Hw as (W1&W2&W3&W4).
  assert (l2 ≤ UINT64_MAX) as Hl2 by lia.
  pose proof (check_reads_spec tt (uncommitted_reads txn) _ Hok Hl2) as Hr.
  destruct (fold_set (check_read tt) _ _) as [l3 bf]. destruct Hr as (Q1&Q2&Q3&Q4&Q5).
  assert (l3 ≤ UINT64_MAX) as Hl3 by lia.
  pose proof (check_writes_y_spec tt (uncommitted_writes_y txn) _ af Hok Hl3 W4) as Hy.
  destruct (fold_set (check_write_y tt) _ _) as [l4 af2].
  destruct Hy as (Y1&Y2&Y3&Y4&Y5&Y6).
  split; auto; try lia.
  - intros w Hw E. destruct (W3 w Hw E); auto.
  - intros r Hr E. destruct (Q3 r Hr E); lia.
  - intros r Hr E. destruct (Q4 r Hr E); [left; lia|by right].
Qed.

(** The bounds are as wide as the constraints allow. *)
Lemma bounds_tight txn tt lo0 up0 : table_ok tt → txn_roomy txn → feasible txn tt lo0 up0 →
  let '(lo, up, before, after) := bounds tt txn in lo ≤ lo0 ∧ up0 ≤ up.
Proof.
  intros Hok [Hgw Hgr] [F1 [F2 F3] F4 F5 F6 F7 F8]. unfold bounds.
  pose proof (get_lower_roomy tt (mt_id txn) Hok) as Hl0. pose proof (get_upper_roomy tt (mt_id txn) Hok) as Hu0.
  assert (∀ l g, l ≤ lo0 → 0 ≤ g < UINT64_MAX - 3 → g < lo0 → raise_lower l g ≤ lo0) as Hraise.
  { intros l g Hl Hg Hglo. unfold raise_lower. destruct (Z.leb_spec l g); [|done].
    rewrite wrap64_small; [lia|]. unfold is_u64, UINT64_MAX, u64_mod in *. lia. }
  assert (lo0 < UINT64_MAX) as HM by (unfold roomy in Hu0; lia).
  destruct (fold_set_spec (check_write tt) (λ s, up0 ≤ s.1) (λ _ _, True) (uncommitted_writes txn) (get_upper tt (mt_id txn), [])) as [Hup _]; try done.
  { intros it [up af] Hit Hs. unfold check_write. destruct (Z.leb_spec (get_lower tt it) up); [|done]. simpl in *.
    destruct (fixed (get_state tt it)) eqn:Hf; [|done]. specialize (F6 it Hit Hf). destruct (Z.ltb_spec 0 (get_lower tt it)); lia. }
  destruct (fold_set (check_write tt) _ _) as [up af]. simpl in Hup.
  destruct (fold_set_spec (check_read tt) (λ s, s.1 ≤ lo0) (λ _ _, True) (uncommitted_reads txn)
    (raise_lower (raise_lower (get_lower tt (mt_id txn)) (greatest_write_timestamp txn)) (greatest_read_timestamp txn), [])) as [Hlo _]; try done.
  { intros it [lo bf] Hit Hs. unfold check_read. destruct (Z.leb_spec lo (get_upper tt it)); [|done]. simpl in *.
    destruct (fixed (get_state tt it)) eqn:Hf; [|done]. specialize (F7 it Hit Hf). destruct (Z.ltb_spec (get_upper tt it) UINT64_MAX); lia. }
  { simpl. apply Hraise; [|done|done]. by apply Hraise. }
  destruct (fold_set (check_read tt) _ _) as [lo bf]. simpl in Hlo.
  destruct (fold_set_spec (check_write_y tt) (λ s, s.1 ≤ lo0) (λ _ _, True) (uncommitted_writes_y txn) (lo, af)) as [Hlo2 _]; try done.
  { intros it [lo1 af1] Hit Hs. unfold check_write_y. case_bool_decide; [done|]. simpl in *.
    destruct (fixed (get_state tt it)) eqn:Hf; [|done]. specialize (F8 it Hit Hf).
    destruct (Z.leb_spec lo1 (get_upper tt it)); simpl; [|done]. destruct (Z.ltb_spec (get_upper tt it) UINT64_MAX); lia. }
  destruct (fold_set (check_write_y tt) _ _) as [lo2 af2]. simpl in *. lia.
Qed.

(** The transactions to be moved are in the sets. *)
Lemma bounds_sets txn tt : let '(lo, up, before, after) := bounds tt txn in
  (∀ k, k ∈ before → k ∈ uncommitted_reads txn) ∧
  (∀ k, k ∈ after → k ∈ uncommitted_writes txn ++ uncommitted_writes_y txn).
Proof.
  unfold bounds. set (all := uncommitted_writes txn ++ uncommitted_writes_y txn).
  destruct (fold_set_spec (check_write tt) (λ s, ∀ k, k ∈ s.2 → k ∈ all) (λ _ _, True) (uncommitted_writes txn) (get_upper tt (mt_id txn), [])) as [Hw _];
    [|done..|by intros k ?%elem_of_nil|].
  { intros it [up af] Hit Hs. unfold check_write. destruct (_ <=? _); [|done]. simpl in *. intros k. case_bool_decide; [|auto].
    intros [->|?]%elem_of_sset_insert; [subst all; set_solver|auto]. }
  destruct (fold_set (check_write tt) _ _) as [up af]. simpl in Hw.
  match goal with |- context [fold_set (check_read tt) ?l ?s0] =>
    destruct (fold_set_spec (check_read tt) (λ s, ∀ k, k ∈ s.2 → k ∈ l) (λ _ _, True) l s0) as [Hr _]; [|done..|by intros k ?%elem_of_nil|] end.
  { intros it [lo bf] Hit Hs. unfold check_read. destruct (_ <=? _); [|done]. simpl in *. intros k. case_bool_decide; [|auto].
    intros [->|?]%elem_of_sset_insert; auto. }
  destruct (fold_set (check_read tt) _ _) as [lo bf]. simpl in Hr.
  destruct (fold_set_spec (check_write_y tt) (λ s, ∀ k, k ∈ s.2 → k ∈ all) (λ _ _, True) (uncommitted_writes_y txn) (lo, af)) as [Hy _]; [|done..|].
  { intros it [lo1 af1] Hit Hs. unfold check_write_y. case_bool_decide; [done|]. simpl in *. intros k. case_bool_decide; [|auto].
    intros [->|?]%elem_of_sset_insert; [subst all; set_solver|auto]. }
  destruct (fold_set (check_write_y tt) _ _) as [lo2 af2]. done.
Qed.

(** ** Moving the running transactions *)

(** The table changed only the bounds of running transactions. *)
Definition moved (S : list Z) (tt tt' : T) : Prop :=
  tt_wf tt' ∧ (∀ k, k ∉ S → tt_find tt' k = tt_find tt k) ∧
  (∀ k, get_state tt' k = get_state tt k) ∧
  (∀ k, is_Some (tt_find tt' k) ↔ is_Some (tt_find tt k)).

Lemma moved_refl S tt : tt_wf tt → moved S tt tt.
Proof. by repeat split. Qed.

Lemma get_lower_set_upper tt k v k' :
  tt_wf tt → get_lower (tt_set_upper k v tt) k' = get_lower tt k'.
Proof.
  intros Hw. unfold get_lower. rewrite find_set_upper by done.
  case_decide; [subst|done]. by destruct (tt_find tt k').
Qed.

Lemma get_upper_set_lower tt k v k' :
  tt_wf tt → get_upper (tt_set_lower k v tt) k' = get_upper tt k'.
Proof.
  intros Hw. unfold get_upper. rewrite find_set_lower by done.
  case_decide; [subst|done]. by destruct (tt_find tt k').
Qed.

Lemma get_upper_set_upper tt k v k' :
  tt_wf tt → is_Some (tt_find tt k) →
  get_upper (tt_set_upper k v tt) k' = if decide (k = k') then v else get_upper tt k'.
Proof.
  intros Hw [e He]. unfold get_upper. rewrite find_set_upper by done.
  case_decide; [by rewrite He|done].
Qed.

Lemma get_lower_set_lower tt k v k' :
  tt_wf tt → is_Some (tt_find tt k) →
  get_lower (tt_set_lower k v tt) k' = if decide (k = k') then v else get_lower tt k'.
Proof.
  intros Hw [e He]. unfold get_lower. rewrite find_set_lower by done.
  case_decide; [by rewrite He|done].
Qed.

Lemma get_state_running tt k : get_state tt k = MAAT_RUNNING → is_Some (tt_find tt k).
Proof. unfold get_state. destruct (tt_find tt k); eauto; done. Qed.

Lemma moved_set_upper S tt tt' k v :
  moved S tt tt' → k ∈ S → moved S tt (tt_set_upper k v tt').
Proof.
  intros (Hw&Hs&Hst&Hd) Hk. split_and!; [by apply wf_set_upper|..].
  - intros k' Hk'. rewrite find_set_upper by done. case_decide; [by subst|auto].
  - intros k'. rewrite <-Hst. unfold get_state. rewrite find_set_upper by done.
    case_decide; [subst|done]. by destruct (tt_find tt' k').
  - intros k'. rewrite <-Hd, find_set_upper by done.
    case_decide; [subst|done]. by rewrite fmap_is_Some.
Qed.

Lemma moved_set_lower S tt tt' k v :
  moved S tt tt' → k ∈ S → moved S tt (tt_set_lower k v tt').
Proof.
  intros (Hw&Hs&Hst&Hd) Hk. split_and!; [by apply wf_set_lower|..].
  - intros k' Hk'. rewrite find_set_lower by done. case_decide; [by subst|auto].
  - intros k'. rewrite <-Hst. unfold get_state. rewrite find_set_lower by done.
    case_decide; [subst|done]. by destruct (tt_find tt' k').
  - intros k'. rewrite <-Hd, find_set_lower by done.
    case_decide; [subst|done]. by rewrite fmap_is_Some.
Qed.

Lemma push_before_spec tt lo bf :
  tt_wf tt → 0 < lo → (∀ k, k ∈ bf → is_Some (tt_find tt k)) →
  let tt' := fold_set (push_before lo) bf tt in
  moved bf tt tt' ∧ (∀ k, get_lower tt' k = get_lower tt k) ∧
  ∀ k, k ∈ bf → get_upper tt' k < lo.
Proof.
  intros Hw Hlo Hrun.
  destruct (fold_set_spec (push_before lo)
    (λ t, moved bf tt t ∧ ∀ k, get_lower t k = get_lower tt k)
    (λ k t, get_upper t k < lo) bf tt) as [[H1 H2] H3]; [..|by auto].
  - intros it t Hit (Hm&Hl). unfold push_before. destruct (Z.leb_spec lo (get_upper t it)); [|done].
    split; [by apply moved_set_upper|]. intros k. by rewrite get_lower_set_upper by apply Hm.
  - intros it t Hit (Hm&Hl). unfold push_before. destruct (Z.leb_spec lo (get_upper t it)); [|done].
    rewrite get_upper_set_upper, decide_True by first [done|by apply Hm|apply Hm, Hrun, Hit].
    rewrite (proj2 (Z.ltb_lt _ _)) by done. lia.
  - intros it it' t Hit (Hm&Hl) Hq. unfold push_before.
    destruct (Z.leb_spec lo (get_upper t it')); [|done].
    rewrite get_upper_set_upper by first [done|by apply Hm|apply Hm, Hrun, Hit].
    case_decide; [|done]. rewrite (proj2 (Z.ltb_lt _ _)) by done. lia.
  - split; [by apply moved_refl|done].
Qed.

Lemma push_after_spec tt up af :
  tt_wf tt → up ≤ UINT64_MAX → (∀ k, k ∈ af → is_Some (tt_find tt k)) →
  let tt' := fold_set (push_after up) af tt in
  moved af tt tt' ∧ (∀ k, get_upper tt' k = get_upper tt k) ∧
  ∀ k, k ∈ af → up < get_lower tt' k ∨ get_lower tt' k = UINT64_MAX.
Proof.
  intros Hw Hup Hrun.
  destruct (fold_set_spec (push_after up)
    (λ t, moved af tt t ∧ ∀ k, get_upper t k = get_upper tt k)
    (λ k t, up < get_lower t k ∨ get_lower t k = UINT64_MAX) af tt) as [[H1 H2] H3]; [..|by auto].
  - intros it t Hit (Hm&Hl). unfold push_after. destruct (Z.leb_spec (get_lower t it) up); [|done].
    split; [by apply moved_set_lower|]. intros k. by rewrite get_upper_set_lower by apply Hm.
  - intros it t Hit (Hm&Hl). unfold push_after.
    destruct (Z.leb_spec (get_lower t it) up); [|by left].
    rewrite get_lower_set_lower, decide_True by first [done|by apply Hm|apply Hm, Hrun, Hit].
    cmp.
  - intros it it' t Hit (Hm&Hl) Hq. unfold push_after.
    destruct (Z.leb_spec (get_lower t it') up); [|done].
    rewrite get_lower_set_lower by first [done|by apply Hm|apply Hm, Hrun, Hit].
    case_decide; [|done]. cmp.
  - split; [by apply moved_refl|done].
Qed.

Lemma widen_before_spec tt lo up bf :
  (∀ k, roomy (get_upper tt k)) → 0 ≤ lo < up → up ≤ UINT64_MAX → lo < UINT64_MAX - 2 →
  let lo' := fold_set (widen_before tt up) bf lo in lo ≤ lo' < up ∧ lo' < UINT64_MAX - 2.
Proof.
  intros Hr Hlo Hup Hfar.
  destruct (fold_set_spec (widen_before tt up)
    (λ l, lo ≤ l < up ∧ l < UINT64_MAX - 2) (λ _ _, True) bf lo) as [H1 _]; try done; [|lia].
  intros it l _ (Hl&Hl'). unfold widen_before. specialize (Hr it).
  rewrite (wrap64_small (up - 1)) by (unfold is_u64, u64_mod, UINT64_MAX in *; lia).
  destruct (Z.ltb_spec l (get_upper tt it)), (Z.ltb_spec (get_upper tt it) (up - 1)); simpl;
    try done. unfold roomy in Hr.
  rewrite wrap64_small by (unfold is_u64, u64_mod, UINT64_MAX in *; lia). lia.
Qed.

Lemma widen_after_spec tt lo up af :
  0 ≤ lo < up → up ≤ UINT64_MAX → lo < UINT64_MAX - 2 →
  let up' := fold_set (widen_after tt lo) af up in lo < up' ≤ up.
Proof.
  intros Hlo Hup Hfar.
  destruct (fold_set_spec (widen_after tt lo)
    (λ u, lo < u ≤ up) (λ _ _, True) af up) as [H1 _]; try done; [|lia].
  intros it u _ Hu. unfold widen_after.
  rewrite (wrap64_small (lo + 2)), (wrap64_small (lo + 1))
    by (unfold is_u64, u64_mod, UINT64_MAX in *; lia).
  assert (lo < (if negb (get_upper tt it =? UINT64_MAX) && (lo + 2 <? get_upper tt it) &&
                  (get_upper tt it <? u) then wrap64 (get_upper tt it - 2) else u) ≤ u) as Hx.
  { destruct (negb _), (Z.ltb_spec (lo + 2) (get_upper tt it)),
      (Z.ltb_spec (get_upper tt it) u); simpl; try lia.
    rewrite wrap64_small by (unfold is_u64, u64_mod, UINT64_MAX in *; lia). lia. }
  set (u1 := if negb (get_upper tt it =? UINT64_MAX) && (lo + 2 <? get_upper tt it) &&
                (get_upper tt it <? u) then wrap64 (get_upper tt it - 2) else u) in *.
  destruct (Z.ltb_spec (get_lower tt it) u1), (Z.ltb_spec (lo + 1) (get_lower tt it)); simpl; try lia.
  rewrite wrap64_small by (unfold is_u64, u64_mod, UINT64_MAX in *; lia). lia.
Qed.

(** Setting the own entry at the end. *)
Lemma find_set_own tt k lo up k' :
  tt_wf tt →
  tt_find (tt_set_upper k up (tt_set_lower k lo tt)) k' =
    if decide (k = k') then (λ e, mkTTE lo up (te_key e) (te_state e)) <$> tt_find tt k
    else tt_find tt k'.
Proof.
  intros Hw. rewrite find_set_upper by auto with deneva.
  rewrite !find_set_lower by done. case_decide; [|done].
  rewrite decide_True by done. by destruct (tt_find tt k).
Qed.

Lemma get_bounds_state tt k st k' :
  tt_wf tt → get_lower (tt_set_state k st tt) k' = get_lower tt k' ∧
             get_upper (tt_set_state k st tt) k' = get_upper tt k'.
Proof.
  intros Hw. unfold get_lower, get_upper. rewrite find_set_state by done.
  case_decide; [subst|done]. by destruct (tt_find tt k').
Qed.

Lemma get_state_set_state_ne tt k st k' :
  tt_wf tt → k ≠ k' → get_state (tt_set_state k st tt) k' = get_state tt k'.
Proof.
  intros Hw Hne. unfold get_state. rewrite find_set_state by done. by case_decide.
Qed.

Lemma get_set_own tt k lo up k' :
  tt_wf tt → is_Some (tt_find tt k) →
  let tt' := tt_set_upper k up (tt_set_lower k lo tt) in
  get_lower tt' k' = (if decide (k = k') then lo else get_lower tt k') ∧
  get_upper tt' k' = (if decide (k = k') then up else get_upper tt k') ∧
  get_state tt' k' = get_state tt k'.
Proof.
  intros Hw [e He] tt'. unfold tt', get_lower, get_upper, get_state.
  rewrite find_set_own, He by done. case_decide; [subst|done]. by rewrite He.
Qed.

(** The accepting branch, from the state in which the decision is made: the new
    range is inside the old one, and the others have moved out of it. *)
Record accepted (txn : MaatTxn) (tt tt4 : T) (lo up : Z) (before after : list Z)
    (lo' up' : Z) : Prop := {
  ac_wf : tt_wf tt4;
  ac_state : get_state tt4 (mt_id txn) = MAAT_VALIDATED;
  ac_range : lo ≤ lo' < up' ∧ up' ≤ up;
  ac_own : get_lower tt4 (mt_id txn) = lo' ∧ get_upper tt4 (mt_id txn) = up';
  ac_upper : ∀ k, mt_id txn ≠ k →
    (k ∉ before → get_upper tt4 k = get_upper tt k) ∧ (k ∈ before → get_upper tt4 k < lo');
  ac_lower : ∀ k, mt_id txn ≠ k →
    (k ∉ after → get_lower tt4 k = get_lower tt k) ∧
    (k ∈ after → up' < get_lower tt4 k ∨ get_lower tt4 k = UINT64_MAX);
  ac_frame : ∀ k, mt_id txn ≠ k → get_state tt4 k = get_state tt k ∧
    (k ∉ before → k ∉ after → tt_find tt4 k = tt_find tt k) }.

Lemma accept_spec txn tt lo up before after :
  table_ok tt → is_Some (tt_find tt (mt_id txn)) →
  (∀ k, k ∈ before ++ after → is_Some (tt_find tt k)) →
  0 < lo < up → up ≤ UINT64_MAX → lo < UINT64_MAX - 2 →
  let id := mt_id txn in
  let tt1 := tt_set_state id MAAT_VALIDATED tt in
  let lo' := fold_set (widen_before tt1 up) before lo in
  let tt2 := fold_set (push_before lo') before tt1 in
  let up' := fold_set (widen_after tt2 lo') after up in
  let tt3 := fold_set (push_after up') after tt2 in
  accepted txn tt (tt_set_upper id up' (tt_set_lower id lo' tt3)) lo up before after lo' up'.
Proof.
  intros Hok Hown Hex Hlt HupM Hfar id tt1. pose proof (to_wf _ Hok) as Hwf.
  assert (∀ k, is_Some (tt_find tt k) → is_Some (tt_find tt1 k)) as Hex1.
  { intros k Hk. unfold tt1. rewrite find_set_state by done.
    case_decide; [by rewrite fmap_is_Some; subst|done]. }
  assert (tt_wf tt1) as Hwf1 by (unfold tt1; auto with deneva).
  destruct (widen_before_spec tt1 lo up before) as [Hlo' Hfar']; [|lia|done|done|].
  { intros k. unfold tt1. destruct (get_bounds_state tt id MAAT_VALIDATED k Hwf) as [_ ->].
    by apply get_upper_roomy. }
  intros lo'. fold lo' in Hlo', Hfar'.
  destruct (push_before_spec tt1 lo' before) as (Hm2&Hl2&Hu2);
    [done|lia|intros; apply Hex1, Hex; set_solver|].
  intros tt2. fold tt2 in Hm2, Hl2, Hu2.
  pose proof (widen_after_spec tt2 lo' up after ltac:(lia) HupM Hfar') as Hup'.
  intros up'. fold up' in Hup'. cbv zeta in Hup'.
  destruct (push_after_spec tt2 up' after) as (Hm3&Hu3&Hl3);
    [apply Hm2|lia|intros; apply Hm2, Hex1, Hex; set_solver|].
  intros tt3. fold tt3 in Hm3, Hu3, Hl3.
  assert (is_Some (tt_find tt3 id)) as Hown3 by (apply Hm3, Hm2, Hex1, Hown).
  assert (tt_wf tt3) as Hwf3 by apply Hm3.
  pose proof (λ k, get_set_own tt3 id lo' up' k Hwf3 Hown3) as Hset. simpl in Hset.
  split; fold id.
  - auto with deneva.
  - destruct (Hset id) as (_&_&->). rewrite (proj1 (proj2 (proj2 Hm3))).
    rewrite (proj1 (proj2 (proj2 Hm2))). unfold tt1, get_state. rewrite find_set_state by done.
    rewrite decide_True by done. destruct Hown as [e He]. fold id in He. by rewrite He.
  - lia.
  - destruct (Hset id) as (->&->&_). by rewrite !decide_True.
  - intros k Hk. destruct (Hset k) as (_&->&_). rewrite decide_False, Hu3 by done.
    split; [|apply Hu2]. intros Hn. unfold get_upper at 1.
    rewrite (proj1 (proj2 Hm2)) by done. apply get_bounds_state, Hwf.
  - intros k Hk. destruct (Hset k) as (->&_&_). rewrite decide_False by done.
    split; [|apply Hl3]. intros Hn. unfold get_lower at 1. rewrite (proj1 (proj2 Hm3)) by done.
    transitivity (get_lower tt1 k); [apply Hl2|apply get_bounds_state, Hwf].
  - intros k Hk. destruct (Hset k) as (_&_&->). rewrite (proj1 (proj2 (proj2 Hm3))), (proj1 (proj2 (proj2 Hm2))).
    split; [by apply get_state_set_state_ne|]. intros Hb Ha. rewrite find_set_own, decide_False by done.
    rewrite (proj1 (proj2 Hm3)), (proj1 (proj2 Hm2)) by done. unfold tt1. by rewrite find_set_state, decide_False.
Qed.

Lemma accepted_ordered txn tt tt4 lo up before after lo' up' :
  txn_roomy txn → get_state tt (mt_id txn) = MAAT_RUNNING → lo < UINT64_MAX - 2 →
  0 < up → bounds_ok txn tt lo up before after →
  accepted txn tt tt4 lo up before after lo' up' → ordered txn tt tt4 lo' up'.
Proof.
  intros [Hgw _] Hst Hfar Hup [] []. destruct bo_sets0 as [Hbf Haf].
  assert (∀ k, fixed (get_state tt k) = true → mt_id txn ≠ k ∧ (k ∉ before) ∧ (k ∉ after))
    as Hfix.
  { intros k Hk. split_and!; [intros <-|intros Hin%Hbf|intros Hin%Haf];
      by rewrite ?Hst, ?Hin in Hk. }
  assert (∀ w, w ∈ after → mt_id txn ≠ w →
    up' < get_lower tt4 w ∨ get_lower tt4 w = UINT64_MAX) as Hafter.
  { intros w Hw Hne. by apply ac_lower0. }
  split; try lia.
  - intros w Hw Hf. destruct (Hfix w Hf) as (H1&H2&H3).
    rewrite (proj1 (ac_lower0 w H1)) by done. destruct (bo_uw0 w Hw Hf); lia.
  - intros w Hw Hr Hne. destruct (decide (w ∈ after)) as [|Hn]; [by apply Hafter; auto|].
    rewrite (proj1 (ac_lower0 w ltac:(done))) by done.
    destruct (bo_uw_run0 w Hw Hr); [left; lia|done].
  - intros r Hw Hf. destruct (Hfix r Hf) as (H1&H2&H3).
    rewrite (proj1 (ac_upper0 r H1)) by done. destruct (bo_ur0 r Hw Hf); lia.
  - intros r Hw Hr Hne. destruct (decide (r ∈ before)) as [|Hn]; [by apply ac_upper0; auto|].
    rewrite (proj1 (ac_upper0 r ltac:(done))) by done.
    destruct (bo_ur_run0 r Hw Hr); [lia|done].
  - intros r Hw Hf. destruct (Hfix r Hf) as (H1&H2&H3).
    rewrite (proj1 (ac_upper0 r H1)) by done. destruct (bo_uwy0 r Hw Hf); lia.
  - intros w Hw Hr Hne. apply Hafter; auto.
Qed.

(** ** Properties *)

Lemma accepted_framed txn tt tt4 lo up before after lo' up' :
  (∀ k, k ∈ before → k ∈ uncommitted_reads txn) → (∀ k, k ∈ after → k ∈ uncommitted_writes txn ++ uncommitted_writes_y txn) →
  bounds_ok txn tt lo up before after → accepted txn tt tt4 lo up before after lo' up' → framed txn tt tt4.
Proof.
  intros Hb Ha [] []. destruct bo_sets0 as [Hbf Haf]. split.
  - intros k Hk. by apply ac_frame0.
  - intros k Hk Hcase. apply ac_frame0; [done|..]; intros Hin; destruct Hcase as [Hr|Hn]; [by apply Hr, Hbf|set_solver|by apply Hr, Haf|set_solver].
  - intros k Hk Hn. apply ac_upper0; [done|]. auto.
  - intros k Hk Hn. apply ac_lower0; [done|]. auto.
Qed.

(** C21: what validation decides.  For a running transaction in the table,
    [validate] returns without failing its assertion.  It accepts exactly when the
    bounds of the table, the timestamps the transaction has seen and the validated
    and committed transactions of its three sets leave a range to it.  If it
    accepts, the transaction is validated with a non-empty range inside its old
    one, above the last committed read and write it has seen, and ordered as it
    must be with respect to every validated, committed or running transaction in
    its three sets; of the others nothing changes but the lower bounds of running
    writers and the upper bounds of running readers.  If it rejects, the
    transaction is marked aborted and no other entry of the table has changed. *)
Theorem maat_validate_spec txn tt :
  table_ok tt → txn_roomy txn → get_state tt (mt_id txn) = MAAT_RUNNING →
  ∃ rc tt', validate txn tt = Some (rc, tt') ∧ tt_wf tt' ∧
    (rc = RCOK ↔ ∃ lo up, feasible txn tt lo up) ∧
    ((rc = RCOK ∧ get_state tt' (mt_id txn) = MAAT_VALIDATED ∧
      ordered txn tt tt' (get_lower tt' (mt_id txn)) (get_upper tt' (mt_id txn)) ∧ framed txn tt tt') ∨
     (rc = Abort ∧ get_state tt' (mt_id txn) = MAAT_ABORTED ∧
      ∀ k, k ≠ mt_id txn → tt_find tt' k = tt_find tt k)).
Proof.
  intros Hok Hro Hst. pose proof (get_state_running _ _ Hst) as Hown.
  pose proof (to_wf _ Hok) as Hwf. pose proof (bounds_spec txn tt Hok Hro) as Hb.
  pose proof (λ lo0 up0, bounds_tight txn tt lo0 up0 Hok Hro) as Htight. pose proof (bounds_sets txn tt) as Hsets.
  unfold validate. destruct (bounds tt txn) as [[[lo up] before] after].
  destruct (Z.leb_spec up lo) as [Hle|Hlt].
  - eexists _, _. split; [reflexivity|]. split; [auto 6 with deneva|].
    split; [split; [done|]; intros (lo0&up0&Hf); destruct (Htight lo0 up0 Hf); pose proof (fe_range _ _ _ _ Hf); lia|]. right. split; [done|].
    split; [|intros k Hk; rewrite find_set_own, decide_False, find_set_state, decide_False by auto with deneva; done].
    unfold get_state. rewrite find_set_own, decide_True, find_set_state, decide_True by auto with deneva.
    by destruct Hown as [e ->].
  - assert (0 < lo < up ∧ lo < UINT64_MAX - 2 ∧ up ≤ UINT64_MAX) as (H1&H2&H3).
    { pose proof (get_upper_roomy tt (mt_id txn) Hok). destruct Hb, Hro. unfold roomy in *. lia. }
    assert (∀ k, k ∈ before ++ after → is_Some (tt_find tt k)) as Hex.
    { destruct (bo_sets _ _ _ _ _ _ Hb). intros k [Hk|Hk]%elem_of_app; by apply get_state_running; auto. }
    pose proof (accept_spec txn tt lo up before after Hok Hown Hex H1 H3 H2) as Hacc.
    cbv zeta in Hacc. pose proof (ac_range _ _ _ _ _ _ _ _ _ Hacc) as [Hrange _].
    rewrite assert_bind_true by (apply Z.ltb_lt; lia).
    eexists _, _. split; [reflexivity|]. split; [apply Hacc|].
    split; [split; [|done]; intros _; exists lo, up; destruct Hb; split; try lia; intros k Hk Hf;
      [destruct (bo_uw0 k Hk Hf)|destruct (bo_ur0 k Hk Hf)|destruct (bo_uwy0 k Hk Hf)]; lia|]. left. split; [done|].
    split; [apply Hacc|]. split; [|destruct Hsets; by eapply accepted_framed]. destruct (ac_own _ _ _ _ _ _ _ _ _ Hacc) as [-> ->].
    eapply accepted_ordered; [done|done|done| |done|done]. lia.
Qed.

(** The commit timestamp.  [find_bound] commits a transaction exactly when
    its range is not empty, at the lower end of the range. *)
Theorem maat_find_bound_spec txn tt :
  tt_wf tt → is_Some (tt_find tt (mt_id txn)) →
  let '(rc, txn', tt') := find_bound txn tt in
  if decide (get_lower tt (mt_id txn) < get_upper tt (mt_id txn)) then
    rc = RCOK ∧ commit_timestamp txn' = get_lower tt (mt_id txn) ∧
    get_state tt' (mt_id txn) = MAAT_COMMITTED
  else rc = Abort ∧ txn' = txn ∧ get_state tt' (mt_id txn) = MAAT_VALIDATED.
Proof.
  intros Hwf [e He]. unfold find_bound.
  destruct (Z.leb_spec (get_upper tt (mt_id txn)) (get_lower tt (mt_id txn)));
    case_decide; try lia; (split; [done|]; split; [done|]); unfold get_state;
    rewrite find_set_state, decide_True, He by done; done.
Qed.

End proofs.

(** *** A concrete table: transaction 1 validates, 2 is a validated writer and 3 a
    running writer of a row it has read. *)
Definition ex_tt : TimeTable.TimeTable :=
  tt_set_state 2 MAAT_VALIDATED (tt_set_lower 2 50
    (tt_init 3 (tt_init 2 (tt_init 1 (TimeTable.init 4))))).
Definition ex_txn : MaatTxn := mkMaatTxn 1 10 0 [2; 3] [] [] 0.

Lemma ex_tt_wf : tt_wf ex_tt.
Proof.
  unfold ex_tt. apply wf_set_state, wf_set_lower. do 3 apply wf_init.
  by apply TimeTable.init_wf.
Qed.

Lemma ex_tt_ok : table_ok ex_tt.
Proof.
  split; [apply ex_tt_wf|].
  intros k e He. assert (e ∈ concat (TimeTable.table ex_tt)) as Hin.
  { apply list_elem_of_In, in_concat. unfold tt_find in He. simpl in He.
    unfold TimeTable.find, HashTable.ht_find in He.
    apply HashTable.scan_Some in He as [He _]. eexists. split; [|by apply list_elem_of_In].
    apply list_elem_of_In. pose proof (HashTable.ht_bucket _ _ _ k ex_tt_wf) as Hb.
    by eapply list_elem_of_lookup_2. }
  vm_compute in Hin. unfold roomy, UINT64_MAX.
  repeat (apply elem_of_cons in Hin as [->|Hin]; [simpl; lia|]). by apply elem_of_nil in Hin.
Qed.

Lemma maat_validate_spec_witness :
  ∃ rc tt', validate ex_txn ex_tt = Some (rc, tt') ∧
    (rc = RCOK ↔ ∃ lo up, feasible ex_txn ex_tt lo up) ∧
    ((rc = RCOK ∧ get_state tt' 1 = MAAT_VALIDATED ∧
      ordered ex_txn ex_tt tt' (get_lower tt' 1) (get_upper tt' 1) ∧ framed ex_txn ex_tt tt') ∨
     (rc = Abort ∧ get_state tt' 1 = MAAT_ABORTED ∧
      ∀ k, k ≠ 1 → tt_find tt' k = tt_find ex_tt k)).
Proof.
  destruct (maat_validate_spec ex_txn ex_tt) as (rc&tt'&H1&_&H2&H3).
  - exact ex_tt_ok.
  - split; unfold UINT64_MAX; simpl; lia.
  - reflexivity.
  - exists rc, tt'. split; [exact H1|]. split; [exact H2|exact H3].
Defined.

Lemma maat_find_bound_spec_witness :
  let '(rc, txn', tt') := find_bound ex_txn ex_tt in
  if decide (get_lower ex_tt 1 < get_upper ex_tt 1) then
    rc = RCOK ∧ commit_timestamp txn' = get_lower ex_tt 1 ∧ get_state tt' 1 = MAAT_COMMITTED
  else rc = Abort ∧ txn' = ex_txn ∧ get_state tt' 1 = MAAT_VALIDATED.
Proof.
  exact (maat_find_bound_spec ex_txn ex_tt ex_tt_wf (ex_intro _ _ eq_refl)).
Defined.

End Maat.
