(* ===== verification/RowMaat.v ===== *)
(** * Row_maat: the soft locks of MaaT on one row

    Model of [class Row_maat] (concurrency_control/row_maat.h, row_maat.cpp): the
    two sets of uncommitted readers and writers, the last committed read and write
    timestamps, and the forward validation at commit, which moves the ranges in
    the time table.  [maat_avail] is a spin lock: each call is one atomic step. *)

From S2P Require Import Prelude Maat.

Module RowMaat.
Import Maat.

Section row.
Context `{TimeTableOps T} {V : Type} (wl : WORKLOAD).

Record Row_maat := mkRM {
  rm_data : V;
  rm_reads : list Z;
  rm_writes : list Z;
  timestamp_last_read : Z;
  timestamp_last_write : Z }.

Definition init (data : V) : Row_maat := mkRM data [] [] 0 0.

Definition union (from to : list Z) : list Z := fold_set sset_insert from to.

(** [read]: copy the uncommitted writes and the write timestamp, then join the
    uncommitted reads. *)
Definition read (r : Row_maat) (txn : MaatTxn) : Row_maat * MaatTxn :=
  (mkRM (rm_data r) (sset_insert (mt_id txn) (rm_reads r)) (rm_writes r)
     (timestamp_last_read r) (timestamp_last_write r),
   mkMaatTxn (mt_id txn)
     (if greatest_write_timestamp txn <? timestamp_last_write r
      then timestamp_last_write r else greatest_write_timestamp txn)
     (greatest_read_timestamp txn)
     (union (rm_writes r) (uncommitted_writes txn)) (uncommitted_writes_y txn)
     (uncommitted_reads txn) (commit_timestamp txn)).

(** [prewrite]: copy the uncommitted reads and writes and both timestamps, then
    join the uncommitted writes. *)
Definition prewrite (r : Row_maat) (txn : MaatTxn) : Row_maat * MaatTxn :=
  (mkRM (rm_data r) (rm_reads r) (sset_insert (mt_id txn) (rm_writes r))
     (timestamp_last_read r) (timestamp_last_write r),
   mkMaatTxn (mt_id txn)
     (if greatest_write_timestamp txn <? timestamp_last_write r
      then timestamp_last_write r else greatest_write_timestamp txn)
     (if greatest_read_timestamp txn <? timestamp_last_read r
      then timestamp_last_read r else greatest_read_timestamp txn)
     (uncommitted_writes txn) (union (rm_writes r) (uncommitted_writes_y txn))
     (union (rm_reads r) (uncommitted_reads txn)) (commit_timestamp txn)).

Definition read_and_prewrite (r : Row_maat) (txn : MaatTxn) : Row_maat * MaatTxn :=
  (mkRM (rm_data r) (sset_insert (mt_id txn) (rm_reads r)) (sset_insert (mt_id txn) (rm_writes r))
     (timestamp_last_read r) (timestamp_last_write r),
   mkMaatTxn (mt_id txn)
     (if greatest_write_timestamp txn <? timestamp_last_write r
      then timestamp_last_write r else greatest_write_timestamp txn)
     (if greatest_read_timestamp txn <? timestamp_last_read r
      then timestamp_last_read r else greatest_read_timestamp txn)
     (union (rm_writes r) (uncommitted_writes txn)) (union (rm_writes r) (uncommitted_writes_y txn))
     (union (rm_reads r) (uncommitted_reads txn)) (commit_timestamp txn)).

Definition access (type : access_t) (r : Row_maat) (txn : MaatTxn) : Row_maat * MaatTxn :=
  match wl with
  | TPCC => read_and_prewrite r txn
  | _ => match type with
         | RD => read r txn
         | WR => prewrite r txn
         | _ => (r, txn)
         end
  end.

Definition leave_reads (id : Z) (r : Row_maat) : Row_maat :=
  mkRM (rm_data r) (sset_erase id (rm_reads r)) (rm_writes r)
    (timestamp_last_read r) (timestamp_last_write r).
Definition leave_writes (id : Z) (r : Row_maat) : Row_maat :=
  mkRM (rm_data r) (rm_reads r) (sset_erase id (rm_writes r))
    (timestamp_last_read r) (timestamp_last_write r).

Definition abort (type : access_t) (r : Row_maat) (txn : MaatTxn) : Row_maat :=
  match wl with
  | TPCC => leave_writes (mt_id txn) (leave_reads (mt_id txn) r)
  | _ => match type with
         | RD => leave_reads (mt_id txn) r
         | WR => leave_writes (mt_id txn) r
         | _ => r
         end
  end.

Definition note_read (ts : Z) (r : Row_maat) : Row_maat :=
  mkRM (rm_data r) (rm_reads r) (rm_writes r)
    (if timestamp_last_read r <? ts then ts else timestamp_last_read r) (timestamp_last_write r).
Definition note_write (ts : Z) (r : Row_maat) : Row_maat :=
  mkRM (rm_data r) (rm_reads r) (rm_writes r) (timestamp_last_read r)
    (if timestamp_last_write r <? ts then ts else timestamp_last_write r).

(** [write]: [_row->copy(data)] *)
Definition write (data : V) (r : Row_maat) : Row_maat :=
  mkRM data (rm_reads r) (rm_writes r) (timestamp_last_read r) (timestamp_last_write r).

(** The forward validation loops. *)
Definition writer_after (seen : list Z) (ts : Z) (it : Z) (tt : T) : T :=
  if sset_count it seen then tt
  else if get_lower tt it <=? ts then tt_set_lower it (wrap64 (ts + 1)) tt else tt.

Definition before_ts (seen : list Z) (ts : Z) (it : Z) (tt : T) : T :=
  if sset_count it seen then tt
  else if ts <=? get_upper tt it then tt_set_upper it (wrap64 (ts - 1)) tt else tt.

Definition commit_read (r : Row_maat) (txn : MaatTxn) (tt : T) : Row_maat * T :=
  let ts := commit_timestamp txn in
  let r := leave_reads (mt_id txn) (note_read ts r) in
  (r, fold_set (writer_after (uncommitted_writes txn) ts) (rm_writes r) tt).

Definition commit_write (data : V) (r : Row_maat) (txn : MaatTxn) (tt : T) : Row_maat * T :=
  let ts := commit_timestamp txn in
  let r := write data (leave_writes (mt_id txn) (note_write ts r)) in
  let lower := get_lower tt (mt_id txn) in
  let tt := fold_set (before_ts (uncommitted_writes_y txn) ts) (rm_writes r) tt in
  let tt := fold_set (before_ts (uncommitted_reads txn) lower) (rm_reads r) tt in
  (r, tt).

Definition commit_tpcc (data : V) (r : Row_maat) (txn : MaatTxn) (tt : T) : Row_maat * T :=
  let ts := commit_timestamp txn in
  let r := leave_reads (mt_id txn) (note_read ts r) in
  let r := write data (leave_writes (mt_id txn) (note_write ts r)) in
  let tt := fold_set (writer_after (uncommitted_writes txn) ts) (rm_writes r) tt in
  let lower := get_lower tt (mt_id txn) in
  let tt := fold_set (before_ts (uncommitted_writes_y txn) ts) (rm_writes r) tt in
  let tt := fold_set (before_ts (uncommitted_reads txn) lower) (rm_reads r) tt in
  (r, tt).

Definition commit (type : access_t) (data : V) (r : Row_maat) (txn : MaatTxn) (tt : T)
    : Row_maat * T :=
  match wl with
  | TPCC => commit_tpcc data r txn tt
  | _ => match type with
         | RD => commit_read r txn tt
         | WR => commit_write data r txn tt
         | _ => (r, tt)
         end
  end.

(** ** The soft locks as a protocol *)

(** One row and the transactions, by id.  The accesses are counted, and [rs_rin] and
    [rs_win] say with which access a transaction came into the two sets. *)
Record rstate := mkRS {
  rs_row : Row_maat;
  rs_txn : Z → MaatTxn;
  rs_clock : nat;
  rs_rin : Z → nat;
  rs_win : Z → nat }.

(** The access of a transaction that is in the set already does not count. *)
Definition arrive (old : list Z) (t : Z) (clock : nat) (f : Z → nat) : Z → nat :=
  if decide (t ∈ old) then f else <[t := clock]> f.

Definition with_row (r : Row_maat) (s : rstate) : rstate := mkRS r (rs_txn s) (rs_clock s) (rs_rin s) (rs_win s).
Definition with_txn (t : Z) (txn : MaatTxn) (s : rstate) : rstate :=
  mkRS (rs_row s) (<[t := txn]> (rs_txn s)) (rs_clock s) (rs_rin s) (rs_win s).

(** What a transaction may learn on other rows. *)
Definition learns (a b : MaatTxn) : Prop :=
  mt_id b = mt_id a ∧
  (∀ x, x ∈ uncommitted_writes a → x ∈ uncommitted_writes b) ∧
  (∀ x, x ∈ uncommitted_writes_y a → x ∈ uncommitted_writes_y b) ∧
  (∀ x, x ∈ uncommitted_reads a → x ∈ uncommitted_reads b).

Inductive step (s : rstate) : rstate → Prop :=
  | step_access t type r' txn' :
      access type (rs_row s) (rs_txn s t) = (r', txn') →
      step s (mkRS r' (<[t := txn']> (rs_txn s)) (S (rs_clock s))
        (arrive (rm_reads (rs_row s)) t (rs_clock s) (rs_rin s)) (arrive (rm_writes (rs_row s)) t (rs_clock s) (rs_win s)))
  | step_abort t type :
      step s (with_row (abort type (rs_row s) (rs_txn s t)) s)
  | step_commit t type data (tt : T) :
      step s (with_row (commit type data (rs_row s) (rs_txn s t) tt).1 s)
  | step_other t txn' :
      learns (rs_txn s t) txn' → step s (with_txn t txn' s)
  | step_reset t txn' :
      (t ∉ rm_reads (rs_row s)) → (t ∉ rm_writes (rs_row s)) → mt_id txn' = t →
      step s (with_txn t txn' s).

(** A reader and a writer, or two writers, did not come with the same access, and the
    one that came later has recorded the other in the set that its validation looks at. *)
Definition covered (s : rstate) : Prop :=
  (∀ r w, r ∈ rm_reads (rs_row s) → w ∈ rm_writes (rs_row s) → r ≠ w →
    (rs_win s w < rs_rin s r)%nat ∧ w ∈ uncommitted_writes (rs_txn s r) ∨
    (rs_rin s r < rs_win s w)%nat ∧ r ∈ uncommitted_reads (rs_txn s w)) ∧
  (∀ w w', w ∈ rm_writes (rs_row s) → w' ∈ rm_writes (rs_row s) → w ≠ w' →
    (rs_win s w < rs_win s w')%nat ∧ w ∈ uncommitted_writes_y (rs_txn s w') ∨
    (rs_win s w' < rs_win s w)%nat ∧ w' ∈ uncommitted_writes_y (rs_txn s w)).

Record inv (s : rstate) : Prop := {
  iv_id : ∀ t, mt_id (rs_txn s t) = t;
  iv_reads : ∀ t, t ∈ rm_reads (rs_row s) → (rs_rin s t < rs_clock s)%nat;
  iv_writes : ∀ t, t ∈ rm_writes (rs_row s) → (rs_win s t < rs_clock s)%nat;
  iv_covered : covered s }.

Definition start (data : V) (h : Z → MaatTxn) : rstate := mkRS (init data) h 0 (λ _, 0%nat) (λ _, 0%nat).

Lemma learns_refl a : learns a a.
Proof. by split_and!. Qed.

Lemma elem_of_union from to x : x ∈ union from to ↔ x ∈ from ∨ x ∈ to.
Proof.
  unfold union, fold_set. revert to. induction from as [|y from IH]; intros to; simpl.
  - rewrite elem_of_nil. naive_solver.
  - rewrite IH, elem_of_sset_insert, elem_of_cons. naive_solver.
Qed.

(** Leaving the sets and learning more keep the coverage. *)
Lemma inv_frame s s' :
  inv s → rs_clock s' = rs_clock s → rs_rin s' = rs_rin s → rs_win s' = rs_win s →
  (∀ x, x ∈ rm_reads (rs_row s') → x ∈ rm_reads (rs_row s)) →
  (∀ x, x ∈ rm_writes (rs_row s') → x ∈ rm_writes (rs_row s)) →
  (∀ t, t ∈ rm_reads (rs_row s') ∨ t ∈ rm_writes (rs_row s') →
     learns (rs_txn s t) (rs_txn s' t)) →
  (∀ t, mt_id (rs_txn s' t) = t) → inv s'.
Proof.
  intros [H1 Hc1 Hc2 [H2 H3]] E1 E2 E3 Hr Hw Hl Hid. split; [done|rewrite E1, E2; auto|rewrite E1, E3; auto|split]; rewrite ?E2, ?E3.
  - intros r w Hr' Hw' Hne. destruct (Hl r) as (_&?&_&_); [auto|].
    destruct (Hl w) as (_&_&_&?); [auto|]. destruct (H2 r w) as [[]|[]]; auto.
  - intros w w' Hw1 Hw2 Hne. destruct (Hl w) as (_&_&?&_); [auto|].
    destruct (Hl w') as (_&_&?&_); [auto|]. destruct (H3 w w') as [[]|[]]; auto.
Qed.

Lemma arrive_old old t k c f : k ∈ old → arrive old t c f k = f k.
Proof. intros Hk. unfold arrive. case_decide; [done|]. rewrite fn_lookup_insert_ne; [done|]. by intros ->. Qed.
Lemma arrive_new old t c f : t ∉ old → arrive old t c f t = c.
Proof. intros Ht. unfold arrive. rewrite decide_False by done. apply fn_lookup_insert. Qed.

Lemma access_learns type r txn r' txn' :
  access type r txn = (r', txn') → learns txn txn'.
Proof.
  unfold access, read, prewrite, read_and_prewrite. intros E.
  assert (∀ f l x, x ∈ l → x ∈ union f l) as Hu by (intros; apply elem_of_union; auto).
  repeat case_match; simplify_eq; split_and!; simpl; auto.
Qed.

(** The sets after an access, and what the newcomer has seen. *)
Lemma access_sets type r txn r' txn' :
  access type r txn = (r', txn') →
  (∀ x, x ∈ rm_reads r' → x ∈ rm_reads r ∨
     ((x ∉ rm_reads r) ∧ x = mt_id txn ∧ ∀ w, w ∈ rm_writes r → w ∈ uncommitted_writes txn')) ∧
  (∀ x, x ∈ rm_writes r' → x ∈ rm_writes r ∨
     ((x ∉ rm_writes r) ∧ x = mt_id txn ∧ (∀ y, y ∈ rm_reads r → y ∈ uncommitted_reads txn') ∧
      (∀ w, w ∈ rm_writes r → w ∈ uncommitted_writes_y txn'))).
Proof.
  unfold access, read, prewrite, read_and_prewrite. intros E.
  assert (∀ f l x, x ∈ f → x ∈ union f l) as Hu by (intros; apply elem_of_union; auto).
  split; intros x Hx; [destruct (decide (x ∈ rm_reads r)) as [|Hn]|destruct (decide (x ∈ rm_writes r)) as [|Hn]];
    (by left) || right; (split; [done|]); repeat case_match; simplify_eq; simpl in *; rewrite ?elem_of_sset_insert in Hx;
    (by destruct Hn) || (destruct Hx as [->|]; [|by destruct Hn]); auto.
Qed.

Lemma rowmaat_access_inv s t type r' txn' :
  inv s → access type (rs_row s) (rs_txn s t) = (r', txn') →
  inv (mkRS r' (<[t := txn']> (rs_txn s)) (S (rs_clock s))
    (arrive (rm_reads (rs_row s)) t (rs_clock s) (rs_rin s)) (arrive (rm_writes (rs_row s)) t (rs_clock s) (rs_win s))).
Proof.
  intros [H1 Hc1 Hc2 [H2 H3]] E. pose proof (access_learns _ _ _ _ _ E) as (L1&L2&L3&L4).
  destruct (access_sets _ _ _ _ _ E) as [Hr Hw]. rewrite H1 in Hr, Hw, L1.
  assert (∀ k, mt_id (<[t := txn']> (rs_txn s) k) = k) as Hid.
  { intros k. destruct (decide (t = k)) as [<-|];
      [by rewrite fn_lookup_insert|by rewrite fn_lookup_insert_ne]. }
  assert (∀ k, learns (rs_txn s k) (<[t := txn']> (rs_txn s) k)) as Hl.
  { intros k. destruct (decide (t = k)) as [<-|].
    - rewrite fn_lookup_insert. split_and!; auto. by rewrite H1.
    - rewrite fn_lookup_insert_ne by done. apply learns_refl. }
  split; [done|..]; cbn [rs_row rs_txn rs_clock rs_rin rs_win].
  - intros k Hk. destruct (Hr k Hk) as [Hk0|(Hn&->&_)]; [rewrite arrive_old by done; specialize (Hc1 k Hk0); lia|rewrite arrive_new by done; lia].
  - intros k Hk. destruct (Hw k Hk) as [Hk0|(Hn&->&_)]; [rewrite arrive_old by done; specialize (Hc2 k Hk0); lia|rewrite arrive_new by done; lia].
  - split; cbn [rs_row rs_txn rs_clock rs_rin rs_win].
    + intros r w Hr' Hw' Hne. destruct (Hl r) as (_&Lr&_&_), (Hl w) as (_&_&_&Lw).
      destruct (Hr r Hr') as [Hr0|(Hn&->&Hseen)], (Hw w Hw') as [Hw0|(Hn'&->&Hs1&Hs2)]; try done.
      * rewrite !arrive_old by done. destruct (H2 r w Hr0 Hw0 Hne) as [[]|[]]; auto.
      * right. rewrite (arrive_old _ _ r), arrive_new, fn_lookup_insert by done. auto.
      * left. rewrite (arrive_old _ _ w), arrive_new, fn_lookup_insert by done. auto.
    + intros w w' Hw1 Hw2 Hne. destruct (Hl w) as (_&_&La&_), (Hl w') as (_&_&Lb&_).
      destruct (Hw w Hw1) as [Hw0|(Hn&->&_&Hs)], (Hw w' Hw2) as [Hw0'|(Hn'&->&_&Hs')]; try done.
      * rewrite !arrive_old by done. destruct (H3 w w' Hw0 Hw0' Hne) as [[]|[]]; auto.
      * left. rewrite (arrive_old _ _ w), arrive_new, fn_lookup_insert by done. auto.
      * right. rewrite (arrive_old _ _ w'), arrive_new, fn_lookup_insert by done. auto.
Qed.

Lemma commit_sets type data r txn tt :
  (∀ x, x ∈ rm_reads (commit type data r txn tt).1 → x ∈ rm_reads r) ∧
  (∀ x, x ∈ rm_writes (commit type data r txn tt).1 → x ∈ rm_writes r).
Proof.
  unfold commit, commit_tpcc, commit_read, commit_write.
  repeat case_match; simpl; split; intros x; rewrite ?elem_of_sset_erase; naive_solver.
Qed.

Lemma rowmaat_step_inv s s' : inv s → step s s' → inv s'.
Proof.
  intros Hc Hstep. pose proof (iv_id _ Hc) as H1.
  destruct Hstep as [t type r' txn' E|t type|t type data tt|t txn' Hl|t txn' Hr Hw Hid].
  - by eapply rowmaat_access_inv.
  - eapply inv_frame; [exact Hc|done..| | | |]; simpl; auto.
    + intros x. unfold abort. repeat case_match; simpl; rewrite ?elem_of_sset_erase; naive_solver.
    + intros x. unfold abort. repeat case_match; simpl; rewrite ?elem_of_sset_erase; naive_solver.
    + intros. apply learns_refl.
  - destruct (commit_sets type data (rs_row s) (rs_txn s t) tt).
    eapply inv_frame; [exact Hc|done..| | | |]; simpl; auto. intros. apply learns_refl.
  - eapply inv_frame; [exact Hc|done..| | | |]; simpl; auto.
    + intros k _. destruct (decide (t = k)) as [<-|].
      * by rewrite fn_lookup_insert.
      * rewrite fn_lookup_insert_ne by done. apply learns_refl.
    + intros k. destruct (decide (t = k)) as [<-|]; [|by rewrite fn_lookup_insert_ne].
      rewrite fn_lookup_insert. destruct Hl as [-> _]. apply H1.
  - eapply inv_frame; [exact Hc|done..| | | |]; simpl; auto.
    + intros k Hk. rewrite fn_lookup_insert_ne by (intros <-; tauto). apply learns_refl.
    + intros k. destruct (decide (t = k)) as [<-|]; [|by rewrite fn_lookup_insert_ne].
      by rewrite fn_lookup_insert.
Qed.

End row.

(** ** Forward validation *)

Section forward.
Context `{TimeTableLaws T} {V : Type}.

Lemma before_ts_spec seen ts l tt :
  tt_wf tt → 0 < ts ≤ UINT64_MAX →
  let tt' := fold_set (before_ts seen ts) l tt in
  moved l tt tt' ∧ (∀ k, get_upper tt' k ≤ get_upper tt k ∧ get_lower tt' k = get_lower tt k) ∧
  ∀ k, k ∈ l → k ∉ seen → is_Some (tt_find tt k) → get_upper tt' k < ts.
Proof.
  intros Hwf Hts.
  assert (wrap64 (ts - 1) = ts - 1) as Hwr.
  { apply wrap64_small. unfold is_u64, UINT64_MAX, u64_mod in *. lia. }
  destruct (fold_set_spec (before_ts seen ts)
    (λ t, moved l tt t ∧ ∀ k, get_upper t k ≤ get_upper tt k ∧ get_lower t k = get_lower tt k)
    (λ k t, (k ∉ seen) → is_Some (tt_find tt k) → get_upper t k < ts) l tt)
    as [[H1 H2] H3]; [..|by auto].
  - intros it t Hit (Hm&Hle). unfold before_ts, sset_count. case_bool_decide; [done|].
    destruct (Z.leb_spec ts (get_upper t it)); [|done].
    split; [by apply moved_set_upper|]. intros k. destruct (Hle k) as [Hk Hk'].
    rewrite get_lower_set_upper by apply Hm. split; [|done].
    destruct (tt_find t it) as [e|] eqn:E.
    + rewrite get_upper_set_upper by first [by apply Hm|by eauto]. case_decide; [subst|lia].
      rewrite Hwr. lia.
    + unfold get_upper at 1. rewrite find_set_upper by apply Hm.
      case_decide; [subst|done]. rewrite E. simpl. unfold get_upper in Hk. by rewrite E in Hk.
  - intros it t Hit (Hm&Hle) Hns Hex. unfold before_ts, sset_count.
    rewrite bool_decide_false by done. destruct (Z.leb_spec ts (get_upper t it)); [|done].
    rewrite get_upper_set_upper by first [by apply Hm|by apply Hm].
    rewrite decide_True by done. lia.
  - intros it it' t Hit (Hm&Hle) Hq Hns Hex. unfold before_ts, sset_count.
    case_bool_decide; [auto|]. destruct (Z.leb_spec ts (get_upper t it')); [|auto].
    destruct (tt_find t it') as [e|] eqn:E.
    + rewrite get_upper_set_upper by first [by apply Hm|by eauto]. case_decide; [lia|auto].
    + unfold get_upper. rewrite find_set_upper by apply Hm. case_decide; [subst|by apply Hq].
      apply (proj2 (proj2 (proj2 Hm))) in Hex. by rewrite E in Hex; destruct Hex.
  - split; [by apply moved_refl|]. intros k. split; [lia|done].
Qed.

Lemma writer_after_spec seen ts l tt :
  tt_wf tt → 0 ≤ ts < UINT64_MAX →
  let tt' := fold_set (writer_after seen ts) l tt in
  moved l tt tt' ∧ (∀ k, get_lower tt k ≤ get_lower tt' k ∧ get_upper tt' k = get_upper tt k) ∧
  ∀ k, k ∈ l → k ∉ seen → is_Some (tt_find tt k) → ts < get_lower tt' k.
Proof.
  intros Hwf Hts.
  assert (wrap64 (ts + 1) = ts + 1) as Hwr.
  { apply wrap64_small. unfold is_u64, UINT64_MAX, u64_mod in *. lia. }
  destruct (fold_set_spec (writer_after seen ts)
    (λ t, moved l tt t ∧ ∀ k, get_lower tt k ≤ get_lower t k ∧ get_upper t k = get_upper tt k)
    (λ k t, (k ∉ seen) → is_Some (tt_find tt k) → ts < get_lower t k) l tt)
    as [[H1 H2] H3]; [..|by auto].
  - intros it t Hit (Hm&Hle). unfold writer_after, sset_count. case_bool_decide; [done|].
    destruct (Z.leb_spec (get_lower t it) ts); [|done].
    split; [by apply moved_set_lower|]. intros k. destruct (Hle k) as [Hk Hk'].
    rewrite get_upper_set_lower by apply Hm. split; [|done].
    destruct (tt_find t it) as [e|] eqn:E.
    + rewrite get_lower_set_lower by first [by apply Hm|by eauto]. case_decide; [subst|lia].
      rewrite Hwr. lia.
    + unfold get_lower at 2. rewrite find_set_lower by apply Hm.
      case_decide; [subst|done]. rewrite E. simpl. unfold get_lower at 2 in Hk. by rewrite E in Hk.
  - intros it t Hit (Hm&Hle) Hns Hex. unfold writer_after, sset_count.
    rewrite bool_decide_false by done. destruct (Z.leb_spec (get_lower t it) ts); [|done].
    rewrite get_lower_set_lower by first [by apply Hm|by apply Hm].
    rewrite decide_True by done. lia.
  - intros it it' t Hit (Hm&Hle) Hq Hns Hex. unfold writer_after, sset_count.
    case_bool_decide; [auto|]. destruct (Z.leb_spec (get_lower t it') ts); [|auto].
    destruct (tt_find t it') as [e|] eqn:E.
    + rewrite get_lower_set_lower by first [by apply Hm|by eauto]. case_decide; [lia|auto].
    + unfold get_lower. rewrite find_set_lower by apply Hm. case_decide; [subst|by apply Hq].
      apply (proj2 (proj2 (proj2 Hm))) in Hex. by rewrite E in Hex; destruct Hex.
  - split; [by apply moved_refl|]. intros k. split; [lia|done].
Qed.

(** The other transactions with a soft lock on the row that did not see the
    committing one, after the commit at [ts]. *)
Definition unseen_writers_after (r' : Row_maat (V:=V)) (txn : MaatTxn) (tt tt' : T) : Prop :=
  ∀ w, w ∈ rm_writes r' → w ∉ uncommitted_writes txn → is_Some (tt_find tt w) →
    commit_timestamp txn < get_lower tt' w.
Definition unseen_writers_before (r' : Row_maat (V:=V)) (txn : MaatTxn) (tt tt' : T) : Prop :=
  ∀ w, w ∈ rm_writes r' → w ∉ uncommitted_writes_y txn → is_Some (tt_find tt w) →
    get_upper tt' w < commit_timestamp txn.
Definition unseen_readers_before (r' : Row_maat (V:=V)) (txn : MaatTxn) (tt tt' : T) : Prop :=
  ∀ k, k ∈ rm_reads r' → k ∉ uncommitted_reads txn → is_Some (tt_find tt k) →
    get_upper tt' k < commit_timestamp txn.

(** The two loops of a committing writer, one after the other. *)
Lemma commit_write_loops r txn tt :
  tt_wf tt → 0 < commit_timestamp txn ≤ UINT64_MAX →
  let ts := commit_timestamp txn in
  let tt1 := fold_set (before_ts (uncommitted_writes_y txn) ts) (rm_writes r) tt in
  let tt2 := fold_set (before_ts (uncommitted_reads txn) ts) (rm_reads r) tt1 in
  tt_wf tt2 ∧ unseen_writers_before r txn tt tt2 ∧ unseen_readers_before r txn tt tt2 ∧
  (∀ k, get_lower tt2 k = get_lower tt k).
Proof.
  intros Hwf Hts ts tt1 tt2.
  destruct (before_ts_spec (uncommitted_writes_y txn) ts (rm_writes r) tt Hwf Hts) as (M1&L1&U1).
  fold tt1 in M1, L1, U1. assert (tt_wf tt1) as Hwf1 by apply M1.
  destruct (before_ts_spec (uncommitted_reads txn) ts (rm_reads r) tt1 Hwf1 Hts) as (M2&L2&U2).
  fold tt2 in M2, L2, U2. split_and!.
  - apply M2.
  - intros w Hw Hn Hex. specialize (U1 w Hw Hn Hex). destruct (L2 w). fold ts. lia.
  - intros k Hk Hn Hex. apply U2; [done..|]. by apply M1.
  - intros k. destruct (L2 k) as [_ ->], (L1 k) as [_ ->]. done.
Qed.

(** ** Properties *)

(** C22: conflicts are seen.  On every row, of every two running transactions with
    conflicting soft locks, the one that came later has the other in the set that its
    validation will look at, in every state reachable by accesses, commits, aborts
    and whatever happens on other rows. *)
Theorem maat_conflicts_covered wl data h (s : rstate (V:=V)) :
  (∀ t, mt_id (h t) = t) → rtc (step (T:=T) wl) (start data h) s → covered s.
Proof.
  intros Hid Hr. assert (inv (start data h)) as Hc.
  { split; [done|by intros ? ?%elem_of_nil..|]. split; by intros ? ? ?%elem_of_nil. }
  apply iv_covered. induction Hr; eauto using rowmaat_step_inv.
Qed.

(** Forward validation.  When a transaction commits at the lower end of its
    range, every uncommitted writer it has not seen is pushed after a committed
    read, and every uncommitted reader and writer it has not seen is pushed before
    a committed write; the row then carries the write, the last timestamps are at
    least the commit timestamp and the soft lock is gone. *)
Theorem maat_commit_orders wl type data r txn tt :
  tt_wf tt → 0 < commit_timestamp txn < UINT64_MAX →
  commit_timestamp txn = get_lower tt (mt_id txn) →
  let '(r', tt') := commit (V:=V) wl type data r txn tt in
  tt_wf tt' ∧
  (wl = TPCC ∨ type = RD → unseen_writers_after r' txn tt tt' ∧
     commit_timestamp txn ≤ timestamp_last_read r' ∧ mt_id txn ∉ rm_reads r') ∧
  (wl = TPCC ∨ type = WR → unseen_writers_before r' txn tt tt' ∧
     unseen_readers_before r' txn tt tt' ∧
     commit_timestamp txn ≤ timestamp_last_write r' ∧ rm_data r' = data ∧
     mt_id txn ∉ rm_writes r').
Proof.
  intros Hwf Hts Hlow.
  assert (∀ x l, x ∉ sset_erase x l) as Herase by (intros x l; rewrite elem_of_sset_erase; tauto).
  assert (∀ a b, a ≤ if b <? a then a else b) as Hmax
    by (intros a b; destruct (Z.ltb_spec b a); lia).
  assert (commit_timestamp txn ≤ UINT64_MAX) as HtsM by lia.
  destruct (decide (wl = TPCC)) as [->|Hwl].
  - simpl. unfold commit_tpcc. set (r1 := write _ _).
    destruct (writer_after_spec (uncommitted_writes txn) (commit_timestamp txn) (rm_writes r1) tt Hwf)
      as (M1&L1&U1); [lia|]. set (tt1 := fold_set (writer_after _ _) _ _) in *.
    assert (get_lower tt1 (mt_id txn) = commit_timestamp txn) as ->.
    { rewrite Hlow. unfold get_lower. rewrite (proj1 (proj2 M1)); [done|]. simpl. apply Herase. }
    destruct (commit_write_loops r1 txn tt1) as (W2&B1&B2&L2); [apply M1|lia|].
    set (tt2 := fold_set (before_ts (uncommitted_reads txn) _) _ _) in *.
    split_and!; [done|intros _; split_and!; [|apply Hmax|apply Herase]|
      intros _; split_and!; [| |apply Hmax|done|apply Herase]].
    + intros w Hw Hn Hex. rewrite L2. by apply U1.
    + intros w Hw Hn Hex. apply B1; [done..|]. by apply M1.
    + intros w Hw Hn Hex. apply B2; [done..|]. by apply M1.
  - assert (commit wl type data r txn tt = match type with
      | RD => commit_read r txn tt | WR => commit_write data r txn tt | _ => (r, tt) end) as ->
      by by destruct wl.
    destruct type; simpl.
    + unfold commit_read. set (r1 := leave_reads _ _).
      destruct (writer_after_spec (uncommitted_writes txn) (commit_timestamp txn) (rm_writes r1) tt Hwf)
        as (M1&L1&U1); [lia|]. set (tt1 := fold_set _ _ _) in *.
      split_and!; [apply M1| |by intros [?|?]].
      intros _. split_and!; [exact U1|apply Hmax|apply Herase].
    + unfold commit_write. set (r1 := write _ _). rewrite <-Hlow.
      destruct (commit_write_loops r1 txn tt Hwf) as (W2&B1&B2&L2); [lia|].
      split_and!; [done|by intros [?|?]|]. intros _.
      split_and!; [done|done|apply Hmax|done|apply Herase].
    + split_and!; [done|by intros [?|?]..].
    + split_and!; [done|by intros [?|?]..].
Qed.

End forward.

(** *** Two transactions on one row *)
Definition ex_txn (t : Z) : MaatTxn := mkMaatTxn t 0 0 [] [] [] 0.
Definition ex_run : rstate (V:=Z) :=
  mkRS (prewrite (read (init 0) (ex_txn 1)).1 (ex_txn 2)).1
    (<[2 := (prewrite (read (init 0) (ex_txn 1)).1 (ex_txn 2)).2]>
      (<[1 := (read (init 0) (ex_txn 1)).2]> ex_txn)) 2
    (arrive [1] 2 1 (arrive [] 1 0 (λ _, 0%nat))) (arrive [] 2 1 (arrive [] 1 0 (λ _, 0%nat))).

(** The writer came later and has recorded the reader. *)
Lemma maat_conflicts_covered_witness : 1 ∈ uncommitted_reads (rs_txn ex_run 2).
Proof.
  destruct (maat_conflicts_covered (T:=TimeTable.TimeTable) YCSB 0 ex_txn ex_run)
    as (Hc&_).
  - done.
  - eapply rtc_l; [by eapply (step_access _ _ 1 RD)|].
    eapply rtc_l; [by eapply (step_access _ _ 2 WR)|]. apply rtc_refl.
  - destruct (Hc 1 2) as [[Hlt _]|[_ Hin]]; [by left|by left|done| |exact Hin].
    vm_compute in Hlt. lia.
Defined.

Lemma maat_commit_orders_witness :
  let r := mkRM 0 [1; 2] [1] 0 0 in
  let txn := mkMaatTxn 1 0 0 [] [] [] 7 in
  let tt := tt_set_lower 1 7 (tt_init 2 (tt_init 1 (TimeTable.init 4))) in
  let '(r', tt') := commit YCSB WR 5 r txn tt in
  get_upper tt' 2 < 7 ∧ rm_data r' = 5.
Proof.
  intros r txn tt.
  assert (tt_wf tt) as Hwf.
  { apply wf_set_lower. do 2 apply wf_init. by apply TimeTable.init_wf. }
  pose proof (maat_commit_orders YCSB WR 5 r txn tt Hwf) as H.
  specialize (H ltac:(unfold UINT64_MAX; simpl; lia) eq_refl).
  destruct (commit YCSB WR 5 r txn tt) as [r' tt'] eqn:E.
  destruct H as (_&_&(_&Hr&_&Hd&_)); [by right|]. split; [|exact Hd].
  apply Hr.
  - assert (rm_reads r' = [1; 2]) as -> by (by vm_compute in E; injection E as <- _).
    right. by left.
  - by intros ?%elem_of_nil.
  - eexists. reflexivity.
Defined.

End RowMaat.
