(* ===== verification/Occ.v ===== *)
(** * OptCC and Row_occ: optimistic concurrency control

    Model of [class OptCC] (concurrency_control/occ.h, occ.cpp) with central
    validation, and of [class Row_occ] (row_occ.h, row_occ.cpp).  The semaphore is
    released between taking the snapshot and the end of a validation, so a
    validation is two steps, [validate_begin] and [validate_end], with the checks
    on the snapshot in between; other transactions may step meanwhile. *)

From S2P Require Import Prelude.

Module Occ.

Definition txn_ptr := nat.
Definition row_ptr := nat.

(** A [set_ent]; [set_size] is the length of [rows]. *)
Record set_ent := mkSet { se_tn : Z; se_txn : txn_ptr; se_rows : list row_ptr }.

Record OptCC := mkOcc {
  tnc : Z;
  his_len : Z;
  active_len : Z;
  active : list set_ent;
  history : list set_ent }.

(** What validation reads of a transaction: its accesses in order and the sizes
    the access bookkeeping has counted. *)
Record OccTxn := mkOccTxn {
  oc_ptr : txn_ptr;
  start_timestamp : Z;
  accesses : list (access_t * row_ptr);
  write_set_size : Z;
  read_set_size : Z }.

Definition init : OptCC := mkOcc 0 0 0 [] [].

(** The loop of [get_rw_set] over the first [wset_size + rset_size] accesses. *)
Fixpoint split_accesses (n : nat) (l : list (access_t * row_ptr))
    : option (list row_ptr * list row_ptr) :=
  match n with
  | O => Some ([], [])
  | S n' =>
      match l with
      | [] => None (* past the end of the access array *)
      | (ty, r) :: l' =>
          '(rs, ws) ← split_accesses n' l';
          if bool_decide (ty = WR) then Some (rs, r :: ws) else Some (r :: rs, ws)
      end
  end.

(** [get_rw_set]: the read set and the write set. *)
Definition get_rw_set (txn : OccTxn) : option (set_ent * set_ent) :=
  '(rs, ws) ← split_accesses (Z.to_nat (write_set_size txn + read_set_size txn)) (accesses txn);
  ASSERT zlen ws =? write_set_size txn;
  ASSERT zlen rs =? read_set_size txn;
  Some (mkSet 0 (oc_ptr txn) rs, mkSet 0 (oc_ptr txn) ws).

(** [test_valid]: the two nested loops. *)
Fixpoint row_in (r : row_ptr) (l : list row_ptr) : bool :=
  match l with
  | [] => false
  | r' :: l' => if Nat.eqb r r' then true else row_in r l'
  end.

Fixpoint test_valid_rows (l1 l2 : list row_ptr) : bool :=
  match l1 with
  | [] => true
  | r :: l1' => if row_in r l2 then false else test_valid_rows l1' l2
  end.

Definition test_valid (set1 set2 : set_ent) : bool :=
  test_valid_rows (se_rows set1) (se_rows set2).

(** What a validation took with it from the critical section. *)
Record snapshot := mkSnap {
  sn_start : Z;
  sn_finish : Z;
  sn_active : list set_ent;
  sn_his : list set_ent;
  sn_rset : set_ent;
  sn_wset : set_ent }.

(** The first critical section of [central_validate]; [finish_tn] is the answer of
    [glob_manager.get_ts].  [finish_active] has room for [active_len] entries. *)
Definition validate_begin (txn : OccTxn) (finish_tn : Z) (s : OptCC)
    : option (snapshot * OptCC) :=
  '(rset, wset) ← get_rw_set txn;
  ASSERT zlen (active s) =? active_len s;
  let sn := mkSnap (start_timestamp txn) finish_tn (active s) (history s) rset wset in
  if bool_decide (se_rows wset = []) then Some (sn, s)
  else Some (sn, mkOcc (tnc s) (his_len s) (wrap64 (active_len s + 1)) (wset :: active s)
                   (history s)).

(** The scan of the history: skip what is newer than [finish_tn], test what is
    newer than [start_tn], stop at the first entry that is not. *)
Fixpoint skip_newer (finish_tn : Z) (his : list set_ent) : list set_ent :=
  match his with
  | [] => []
  | h :: his' => if finish_tn <? se_tn h then skip_newer finish_tn his' else his
  end.

Fixpoint check_history (start_tn : Z) (rset : set_ent) (his : list set_ent) : bool :=
  match his with
  | [] => true
  | h :: his' =>
      if start_tn <? se_tn h then
        if test_valid h rset then check_history start_tn rset his' else false
      else true
  end.

Fixpoint check_active (rset wset : set_ent) (acts : list set_ent) : bool :=
  match acts with
  | [] => true
  | wact :: acts' =>
      if test_valid wact rset then
        if test_valid wact wset then check_active rset wset acts' else false
      else false
  end.

(** The checks between the two critical sections. *)
Definition validate_check (sn : snapshot) : bool :=
  let hist_ok :=
    if sn_start sn <? sn_finish sn
    then check_history (sn_start sn) (sn_rset sn) (skip_newer (sn_finish sn) (sn_his sn))
    else true in
  if hist_ok then check_active (sn_rset sn) (sn_wset sn) (sn_active sn) else false.

(** Unlink the entry of [t] from the active list. *)
Definition leave_active (t : txn_ptr) (s : OptCC) : option OptCC :=
  '(_, acts) ← remove_first (λ e, Nat.eqb (se_txn e) t) (active s);
  Some (mkOcc (tnc s) (his_len s) (wrap64 (active_len s - 1)) acts (history s)).

(** The end of [central_validate]: a rejected transaction leaves the active list. *)
Definition validate_end (sn : snapshot) (s : OptCC) : RC * OptCC :=
  if validate_check sn then (RCOK, s)
  else (Abort, default s (leave_active (se_txn (sn_wset sn)) s)).

Definition central_finish (rc : RC) (txn : OccTxn) (s : OptCC) : option OptCC :=
  '(rset, wset) ← get_rw_set txn;
  if bool_decide (se_rows wset = []) then Some s
  else
    match leave_active (oc_ptr txn) s with
    | None => ASSERT bool_decide (rc = Abort); Some s
    | Some s' =>
        if bool_decide (rc = RCOK) then
          let tnc' := wrap64 (tnc s' + 1) in
          Some (mkOcc tnc' (wrap64 (his_len s' + 1)) (active_len s') (active s')
                  (mkSet tnc' (se_txn wset) (se_rows wset) :: history s'))
        else Some s'
    end.

(** ** Row_occ *)

Record Row_occ {V : Type} := mkRowOcc { ro_data : V; wts : Z }.
Arguments Row_occ : clear implicits.
Arguments mkRowOcc {V}.

Definition row_init {V} (data : V) : Row_occ V := mkRowOcc data 0.

(** [access(txn, R_REQ)]: the local copy, or Abort. *)
Definition row_access {V} (start_ts : Z) (r : Row_occ V) : RC * option V :=
  if start_ts <? wts r then (Abort, None) else (RCOK, Some (ro_data r)).

Definition row_validate {V} (ts : Z) (r : Row_occ V) : bool :=
  if ts <? wts r then false else true.

Definition row_write {V} (per_row_valid : bool) (data : V) (ts : Z) (r : Row_occ V)
    : option (Row_occ V) :=
  if per_row_valid then ASSERT wts r <? ts; Some (mkRowOcc data ts)
  else Some (mkRowOcc data (wts r)).

(** [per_row_validate]: the accesses are sorted by table name and primary key with
    the bubble sort of the code, then each row is latched and tested until one
    fails; the result is the verdict and the rows latched. *)
Section per_row.
Context {V : Type} (gt : row_ptr → row_ptr → bool) (rows : row_ptr → Row_occ V).

(** One pass: positions [0..i], swapping neighbours that are out of order. *)
Fixpoint bubble_pass (i : nat) (l : list (access_t * row_ptr)) : list (access_t * row_ptr) :=
  match i, l with
  | S i', a :: b :: l' =>
      if gt a.2 b.2 then b :: bubble_pass i' (a :: l') else a :: bubble_pass i' (b :: l')
  | _, _ => l
  end.

Fixpoint bubble_sort (i : nat) (l : list (access_t * row_ptr)) : list (access_t * row_ptr) :=
  match i with
  | O => l
  | S i' => bubble_sort i' (bubble_pass i l)
  end.

Fixpoint latch_and_validate (ts : Z) (l : list (access_t * row_ptr))
    : bool * list row_ptr :=
  match l with
  | [] => (true, [])
  | (_, r) :: l' =>
      if row_validate ts (rows r)
      then let '(ok, ls) := latch_and_validate ts l' in (ok, r :: ls)
      else (false, [r])
  end.

Definition per_row_validate (txn : OccTxn) : option (RC * list row_ptr) :=
  if bool_decide (accesses txn = []) then None (* [get_access_cnt() - 1] wraps around *)
  else
    let l := bubble_sort (length (accesses txn) - 1) (accesses txn) in
    let '(ok, latched) := latch_and_validate (start_timestamp txn) l in
    Some (if ok then RCOK else Abort, latched).

End per_row.

(** ** Validations in flight *)

(** The controller, the validations between the two critical sections, the
    accepted transactions that have not finished and all of these in the order in
    which they began, the last first; the last three are ghost state. *)
Record osys := mkOS {
  os_cc : OptCC;
  os_val : list snapshot;
  os_acc : list snapshot;
  os_begun : list snapshot }.

Definition sn_txn (sn : snapshot) : txn_ptr := se_txn (sn_wset sn).
Definition drop_txn (t : txn_ptr) (l : list snapshot) : list snapshot :=
  filter (λ sn, sn_txn sn ≠ t) l.

Inductive step (s : osys) : osys → Prop :=
  | step_begin txn finish_tn sn cc' :
      (∀ sn', sn' ∈ os_val s ++ os_acc s → sn_txn sn' ≠ oc_ptr txn) →
      zlen (active (os_cc s)) + 1 < u64_mod →
      validate_begin txn finish_tn (os_cc s) = Some (sn, cc') →
      step s (mkOS cc' (sn :: os_val s) (os_acc s) (sn :: os_begun s))
  | step_end sn rc cc' :
      sn ∈ os_val s → validate_end sn (os_cc s) = (rc, cc') →
      step s (mkOS cc' (drop_txn (sn_txn sn) (os_val s))
                (if bool_decide (rc = RCOK) then sn :: os_acc s else os_acc s)
                (if bool_decide (rc = RCOK) then os_begun s
                 else drop_txn (sn_txn sn) (os_begun s)))
  | step_finish txn rc cc' :
      (∀ sn', sn' ∈ os_val s → sn_txn sn' ≠ oc_ptr txn) →
      (* the accesses do not change after validation *)
      (∀ sn', sn' ∈ os_acc s → sn_txn sn' = oc_ptr txn →
         get_rw_set txn = Some (sn_rset sn', sn_wset sn')) →
      tnc (os_cc s) + 1 < u64_mod →
      central_finish rc txn (os_cc s) = Some cc' →
      step s (mkOS cc' (os_val s) (drop_txn (oc_ptr txn) (os_acc s))
                (drop_txn (oc_ptr txn) (os_begun s))).

(** The validation of [a] entered its first critical section after that of [b]. *)
Definition began_after (s : osys) (a b : snapshot) : Prop :=
  ∃ l1 l2, os_begun s = l1 ++ a :: l2 ∧ b ∈ l2.

Definition disjoint_rows (a b : set_ent) : Prop := ∀ r, r ∈ se_rows a → r ∉ se_rows b.

(** A writer is in the active list until it leaves it. *)
Definition listed (acts : list set_ent) (sn : snapshot) : Prop :=
  se_rows (sn_wset sn) ≠ [] → sn_wset sn ∈ acts.

(** The validation of [a] has [b] in its snapshot. *)
Definition sees (a b : snapshot) : Prop := listed (sn_active a) b.

Definition his_sorted : list set_ent → Prop := StronglySorted (λ a b, se_tn b < se_tn a).

Record oinv (s : osys) : Prop := {
  oi_len : active_len (os_cc s) = zlen (active (os_cc s));
  oi_room : zlen (active (os_cc s)) < u64_mod;
  oi_below : ∀ sn, sn ∈ os_val s ++ os_acc s → listed (active (os_cc s)) sn;
  oi_begun : ∀ sn, sn ∈ os_begun s ↔ sn ∈ os_val s ++ os_acc s;
  oi_order : StronglySorted sees (os_begun s);
  oi_uniq : NoDup (sn_txn <$> os_val s ++ os_acc s);
  oi_rows : ∀ e, e ∈ active (os_cc s) → se_rows e ≠ [];
  oi_txn : ∀ e, e ∈ active (os_cc s) → ∃ sn, sn ∈ os_val s ++ os_acc s ∧ sn_wset sn = e;
  oi_nodup : NoDup (se_txn <$> active (os_cc s));
  oi_acc : ∀ sn, sn ∈ os_acc s → validate_check sn = true;
  oi_tnc : 0 ≤ tnc (os_cc s);
  oi_hist : his_sorted (history (os_cc s)) ∧
    ∀ h, h ∈ history (os_cc s) → se_tn h ≤ tnc (os_cc s);
  oi_snap : ∀ sn, sn ∈ os_val s ++ os_acc s → his_sorted (sn_his sn) ∧
    ∀ h, h ∈ sn_his sn → se_tn h ≤ tnc (os_cc s) }.

(** ** Lemmas *)

Lemma row_in_spec r l : row_in r l = true ↔ r ∈ l.
Proof.
  induction l as [|r' l IH]; simpl; [by rewrite elem_of_nil|].
  rewrite elem_of_cons, <-IH. destruct (Nat.eqb_spec r r'); naive_solver.
Qed.

Lemma test_valid_spec a b : test_valid a b = true ↔ disjoint_rows a b.
Proof.
  unfold test_valid, disjoint_rows. induction (se_rows a) as [|r l IH]; simpl.
  - split; [by intros _ ? ?%elem_of_nil|done].
  - destruct (row_in r (se_rows b)) eqn:E.
    + split; [done|]. intros Hd. apply row_in_spec in E. destruct (Hd r); [by left|done].
    + rewrite IH. split; intros Hd r' Hr'; [|apply Hd; by right].
      apply elem_of_cons in Hr' as [->|]; [|auto]. intros ?%row_in_spec. congruence.
Qed.

Lemma check_active_spec rset wset acts :
  check_active rset wset acts = true ↔
  ∀ e, e ∈ acts → disjoint_rows e rset ∧ disjoint_rows e wset.
Proof.
  induction acts as [|a acts IH]; simpl; [split; [by intros _ ? ?%elem_of_nil|done]|].
  destruct (test_valid a rset) eqn:E1; [destruct (test_valid a wset) eqn:E2|].
  - rewrite IH. apply test_valid_spec in E1, E2. split; intros Hd e He.
    + apply elem_of_cons in He as [->|]; auto.
    + apply Hd. by right.
  - split; [done|]. intros Hd. destruct (Hd a) as [_ ?%test_valid_spec]; [by left|congruence].
  - split; [done|]. intros Hd. destruct (Hd a) as [?%test_valid_spec _]; [by left|congruence].
Qed.

(** On a history in descending order the scan tests exactly the entries with a
    number in the window [(start, finish]]. *)
Lemma check_history_spec start finish rset his :
  his_sorted his → start < finish →
  check_history start rset (skip_newer finish his) = true ↔
  ∀ h, h ∈ his → start < se_tn h ≤ finish → disjoint_rows h rset.
Proof.
  intros HS Hlt. induction HS as [|h his HS IH HF]; simpl; [split; [by intros _ ? ?%elem_of_nil|done]|].
  rewrite Forall_forall in HF. destruct (Z.ltb_spec finish (se_tn h)).
  - rewrite IH. split; intros Hd h' Hh'; [|apply Hd; by right].
    apply elem_of_cons in Hh' as [->|]; [lia|auto].
  - clear IH. assert (∀ l, StronglySorted (λ a b, se_tn b < se_tn a) l →
      (∀ h', h' ∈ l → se_tn h' ≤ finish) →
      check_history start rset l = true ↔ ∀ h', h' ∈ l → start < se_tn h' ≤ finish → disjoint_rows h' rset) as Hgen.
    { clear. intros l HS Hle. induction HS as [|h l HS IH HF]; simpl; [split; [by intros _ ? ?%elem_of_nil|done]|].
      rewrite Forall_forall in HF. specialize (Hle h ltac:(by left)) as Hh.
      destruct (Z.ltb_spec start (se_tn h)).
      - destruct (test_valid h rset) eqn:E.
        + rewrite IH by (intros; apply Hle; by right). apply test_valid_spec in E.
          split; intros Hd h' Hh'; [|apply Hd; by right].
          apply elem_of_cons in Hh' as [->|]; auto.
        + split; [done|]. intros Hd. assert (disjoint_rows h rset) as ?%test_valid_spec; [|congruence].
          apply Hd; [by left|lia].
      - split; [|done]. intros _ h' [->|Hh']%elem_of_cons ?; [lia|].
        specialize (HF h' Hh'). simpl in HF. lia. }
    apply (Hgen (h :: his)).
    + constructor; [done|]. by apply Forall_forall.
    + intros h' [->|Hh']%elem_of_cons; [done|]. specialize (HF h' Hh'). simpl in HF. lia.
Qed.

Lemma get_rw_set_txn txn rset wset :
  get_rw_set txn = Some (rset, wset) → se_txn wset = oc_ptr txn ∧ se_txn rset = oc_ptr txn.
Proof.
  unfold get_rw_set. destruct (split_accesses _ _) as [[rs ws]|]; simpl; [|done].
  intros E. inv_option. by simplify_eq.
Qed.

Lemma leave_active_spec t cc cc' :
  leave_active t cc = Some cc' → NoDup (se_txn <$> active cc) →
  ∃ e, se_txn e = t ∧ active cc ≡ₚ e :: active cc' ∧
    history cc' = history cc ∧ tnc cc' = tnc cc ∧
    active_len cc' = wrap64 (active_len cc - 1) ∧
    (∀ e', e' ∈ active cc' → se_txn e' ≠ t) ∧
    (∀ sn, sn_txn sn ≠ t → listed (active cc) sn → listed (active cc') sn).
Proof.
  unfold leave_active. destruct (remove_first _ _) as [[e r]|] eqn:E; simpl; [|done].
  intros [= <-] Hd. simpl. destruct (remove_first_perm _ _ _ _ E) as [Hp He%Nat.eqb_eq].
  exists e. split_and!; try done.
  - intros e' He' Ht. rewrite Hp in Hd. apply NoDup_cons in Hd as [Hn _].
    apply Hn. rewrite He, <-Ht. apply list_elem_of_fmap. eauto.
  - intros sn Hsn Hl Hne. specialize (Hl Hne). rewrite Hp in Hl.
    apply elem_of_cons in Hl as [<-|]; [by destruct Hsn|done].
Qed.

Lemma begin_inv s txn ftn sn cc' :
  oinv s → (∀ sn', sn' ∈ os_val s ++ os_acc s → sn_txn sn' ≠ oc_ptr txn) →
  zlen (active (os_cc s)) + 1 < u64_mod →
  validate_begin txn ftn (os_cc s) = Some (sn, cc') →
  oinv (mkOS cc' (sn :: os_val s) (os_acc s) (sn :: os_begun s)).
Proof.
  intros [] Hfresh Hroom E. unfold validate_begin in E.
  destruct (get_rw_set txn) as [[rset wset]|] eqn:Erw; simpl in E; [|done].
  destruct (get_rw_set_txn _ _ _ Erw) as [Hw _]. inv_option.
  set (sn0 := mkSnap _ _ _ _ _ _) in *.
  assert (NoDup (sn_txn <$> sn0 :: os_val s ++ os_acc s)) as Hu.
  { constructor; [|done]. intros (sn'&Hs&Hsn')%list_elem_of_fmap.
    apply (Hfresh sn' Hsn'). rewrite <-Hs. done. }
  assert (∀ sn, sn ∈ sn0 :: os_begun s ↔ sn ∈ sn0 :: os_val s ++ os_acc s) as Hbg.
  { intros sn'. by rewrite !elem_of_cons, oi_begun0. }
  assert (StronglySorted sees (sn0 :: os_begun s)) as Hord.
  { constructor; [done|]. apply Forall_forall. intros sn' Hs'. by apply oi_below0, oi_begun0. }
  case_bool_decide as Hro; injection E as <- <-.
  - split; simpl; auto.
    + intros sn' [->|Hs]%elem_of_cons; [|by apply oi_below0]. by intros ?.
    + intros e He. destruct (oi_txn0 e He) as (sn'&?&?). exists sn'. split; [by right|done].
    + intros sn' [->|Hs]%elem_of_cons; auto.
  - split; simpl; auto.
    + rewrite oi_len0, wrap64_small by (unfold is_u64; lia). lia.
    + lia.
    + intros sn' [->|Hs]%elem_of_cons.
      * intros _. by left.
      * intros Hne. right. by apply oi_below0.
    + intros e [->|He]%elem_of_cons; auto.
    + intros e [->|He]%elem_of_cons; [exists sn0; split; [by left|done]|].
      destruct (oi_txn0 e He) as (sn'&?&?). exists sn'. split; [by right|done].
    + constructor; [|done]. intros (e&Ht&He)%list_elem_of_fmap.
      destruct (oi_txn0 e He) as (sn'&Hs&<-). apply (Hfresh sn' Hs).
      by rewrite <-Hw, Ht.
    + intros sn' [->|Hs]%elem_of_cons; auto.
Qed.

Lemma drop_txn_elem t l sn : sn ∈ drop_txn t l ↔ sn_txn sn ≠ t ∧ sn ∈ l.
Proof. unfold drop_txn. by rewrite list_elem_of_filter. Qed.

Lemma drop_txn_sorted t l : StronglySorted sees l → StronglySorted sees (drop_txn t l).
Proof.
  intros HS. unfold drop_txn. induction HS as [|a l HS IH HF]; [constructor|].
  rewrite filter_cons. case_decide; [|done]. constructor; [done|].
  rewrite Forall_forall in *. intros b [_ Hb]%list_elem_of_filter. auto.
Qed.

(** Leaving the active list together with one's snapshot. *)
Lemma leave_inv cc cc' (val acc beg val' acc' : list snapshot) t :
  oinv (mkOS cc val acc beg) → leave_active t cc = Some cc' →
  (∀ sn, sn ∈ val' ++ acc' → sn ∈ val ++ acc ∧ sn_txn sn ≠ t) →
  (∀ sn, sn ∈ val ++ acc → sn_txn sn ≠ t → sn ∈ val' ++ acc') →
  (∀ sn, sn ∈ acc' → sn ∈ acc) →
  NoDup (sn_txn <$> val' ++ acc') →
  oinv (mkOS cc' val' acc' (drop_txn t beg)).
Proof.
  intros [] Hl Hsub Hsup Hacc Hnd. simpl in *.
  destruct (leave_active_spec _ _ _ Hl oi_nodup0) as (e&He&Hp&Hh&Ht&Hlen&Hne&Hb).
  assert (zlen (active cc) = zlen (active cc') + 1) as Hz by (rewrite Hp; simpl; lia).
  split; simpl; auto.
  - rewrite Hlen, oi_len0, wrap64_small by (unfold is_u64; lia). lia.
  - lia.
  - intros sn Hsn. destruct (Hsub sn Hsn). auto.
  - intros sn. rewrite drop_txn_elem, oi_begun0. naive_solver.
  - by apply drop_txn_sorted.
  - intros e' He'. apply oi_rows0. rewrite Hp. by right.
  - intros e' He'. destruct (oi_txn0 e') as (sn&Hsn&Hw); [rewrite Hp; by right|].
    exists sn. split; [|done]. apply Hsup; [done|]. specialize (Hne e' He').
    by rewrite <-Hw in Hne.
  - rewrite Hp in oi_nodup0. by apply NoDup_cons in oi_nodup0 as [_ ?].
  - by rewrite Ht.
  - by rewrite Hh, Ht.
  - intros sn Hsn. rewrite Ht. by apply oi_snap0, Hsub.
Qed.

Lemma end_inv s sn rc cc' :
  oinv s → sn ∈ os_val s → validate_end sn (os_cc s) = (rc, cc') →
  oinv (mkOS cc' (drop_txn (sn_txn sn) (os_val s))
          (if bool_decide (rc = RCOK) then sn :: os_acc s else os_acc s)
          (if bool_decide (rc = RCOK) then os_begun s
           else drop_txn (sn_txn sn) (os_begun s))).
Proof.
  intros Hi Hsn E. pose proof Hi as [].
  assert (NoDup (sn_txn <$> os_val s)) as Hdv.
  { rewrite fmap_app in oi_uniq0. by apply NoDup_app in oi_uniq0 as (?&_&_). }
  pose proof (filter_out_key sn_txn (os_val s) sn Hdv Hsn) as Hp.
  change (filter _ _) with (drop_txn (sn_txn sn) (os_val s)) in Hp.
  assert (∀ sn', sn' ∈ os_acc s → sn_txn sn' ≠ sn_txn sn) as Hother.
  { intros sn' Hsn' Ht. rewrite fmap_app in oi_uniq0. apply NoDup_app in oi_uniq0 as (_&Hd&_).
    apply (Hd (sn_txn sn)); apply list_elem_of_fmap; eauto. }
  unfold validate_end in E. destruct (validate_check sn) eqn:Ec; simplify_eq; simpl.
  - assert (drop_txn (sn_txn sn) (os_val s) ++ sn :: os_acc s ≡ₚ os_val s ++ os_acc s) as Hpp.
    { rewrite Hp at 2. by rewrite <-Permutation_middle. }
    split; simpl; auto.
    + intros sn'. rewrite Hpp. auto.
    + intros sn'. by rewrite Hpp.
    + by rewrite Hpp.
    + intros e He. destruct (oi_txn0 e He) as (sn'&?&?). exists sn'. by rewrite Hpp.
    + intros sn' [->|?]%elem_of_cons; auto.
    + intros sn'. rewrite Hpp. auto.
  - assert (NoDup (sn_txn <$> drop_txn (sn_txn sn) (os_val s) ++ os_acc s)) as Hnd.
    { rewrite Hp in oi_uniq0. simpl in oi_uniq0. by apply NoDup_cons in oi_uniq0 as [_ ?]. }
    assert (∀ sn', sn' ∈ os_val s ++ os_acc s → sn_txn sn' ≠ sn_txn sn →
      sn' ∈ drop_txn (sn_txn sn) (os_val s) ++ os_acc s) as Hsup.
    { intros sn'. rewrite !elem_of_app, drop_txn_elem. tauto. }
    assert (∀ sn', sn' ∈ drop_txn (sn_txn sn) (os_val s) ++ os_acc s →
      sn' ∈ os_val s ++ os_acc s ∧ sn_txn sn' ≠ sn_txn sn) as Hsub.
    { intros sn'. rewrite !elem_of_app, drop_txn_elem. naive_solver. }
    fold (sn_txn sn). destruct (leave_active (sn_txn sn) (os_cc s)) as [cc'|] eqn:El; simpl.
    + eapply (leave_inv (os_cc s) cc' (os_val s) (os_acc s) (os_begun s)); eauto. by destruct s.
    + split; simpl; auto.
      * intros sn' Hs'. apply oi_below0. by apply Hsub.
      * intros sn'. rewrite drop_txn_elem, oi_begun0. naive_solver.
      * by apply drop_txn_sorted.
      * intros e He. destruct (oi_txn0 e He) as (sn'&Hs'&Hw). exists sn'. split; [|done].
        apply Hsup; [done|]. intros Ht. unfold leave_active in El.
        destruct (remove_first_Some (λ e, Nat.eqb (se_txn e) (sn_txn sn)) _ e He) as [[? ?] E].
        { apply Nat.eqb_eq. by rewrite <-Ht, <-Hw. }
        by rewrite E in El.
      * intros sn' Hs'. apply oi_snap0. by apply Hsub.
Qed.

Lemma finish_inv s txn rc cc' :
  oinv s → (∀ sn', sn' ∈ os_val s → sn_txn sn' ≠ oc_ptr txn) →
  (∀ sn', sn' ∈ os_acc s → sn_txn sn' = oc_ptr txn →
     get_rw_set txn = Some (sn_rset sn', sn_wset sn')) →
  tnc (os_cc s) + 1 < u64_mod →
  central_finish rc txn (os_cc s) = Some cc' →
  oinv (mkOS cc' (os_val s) (drop_txn (oc_ptr txn) (os_acc s))
          (drop_txn (oc_ptr txn) (os_begun s))).
Proof.
  intros Hi Hval Hacc Htn E. pose proof Hi as [].
  assert (os_val s ++ drop_txn (oc_ptr txn) (os_acc s) `sublist_of` os_val s ++ os_acc s) as Hsl.
  { apply sublist_app; [done|]. apply sublist_filter. }
  assert (NoDup (sn_txn <$> os_val s ++ drop_txn (oc_ptr txn) (os_acc s))) as Hnd.
  { eapply sublist_NoDup; [exact oi_uniq0|by apply fmap_sublist]. }
  assert (∀ sn, sn ∈ os_val s ++ drop_txn (oc_ptr txn) (os_acc s) ↔
    sn ∈ os_val s ++ os_acc s ∧ sn_txn sn ≠ oc_ptr txn) as Hel.
  { intros sn. rewrite !elem_of_app, drop_txn_elem. naive_solver. }
  assert (∀ sn, sn ∈ drop_txn (oc_ptr txn) (os_acc s) → sn ∈ os_acc s) as Hsubacc.
  { intros sn. rewrite drop_txn_elem. tauto. }
  assert ((∀ e, e ∈ active (os_cc s) → se_txn e ≠ oc_ptr txn) →
    oinv (mkOS (os_cc s) (os_val s) (drop_txn (oc_ptr txn) (os_acc s))
            (drop_txn (oc_ptr txn) (os_begun s)))) as Hquiet.
  { intros Hno. split; simpl; auto.
    - intros sn Hsn. apply oi_below0, Hel, Hsn.
    - intros sn. rewrite drop_txn_elem, oi_begun0, Hel. tauto.
    - by apply drop_txn_sorted.
    - intros e He. destruct (oi_txn0 e He) as (sn&Hsn&<-). exists sn. split; [|done].
      apply Hel. split; [done|]. by apply (Hno (sn_wset sn)).
    - intros sn Hsn. apply oi_snap0, Hel, Hsn. }
  unfold central_finish in E. destruct (get_rw_set txn) as [[rset wset]|] eqn:Erw; simpl in E; [|done].
  case_bool_decide as Hro.
  - simplify_eq. apply Hquiet. intros e He Ht. destruct (oi_txn0 e He) as (sn&Hsn&<-).
    apply elem_of_app in Hsn as [Hsn|Hsn]; [by apply (Hval sn Hsn)|].
    specialize (Hacc sn Hsn Ht). simplify_eq. by apply (oi_rows0 _ He).
  - destruct (leave_active (oc_ptr txn) (os_cc s)) as [cc1|] eqn:El; simpl in E.
    + assert (oinv (mkOS cc1 (os_val s) (drop_txn (oc_ptr txn) (os_acc s))
                      (drop_txn (oc_ptr txn) (os_begun s)))) as H1.
      { eapply (leave_inv (os_cc s) cc1 (os_val s) (os_acc s) (os_begun s)); eauto; [by destruct s|..].
        - intros sn Hsn. by apply Hel.
        - intros sn Hsn Hne. by apply Hel. }
      case_bool_decide; simplify_eq; [|done].
      destruct (leave_active_spec _ _ _ El oi_nodup0) as (_&_&_&_&Ht&_). clear El Hquiet.
      destruct H1. simpl in *.
      assert (wrap64 (tnc cc1 + 1) = tnc cc1 + 1) as Hw.
      { apply wrap64_small. unfold is_u64. lia. }
      split; simpl; rewrite ?Hw; auto.
      * lia.
      * destruct oi_hist1 as [Hs Hb]. split.
        -- constructor; [done|]. apply Forall_forall. intros h Hh. simpl.
           specialize (Hb h Hh). lia.
        -- intros h [->|Hh]%elem_of_cons; simpl; [lia|]. specialize (Hb h Hh). lia.
      * intros sn Hsn. destruct (oi_snap1 sn Hsn) as [? Hb]. split; [done|].
        intros h Hh. specialize (Hb h Hh). lia.
    + inv_option. simplify_eq. apply Hquiet. intros e He Ht.
      unfold leave_active in El.
      destruct (remove_first_Some (λ e, Nat.eqb (se_txn e) (oc_ptr txn)) _ e He) as [[? ?] E].
      { by apply Nat.eqb_eq. }
      by rewrite E in El.
Qed.

Definition ostart : osys := mkOS init [] [] [].

Lemma occ_reach_inv s : rtc step ostart s → oinv s.
Proof.
  intros Hr. assert (oinv ostart) as Hi.
  { split; simpl; try done; try (by intros ? ?%elem_of_nil); try constructor.
    - constructor.
    - by intros ? ?%elem_of_nil. }
  induction Hr as [|s1 s2 s3 Hst _ IH]; [done|]. apply IH.
  destruct Hst; eauto using begin_inv, end_inv, finish_inv.
Qed.

(** Of two transactions in a list without repetition one comes first. *)
Lemma elem_of_order {A} (l : list A) (a b : A) :
  a ∈ l → b ∈ l → a ≠ b →
  (∃ l1 l2, l = l1 ++ a :: l2 ∧ b ∈ l2) ∨ (∃ l1 l2, l = l1 ++ b :: l2 ∧ a ∈ l2).
Proof.
  induction l as [|x l IH]; [by intros ?%elem_of_nil|].
  intros [->|Ha]%elem_of_cons [->|Hb]%elem_of_cons Hne; [done| | |].
  - left. by exists [], l.
  - right. by exists [], l.
  - destruct (IH Ha Hb Hne) as [(l1&l2&->&?)|(l1&l2&->&?)];
      [left|right]; by exists (x :: l1), l2.
Qed.

(** An accepted transaction has looked at every one that began before it. *)
Lemma accepted_looked s a b :
  oinv s → a ∈ os_acc s → began_after s a b →
  disjoint_rows (sn_wset b) (sn_rset a) ∧ disjoint_rows (sn_wset b) (sn_wset a).
Proof.
  intros Hi Ha (l1&l2&E&Hb). pose proof (oi_order _ Hi) as Ho. rewrite E in Ho.
  apply StronglySorted_app in Ho as (_&_&Ho). inversion Ho as [|? ? _ HF]; subst.
  rewrite Forall_forall in HF. specialize (HF b Hb).
  destruct (decide (se_rows (sn_wset b) = [])) as [En|Hne].
  { unfold disjoint_rows. rewrite En. by split; intros ? ?%elem_of_nil. }
  pose proof (oi_acc _ Hi a Ha) as Hv. unfold validate_check in Hv.
  destruct (if sn_start a <? sn_finish a then _ else _); [|done].
  rewrite check_active_spec in Hv. by apply Hv, HF.
Qed.

(** ** Properties *)

(** C23: accepted transactions are compatible.  Of any two transactions that
    central validation has accepted and that have not finished, one began its
    validation after the other; neither writes a row the other writes, and the one
    that began later has read no row the other writes. *)
Theorem occ_accepted_compatible s a b :
  rtc step ostart s → a ∈ os_acc s → b ∈ os_acc s → sn_txn a ≠ sn_txn b →
  disjoint_rows (sn_wset a) (sn_wset b) ∧
  (began_after s a b ∧ disjoint_rows (sn_wset b) (sn_rset a) ∨
   began_after s b a ∧ disjoint_rows (sn_wset a) (sn_rset b)).
Proof.
  intros Hr Ha Hb Hne. pose proof (occ_reach_inv _ Hr) as Hi.
  assert (∀ x, x ∈ os_acc s → x ∈ os_begun s) as Hin
    by (intros x Hx; apply (oi_begun _ Hi); set_solver).
  destruct (elem_of_order (os_begun s) a b) as [H|H]; [auto..|congruence| |].
  - destruct (accepted_looked s a b Hi Ha H) as [H1 H2].
    split; [|by left]. intros r Hr1 Hr2. by apply (H2 r).
  - destruct (accepted_looked s b a Hi Hb H). split; [done|by right].
Qed.

(** What central validation checks.  For every validation in flight, the
    verdict is positive exactly if no write set of the history with a number in
    the window from start to finish meets the read set and no write set that was
    active meets the read set or the write set. *)
Theorem occ_validate_exact s sn :
  rtc step ostart s → sn ∈ os_val s → sn_start sn < sn_finish sn →
  validate_check sn = true ↔
  (∀ h, h ∈ sn_his sn → sn_start sn < se_tn h ≤ sn_finish sn → disjoint_rows h (sn_rset sn)) ∧
  (∀ e, e ∈ sn_active sn → disjoint_rows e (sn_rset sn) ∧ disjoint_rows e (sn_wset sn)).
Proof.
  intros Hr Hsn Hlt. pose proof (occ_reach_inv _ Hr) as Hi.
  destruct (oi_snap _ Hi sn) as [Hs _]; [set_solver|].
  unfold validate_check. rewrite (proj2 (Z.ltb_lt _ _) Hlt).
  rewrite <-(check_history_spec _ _ _ _ Hs Hlt), <-check_active_spec.
  destruct (check_history _ _ _); [by intuition|by split; [|intros [? _]]].
Qed.

(** The history is numbered by another counter.  Write sets enter the history
    numbered by [tnc], which counts commits, while the window of a validation is
    made of timestamps.  As long as fewer transactions have committed than the
    start timestamp says, the history is not consulted at all: the verdict depends
    on the active transactions only. *)
Theorem occ_history_not_consulted s sn :
  rtc step ostart s → sn ∈ os_val s → tnc (os_cc s) ≤ sn_start sn →
  validate_check sn = check_active (sn_rset sn) (sn_wset sn) (sn_active sn).
Proof.
  intros Hr Hsn Htn. pose proof (occ_reach_inv _ Hr) as Hi.
  destruct (oi_snap _ Hi sn) as [Hs Hb]; [set_solver|].
  unfold validate_check. destruct (Z.ltb_spec (sn_start sn) (sn_finish sn)); [|done].
  rewrite (proj2 (check_history_spec (sn_start sn) (sn_finish sn) (sn_rset sn) _ Hs H)); [done|].
  intros h Hh ?. specialize (Hb h Hh). lia.
Qed.

(** ** A concrete run *)

(** Transaction 1 starts at timestamp 100 and reads row 7; transaction 2 writes row
    7 and commits; transaction 1 validates at timestamp 300. *)
Definition ex_reader : OccTxn := mkOccTxn 1%nat 100 [(RD, 7%nat); (WR, 8%nat)] 1 1.
Definition ex_writer : OccTxn := mkOccTxn 2%nat 150 [(WR, 7%nat)] 1 0.

Definition ex_wset1 : set_ent := mkSet 0 1%nat [8%nat].
Definition ex_snap1 : snapshot :=
  mkSnap 100 300 [] [mkSet 1 2%nat [7%nat]] (mkSet 0 1%nat [7%nat]) ex_wset1.
Definition ex_stale : osys :=
  mkOS (mkOcc 1 1 1 [ex_wset1] [mkSet 1 2%nat [7%nat]]) [ex_snap1] [] [ex_snap1].

Lemma ex_stale_reach : rtc step ostart ex_stale.
Proof.
  eapply rtc_l.
  { eapply (step_begin _ ex_writer 200); [by intros ? ?%elem_of_nil|done|reflexivity]. }
  eapply rtc_l; [eapply step_end; [by left|reflexivity]|].
  eapply rtc_l.
  { apply (step_finish _ ex_writer RCOK); [by intros ? ?%elem_of_nil| |done|reflexivity].
    by intros ? ->%list_elem_of_singleton. }
  eapply rtc_l.
  { eapply (step_begin _ ex_reader 300); [by intros ? ?%elem_of_nil|done|reflexivity]. }
  apply rtc_refl.
Qed.

(** Two validations at once: transaction 3 writes row 1, transaction 4 reads row 2
    and writes row 3. *)
Definition ex_s3 : snapshot := mkSnap 10 20 [] [] (mkSet 0 3%nat []) (mkSet 0 3%nat [1%nat]).
Definition ex_s4 : snapshot :=
  mkSnap 11 21 [mkSet 0 3%nat [1%nat]] [] (mkSet 0 4%nat [2%nat]) (mkSet 0 4%nat [3%nat]).
Definition ex_both : osys :=
  mkOS (mkOcc 0 0 2 [mkSet 0 4%nat [3%nat]; mkSet 0 3%nat [1%nat]] []) [] [ex_s4; ex_s3] [ex_s4; ex_s3].

Lemma ex_both_reach : rtc step ostart ex_both.
Proof.
  eapply rtc_l.
  { eapply (step_begin _ (mkOccTxn 3%nat 10 [(WR, 1%nat)] 1 0) 20);
      [by intros ? ?%elem_of_nil|done|reflexivity]. }
  eapply rtc_l.
  { eapply (step_begin _ (mkOccTxn 4%nat 11 [(RD, 2%nat); (WR, 3%nat)] 1 1) 21);
      [by intros ? ->%list_elem_of_singleton|done|reflexivity]. }
  eapply rtc_l; [apply (step_end _ ex_s3 RCOK); [by right; left|reflexivity]|].
  eapply rtc_l; [apply (step_end _ ex_s4 RCOK); [by left|reflexivity]|].
  apply rtc_refl.
Qed.

Lemma occ_accepted_compatible_witness :
  disjoint_rows (sn_wset ex_s4) (sn_wset ex_s3) ∧
  (began_after ex_both ex_s4 ex_s3 ∧ disjoint_rows (sn_wset ex_s3) (sn_rset ex_s4) ∨
   began_after ex_both ex_s3 ex_s4 ∧ disjoint_rows (sn_wset ex_s4) (sn_rset ex_s3)).
Proof.
  apply (occ_accepted_compatible ex_both).
  - exact ex_both_reach.
  - by left.
  - by right; left.
  - done.
Defined.

Lemma occ_validate_exact_witness :
  validate_check ex_snap1 = true ↔
  (∀ h, h ∈ sn_his ex_snap1 → 100 < se_tn h ≤ 300 → disjoint_rows h (sn_rset ex_snap1)) ∧
  (∀ e, e ∈ sn_active ex_snap1 →
     disjoint_rows e (sn_rset ex_snap1) ∧ disjoint_rows e (sn_wset ex_snap1)).
Proof.
  apply (occ_validate_exact ex_stale); [exact ex_stale_reach|by left|done].
Defined.

(** Transaction 1 is accepted although transaction 2 has overwritten the row it
    read after it started. *)
Lemma occ_history_not_consulted_witness :
  validate_check ex_snap1 = check_active (sn_rset ex_snap1) (sn_wset ex_snap1) [] ∧
  validate_check ex_snap1 = true ∧ ¬ disjoint_rows (mkSet 1 2%nat [7%nat]) (sn_rset ex_snap1).
Proof.
  split; [|split; [done|]].
  - apply (occ_history_not_consulted ex_stale); [exact ex_stale_reach|by left|done].
  - intros Hd. apply (Hd 7%nat); by left.
Defined.

End Occ.
