(* ===== verification/RowTs.v ===== *)
(** * Row_ts: basic timestamp ordering on one row

    Model of [class Row_ts] (concurrency_control/row_ts.h, row_ts.cpp).  The three
    request lists are stacks, head first.  Reads and writes copy contents, so the
    state has contents and no row pointers.  The latch makes a call one atomic
    step; the [while (true)] of [update_buffer] runs on fuel, one unit more than
    there are buffered writes, which [ts_update_buffer_inv] shows to be enough. *)

From S2P Require Import Prelude.

Module RowTs.
Section ts.

Context {V : Type}.
(** [TS_TWR], the Thomas write rule. *)
Context (twr : bool).

Definition txn_ptr := nat.

Record TsReqEntry := mkReq { rq_txn : txn_ptr; rq_row : option V; rq_ts : Z }.

Record Row_ts := mkTs {
  t_row : V;
  wts : Z; rts : Z;
  min_wts : Z; min_rts : Z; min_pts : Z;
  readreq : list TsReqEntry;
  writereq : list TsReqEntry;
  prereq : list TsReqEntry;
  preq_len : Z }.

(** What happens to the row: a read with the content copied out, a write with the
    content copied in. *)
Inductive event := ERead (t : txn_ptr) (ts : Z) (v : V) | EWrite (ts : Z) (v : V).

(** The row, the [ts_ready] flags, the events (newest first) and the transactions
    passed to [restart_txn]. *)
Record state := mkSt {
  rw : Row_ts;
  ts_ready : txn_ptr → bool;
  log : list event;
  restarts : list txn_ptr }.

(** ** Operations *)

Definition init (v : V) : Row_ts :=
  mkTs v 0 0 UINT64_MAX UINT64_MAX UINT64_MAX [] [] [] 0.

Definition buffer_req (type : TsType) (t : txn_ptr) (ts : Z) (row : option V) (r : Row_ts)
    : option Row_ts :=
  let e := mkReq t row ts in
  match type with
  | R_REQ => Some (mkTs (t_row r) (wts r) (rts r) (min_wts r)
               (if ts <? min_rts r then ts else min_rts r) (min_pts r)
               (e :: readreq r) (writereq r) (prereq r) (preq_len r))
  | W_REQ => ASSERT bool_decide (is_Some row);
             Some (mkTs (t_row r) (wts r) (rts r)
               (if ts <? min_wts r then ts else min_wts r) (min_rts r) (min_pts r)
               (readreq r) (e :: writereq r) (prereq r) (preq_len r))
  | P_REQ => Some (mkTs (t_row r) (wts r) (rts r) (min_wts r) (min_rts r)
               (if ts <? min_pts r then ts else min_pts r)
               (readreq r) (writereq r) (e :: prereq r) (wrap64 (preq_len r + 1)))
  | XP_REQ => Some r
  end.

(** [debuffer_req(P_REQ, txn)]. *)
Definition debuffer_pre (t : txn_ptr) (r : Row_ts) : option Row_ts :=
  '(_, rest) ← remove_first (λ q, bool_decide (rq_txn q = t)) (prereq r);
  Some (mkTs (t_row r) (wts r) (rts r) (min_wts r) (min_rts r) (min_pts r)
          (readreq r) (writereq r) rest (wrap64 (preq_len r - 1))).

(** The loop of [debuffer_req(type, NULL, ts)]. *)
Fixpoint debuffer_loop (bound : Z) (reqs ret : list TsReqEntry)
    : list TsReqEntry * list TsReqEntry :=
  match reqs with
  | [] => ([], ret)
  | req :: reqs' =>
      if rq_ts req <=? bound then debuffer_loop bound reqs' (req :: ret)
      else let '(keep, out) := debuffer_loop bound reqs' ret in (req :: keep, out)
  end.

Definition debuffer_reads (ts : Z) (r : Row_ts) : list TsReqEntry * Row_ts :=
  let '(keep, out) := debuffer_loop ts (readreq r) [] in
  (out, mkTs (t_row r) (wts r) (rts r) (min_wts r) (min_rts r) (min_pts r)
          keep (writereq r) (prereq r) (preq_len r)).

Definition debuffer_writes (ts : Z) (r : Row_ts) : list TsReqEntry * Row_ts :=
  let '(keep, out) := debuffer_loop ts (writereq r) [] in
  (out, mkTs (t_row r) (wts r) (rts r) (min_wts r) (min_rts r) (min_pts r)
          (readreq r) keep (prereq r) (preq_len r)).

(** [cal_min] *)
Fixpoint cal_min (queue : list TsReqEntry) (acc : Z) : Z :=
  match queue with
  | [] => acc
  | req :: queue' => cal_min queue' (if rq_ts req <? acc then rq_ts req else acc)
  end.

Definition set_min_pts (m : Z) (r : Row_ts) : Row_ts :=
  mkTs (t_row r) (wts r) (rts r) (min_wts r) (min_rts r) m
    (readreq r) (writereq r) (prereq r) (preq_len r).
Definition set_min_rts (m : Z) (r : Row_ts) : Row_ts :=
  mkTs (t_row r) (wts r) (rts r) (min_wts r) m (min_pts r)
    (readreq r) (writereq r) (prereq r) (preq_len r).

(** [cur_row->copy(_row)] and the read timestamp. *)
Definition do_read (t : txn_ptr) (ts : Z) (s : state) : state :=
  let r := rw s in
  mkSt (mkTs (t_row r) (wts r) (if rts r <? ts then ts else rts r) (min_wts r) (min_rts r)
          (min_pts r) (readreq r) (writereq r) (prereq r) (preq_len r))
    (ts_ready s) (ERead t ts (t_row r) :: log s) (restarts s).

(** [_row->copy(row)] and the write timestamp. *)
Definition do_write (ts : Z) (v : V) (s : state) : state :=
  let r := rw s in
  mkSt (mkTs v (if wts r <? ts then ts else wts r) (rts r) (min_wts r) (min_rts r)
          (min_pts r) (readreq r) (writereq r) (prereq r) (preq_len r))
    (ts_ready s) (EWrite ts v :: log s) (restarts s).

Definition with_row (r : Row_ts) (s : state) : state :=
  mkSt r (ts_ready s) (log s) (restarts s).

Fixpoint serve_reads (reqs : list TsReqEntry) (s : state) : state :=
  match reqs with
  | [] => s
  | q :: reqs' =>
      let s := do_read (rq_txn q) (rq_ts q) s in
      serve_reads reqs'
        (mkSt (rw s) (<[rq_txn q := true]> (ts_ready s)) (log s) (restarts s ++ [rq_txn q]))
  end.

(** The loop over the ready writes: their prewrites leave, and the request with
    the smallest timestamp is remembered. *)
Fixpoint take_writes (reqs : list TsReqEntry) (young_ts : Z) (young : option TsReqEntry)
    (r : Row_ts) : option (option TsReqEntry * Row_ts) :=
  match reqs with
  | [] => Some (young, r)
  | q :: reqs' =>
      r' ← debuffer_pre (rq_txn q) r;
      if rq_ts q <? young_ts then take_writes reqs' (rq_ts q) (Some q) r'
      else take_writes reqs' young_ts young r'
  end.

Fixpoint update_buffer (fuel : nat) (s : state) : option state :=
  match fuel with
  | O => None
  | S fuel' =>
      let r := rw s in
      let new_min_pts := cal_min (prereq r) UINT64_MAX in
      ASSERT min_pts r <=? new_min_pts;
      if min_pts r <? new_min_pts then
        let '(ready_read, r1) := debuffer_reads new_min_pts (set_min_pts new_min_pts r) in
        if bool_decide (ready_read = []) then Some (with_row r1 s)
        else
          let s := serve_reads ready_read (with_row r1 s) in
          let new_min_rts := cal_min (readreq (rw s)) UINT64_MAX in
          if min_rts (rw s) <? new_min_rts then
            let '(ready_write, r2) := debuffer_writes new_min_rts (set_min_rts new_min_rts (rw s)) in
            if bool_decide (ready_write = []) then Some (with_row r2 s)
            else
              '(young, r3) ← take_writes ready_write UINT64_MAX None r2;
              q ← young;
              v ← rq_row q;
              update_buffer fuel' (do_write (rq_ts q) v (with_row r3 s))
          else Some s
      else Some s
  end.

Definition update_buffer_all (s : state) : option state :=
  update_buffer (S (length (writereq (rw s)))) s.

(** [access]; [row] is the content to write and [cur] the content of
    [txn->cur_row], which one branch writes instead.  [rc] is not assigned when a
    prewrite is cancelled: [rc0] is the indeterminate value returned then. *)
Definition access (rc0 : RC) (t : txn_ptr) (ts : Z) (type : TsType) (row cur : V) (s : state)
    : option (RC * state) :=
  let r := rw s in
  match type with
  | R_REQ =>
      if ts <? wts r then Some (Abort, s)
      else if min_pts r <? ts then
        r' ← buffer_req R_REQ t ts None r;
        Some (WAIT, mkSt r' (<[t := false]> (ts_ready s)) (log s) (restarts s))
      else Some (RCOK, do_read t ts s)
  | P_REQ =>
      if ts <? rts r then Some (Abort, s)
      else if negb twr && (ts <? wts r) then Some (Abort, s)
      else r' ← buffer_req P_REQ t ts None r; Some (RCOK, with_row r' s)
  | W_REQ =>
      if twr && (ts <? wts r) then
        r' ← debuffer_pre t r;
        s' ← update_buffer_all (with_row r' s);
        Some (RCOK, s')
      else if negb twr && (min_pts r <? ts) then
        r' ← buffer_req W_REQ t ts (Some row) r; Some (RCOK, with_row r' s)
      else if min_rts r <? ts then
        r' ← buffer_req W_REQ t ts (Some cur) r; Some (RCOK, with_row r' s)
      else
        let s := do_write ts row s in
        r' ← debuffer_pre t (rw s);
        s' ← update_buffer_all (with_row r' s);
        Some (RCOK, s')
  | XP_REQ =>
      r' ← debuffer_pre t r;
      s' ← update_buffer_all (with_row r' s);
      Some (rc0, s')
  end.

(** ** The row in its environment *)

(** What the callers guarantee: a transaction prewrites once, writes or cancels
    what it has prewritten, and never after its write was accepted. *)
Definition enabled (s : state) (t : txn_ptr) (ts : Z) (type : TsType) : Prop :=
  0 ≤ ts < UINT64_MAX ∧
  match type with
  | R_REQ => True
  | P_REQ => t ∉ (rq_txn <$> prereq (rw s))
  | W_REQ | XP_REQ =>
      (∃ q, q ∈ prereq (rw s) ∧ rq_txn q = t ∧ rq_ts q = ts) ∧
      t ∉ (rq_txn <$> writereq (rw s))
  end.

Inductive step (s : state) : state → Prop :=
  | step_access rc0 t ts type row cur rc s' :
      enabled s t ts type → access rc0 t ts type row cur s = Some (rc, s') → step s s'.

Definition start (v : V) : state := mkSt (init v) (λ _, true) [] [].

(** The callers do more: a row is prewritten and then read, and written only after
    this read was served ([row_t::get_row] asks for both, and a transaction writes
    back what it got). *)
Definition has_read (s : state) (t : txn_ptr) (ts : Z) : Prop := ∃ u, ERead t ts u ∈ log s.

Inductive caller_step (s : state) : state → Prop :=
  | step_caller rc0 t ts type row cur rc s' :
      enabled s t ts type → (type = W_REQ → has_read s t ts) →
      access rc0 t ts type row cur s = Some (rc, s') → caller_step s s'.

(** Then no write is ever buffered, and the minima are exact. *)
Record tidy (s : state) : Prop := {
  td_w : writereq (rw s) = [];
  td_rts : rts (rw s) ≤ min_pts (rw s);
  td_min : min_rts (rw s) = cal_min (readreq (rw s)) UINT64_MAX;
  td_rd : ∀ q, q ∈ readreq (rw s) → min_pts (rw s) < rq_ts q;
  td_pre : twr = false → ∀ q, q ∈ prereq (rw s) → wts (rw s) ≤ rq_ts q }.

(** [a] happened after [b]: a write after a read is not older than the read, and a
    read after a write is not older than the write. *)
Definition after_ok (a b : event) : Prop :=
  match a, b with
  | EWrite w _, ERead _ r _ => r ≤ w
  | ERead _ r _, EWrite w _ => w ≤ r
  | _, _ => True
  end.

Record inv (s : state) : Prop := {
  k_min_p : min_pts (rw s) ≤ cal_min (prereq (rw s)) UINT64_MAX;
  k_min_r : ∀ q, q ∈ readreq (rw s) → min_rts (rw s) ≤ rq_ts q;
  k_ts : ∀ q, q ∈ writereq (rw s) → rq_ts q < UINT64_MAX;
  k_np : NoDup (rq_txn <$> prereq (rw s));
  k_nw : NoDup (rq_txn <$> writereq (rw s));
  k_w : ∀ w, w ∈ writereq (rw s) → is_Some (rq_row w) ∧
    ∃ p, p ∈ prereq (rw s) ∧ rq_txn p = rq_txn w ∧ rq_ts p = rq_ts w;
  k_rd : ∀ q, q ∈ readreq (rw s) → wts (rw s) ≤ rq_ts q;
  k_log : StronglySorted after_ok (log s);
  k_wts : ∀ w v, EWrite w v ∈ log s → w ≤ wts (rw s);
  k_rts : ∀ t r v, ERead t r v ∈ log s → r ≤ rts (rw s);
  k_pend : ∀ p t r v, p ∈ prereq (rw s) → ERead t r v ∈ log s → r ≤ rq_ts p }.

(** The content of the row after the events of a log. *)
Fixpoint content (v : V) (l : list event) : V :=
  match l with
  | [] => v
  | EWrite _ u :: _ => u
  | ERead _ _ _ :: l' => content v l'
  end.

(** Every read returned the content of the moment. *)
Fixpoint reads_ok (v : V) (l : list event) : Prop :=
  match l with
  | [] => True
  | ERead _ _ u :: l' => u = content v l' ∧ reads_ok v l'
  | EWrite _ _ :: l' => reads_ok v l'
  end.

Definition values_ok (v : V) (s : state) : Prop :=
  t_row (rw s) = content v (log s) ∧ reads_ok v (log s).

(** ** Lemmas *)

Lemma cal_min_spec l acc :
  cal_min l acc ≤ acc ∧ (∀ q, q ∈ l → cal_min l acc ≤ rq_ts q) ∧
  ∀ m, m ≤ acc → (∀ q, q ∈ l → m ≤ rq_ts q) → m ≤ cal_min l acc.
Proof.
  revert acc. induction l as [|q l IH]; intros acc; simpl.
  { split_and!; [lia|by intros ? ?%elem_of_nil|done]. }
  destruct (IH (if rq_ts q <? acc then rq_ts q else acc)) as (H1&H2&H3).
  destruct (Z.ltb_spec (rq_ts q) acc); (split_and!; [lia|..]).
  - intros q' [->|Hq]%elem_of_cons; [lia|auto].
  - intros m Hm Hall. apply H3; [apply Hall; by left|]. intros; apply Hall; by right.
  - intros q' [->|Hq]%elem_of_cons; [lia|auto].
  - intros m Hm Hall. apply H3; [done|]. intros; apply Hall; by right.
Qed.

Lemma cal_min_sub l l' acc :
  (∀ q, q ∈ l' → q ∈ l) → cal_min l acc ≤ cal_min l' acc.
Proof.
  intros Hs. destruct (cal_min_spec l acc) as (H1&H2&_).
  destruct (cal_min_spec l' acc) as (_&_&H3). apply H3; auto.
Qed.

Lemma ts_debuffer_loop_spec bound reqs ret keep out :
  debuffer_loop bound reqs ret = (keep, out) →
  keep `sublist_of` reqs ∧ keep ++ out ≡ₚ reqs ++ ret ∧
  (∀ q, q ∈ out → q ∈ ret ∨ (q ∈ reqs ∧ rq_ts q ≤ bound)).
Proof.
  revert ret keep out. induction reqs as [|q reqs IH]; intros ret keep out; simpl.
  { intros [= <- <-]. split_and!; auto. }
  destruct (Z.leb_spec (rq_ts q) bound).
  - intros E. destruct (IH _ _ _ E) as (H1&H2&H3). split_and!.
    + by apply sublist_cons.
    + rewrite H2. by rewrite <-Permutation_middle.
    + intros q' Hq'. destruct (H3 q' Hq') as [[->|?]%elem_of_cons|[? ?]]; auto.
      * right. split; [by left|done].
      * right. split; [by right|done].
  - destruct (debuffer_loop bound reqs ret) as [k o] eqn:E. intros [= <- <-].
    destruct (IH _ _ _ E) as (H1&H2&H3). split_and!.
    + by apply sublist_skip.
    + simpl. by rewrite H2.
    + intros q' Hq'. destruct (H3 q' Hq') as [|[? ?]]; auto. right. split; [by right|done].
Qed.

Lemma ts_debuffer_pre_spec t r :
  NoDup (rq_txn <$> prereq r) → t ∈ (rq_txn <$> prereq r) →
  ∃ rest n, debuffer_pre t r = Some (mkTs (t_row r) (wts r) (rts r) (min_wts r) (min_rts r)
      (min_pts r) (readreq r) (writereq r) rest n) ∧
    rest `sublist_of` prereq r ∧ (∀ q, q ∈ prereq r → rq_txn q ≠ t → q ∈ rest) ∧
    t ∉ (rq_txn <$> rest).
Proof.
  intros Hd (q&->&Hq)%list_elem_of_fmap. unfold debuffer_pre.
  destruct (remove_first_Some (λ e, bool_decide (rq_txn e = rq_txn q)) _ q Hq) as [[e rest] E].
  { by apply bool_decide_eq_true. }
  rewrite E. simpl. destruct (remove_first_perm _ _ _ _ E) as [Hp He%bool_decide_eq_true].
  eexists rest, _. split; [done|]. split; [by eapply remove_first_sublist|]. split.
  - intros q' Hq' Hne. rewrite Hp in Hq'. apply elem_of_cons in Hq' as [->|]; done.
  - rewrite Hp in Hd. apply NoDup_cons in Hd as [Hd _]. by rewrite <-He.
Qed.

Lemma read_inv t ts s :
  inv s → wts (rw s) ≤ ts → (∀ p, p ∈ prereq (rw s) → ts ≤ rq_ts p) → inv (do_read t ts s).
Proof.
  intros [] Hw Hp. split; simpl; auto.
  - constructor; [done|]. apply Forall_forall. intros [t' r v|w v] He; simpl; [done|].
    specialize (k_wts0 w v He). lia.
  - intros w v [?|?]%elem_of_cons; [done|eauto].
  - intros t' r v [[= -> -> ->]|He]%elem_of_cons; destruct (Z.ltb_spec (rts (rw s)) ts); try lia;
      specialize (k_rts0 t' r v He); lia.
  - intros p t' r v Hin [[= -> -> ->]|He]%elem_of_cons; eauto.
Qed.

(** The log and the flags of the transactions do not matter otherwise. *)
Lemma ts_serve_reads_inv reqs s :
  inv s → (∀ q, q ∈ reqs → wts (rw s) ≤ rq_ts q ∧ ∀ p, p ∈ prereq (rw s) → rq_ts q ≤ rq_ts p) →
  let s' := serve_reads reqs s in
  inv s' ∧ readreq (rw s') = readreq (rw s) ∧ prereq (rw s') = prereq (rw s) ∧
  writereq (rw s') = writereq (rw s) ∧ wts (rw s') = wts (rw s) ∧ min_rts (rw s') = min_rts (rw s).
Proof.
  revert s. induction reqs as [|q reqs IH]; intros s Hi Hq; [by split_and!|]. simpl.
  destruct (Hq q) as [H1 H2]; [by left|].
  assert (inv (mkSt (rw (do_read (rq_txn q) (rq_ts q) s)) (<[rq_txn q := true]> (ts_ready s))
    (log (do_read (rq_txn q) (rq_ts q) s)) (restarts s ++ [rq_txn q]))) as Hi'.
  { by destruct (read_inv (rq_txn q) (rq_ts q) s Hi H1 H2). }
  apply (IH _ Hi'). intros q' Hq'. simpl. apply Hq. by right.
Qed.

Lemma take_writes_spec reqs y yts r :
  NoDup (rq_txn <$> prereq r) → NoDup (rq_txn <$> reqs) →
  (∀ q, q ∈ reqs → rq_txn q ∈ (rq_txn <$> prereq r)) →
  ∃ y' rest n, take_writes reqs yts y r = Some (y', mkTs (t_row r) (wts r) (rts r) (min_wts r)
      (min_rts r) (min_pts r) (readreq r) (writereq r) rest n) ∧
    rest `sublist_of` prereq r ∧
    (∀ q, q ∈ prereq r → rq_txn q ∉ (rq_txn <$> reqs) → q ∈ rest) ∧
    (y' = y ∧ Forall (λ q, yts ≤ rq_ts q) reqs ∨ ∃ q, y' = Some q ∧ q ∈ reqs).
Proof.
  revert y yts r. induction reqs as [|q reqs IH]; intros y yts r Hp Hd Hin; simpl.
  { exists y, (prereq r), (preq_len r). split; [by destruct r|]. auto. }
  apply NoDup_cons in Hd as [Hn Hd].
  destruct (ts_debuffer_pre_spec (rq_txn q) r Hp) as (rest&n&->&Hsub&Hkeep&Hgone);
    [apply Hin; by left|]. cbn [mbind option_bind].
  set (r1 := mkTs _ _ _ _ _ _ _ _ rest n).
  assert (NoDup (rq_txn <$> prereq r1)) as Hp1.
  { eapply sublist_NoDup; [exact Hp|by apply fmap_sublist]. }
  assert (∀ q', q' ∈ reqs → rq_txn q' ∈ (rq_txn <$> prereq r1)) as Hin1.
  { intros q' Hq'.
    assert (rq_txn q' ∈ (rq_txn <$> prereq r)) as (p&E&Hpr)%list_elem_of_fmap by (apply Hin; by right).
    apply list_elem_of_fmap. exists p. split; [done|]. apply Hkeep; [done|].
    rewrite <-E. intros E'. apply Hn, list_elem_of_fmap. by exists q'. }
  assert (∀ z zts, ∃ y' rest' n', take_writes reqs zts z r1 = Some (y', mkTs (t_row r) (wts r)
      (rts r) (min_wts r) (min_rts r) (min_pts r) (readreq r) (writereq r) rest' n') ∧
    rest' `sublist_of` prereq r ∧
    (∀ q', q' ∈ prereq r → rq_txn q' ∉ (rq_txn <$> q :: reqs) → q' ∈ rest') ∧
    (y' = z ∧ Forall (λ q, zts ≤ rq_ts q) reqs ∨ ∃ q', y' = Some q' ∧ q' ∈ reqs)) as HI.
  { intros z zts. destruct (IH z zts r1 Hp1 Hd Hin1) as (y'&rest'&n'&E&Hs&Hk&Hy).
    exists y', rest', n'. split_and!; [done| |intros q' Hq'|done].
    - by etrans.
    - simpl. rewrite not_elem_of_cons. intros [H1 H2]. apply Hk; [|done]. by apply Hkeep. }
  destruct (Z.ltb_spec (rq_ts q) yts).
  - destruct (HI (Some q) (rq_ts q)) as (y'&rest'&n'&E&?&?&Hy).
    exists y', rest', n'. split_and!; try done. right.
    destruct Hy as [[-> _]|(q'&->&?)]; [exists q; split; [done|by left]|].
    exists q'. split; [done|by right].
  - destruct (HI y yts) as (y'&rest'&n'&E&?&?&Hy).
    exists y', rest', n'. split_and!; try done.
    destruct Hy as [[-> Hf]|(q'&->&?)]; [left; split; [done|by constructor]|right].
    exists q'. split; [done|by right].
Qed.

(** Requests may leave, and the minima may rise to what is left. *)
Lemma shrink_inv s rr wr pr n mp mr :
  inv s → let r := rw s in
  (∀ q, q ∈ rr → q ∈ readreq r) → wr `sublist_of` writereq r → pr `sublist_of` prereq r →
  mp ≤ cal_min pr UINT64_MAX → (∀ q, q ∈ rr → mr ≤ rq_ts q) →
  (∀ w, w ∈ wr → ∀ p, p ∈ prereq r → rq_txn p = rq_txn w → p ∈ pr) →
  inv (with_row (mkTs (t_row r) (wts r) (rts r) (min_wts r) mr mp rr wr pr n) s).
Proof.
  intros [] r Hr Hw Hp Hmp Hmr Hpw. split; simpl; auto.
  - intros q Hq. apply k_ts0. by eapply elem_of_sublist.
  - eapply sublist_NoDup; [exact k_np0|by apply fmap_sublist].
  - eapply sublist_NoDup; [exact k_nw0|by apply fmap_sublist].
  - intros w Hw'. destruct (k_w0 w) as (?&p&?&?&?); [by eapply elem_of_sublist|].
    split; [done|]. exists p. split_and!; [|done..]. by eapply Hpw.
  - intros p t ts v Hp' He. apply (k_pend0 p t ts v); [|done]. by eapply elem_of_sublist.
Qed.

Lemma write_inv ts v s :
  inv s → (∀ q, q ∈ readreq (rw s) → ts ≤ rq_ts q) →
  (∀ t r u, ERead t r u ∈ log s → r ≤ ts) → inv (do_write ts v s).
Proof.
  intros [] Hr Hl. split; simpl; auto.
  - intros q Hq. specialize (k_rd0 q Hq). specialize (Hr q Hq).
    destruct (Z.ltb_spec (wts (rw s)) ts); lia.
  - constructor; [done|]. apply Forall_forall. intros [t r u|w u] He; simpl; [by eapply Hl|done].
  - intros w u [[= -> ->]|He]%elem_of_cons; destruct (Z.ltb_spec (wts (rw s)) ts); try lia;
      specialize (k_wts0 w u He); lia.
  - intros t r u [?|?]%elem_of_cons; [done|eauto].
  - intros p t r u Hp [?|?]%elem_of_cons; [done|eauto].
Qed.

(** One round of the loop after the reads were served: the ready writes. *)
Lemma write_round s out keep m :
  inv s → debuffer_loop m (writereq (rw s)) [] = (keep, out) → out ≠ [] →
  (∀ q, q ∈ readreq (rw s) → m ≤ rq_ts q) →
  ∃ y r3 q v,
    take_writes out UINT64_MAX None (mkTs (t_row (rw s)) (wts (rw s)) (rts (rw s))
      (min_wts (rw s)) m (min_pts (rw s)) (readreq (rw s)) keep (prereq (rw s))
      (preq_len (rw s))) = Some (y, r3) ∧ y = Some q ∧ rq_row q = Some v ∧
    inv (do_write (rq_ts q) v (with_row r3 s)) ∧ writereq r3 = keep ∧
    (length keep < length (writereq (rw s)))%nat.
Proof.
  intros Hi E Hne Hm. destruct (ts_debuffer_loop_spec _ _ _ _ _ E) as (Hsub&Hperm&Hout).
  rewrite app_nil_r in Hperm. set (r2 := mkTs _ _ _ _ m _ _ keep _ _).
  assert (∀ q, q ∈ out → q ∈ writereq (rw s) ∧ rq_ts q ≤ m) as Hout'.
  { intros q Hq. destruct (Hout q Hq) as [?%elem_of_nil|]; done. }
  assert (NoDup (rq_txn <$> keep ++ out)) as Hnd by (rewrite Hperm; apply Hi).
  rewrite fmap_app in Hnd. apply NoDup_app in Hnd as (_&Hdis&Hnd).
  destruct (take_writes_spec out None UINT64_MAX r2) as (y&rest&n&->&Hs&Hk&Hy);
    [apply Hi|done| |].
  { intros q Hq. destruct (Hout' q Hq) as [Hw _]. destruct (k_w _ Hi q Hw) as (_&p&?&E'&_).
    apply list_elem_of_fmap. by exists p. }
  assert (∃ q, y = Some q ∧ q ∈ out) as (q&->&Hq).
  { destruct Hy as [[-> Hf]|]; [|done]. destruct out as [|q out]; [done|].
    apply Forall_cons in Hf as [Hf _]. destruct (Hout' q) as [Hq _]; [by left|].
    pose proof (k_ts _ Hi q Hq). lia. }
  destruct (Hout' q Hq) as [Hqw Hqm]. destruct (k_w _ Hi q Hqw) as ([v Hv]&p&Hp&Ept&Epts).
  eexists (Some q), _, q, v. split; [reflexivity|]. split_and!; [done|done| |done|].
  - apply write_inv; simpl.
    + apply (shrink_inv s (readreq (rw s)) keep rest n (min_pts (rw s)) m); auto.
      * etrans; [apply (k_min_p _ Hi)|]. apply cal_min_sub. intros; by eapply elem_of_sublist.
      * intros w Hw p' Hp' Et. apply Hk; [done|]. rewrite Et. intros Hin.
        apply (Hdis (rq_txn w)); [|done]. apply list_elem_of_fmap. eauto.
    + intros q' Hq'. specialize (Hm q' Hq'). lia.
    + intros t r u He. rewrite <-Epts. by eapply (k_pend _ Hi).
  - assert (length (writereq (rw s)) = length keep + length out)%nat as ->.
    { by rewrite <-Hperm, length_app. }
    destruct out; [done|simpl; lia].
Qed.

Lemma ts_update_buffer_inv fuel s :
  inv s → (length (writereq (rw s)) < fuel)%nat →
  ∃ s', update_buffer fuel s = Some s' ∧ inv s'.
Proof.
  revert s. induction fuel as [|fuel IH]; intros s Hi Hf; [lia|]. cbn [update_buffer].
  rewrite assert_bind_true by (apply Z.leb_le, Hi).
  set (nm := cal_min (prereq (rw s)) UINT64_MAX).
  destruct (Z.ltb_spec (min_pts (rw s)) nm); [|eauto]. unfold debuffer_reads. simpl.
  destruct (debuffer_loop nm (readreq (rw s)) []) as [keep out] eqn:E.
  destruct (ts_debuffer_loop_spec _ _ _ _ _ E) as (Hsub&_&Hout).
  set (s1 := with_row (mkTs _ _ _ _ _ nm keep _ _ _) s).
  assert (inv s1) as Hi1.
  { apply shrink_inv; auto.
    - intros; by eapply elem_of_sublist.
    - apply Z.le_refl.
    - intros q Hq. apply (k_min_r _ Hi). by eapply elem_of_sublist. }
  case_bool_decide; [eauto|].
  destruct (ts_serve_reads_inv out s1 Hi1) as (Hi2&E1&E2&E3&E4&E5).
  { intros q Hq. destruct (Hout q Hq) as [?%elem_of_nil|[Hr Hle]]; [done|]. simpl.
    split; [by apply (k_rd _ Hi)|]. intros p Hp.
    destruct (cal_min_spec (prereq (rw s)) UINT64_MAX) as (_&Hm&_). specialize (Hm p Hp).
    fold nm in Hm. lia. }
  set (s2 := serve_reads out s1) in *.
  destruct (Z.ltb_spec (min_rts (rw s2)) (cal_min (readreq (rw s2)) UINT64_MAX)); [|eauto].
  set (m := cal_min (readreq (rw s2)) UINT64_MAX) in *.
  destruct (cal_min_spec (readreq (rw s2)) UINT64_MAX) as (_&Hm&_). fold m in Hm.
  unfold debuffer_writes. simpl.
  destruct (debuffer_loop m (writereq (rw s2)) []) as [wk wo] eqn:Ew. case_bool_decide as Hwo.
  - eexists. split; [reflexivity|].
    destruct (ts_debuffer_loop_spec _ _ _ _ _ Ew) as (Hws&_).
    apply (shrink_inv s2 (readreq (rw s2)) wk (prereq (rw s2))); auto. apply Hi2.
  - destruct (write_round s2 wo wk m Hi2 Ew Hwo Hm) as (y&r3&q&v&->&->&Hv&Hi3&Hk&Hlt).
    cbn [mbind option_bind]. rewrite Hv. simpl. apply IH; [done|]. simpl. rewrite Hk.
    rewrite E3 in Hlt. simpl in Hlt. lia.
Qed.

(** The prewrite of a transaction without a buffered write leaves, and the buffers
    are updated. *)
Lemma debuffer_pre_inv s t ts :
  inv s → (∃ q, q ∈ prereq (rw s) ∧ rq_txn q = t ∧ rq_ts q = ts) →
  t ∉ (rq_txn <$> writereq (rw s)) →
  ∃ rest n, let r' := mkTs (t_row (rw s)) (wts (rw s)) (rts (rw s)) (min_wts (rw s))
      (min_rts (rw s)) (min_pts (rw s)) (readreq (rw s)) (writereq (rw s)) rest n in
    debuffer_pre t (rw s) = Some r' ∧ inv (with_row r' s) ∧ rest `sublist_of` prereq (rw s).
Proof.
  intros Hi (q&Hq&<-&_) Hw.
  destruct (ts_debuffer_pre_spec (rq_txn q) (rw s)) as (rest&n&->&Hs&Hk&_);
    [apply Hi|apply list_elem_of_fmap; eauto|].
  exists rest, n. split_and!; [done| |done]. apply shrink_inv; auto.
  - etrans; [apply (k_min_p _ Hi)|]. apply cal_min_sub. intros; by eapply elem_of_sublist.
  - apply Hi.
  - intros w Hw' p Hp Ep. apply Hk; [done|]. rewrite Ep. intros Et. apply Hw.
    rewrite <-Et. apply list_elem_of_fmap; eauto.
Qed.

Lemma retire_inv s t ts :
  inv s → (∃ q, q ∈ prereq (rw s) ∧ rq_txn q = t ∧ rq_ts q = ts) →
  t ∉ (rq_txn <$> writereq (rw s)) →
  ∃ r' s', debuffer_pre t (rw s) = Some r' ∧ update_buffer_all (with_row r' s) = Some s' ∧ inv s'.
Proof.
  intros Hi Hq Hw. destruct (debuffer_pre_inv s t ts Hi Hq Hw) as (rest&n&->&Hi1&_).
  destruct (ts_update_buffer_inv (S (length (writereq (rw s)))) _ Hi1) as (s'&E&Hi');
    [simpl; lia|eauto].
Qed.

Lemma prewrite_inv s t ts n :
  inv s → t ∉ (rq_txn <$> prereq (rw s)) → rts (rw s) ≤ ts →
  inv (with_row (mkTs (t_row (rw s)) (wts (rw s)) (rts (rw s)) (min_wts (rw s)) (min_rts (rw s))
    (if ts <? min_pts (rw s) then ts else min_pts (rw s)) (readreq (rw s)) (writereq (rw s))
    (mkReq t None ts :: prereq (rw s)) n) s).
Proof.
  intros [] Hn Hr. split; simpl; auto.
  - destruct (cal_min_spec (prereq (rw s)) UINT64_MAX) as (H1&H2&_).
    destruct (cal_min_spec (prereq (rw s)) (if ts <? UINT64_MAX then ts else UINT64_MAX))
      as (_&_&H3).
    apply H3; [destruct (Z.ltb_spec ts UINT64_MAX), (Z.ltb_spec ts (min_pts (rw s))); lia|].
    intros q Hq. specialize (H2 q Hq). destruct (Z.ltb_spec ts (min_pts (rw s))); lia.
  - by constructor.
  - intros w Hw. destruct (k_w0 w Hw) as (?&p&?&?). split; [done|]. exists p. split; [by right|done].
  - intros p t' r v [->|Hp]%elem_of_cons He; [|by eapply k_pend0].
    specialize (k_rts0 _ _ _ He). simpl. lia.
Qed.

Lemma wait_inv s t ts f :
  inv s → wts (rw s) ≤ ts →
  inv (mkSt (mkTs (t_row (rw s)) (wts (rw s)) (rts (rw s)) (min_wts (rw s))
    (if ts <? min_rts (rw s) then ts else min_rts (rw s)) (min_pts (rw s))
    (mkReq t None ts :: readreq (rw s)) (writereq (rw s)) (prereq (rw s)) (preq_len (rw s)))
    f (log s) (restarts s)).
Proof.
  intros [] Hw. split; simpl; auto.
  - intros q [->|Hq]%elem_of_cons; simpl; destruct (Z.ltb_spec ts (min_rts (rw s))); try lia;
      specialize (k_min_r0 _ Hq); lia.
  - intros q [->|Hq]%elem_of_cons; simpl; auto.
Qed.

Lemma hold_inv s t ts v m :
  inv s → enabled s t ts W_REQ →
  inv (with_row (mkTs (t_row (rw s)) (wts (rw s)) (rts (rw s)) m (min_rts (rw s))
    (min_pts (rw s)) (readreq (rw s)) (mkReq t (Some v) ts :: writereq (rw s)) (prereq (rw s))
    (preq_len (rw s))) s).
Proof.
  intros [] ([_ Hts]&(q&Hq&Et&Es)&Hn). split; simpl; auto.
  - intros q' [->|?]%elem_of_cons; simpl; auto.
  - by constructor.
  - intros w [->|?]%elem_of_cons; simpl; [|auto]. split; [eauto|]. exists q. auto.
Qed.

(** An enabled call returns and keeps the invariant. *)
Lemma ts_access_inv rc0 t ts type row cur s :
  inv s → enabled s t ts type →
  ∃ rc s', access rc0 t ts type row cur s = Some (rc, s') ∧ inv s' ∧
    match type with
    | R_REQ => rc ∈ [RCOK; WAIT; Abort]
    | P_REQ => rc ∈ [RCOK; Abort]
    | W_REQ => rc = RCOK
    | XP_REQ => rc = rc0
    end.
Proof.
  intros Hi He. pose proof He as [Hts Hen].
  destruct type; cbn [access].
  - destruct (Z.ltb_spec ts (wts (rw s))); [eexists _, s; split_and!; [done..|set_solver]|].
    destruct (Z.ltb_spec (min_pts (rw s)) ts).
    + eexists _, _. split_and!; [done|by apply wait_inv|set_solver].
    + eexists _, _. split_and!; [done| |set_solver]. apply read_inv; [done..|].
      intros p Hp. destruct (cal_min_spec (prereq (rw s)) UINT64_MAX) as (_&Hm&_).
      specialize (Hm p Hp). pose proof (k_min_p _ Hi). lia.
  - destruct (twr && (ts <? wts (rw s))).
    { destruct (retire_inv s t ts) as (r'&s'&->&E&?); [tauto..|]. simpl. rewrite E. eauto. }
    destruct (negb twr && (min_pts (rw s) <? ts)).
    { eexists _, _. split_and!; [done|by apply hold_inv|done]. }
    destruct (Z.ltb_spec (min_rts (rw s)) ts).
    { eexists _, _. split_and!; [done|by apply hold_inv|done]. }
    destruct Hen as [(q&Hq&Et&Es) Hn].
    destruct (retire_inv (do_write ts row s) t ts) as (r'&s'&->&E&?); [|eauto|done|].
    + apply write_inv; [done|..].
      * intros q' Hq'. pose proof (k_min_r _ Hi _ Hq'). lia.
      * intros t' r u Hl. rewrite <-Es. by eapply (k_pend _ Hi).
    + simpl. rewrite E. eauto.
  - destruct (Z.ltb_spec ts (rts (rw s))); [eexists _, s; split_and!; [done..|set_solver]|].
    destruct (negb twr && (ts <? wts (rw s))); [eexists _, s; split_and!; [done..|set_solver]|].
    eexists _, _. split_and!; [done|by apply prewrite_inv|set_solver].
  - destruct (retire_inv s t ts) as (r'&s'&->&E&?); [tauto..|]. simpl. rewrite E. eauto.
Qed.

Lemma ts_start_inv v : inv (start v).
Proof. split; simpl; try (by intros ? ?%elem_of_nil); try constructor; try lia; set_solver. Qed.

Lemma ts_reach_inv v s : rtc step (start v) s → inv s.
Proof.
  intros H. assert (inv (start v)) as Hi by apply ts_start_inv.
  induction H as [|x y z [rc0 t ts type row cur rc s' He E] _ IH]; [done|]. apply IH.
  destruct (ts_access_inv rc0 t ts type row cur x Hi He) as (?&?&E'&?&_). congruence.
Qed.

(** Contents only change by writes, and reads return them. *)
Lemma take_writes_row reqs yts y r y' r' :
  take_writes reqs yts y r = Some (y', r') → t_row r' = t_row r.
Proof.
  revert yts y r. induction reqs as [|q reqs IH]; intros yts y r; simpl; [by intros [= _ <-]|].
  destruct (debuffer_pre (rq_txn q) r) as [r1|] eqn:E; simpl; [|done].
  assert (t_row r1 = t_row r) as <-.
  { unfold debuffer_pre in E. destruct (remove_first _ _) as [[??]|]; [|done]. by simplify_eq/=. }
  destruct (_ <? _); apply IH.
Qed.

Lemma serve_reads_values v reqs s : values_ok v s → values_ok v (serve_reads reqs s).
Proof.
  revert s. induction reqs as [|q reqs IH]; intros s [H1 H2]; simpl; [done|].
  apply IH. by split.
Qed.

Lemma update_buffer_values v fuel s s' :
  values_ok v s → update_buffer fuel s = Some s' → values_ok v s'.
Proof.
  revert s. induction fuel as [|fuel IH]; intros s Hv; simpl; [done|]. intros H.
  destruct (_ <=? _); [|done]. simpl in H. destruct (_ <? _); [|by simplify_eq].
  unfold debuffer_reads in H. simpl in H. destruct (debuffer_loop _ _ _) as [k o].
  set (s1 := with_row _ s) in H. assert (values_ok v s1) as Hv1 by done. clearbody s1.
  case_bool_decide; [by simplify_eq|].
  pose proof (serve_reads_values v o s1 Hv1) as Hv2. revert H Hv2.
  generalize (serve_reads o s1). intros s2 H Hv2.
  destruct (_ <? _); [|by simplify_eq].
  unfold debuffer_writes in H. simpl in H. destruct (debuffer_loop _ _ _) as [wk wo].
  case_bool_decide; [by simplify_eq|].
  destruct (take_writes _ _ _ _) as [[y r3]|] eqn:E; [|done]. simpl in H.
  destruct y as [q|]; [|done]. simpl in H. destruct (rq_row q) as [u|]; [|done]. simpl in H.
  apply IH in H; [done|]. by destruct Hv2.
Qed.

Lemma retire_values v t s r' s' :
  values_ok v s → debuffer_pre t (rw s) = Some r' →
  update_buffer_all (with_row r' s) = Some s' → values_ok v s'.
Proof.
  intros [H1 H2] E. apply update_buffer_values. unfold debuffer_pre in E.
  destruct (remove_first _ _) as [[??]|]; [|done]. by simplify_eq/=.
Qed.

Lemma access_values v rc0 t ts type row cur s rc s' :
  values_ok v s → access rc0 t ts type row cur s = Some (rc, s') → values_ok v s'.
Proof.
  intros Hv. pose proof Hv as [H1 H2].
  assert (values_ok v (do_write ts row s)) as Hw by done.
  assert (∀ rc1 x, values_ok v x →
    (r' ← debuffer_pre t (rw x); s' ← update_buffer_all (with_row r' x); Some (rc1, s'))
      = Some (rc, s') → values_ok v s') as Hret.
  { intros rc1 x Hx H'. destruct (debuffer_pre t (rw x)) as [r'|] eqn:E; [|done]. simpl in H'.
    destruct (update_buffer_all (with_row r' x)) as [s1|] eqn:E1; [|done]. simplify_eq/=.
    by eapply retire_values. }
  destruct type; cbn [access].
  - destruct (_ <? _); [by intros; simplify_eq|]. destruct (_ <? _); intros; by simplify_eq/=.
  - destruct (twr && _); [by apply Hret|]. destruct (negb twr && _); [intros; by simplify_eq/=|].
    destruct (_ <? _); [intros; by simplify_eq/=|]. by apply Hret.
  - destruct (_ <? _); [by intros; simplify_eq|].
    destruct (negb twr && _); intros; by simplify_eq/=.
  - by apply Hret.
Qed.

Lemma reach_values v s : rtc step (start v) s → values_ok v s.
Proof.
  intros H. assert (values_ok v (start v)) as Hi by done.
  induction H as [|x y z [rc0 t ts type row cur rc s' He E] _ IH]; [done|]. apply IH.
  by eapply access_values.
Qed.

Lemma reads_ok_app v l1 l2 : reads_ok v (l1 ++ l2) → reads_ok v l2.
Proof. induction l1 as [|[] l1 IH]; simpl; [done| |done]. intros [_ ?]. auto. Qed.

Lemma cal_min_add l a acc :
  cal_min l (if a <? acc then a else acc) =
  if a <? cal_min l acc then a else cal_min l acc.
Proof.
  revert acc. induction l as [|q l IH]; intros acc; simpl; [done|].
  rewrite <-IH. f_equal. repeat case_match; lia.
Qed.

Lemma debuffer_loop_keep bound reqs ret keep out :
  debuffer_loop bound reqs ret = (keep, out) → ∀ q, q ∈ keep → bound < rq_ts q.
Proof.
  revert ret keep. induction reqs as [|q0 reqs IH]; intros ret keep; simpl.
  { intros [= <- _] q ?%elem_of_nil. done. }
  destruct (Z.leb_spec (rq_ts q0) bound); [apply IH|].
  destruct (debuffer_loop bound reqs ret) as [k o] eqn:E. intros [= <- <-] q.
  intros [->|Hq]%elem_of_cons; [lia|by eapply IH].
Qed.

Lemma debuffer_loop_none bound reqs ret keep :
  debuffer_loop bound reqs ret = (keep, []) → reqs = keep.
Proof.
  revert ret keep. induction reqs as [|q l IH]; intros ret keep; simpl; [by intros [= <- _]|].
  destruct (_ <=? _).
  - intros E. destruct (ts_debuffer_loop_spec _ _ _ _ _ E) as (Hs&Hp&_).
    apply Permutation_length in Hp. rewrite !length_app in Hp. simpl in Hp.
    apply sublist_length in Hs. lia.
  - destruct (debuffer_loop bound l ret) as [k o] eqn:E. intros [= <- ->]. f_equal. by eapply IH.
Qed.

Definition is_read (e : event) : Prop := match e with ERead _ _ _ => True | EWrite _ _ => False end.

(** What serving reads changes: the log, and the read timestamp within a bound. *)
Lemma serve_reads_frame reqs b s :
  rts (rw s) ≤ b → (∀ q, q ∈ reqs → rq_ts q ≤ b) →
  let s' := serve_reads reqs s in
  rts (rw s') ≤ b ∧ min_pts (rw s') = min_pts (rw s) ∧ wts (rw s') = wts (rw s) ∧
  ∃ l, log s' = l ++ log s ∧ Forall is_read l.
Proof.
  revert s. induction reqs as [|q reqs IH]; intros s Hr Hq; simpl.
  { split_and!; try done. by exists []. }
  edestruct (IH (mkSt (rw (do_read (rq_txn q) (rq_ts q) s)) (<[rq_txn q := true]> (ts_ready s))
    (log (do_read (rq_txn q) (rq_ts q) s)) (restarts s ++ [rq_txn q]))) as (H1&H2&H3&l&El&Hl).
  - simpl. specialize (Hq q ltac:(by left)). case_match; lia.
  - intros q' Hq'. apply Hq. by right.
  - simpl in *. split_and!; try done. exists (l ++ [ERead (rq_txn q) (rq_ts q) (t_row (rw s))]).
    split; [by rewrite <-app_assoc|]. apply Forall_app. split; [done|]. by repeat constructor.
Qed.

(** Updating the buffers of a tidy row only serves reads. *)
Lemma update_buffer_tidy fuel s s' :
  inv s → tidy s → update_buffer (S fuel) s = Some s' →
  tidy s' ∧ ∃ l, log s' = l ++ log s ∧ Forall is_read l.
Proof.
  intros Hi [] E. cbn [update_buffer] in E.
  rewrite assert_bind_true in E by (apply Z.leb_le, Hi).
  set (nm := cal_min (prereq (rw s)) UINT64_MAX) in *.
  destruct (Z.ltb_spec (min_pts (rw s)) nm); [|simplify_eq; by split; [split|exists []]].
  unfold debuffer_reads in E. simpl in E.
  destruct (debuffer_loop nm (readreq (rw s)) []) as [keep out] eqn:Ed.
  destruct (ts_debuffer_loop_spec _ _ _ _ _ Ed) as (Hsub&Hperm&Hout).
  pose proof (debuffer_loop_keep _ _ _ _ _ Ed) as Hkeep. rewrite app_nil_r in Hperm.
  set (s1 := with_row (mkTs _ _ _ _ _ nm keep _ _ _) s) in *.
  case_bool_decide as Ho.
  { simplify_eq. split; [|by exists []]. split; simpl; auto; [lia|].
    by rewrite td_min0, (debuffer_loop_none _ _ _ _ Ed). }
  destruct (serve_reads_frame out nm s1) as (H1&H2&H3&l&El&Hl); [simpl; lia| |].
  { intros q Hq. by destruct (Hout q Hq) as [?%elem_of_nil|[_ ?]]. }
  destruct (ts_serve_reads_inv out s1) as (_&E1&E2&E3&E4&E5).
  { apply shrink_inv; auto.
    - intros; by eapply elem_of_sublist.
    - apply Z.le_refl.
    - intros q Hq. apply (k_min_r _ Hi). by eapply elem_of_sublist. }
  { intros q Hq. destruct (Hout q Hq) as [?%elem_of_nil|[Hr Hle]]; [done|]. simpl.
    split; [by apply (k_rd _ Hi)|]. intros p Hp.
    destruct (cal_min_spec (prereq (rw s)) UINT64_MAX) as (_&Hm&_). specialize (Hm p Hp).
    fold nm in Hm. lia. }
  set (s2 := serve_reads out s1) in *. simpl in *.
  assert (min_rts (rw s) ≤ cal_min keep UINT64_MAX) as Hle.
  { rewrite td_min0. apply cal_min_sub. intros; by eapply elem_of_sublist. }
  assert (∀ x, rw x = mkTs (t_row (rw s2)) (wts (rw s2)) (rts (rw s2)) (min_wts (rw s2))
      (cal_min keep UINT64_MAX) (min_pts (rw s2)) (readreq (rw s2)) [] (prereq (rw s2))
      (preq_len (rw s2)) → log x = log s2 → tidy x ∧ ∃ l, log x = l ++ log s ∧ Forall is_read l) as Hfin.
  { intros x Ex Lx. split; [|rewrite Lx; eauto].
    split; rewrite Ex; simpl; rewrite ?E1, ?E2, ?E3, ?H2, ?H3; auto. }
  rewrite E1, E5 in E. destruct (Z.ltb_spec (min_rts (rw s)) (cal_min keep UINT64_MAX)).
  - unfold debuffer_writes in E. simpl in E. rewrite E3, td_w0 in E. simpl in E. simplify_eq.
    by apply Hfin.
  - injection E as <-. apply Hfin; [|done]. clear Hfin. destruct (rw s2) eqn:Es2; simpl in *.
    f_equal; [lia|congruence].
Qed.

Definition served (s s' : state) : Prop := ∃ l, log s' = l ++ log s ∧ Forall is_read l.

Lemma retire_tidy s t ts :
  inv s → tidy s → (∃ q, q ∈ prereq (rw s) ∧ rq_txn q = t ∧ rq_ts q = ts) →
  ∃ r' s', debuffer_pre t (rw s) = Some r' ∧ update_buffer_all (with_row r' s) = Some s' ∧
    inv s' ∧ tidy s' ∧ served s s'.
Proof.
  intros Hi Ht Hq. assert (t ∉ (rq_txn <$> writereq (rw s))) as Hw.
  { rewrite (td_w _ Ht). by intros ?%elem_of_nil. }
  destruct (debuffer_pre_inv s t ts Hi Hq Hw) as (rest&n&->&Hi1&Hs).
  destruct (ts_update_buffer_inv (S (length (writereq (rw s)))) _ Hi1) as (s'&E&Hi');
    [simpl; lia|].
  eexists _, s'. split; [done|]. split; [exact E|]. split; [done|].
  apply (update_buffer_tidy _ _ _ Hi1) in E; [done|]. destruct Ht. split; simpl; auto.
  intros. apply td_pre0; [done|]. by eapply elem_of_sublist.
Qed.

Lemma cal_min_le l q : q ∈ l → cal_min l UINT64_MAX ≤ rq_ts q.
Proof. apply cal_min_spec. Qed.

(** A write whose transaction has read the row is applied at once. *)
Lemma write_tidy rc0 t ts row cur s :
  inv s → tidy s → enabled s t ts W_REQ → has_read s t ts → wts (rw s) ≤ ts ∨ twr = false →
  ∃ s', access rc0 t ts W_REQ row cur s = Some (RCOK, s') ∧ inv s' ∧ tidy s' ∧
    served (do_write ts row s) s' ∧ wts (rw s) ≤ ts.
Proof.
  intros Hi Ht (Hts&Hq&Hw) [u Hu] Htw. pose proof Ht as [].
  pose proof (k_rts _ Hi _ _ _ Hu) as Hr. pose proof Hq as (q&Hqp&Eqt&Eqs).
  assert (wts (rw s) ≤ ts) as Hle.
  { destruct Htw as [|Htw]; [done|]. rewrite <-Eqs. by apply td_pre0. }
  assert (min_pts (rw s) ≤ min_rts (rw s)) as Hmin.
  { rewrite td_min0. destruct (cal_min_spec (readreq (rw s)) UINT64_MAX) as (_&_&H3). apply H3.
    - etrans; [apply Hi|]. apply cal_min_spec.
    - intros q' Hq'. specialize (td_rd0 q' Hq'). lia. }
  destruct (retire_tidy (do_write ts row s) t ts) as (r'&s'&Ed&Eu&Hi'&Ht'&Hs'); [..|done|].
  - apply write_inv; [done|..].
    + intros q' Hq'. specialize (td_rd0 q' Hq'). lia.
    + intros t' r v Hl. rewrite <-Eqs. by eapply (k_pend _ Hi).
  - split; simpl; auto. intros Et q' Hq'. specialize (td_pre0 Et q' Hq').
    pose proof (cal_min_le _ _ Hq'). pose proof (k_min_p _ Hi). case_match; lia.
  - exists s'. split; [|done]. cbn [access]. rewrite (proj2 (Z.ltb_ge ts (wts (rw s)))) by lia.
    rewrite (proj2 (Z.ltb_ge (min_pts (rw s)) ts)) by lia.
    rewrite (proj2 (Z.ltb_ge (min_rts (rw s)) ts)) by lia.
    rewrite !andb_false_r. cbn -[debuffer_pre update_buffer_all]. simpl in Ed.
    rewrite Ed. cbn [mbind option_bind]. by rewrite Eu.
Qed.

Lemma access_tidy rc0 t ts type row cur s rc s' :
  twr = false →
  inv s → tidy s → enabled s t ts type → (type = W_REQ → has_read s t ts) →
  access rc0 t ts type row cur s = Some (rc, s') → tidy s'.
Proof.
  intros Htwr Hi Ht He Hread E. pose proof Ht as []. destruct type.
  - cbn [access] in E. destruct (Z.ltb_spec ts (wts (rw s))); [by simplify_eq|].
    destruct (Z.ltb_spec (min_pts (rw s)) ts); simplify_eq/=; (split; simpl; auto).
    + by rewrite cal_min_add, td_min0.
    + intros q [->|Hq]%elem_of_cons; simpl; auto.
    + case_match; lia.
  - destruct (write_tidy rc0 t ts row cur s) as (s1&E1&?&?&_); auto. congruence.
  - cbn [access] in E. destruct (Z.ltb_spec ts (rts (rw s))); [by simplify_eq|].
    rewrite Htwr in E. destruct (Z.ltb_spec ts (wts (rw s))); simplify_eq/=; [done|].
    split; simpl; auto.
    + case_match; lia.
    + intros q Hq. specialize (td_rd0 q Hq). case_match; lia.
    + intros _ q [->|Hq]%elem_of_cons; simpl; auto.
  - destruct He as (_&Hq&_). destruct (retire_tidy s t ts Hi Ht Hq) as (r'&s1&Ed&Eu&_&?&_).
    cbn [access] in E. rewrite Ed in E. cbn [mbind option_bind] in E. rewrite Eu in E.
    by simplify_eq/=.
Qed.

Lemma caller_reach v s :
  twr = false → rtc caller_step (start v) s → rtc step (start v) s ∧ inv s ∧ tidy s.
Proof.
  intros Htwr Hr. assert (rtc step (start v) s) as Hs.
  { eapply rtc_subrel; [|exact Hr]. intros x y []. by econstructor. }
  split; [done|]. split; [by eapply ts_reach_inv|].
  assert (inv (start v)) as Hi by apply ts_start_inv.
  assert (tidy (start v)) as Ht by (split; simpl; try done; intros; exfalso; by eapply not_elem_of_nil).
  clear Hs. induction Hr as [|x y z [rc0 t ts type row cur rc s' He Hh E] _ IH]; [done|].
  destruct (ts_access_inv rc0 t ts type row cur x Hi He) as (?&?&E'&?&_).
  rewrite E in E'. simplify_eq. apply IH; [done|].
  exact (access_tidy rc0 t ts type row cur x _ _ Htwr Hi Ht He Hh E).
Qed.

(** ** Properties *)

(** C24: a read that was served returned the content of the row at that moment,
    every write applied before it has a timestamp at most its own and every write
    applied after it one at least its own: reads and writes of a row conflict in
    timestamp order, with the buffered requests included. *)
Theorem ts_reads_in_order v s l1 t r u l2 :
  rtc step (start v) s → log s = l1 ++ ERead t r u :: l2 →
  u = content v l2 ∧
  (∀ w x, EWrite w x ∈ l2 → w ≤ r) ∧ (∀ w x, EWrite w x ∈ l1 → r ≤ w).
Proof.
  intros Hr E. pose proof (k_log _ (ts_reach_inv v s Hr)) as Hs.
  destruct (reach_values v s Hr) as [_ Hv]. rewrite E in Hs, Hv.
  apply reads_ok_app in Hv as [Hv _]. split; [done|].
  pose proof (StronglySorted_app_1_r _ _ _ Hs) as H2.
  apply StronglySorted_inv in H2 as [_ H2]. rewrite Forall_forall in H2. split.
  - intros w x Hw. by specialize (H2 _ Hw).
  - intros w x Hw. exact (StronglySorted_app_1_elem_of _ _ _ (EWrite w x) _ Hs Hw (list_elem_of_here _ _)).
Qed.

(** C25: accepted writes take effect at once and in timestamp order.  Without the
    Thomas write rule, in every run in which transactions write only rows they have
    prewritten and whose read was then served, a write is told [RCOK], its content
    is in the row as soon as the call returns (the call adds only reads to the log
    after it), it is younger than every write applied before, and the buffer of
    writes stays empty. *)
Theorem ts_write_applied v s rc0 t ts row cur :
  twr = false → rtc caller_step (start v) s → enabled s t ts W_REQ → has_read s t ts →
  ∃ s' l, access rc0 t ts W_REQ row cur s = Some (RCOK, s') ∧
    log s' = l ++ EWrite ts row :: log s ∧ Forall is_read l ∧ t_row (rw s') = row ∧
    (∀ w x, EWrite w x ∈ log s → w ≤ ts) ∧ writereq (rw s') = [].
Proof.
  intros Htwr Hr He Hh. destruct (caller_reach v s Htwr Hr) as (Hs&Hi&Ht).
  destruct (write_tidy rc0 t ts row cur s) as (s'&E&_&Ht'&(l&El&Hl)&Hw); auto.
  exists s', l. split_and!; try done.
  - destruct (reach_values v s' ltac:(by eapply rtc_r; [exact Hs|econstructor])) as [-> _].
    rewrite El. clear El. induction Hl as [|[] l ? _ IH]; [done|by apply IH|done].
  - intros w x Hx. pose proof (k_wts _ Hi w x Hx). lia.
  - apply Ht'.
Qed.

(** A call that respects the protocol of the callers returns, whatever came
    before it: no assertion fails, every prewrite to retire is found and the loop of
    [update_buffer] ends.  Writes are always accepted. *)
Theorem ts_access_returns v s rc0 t ts type row cur :
  rtc step (start v) s → enabled s t ts type →
  ∃ rc s', access rc0 t ts type row cur s = Some (rc, s') ∧
    match type with
    | R_REQ => rc ∈ [RCOK; WAIT; Abort]
    | P_REQ => rc ∈ [RCOK; Abort]
    | W_REQ => rc = RCOK
    | XP_REQ => rc = rc0
    end.
Proof.
  intros Hr He. destruct (ts_access_inv rc0 t ts type row cur s) as (rc&s'&?&_&?);
    [by eapply ts_reach_inv|done|eauto].
Qed.

End ts.

(** A run of the row: transaction 1 prewrites, 2 reads and waits, 1 writes, which
    serves the read. *)
Definition sample_call (t : txn_ptr) (ts : Z) (type : TsType) (x : Z) (s : @state Z) : @state Z :=
  default s (snd <$> access false RCOK t ts type x x s).

Definition sample_s1 : @state Z := Eval vm_compute in sample_call 1%nat 5 P_REQ 0 (start 0).
Definition sample_s2 : @state Z := Eval vm_compute in sample_call 2%nat 7 R_REQ 0 sample_s1.
Definition sample_state : @state Z := Eval vm_compute in sample_call 1%nat 5 W_REQ 42 sample_s2.

Lemma sample_reach : rtc (step false) (start 0) sample_state.
Proof.
  eapply (rtc_l _ _ sample_s1);
    [apply (step_access false _ RCOK 1%nat 5 P_REQ 0 0 RCOK); [|vm_compute; reflexivity]|].
  { split; [by vm_compute|]. set_solver. }
  eapply (rtc_l _ _ sample_s2);
    [apply (step_access false _ RCOK 2%nat 7 R_REQ 0 0 WAIT); [|vm_compute; reflexivity]|].
  { split; [by vm_compute|]. done. }
  eapply (rtc_l _ _ sample_state);
    [apply (step_access false _ RCOK 1%nat 5 W_REQ 42 42 RCOK); [|vm_compute; reflexivity]|].
  { split; [by vm_compute|]. split; [|set_solver]. eexists. split; [by left|done]. }
  apply rtc_refl.
Qed.

Lemma ts_reads_in_order_witness :
  log sample_state = [] ++ ERead 2%nat 7 42 :: [EWrite 5 42] ∧
  (∀ w x, EWrite w x ∈ [EWrite 5 42] → w ≤ 7).
Proof.
  assert (log sample_state = [] ++ ERead 2%nat 7 42 :: [EWrite 5 42]) as E by reflexivity.
  split; [exact E|]. apply (ts_reads_in_order false 0 sample_state [] 2%nat 7 42 _ sample_reach E).
Defined.

(** Transaction 4 prewrites and reads. *)
Definition sample_s5 : @state Z := Eval vm_compute in sample_call 4%nat 9 P_REQ 0 (start 0).
Definition sample_s6 : @state Z := Eval vm_compute in sample_call 4%nat 9 R_REQ 0 sample_s5.

Lemma sample_caller_reach : rtc (caller_step false) (start 0) sample_s6.
Proof.
  eapply (rtc_l _ _ sample_s5);
    [apply (step_caller false _ RCOK 4%nat 9 P_REQ 0 0 RCOK); [|done|vm_compute; reflexivity]|].
  { split; [by vm_compute|]. set_solver. }
  eapply (rtc_l _ _ sample_s6);
    [apply (step_caller false _ RCOK 4%nat 9 R_REQ 0 0 RCOK); [|done|vm_compute; reflexivity]|].
  { split; [by vm_compute|]. done. }
  apply rtc_refl.
Qed.

Lemma ts_write_applied_witness :
  ∃ s' l, access false RCOK 4%nat 9 W_REQ 33 0 sample_s6 = Some (RCOK, s') ∧
    log s' = l ++ EWrite 9 33 :: log sample_s6 ∧ Forall is_read l ∧ t_row (rw s') = 33 ∧
    (∀ w x, EWrite w x ∈ log sample_s6 → w ≤ 9) ∧ writereq (rw s') = [].
Proof.
  apply (ts_write_applied false 0 sample_s6 RCOK 4%nat 9 33 0 eq_refl sample_caller_reach).
  - split; [by vm_compute|]. split; [|set_solver]. eexists. split; [by left|done].
  - exists 0. by left.
Defined.

Lemma ts_access_returns_witness :
  ∃ rc s', access false RCOK 3%nat 9 P_REQ 0 0 sample_state = Some (rc, s') ∧ rc ∈ [RCOK; Abort].
Proof.
  apply (ts_access_returns false 0 sample_state RCOK 3%nat 9 P_REQ 0 0 sample_reach).
  split; [by vm_compute|]. vm_compute. intros H. inversion H.
Defined.

End RowTs.
