(* ===== verification/Globals.v ===== *)
(** * Globals: node, partition and key arithmetic, timestamps and transaction ids

    Model of the macros of system/global.h, of system/helper.cpp, of
    [class Manager] (system/manager.cpp) and of the two number generators of
    [WorkerThread] (system/worker_thread.cpp).  [UInt32] globals wrap at 32 bits and
    [uint64_t] values at 64, in the places where the code computes with them.
    Clocks are inputs.  Out-of-bounds reads, undefined shifts, division by zero
    and failed assertions are [None]. *)

From S2P Require Import Prelude.

Module Globals.

(** The globals the code below reads, all [UInt32]. *)
Record config := mkCfg {
  g_node_cnt : Z; g_thread_cnt : Z; g_part_cnt : Z;
  g_client_node_cnt : Z; g_repl_cnt : Z }.

(** ** Nodes and partitions *)

Section nodes.
Context (c : config).

Definition GET_NODE_ID (id : Z) : Z := id `mod` g_node_cnt c.
Definition GET_THREAD_ID (id : Z) : Z := id `mod` g_thread_cnt c.
Definition IS_LOCAL (alg : CC_ALG) (node_id tid : Z) : bool :=
  (tid `mod` g_node_cnt c =? node_id) || bool_decide (alg = CALVIN).
Definition ISSERVERN (id : Z) : bool := id <? g_node_cnt c.
Definition ISCLIENTN (id : Z) : bool :=
  (g_node_cnt c <=? id) && (id <? wrap32 (g_node_cnt c + g_client_node_cnt c)).
Definition ISREPLICAN (id : Z) : bool :=
  (wrap32 (g_node_cnt c + g_client_node_cnt c) <=? id) &&
  (id <? wrap32 (wrap32 (g_node_cnt c + g_client_node_cnt c)
                 + wrap32 (g_repl_cnt c * g_node_cnt c))).
Definition GET_PART_ID_FROM_IDX (node_id idx : Z) : Z :=
  (node_id + (idx * g_node_cnt c))%u64.
Definition GET_PART_ID_IDX (p : Z) : Z := p / g_node_cnt c.

Definition key_to_part (g_part_alloc : bool) (key : Z) : Z :=
  if g_part_alloc then key `mod` g_part_cnt c else 0.

Record client_globals := mkCG {
  g_servers_per_client : Z; g_clients_per_server : Z; g_server_start_node : Z }.

Definition init_client_globals (node_id : Z) : client_globals :=
  let '(spc, cps) :=
    if g_client_node_cnt c <? g_node_cnt c then (g_node_cnt c / g_client_node_cnt c, 1)
    else (1, g_client_node_cnt c / g_node_cnt c) in
  let client_node_id := wrap32 (node_id - g_node_cnt c) in
  let start := wrap32 (client_node_id * spc) `mod` g_node_cnt c in
  let spc :=
    if (g_client_node_cnt c <=? g_node_cnt c)
       && negb (g_node_cnt c `mod` g_client_node_cnt c =? 0)
       && (node_id =? wrap32 (wrap32 (g_node_cnt c + g_client_node_cnt c) - 1))
    then wrap32 (spc + g_node_cnt c `mod` g_client_node_cnt c) else spc in
  mkCG spc cps start.

End nodes.

(** ** Index keys *)

(** The loop of the first [merge_idx_key]; [keys] is what is left of the array. *)
Fixpoint merge_loop (n : nat) (len : Z) (keys : list Z) (key : Z) : option Z :=
  match n with
  | O => Some key
  | S n' =>
      match keys with
      | [] => None
      | k :: keys' =>
          ASSERT (len <? 64) && (k <? Z.shiftl 1 len);
          merge_loop n' len keys' (Z.lor (wrap64 (Z.shiftl key len)) k)
      end
  end.

Definition merge_idx_key_array (key_cnt : Z) (keys : list Z) : option Z :=
  ASSERT negb (key_cnt =? 0);
  let len := 64 / key_cnt in
  merge_loop (Z.to_nat len) len keys 0.

Definition merge_idx_key2 (key1 key2 : Z) : option Z :=
  ASSERT (key1 <? Z.shiftl 1 32) && (key2 <? Z.shiftl 1 32);
  Some (Z.lor (wrap64 (Z.shiftl key1 32)) key2).

Definition merge_idx_key3 (key1 key2 key3 : Z) : option Z :=
  ASSERT (key1 <? Z.shiftl 1 21) && (key2 <? Z.shiftl 1 21) && (key3 <? Z.shiftl 1 21);
  Some (Z.lor (Z.lor (wrap64 (Z.shiftl key1 42)) (wrap64 (Z.shiftl key2 21))) key3).

(** [myrand::next]; the state is the seed. *)
Definition RAND_MAX : Z := 2147483647.
Definition rand_next (seed : Z) : Z * Z :=
  let seed := ((seed * 1103515247 + 12345)%u64) `mod` Z.shiftl 1 63 in
  ((seed / 65537) `mod` RAND_MAX, seed).

(** ** The timestamp manager *)

Inductive ts_alloc := TS_MUTEX | TS_CAS | TS_HW | TS_CLOCK.

Record Manager := mkMan { timestamp : Z; last_min_ts_time : Z; min_ts : Z }.

Definition init : Manager := mkMan 1 0 0.

Definition clock_ts (c : config) (node_id thread_id wall : Z) : Z :=
  ((wall * wrap32 (g_node_cnt c + g_thread_cnt c))
   + (wrap32 (node_id * g_thread_cnt c) + thread_id))%u64.

Definition get_ts (c : config) (alloc : ts_alloc) (batch_alloc : bool) (batch_num : Z)
    (node_id thread_id wall : Z) (m : Manager) : option (Z * Manager) :=
  ASSERT negb batch_alloc || match alloc with TS_CAS => true | _ => false end;
  match alloc with
  | TS_MUTEX =>
      let t := wrap64 (timestamp m + 1) in
      Some (t, mkMan t (last_min_ts_time m) (min_ts m))
  | TS_CAS =>
      Some (timestamp m,
        mkMan (wrap64 (timestamp m + if batch_alloc then batch_num else 1))
          (last_min_ts_time m) (min_ts m))
  | TS_HW => None
  | TS_CLOCK => Some (clock_ts c node_id thread_id wall, m)
  end.

Definition MIN_TS_INTVL : Z := 10 * 1000000.

(** [table_min] is the answer of [txn_table.get_min_ts]. *)
Definition get_min_ts (now table_min : Z) (m : Manager) : Z * Manager :=
  let m :=
    if MIN_TS_INTVL <? wrap64 (now - last_min_ts_time m) then
      mkMan (timestamp m) now (if min_ts m <? table_min then table_min else min_ts m)
    else m in
  (min_ts m, m).

Definition MEM_ALLIGN : Z := 8.
Definition BUCKET_CNT : Z := 31.
Definition hash (row : Z) : Z :=
  let addr := row / MEM_ALLIGN in ((addr * 1103515247 + 12345)%u64) `mod` BUCKET_CNT.

(** ** The generators of a worker thread *)

(** [get_next_txn_id]: the id and the new [_thd_txn_id]. *)
Definition get_next_txn_id (c : config) (node_id thd_id thd_txn_id : Z) : Z * Z :=
  (((node_id + (thd_id * g_node_cnt c))
    + (wrap32 (g_thread_cnt c * g_node_cnt c) * thd_txn_id))%u64,
   wrap64 (thd_txn_id + 1)).

(** [get_next_ts]: the timestamp and the new [_curr_ts]. *)
Definition get_next_ts (c : config) (alloc : ts_alloc) (batch_alloc : bool) (batch_num : Z)
    (node_id thd_id wall : Z) (curr_ts : Z) (m : Manager) : option (Z * Z * Manager) :=
  if batch_alloc then
    if curr_ts `mod` batch_num =? 0 then
      '(t, m') ← get_ts c alloc batch_alloc batch_num node_id thd_id wall m;
      let curr_ts := wrap64 (t + 1) in Some (wrap64 (curr_ts - 1), curr_ts, m')
    else let curr_ts := wrap64 (curr_ts + 1) in Some (wrap64 (curr_ts - 1), curr_ts, m)
  else
    '(t, m') ← get_ts c alloc batch_alloc batch_num node_id thd_id wall m; Some (t, t, m').

(** ** Threads drawing timestamps from the shared counter *)

Record gen := mkGen { g_man : Manager; g_curr : nat → Z; g_log : list Z }.

Section draw.
Context (c : config) (alloc : ts_alloc) (batch_alloc : bool) (batch_num : Z).

Inductive draw (s : gen) : gen → Prop :=
  | draw_ts t node_id thd_id wall ts curr m' :
      get_next_ts c alloc batch_alloc batch_num node_id thd_id wall (g_curr s t) (g_man s)
        = Some (ts, curr, m') →
      draw s (mkGen m' (<[t := curr]> (g_curr s)) (ts :: g_log s)).

Definition gen_start : gen := mkGen init (λ _, 0) [].

(** How far one draw moves the counter, and the first value handed out. *)
Definition stride : Z := if batch_alloc then batch_num else 1.
Definition first_ts : Z := match alloc with TS_MUTEX => 2 | _ => 1 end.
Definition block (x : Z) : Z := (x - first_ts) / stride.

Record gen_inv (n : Z) (s : gen) : Prop := {
  g_cnt : timestamp (g_man s) = 1 + stride * n;
  g_n : 0 ≤ n ≤ zlen (g_log s);
  g_used : ∀ x, x ∈ g_log s → first_ts ≤ x ∧ block x < n;
  g_nodup : NoDup (g_log s);
  g_zero : ∀ t, 0 ≤ g_curr s t;
  g_left : ∀ t, batch_alloc = true → g_curr s t `mod` batch_num ≠ 0 →
    first_ts ≤ g_curr s t ∧ block (g_curr s t) < n ∧
    ∀ x, x ∈ g_log s → block x = block (g_curr s t) → x < g_curr s t;
  g_own : ∀ t t', batch_alloc = true → t ≠ t' →
    g_curr s t `mod` batch_num ≠ 0 → g_curr s t' `mod` batch_num ≠ 0 →
    block (g_curr s t) ≠ block (g_curr s t') }.

End draw.

(** ** Lemmas *)

(** Quotient and remainder by a positive number are unique. *)
Lemma div_mod_inj b q1 r1 q2 r2 :
  0 ≤ r1 < b → 0 ≤ r2 < b → b * q1 + r1 = b * q2 + r2 → q1 = q2 ∧ r1 = r2.
Proof. intros H1 H2 E. assert (q1 = q2) by nia. subst. split; [done|lia]. Qed.

Lemma lor_shift_add a b n :
  0 ≤ n → 0 ≤ b < 2 ^ n → Z.lor (Z.shiftl a n) b = a * 2 ^ n + b.
Proof.
  intros Hn Hb. rewrite <-Z.shiftl_mul_pow2 by done. symmetry. apply Z.add_nocarry_lor.
  apply Z.bits_inj'. intros i Hi. rewrite Z.land_spec, Z.bits_0.
  destruct (Z.ltb_spec i n).
  - by rewrite Z.shiftl_spec_low.
  - rewrite <-(Z.mod_small b (2 ^ n)) by done.
    by rewrite Z.mod_pow2_bits_high, andb_false_r by lia.
Qed.

Section draw_lemmas.
Context (c : config) (alloc : ts_alloc) (batch_alloc : bool) (batch_num : Z).
Context (Halloc : alloc = TS_CAS ∨ (alloc = TS_MUTEX ∧ batch_alloc = false)) (Hbatch : 0 < batch_num).

Abbreviation inv := (gen_inv alloc batch_alloc batch_num).
Abbreviation step := (draw c alloc batch_alloc batch_num).
Abbreviation stride := (stride batch_alloc batch_num).
Abbreviation first_ts := (first_ts alloc).
Abbreviation block := (block alloc batch_alloc batch_num).

Lemma stride_pos : 0 < stride.
Proof. unfold Globals.stride. destruct batch_alloc; lia. Qed.

(** A fresh draw takes the first value of a new block. *)
Lemma block_first n : block (first_ts + stride * n) = n.
Proof.
  unfold Globals.block. pose proof stride_pos.
  replace (first_ts + stride * n - first_ts) with (n * stride) by lia.
  apply Z.div_mul. lia.
Qed.

Lemma get_ts_fresh n node thd wall m :
  timestamp m = 1 + stride * n → 0 ≤ n → 1 + stride * (n + 1) < u64_mod →
  ∃ m', get_ts c alloc batch_alloc batch_num node thd wall m
        = Some (first_ts + stride * n, m') ∧ timestamp m' = 1 + stride * (n + 1).
Proof.
  intros Ht Hn Hb. pose proof stride_pos. unfold get_ts, Globals.first_ts.
  destruct Halloc as [->|[-> E]].
  - unfold Globals.stride in *. destruct batch_alloc; simpl; eexists; (split; [by rewrite Ht|]);
      simpl; rewrite wrap64_small; unfold is_u64; lia.
  - unfold Globals.stride in *. rewrite E in *. simpl. rewrite Ht, wrap64_small by (unfold is_u64; lia).
    eexists. split; [f_equal; f_equal|simpl]; lia.
Qed.

(** Drawing a value above all of a block, with the block not shared. *)
Lemma fresh_inv n s t curr m' :
  inv n s → timestamp m' = 1 + stride * (n + 1) → 0 ≤ curr →
  (batch_alloc = true → curr = first_ts + stride * n + 1) →
  inv (n + 1) (mkGen m' (<[t := curr]> (g_curr s)) (first_ts + stride * n :: g_log s)).
Proof.
  intros [] Hm Hc Hcurr. pose proof stride_pos as Hp. pose proof (block_first n) as Hbf.
  assert (0 ≤ stride * n) as Hsn by nia.
  assert (batch_alloc = true → curr `mod` batch_num ≠ 0 → block curr = n) as Hbc.
  { intros Eb Hnz. rewrite (Hcurr Eb) in Hnz |- *. unfold Globals.block in *.
    assert (1 < stride).
    { unfold Globals.stride in *. rewrite Eb in *. destruct (decide (batch_num = 1)) as [->|]; [|lia].
      by rewrite Z.mod_1_r in Hnz. }
    replace (first_ts + stride * n + 1 - first_ts) with (n * stride + 1) by lia.
    rewrite Z.div_add_l by lia. rewrite Z.div_small; lia. }
  assert (∀ t', g_curr s t' `mod` batch_num ≠ 0 → batch_alloc = true → block (g_curr s t') < n) as Hlt.
  { intros t' H1 H2. by apply g_left0. }
  split; simpl; [done|lia|..].
  - intros x [->|Hx]%elem_of_cons; [rewrite Hbf; lia|]. destruct (g_used0 x Hx). lia.
  - constructor; [|done]. intros Hin. destruct (g_used0 _ Hin). lia.
  - intros t'. destruct (decide (t = t')) as [->|]; rewrite ?fn_lookup_insert, ?fn_lookup_insert_ne; auto.
  - intros t' Eb. destruct (decide (t = t')) as [->|].
    + rewrite fn_lookup_insert. intros Hnz. rewrite (Hbc Eb Hnz). split_and!; [rewrite Hcurr by done; lia|lia|].
      intros x [->|Hx]%elem_of_cons Ex; [rewrite Hcurr by done; lia|]. destruct (g_used0 x Hx). lia.
    + rewrite fn_lookup_insert_ne by done. intros Hnz. destruct (g_left0 t' Eb Hnz) as (?&?&Hx).
      split_and!; [lia..|]. intros x [->|Hx']%elem_of_cons Ex; [lia|auto].
  - intros t1 t2 Eb Hne. destruct (decide (t = t1)) as [->|]; [|destruct (decide (t = t2)) as [->|]];
      rewrite ?fn_lookup_insert, ?fn_lookup_insert_ne by done; intros H1 H2; [| |by apply g_own0].
    + specialize (Hlt t2 H2 Eb). rewrite (Hbc Eb H1). lia.
    + specialize (Hlt t1 H1 Eb). rewrite (Hbc Eb H2). lia.
Qed.

(** The next value of a block that is not used up. *)
Lemma next_inv n s t :
  inv n s → batch_alloc = true → g_curr s t `mod` batch_num ≠ 0 →
  inv n (mkGen (g_man s) (<[t := g_curr s t + 1]> (g_curr s)) (g_curr s t :: g_log s)).
Proof.
  intros [] Eb Hnz. destruct (g_left0 t Eb Hnz) as (Hf&Hb&Hx). pose proof (g_zero0 t) as Hz.
  assert (first_ts = 1) as Hf1.
  { unfold Globals.first_ts. destruct Halloc as [->|[-> E]]; [done|congruence]. }
  assert (block (g_curr s t + 1) = block (g_curr s t)) as Hnext.
  { unfold Globals.block, Globals.stride. rewrite Eb, Hf1.
    replace (g_curr s t + 1 - 1) with (g_curr s t) by lia.
    pose proof (Z.div_mod (g_curr s t) batch_num). pose proof (Z.mod_pos_bound (g_curr s t) batch_num).
    apply Z.div_unique with (g_curr s t `mod` batch_num - 1); lia. }
  split; simpl; [done|lia|..].
  - intros x [->|Hin]%elem_of_cons; auto.
  - constructor; [|done]. intros Hin. specialize (Hx _ Hin eq_refl). lia.
  - intros t'. destruct (decide (t = t')) as [->|];
      rewrite ?fn_lookup_insert, ?fn_lookup_insert_ne by done; [lia|auto].
  - intros t' _. destruct (decide (t = t')) as [->|].
    + rewrite fn_lookup_insert. intros _. rewrite Hnext. split_and!; [lia..|].
      intros x [->|Hin]%elem_of_cons Ex; [lia|]. specialize (Hx x Hin Ex). lia.
    + rewrite fn_lookup_insert_ne by done. intros Hnz'. destruct (g_left0 t' Eb Hnz') as (?&?&Hx').
      split_and!; [done..|]. intros x [->|Hin]%elem_of_cons Ex; [|auto].
      destruct (g_own0 t t' Eb); done.
  - intros t1 t2 _ Hne. destruct (decide (t = t1)) as [->|]; [|destruct (decide (t = t2)) as [->|]];
      rewrite ?fn_lookup_insert, ?fn_lookup_insert_ne by done; intros H1 H2; rewrite ?Hnext; by apply g_own0.
Qed.

Lemma draw_inv n s s' :
  inv n s → step s s' → 1 + stride * (zlen (g_log s')) < u64_mod → ∃ n', inv n' s'.
Proof.
  intros Hi [t node thd wall ts curr m' E] Hb. simpl in Hb. pose proof stride_pos as Hp.
  pose proof (g_cnt _ _ _ _ _ Hi) as Hc. pose proof (g_n _ _ _ _ _ Hi) as Hn.
  assert (1 + stride * (n + 1) < u64_mod) as Hroom by nia.
  assert (0 ≤ stride * n) as Hsn by nia.
  destruct (get_ts_fresh n node thd wall (g_man s) Hc ltac:(lia) Hroom) as (m1&Eg&Hm1).
  unfold get_next_ts in E.
  destruct (sumbool_of_bool batch_alloc) as [Eb|Eb]; rewrite Eb in E; cbn iota in E; rewrite <-Eb in E.
  - destruct (Z.eqb_spec (g_curr s t `mod` batch_num) 0) as [Hz|Hnz].
    + rewrite Eg in E. simpl in E. assert (first_ts = 1) as Hf1.
      { unfold Globals.first_ts. destruct Halloc as [->|[-> ?]]; [done|congruence]. }
      assert (is_u64 (first_ts + stride * n + 1)) as Hu.
      { unfold is_u64. lia. }
      rewrite (wrap64_small _ Hu) in E. rewrite wrap64_small in E; [|unfold is_u64 in *; lia].
      injection E as <- <- <-. exists (n + 1).
      replace (first_ts + stride * n + 1 - 1) with (first_ts + stride * n) by lia.
      apply fresh_inv; [done..|lia|done].
    + destruct (g_left _ _ _ _ _ Hi t) as (Hf&Hbl&_); [done..|].
      assert (g_curr s t - first_ts < stride * n).
      { unfold Globals.block in Hbl. pose proof (Z.mul_succ_div_gt (g_curr s t - first_ts) stride Hp). nia. }
      assert (first_ts = 1) as Hf1.
      { unfold Globals.first_ts. destruct Halloc as [->|[-> ?]]; [done|congruence]. }
      pose proof (g_zero _ _ _ _ _ Hi t) as Hz.
      rewrite (wrap64_small (g_curr s t + 1)) in E by (unfold is_u64; lia).
      replace (g_curr s t + 1 - 1) with (g_curr s t) in E by lia.
      rewrite wrap64_small in E by (unfold is_u64; lia).
      injection E as <- <- <-. exists n. by apply next_inv.
  - rewrite Eg in E. simpl in E. injection E as <- <- <-. exists (n + 1).
    apply fresh_inv; [done..| |congruence]. unfold Globals.first_ts. destruct alloc; lia.
Qed.

Lemma draw_reach s :
  rtc step gen_start s → 1 + stride * zlen (g_log s) < u64_mod → ∃ n, inv n s.
Proof.
  revert s. pose proof stride_pos as Hp.
  apply (rtc_ind_r (λ s, 1 + stride * zlen (g_log s) < u64_mod → ∃ n, inv n s)).
  - intros _. exists 0. split; simpl; try lia; try set_solver; try constructor.
  - intros s1 s2 _ Hs IH Hb. destruct IH as [n Hi]; [|by eapply draw_inv].
    destruct Hs. simpl in Hb. nia.
Qed.

End draw_lemmas.

(** ** Properties *)

(** Timestamps drawn from the shared counter, with the mutex, with an atomic
    add or in batches, by any number of threads in any order, are all different, as
    long as the 64-bit counter does not run over. *)
Theorem ts_counter_unique c alloc batch_alloc batch_num s :
  alloc = TS_CAS ∨ (alloc = TS_MUTEX ∧ batch_alloc = false) → 0 < batch_num →
  rtc (draw c alloc batch_alloc batch_num) gen_start s →
  1 + (if batch_alloc then batch_num else 1) * zlen (g_log s) < u64_mod →
  NoDup (g_log s).
Proof.
  intros Ha Hb Hr Hroom. destruct (draw_reach c alloc batch_alloc batch_num Ha Hb s Hr Hroom) as [n []].
  done.
Qed.

Definition ex_cfg : config := mkCfg 2 4 2 1 0.
Definition ex_gen : gen :=
  mkGen (mkMan 21 0 0) (<[1%nat := 3]> (<[0%nat := 12]> (<[1%nat := 2]> (λ _, 0)))) [2; 11; 1].

Lemma ts_counter_unique_witness : NoDup (g_log ex_gen).
Proof.
  refine (ts_counter_unique ex_cfg TS_CAS true 10 ex_gen _ _ _ _); [by left|lia| |reflexivity].
  eapply rtc_l; [apply (draw_ts _ _ _ _ _ 1%nat 0 1 0); reflexivity|].
  eapply rtc_l; [apply (draw_ts _ _ _ _ _ 0%nat 0 0 0); reflexivity|].
  eapply rtc_l; [apply (draw_ts _ _ _ _ _ 1%nat 0 1 0); reflexivity|]. apply rtc_refl.
Defined.

(** The counts are those of a cluster: positive and with a product in 32 bits. *)
Definition cfg_ok (c : config) : Prop :=
  0 < g_node_cnt c ∧ 0 < g_thread_cnt c ∧ g_thread_cnt c * g_node_cnt c < u32_mod.

(** A thread of the cluster, and a clock value that leaves room for the product. *)
Definition thread_ok (c : config) (node thd wall : Z) : Prop :=
  0 ≤ node < g_node_cnt c ∧ 0 ≤ thd < g_thread_cnt c ∧ 0 ≤ wall ∧
  wall * (g_node_cnt c + g_thread_cnt c) + g_node_cnt c * g_thread_cnt c ≤ u64_mod.

Lemma cfg_counts c : cfg_ok c →
  is_u32 (g_thread_cnt c * g_node_cnt c) ∧
  g_node_cnt c + g_thread_cnt c ≤ g_thread_cnt c * g_node_cnt c + 1.
Proof. intros (?&?&?). unfold is_u32. nia. Qed.

Lemma clock_ts_eq c node thd wall :
  cfg_ok c → thread_ok c node thd wall → is_u32 (g_node_cnt c + g_thread_cnt c) →
  clock_ts c node thd wall =
    (g_node_cnt c + g_thread_cnt c) * wall + (node * g_thread_cnt c + thd) ∧
  0 ≤ node * g_thread_cnt c + thd < g_node_cnt c * g_thread_cnt c.
Proof.
  intros Hc (Hn&Ht&Hw&Hroom) Hs. destruct (cfg_counts c Hc) as [Hu _]. destruct Hc as (?&?&?).
  assert (0 ≤ node * g_thread_cnt c + thd < g_node_cnt c * g_thread_cnt c) as Hoff by nia.
  split; [|done]. unfold clock_ts. rewrite (wrap32_small (g_node_cnt c + _)) by done.
  assert (0 ≤ node * g_thread_cnt c ≤ node * g_thread_cnt c + thd) by nia.
  assert (0 ≤ wall * (g_node_cnt c + g_thread_cnt c)) by nia.
  unfold is_u32, u64_mod, u32_mod in *.
  rewrite (wrap32_small (node * _)) by (unfold is_u32, u32_mod; lia).
  rewrite !wrap64_small; unfold is_u64, u64_mod; lia.
Qed.

(** C26: clock timestamps (the default of config.h) are unique over the whole
    cluster exactly when the cluster has at most as many threads as the sum of the
    node and thread counts the clock is multiplied with. *)
Theorem ts_clock_unique_iff c :
  cfg_ok c → is_u32 (g_node_cnt c + g_thread_cnt c) →
  (∀ n1 t1 w1 n2 t2 w2, thread_ok c n1 t1 w1 → thread_ok c n2 t2 w2 →
     clock_ts c n1 t1 w1 = clock_ts c n2 t2 w2 → n1 = n2 ∧ t1 = t2 ∧ w1 = w2) ↔
  g_node_cnt c * g_thread_cnt c ≤ g_node_cnt c + g_thread_cnt c.
Proof.
  intros Hc Hs. pose proof Hc as (Hn&Ht&Hp). set (S := g_node_cnt c + g_thread_cnt c) in *. split.
  - intros Hinj. apply Z.le_ngt. intros Hlt.
    pose proof (Z.div_mod S (g_thread_cnt c)) as Hdm.
    pose proof (Z.mod_pos_bound S (g_thread_cnt c)) as Hmod.
    set (q := S / g_thread_cnt c) in *. set (r := S `mod` g_thread_cnt c) in *.
    assert (thread_ok c q r 0) as H1.
    { split_and!; try (unfold u64_mod, u32_mod in *; lia); try nia. }
    assert (thread_ok c 0 0 1) as H2.
    { split_and!; try lia. fold S. unfold is_u32, u64_mod, u32_mod in *. lia. }
    destruct (clock_ts_eq c q r 0 Hc H1 Hs) as [E1 _]. destruct (clock_ts_eq c 0 0 1 Hc H2 Hs) as [E2 _].
    destruct (Hinj q r 0 0 0 1 H1 H2) as (_&_&?); [|done]. rewrite E1, E2. fold S. nia.
  - intros Hle n1 t1 w1 n2 t2 w2 H1 H2.
    destruct (clock_ts_eq c n1 t1 w1 Hc H1 Hs) as [-> B1].
    destruct (clock_ts_eq c n2 t2 w2 Hc H2 Hs) as [-> B2]. fold S. intros E.
    destruct H1 as (?&?&_), H2 as (?&?&_).
    destruct (div_mod_inj S w1 (n1 * g_thread_cnt c + t1) w2 (n2 * g_thread_cnt c + t2)) as [-> E']; try lia.
    destruct (div_mod_inj (g_thread_cnt c) n1 t1 n2 t2) as [-> ->]; lia.
Qed.

(** Two nodes of four threads each: not unique. *)
Lemma ts_clock_unique_iff_witness :
  ¬ (∀ n1 t1 w1 n2 t2 w2, thread_ok ex_cfg n1 t1 w1 → thread_ok ex_cfg n2 t2 w2 →
       clock_ts ex_cfg n1 t1 w1 = clock_ts ex_cfg n2 t2 w2 → n1 = n2 ∧ t1 = t2 ∧ w1 = w2).
Proof.
  intros H. apply (ts_clock_unique_iff ex_cfg) in H; [done|..]; vm_compute; repeat split; done.
Defined.

Lemma next_txn_id_eq c node thd k :
  cfg_ok c → 0 ≤ node < g_node_cnt c → 0 ≤ thd < g_thread_cnt c → 0 ≤ k →
  g_thread_cnt c * g_node_cnt c * (k + 1) < u64_mod →
  (get_next_txn_id c node thd k).1
    = g_node_cnt c * (g_thread_cnt c * k + thd) + node.
Proof.
  intros Hc Hn Ht Hk Hroom. destruct (cfg_counts c Hc) as [Hu _]. destruct Hc as (?&?&?).
  unfold get_next_txn_id. simpl. rewrite (wrap32_small (g_thread_cnt c * _)) by done.
  assert (0 ≤ thd * g_node_cnt c) by nia.
  assert (node + thd * g_node_cnt c < g_thread_cnt c * g_node_cnt c) by nia.
  assert (0 ≤ g_thread_cnt c * g_node_cnt c * k) by nia.
  rewrite !wrap64_small; unfold is_u64; lia.
Qed.

(** A transaction id names the node and the thread that made it and the number
    of transactions that thread had started: ids are never given twice in the
    cluster, and the node the id belongs to is the node it was made on. *)
Theorem txn_id_unique_local c n1 t1 k1 n2 t2 k2 :
  cfg_ok c →
  0 ≤ n1 < g_node_cnt c → 0 ≤ t1 < g_thread_cnt c → 0 ≤ k1 →
  g_thread_cnt c * g_node_cnt c * (k1 + 1) < u64_mod →
  0 ≤ n2 < g_node_cnt c → 0 ≤ t2 < g_thread_cnt c → 0 ≤ k2 →
  g_thread_cnt c * g_node_cnt c * (k2 + 1) < u64_mod →
  let id1 := (get_next_txn_id c n1 t1 k1).1 in
  let id2 := (get_next_txn_id c n2 t2 k2).1 in
  (id1 = id2 → n1 = n2 ∧ t1 = t2 ∧ k1 = k2) ∧
  GET_NODE_ID c id1 = n1 ∧
  ∀ alg n, alg ≠ CALVIN → IS_LOCAL c alg n id1 = bool_decide (n = n1).
Proof.
  intros Hc Hn1 Ht1 Hk1 R1 Hn2 Ht2 Hk2 R2. cbv zeta.
  rewrite (next_txn_id_eq c n1 t1 k1), (next_txn_id_eq c n2 t2 k2) by done.
  destruct Hc as (Hn&Ht&_).
  assert ((g_node_cnt c * (g_thread_cnt c * k1 + t1) + n1) `mod` g_node_cnt c = n1) as Hmod.
  { rewrite Z.add_comm, Z.mul_comm, Z.mod_add by lia. by apply Z.mod_small. }
  split_and!; [|done|].
  - intros E. destruct (div_mod_inj (g_node_cnt c) (g_thread_cnt c * k1 + t1) n1
      (g_thread_cnt c * k2 + t2) n2) as [E' ->]; [lia..|].
    by destruct (div_mod_inj (g_thread_cnt c) k1 t1 k2 t2) as [-> ->].
  - intros alg n Halg. unfold IS_LOCAL. rewrite Hmod, (bool_decide_false (alg = CALVIN)) by done.
    rewrite orb_false_r. destruct (Z.eqb_spec n1 n); [by rewrite bool_decide_true|].
    by rewrite bool_decide_false.
Qed.

Lemma txn_id_unique_local_witness : GET_NODE_ID ex_cfg (get_next_txn_id ex_cfg 1 2 5).1 = 1.
Proof.
  refine (proj1 (proj2 (txn_id_unique_local ex_cfg 1 2 5 1 2 5 _ _ _ _ _ _ _ _ _)));
    vm_compute; repeat split; done.
Defined.

(** Composite index keys of two and of three parts are packed without loss: the
    parts come back by shifting and masking, so different parts have different keys;
    parts that do not fit fail the assertion. *)
Theorem merge_idx_key_roundtrip key1 key2 key3 :
  is_u64 key1 → is_u64 key2 → is_u64 key3 →
  (match merge_idx_key2 key1 key2 with
   | Some k => is_u64 k ∧ Z.shiftr k 32 = key1 ∧ Z.land k (Z.ones 32) = key2
   | None => 2 ^ 32 ≤ key1 ∨ 2 ^ 32 ≤ key2
   end) ∧
  (match merge_idx_key3 key1 key2 key3 with
   | Some k => is_u64 k ∧ Z.shiftr k 42 = key1 ∧ Z.land (Z.shiftr k 21) (Z.ones 21) = key2 ∧
               Z.land k (Z.ones 21) = key3
   | None => 2 ^ 21 ≤ key1 ∨ 2 ^ 21 ≤ key2 ∨ 2 ^ 21 ≤ key3
   end).
Proof.
  unfold is_u64, u64_mod. intros H1 H2 H3. split.
  - unfold merge_idx_key2. change (Z.shiftl 1 32) with (2 ^ 32).
    destruct (Z.ltb_spec key1 (2 ^ 32)); [|simpl; lia].
    destruct (Z.ltb_spec key2 (2 ^ 32)); [|simpl; lia]. simpl.
    rewrite wrap64_small; [|rewrite Z.shiftl_mul_pow2 by lia; unfold is_u64, u64_mod; lia].
    rewrite lor_shift_add, Z.shiftr_div_pow2, Z.land_ones by lia.
    rewrite Z.div_add_l, Z.div_small by lia. rewrite Z.add_comm, Z.mod_add, Z.mod_small by lia. lia.
  - unfold merge_idx_key3. change (Z.shiftl 1 21) with (2 ^ 21).
    destruct (Z.ltb_spec key1 (2 ^ 21)); [|simpl; lia].
    destruct (Z.ltb_spec key2 (2 ^ 21)); [|simpl; lia].
    destruct (Z.ltb_spec key3 (2 ^ 21)); [|simpl; lia]. simpl.
    rewrite !wrap64_small; [|rewrite Z.shiftl_mul_pow2 by lia; unfold is_u64, u64_mod; lia..].
    rewrite <-Z.lor_assoc, (lor_shift_add key2), lor_shift_add by lia.
    rewrite !Z.shiftr_div_pow2, !Z.land_ones by lia.
    replace (key1 * 2 ^ 42 + (key2 * 2 ^ 21 + key3))
      with (2 ^ 21 * (key1 * 2 ^ 21 + key2) + key3) by lia.
    split_and!; try lia.
    + symmetry. apply Z.div_unique with (key2 * 2 ^ 21 + key3); lia.
    + rewrite (Z.mul_comm (2 ^ 21)), Z.div_add_l, (Z.div_small key3), Z.add_0_r by lia.
      rewrite Z.add_comm, Z.mod_add, Z.mod_small by lia. lia.
    + rewrite (Z.mul_comm (2 ^ 21)), Z.add_comm, Z.mod_add, Z.mod_small by lia. lia.
Qed.

Lemma merge_idx_key_roundtrip_witness :
  match merge_idx_key2 7 9 with
  | Some k => is_u64 k ∧ Z.shiftr k 32 = 7 ∧ Z.land k (Z.ones 32) = 9
  | None => 2 ^ 32 ≤ 7 ∨ 2 ^ 32 ≤ 9
  end.
Proof. refine (proj1 (merge_idx_key_roundtrip 7 9 1 _ _ _)); split; vm_compute; done. Defined.

(** The servers a client node sends to. *)
Definition serves (c : config) (node_id server : Z) : Prop :=
  let g := init_client_globals c node_id in
  g_server_start_node g ≤ server < g_server_start_node g + g_servers_per_client g.

Lemma client_range c i :
  0 < g_client_node_cnt c ≤ g_node_cnt c → g_node_cnt c + g_client_node_cnt c < u32_mod →
  0 ≤ i < g_client_node_cnt c →
  let q := g_node_cnt c / g_client_node_cnt c in
  init_client_globals c (g_node_cnt c + i) =
    mkCG (q + if decide (i = g_client_node_cnt c - 1) then g_node_cnt c `mod` g_client_node_cnt c else 0)
      1 (i * q).
Proof.
  intros HC Hu Hi q. unfold init_client_globals.
  pose proof (Z.div_mod (g_node_cnt c) (g_client_node_cnt c) ltac:(lia)) as Hdm.
  pose proof (Z.mod_pos_bound (g_node_cnt c) (g_client_node_cnt c) ltac:(lia)) as Hmod.
  fold q in Hdm |- *. assert (0 < q) by nia. assert (0 ≤ i * q < g_node_cnt c) by nia.
  replace (if g_client_node_cnt c <? g_node_cnt c then (q, 1) else (1, g_client_node_cnt c / g_node_cnt c))
    with (q, 1).
  2: { destruct (Z.ltb_spec (g_client_node_cnt c) (g_node_cnt c)); [done|].
       assert (g_client_node_cnt c = g_node_cnt c) as E by lia. 
       unfold q. by rewrite E, !Z.div_same by lia. }
  replace (wrap32 (g_node_cnt c + i - g_node_cnt c)) with i.
  2: { rewrite wrap32_small; unfold is_u32; lia. }
  rewrite (wrap32_small (i * q)) by (unfold is_u32; lia).
  rewrite (Z.mod_small (i * q)) by done.
  rewrite (wrap32_small (g_node_cnt c + g_client_node_cnt c)) by (unfold is_u32; lia).
  rewrite (wrap32_small (_ - 1)) by (unfold is_u32; lia).
  rewrite (proj2 (Z.leb_le _ _)) by lia. simpl.
  destruct (Z.eqb_spec (g_node_cnt c `mod` g_client_node_cnt c) 0) as [->|Hr]; simpl.
  { case_decide; by rewrite Z.add_0_r. }
  destruct (Z.eqb_spec (g_node_cnt c + i) (g_node_cnt c + g_client_node_cnt c - 1)); case_decide; try lia.
  - rewrite wrap32_small; [done|]. unfold is_u32. nia.
  - by rewrite Z.add_0_r.
Qed.

(** With no more client nodes than servers, every server is served by exactly
    one client node, leftover servers included. *)
Theorem clients_partition_servers c server :
  0 < g_client_node_cnt c ≤ g_node_cnt c → g_node_cnt c + g_client_node_cnt c < u32_mod →
  0 ≤ server < g_node_cnt c →
  ∃ node, ISCLIENTN c node = true ∧ serves c node server ∧
    ∀ node', ISCLIENTN c node' = true → serves c node' server → node' = node.
Proof.
  intros HC Hu Hs.
  pose proof (Z.div_mod (g_node_cnt c) (g_client_node_cnt c) ltac:(lia)) as Hdm.
  pose proof (Z.mod_pos_bound (g_node_cnt c) (g_client_node_cnt c) ltac:(lia)) as Hmod.
  set (q := g_node_cnt c / g_client_node_cnt c) in *. assert (0 < q) by nia.
  assert (∀ node, ISCLIENTN c node = true ↔ g_node_cnt c ≤ node < g_node_cnt c + g_client_node_cnt c) as Hcl.
  { intros node. unfold ISCLIENTN. rewrite wrap32_small by (unfold is_u32; lia). lia. }
  assert (∀ i, 0 ≤ i < g_client_node_cnt c → serves c (g_node_cnt c + i) server ↔
    i * q ≤ server < i * q + (q + if decide (i = g_client_node_cnt c - 1)
      then g_node_cnt c `mod` g_client_node_cnt c else 0)) as Hserve.
  { intros i Hi. unfold serves. by rewrite client_range. }
  pose proof (Z.div_mod server q ltac:(lia)). pose proof (Z.mod_pos_bound server q ltac:(lia)).
  assert (0 ≤ server / q) by (apply Z.div_pos; lia).
  exists (g_node_cnt c + Z.min (server / q) (g_client_node_cnt c - 1)).
  assert (0 ≤ Z.min (server / q) (g_client_node_cnt c - 1) < g_client_node_cnt c) as Hmin by lia.
  split_and!.
  - apply Hcl. lia.
  - apply Hserve; [lia|]. destruct (Z.min_spec (server / q) (g_client_node_cnt c - 1)) as [[? ->]|[? ->]];
      case_decide; nia.
  - intros node' Hcl' Hs'. apply Hcl in Hcl'.
    replace node' with (g_node_cnt c + (node' - g_node_cnt c)) in Hs' |- * by lia. f_equal.
    apply Hserve in Hs'; [|lia]. set (i := node' - g_node_cnt c) in *.
    destruct (Z.min_spec (server / q) (g_client_node_cnt c - 1)) as [[? ->]|[? ->]]; case_decide; nia.
Qed.

Lemma clients_partition_servers_witness :
  ∃ node, ISCLIENTN (mkCfg 7 1 1 3 0) node = true ∧ serves (mkCfg 7 1 1 3 0) node 6.
Proof.
  destruct (clients_partition_servers (mkCfg 7 1 1 3 0) 6) as (node&?&?&_); simpl; [lia|done|lia|].
  by exists node.
Defined.

(** The array version of [merge_idx_key] runs its loop [64 / key_cnt] times, not
    [key_cnt] times: with fewer than eight keys it reads past the array. *)
Lemma merge_loop_short n len keys key : (length keys < n)%nat → merge_loop n len keys key = None.
Proof.
  revert keys key. induction n as [|n IH]; intros keys key Hl; [lia|]. simpl.
  destruct keys as [|k keys]; [done|]. destruct (_ && _); [|done]. simpl in *. apply IH. lia.
Qed.

Theorem merge_idx_key_array_overrun key_cnt keys :
  0 < key_cnt < 8 → zlen keys = key_cnt → merge_idx_key_array key_cnt keys = None.
Proof.
  intros Hk Hl. unfold merge_idx_key_array. rewrite (proj2 (Z.eqb_neq key_cnt 0)) by lia. simpl.
  apply merge_loop_short.
  assert (8 ≤ 64 / key_cnt) by (apply Z.div_le_lower_bound; lia). lia.
Qed.

End Globals.
