(* ===== verification/Pool.v ===== *)
(** * Pool: the object pools

    Model of system/pool.cpp: seven pools of recycled objects.  A pool is its
    free queues (one per thread, or one shared queue) of pointers; the allocator is
    the next fresh pointer and what was freed.  [boost::lockfree::queue] is not part
    of the repository: popping takes the oldest element, and whether an attempt to
    push succeeds is an input of [put], one answer per attempt.  The contents of the
    objects, which [init], [reset] and [release] change, are not part of the pool. *)

From S2P Require Import Prelude.

Module Pool.

Definition ptr := nat.

(** [mem_allocator]: pointers below [mem_next] were allocated before. *)
Record mem := mkMem { mem_next : ptr; mem_freed : list ptr }.

Definition alloc (m : mem) : ptr * mem := (mem_next m, mkMem (S (mem_next m)) (mem_freed m)).
Definition free (p : ptr) (m : mem) : mem := mkMem (mem_next m) (p :: mem_freed m).

(** The free queues, oldest element first. *)
Abbreviation pool := (list (list ptr)).

(** ** Common parts *)

Definition TRY_LIMIT : nat := 10.

(** [pool[thd_id]->pop(item)] *)
Definition pop (thd : nat) (p : pool) : option ptr * pool :=
  match p !! thd with
  | Some (x :: q) => (Some x, <[thd := q]> p)
  | _ => (None, p)
  end.

(** [pool[thd_id]->push(item)] when it succeeds. *)
Definition push (thd : nat) (item : ptr) (p : pool) : pool :=
  <[thd := (p !!! thd) ++ [item]]> p.

(** [while (!push(item) && tries++ < TRY_LIMIT) { }] with [left] more increments
    below the limit: whether the item was pushed, and [tries] afterwards. *)
Fixpoint push_tries (ok : nat → bool) (left tries : nat) : bool * nat :=
  if ok tries then (true, tries)
  else match left with
       | O => (false, S tries)
       | S left' => push_tries ok left' (S tries)
       end.

Definition put_retry (ok : nat → bool) (thd : nat) (item : ptr) (p : pool) (m : mem)
    : pool * mem :=
  let '(pushed, tries) := push_tries ok TRY_LIMIT 0 in
  let p := if pushed then push thd item p else p in
  (p, if (TRY_LIMIT <=? tries)%nat then free item m else m).

Definition get_or_alloc (thd : nat) (p : pool) (m : mem) : ptr * pool * mem :=
  match pop thd p with
  | (Some x, p') => (x, p', m)
  | (None, p') => let '(x, m') := alloc m in (x, p', m')
  end.

(** [while (pool->pop(item)) free(item)] *)
Fixpoint free_list (l : list ptr) (m : mem) : mem :=
  match l with [] => m | x :: l' => free_list l' (free x m) end.
Definition free_queues (p : pool) (m : mem) : pool * mem :=
  ((λ _, []) <$> p, free_list (concat p) m).

(** Fill a pool: [n] fresh objects, numbered from [i], put one after the other. *)
Fixpoint fill_thread (put : nat → ptr → pool → mem → pool * mem) (n i : nat)
    (p : pool) (m : mem) : pool * mem :=
  match n with
  | O => (p, m)
  | S n' =>
      let '(item, m) := alloc m in
      let '(p, m) := put i item p m in
      fill_thread put n' (S i) p m
  end.
(** The same for [n] threads, from [thd] on. *)
Fixpoint fill (put : nat → nat → ptr → pool → mem → pool * mem) (n thd size : nat)
    (p : pool) (m : mem) : pool * mem :=
  match n with
  | O => (p, m)
  | S n' => let '(p, m) := fill_thread (put thd) size 0 p m in fill put n' (S thd) size p m
  end.

(** ** The pools *)

(** The pools of transactions, managers and queries are shared under Calvin. *)
Definition queue_of (alg : CC_ALG) (thd : nat) : nat :=
  if bool_decide (alg = CALVIN) then 0%nat else thd.
Definition queue_cnt (alg : CC_ALG) (threads : nat) : nat :=
  if bool_decide (alg = CALVIN) then 1%nat else threads.

Definition TxnManPool_get (alg : CC_ALG) (thd : nat) := get_or_alloc (queue_of alg thd).
Definition TxnManPool_put (alg : CC_ALG) (ok : nat → bool) (thd : nat) :=
  put_retry ok (queue_of alg thd).
Definition TxnManPool_init (alg : CC_ALG) (ok : nat → nat → nat → bool) (threads size : nat) :=
  fill (λ thd i, TxnManPool_put alg (ok thd i) thd) threads 0 size
    (replicate (queue_cnt alg threads) []).
Definition TxnManPool_free_all (alg : CC_ALG) := free_queues.

Definition TxnPool_get (alg : CC_ALG) (thd : nat) := get_or_alloc (queue_of alg thd).
Definition TxnPool_put (alg : CC_ALG) (ok : nat → bool) (thd : nat) :=
  put_retry ok (queue_of alg thd).
Definition TxnPool_init (alg : CC_ALG) (ok : nat → nat → nat → bool) (threads size : nat) :=
  fill (λ thd i, TxnPool_put alg (ok thd i) thd) threads 0 size
    (replicate (queue_cnt alg threads) []).

(** A new query is allocated twice; the first block is never used again. *)
Definition QryPool_get (alg : CC_ALG) (thd : nat) (p : pool) (m : mem) : ptr * pool * mem :=
  match pop (queue_of alg thd) p with
  | (Some x, p') => (x, p', m)
  | (None, p') =>
      let '(_, m) := alloc m in let '(x, m) := alloc m in (x, p', m)
  end.
Definition QryPool_put (alg : CC_ALG) (ok : nat → bool) (thd : nat) :=
  put_retry ok (queue_of alg thd).

Definition AccessPool_get (thd : nat) := get_or_alloc thd.
(** One attempt, its answer ignored. *)
Definition AccessPool_put (ok : bool) (thd : nat) (item : ptr) (p : pool) (m : mem) : pool * mem :=
  (if ok then push thd item p else p, m).

Definition TxnTablePool_get (thd : nat) := get_or_alloc thd.
Definition TxnTablePool_put (ok : nat → bool) (thd : nat) := put_retry ok thd.

Definition MsgPool_get := get_or_alloc 0.
Definition MsgPool_put (ok : nat → bool) := put_retry ok 0.

Definition RowPool_get (thd : nat) := get_or_alloc thd.
Definition RowPool_put (ok : nat → bool) (thd : nat) := put_retry ok thd.

(** ** Who owns a pointer *)

(** A pool with its users: the objects handed out and not yet returned. *)
Record world := mkW { w_pool : pool; w_mem : mem; w_used : list ptr }.

(** The push answers of one put: ten failures followed by a success are [late]. *)
Definition late (ok : nat → bool) : Prop := (∀ i, (i < TRY_LIMIT)%nat → ok i = false) ∧ ok TRY_LIMIT = true.

Inductive step (w : world) : world → Prop :=
  | step_get thd x p' m' :
      get_or_alloc thd (w_pool w) (w_mem w) = (x, p', m') →
      step w (mkW p' m' (x :: w_used w))
  | step_get_query alg thd x p' m' :
      QryPool_get alg thd (w_pool w) (w_mem w) = (x, p', m') →
      step w (mkW p' m' (x :: w_used w))
  | step_put ok thd x u1 u2 p' m' :
      w_used w = u1 ++ x :: u2 → (thd < length (w_pool w))%nat → ¬ late ok →
      put_retry ok thd x (w_pool w) (w_mem w) = (p', m') →
      step w (mkW p' m' (u1 ++ u2))
  | step_put_once ok thd x u1 u2 p' m' :
      w_used w = u1 ++ x :: u2 → (thd < length (w_pool w))%nat →
      AccessPool_put ok thd x (w_pool w) (w_mem w) = (p', m') →
      step w (mkW p' m' (u1 ++ u2))
  | step_other x m' :
      (* some other code allocates *)
      alloc (w_mem w) = (x, m') → step w (mkW (w_pool w) m' (w_used w)).

(** The pointers in play: free, handed out, and given back to the allocator. *)
Definition owned (w : world) : list ptr := concat (w_pool w) ++ w_used w ++ mem_freed (w_mem w).

Record inv (w : world) : Prop := {
  p_nodup : NoDup (owned w);
  p_old : ∀ x, x ∈ owned w → (x < mem_next (w_mem w))%nat }.

(** ** Lemmas *)

Lemma push_tries_spec ok left tries :
  push_tries ok left tries =
    match list_find (λ i, ok i = true) (seq tries (S left)) with
    | Some (_, i) => (true, i)
    | None => (false, tries + S left)%nat
    end.
Proof.
  revert tries. induction left as [|left IH]; intros tries.
  - simpl. destruct (decide (ok tries = true)) as [E|E].
    + by rewrite E.
    + apply not_true_is_false in E. rewrite E. simpl. f_equal. lia.
  - cbn [push_tries]. change (seq tries (S (S left))) with (tries :: seq (S tries) (S left)).
    cbn [list_find]. destruct (decide (ok tries = true)) as [E|E].
    + by rewrite E.
    + pose proof (not_true_is_false _ E) as ->. rewrite IH.
      destruct (list_find _ _) as [[??]|]; simpl; [done|]. f_equal. lia.
Qed.

(** What a put with retries does to its item. *)
Lemma push_tries_result ok :
  let '(pushed, tries) := push_tries ok TRY_LIMIT 0 in
  (pushed = true ↔ ∃ i, (i ≤ TRY_LIMIT)%nat ∧ ok i = true) ∧
  ((TRY_LIMIT ≤ tries)%nat ↔ ∀ i, (i < TRY_LIMIT)%nat → ok i = false).
Proof.
  rewrite push_tries_spec. destruct (list_find _ _) as [[j i]|] eqn:E.
  - apply list_find_Some in E as (E&Hok&Hmin). apply lookup_seq in E as [-> Hj]. cbn [Nat.add] in *.
    split.
    + split; [|done]. intros _. exists j. split; [lia|done].
    + split.
      * intros Hle k Hk. destruct (ok k) eqn:Ek; [|done].
        exfalso. apply (Hmin k k); [apply lookup_seq; lia|lia|done].
      * intros Hall. destruct (decide (TRY_LIMIT ≤ j)%nat) as [|Hlt]; [done|].
        rewrite Hall in Hok by lia. done.
  - apply list_find_None in E. rewrite Forall_forall in E. split.
    + split; [done|]. intros (i&Hi&Hok). destruct (E i); [|done]. apply elem_of_seq. lia.
    + split; [|intros; unfold TRY_LIMIT; lia]. intros _ i Hi. destruct (ok i) eqn:Ei; [|done].
      destruct (E i); [|done]. apply elem_of_seq. lia.
Qed.

Lemma concat_push thd x p :
  (thd < length p)%nat → concat (push thd x p) ≡ₚ x :: concat p.
Proof.
  unfold push. intros Hl. revert thd Hl.
  induction p as [|q p IH]; intros thd Hl; simpl in *; [lia|].
  destruct thd as [|thd]; simpl.
  - rewrite <-app_assoc. simpl. by rewrite Permutation_middle.
  - rewrite Permutation_middle. by rewrite (IH thd) by lia.
Qed.

Lemma concat_pop thd p :
  match pop thd p with
  | (Some x, p') => concat p ≡ₚ x :: concat p'
  | (None, p') => p' = p
  end.
Proof.
  unfold pop. destruct (p !! thd) as [[|x q]|] eqn:E; [done| |done].
  revert thd E. induction p as [|q' p IH]; intros thd E; [done|].
  destruct thd as [|thd]; simpl in *; [by simplify_eq|].
  by rewrite Permutation_middle, <-(IH _ E).
Qed.

(** An object changes hands without being duplicated. *)
Lemma inv_moved w w' :
  inv w → owned w' ⊆+ owned w → (mem_next (w_mem w) ≤ mem_next (w_mem w'))%nat → inv w'.
Proof.
  intros [Hd Ho] Hs Hn. split.
  - apply submseteq_Permutation in Hs as [k Hk]. rewrite Hk in Hd. by apply NoDup_app in Hd as [? _].
  - intros x Hx. pose proof (Ho x (elem_of_submseteq _ _ _ Hx Hs)). lia.
Qed.

(** A fresh object joins. *)
Lemma inv_fresh w w' x :
  inv w → owned w' ≡ₚ x :: owned w → (mem_next (w_mem w) ≤ x < mem_next (w_mem w'))%nat → inv w'.
Proof.
  intros [Hd Ho] Hp Hx. split.
  - rewrite Hp. constructor; [|done]. intros Hin. specialize (Ho x Hin). lia.
  - intros y Hy. rewrite Hp in Hy. apply elem_of_cons in Hy as [->|Hy]; [lia|].
    specialize (Ho y Hy). lia.
Qed.

Lemma get_inv w thd x p' m' :
  inv w → get_or_alloc thd (w_pool w) (w_mem w) = (x, p', m') →
  inv (mkW p' m' (x :: w_used w)).
Proof.
  intros Hi. unfold get_or_alloc. pose proof (concat_pop thd (w_pool w)) as Hp.
  destruct (pop thd (w_pool w)) as [[y|] p1]; simpl; intros [= <- <- <-].
  - eapply inv_moved; [done| |done]. unfold owned. simpl. rewrite Hp. simpl.
    apply Permutation_submseteq. by rewrite <-Permutation_middle.
  - subst p1. eapply (inv_fresh w _ (mem_next (w_mem w))); [done| |simpl; lia]. unfold owned. simpl.
    by rewrite <-Permutation_middle.
Qed.

Lemma get_query_inv w alg thd x p' m' :
  inv w → QryPool_get alg thd (w_pool w) (w_mem w) = (x, p', m') →
  inv (mkW p' m' (x :: w_used w)).
Proof.
  intros Hi E. unfold QryPool_get in E.
  destruct (pop (queue_of alg thd) (w_pool w)) as [[y|] p1] eqn:Ep; simpl in E.
  - apply (get_inv w (queue_of alg thd)); [done|]. unfold get_or_alloc. by rewrite Ep.
  - injection E as <- <- <-.
    pose proof (concat_pop (queue_of alg thd) (w_pool w)) as Hp. rewrite Ep in Hp. subst p1.
    eapply (inv_fresh w _ (S (mem_next (w_mem w)))); [done| |simpl; lia]. unfold owned. simpl.
    by rewrite <-Permutation_middle.
Qed.

Lemma owned_used (c u1 u2 f : list ptr) x :
  c ++ (u1 ++ x :: u2) ++ f ≡ₚ x :: c ++ (u1 ++ u2) ++ f.
Proof. rewrite <-(Permutation_middle u1). simpl. by rewrite <-Permutation_middle. Qed.

(** Giving an object back: it goes to the queue, to the allocator, or nowhere. *)
Lemma put_inv w x u1 u2 (p' : pool) m' :
  inv w → w_used w = u1 ++ x :: u2 →
  (concat p' ≡ₚ x :: concat (w_pool w) ∧ m' = w_mem w ∨
   p' = w_pool w ∧ (m' = w_mem w ∨ m' = free x (w_mem w))) →
  inv (mkW p' m' (u1 ++ u2)).
Proof.
  intros Hi Hu Hcase. apply (inv_moved w); [done| |].
  - unfold owned. rewrite Hu, owned_used. destruct Hcase as [[Hc ->]|[-> [->| ->]]]; simpl.
    + apply Permutation_submseteq. by rewrite Hc.
    + by apply submseteq_cons.
    + apply Permutation_submseteq. by rewrite app_assoc, <-Permutation_middle, <-app_assoc.
  - by destruct Hcase as [[_ ->]|[_ [->| ->]]].
Qed.

Lemma step_inv_pool w w' : inv w → step w w' → inv w'.
Proof.
  intros Hi [thd x p' m' E|alg thd x p' m' E|ok thd x u1 u2 p' m' Hu Hl Hlate E|
             ok thd x u1 u2 p' m' Hu Hl E|x m' E].
  - by eapply get_inv.
  - by eapply get_query_inv.
  - eapply put_inv; [done..|]. unfold put_retry in E. pose proof (push_tries_result ok) as Hr.
    destruct (push_tries ok TRY_LIMIT 0) as [[] tries]; destruct Hr as [H1 H2];
      destruct (Nat.leb_spec TRY_LIMIT tries); injection E as <- <-.
    + exfalso. apply Hlate. destruct (proj1 H1 eq_refl) as (i&Hi'&Hok).
      assert (∀ i, (i < TRY_LIMIT)%nat → ok i = false) as Hall by (by apply H2). split; [done|].
      destruct (decide (i = TRY_LIMIT)) as [->|]; [done|]. rewrite Hall in Hok by lia. done.
    + left. split; [by apply concat_push|done].
    + right. auto.
    + right. auto.
  - eapply put_inv; [done..|]. injection E as <- <-. destruct ok; [left|right; by auto].
    split; [by apply concat_push|done].
  - injection E as <- <-. apply (inv_moved w); [done|done|simpl; lia].
Qed.

Lemma concat_empty n : concat (replicate n ([] : list ptr)) = [].
Proof. by induction n. Qed.

(** ** Properties *)

(** C27: as long as no put sees ten failed attempts followed by a success, an object
    a pool hands out is in nobody's hands, is not in a free queue any more and was
    not given back to the allocator, whatever the threads did before. *)
Theorem pool_exclusive threads w w' thd x p' m' :
  w = mkW (replicate threads []) (mkMem 0%nat []) [] → rtc step w w' →
  get_or_alloc thd (w_pool w') (w_mem w') = (x, p', m') →
  (x ∉ w_used w') ∧ (x ∉ mem_freed m') ∧ (x ∉ concat p').
Proof.
  intros -> Hr E. assert (inv w') as Hi.
  { assert (inv (mkW (replicate threads []) (mkMem 0%nat []) [])) as H0.
    { split; unfold owned; simpl; rewrite concat_empty; [constructor|by intros ? ?%elem_of_nil]. }
    clear E. induction Hr; [done|]. eauto using step_inv_pool. }
  pose proof (p_nodup _ (get_inv w' thd x p' m' Hi E)) as Hd. unfold owned in Hd. simpl in Hd.
  apply NoDup_app in Hd as (_&H1&[H2 _]%NoDup_cons).
  rewrite not_elem_of_app in H2. destruct H2. split_and!; [done..|].
  intros Hx. by destruct (H1 x Hx (list_elem_of_here _ _)).
Qed.

(** A put with retries queues its item exactly when one of the first eleven
    attempts succeeds and frees it exactly when the first ten fail: after ten
    failures and a success the item is free memory and in the queue at once. *)
Theorem pool_put_outcome ok thd item p m p' m' :
  (thd < length p)%nat → (item ∉ concat p) → (item ∉ mem_freed m) →
  put_retry ok thd item p m = (p', m') →
  (item ∈ concat p' ↔ ∃ i, (i ≤ TRY_LIMIT)%nat ∧ ok i = true) ∧
  (item ∈ mem_freed m' ↔ ∀ i, (i < TRY_LIMIT)%nat → ok i = false) ∧
  (item ∈ concat p' ∧ item ∈ mem_freed m' ↔ late ok).
Proof.
  intros Hl Hp Hm E. unfold put_retry in E. pose proof (push_tries_result ok) as Hr.
  destruct (push_tries ok TRY_LIMIT 0) as [pushed tries]. destruct Hr as [H1 H2].
  injection E as <- <-.
  assert (item ∈ concat (if pushed then push thd item p else p) ↔ pushed = true) as Hq.
  { destruct pushed; [|done]. split; [done|]. intros _. rewrite concat_push by done. by left. }
  assert (item ∈ mem_freed (if (TRY_LIMIT <=? tries)%nat then free item m else m)
          ↔ (TRY_LIMIT ≤ tries)%nat) as Hf.
  { destruct (Nat.leb_spec TRY_LIMIT tries); simpl; [set_solver|]. split; [done|lia]. }
  rewrite Hq, Hf, H1, H2. split_and!; [done..|]. unfold late. split.
  - intros [(i&Hi&Hok) Hall]. split; [done|].
    destruct (decide (i = TRY_LIMIT)) as [->|]; [done|]. rewrite Hall in Hok by lia. done.
  - intros [Hall Hok]. eauto.
Qed.

(** Thread 0 takes an object and gives it back at the second attempt. *)
Definition ex_start : world := mkW (replicate 2 []) (mkMem 0%nat []) [].
Definition ex_back : world := mkW [[0%nat]; []] (mkMem 1%nat []) [].

Lemma pool_exclusive_witness :
  get_or_alloc 0 (w_pool ex_back) (w_mem ex_back) = (0%nat, [[]; []], mkMem 1%nat []) ∧
  (0%nat ∉ mem_freed (mkMem 1%nat [])).
Proof.
  split; [reflexivity|].
  refine (proj1 (proj2 (pool_exclusive 2 ex_start ex_back 0 0%nat [[]; []] (mkMem 1%nat []) eq_refl _ _)));
    [|reflexivity].
  eapply rtc_l; [apply (step_get _ 0); reflexivity|].
  eapply rtc_l; [|apply rtc_refl].
  apply (step_put _ (λ i, bool_decide (i = 1%nat)) 0 0%nat [] []); [reflexivity|simpl; lia| |reflexivity].
  intros [H _]. specialize (H 1%nat). vm_compute in H. discriminate H. lia.
Defined.

Definition ex_late (i : nat) : bool := bool_decide (i = TRY_LIMIT).

Lemma pool_put_outcome_witness :
  ∃ p' m', put_retry ex_late 0 7%nat [[]] (mkMem 8%nat []) = (p', m') ∧
    7%nat ∈ concat p' ∧ 7%nat ∈ mem_freed m'.
Proof.
  eexists _, _. split; [reflexivity|].
  apply (pool_put_outcome ex_late 0 7%nat [[]] (mkMem 8%nat []));
    [simpl; lia|by intros ?%elem_of_nil|by intros ?%elem_of_nil|reflexivity|].
  split; [|done]. intros i Hi. apply bool_decide_eq_false. lia.
Defined.

End Pool.
