(* ===== verification/TxnTable.v ===== *)
(** * TxnTable: the table of running transactions

    Model of [class TxnTable] (system/txn_table.h, txn_table.cpp): an array of
    buckets of nodes, each pointing to a transaction manager.  Ids and timestamps
    are fields of the managers and are read through the pointer, so the managers are
    a heap next to the table.  The [modify] flag of a bucket makes a call one atomic
    step.  The manager for a new transaction comes from the pool, which [Pool]
    models; its timestamp is what its last user left. *)

From S2P Require Import Prelude HashTable Globals.
Import HashTable.

Module TxnTable.

Definition man_ptr := nat.

(** The fields of [TxnManager] the table uses. *)
Record TxnMan := mkMan { tm_id : Z; tm_batch : Z; tm_ts : Z }.
Abbreviation heap := (man_ptr → TxnMan).

(** [pool_node]: the nodes of a bucket, from [head] to [tail]. *)
Record pool_node := mkPN { pn_nodes : list man_ptr; pn_cnt : Z; pn_min_ts : Z }.

Record table := mkTT { pool_size : Z; pool : list pool_node }.

#[global] Instance pool_node_inhabited : Inhabited pool_node := populate (mkPN [] 0 0).

(** What [restart_txn] puts into the work queue. *)
Inductive restart_msg := RTXN (m : man_ptr) | RTXN_CONT (m : man_ptr) | RQRY_CONT (m : man_ptr).

(** ** Operations *)

Section ops.
Context (alg : CC_ALG).

Definition calvin : bool := bool_decide (alg = CALVIN).
Definition mvcc : bool := bool_decide (alg = MVCC).

Definition init (g_inflight_max : Z) : table :=
  let size := wrap64 (g_inflight_max + 1) in
  mkTT size (replicate (Z.to_nat size) (mkPN [] 0 UINT64_MAX)).

Definition pool_id (t : table) (txn_id : Z) : nat := Z.to_nat (txn_id `mod` pool_size t).

Definition set_bucket (i : nat) (b : pool_node) (t : table) : table :=
  mkTT (pool_size t) (<[i := b]> (pool t)).

Definition is_matching_txn_node (h : heap) (n : man_ptr) (txn_id batch_id : Z) : bool :=
  if calvin then (tm_id (h n) =? txn_id) && (tm_batch (h n) =? batch_id)
  else tm_id (h n) =? txn_id.

Definition update_min_ts (txn_id ts : Z) (t : table) : table :=
  let b := pool t !!! pool_id t txn_id in
  if ts <? pn_min_ts b then set_bucket (pool_id t txn_id) (mkPN (pn_nodes b) (pn_cnt b) ts) t
  else t.

(** The search of [get_transaction_manager] and [restart_txn]. *)
Fixpoint find_node (h : heap) (txn_id batch_id : Z) (l : list man_ptr) : option man_ptr :=
  match l with
  | [] => None
  | n :: l' => if is_matching_txn_node h n txn_id batch_id then Some n
               else find_node h txn_id batch_id l'
  end.

(** [fresh] is the manager [txn_man_pool.get] hands out if one is needed. *)
Definition get_transaction_manager (txn_id batch_id : Z) (fresh : man_ptr) (h : heap) (t : table)
    : man_ptr * heap * table :=
  let i := pool_id t txn_id in
  let b := pool t !!! i in
  let '(man, h, b) :=
    match find_node h txn_id batch_id (pn_nodes b) with
    | Some n => (n, h, b)
    | None =>
        (fresh, <[fresh := mkMan txn_id batch_id (tm_ts (h fresh))]> h,
         mkPN (pn_nodes b ++ [fresh]) (wrap64 (pn_cnt b + 1)) (pn_min_ts b))
    end in
  let b :=
    if mvcc && (tm_ts (h man) <? pn_min_ts b) then mkPN (pn_nodes b) (pn_cnt b) (tm_ts (h man))
    else b in
  (man, h, set_bucket i b t).

Definition restart_txn (c : Globals.config) (node_id txn_id batch_id : Z) (h : heap) (t : table)
    : option restart_msg :=
  match find_node h txn_id batch_id (pn_nodes (pool t !!! pool_id t txn_id)) with
  | Some n =>
      Some (if calvin then RTXN n
            else if Globals.IS_LOCAL c alg node_id txn_id then RTXN_CONT n else RQRY_CONT n)
  | None => None
  end.

(** The loop of [release_transaction_manager]: the nodes left, how many were
    unlinked, the node to give back and, under MVCC, the new minimum.  Under MVCC
    the loop goes on after a match. *)
Fixpoint release_loop (h : heap) (txn_id batch_id : Z) (l : list man_ptr) (min_ts : Z)
    : list man_ptr * Z * option man_ptr * Z :=
  match l with
  | [] => ([], 0, None, min_ts)
  | n :: l' =>
      if is_matching_txn_node h n txn_id batch_id then
        if mvcc then
          let '(rest, k, saved, m) := release_loop h txn_id batch_id l' min_ts in
          (rest, k + 1, match saved with Some s => Some s | None => Some n end, m)
        else (l', 1, Some n, min_ts)
      else
        let min_ts := if mvcc && (tm_ts (h n) <? min_ts) then tm_ts (h n) else min_ts in
        let '(rest, k, saved, m) := release_loop h txn_id batch_id l' min_ts in
        (n :: rest, k, saved, m)
  end.

(** The manager given back to the pool, and the table. *)
Definition release_transaction_manager (txn_id batch_id : Z) (h : heap) (t : table)
    : option (man_ptr * table) :=
  let i := pool_id t txn_id in
  let b := pool t !!! i in
  let '(rest, k, saved, m) := release_loop h txn_id batch_id (pn_nodes b) UINT64_MAX in
  n ← saved;
  Some (n, set_bucket i (mkPN rest (wrap64 (pn_cnt b - k)) (if mvcc then m else pn_min_ts b)) t).

Definition get_min_ts (t : table) : Z :=
  foldl (λ m b, if pn_min_ts b <? m then pn_min_ts b else m) UINT64_MAX (pool t).

(** ** The table as a finite map *)

(** The key of a manager: the id, and the batch under Calvin. *)
Definition key (txn_id batch_id : Z) : Z * Z := (txn_id, if calvin then batch_id else 0).
Definition man_key (h : heap) (n : man_ptr) : Z * Z := key (tm_id (h n)) (tm_batch (h n)).
Definition key_bucket (t : table) (k : Z * Z) : nat := pool_id t k.1.

Definition nodes (t : table) : list (list man_ptr) := pn_nodes <$> pool t.

Record wf (h : heap) (t : table) : Prop := {
  w_ht : ht_wf (man_key h) (key_bucket t) (nodes t);
  w_cnt : ∀ i b, pool t !! i = Some b → pn_cnt b = wrap64 (zlen (pn_nodes b)) }.

(** The transactions of the table, as a map from keys to managers. *)
Definition represents (h : heap) (t : table) (m : gmap (Z * Z) man_ptr) : Prop :=
  wf h t ∧ ∀ k, ht_find (man_key h) (key_bucket t) (nodes t) k = m !! k.

(** The specification: look up or add; remove. *)
Definition spec_get (k : Z * Z) (fresh : man_ptr) (m : gmap (Z * Z) man_ptr)
    : man_ptr * gmap (Z * Z) man_ptr :=
  match m !! k with Some n => (n, m) | None => (fresh, <[k := fresh]> m) end.
Definition spec_release (k : Z * Z) (m : gmap (Z * Z) man_ptr)
    : option (man_ptr * gmap (Z * Z) man_ptr) :=
  n ← m !! k; Some (n, delete k m).

(** Runs of calls; [OGet] carries the manager the pool would hand out. *)
Inductive op := OGet (txn_id batch_id : Z) (fresh : man_ptr)
              | ORelease (txn_id batch_id : Z)
              | OMinTs (txn_id ts : Z).

(** What the callers see. *)
Inductive res := RMan (n : man_ptr) | RGone (n : man_ptr) | RDone.

Fixpoint run (ops : list op) (h : heap) (t : table) : option (list res) :=
  match ops with
  | [] => Some []
  | OGet id b fresh :: ops' =>
      let '(n, h, t) := get_transaction_manager id b fresh h t in
      (RMan n ::.) <$> run ops' h t
  | ORelease id b :: ops' =>
      '(n, t) ← release_transaction_manager id b h t; (RGone n ::.) <$> run ops' h t
  | OMinTs id ts :: ops' => (RDone ::.) <$> run ops' h (update_min_ts id ts t)
  end.

Fixpoint spec_run (ops : list op) (m : gmap (Z * Z) man_ptr) : option (list res) :=
  match ops with
  | [] => Some []
  | OGet id b fresh :: ops' =>
      let '(n, m) := spec_get (key id b) fresh m in (RMan n ::.) <$> spec_run ops' m
  | ORelease id b :: ops' =>
      '(n, m) ← spec_release (key id b) m; (RGone n ::.) <$> spec_run ops' m
  | OMinTs _ _ :: ops' => (RDone ::.) <$> spec_run ops' m
  end.

(** The pool hands out managers that are not in the table. *)
Fixpoint fresh_ok (ops : list op) (m : gmap (Z * Z) man_ptr) : Prop :=
  match ops with
  | [] => True
  | OGet id b fresh :: ops' =>
      (∀ k, m !! k ≠ Some fresh) ∧ fresh_ok ops' (spec_get (key id b) fresh m).2
  | ORelease id b :: ops' =>
      match spec_release (key id b) m with Some (_, m) => fresh_ok ops' m | None => True end
  | OMinTs _ _ :: ops' => fresh_ok ops' m
  end.

(** ** Lemmas *)

Lemma matching_key h n id b :
  is_matching_txn_node h n id b = bool_decide (man_key h n = key id b).
Proof.
  unfold is_matching_txn_node, man_key, key. destruct calvin.
  - destruct (Z.eqb_spec (tm_id (h n)) id), (Z.eqb_spec (tm_batch (h n)) b);
      simpl; symmetry; rewrite ?bool_decide_eq_true, ?bool_decide_eq_false; congruence.
  - destruct (Z.eqb_spec (tm_id (h n)) id);
      symmetry; rewrite ?bool_decide_eq_true, ?bool_decide_eq_false; congruence.
Qed.

Lemma find_node_scan h id b l : find_node h id b l = scan (man_key h) (key id b) l.
Proof.
  induction l as [|n l IH]; simpl; [done|]. rewrite matching_key. by case_bool_decide.
Qed.

(** The release loop finds and unlinks the node, and computes the minimum of the
    others. *)
Lemma release_loop_spec h id b l m0 :
  NoDup (man_key h <$> l) →
  ∃ m, release_loop h id b l m0 =
    (scan_remove (man_key h) (key id b) l,
     match scan (man_key h) (key id b) l with Some _ => 1 | None => 0 end,
     scan (man_key h) (key id b) l, m) ∧
    (mvcc = true → m ≤ m0 ∧ ∀ n, n ∈ scan_remove (man_key h) (key id b) l → m ≤ tm_ts (h n)).
Proof.
  revert m0. induction l as [|n l IH]; intros m0; simpl.
  { intros _. exists m0. split; [done|]. split; [lia|by intros ? ?%elem_of_nil]. }
  intros [Hn Hd]%NoDup_cons. rewrite matching_key. case_bool_decide as Hk.
  - destruct mvcc eqn:Em; [|by exists m0].
    destruct (IH m0 Hd) as (m&E&Hm). rewrite E. rewrite Hk in Hn. apply scan_None in Hn as Hs.
    rewrite Hs in E |- *. rewrite (scan_remove_None _ _ _ Hs) in E, Hm |- *. by exists m.
  - set (m1 := if mvcc && _ then _ else m0).
    destruct (IH m1 Hd) as (m&->&Hm). exists m. split; [done|]. intros Em. destruct (Hm Em) as [H1 H2].
    assert (m1 ≤ m0 ∧ m1 ≤ tm_ts (h n)) as [H3 H4].
    { unfold m1. rewrite Em. simpl. destruct (Z.ltb_spec (tm_ts (h n)) m0); lia. }
    split; [lia|]. intros n' [->|Hn']%elem_of_cons; [lia|auto].
Qed.

Lemma nodes_set_bucket i b t : nodes (set_bucket i b t) = <[i := pn_nodes b]> (nodes t).
Proof. unfold nodes, set_bucket. simpl. by rewrite list_fmap_insert. Qed.

Lemma nodes_bucket h t id :
  wf h t → pool t !! pool_id t id = Some (pool t !!! pool_id t id) ∧
  nodes t !!! pool_id t id = pn_nodes (pool t !!! pool_id t id).
Proof.
  intros [Hw _]. pose proof (ht_range _ _ _ Hw (id, 0)) as Hl. unfold key_bucket, nodes in *. simpl in Hl.
  rewrite length_fmap in Hl. split; [by apply list_lookup_lookup_total_lt|].
  rewrite !list_lookup_total_alt, list_lookup_fmap.
  apply lookup_lt_is_Some in Hl as [b ->]. done.
Qed.

(** Lookups and updates of a bucket, in terms of the generic table. *)
Lemma find_node_find h t id b :
  wf h t → find_node h id b (pn_nodes (pool t !!! pool_id t id))
    = ht_find (man_key h) (key_bucket t) (nodes t) (key id b).
Proof.
  intros Hw. rewrite find_node_scan. unfold ht_find, key_bucket. simpl.
  by destruct (nodes_bucket h t id Hw) as [_ ->].
Qed.

Lemma wf_set_bucket h t i b :
  wf h t → ht_wf (man_key h) (key_bucket t) (<[i := pn_nodes b]> (nodes t)) →
  pn_cnt b = wrap64 (zlen (pn_nodes b)) → wf h (set_bucket i b t).
Proof.
  intros [Hw Hc] Hw' Hb. split; [by rewrite nodes_set_bucket|].
  intros j b' Hj. simpl in Hj. apply list_lookup_insert_Some in Hj as [(<-&<-&_)|[_ Hj]]; eauto.
Qed.

(** Only the timestamp of a bucket changes. *)
Lemma represents_min h t i b ts m :
  represents h t m → pool t !! i = Some b →
  represents h (set_bucket i (mkPN (pn_nodes b) (pn_cnt b) ts) t) m.
Proof.
  intros [Hw Hm] Hb.
  assert (<[i := pn_nodes b]> (nodes t) = nodes t) as E.
  { apply list_insert_id. unfold nodes. by rewrite list_lookup_fmap, Hb. }
  split.
  - apply wf_set_bucket; simpl; [done|rewrite E; apply Hw|by eapply w_cnt].
  - intros k. rewrite <-Hm. unfold ht_find. rewrite nodes_set_bucket. simpl. by rewrite E.
Qed.

Lemma represents_in h t m i b n :
  represents h t m → nodes t !! i = Some b → n ∈ b → m !! man_key h n = Some n.
Proof.
  intros [Hw Hm] Hi Hn. rewrite <-Hm. unfold ht_find.
  rewrite (ht_place _ _ _ (w_ht _ _ Hw) i b n Hi Hn).
  rewrite (list_lookup_total_correct _ _ _ Hi).
  apply scan_elem; [|done|done]. by apply (ht_nodup _ _ _ (w_ht _ _ Hw) i).
Qed.

(** Writing to a manager that is not in the table. *)
Lemma represents_heap h h' t m :
  represents h t m → (∀ n k, m !! k = Some n → h' n = h n) → represents h' t m.
Proof.
  intros Hr Hh. pose proof Hr as [[Hw Hc] Hm].
  assert (∀ i b n, nodes t !! i = Some b → n ∈ b → man_key h n = man_key h' n) as Hk.
  { intros i b n Hi Hn. unfold man_key. by rewrite (Hh n _ (represents_in _ _ _ _ _ _ Hr Hi Hn)). }
  split; [split; [|done]|].
  - by eapply ht_wf_key_ext.
  - intros k. rewrite <-Hm. unfold ht_find. symmetry. apply scan_key_ext. intros n Hn.
    apply (Hk (key_bucket t k) (nodes t !!! key_bucket t k)); [|done]. by apply (ht_bucket (man_key h)).
Qed.

(** A new manager joins the bucket of its id. *)
Lemma represents_add h t m id b fresh c :
  represents h t m → m !! key id b = None → (∀ k, m !! k ≠ Some fresh) →
  let h' := <[fresh := mkMan id b c]> h in
  let bk := pool t !!! pool_id t id in
  represents h' (set_bucket (pool_id t id)
    (mkPN (pn_nodes bk ++ [fresh]) (wrap64 (pn_cnt bk + 1)) (pn_min_ts bk)) t)
    (<[key id b := fresh]> m).
Proof.
  intros Hr Hn Hf h' bk.
  assert (represents h' t m) as Hr'.
  { eapply represents_heap; [done|]. intros n k Hk. unfold h'.
    rewrite fn_lookup_insert_ne; [done|]. intros ->. by apply (Hf k). }
  destruct Hr' as [Hw Hm]. destruct (nodes_bucket h' t id Hw) as [Hb Hnb].
  assert (man_key h' fresh = key id b) as Hkey.
  { unfold man_key, h'. by rewrite fn_lookup_insert. }
  assert (ht_find (man_key h') (key_bucket t) (nodes t) (man_key h' fresh) = None) as Hnone.
  { rewrite Hm, Hkey. done. }
  assert (<[pool_id t id := pn_nodes bk ++ [fresh]]> (nodes t)
    = ht_put_tail (key_bucket t) (nodes t) (man_key h' fresh) fresh) as E.
  { unfold ht_put_tail, key_bucket. rewrite Hkey. simpl. by rewrite Hnb. }
  split.
  - apply wf_set_bucket; simpl; [done| |].
    + rewrite E. apply ht_wf_put_tail; [apply Hw|done].
    + pose proof (w_cnt _ _ Hw _ _ Hb) as Hc. fold bk in Hc.
      rewrite Hc, wrap64_add, length_app. f_equal. simpl. lia.
  - intros k. rewrite nodes_set_bucket. simpl. rewrite E.
    change (key_bucket (set_bucket _ _ t)) with (key_bucket t).
    rewrite ht_find_put_tail by (done || apply Hw). rewrite Hkey. case_decide as Hk.
    + subst. by rewrite lookup_insert_eq.
    + by rewrite lookup_insert_ne.
Qed.

Lemma set_bucket_id h t id : wf h t → set_bucket (pool_id t id) (pool t !!! pool_id t id) t = t.
Proof.
  intros Hw. destruct (nodes_bucket h t id Hw) as [Hb _]. destruct t as [sz p]. unfold set_bucket.
  simpl in *. by rewrite list_insert_id.
Qed.

Lemma represents_min_again h t b m id ts :
  represents h (set_bucket (pool_id t id) b t) m →
  represents h (set_bucket (pool_id t id) (mkPN (pn_nodes b) (pn_cnt b) ts) t) m.
Proof.
  intros Hr. replace (set_bucket (pool_id t id) (mkPN _ _ ts) t)
    with (set_bucket (pool_id t id) (mkPN (pn_nodes b) (pn_cnt b) ts) (set_bucket (pool_id t id) b t)).
  - apply represents_min; [done|]. destruct (nodes_bucket _ _ id (proj1 Hr)) as [Hb _].
    simpl in *. change (pool_id (set_bucket _ b t) id) with (pool_id t id) in Hb.
    apply lookup_lt_Some in Hb as Hl. rewrite length_insert in Hl. by rewrite list_lookup_insert_eq.
  - unfold set_bucket. simpl. by rewrite list_insert_insert_eq.
Qed.

Lemma get_represents h t m id b fresh :
  represents h t m → (∀ k, m !! k ≠ Some fresh) →
  let '(n, h', t') := get_transaction_manager id b fresh h t in
  let '(n', m') := spec_get (key id b) fresh m in n = n' ∧ represents h' t' m'.
Proof.
  intros Hr Hf. pose proof Hr as [Hw Hm]. unfold get_transaction_manager, spec_get.
  rewrite find_node_find, Hm by done. destruct (nodes_bucket h t id Hw) as [Hb _].
  destruct (m !! key id b) as [n|] eqn:E.
  - split; [done|]. rewrite <-(set_bucket_id h t id Hw) in Hr.
    destruct (mvcc && _); [|done]. by apply (represents_min_again _ _ _ _ id).
  - split; [done|].
    pose proof (represents_add h t m id b fresh (tm_ts (h fresh)) Hr E Hf) as Ha. simpl in Ha.
    destruct (mvcc && _); [|done]. exact (represents_min_again _ _ _ _ id _ Ha).
Qed.

Lemma release_represents h t m id b :
  represents h t m →
  match release_transaction_manager id b h t with
  | Some (n, t') => ∃ m', spec_release (key id b) m = Some (n, m') ∧ represents h t' m'
  | None => spec_release (key id b) m = None
  end.
Proof.
  intros [Hw Hm]. unfold release_transaction_manager, spec_release.
  destruct (nodes_bucket h t id Hw) as [Hb Hnb]. set (bk := pool t !!! pool_id t id) in *.
  destruct (release_loop_spec h id b (pn_nodes bk) UINT64_MAX) as (mn&->&_).
  { rewrite <-Hnb. apply (ht_nodup _ _ _ (w_ht _ _ Hw) (pool_id t id)).
    by apply (ht_bucket (man_key h) (key_bucket t) (nodes t) (id, 0)), w_ht. }
  assert (scan (man_key h) (key id b) (pn_nodes bk) = m !! key id b) as Hs.
  { rewrite <-Hm. unfold ht_find, key_bucket. simpl. by rewrite Hnb. }
  rewrite Hs. destruct (m !! key id b) as [n|] eqn:E; [|done]. simpl.
  eexists. split; [done|].
  assert (<[pool_id t id := scan_remove (man_key h) (key id b) (pn_nodes bk)]> (nodes t)
    = ht_remove (man_key h) (key_bucket t) (nodes t) (key id b)) as Er.
  { unfold ht_remove, key_bucket. simpl. by rewrite Hnb. }
  split.
  - apply wf_set_bucket; simpl; [done| |].
    + rewrite Er. apply ht_wf_remove, Hw.
    + pose proof (w_cnt _ _ Hw _ _ Hb) as Hc. rewrite Hc.
      rewrite (scan_remove_length _ _ _ _ Hs). unfold wrap64. rewrite Zminus_mod_idemp_l.
      f_equal. lia.
  - intros k. rewrite nodes_set_bucket. simpl. rewrite Er.
    change (key_bucket (set_bucket _ _ t)) with (key_bucket t).
    rewrite ht_find_remove by apply Hw. case_decide as Hk.
    + subst. by rewrite lookup_delete_eq.
    + by rewrite lookup_delete_ne.
Qed.

Lemma update_represents h t m id ts : represents h t m → represents h (update_min_ts id ts t) m.
Proof.
  intros Hr. unfold update_min_ts. destruct (_ <? _); [|done]. apply represents_min; [done|].
  by apply (nodes_bucket h t id (proj1 Hr)).
Qed.

Lemma run_refines ops h t m :
  represents h t m → fresh_ok ops m → run ops h t = spec_run ops m.
Proof.
  revert h t m. induction ops as [|[id b fresh|id b|id ts] ops IH]; intros h t m Hr Hf; simpl in *; [done|..].
  - destruct Hf as [Hf1 Hf2]. pose proof (get_represents h t m id b fresh Hr Hf1) as Hg.
    destruct (get_transaction_manager id b fresh h t) as [[n h'] t'].
    destruct (spec_get (key id b) fresh m) as [n' m']. destruct Hg as [-> Hr'].
    by rewrite (IH h' t' m').
  - pose proof (release_represents h t m id b Hr) as Hg.
    destruct (release_transaction_manager id b h t) as [[n t']|].
    + destruct Hg as (m'&E&Hr'). rewrite E in Hf |- *. simpl. by rewrite (IH h t' m').
    + by rewrite Hg.
  - rewrite (IH h (update_min_ts id ts t) m); [done|by apply update_represents|done].
Qed.

Lemma init_represents h inflight :
  0 ≤ inflight < u64_mod - 1 → represents h (init inflight) ∅.
Proof.
  intros Hi. unfold init. rewrite wrap64_small by (unfold is_u64; lia).
  assert (nodes (mkTT (inflight + 1) (replicate (Z.to_nat (inflight + 1)) (mkPN [] 0 UINT64_MAX)))
    = replicate (Z.to_nat (inflight + 1)) []) as E.
  { unfold nodes. simpl. by rewrite fmap_replicate. }
  split; [split|].
  - rewrite E. apply ht_wf_empty. intros k. unfold key_bucket, pool_id. simpl.
    pose proof (Z.mod_pos_bound k.1 (inflight + 1)). lia.
  - intros i b [-> _]%lookup_replicate_1. done.
  - intros k. rewrite E. by rewrite ht_find_empty, lookup_empty.
Qed.

(** ** Properties *)

(** C28: any sequence of gets, releases and timestamp updates returns what a finite
    map from transaction ids (with the batch, under Calvin) to managers would:
    a get finds the manager of a running transaction or adds the one from the pool,
    a release gives that manager back and fails its assertion when there is none. *)
Theorem txn_table_refines ops h inflight :
  0 ≤ inflight < u64_mod - 1 → fresh_ok ops ∅ → run ops h (init inflight) = spec_run ops ∅.
Proof. intros Hi Hf. apply run_refines; [by apply init_represents|done]. Qed.

End ops.

Lemma txn_table_refines_witness :
  run NO_WAIT [OGet 5 0 0%nat; OGet 8 0 1%nat; OGet 5 0 2%nat; ORelease 5 0] (λ _, mkMan 0 0 0) (init 2)
  = Some [RMan 0%nat; RMan 1%nat; RMan 0%nat; RGone 0%nat].
Proof.
  rewrite (txn_table_refines NO_WAIT); [reflexivity|done|].
  simpl. repeat split; intros k Hk.
  - by rewrite lookup_empty in Hk.
  - change (<[(5, 0) := 0%nat]> (∅ : gmap (Z * Z) man_ptr) !! k = Some 1%nat) in Hk.
    apply lookup_insert_Some in Hk as [[_ ?]|[_ Hk]]; [done|]. by rewrite lookup_empty in Hk.
  - change (<[(8, 0) := 1%nat]> (<[(5, 0) := 0%nat]> (∅ : gmap (Z * Z) man_ptr)) !! k = Some 2%nat) in Hk.
    apply lookup_insert_Some in Hk as [[_ ?]|[_ Hk]]; [done|].
    apply lookup_insert_Some in Hk as [[_ ?]|[_ Hk]]; [done|]. by rewrite lookup_empty in Hk.
Defined.

(** ** The minimum timestamp under MVCC *)

(** The table in use: [reg] are the managers whose timestamp was announced with
    [update_min_ts] since they joined the table. *)
Record mstate := mkMS { ms_heap : heap; ms_table : table; ms_reg : list man_ptr }.

Definition in_table (t : table) (n : man_ptr) : Prop :=
  ∃ i b, pool t !! i = Some b ∧ n ∈ pn_nodes b.

Inductive mstep (s : mstate) : mstate → Prop :=
  | ms_get id fresh n h' t' :
      ¬ in_table (ms_table s) fresh →
      get_transaction_manager MVCC id 0 fresh (ms_heap s) (ms_table s) = (n, h', t') →
      mstep s (mkMS h' t' (if decide (n = fresh) then filter (.≠ n) (ms_reg s) else ms_reg s))
  | ms_set_timestamp n ts :
      (* a restart takes a newer timestamp *)
      (n ∈ ms_reg s → tm_ts (ms_heap s n) ≤ ts) →
      mstep s (mkMS (<[n := mkMan (tm_id (ms_heap s n)) (tm_batch (ms_heap s n)) ts]> (ms_heap s))
                 (ms_table s) (ms_reg s))
  | ms_announce n :
      mstep s (mkMS (ms_heap s)
        (update_min_ts (tm_id (ms_heap s n)) (tm_ts (ms_heap s n)) (ms_table s)) (n :: ms_reg s))
  | ms_announce_other id ts :
      (* a restart announces under the id [UINT64_MAX] *)
      mstep s (mkMS (ms_heap s) (update_min_ts id ts (ms_table s)) (ms_reg s))
  | ms_release id n t' :
      release_transaction_manager MVCC id 0 (ms_heap s) (ms_table s) = Some (n, t') →
      mstep s (mkMS (ms_heap s) t' (ms_reg s)).

(** The nodes of a bucket have their ids there, and the minimum of the bucket is at
    most the announced timestamps. *)
Definition bucket_ok (h : heap) (t : table) (reg : list man_ptr) (i : nat) (b : pool_node) : Prop :=
  ∀ n, n ∈ pn_nodes b →
    pool_id t (tm_id (h n)) = i ∧ (n ∈ reg → pn_min_ts b ≤ tm_ts (h n)).

Definition min_inv (s : mstate) : Prop :=
  ∀ i b, pool (ms_table s) !! i = Some b → bucket_ok (ms_heap s) (ms_table s) (ms_reg s) i b.

Definition mstart (h : heap) (inflight : Z) : mstate := mkMS h (init inflight) [].

Lemma release_loop_min h id b l m0 rest k saved m :
  release_loop MVCC h id b l m0 = (rest, k, saved, m) →
  m ≤ m0 ∧ ∀ n, n ∈ rest → n ∈ l ∧ m ≤ tm_ts (h n).
Proof.
  revert m0 rest k saved m. induction l as [|n l IH]; intros m0 rest k saved m; simpl.
  { intros [= <- <- <- <-]. split; [lia|by intros ? ?%elem_of_nil]. }
  destruct (is_matching_txn_node _ _ _ _ _).
  - destruct (release_loop MVCC h id b l m0) as [[[r1 k1] s1] m1] eqn:E. intros [= <- <- <- <-].
    destruct (IH _ _ _ _ _ E) as [H1 H2]. split; [done|]. intros n' Hn'.
    destruct (H2 n' Hn'). split; [by right|done].
  - set (m1 := if tm_ts (h n) <? m0 then _ else _).
    destruct (release_loop MVCC h id b l m1) as [[[r1 k1] s1] m2] eqn:E. intros [= <- <- <- <-].
    destruct (IH _ _ _ _ _ E) as [H1 H2].
    assert (m1 ≤ m0 ∧ m1 ≤ tm_ts (h n)) as [H3 H4].
    { unfold m1. destruct (Z.ltb_spec (tm_ts (h n)) m0); lia. }
    split; [lia|]. intros n' [->|Hn']%elem_of_cons; [split; [by left|lia]|].
    destruct (H2 n' Hn'). split; [by right|done].
Qed.

Lemma inv_bucket h t reg i : min_inv (mkMS h t reg) → bucket_ok h t reg i (pool t !!! i).
Proof.
  intros Hi. rewrite list_lookup_total_alt. destruct (pool t !! i) as [b|] eqn:E.
  - by apply (Hi i b).
  - by intros n ?%elem_of_nil.
Qed.

Lemma inv_set_bucket h t reg i b :
  min_inv (mkMS h t reg) → bucket_ok h t reg i b → min_inv (mkMS h (set_bucket i b t) reg).
Proof.
  intros Hi Hb j b' Hj. simpl in *.
  apply list_lookup_insert_Some in Hj as [(<-&<-&_)|[_ Hj]]; [done|]. by apply (Hi j).
Qed.

(** Managers in the table keep their id, and their timestamp unless it grows. *)
Lemma inv_heap h h' t reg reg' :
  min_inv (mkMS h t reg) →
  (∀ n, in_table t n → tm_id (h' n) = tm_id (h n) ∧
     (n ∈ reg' → n ∈ reg ∧ tm_ts (h n) ≤ tm_ts (h' n))) →
  min_inv (mkMS h' t reg').
Proof.
  intros Hi Hh i b Hb n Hn. destruct (Hi i b Hb n Hn) as [H1 H2]. simpl in *.
  destruct (Hh n) as [Hid Hr]; [by exists i, b|]. rewrite Hid. split; [done|].
  intros Hn'. destruct (Hr Hn') as [Hn1 ?]. specialize (H2 Hn1). lia.
Qed.

Lemma update_min_inv h t reg id ts :
  min_inv (mkMS h t reg) → min_inv (mkMS h (update_min_ts id ts t) reg).
Proof.
  intros Hi. unfold update_min_ts. destruct (Z.ltb_spec ts (pn_min_ts (pool t !!! pool_id t id))); [|done].
  apply inv_set_bucket; [done|]. intros n Hn. simpl in *.
  destruct (inv_bucket h t reg (pool_id t id) Hi n Hn) as [H1 H2]. split; [done|].
  intros Hr. specialize (H2 Hr). lia.
Qed.

Lemma announce_min_inv h t reg n :
  min_inv (mkMS h t reg) →
  min_inv (mkMS h (update_min_ts (tm_id (h n)) (tm_ts (h n)) t) (n :: reg)).
Proof.
  intros Hi i b Hb n' Hn'. pose proof (update_min_inv h t reg (tm_id (h n)) (tm_ts (h n)) Hi i b Hb n' Hn')
    as [H1 H2]. simpl in *. split; [done|]. rewrite elem_of_cons. intros [->|Hr]; [|auto].
  assert (pool_id t (tm_id (h n)) = i) as Hid.
  { revert H1. unfold update_min_ts. by destruct (_ <? _). }
  unfold update_min_ts in Hb. rewrite Hid in Hb.
  destruct (Z.ltb_spec (tm_ts (h n)) (pn_min_ts (pool t !!! i))).
  - simpl in Hb. apply list_lookup_insert_Some in Hb as [(_&<-&_)|[? _]]; simpl; [lia|done].
  - by rewrite (list_lookup_total_correct _ _ _ Hb) in *.
Qed.

Lemma get_min_inv h t reg id fresh n h' t' :
  min_inv (mkMS h t reg) → ¬ in_table t fresh →
  get_transaction_manager MVCC id 0 fresh h t = (n, h', t') →
  min_inv (mkMS h' t' (if decide (n = fresh) then filter (.≠ n) reg else reg)).
Proof.
  intros Hi Hf E. unfold get_transaction_manager in E. pose proof (inv_bucket h t reg (pool_id t id) Hi) as Hb.
  set (b := pool t !!! pool_id t id) in *.
  assert (∀ (h : heap) reg b m, bucket_ok h t reg (pool_id t id) b →
    bucket_ok h t reg (pool_id t id) (if tm_ts (h m) <? pn_min_ts b then
      mkPN (pn_nodes b) (pn_cnt b) (tm_ts (h m)) else b)) as Hlower.
  { intros h0 reg0 b0 m Hb0. destruct (Z.ltb_spec (tm_ts (h0 m)) (pn_min_ts b0)); [|done].
    intros k Hk. destruct (Hb0 k Hk) as [? H2]. split; [done|]. intros Hr. specialize (H2 Hr). simpl. lia. }
  destruct (find_node MVCC h id 0 (pn_nodes b)) as [n0|] eqn:En; injection E as <- <- <-.
  - apply inv_set_bucket; [|apply Hlower]; case_decide; try done.
    + eapply inv_heap; [done|]. intros m _. split; [done|]. intros [??]%list_elem_of_filter. done.
    + intros k Hk. destruct (Hb k Hk) as [? H2]. split; [done|]. intros [??]%list_elem_of_filter. auto.
  - rewrite decide_True by done. set (h' := <[fresh := _]> h). set (reg' := filter _ reg).
    assert (∀ m, m ≠ fresh → h' m = h m) as Hm by (intros; by apply fn_lookup_insert_ne).
    assert (h' fresh = mkMan id 0 (tm_ts (h fresh))) as Hfr by apply fn_lookup_insert.
    apply inv_set_bucket;
      [|apply (Hlower h' reg' (mkPN (pn_nodes b ++ [fresh]) (wrap64 (pn_cnt b + 1)) (pn_min_ts b)) fresh)].
    + eapply inv_heap; [done|]. intros m Hin. rewrite Hm by (intros ->; done). split; [done|].
      intros [??]%list_elem_of_filter. done.
    + intros k [Hk| ->%list_elem_of_singleton]%elem_of_app.
      * destruct (decide (k = fresh)) as [->|Hne].
        { rewrite Hfr. split; [done|]. intros [??]%list_elem_of_filter. done. }
        rewrite Hm by done. destruct (Hb k Hk) as [? H2]. split; [done|].
        intros [??]%list_elem_of_filter. auto.
      * rewrite Hfr. split; [done|]. intros [??]%list_elem_of_filter. done.
Qed.

Lemma mstep_inv s s' : min_inv s → mstep s s' → min_inv s'.
Proof.
  destruct s as [h t reg]. intros Hi [id fresh n h' t' Hf E|n ts Hts|n|id ts|id n t' E]; simpl in *.
  - by eapply get_min_inv.
  - eapply inv_heap; [done|]. intros m _. destruct (decide (n = m)) as [->|Hne].
    + rewrite fn_lookup_insert. simpl. split; [done|]. auto.
    + rewrite fn_lookup_insert_ne by done. split; [done|]. intros ?. split; [done|lia].
  - by apply announce_min_inv.
  - by apply update_min_inv.
  - unfold release_transaction_manager in E.
    destruct (release_loop _ _ _ _ _ _) as [[[rest k] saved] m] eqn:El.
    destruct saved as [n0|]; [|done]. simpl in E. injection E as <- <-.
    apply inv_set_bucket; [done|]. intros k' Hk'. simpl in *.
    destruct (release_loop_min _ _ _ _ _ _ _ _ _ El) as [_ Hmin]. destruct (Hmin k' Hk') as [Hin ?].
    by destruct (inv_bucket h t reg (pool_id t id) Hi k' Hin).
Qed.

Lemma get_min_ts_le l m i b :
  l !! i = Some b →
  foldl (λ m b, if pn_min_ts b <? m then pn_min_ts b else m) m l ≤ pn_min_ts b.
Proof.
  assert (∀ l m, foldl (λ m b, if pn_min_ts b <? m then pn_min_ts b else m) m l ≤ m) as Hle.
  { clear. induction l as [|b l IH]; intros m; simpl; [lia|].
    etrans; [apply IH|]. destruct (Z.ltb_spec (pn_min_ts b) m); lia. }
  revert m i. induction l as [|b' l IH]; intros m [|i] Hb; simplify_eq/=; [|by eapply IH].
  etrans; [apply Hle|]. destruct (Z.ltb_spec (pn_min_ts b) m); lia.
Qed.

(** Under MVCC the minimum over the buckets is a lower bound of the timestamps
    of all running transactions that announced one, although restarts announce
    their new timestamp in the wrong bucket; row managers recycle versions below
    this bound. *)
Theorem min_ts_lower_bound h inflight s n :
  rtc mstep (mstart h inflight) s → in_table (ms_table s) n → n ∈ ms_reg s →
  get_min_ts (ms_table s) ≤ tm_ts (ms_heap s n).
Proof.
  intros Hr (i&b&Hb&Hn) Hreg.
  assert (min_inv s) as Hi.
  { assert (min_inv (mstart h inflight)) as H0.
    { intros j b' [-> _]%lookup_replicate_1 k ?%elem_of_nil. done. }
    clear -Hr H0. induction Hr; [done|]. eauto using mstep_inv. }
  etrans; [by eapply get_min_ts_le|]. by apply (Hi i b Hb n Hn).
Qed.

(** A transaction joins, draws timestamp 7 and announces it. *)
Definition ex_m1 : mstate :=
  mkMS (<[0%nat := mkMan 5 0 0]> (λ _, mkMan 0 0 0))
    (mkTT 3 [mkPN [] 0 UINT64_MAX; mkPN [] 0 UINT64_MAX; mkPN [0%nat] 1 0]) [].
Definition ex_m2 : mstate :=
  mkMS (<[0%nat := mkMan 5 0 7]> (ms_heap ex_m1)) (ms_table ex_m1) [].
Definition ex_m3 : mstate := mkMS (ms_heap ex_m2) (ms_table ex_m2) [0%nat].

Lemma min_ts_lower_bound_witness : get_min_ts (ms_table ex_m3) ≤ 7.
Proof.
  apply (min_ts_lower_bound (λ _, mkMan 0 0 0) 2 ex_m3 0%nat).
  - eapply (rtc_l _ _ ex_m1).
    { refine (ms_get (mstart (λ _, mkMan 0 0 0) 2) 5 0%nat 0%nat (ms_heap ex_m1) (ms_table ex_m1) _ _);
        [|reflexivity].
      intros (i&b&[-> _]%lookup_replicate_1&?%elem_of_nil). done. }
    eapply (rtc_l _ _ ex_m2); [apply (ms_set_timestamp ex_m1 0%nat 7); by intros ?%elem_of_nil|].
    eapply (rtc_l _ _ ex_m3); [apply (ms_announce ex_m2 0%nat)|apply rtc_refl].
  - exists 2%nat, (mkPN [0%nat] 1 0). split; [reflexivity|by left].
  - by left.
Defined.

End TxnTable.
