(* ===== verification/IndexHash.v ===== *)
(** * IndexHash: the hash index

    Model of [class IndexHash] (storage/index_hash.h, index_hash.cpp): an array of
    buckets, each a chain of nodes, each with a key and a list of items.  An item is
    the pointer of its [itemid_t]; the list of a node follows the [next] fields of
    the items, which the callers initialise to NULL.  The latch of a bucket makes an
    insertion one step.  The specification is a map from keys to sequences of item
    lists. *)

From S2P Require Import Prelude.

Module IndexHash.

Definition item := nat.

Record BucketNode := mkBN { bn_key : Z; bn_items : list item }.
Record BucketHeader := mkBH { node_cnt : Z; first_node : list BucketNode }.
Record index := mkIdx { bucket_cnt_per_part : Z; buckets : list BucketHeader }.

#[global] Instance BucketHeader_inhabited : Inhabited BucketHeader := populate (mkBH 0 []).

(** ** Buckets *)

Definition bucket_init : BucketHeader := mkBH 0 [].

(** A new key gets a node at the end of the chain, an old one a longer item list. *)
Fixpoint insert_node (key : Z) (x : item) (l : list BucketNode) : list BucketNode :=
  match l with
  | [] => [mkBN key [x]]
  | n :: l' =>
      if bn_key n =? key then mkBN (bn_key n) (x :: bn_items n) :: l'
      else n :: insert_node key x l'
  end.

Definition insert_item (key : Z) (x : item) (b : BucketHeader) : BucketHeader :=
  mkBH (node_cnt b) (insert_node key x (first_node b)).

Definition insert_item_nonunique (key : Z) (x : item) (b : BucketHeader) : BucketHeader :=
  mkBH (node_cnt b) (mkBN key [x] :: first_node b).

Fixpoint find_key (key : Z) (l : list BucketNode) : option (list item) :=
  match l with
  | [] => None
  | n :: l' => if bn_key n =? key then Some (bn_items n) else find_key key l'
  end.

(** [read_item(key, item)]: a missing key fails the assertion. *)
Definition read_item (key : Z) (b : BucketHeader) : option (list item) :=
  find_key key (first_node b).

(** [read_item(key, count, item)]: a missing item is NULL, an empty list. *)
Fixpoint find_nth (key : Z) (ctr count : Z) (l : list BucketNode) : list item :=
  match l with
  | [] => []
  | n :: l' =>
      if bn_key n =? key then
        if ctr =? count then bn_items n else find_nth key (wrap32 (ctr + 1)) count l'
      else find_nth key ctr count l'
  end.

Definition read_item_count (key count : Z) (b : BucketHeader) : list item :=
  find_nth key 0 count (first_node b).

(** The rows [delete_bucket] frees: the one of the first item of each node. *)
Definition delete_bucket (b : BucketHeader) : list item :=
  omap (λ n, head (bn_items n)) (first_node b).

(** ** The index *)

Section index.
Context (wl : WORKLOAD) (g_part_cnt : Z).

Definition init (bucket_cnt : Z) : index :=
  mkIdx bucket_cnt (replicate (Z.to_nat bucket_cnt) bucket_init).

Definition hash (t : index) (key : Z) : Z :=
  match wl with
  | YCSB => (key / g_part_cnt) `mod` bucket_cnt_per_part t
  | _ => key `mod` bucket_cnt_per_part t
  end.

Definition bucket_of (t : index) (key : Z) : BucketHeader := buckets t !!! Z.to_nat (hash t key).
Definition set_bucket (t : index) (key : Z) (b : BucketHeader) : index :=
  mkIdx (bucket_cnt_per_part t) (<[Z.to_nat (hash t key) := b]> (buckets t)).

Definition index_insert (key : Z) (x : item) (t : index) : option index :=
  ASSERT hash t key <? bucket_cnt_per_part t;
  Some (set_bucket t key (insert_item key x (bucket_of t key))).

Definition index_insert_nonunique (key : Z) (x : item) (t : index) : option index :=
  ASSERT hash t key <? bucket_cnt_per_part t;
  Some (set_bucket t key (insert_item_nonunique key x (bucket_of t key))).

Definition index_read (key : Z) (t : index) : option (list item) :=
  ASSERT hash t key <? bucket_cnt_per_part t;
  read_item key (bucket_of t key).

Definition index_read_count (key count : Z) (t : index) : option (list item) :=
  ASSERT hash t key <? bucket_cnt_per_part t;
  Some (read_item_count key count (bucket_of t key)).

Definition index_delete (t : index) : list item := concat (delete_bucket <$> buckets t).

(** ** Specification *)

(** Each key has a sequence of item lists, the newest [insert_nonunique] first. *)
Abbreviation spec := (Z → list (list item)).

Definition spec_insert (key : Z) (x : item) (m : spec) : spec :=
  <[key := match m key with [] => [[x]] | l :: r => (x :: l) :: r end]> m.
Definition spec_insert_nonunique (key : Z) (x : item) (m : spec) : spec :=
  <[key := [x] :: m key]> m.

Inductive op := OInsert (key : Z) (x : item) | OInsertN (key : Z) (x : item)
              | ORead (key : Z) | OReadN (key count : Z).

(** The answers of the reads of a run, [None] for an assertion that fails. *)
Fixpoint run (ops : list op) (t : index) : option (list (list item)) :=
  match ops with
  | [] => Some []
  | OInsert k x :: ops' => t ← index_insert k x t; run ops' t
  | OInsertN k x :: ops' => t ← index_insert_nonunique k x t; run ops' t
  | ORead k :: ops' => l ← index_read k t; (l ::.) <$> run ops' t
  | OReadN k c :: ops' => l ← index_read_count k c t; (l ::.) <$> run ops' t
  end.

Fixpoint spec_run (ops : list op) (m : spec) : option (list (list item)) :=
  match ops with
  | [] => Some []
  | OInsert k x :: ops' => spec_run ops' (spec_insert k x m)
  | OInsertN k x :: ops' => spec_run ops' (spec_insert_nonunique k x m)
  | ORead k :: ops' => l ← head (m k); (l ::.) <$> spec_run ops' m
  | OReadN k c :: ops' => (default [] (m k !! Z.to_nat c) ::.) <$> spec_run ops' m
  end.

(** The item lists of a key in a chain. *)
Fixpoint lists_of (key : Z) (l : list BucketNode) : list (list item) :=
  match l with
  | [] => []
  | n :: l' => if bn_key n =? key then bn_items n :: lists_of key l' else lists_of key l'
  end.

Definition abstract (t : index) : spec := λ key, lists_of key (first_node (bucket_of t key)).

Definition wf (t : index) : Prop :=
  0 < bucket_cnt_per_part t ∧ length (buckets t) = Z.to_nat (bucket_cnt_per_part t) ∧
  (wl = YCSB → 0 < g_part_cnt).

(** No chain is longer than the 32-bit counter of [read_item] can count. *)
Definition short (n : nat) (m : spec) : Prop := ∀ k, zlen (m k) + Z.of_nat n < u32_mod.

(** ** Lemmas *)

Lemma lists_of_insert k key x l :
  lists_of k (insert_node key x l) =
    if decide (key = k) then match lists_of k l with [] => [[x]] | a :: r => (x :: a) :: r end
    else lists_of k l.
Proof.
  induction l as [|n l IH]; simpl.
  - destruct (Z.eqb_spec key k); by case_decide.
  - destruct (Z.eqb_spec (bn_key n) key); simpl; destruct (Z.eqb_spec (bn_key n) k); simpl;
      rewrite ?IH; case_decide; congruence.
Qed.

Lemma find_key_head k l : find_key k l = head (lists_of k l).
Proof. induction l as [|n l IH]; simpl; [done|]. by destruct (_ =? _). Qed.

Lemma find_nth_lookup k ctr count l :
  0 ≤ ctr ≤ count → ctr + zlen (lists_of k l) < u32_mod →
  find_nth k ctr count l = default [] (lists_of k l !! Z.to_nat (count - ctr)).
Proof.
  revert ctr. induction l as [|n l IH]; intros ctr Hc Hl; simpl in *; [done|].
  destruct (bn_key n =? k); [|by apply IH]. simpl in Hl.
  destruct (Z.eqb_spec ctr count) as [->|Hne]; [by rewrite Z.sub_diag|].
  rewrite wrap32_small by (unfold is_u32; lia). rewrite IH by lia.
  by replace (Z.to_nat (count - ctr)) with (S (Z.to_nat (count - (ctr + 1)))) by lia.
Qed.

Lemma hash_range t key : wf t → 0 ≤ hash t key < bucket_cnt_per_part t.
Proof. intros (Hb&_). unfold hash. destruct wl; by apply Z.mod_pos_bound. Qed.

Lemma abstract_set t key b k :
  wf t → abstract (set_bucket t key b) k =
    if decide (hash t key = hash t k) then lists_of k (first_node b) else abstract t k.
Proof.
  intros Ht. pose proof (hash_range t key Ht). pose proof (hash_range t k Ht). destruct Ht as (?&Hl&_).
  unfold abstract, bucket_of. change (hash (set_bucket t key b) k) with (hash t k). simpl.
  case_decide as E.
  - rewrite E. rewrite list_lookup_total_insert_eq; [done|]. lia.
  - rewrite list_lookup_total_insert_ne; [done|]. lia.
Qed.

Lemma wf_set t key b : wf t → wf (set_bucket t key b).
Proof. intros (?&?&?). split_and!; simpl; [done| |done]. by rewrite length_insert. Qed.

(** Both insertions: the chain of one key changes. *)
Lemma insert_refines t key b m m' :
  wf t → (∀ k, abstract t k = m k) →
  (∀ k, lists_of k (first_node b) =
     if decide (key = k) then m' else lists_of k (first_node (bucket_of t key))) →
  wf (set_bucket t key b) ∧ ∀ k, abstract (set_bucket t key b) k = (<[key := m']> m) k.
Proof.
  intros Ht Hm Hb. split; [by apply wf_set|]. intros k. rewrite abstract_set, Hb by done.
  destruct (decide (key = k)) as [->|Hne].
  - rewrite decide_True by done. by rewrite fn_lookup_insert.
  - rewrite fn_lookup_insert_ne, <-Hm by done. case_decide as E; [|done].
    unfold abstract, bucket_of. by rewrite E.
Qed.

Lemma guard_ok {A} t key (k : option A) :
  wf t → (ASSERT hash t key <? bucket_cnt_per_part t; k) = k.
Proof. intros Ht. pose proof (hash_range t key Ht). by rewrite (proj2 (Z.ltb_lt _ _)) by lia. Qed.

(** *** Each operation *)

Lemma index_insert_spec t m key x : wf t → (∀ k, abstract t k = m k) →
  ∃ t', index_insert key x t = Some t' ∧ wf t' ∧ ∀ k, abstract t' k = spec_insert key x m k.
Proof.
  intros Ht Hm. unfold index_insert, spec_insert. rewrite guard_ok by done. eexists. split; [done|].
  rewrite <-(Hm key). apply insert_refines; [done..|]. intros k'. simpl. rewrite lists_of_insert.
  case_decide as E; [subst k'; reflexivity|done].
Qed.

Lemma index_insert_nonunique_spec t m key x : wf t → (∀ k, abstract t k = m k) →
  ∃ t', index_insert_nonunique key x t = Some t' ∧ wf t' ∧ ∀ k, abstract t' k = spec_insert_nonunique key x m k.
Proof.
  intros Ht Hm. unfold index_insert_nonunique, spec_insert_nonunique. rewrite guard_ok by done. eexists. split; [done|].
  rewrite <-(Hm key). apply insert_refines; [done..|]. intros k'. simpl.
  destruct (Z.eqb_spec key k'); case_decide; try done. by subst.
Qed.

Lemma index_read_spec t m key : wf t → (∀ k, abstract t k = m k) → index_read key t = head (m key).
Proof.
  intros Ht Hm. unfold index_read. rewrite guard_ok by done. unfold read_item. rewrite find_key_head.
  change (lists_of key _) with (abstract t key). by rewrite Hm.
Qed.

Lemma init_abstract bucket_cnt : 0 < bucket_cnt → (wl = YCSB → 0 < g_part_cnt) →
  wf (init bucket_cnt) ∧ ∀ k, abstract (init bucket_cnt) k = [].
Proof.
  intros Hb Hp. split.
  - split_and!; [done| |done]. simpl. by rewrite length_replicate.
  - intros k. unfold abstract, bucket_of, init. simpl. rewrite list_lookup_total_alt.
    destruct (replicate _ _ !! _) as [b|] eqn:E; [|done]. by apply lookup_replicate_1 in E as [-> _].
Qed.

Definition counts_ok (ops : list op) : Prop :=
  Forall (λ o, match o with OReadN _ c => is_u32 c | _ => True end) ops.

Lemma run_refines_index ops t m :
  wf t → (∀ k, abstract t k = m k) → counts_ok ops → short (length ops) m →
  run ops t = spec_run ops m.
Proof.
  revert t m. induction ops as [|o ops IH]; intros t m Ht Hm Hc Hs; [done|].
  apply Forall_cons in Hc as [Hc1 Hc].
  assert (∀ key l, length l ≤ S (length (m key)) → short (length ops) (<[key := l]> m))%nat as Hgrow.
  { intros key l Hl k. pose proof (Hs k) as Hk. pose proof (Hs key) as Hkey. simpl in *.
    destruct (decide (key = k)) as [->|]; [rewrite fn_lookup_insert|rewrite fn_lookup_insert_ne by done]; lia. }
  assert (short (length ops) m) as Hs' by (intros k; specialize (Hs k); simpl in Hs; lia).
  destruct o as [k x|k x|k|k c]; cbn [run spec_run].
  - destruct (index_insert_spec t m k x Ht Hm) as (t'&->&Ht'&Hm'). apply IH; [done..|]. apply Hgrow.
    destruct (m k); simpl; lia.
  - destruct (index_insert_nonunique_spec t m k x Ht Hm) as (t'&->&Ht'&Hm'). apply IH; [done..|]. by apply Hgrow.
  - rewrite (index_read_spec t m k) by done. destruct (head (m k)); simpl; [|done]. by rewrite (IH t m).
  - unfold index_read_count. rewrite guard_ok by done. cbn [mbind option_bind]. unfold read_item_count.
    rewrite find_nth_lookup.
    + change (lists_of k _) with (abstract t k). rewrite Hm, Z.sub_0_r. by rewrite (IH t m).
    + unfold is_u32 in Hc1. lia.
    + change (lists_of k _) with (abstract t k). rewrite Hm. specialize (Hs' k). lia.
Qed.

(** ** Properties *)

(** A hash index started empty answers every sequence of insertions and reads
    as a map from keys to sequences of item lists: insertion adds the item to the
    newest list of its key or starts one, non-unique insertion always starts one,
    reads return the newest or the [count]-th list, and only a read of a key that was
    never inserted fails its assertion. *)
Theorem index_hash_refines ops bucket_cnt :
  0 < bucket_cnt → (wl = YCSB → 0 < g_part_cnt) → counts_ok ops → zlen ops < u32_mod →
  run ops (init bucket_cnt) = spec_run ops (λ _, []).
Proof.
  intros Hb Hp Hc Hl. destruct (init_abstract bucket_cnt Hb Hp) as [Hwf Habs].
  apply run_refines_index; [done..|]. intros k. simpl. lia.
Qed.

End index.

Lemma index_hash_refines_witness :
  run YCSB 2 [OInsert 4 10%nat; OInsert 8 11%nat; OInsertN 4 12%nat; ORead 8; OReadN 4 1] (init 2)
  = Some [[11%nat]; [10%nat]].
Proof.
  rewrite (index_hash_refines YCSB 2); [reflexivity|lia|lia| |reflexivity].
  repeat constructor; unfold is_u32, u32_mod; lia.
Defined.

End IndexHash.
