(* ===== verification/TwoPC.v ===== *)
(** * TwoPC: distributed commit

    Model of the commit protocol of a multi-partition transaction: the operations of
    [TxnManager] that drive it (system/txn.cpp) and the message handlers of
    [WorkerThread] (system/worker_thread.cpp), for the concurrency controls other
    than Calvin and without logging.  One transaction: its manager on the home node,
    its managers on the other nodes, and the messages in flight, delivered in any
    order.  What running the transaction and validating it locally return
    ([run_txn], [validate]) are inputs; the row managers decide them.  [GET_PART_ID]
    is the node, so [partitions_touched] has node ids.  The calls of [release_locks]
    with their outcome are recorded: they are what the other transactions see. *)

From S2P Require Import Prelude.

Module TwoPC.

Definition node := Z.

(** The fields of [TxnManager] the protocol uses; [tm_log] records the outcomes
    [release_locks] was called with since the attempt began. *)
Record TxnManager := mkTM {
  tm_rc : RC;
  tm_aborted : bool;
  tm_rsp_cnt : Z;
  tm_touched : list node;
  tm_log : list RC }.

(** The messages of a transaction; the home node is known to all. *)
Inductive msg :=
  | RQRY (dest : node) | RQRY_RSP (src : node) (rc : RC)
  | RPREPARE (dest : node) | RACK_PREP (src : node) (rc : RC)
  | RFIN (dest : node) (rc : RC) (readonly : bool) | RACK_FIN (src : node) (rc : RC).

Definition set_rc (rc : RC) (t : TxnManager) : TxnManager :=
  mkTM rc (tm_aborted t) (tm_rsp_cnt t) (tm_touched t) (tm_log t).
Definition set_rsp_cnt (n : Z) (t : TxnManager) : TxnManager :=
  mkTM (tm_rc t) (tm_aborted t) n (tm_touched t) (tm_log t).

(** [Array::add_unique] *)
Definition add_unique (x : node) (l : list node) : list node :=
  if bool_decide (x ∈ l) then l else l ++ [x].
Definition touch (n : node) (t : TxnManager) : TxnManager :=
  mkTM (tm_rc t) (tm_aborted t) (tm_rsp_cnt t) (add_unique n (tm_touched t)) (tm_log t).

Definition start_manager : TxnManager := mkTM RCOK false 0 [] [].

(** ** [TxnManager] *)

Section txn.
Context (alg : CC_ALG) (home : node).

Definition release_locks (rc : RC) (t : TxnManager) : TxnManager :=
  mkTM (tm_rc t) (tm_aborted t) (tm_rsp_cnt t) (tm_touched t) (tm_log t ++ [rc]).

Definition commit (t : TxnManager) : RC * TxnManager := (Commit, release_locks RCOK t).

Definition abort (t : TxnManager) : RC * TxnManager :=
  if tm_aborted t then (Abort, t)
  else (Abort, release_locks Abort (mkTM Abort true (tm_rsp_cnt t) (tm_touched t) (tm_log t))).

(** [reset]; the record of outcomes is not the manager's. *)
Definition reset (t : TxnManager) : TxnManager := mkTM RCOK false 0 (tm_touched t) (tm_log t).

Definition others (t : TxnManager) : list node :=
  filter (λ n, n ≠ home) (tm_touched t).

Definition send_prepare_messages (t : TxnManager) : TxnManager * list msg :=
  (set_rsp_cnt (zlen (tm_touched t) - 1) t, RPREPARE <$> others t).

Definition send_finish_messages (readonly : bool) (t : TxnManager) : TxnManager * list msg :=
  (set_rsp_cnt (zlen (tm_touched t) - 1) t, (λ n, RFIN n (tm_rc t) readonly) <$> others t).

Definition is_multi_part (t : TxnManager) : bool := 1 <? zlen (tm_touched t).

Definition start_abort (readonly : bool) (t : TxnManager) : RC * TxnManager * list msg :=
  let t := set_rc Abort t in
  if is_multi_part t then
    let '(t, ms) := send_finish_messages readonly t in
    let '(_, t) := abort t in (Abort, t, ms)
  else let '(rc, t) := abort t in (rc, t, []).

(** [valid] is what [validate] returns. *)
Definition start_commit (readonly : bool) (valid : RC) (t : TxnManager)
    : RC * TxnManager * list msg :=
  if is_multi_part t then
    if negb readonly || bool_decide (alg = OCC) || bool_decide (alg = MAAT) then
      let '(t, ms) := send_prepare_messages t in (WAIT_REM, t, ms)
    else
      let '(t, ms) := send_finish_messages readonly t in
      let '(rc, t) := commit (set_rsp_cnt 0 t) in (rc, t, ms)
  else if bool_decide (valid = RCOK) then let '(rc, t) := commit t in (rc, t, [])
  else let '(_, t, ms) := start_abort readonly t in (valid, t, ms).

Definition received_response (rc : RC) (t : TxnManager) : option (Z * TxnManager) :=
  ASSERT bool_decide (tm_rc t = RCOK ∨ tm_rc t = Abort);
  let t := if bool_decide (tm_rc t = RCOK) then set_rc rc t else t in
  let t := set_rsp_cnt (tm_rsp_cnt t - 1) t in
  Some (tm_rsp_cnt t, t).

Definition waiting_for_response (t : TxnManager) : bool := 0 <? tm_rsp_cnt t.

(** ** [WorkerThread] *)

(** What the worker does with a finished transaction: answer the client and release
    the manager, or reset it and queue it for another attempt. *)
Inductive outcome := Pending | Answered | Requeued.

Definition worker_abort (t : TxnManager) : TxnManager := reset t.

(** [check_if_done] *)
Definition check_if_done (rc : RC) (t : TxnManager) : outcome * TxnManager :=
  if waiting_for_response t then (Pending, t)
  else match rc with
       | Commit => (Answered, t)
       | Abort => (Requeued, worker_abort t)
       | _ => (Pending, t)
       end.

(** The end of [run_txn] on the home node and the [check_if_done] after it: all
    requests were run, or one of them returned [Abort]. *)
Definition run_txn_end (readonly : bool) (rc valid : RC) (t : TxnManager)
    : outcome * TxnManager * list msg :=
  let '(rc, t, ms) :=
    if bool_decide (rc = RCOK) then start_commit readonly valid t
    else if bool_decide (rc = Abort) then start_abort readonly t
    else (rc, t, []) in
  let '(o, t) := check_if_done rc t in (o, t, ms).

(** [process_rqry_rsp], when the answer is [Abort]. *)
Definition process_rqry_rsp_abort (readonly : bool) (t : TxnManager)
    : outcome * TxnManager * list msg :=
  let '(_, t, ms) := start_abort readonly t in (Pending, t, ms).

(** [process_rqry] and [process_rqry_cont] on node [n]: [rc] is what the requests
    returned. *)
Definition process_rqry (n : node) (rc : RC) (t : TxnManager) : TxnManager * list msg :=
  let '(rc, t) := if bool_decide (rc = Abort) then abort t else (rc, t) in
  (t, if bool_decide (rc = WAIT) then [] else [RQRY_RSP n (tm_rc t)]).

Definition process_rprepare (n : node) (valid : RC) (t : TxnManager) : TxnManager * list msg :=
  let t := set_rc valid t in
  let ms := [RACK_PREP n (tm_rc t)] in
  (if bool_decide (valid = Abort) then (abort t).2 else t, ms).

Definition process_rfin (n : node) (rc : RC) (readonly : bool) (t : TxnManager)
    : TxnManager * list msg :=
  if bool_decide (rc = Abort) then
    let t := reset (abort t).2 in (t, [RACK_FIN n (tm_rc t)])
  else
    let t := (commit t).2 in
    (t, if negb readonly || bool_decide (alg = MAAT) || bool_decide (alg = OCC)
        then [RACK_FIN n (tm_rc t)] else []).

Definition process_rack_prep (readonly : bool) (rc valid : RC) (t : TxnManager)
    : option (TxnManager * list msg) :=
  '(cnt, t) ← received_response rc t;
  ASSERT 0 <=? cnt;
  if 0 <? cnt then Some (t, [])
  else
    let rc := if bool_decide (tm_rc t = RCOK) then valid else RCOK in
    let aborting := bool_decide (rc = Abort) || bool_decide (tm_rc t = Abort) in
    let t := if aborting then set_rc Abort t else t in
    let '(t, ms) := send_finish_messages readonly t in
    Some (if aborting then (abort t).2 else (commit t).2, ms).

Definition process_rack_rfin (rc : RC) (t : TxnManager) : option (outcome * TxnManager) :=
  '(cnt, t) ← received_response rc t;
  ASSERT 0 <=? cnt;
  if 0 <? cnt then Some (Pending, t)
  else if bool_decide (tm_rc t = RCOK) then Some (Answered, t)
  else Some (Requeued, worker_abort t).

(** ** The system *)

(** Where the home node is: running the transaction, waiting for the answer of a
    node, collecting votes, collecting acknowledgements, or done. *)
Inductive phase := Exec | Wait (n : node) | Prep | Fin (rc : RC) | Done (o : outcome).

Record state := mkS {
  s_home : TxnManager;
  s_phase : phase;
  s_part : node → TxnManager;
  s_net : list msg;
  s_rsp : nat  (* answers sent to the client *) }.

(** The phase after an attempt ended on the home node with decision [rc]. *)
Definition phase_of (o : outcome) (rc : RC) : phase :=
  match o with Pending => Fin rc | _ => Done o end.
Definition answers (o : outcome) (k : nat) : nat := match o with Answered => S k | _ => k end.

Definition vote (rc : RC) : Prop := rc = RCOK ∨ rc = Abort.
Definition run_result (rc : RC) : Prop := rc = RCOK ∨ rc = Abort ∨ rc = WAIT.

Section system.
Context (readonly : bool).

Inductive step (s : state) : state → Prop :=
  (* the home node needs data of node [n] *)
  | step_remote n :
      s_phase s = Exec → n ≠ home →
      step s (mkS (touch n (s_home s)) (Wait n) (s_part s) (RQRY n :: s_net s) (s_rsp s))
  | step_rqry n rc l1 l2 t ms :
      s_net s = l1 ++ RQRY n :: l2 → run_result rc →
      process_rqry n rc (s_part s n) = (t, ms) →
      step s (mkS (s_home s) (s_phase s) (<[n := t]> (s_part s)) (ms ++ l1 ++ l2) (s_rsp s))
  | step_rqry_cont n rc t ms :
      (* the node was waiting for a lock *)
      s_phase s = Wait n → s_net s = [] → run_result rc →
      process_rqry n rc (s_part s n) = (t, ms) →
      step s (mkS (s_home s) (s_phase s) (<[n := t]> (s_part s)) ms (s_rsp s))
  | step_rqry_rsp_ok n l1 l2 :
      s_net s = l1 ++ RQRY_RSP n RCOK :: l2 →
      step s (mkS (s_home s) Exec (s_part s) (l1 ++ l2) (s_rsp s))
  | step_rqry_rsp_abort n l1 l2 o t ms :
      s_net s = l1 ++ RQRY_RSP n Abort :: l2 →
      process_rqry_rsp_abort readonly (s_home s) = (o, t, ms) →
      step s (mkS t (phase_of o Abort) (s_part s) (ms ++ l1 ++ l2) (s_rsp s))
  | step_commit valid o t ms :
      (* all requests were run *)
      s_phase s = Exec → vote valid →
      run_txn_end readonly RCOK valid (s_home s) = (o, t, ms) →
      step s (mkS t (match o with Pending => Prep | _ => Done o end) (s_part s) (ms ++ s_net s)
                (answers o (s_rsp s)))
  | step_abort valid o t ms :
      (* a local request was refused *)
      s_phase s = Exec →
      run_txn_end readonly Abort valid (s_home s) = (o, t, ms) →
      step s (mkS t (phase_of o Abort) (s_part s) (ms ++ s_net s) (s_rsp s))
  | step_rprepare n valid l1 l2 t ms :
      s_net s = l1 ++ RPREPARE n :: l2 → vote valid →
      process_rprepare n valid (s_part s n) = (t, ms) →
      step s (mkS (s_home s) (s_phase s) (<[n := t]> (s_part s)) (ms ++ l1 ++ l2) (s_rsp s))
  | step_rack_prep n rc valid l1 l2 t ms :
      s_net s = l1 ++ RACK_PREP n rc :: l2 → vote valid →
      process_rack_prep readonly rc valid (s_home s) = Some (t, ms) →
      step s (mkS t (if 0 <? tm_rsp_cnt (s_home s) - 1 then s_phase s else Fin (tm_rc t))
                (s_part s) (ms ++ l1 ++ l2) (s_rsp s))
  | step_rfin n rc ro l1 l2 t ms :
      s_net s = l1 ++ RFIN n rc ro :: l2 →
      process_rfin n rc ro (s_part s n) = (t, ms) →
      step s (mkS (s_home s) (s_phase s) (<[n := t]> (s_part s)) (ms ++ l1 ++ l2) (s_rsp s))
  | step_rack_fin n rc l1 l2 o t :
      s_net s = l1 ++ RACK_FIN n rc :: l2 →
      process_rack_rfin rc (s_home s) = Some (o, t) →
      step s (mkS t (match o with Pending => s_phase s | _ => Done o end) (s_part s) (l1 ++ l2)
                (answers o (s_rsp s)))
  | step_restart :
      (* the abort queue starts the transaction again: a new attempt is recorded *)
      s_phase s = Done Requeued →
      let fresh (t : TxnManager) := mkTM (tm_rc t) (tm_aborted t) (tm_rsp_cnt t) (tm_touched t) [] in
      step s (mkS (fresh (s_home s)) Exec (λ n, fresh (s_part s n)) (s_net s) (s_rsp s)).

Definition start : state :=
  mkS (touch home start_manager) Exec (λ _, start_manager) [] 0.

End system.

(** The node a message is from or to. *)
Definition msg_node (m : msg) : node :=
  match m with
  | RQRY n | RQRY_RSP n _ | RPREPARE n | RACK_PREP n _ | RFIN n _ _ | RACK_FIN n _ => n
  end.

(** A manager that has no outcome yet, and one that aborted on its own. *)
Definition idle (t : TxnManager) : Prop := tm_rc t = RCOK ∧ tm_aborted t = false ∧ tm_log t = [].
Definition gave_up (t : TxnManager) : Prop := tm_rc t = Abort ∧ tm_aborted t = true ∧ tm_log t = [Abort].

(** A manager after the final message. *)
Definition finished (rc : RC) (t : TxnManager) : Prop :=
  tm_log t = [rc] ∧ (rc = Abort → tm_rc t = RCOK ∧ tm_aborted t = false).

(** The messages from or to a node. *)
Definition mail (n : node) (net : list msg) : list msg := filter (λ m, msg_node m = n) net.

(** Whether the final messages of a commit are acknowledged. *)
Definition acked (readonly : bool) : bool :=
  negb readonly || bool_decide (alg = OCC) || bool_decide (alg = MAAT).

Section invariant.
Context (readonly : bool).

(** What is in flight for a node and what its manager is then, in every phase; [hrc]
    is the result the home node has so far. *)
Definition slot (ph : phase) (hrc : RC) (n : node) (ml : list msg) (t : TxnManager) : Prop :=
  match ph with
  | Exec => ml = [] ∧ idle t
  | Wait q =>
      (ml = [] ∨ q = n ∧ (ml = [RQRY n] ∨ ml = [RQRY_RSP n RCOK])) ∧ idle t ∨
      q = n ∧ ml = [RQRY_RSP n Abort] ∧ gave_up t
  | Prep =>
      (ml = [] ∨ ml = [RPREPARE n] ∨ ml = [RACK_PREP n RCOK]) ∧ idle t ∨
      ml = [RACK_PREP n Abort] ∧ gave_up t ∨
      ml = [] ∧ gave_up t ∧ hrc = Abort
  | Fin rc =>
      ml = [RFIN n rc readonly] ∧ (idle t ∨ gave_up t ∧ rc = Abort) ∨
      (ml = [RACK_FIN n RCOK] ∨ ml = []) ∧ finished rc t
  | Done Answered =>
      ml = [RFIN n RCOK readonly] ∧ idle t ∧ acked readonly = false ∨
      ml = [] ∧ finished RCOK t
  | Done _ => ml = [] ∧ finished Abort t
  end.

(** The manager of the home node. *)
Definition home_ok (ph : phase) (t : TxnManager) : Prop :=
  match ph with
  | Exec => idle t
  | Wait n => idle t ∧ n ∈ others t
  | Prep => tm_aborted t = false ∧ tm_log t = [] ∧ vote (tm_rc t) ∧ acked readonly = true
  | Fin rc => tm_log t = [rc] ∧ tm_rc t = rc ∧ vote rc ∧ (rc = RCOK → acked readonly = true)
  | Done Answered => tm_log t = [RCOK]
  | Done Requeued => finished Abort t
  | Done Pending => False
  end.

(** Responses the home node still waits for. *)
Definition awaited (ph : phase) (net : list msg) : Z :=
  match ph with Prep | Fin _ => zlen net | _ => 0 end.

Record inv (s : state) : Prop := {
  v_home : home ∈ tm_touched (s_home s);
  v_nd : NoDup (tm_touched (s_home s));
  v_to : ∀ m, m ∈ s_net s → msg_node m ∈ others (s_home s);
  v_out : ∀ n, n ∉ others (s_home s) → idle (s_part s n);
  v_slot : ∀ n, n ∈ others (s_home s) →
    slot (s_phase s) (tm_rc (s_home s)) n (mail n (s_net s)) (s_part s n);
  v_ok : home_ok (s_phase s) (s_home s);
  v_cnt : tm_rsp_cnt (s_home s) = awaited (s_phase s) (s_net s);
  v_some : match s_phase s with Prep | Fin _ => 0 < tm_rsp_cnt (s_home s) | _ => True end;
  v_rsp : s_rsp s = match s_phase s with Done Answered => 1%nat | _ => 0%nat end }.

(** ** Lemmas *)

Lemma mail_app n l1 l2 : mail n (l1 ++ l2) = mail n l1 ++ mail n l2.
Proof. apply filter_app. Qed.

Lemma mail_same n m l : msg_node m = n → mail n (m :: l) = m :: mail n l.
Proof. intros. unfold mail. by rewrite filter_cons_True. Qed.

Lemma mail_other n m l : msg_node m ≠ n → mail n (m :: l) = mail n l.
Proof. intros. unfold mail. by rewrite filter_cons_False. Qed.

Lemma mail_only n l : (∀ m, m ∈ l → msg_node m = n) → mail n l = l.
Proof. intros H. unfold mail. by apply list_filter_all, Forall_forall. Qed.

Lemma mail_none n l : (∀ m, m ∈ l → msg_node m ≠ n) → mail n l = [].
Proof.
  intros H. induction l as [|m l IH]; [done|]. rewrite mail_other by (apply H; left).
  apply IH. intros. apply H. by right.
Qed.

(** A delivery: the message of [n] is replaced by [ms]. *)
Lemma mail_deliver n m ms l1 l2 q :
  msg_node m = n → (∀ m', m' ∈ ms → msg_node m' = n) → (length (mail n (l1 ++ m :: l2)) ≤ 1)%nat →
  mail q (ms ++ l1 ++ l2) = if decide (q = n) then ms else mail q (l1 ++ m :: l2).
Proof.
  intros Hm Hms Hl. rewrite !mail_app. rewrite mail_app in Hl. case_decide as Hq.
  - subst q. rewrite mail_same, length_app in Hl by done. simpl in Hl.
    rewrite mail_only by done.
    assert (mail n l1 = [] ∧ mail n l2 = []) as [-> ->]; [|by rewrite app_nil_r].
    split; apply length_zero_iff_nil; lia.
  - rewrite (mail_none q ms), mail_other by (congruence || (intros; rewrite Hms by done; congruence)).
    done.
Qed.

Lemma mail_mid n m l1 l2 : msg_node m = n → m ∈ mail n (l1 ++ m :: l2).
Proof. intros. apply list_elem_of_filter. split; [done|set_solver]. Qed.

Lemma mail_fmap (f : node → msg) n l :
  (∀ x, msg_node (f x) = x) → NoDup l → n ∈ l → mail n (f <$> l) = [f n].
Proof.
  intros Hf Hd Hn. induction l as [|x l IH]; [by apply elem_of_nil in Hn|]. simpl.
  apply NoDup_cons in Hd as [Hx Hd]. apply elem_of_cons in Hn as [->|Hn].
  - rewrite mail_same by done. f_equal. apply mail_none. intros m (y&->&Hy)%list_elem_of_fmap ?.
    rewrite Hf in *. by subst.
  - rewrite mail_other; [auto|]. rewrite Hf. by intros ->.
Qed.

Lemma others_len t : home ∈ tm_touched t → NoDup (tm_touched t) →
  zlen (others t) = zlen (tm_touched t) - 1 ∧ NoDup (others t).
Proof.
  intros Hh Hd. unfold others. split; [|by apply NoDup_filter].
  apply list_elem_of_split in Hh as (l1&l2&E). rewrite E in Hd |- *.
  apply NoDup_app in Hd as (Hd1&Hd2&Hd3). apply NoDup_cons in Hd3 as [Hn Hd3].
  rewrite filter_app, filter_cons_False by (intros []; done).
  rewrite !list_filter_all; [rewrite !length_app; simpl; lia|apply Forall_forall..].
  - intros x Hx ->. done.
  - intros x Hx ->. apply (Hd2 home Hx). by left.
Qed.

Lemma mail_slot_short ph hrc n ml t : slot ph hrc n ml t → (length ml ≤ 1)%nat.
Proof. destruct ph as [| | |rc|[]]; simpl; naive_solver lia. Qed.


(** A handler of another node changes only its manager and its mail. *)
Lemma inv_upd s n ms net' t :
  inv s → n ∈ others (s_home s) →
  (∀ q, mail q net' = if decide (q = n) then ms else mail q (s_net s)) →
  (slot (s_phase s) (tm_rc (s_home s)) n (mail n (s_net s)) (s_part s n) →
     home_ok (s_phase s) (s_home s) →
     slot (s_phase s) (tm_rc (s_home s)) n ms t ∧
     awaited (s_phase s) net' = awaited (s_phase s) (s_net s)) →
  inv (mkS (s_home s) (s_phase s) (<[n := t]> (s_part s)) net' (s_rsp s)).
Proof.
  intros [] Hn Hmail Hstep. destruct (Hstep (v_slot0 n Hn) v_ok0) as [Hnew Haw].
  split; simpl; try done.
  - intros m' Hm'. destruct (decide (msg_node m' = n)) as [->|Hne]; [done|]. apply v_to0.
    specialize (Hmail (msg_node m')). rewrite decide_False in Hmail by done.
    apply (list_elem_of_filter (λ m, msg_node m = msg_node m')). unfold mail in Hmail.
    rewrite <-Hmail. by apply list_elem_of_filter.
  - intros q Hq. rewrite fn_lookup_insert_ne by (intros ->; done). auto.
  - intros q Hq. rewrite Hmail. case_decide as Hqn; [subst q; by rewrite fn_lookup_insert|].
    rewrite fn_lookup_insert_ne by done. auto.
  - by rewrite v_cnt0, Haw.
Qed.

Lemma inv_mail s n m l1 l2 : inv s → s_net s = l1 ++ m :: l2 → msg_node m = n →
  n ∈ others (s_home s) ∧ mail n (s_net s) = [m].
Proof.
  intros [] Hnet Hm.
  assert (n ∈ others (s_home s)) as Hn by (rewrite <-Hm; apply v_to0; rewrite Hnet; set_solver).
  split; [done|]. pose proof (mail_slot_short _ _ _ _ _ (v_slot0 n Hn)) as Hshort.
  rewrite Hnet in *. pose proof (mail_mid n m l1 l2 Hm).
  destruct (mail n (l1 ++ m :: l2)) as [|a [|b k]]; simpl in *; [set_solver|set_solver|lia].
Qed.

Lemma inv_part s n m ms l1 l2 t :
  inv s → s_net s = l1 ++ m :: l2 → msg_node m = n → (∀ m', m' ∈ ms → msg_node m' = n) →
  (slot (s_phase s) (tm_rc (s_home s)) n [m] (s_part s n) → home_ok (s_phase s) (s_home s) →
     slot (s_phase s) (tm_rc (s_home s)) n ms t ∧
     awaited (s_phase s) [m] = awaited (s_phase s) ms) →
  inv (mkS (s_home s) (s_phase s) (<[n := t]> (s_part s)) (ms ++ l1 ++ l2) (s_rsp s)).
Proof.
  intros Hinv Hnet Hm Hms Hstep. destruct (inv_mail s n m l1 l2 Hinv Hnet Hm) as [Hn Hmail].
  apply (inv_upd s n ms); [done..| |].
  - intros q. rewrite (mail_deliver n m), <-Hnet; [done..|]. by rewrite <-Hnet, Hmail.
  - rewrite Hmail. intros Hsl Hok. destruct (Hstep Hsl Hok) as [? Haw]. split; [done|].
    rewrite Hnet. destruct (s_phase s); simpl in *; rewrite ?length_app in *; simpl in *; lia.
Qed.

(** The mail of the nodes is all there is. *)
Lemma net_nil s : inv s → (∀ q, q ∈ others (s_home s) → mail q (s_net s) = []) → s_net s = [].
Proof.
  intros Hinv Hall. destruct (s_net s) as [|m l] eqn:E; [done|].
  destruct (inv_mail s (msg_node m) m [] l Hinv E eq_refl) as [Hn Hm]. rewrite E in Hm.
  by rewrite Hall in Hm.
Qed.

Lemma net_single s n m l1 l2 : inv s → s_net s = l1 ++ m :: l2 → msg_node m = n →
  (∀ q, q ∈ others (s_home s) → q ≠ n → mail q (s_net s) = []) → l1 = [] ∧ l2 = [].
Proof.
  intros Hinv Hnet Hm Hall.
  assert (∀ m', m' ∈ l1 ++ l2 → False) as Hno.
  { intros m' Hm'. destruct (inv_mail s n m l1 l2 Hinv Hnet Hm) as [Hn Hml].
    assert (mail n (l1 ++ l2) = []) as Hz.
    { pose proof (mail_deliver n m [] l1 l2 n Hm) as Hd. simpl in Hd. rewrite Hd, decide_True;
        [done|done|set_solver|by rewrite <-Hnet, Hml]. }
    destruct (decide (msg_node m' = n)) as [E|E].
    - assert (m' ∈ mail n (l1 ++ l2)) by (apply list_elem_of_filter; done). rewrite Hz in *. set_solver.
    - assert (m' ∈ mail (msg_node m') (s_net s)) as Hx
        by (apply list_elem_of_filter; rewrite Hnet; set_solver).
      rewrite Hall in Hx; [set_solver| |done]. apply (v_to s Hinv). rewrite Hnet. set_solver. }
  destruct l1 as [|a l1]; [|by destruct (Hno a); left]. destruct l2 as [|a l2]; [done|].
  by destruct (Hno a); left.
Qed.

(** Entering the last phase: the decision is sent to every other node. *)
Lemma inv_enter_fin s rc t :
  inv s → is_multi_part (s_home s) = true →
  (∀ q, q ∈ others (s_home s) → idle (s_part s q) ∨ gave_up (s_part s q) ∧ rc = Abort) →
  vote rc → (rc = RCOK → acked readonly = true) → s_rsp s = 0%nat →
  tm_touched t = tm_touched (s_home s) → tm_rc t = rc → tm_log t = [rc] →
  tm_rsp_cnt t = zlen (tm_touched t) - 1 →
  inv (mkS t (Fin rc) (s_part s) ((λ n, RFIN n rc readonly) <$> others (s_home s)) (s_rsp s)).
Proof.
  intros Hinv Hmp Hq Hv Ha Hr Ht Hrc Hlog Hcnt.
  assert (others t = others (s_home s)) as Ho by (unfold others; by rewrite Ht).
  destruct (others_len (s_home s) (v_home s Hinv) (v_nd s Hinv)) as [Hlen Hnd].
  unfold is_multi_part in Hmp. destruct Hinv. split; simpl; rewrite ?Ht, ?Ho; try done.
  - intros m (n&->&Hn)%list_elem_of_fmap. done.
  - intros n Hn. left. rewrite mail_fmap by done. auto.
  - rewrite Hcnt, Ht, length_fmap. lia.
  - rewrite Hcnt, Ht. lia.
Qed.

(** *** The handlers of the other nodes *)

Lemma process_rqry_spec n rc t t' ms : idle t → run_result rc → process_rqry n rc t = (t', ms) →
  (ms = [] ∨ ms = [RQRY_RSP n RCOK]) ∧ idle t' ∨ ms = [RQRY_RSP n Abort] ∧ gave_up t'.
Proof.
  destruct t as [r a c tt lg]. unfold idle, gave_up, process_rqry, abort. simpl. intros (->&->&->) Hr.
  destruct Hr as [->|[->| ->]]; simpl; intros [= <- <-]; naive_solver.
Qed.

Lemma inv_rqry s n rc l1 l2 t ms : inv s → s_net s = l1 ++ RQRY n :: l2 → run_result rc →
  process_rqry n rc (s_part s n) = (t, ms) →
  inv (mkS (s_home s) (s_phase s) (<[n := t]> (s_part s)) (ms ++ l1 ++ l2) (s_rsp s)).
Proof.
  intros Hinv Hnet Hr Hp.
  assert (idle (s_part s n) ∧ ∃ q, s_phase s = Wait q) as [Hi [q Hq]].
  { destruct (inv_mail s n _ l1 l2 Hinv Hnet eq_refl) as [Hn Hm].
    pose proof (v_slot s Hinv n Hn) as Hsl. rewrite Hm in Hsl.
    destruct (s_phase s) as [| | | |[]]; simpl in Hsl; naive_solver. }
  pose proof (process_rqry_spec _ _ _ _ _ Hi Hr Hp) as Hspec.
  apply (inv_part s n (RQRY n)); [done..| |].
  - intros m Hm. destruct Hspec as [[[->| ->] _]|[-> _]]; set_solver.
  - rewrite Hq. simpl. intros [[[|[-> _]] _]|(->&?&_)]; [done| |done]. intros _. split; [|done].
    destruct Hspec as [[[->| ->] ?]|[-> ?]]; eauto 10.
Qed.

Lemma inv_rqry_cont s n rc t ms : inv s → s_phase s = Wait n → s_net s = [] → run_result rc →
  process_rqry n rc (s_part s n) = (t, ms) →
  inv (mkS (s_home s) (s_phase s) (<[n := t]> (s_part s)) ms (s_rsp s)).
Proof.
  intros Hinv Hph Hnet Hr Hp.
  pose proof (v_ok s Hinv) as Hok. rewrite Hph in Hok. destruct Hok as [_ Hn].
  pose proof (v_slot s Hinv n Hn) as Hsl. rewrite Hph, Hnet in Hsl. simpl in Hsl.
  assert (idle (s_part s n)) as Hi by naive_solver.
  pose proof (process_rqry_spec _ _ _ _ _ Hi Hr Hp) as Hspec.
  assert (∀ m, m ∈ ms → msg_node m = n) as Hms
    by (intros m Hm; destruct Hspec as [[[->| ->] _]|[-> _]]; set_solver).
  apply (inv_upd s n ms); [done..| |].
  - intros q. case_decide as E; [subst; by apply mail_only|]. rewrite Hnet.
    apply mail_none. intros m Hm Heq. apply E. rewrite <-Heq. auto.
  - intros _ _. rewrite Hph. simpl. split; [|done].
    destruct Hspec as [[[->| ->] ?]|[-> ?]]; eauto 10.
Qed.

Lemma inv_rprepare s n valid l1 l2 t ms : inv s → s_net s = l1 ++ RPREPARE n :: l2 → vote valid →
  process_rprepare n valid (s_part s n) = (t, ms) →
  inv (mkS (s_home s) (s_phase s) (<[n := t]> (s_part s)) (ms ++ l1 ++ l2) (s_rsp s)).
Proof.
  intros Hinv Hnet Hv Hp. injection Hp as Ht Hms. simpl in Hms.
  apply (inv_part s n (RPREPARE n)); [done..|subst; set_solver|].
  destruct (s_phase s) as [| | | |[]]; simpl; try naive_solver. intros Hsl _.
  assert (idle (s_part s n)) as (Hi1&Hi2&Hi3) by naive_solver. subst ms. split; [|done].
  destruct Hv as [->| ->]; simpl in *; subst t; [left|right; left]; unfold idle, gave_up, abort;
    simpl; rewrite ?Hi2; simpl; rewrite ?Hi3; eauto 10.
Qed.

Lemma inv_rfin s n rc ro l1 l2 t ms : inv s → s_net s = l1 ++ RFIN n rc ro :: l2 →
  process_rfin n rc ro (s_part s n) = (t, ms) →
  inv (mkS (s_home s) (s_phase s) (<[n := t]> (s_part s)) (ms ++ l1 ++ l2) (s_rsp s)).
Proof.
  intros Hinv Hnet Hp.
  assert (∀ m, m ∈ ms → msg_node m = n) as Hms.
  { unfold process_rfin in Hp. repeat case_match; injection Hp as <- <-; set_solver. }
  apply (inv_part s n (RFIN n rc ro)); [done..|]. clear Hms Hnet.
  assert (negb ro || bool_decide (alg = MAAT) || bool_decide (alg = OCC) = acked ro) as Ha
    by (unfold acked; destruct ro, (bool_decide _), (bool_decide _); done).
  unfold process_rfin in Hp. rewrite Ha in Hp. clear Ha.
  destruct (s_part s n) as [r a c tt lg] eqn:E. unfold idle, gave_up in *.
  destruct (s_phase s) as [| | |d|[]]; simpl; try naive_solver; unfold idle, gave_up; simpl.
  - intros Hsl (_&_&Hv&Ha).
    destruct Hsl as [[[= -> ->] Hsl]|[[?|?] _]]; [|done..].
    destruct Hv as [->| ->]; simpl in Hp; [rewrite Ha in Hp by done|]; injection Hp as <- <-;
      (split; [|done]); right; unfold finished, abort; destruct a; simpl in *; naive_solver.
  - intros Hsl _. destruct Hsl as [([= -> ->]&(->&->&->)&Hsl)|[? _]]; [|done].
    simpl in Hp. rewrite Hsl in Hp. injection Hp as <- <-. split; [|done]. right. by split.
Qed.

(** *** The home node *)

Lemma exec_all s : inv s → s_phase s = Exec →
  s_net s = [] ∧ (∀ n, idle (s_part s n)) ∧ idle (s_home s) ∧ tm_rsp_cnt (s_home s) = 0.
Proof.
  intros Hinv Hph. pose proof (v_slot s Hinv) as Hsl. pose proof (v_ok s Hinv) as Hok.
  pose proof (v_cnt s Hinv) as Hc. rewrite Hph in *. simpl in *.
  split_and!; [|intros n|done|done].
  - apply net_nil; [done|]. intros q Hq. by apply Hsl.
  - destruct (decide (n ∈ others (s_home s))) as [Hn|Hn]; [by apply Hsl|by apply (v_out s Hinv)].
Qed.

Lemma elem_of_others n t : n ∈ others t ↔ n ≠ home ∧ n ∈ tm_touched t.
Proof. unfold others. by rewrite list_elem_of_filter. Qed.

Lemma elem_of_touch n q t : q ∈ tm_touched (touch n t) ↔ q = n ∨ q ∈ tm_touched t.
Proof. unfold touch, add_unique. simpl. case_bool_decide; set_solver. Qed.

Lemma NoDup_touch n t : NoDup (tm_touched t) → NoDup (tm_touched (touch n t)).
Proof.
  unfold touch, add_unique. simpl. case_bool_decide; [done|]. intros. apply NoDup_app.
  repeat split; [done|set_solver|apply NoDup_singleton].
Qed.

Lemma inv_remote s n : inv s → s_phase s = Exec → n ≠ home →
  inv (mkS (touch n (s_home s)) (Wait n) (s_part s) (RQRY n :: s_net s) (s_rsp s)).
Proof.
  intros Hinv Hph Hn. destruct (exec_all s Hinv Hph) as (Hnet&Hidle&Hh&Hc).
  assert (n ∈ others (touch n (s_home s))) as Ho
    by (rewrite elem_of_others, elem_of_touch; auto).
  destruct Hinv. rewrite Hnet. split; simpl; try done.
  - apply elem_of_touch. auto.
  - by apply NoDup_touch.
  - set_solver.
  - intros q Hq. left. split; [|apply Hidle]. destruct (decide (q = n)) as [->|Hne].
    + right. split; [done|]. left. by rewrite mail_same.
    + left. by rewrite mail_other.
  - by rewrite v_rsp0, Hph.
Qed.

(** The answer of a node: only this node was asked. *)
Lemma inv_rsp_only s n rc l1 l2 : inv s → s_net s = l1 ++ RQRY_RSP n rc :: l2 →
  s_phase s = Wait n ∧ l1 = [] ∧ l2 = [] ∧ n ∈ others (s_home s) ∧
  (∀ q, q ≠ n → idle (s_part s q)) ∧ (rc = RCOK ∧ idle (s_part s n) ∨ rc = Abort ∧ gave_up (s_part s n)).
Proof.
  intros Hinv Hnet. destruct (inv_mail s n _ l1 l2 Hinv Hnet eq_refl) as [Hn Hm].
  pose proof (v_slot s Hinv) as Hsl. pose proof (Hsl n Hn) as Hsn. rewrite Hm in Hsn.
  destruct (s_phase s) as [|w| | |[]]; simpl in Hsl, Hsn; try naive_solver.
  assert (w = n) as -> by naive_solver.
  destruct (net_single s n _ l1 l2 Hinv Hnet eq_refl) as [-> ->].
  { intros q Hq Hne. specialize (Hsl q Hq). naive_solver. }
  split_and!; [done..| |naive_solver].
  intros q Hne. destruct (decide (q ∈ others (s_home s))) as [Hq|Hq]; [|by apply (v_out s Hinv)].
  specialize (Hsl q Hq). naive_solver.
Qed.

Lemma inv_rqry_rsp_ok s n l1 l2 : inv s → s_net s = l1 ++ RQRY_RSP n RCOK :: l2 →
  inv (mkS (s_home s) Exec (s_part s) (l1 ++ l2) (s_rsp s)).
Proof.
  intros Hinv Hnet. destruct (inv_rsp_only s n _ l1 l2 Hinv Hnet) as (Hph&->&->&Hn&Hq&Hi).
  assert (idle (s_part s n)) by naive_solver. destruct Hinv. rewrite Hph in *.
  split; simpl in *; try done; [set_solver| |apply v_ok0].
  intros q _. split; [done|]. destruct (decide (q = n)); subst; auto.
Qed.

Lemma start_abort_spec t : idle t → start_abort readonly t =
  (Abort, mkTM Abort true (if is_multi_part t then zlen (tm_touched t) - 1 else tm_rsp_cnt t)
            (tm_touched t) [Abort],
   if is_multi_part t then (λ n, RFIN n Abort readonly) <$> others t else []).
Proof.
  destruct t as [r a c tt lg]. intros (Hr&Ha&Hl). simpl in *. subst.
  unfold start_abort, is_multi_part. simpl. by destruct (1 <? _).
Qed.

Lemma others_multi t n : n ∈ others t → home ∈ tm_touched t → is_multi_part t = true.
Proof.
  intros [Hn Ht]%elem_of_others Hh. unfold is_multi_part. apply Z.ltb_lt.
  destruct (tm_touched t) as [|a [|b l]]; [by apply elem_of_nil in Hh| |simpl; lia].
  apply list_elem_of_singleton in Hh, Ht. congruence.
Qed.

Lemma inv_rqry_rsp_abort s n l1 l2 o t ms : inv s → s_net s = l1 ++ RQRY_RSP n Abort :: l2 →
  process_rqry_rsp_abort readonly (s_home s) = (o, t, ms) →
  inv (mkS t (phase_of o Abort) (s_part s) (ms ++ l1 ++ l2) (s_rsp s)).
Proof.
  intros Hinv Hnet. destruct (inv_rsp_only s n _ l1 l2 Hinv Hnet) as (Hph&->&->&Hn&Hq&Hi).
  pose proof (v_ok s Hinv) as Hok. rewrite Hph in Hok. destruct Hok as [Hidle _].
  pose proof (others_multi _ n Hn (v_home s Hinv)) as Hmp.
  unfold process_rqry_rsp_abort. rewrite (start_abort_spec _ Hidle), Hmp. intros [= <- <- <-].
  rewrite app_nil_r. apply (inv_enter_fin s Abort); try done; [|by right|].
  - intros q _. destruct (decide (q = n)) as [->|]; [naive_solver|left; auto].
  - rewrite (v_rsp s Hinv). by rewrite Hph.
Qed.

Lemma single_others t : NoDup (tm_touched t) → home ∈ tm_touched t → is_multi_part t = false →
  others t = [].
Proof.
  intros Hd Hh Hm. destruct (others t) as [|n l] eqn:E; [done|].
  rewrite (others_multi t n) in Hm; [done|by rewrite E; left|done].
Qed.

Lemma inv_single s o t : inv s → s_phase s = Exec → is_multi_part (s_home s) = false →
  home_ok (Done o) t → tm_touched t = tm_touched (s_home s) → tm_rsp_cnt t = 0 →
  inv (mkS t (Done o) (s_part s) (s_net s) (answers o (s_rsp s))).
Proof.
  intros Hinv Hph Hmp Hok Ht Hc. destruct (exec_all s Hinv Hph) as (Hnet&Hidle&_&_).
  pose proof (single_others _ (v_nd s Hinv) (v_home s Hinv) Hmp) as Ho.
  assert (others t = []) as Ho' by (unfold others in *; by rewrite Ht).
  destruct Hinv. rewrite Hnet, Hph in *. split; simpl; rewrite ?Ht, ?Ho'; try done; [set_solver..|].
  destruct o; simpl in *; [done| |]; by rewrite v_rsp0.
Qed.

Lemma inv_abort s valid o t ms : inv s → s_phase s = Exec →
  run_txn_end readonly Abort valid (s_home s) = (o, t, ms) →
  inv (mkS t (phase_of o Abort) (s_part s) (ms ++ s_net s) (s_rsp s)).
Proof.
  intros Hinv Hph. destruct (exec_all s Hinv Hph) as (Hnet&Hidle&Hh&Hc).
  unfold run_txn_end. simpl. rewrite (start_abort_spec _ Hh).
  unfold check_if_done, waiting_for_response. simpl.
  destruct (is_multi_part (s_home s)) eqn:Hmp.
  - assert (1 < zlen (tm_touched (s_home s))) as Hl by (unfold is_multi_part in Hmp; lia).
    rewrite (proj2 (Z.ltb_lt _ _)) by lia. intros [= <- <- <-]. rewrite Hnet, app_nil_r.
    apply (inv_enter_fin s Abort); try done; [auto|by right|]. by rewrite (v_rsp s Hinv), Hph.
  - rewrite Hc. simpl. intros [= <- <- <-]. apply (inv_single s Requeued); done.
Qed.

(** Sending the prepare messages. *)
Lemma inv_enter_prep s : inv s → s_phase s = Exec → is_multi_part (s_home s) = true →
  acked readonly = true →
  inv (mkS (send_prepare_messages (s_home s)).1 Prep (s_part s)
         ((send_prepare_messages (s_home s)).2 ++ s_net s) (s_rsp s)).
Proof.
  intros Hinv Hph Hmp Ha. destruct (exec_all s Hinv Hph) as (Hnet&Hidle&(Hr&Hb&Hl)&Hc).
  destruct (others_len (s_home s) (v_home s Hinv) (v_nd s Hinv)) as [Hlen Hnd].
  unfold is_multi_part in Hmp. destruct Hinv. rewrite Hnet, Hph, app_nil_r in *.
  split; simpl; try done.
  - intros m (n&->&Hn)%list_elem_of_fmap. done.
  - intros n Hn. left. rewrite (mail_fmap RPREPARE) by done. eauto.
  - split_and!; [done..|by left|done].
  - rewrite length_fmap. change (others (set_rsp_cnt _ _)) with (others (s_home s)). lia.
  - lia.
Qed.

(** The commit of a read-only transaction that is not validated. *)
Lemma inv_enter_readonly s t : inv s → s_phase s = Exec → acked readonly = false →
  tm_log t = [RCOK] → tm_touched t = tm_touched (s_home s) → tm_rsp_cnt t = 0 →
  inv (mkS t (Done Answered) (s_part s)
         (((λ n, RFIN n RCOK readonly) <$> others (s_home s)) ++ s_net s) (S (s_rsp s))).
Proof.
  intros Hinv Hph Ha Hl Ht Hc. destruct (exec_all s Hinv Hph) as (Hnet&Hidle&_&_).
  assert (others t = others (s_home s)) as Ho by (unfold others; by rewrite Ht).
  destruct (others_len (s_home s) (v_home s Hinv) (v_nd s Hinv)) as [_ Hnd].
  destruct Hinv. rewrite Hnet, Hph, app_nil_r in *. split; simpl; rewrite ?Ht, ?Ho; try done.
  - intros m (n&->&Hn)%list_elem_of_fmap. done.
  - intros n Hn. left. rewrite mail_fmap by done. eauto.
  - by rewrite v_rsp0.
Qed.

Lemma inv_commit s valid o t ms : inv s → s_phase s = Exec → vote valid →
  run_txn_end readonly RCOK valid (s_home s) = (o, t, ms) →
  inv (mkS t (match o with Pending => Prep | _ => Done o end) (s_part s) (ms ++ s_net s)
         (answers o (s_rsp s))).
Proof.
  intros Hinv Hph Hv. destruct (exec_all s Hinv Hph) as (Hnet&Hidle&Hh&Hc).
  unfold run_txn_end. simpl. unfold start_commit. fold (acked readonly).
  destruct (is_multi_part (s_home s)) eqn:Hmp; [destruct (acked readonly) eqn:Ha|].
  - unfold check_if_done, waiting_for_response. simpl.
    assert (1 < zlen (tm_touched (s_home s))) as Hl by (unfold is_multi_part in Hmp; lia).
    rewrite (proj2 (Z.ltb_lt _ _)) by lia. intros [= <- <- <-]. by apply (inv_enter_prep s).
  - simpl. intros [= <- <- <-]. destruct Hh as (Hr&_&Hl). rewrite Hr.
    apply (inv_enter_readonly s); try done. simpl. by rewrite Hl.
  - destruct Hv as [->| ->]; simpl.
    + unfold check_if_done, waiting_for_response. simpl. rewrite Hc. simpl. intros [= <- <- <-].
      apply (inv_single s Answered); try done. destruct Hh as (_&_&Hl). simpl. by rewrite Hl.
    + rewrite (start_abort_spec _ Hh), Hmp. unfold check_if_done, waiting_for_response. simpl.
      rewrite Hc. simpl. intros [= <- <- <-]. apply (inv_single s Requeued); done.
Qed.

Definition join (r rc : RC) : RC := if bool_decide (r = RCOK) then rc else r.

Lemma received_response_spec rc t : vote (tm_rc t) →
  received_response rc t = Some (tm_rsp_cnt t - 1,
    mkTM (join (tm_rc t) rc) (tm_aborted t) (tm_rsp_cnt t - 1) (tm_touched t) (tm_log t)).
Proof.
  intros Hv. unfold received_response. rewrite (bool_decide_true (tm_rc t = RCOK ∨ tm_rc t = Abort)) by exact Hv. simpl.
  destruct t as [r a c tt lg]. simpl. unfold join. by case_bool_decide.
Qed.

Lemma vote_join r rc : vote r → vote rc → vote (join r rc) ∧ (join r rc = RCOK ↔ r = RCOK ∧ rc = RCOK).
Proof. intros [->| ->] [->| ->]; unfold join, vote; simpl; naive_solver. Qed.

(** A vote arrives. *)
Lemma rack_prep_only s n rc l1 l2 : inv s → s_net s = l1 ++ RACK_PREP n rc :: l2 →
  s_phase s = Prep ∧ n ∈ others (s_home s) ∧
  (rc = RCOK ∧ idle (s_part s n) ∨ rc = Abort ∧ gave_up (s_part s n)) ∧
  tm_rsp_cnt (s_home s) - 1 = zlen (l1 ++ l2).
Proof.
  intros Hinv Hnet. destruct (inv_mail s n _ l1 l2 Hinv Hnet eq_refl) as [Hn Hm].
  pose proof (v_slot s Hinv n Hn) as Hsl. pose proof (v_cnt s Hinv) as Hc. rewrite Hm in Hsl.
  destruct (s_phase s) as [| | | |[]]; simpl in Hsl, Hc; try naive_solver.
  split_and!; [done..|naive_solver|]. rewrite Hc, Hnet, !length_app. simpl. lia.
Qed.

(** A vote that is not the last. *)
Lemma inv_vote s n rc l1 l2 : inv s → s_net s = l1 ++ RACK_PREP n rc :: l2 → l1 ++ l2 ≠ [] →
  inv (mkS (mkTM (join (tm_rc (s_home s)) rc) (tm_aborted (s_home s)) (zlen (l1 ++ l2))
              (tm_touched (s_home s)) (tm_log (s_home s)))
         Prep (s_part s) (l1 ++ l2) (s_rsp s)).
Proof.
  intros Hinv Hnet Hne. destruct (rack_prep_only s n rc l1 l2 Hinv Hnet) as (Hph&Hn&Hrc&Hc).
  destruct (inv_mail s n _ l1 l2 Hinv Hnet eq_refl) as [_ Hmn].
  assert (∀ q, mail q (l1 ++ l2) = if decide (q = n) then [] else mail q (s_net s)) as Hmail.
  { intros q. rewrite Hnet. apply (mail_deliver n _ []); [done|set_solver|by rewrite <-Hnet, Hmn]. }
  destruct Hinv. rewrite Hph in *. destruct v_ok0 as (Hab&Hl&Hv&Ha).
  split; simpl; try done.
  - intros m Hm. apply v_to0. rewrite Hnet. set_solver.
  - intros q Hq. rewrite Hmail. case_decide as E.
    + subst q. destruct Hrc as [[_ ?]|[-> ?]]; [left; auto|right; right].
      split_and!; [done..|]. unfold join. case_bool_decide; [done|]. by destruct Hv.
    + destruct (v_slot0 q Hq) as [Hs|[Hs|(?&?&Hx)]]; [by left|right; by left|right; right].
      split_and!; [done..|]. unfold join. by rewrite Hx.
  - split_and!; [done..| |done]. apply vote_join; [done|]. unfold vote. naive_solver.
  - destruct (l1 ++ l2); [done|simpl; lia].
Qed.

(** When the last vote arrives, a node that gave up makes the decision [Abort]. *)
Lemma last_vote_parts s n rc d q : inv s → s_net s = [RACK_PREP n rc] → q ∈ others (s_home s) →
  (d ≠ Abort → join (tm_rc (s_home s)) rc = RCOK) → vote d →
  idle (s_part s q) ∨ gave_up (s_part s q) ∧ d = Abort.
Proof.
  intros Hinv Hnet Hq Hd Hvd. destruct (rack_prep_only s n rc [] [] Hinv Hnet) as (Hph&_&Hrc&_).
  pose proof (v_ok s Hinv) as Hok. rewrite Hph in Hok. destruct Hok as (_&_&Hv0&_).
  pose proof (v_slot s Hinv q Hq) as Hsq. rewrite Hph, Hnet in Hsq. simpl in Hsq.
  destruct Hvd as [->| ->]; [|destruct Hsq as [[_ ?]|[[_ ?]|(_&?&_)]]; auto].
  assert (vote rc) as Hvrc by (unfold vote; naive_solver).
  apply (vote_join _ _ Hv0 Hvrc) in Hd as [Hd1 Hd2]; [|done].
  destruct (decide (q = n)) as [->|Hqn]; [naive_solver|].
  rewrite mail_other in Hsq by (simpl; congruence). naive_solver congruence.
Qed.

Lemma inv_rack_prep s n rc valid l1 l2 t ms : inv s → s_net s = l1 ++ RACK_PREP n rc :: l2 →
  vote valid → process_rack_prep readonly rc valid (s_home s) = Some (t, ms) →
  inv (mkS t (if 0 <? tm_rsp_cnt (s_home s) - 1 then s_phase s else Fin (tm_rc t))
         (s_part s) (ms ++ l1 ++ l2) (s_rsp s)).
Proof.
  intros Hinv Hnet Hv. destruct (rack_prep_only s n rc l1 l2 Hinv Hnet) as (Hph&Hn&Hrc&Hc).
  pose proof (v_ok s Hinv) as Hok. rewrite Hph in Hok. destruct Hok as (Hab&Hl&Hv0&Ha).
  destruct (vote_join (tm_rc (s_home s)) rc) as [Hvj _]; [done|unfold vote; naive_solver|].
  pose proof (v_rsp s Hinv) as Hr. rewrite Hph in Hr.
  unfold process_rack_prep. rewrite received_response_spec by done. simpl.
  rewrite !Hc, (proj2 (Z.leb_le _ _)) by lia. simpl.
  destruct (Z.ltb_spec 0 (zlen (l1 ++ l2))) as [Hp|Hp].
  - intros [= <- <-]. rewrite Hph, app_nil_l. apply inv_vote with n; [done..|].
    intros E. rewrite E in Hp. simpl in Hp. lia.
  - assert (l1 ++ l2 = []) as [-> ->]%app_eq_nil by (apply length_zero_iff_nil; lia).
    pose proof (others_multi _ n Hn (v_home s Hinv)) as Hmp. simpl in Hnet.
    destruct (bool_decide (_ = Abort) || _) eqn:Hdec; simpl; rewrite ?Hab; intros [= <- <-];
      rewrite app_nil_r; change (others _) with (others (s_home s)).
    + apply (inv_enter_fin s Abort); simpl; try done; [|by right|by rewrite Hl].
      intros q Hq. eapply last_vote_parts; [done..|by right].
    + apply orb_false_iff in Hdec as [_ Hd]. apply bool_decide_eq_false in Hd.
      assert (join (tm_rc (s_home s)) rc = RCOK) as Hj by (by destruct Hvj).
      rewrite Hj. simpl.
      apply (inv_enter_fin s RCOK); simpl; try done; [|by left|by rewrite Hl].
      intros q Hq. eapply last_vote_parts; [done..|by left].
Qed.

(** An acknowledgement arrives. *)
Lemma rack_fin_only s n rc l1 l2 : inv s → s_net s = l1 ++ RACK_FIN n rc :: l2 →
  rc = RCOK ∧ n ∈ others (s_home s) ∧ (∃ d, s_phase s = Fin d ∧ finished d (s_part s n)) ∧
  tm_rsp_cnt (s_home s) - 1 = zlen (l1 ++ l2).
Proof.
  intros Hinv Hnet. destruct (inv_mail s n _ l1 l2 Hinv Hnet eq_refl) as [Hn Hm].
  pose proof (v_slot s Hinv n Hn) as Hsl. pose proof (v_cnt s Hinv) as Hc. rewrite Hm in Hsl.
  destruct (s_phase s) as [| | |d|[]]; simpl in Hsl, Hc; try naive_solver.
  split_and!; [naive_solver|done|naive_solver|]. rewrite Hc, Hnet, !length_app. simpl. lia.
Qed.

Lemma inv_rack_fin s n rc l1 l2 o t : inv s → s_net s = l1 ++ RACK_FIN n rc :: l2 →
  process_rack_rfin rc (s_home s) = Some (o, t) →
  inv (mkS t (match o with Pending => s_phase s | _ => Done o end) (s_part s) (l1 ++ l2)
         (answers o (s_rsp s))).
Proof.
  intros Hinv Hnet. destruct (rack_fin_only s n rc l1 l2 Hinv Hnet) as (->&Hn&(d&Hph&Hf)&Hc).
  destruct (inv_mail s n _ l1 l2 Hinv Hnet eq_refl) as [_ Hmn].
  assert (∀ q, mail q (l1 ++ l2) = if decide (q = n) then [] else mail q (s_net s)) as Hmail.
  { intros q. rewrite Hnet. apply (mail_deliver n _ []); [done|set_solver|by rewrite <-Hnet, Hmn]. }
  destruct Hinv. rewrite Hph in *. destruct v_ok0 as (Hl&Hrc&Hv&Ha).
  unfold process_rack_rfin. rewrite received_response_spec by (by rewrite Hrc). simpl.
  rewrite !Hc, (proj2 (Z.leb_le _ _)) by lia. simpl.
  assert (join (tm_rc (s_home s)) RCOK = d) as ->
    by (rewrite Hrc; unfold join; by case_bool_decide).
  destruct (Z.ltb_spec 0 (zlen (l1 ++ l2))) as [Hp|Hp].
  - intros [= <- <-]. split; simpl; try done.
    + intros m Hm. apply v_to0. rewrite Hnet. set_solver.
    + intros q Hq. rewrite Hmail. case_decide; [subst; auto|by apply v_slot0].
  - assert (l1 ++ l2 = []) as [-> ->]%app_eq_nil by (apply length_zero_iff_nil; lia).
    assert (∀ q, q ∈ others (s_home s) → finished d (s_part s q)) as Hfin.
    { intros q Hq. destruct (decide (q = n)) as [->|Hne]; [done|]. pose proof (v_slot0 q Hq) as Hsq.
      specialize (Hmail q). rewrite decide_False in Hmail by done. rewrite <-Hmail in Hsq.
      simpl in Hsq. naive_solver. }
    destruct Hv as [->| ->]; simpl; intros [= <- <-]; split; simpl; try done;
      try (intros q Hq; by apply elem_of_nil in Hq); try (by rewrite v_rsp0).
    + intros q Hq. right. split; [done|]. by apply Hfin.
    + intros q Hq. split; [done|]. by apply Hfin.
Qed.

(** *** Every step *)

Lemma inv_restart s : inv s → s_phase s = Done Requeued →
  let fresh t := mkTM (tm_rc t) (tm_aborted t) (tm_rsp_cnt t) (tm_touched t) [] in
  inv (mkS (fresh (s_home s)) Exec (λ n, fresh (s_part s n)) (s_net s) (s_rsp s)).
Proof.
  intros Hinv Hph fresh. destruct Hinv. rewrite Hph in *. simpl in *.
  assert (∀ t, finished Abort t → idle (fresh t)) as Hf by (intros t [_ []]; by split).
  split; simpl; try done.
  - intros n Hn. destruct (v_out0 n Hn) as (?&?&_). by split.
  - intros n Hn. destruct (v_slot0 n Hn) as [? ?]. auto.
  - by apply Hf.
Qed.

Lemma inv_start : inv (start).
Proof.
  split; simpl; try done.
  - change (home ∈ [home]). by left.
  - apply (NoDup_singleton home).
  - intros m Hm. by apply elem_of_nil in Hm.
Qed.

Lemma inv_step s s' : inv s → step readonly s s' → inv s'.
Proof.
  intros Hinv Hs. destruct Hs; eauto using inv_remote, inv_rqry, inv_rqry_cont, inv_rqry_rsp_ok,
    inv_rqry_rsp_abort, inv_commit, inv_abort, inv_rprepare, inv_rack_prep, inv_rfin, inv_rack_fin,
    inv_restart.
Qed.

Lemma inv_reachable s : rtc (step readonly) start s → inv s.
Proof.
  revert s. apply (rtc_ind_r (λ s, inv s)); [apply inv_start|]. eauto using inv_step.
Qed.

(** ** Agreement *)

(** The managers of the transaction: the home node's and those of the other nodes. *)
Definition manager (s : state) (t : TxnManager) : Prop := t = s_home s ∨ ∃ n, t = s_part s n.

(** The outcome a phase allows. *)
Definition allowed (s : state) (lg : list RC) : Prop :=
  match s_phase s with
  | Exec => lg = []
  | Fin rc => lg = [] ∨ lg = [rc]
  | Done Answered => lg = [] ∨ lg = [RCOK]
  | _ => lg = [] ∨ lg = [Abort]
  end.

Lemma manager_allowed s t : inv s → manager s t → allowed s (tm_log t).
Proof.
  intros Hinv [->|[n ->]]; unfold allowed.
  - pose proof (v_ok s Hinv) as Hok. unfold home_ok, idle, finished in Hok.
    destruct (s_phase s) as [| | |d|[]]; naive_solver.
  - destruct (decide (n ∈ others (s_home s))) as [Hn|Hn].
    + pose proof (v_slot s Hinv n Hn) as Hsl. unfold slot, idle, gave_up, finished in Hsl.
      destruct (s_phase s) as [| | |d|[]]; naive_solver.
    + destruct (v_out s Hinv n Hn) as (_&_&->). destruct (s_phase s) as [| | |d|[]]; auto.
Qed.

Lemma vote_phase s rc : inv s → s_phase s = Fin rc → vote rc.
Proof. intros Hinv Hph. pose proof (v_ok s Hinv) as Hok. rewrite Hph in Hok. apply Hok. Qed.

Lemma allowed_agree s l1 l2 : inv s → allowed s l1 → allowed s l2 →
  (length l1 ≤ 1)%nat ∧ (RCOK ∈ l1 → Abort ∉ l2).
Proof.
  intros Hinv. pose proof (vote_phase s) as Hv. unfold allowed.
  destruct (s_phase s) as [| | |d|[]]; [| | |destruct (Hv d Hinv eq_refl) as [->| ->]|..];
    intros H1 H2; destruct_or?; subst; set_solver by lia.
Qed.

(** ** Termination of a round *)

Definition committing (s : state) : Prop :=
  match s_phase s with Prep | Fin _ => True | _ => False end.

(** The deliveries a message still causes in its phase, and with them the deliveries
    left until the home node is done. *)
Definition msg_weight (m : msg) : nat :=
  match m with RPREPARE _ | RFIN _ _ _ => 2 | RACK_PREP _ _ | RACK_FIN _ _ => 1 | _ => 0 end.
Definition net_weight (net : list msg) : nat := sum_list (msg_weight <$> net).
Definition weight (s : state) : nat :=
  (net_weight (s_net s) +
   match s_phase s with Prep => 2 * length (others (s_home s)) | _ => 0 end)%nat.

Lemma net_weight_cons m l : net_weight (m :: l) = (msg_weight m + net_weight l)%nat.
Proof. done. Qed.

Lemma net_weight_app l1 l2 : net_weight (l1 ++ l2) = (net_weight l1 + net_weight l2)%nat.
Proof.
  induction l1 as [|m l1 IH]; [done|]. rewrite <-app_comm_cons, !net_weight_cons, IH. lia.
Qed.

Lemma net_weight_fmap (f : node → msg) k l : (∀ n, msg_weight (f n) = k) →
  net_weight (f <$> l) = (k * length l)%nat.
Proof.
  intros Hf. induction l as [|n l IH]; [by rewrite Nat.mul_0_r|].
  rewrite fmap_cons, net_weight_cons, Hf, IH. simpl. nia.
Qed.

Lemma net_weight_le l : (net_weight l ≤ 2 * length l)%nat.
Proof.
  induction l as [|m l IH]; [done|]. rewrite net_weight_cons. simpl.
  destruct m; simpl; lia.
Qed.

Lemma mail_NoDup net : (∀ q, (length (mail q net) ≤ 1)%nat) → NoDup (msg_node <$> net).
Proof.
  induction net as [|m l IH]; intros H; [apply NoDup_nil_2|]. simpl. apply NoDup_cons. split.
  - intros (m'&Heq&Hm')%list_elem_of_fmap. specialize (H (msg_node m)).
    rewrite mail_same in H by done. simpl in H.
    assert (m' ∈ mail (msg_node m) l) as Hx by (by apply list_elem_of_filter).
    destruct (mail (msg_node m) l); [by apply elem_of_nil in Hx|simpl in H; lia].
  - apply IH. intros q. specialize (H q). destruct (decide (msg_node m = q)).
    + rewrite mail_same in H by done. simpl in H. lia.
    + by rewrite mail_other in H.
Qed.

Lemma net_length s : inv s → (length (s_net s) ≤ length (others (s_home s)))%nat.
Proof.
  intros Hinv. rewrite <-(length_fmap msg_node). apply submseteq_length, NoDup_submseteq.
  - apply mail_NoDup. intros q. destruct (decide (q ∈ others (s_home s))) as [Hq|Hq].
    + by eapply mail_slot_short, (v_slot s Hinv).
    + rewrite mail_none; [simpl; lia|]. intros m Hm <-. by apply Hq, (v_to s Hinv).
  - intros n (m&->&Hm)%list_elem_of_fmap. by apply (v_to s Hinv).
Qed.

Lemma weight_bound s : inv s → (weight s ≤ 4 * length (others (s_home s)))%nat.
Proof.
  intros Hinv. pose proof (net_length s Hinv). pose proof (net_weight_le (s_net s)).
  unfold weight. destruct (s_phase s); lia.
Qed.

(** What is in flight in a round. *)
Lemma committing_mail s m : inv s → committing s → m ∈ s_net s →
  match m with
  | RPREPARE _ | RACK_PREP _ _ => s_phase s = Prep
  | RFIN _ _ _ | RACK_FIN _ _ => ∃ rc, s_phase s = Fin rc
  | _ => False
  end.
Proof.
  intros Hinv Hc (l1&l2&Hnet)%list_elem_of_split.
  destruct (inv_mail s _ m l1 l2 Hinv Hnet eq_refl) as [Hn Hm].
  pose proof (v_slot s Hinv _ Hn) as Hsl. rewrite Hm in Hsl. unfold committing in Hc.
  destruct (s_phase s); try done; destruct m; simpl in Hsl; naive_solver.
Qed.

Lemma committing_net s : inv s → committing s → s_net s ≠ [].
Proof.
  intros Hinv Hc Hn. pose proof (v_some s Hinv) as Hs. pose proof (v_cnt s Hinv) as Hcnt.
  rewrite Hn in Hcnt. unfold committing in Hc. destruct (s_phase s); simpl in *; try done; lia.
Qed.

Lemma prep_vote s : inv s → committing s → vote (tm_rc (s_home s)).
Proof.
  intros Hinv Hc. pose proof (v_ok s Hinv) as Hok. unfold committing in Hc.
  destruct (s_phase s); try done; simpl in Hok; [naive_solver|]. destruct Hok as (_&->&?&_). done.
Qed.

(** What the vote handler does to the home node and what it sends. *)
Lemma rack_prep_sends rc valid t0 t ms : vote (tm_rc t0) →
  process_rack_prep readonly rc valid t0 = Some (t, ms) →
  others t = others t0 ∧
  net_weight ms = if 0 <? tm_rsp_cnt t0 - 1 then 0%nat else (2 * length (others t0))%nat.
Proof.
  intros Hv. unfold process_rack_prep. rewrite received_response_spec by done. simpl.
  destruct (0 <=? tm_rsp_cnt t0 - 1); [|done]. simpl.
  destruct (0 <? tm_rsp_cnt t0 - 1); [by intros [= <- <-]|].
  destruct (_ || _); simpl; intros [= <- <-]; (split; [|by rewrite net_weight_fmap with (k := 2%nat)]);
    unfold abort; simpl; [by destruct (tm_aborted t0)|done].
Qed.

Lemma rack_rfin_others rc t0 o t : vote (tm_rc t0) →
  process_rack_rfin rc t0 = Some (o, t) → others t = others t0.
Proof.
  intros Hv. unfold process_rack_rfin. rewrite received_response_spec by done. simpl.
  destruct (0 <=? tm_rsp_cnt t0 - 1); [|done]. simpl. destruct (0 <? tm_rsp_cnt t0 - 1);
    [|destruct (bool_decide _)]; by intros [= _ <-].
Qed.

Lemma rfin_sends n rc ro t0 t ms : process_rfin n rc ro t0 = (t, ms) → (net_weight ms ≤ 1)%nat.
Proof.
  unfold process_rfin. intros H. repeat case_match; injection H as <- <-; simpl;
    rewrite ?net_weight_cons; cbn; lia.
Qed.

Lemma step_weight s s' : inv s → committing s → step readonly s s' →
  (weight s' < weight s)%nat ∧ others (s_home s') = others (s_home s).
Proof.
  intros Hinv Hc Hs. pose proof (committing_mail s) as Hcm. pose proof (prep_vote s Hinv Hc) as Hv.
  unfold weight. destruct Hs as
    [n Hph _|n rc l1 l2 t ms Hnet _ _|n rc t ms Hph _ _ _|n l1 l2 Hnet|n l1 l2 o t ms Hnet _
    |valid o t ms Hph _ _|valid o t ms Hph _|n valid l1 l2 t ms Hnet _ Hp
    |n rc valid l1 l2 t ms Hnet _ Hp|n rc ro l1 l2 t ms Hnet Hp|n rc l1 l2 o t Hnet Hp|Hph];
    try (unfold committing in Hc; by rewrite Hph in Hc);
    match type of Hnet with _ = _ ++ ?m :: _ =>
      specialize (Hcm m Hinv Hc ltac:(rewrite Hnet; set_solver)); simpl in Hcm end; try done;
    cbn [s_net s_phase s_home]; rewrite Hnet, !net_weight_app, net_weight_cons; cbn [msg_weight].
  - injection Hp as _ <-. rewrite Hcm, net_weight_cons. cbn. split; [lia|done].
  - destruct (rack_prep_sends _ _ _ _ _ Hv Hp) as [-> ->]. rewrite Hcm.
    case_match; split; (lia || done).
  - pose proof (rfin_sends _ _ _ _ _ _ Hp). destruct Hcm as [d ->]. split; [lia|done].
  - rewrite (rack_rfin_others _ _ _ _ Hv Hp). destruct Hcm as [d ->].
    destruct o; split; (lia || done).
Qed.

Lemma rack_prep_total s n rc valid : inv s → RACK_PREP n rc ∈ s_net s →
  is_Some (process_rack_prep readonly rc valid (s_home s)).
Proof.
  intros Hinv (l1&l2&Hnet)%list_elem_of_split.
  destruct (rack_prep_only s n rc l1 l2 Hinv Hnet) as (Hph&_&_&Hc).
  pose proof (v_ok s Hinv) as Hok. rewrite Hph in Hok. destruct Hok as (_&_&Hv&_).
  unfold process_rack_prep. rewrite received_response_spec by done. simpl.
  rewrite (proj2 (Z.leb_le _ _)) by lia. simpl. repeat case_match; eauto.
Qed.

Lemma rack_fin_total s n rc : inv s → RACK_FIN n rc ∈ s_net s →
  is_Some (process_rack_rfin rc (s_home s)).
Proof.
  intros Hinv (l1&l2&Hnet)%list_elem_of_split.
  destruct (rack_fin_only s n rc l1 l2 Hinv Hnet) as (_&_&(d&Hph&_)&Hc).
  assert (vote (tm_rc (s_home s))) as Hv by (apply prep_vote; [done|]; unfold committing; by rewrite Hph).
  unfold process_rack_rfin. rewrite received_response_spec by done. simpl.
  rewrite (proj2 (Z.leb_le _ _)) by lia. simpl. repeat case_match; eauto.
Qed.

Lemma committing_progress s : inv s → committing s → ∃ s', step readonly s s'.
Proof.
  intros Hinv Hc. pose proof (committing_net s Hinv Hc) as Hne.
  destruct (s_net s) as [|m l] eqn:Hnet; [done|].
  pose proof (committing_mail s m Hinv Hc ltac:(rewrite Hnet; left)) as Hm.
  destruct m as [n|n rc|n|n rc|n rc ro|n rc]; try done.
  - eexists. eapply (step_rprepare _ s n RCOK [] l); [done|by left|done].
  - destruct (rack_prep_total s n rc RCOK Hinv) as [[t ms] ?]; [rewrite Hnet; left|].
    eexists. by eapply (step_rack_prep _ s n rc RCOK [] l); [|left|].
  - destruct (process_rfin n rc ro (s_part s n)) as [t ms] eqn:?.
    eexists. by eapply (step_rfin _ s n rc ro [] l).
  - destruct (rack_fin_total s n rc Hinv) as [[o t] ?]; [rewrite Hnet; left|].
    eexists. by eapply (step_rack_fin _ s n rc [] l).
Qed.

(** A step of a round, which ends when the home node is done. *)
Definition round_step (s s' : state) : Prop := committing s ∧ step readonly s s'.

Lemma round_bound k s s' : inv s → nsteps round_step k s s' → inv s' ∧ (k + weight s' ≤ weight s)%nat.
Proof.
  intros Hinv Hn. induction Hn as [s|k s s1 s' [Hc Hs] _ IH]; [split; [done|lia]|].
  destruct (step_weight s s1 Hinv Hc Hs) as [Hw _].
  destruct (IH (inv_step _ _ Hinv Hs)) as [? ?]. split; [done|lia].
Qed.

(** The phase a step of a round leads to. *)
Lemma round_phase s s' : inv s → round_step s s' →
  committing s' ∨ s_phase s' = Done Answered ∨ s_phase s' = Done Requeued.
Proof.
  intros Hinv [Hc Hs]. pose proof (v_ok s' (inv_step _ _ Hinv Hs)) as Hok.
  pose proof (committing_mail s) as Hcm. unfold committing in *. destruct Hs as
    [n Hph _|n rc l1 l2 t ms Hnet _ _|n rc t ms Hph _ _ _|n l1 l2 Hnet|n l1 l2 o t ms Hnet _
    |valid o t ms Hph _ _|valid o t ms Hph _|n valid l1 l2 t ms Hnet _ Hp
    |n rc valid l1 l2 t ms Hnet _ Hp|n rc ro l1 l2 t ms Hnet Hp|n rc l1 l2 o t Hnet Hp|Hph];
    simpl in *; try (by rewrite Hph in Hc); try (by left).
  - destruct (Hcm (RQRY_RSP n RCOK) Hinv Hc). rewrite Hnet. set_solver.
  - destruct o; simpl; auto.
  - destruct (0 <? _); by left.
  - destruct o; simpl; auto.
Qed.

(** C6: the nodes of a distributed transaction agree.  In every reachable state of
    the protocol, whatever the interleaving of deliveries and the votes, no node has
    released its rows with [RCOK] in an attempt in which another released them with
    [Abort], and no node releases them twice in an attempt. *)
Theorem twopc_agreement s t t' :
  rtc (step readonly) start s → manager s t → manager s t' →
  (length (tm_log t) ≤ 1)%nat ∧ (RCOK ∈ tm_log t → Abort ∉ tm_log t').
Proof.
  intros Hr%inv_reachable Ht Ht'.
  apply (allowed_agree s); eauto using manager_allowed.
Qed.

(** The client is answered at most once, and then the transaction is committed:
    the home node has released its rows with [RCOK] and every other node has done so
    too, except that a read-only transaction that is not validated is answered while
    the final messages are on their way. *)
Theorem twopc_client_answer s :
  rtc (step readonly) start s →
  (s_rsp s ≤ 1)%nat ∧
  (s_rsp s = 1%nat → tm_log (s_home s) = [RCOK] ∧
   ∀ n, n ∈ others (s_home s) →
     tm_log (s_part s n) = [RCOK] ∨
     acked readonly = false ∧ mail n (s_net s) = [RFIN n RCOK readonly]).
Proof.
  intros Hinv%inv_reachable. pose proof (v_rsp s Hinv) as Hr. pose proof (v_ok s Hinv) as Hok.
  pose proof (v_slot s Hinv) as Hsl. rewrite Hr.
  destruct (s_phase s) as [| | |d|[]]; simpl in *; try (split; [lia|done]).
  split; [lia|]. intros _. split; [done|]. intros n Hn.
  destruct (Hsl n Hn) as [(?&_&?)|[_ [? _]]]; auto.
Qed.

(** C29: a round of the protocol ends.  From a state in which the votes or the
    acknowledgements are being collected, at most four deliveries per other node lead
    to the end of the round, in any order of delivery; until then a delivery is
    possible; and the home node's assertions on the response count and result hold
    whenever a vote or an acknowledgement arrives. *)
Theorem twopc_round_terminates s :
  rtc (step readonly) start s → committing s →
  (∀ k s', nsteps round_step k s s' →
     (k ≤ 4 * length (others (s_home s)))%nat ∧
     ((∃ s'', round_step s' s'') ∨ s_phase s' = Done Answered ∨ s_phase s' = Done Requeued)) ∧
  (∀ n rc valid, RACK_PREP n rc ∈ s_net s →
     is_Some (process_rack_prep readonly rc valid (s_home s))) ∧
  (∀ n rc, RACK_FIN n rc ∈ s_net s → is_Some (process_rack_rfin rc (s_home s))).
Proof.
  intros Hinv%inv_reachable Hc. split_and!; [|by eauto using rack_prep_total|by eauto using rack_fin_total].
  intros k s' Hn. destruct (round_bound k s s' Hinv Hn) as [Hinv' Hk].
  pose proof (weight_bound s Hinv). split; [lia|].
  assert (committing s' ∨ s_phase s' = Done Answered ∨ s_phase s' = Done Requeued) as [Hc'|?]; [|left|by right].
  - destruct Hn as [|k s1 s2 s3 H1 Hn]; [by left|].
    destruct (nsteps_inv_r (R := round_step) k s1 s3) as (s0&Hn0&H0); [by eapply nsteps_l|].
    destruct (round_bound _ _ _ Hinv Hn0). by eapply round_phase.
  - destruct (committing_progress s' Hinv' Hc') as [s'' ?]. by exists s''.
Qed.

End invariant.
End txn.

(** ** A run: node 0 commits a transaction that also wrote on node 1 *)

Definition h0 (rc : RC) (cnt : Z) (lg : list RC) : TxnManager := mkTM rc false cnt [0; 1] lg.

Definition run_prep : state := mkS (h0 RCOK 1 []) Prep (<[1 := start_manager]> (λ _, start_manager)) [RPREPARE 1] 0.

Lemma run_prep_reachable : rtc (step NO_WAIT 0 false) (start 0) run_prep.
Proof.
  eapply rtc_l; [by apply (step_remote NO_WAIT 0 false _ 1)|].
  eapply rtc_l; [by eapply (step_rqry NO_WAIT 0 false _ 1 RCOK [] []); [|left|]|].
  eapply rtc_l; [by apply (step_rqry_rsp_ok NO_WAIT 0 false _ 1 [] [])|].
  eapply rtc_l; [by eapply (step_commit NO_WAIT 0 false _ RCOK); [|left|]|]. apply rtc_refl.
Defined.

Definition run_done : state :=
  mkS (h0 RCOK 0 [RCOK]) (Done Answered)
    (<[1 := mkTM RCOK false 0 [] [RCOK]]> (<[1 := start_manager]> (<[1 := start_manager]>
       (λ _, start_manager)))) [] 1.

Lemma run_done_reachable : rtc (step NO_WAIT 0 false) (start 0) run_done.
Proof.
  etrans; [apply run_prep_reachable|].
  eapply rtc_l; [by eapply (step_rprepare NO_WAIT 0 false _ 1 RCOK [] []); [|left|]|].
  eapply rtc_l; [by eapply (step_rack_prep NO_WAIT 0 false _ 1 RCOK RCOK [] []); [|left|]|].
  eapply rtc_l; [by eapply (step_rfin NO_WAIT 0 false _ 1 RCOK false [] [])|].
  eapply rtc_l; [by eapply (step_rack_fin NO_WAIT 0 false _ 1 RCOK [] [])|]. apply rtc_refl.
Defined.

Lemma twopc_agreement_witness : RCOK ∈ tm_log (s_home run_done) ∧ Abort ∉ tm_log (s_part run_done 1).
Proof.
  assert (RCOK ∈ tm_log (s_home run_done)) as H by (by left). split; [exact H|].
  apply (twopc_agreement NO_WAIT 0 false run_done (s_home run_done) (s_part run_done 1)
    run_done_reachable); [by left|by right; exists 1|exact H].
Defined.

Lemma twopc_client_answer_witness :
  tm_log (s_part run_done 1) = [RCOK] ∨
  acked NO_WAIT false = false ∧ mail 1 (s_net run_done) = [RFIN 1 RCOK false].
Proof.
  apply (twopc_client_answer NO_WAIT 0 false run_done run_done_reachable); [done|].
  vm_compute. constructor.
Defined.

Lemma twopc_round_terminates_witness :
  (∃ s'', round_step NO_WAIT 0 false run_prep s'') ∧
  is_Some (process_rack_prep 0 false RCOK Abort (s_home run_prep)).
Proof.
  destruct (twopc_round_terminates NO_WAIT 0 false run_prep run_prep_reachable I) as [H _].
  destruct (H 0%nat run_prep (nsteps_O _ _)) as [_ [Hs|[Hd|Hd]]]; [|discriminate Hd..].
  split; [exact Hs|]. eexists. vm_compute. reflexivity.
Defined.

End TwoPC.
