(* ===== verification/Codec.v ===== *)
(** * Codec: memory images of the values that go over the wire

    Model of the macros [COPY_BUF] and [COPY_VAL] (system/helper.h), which copy the
    memory image of a variable into and out of a character buffer and advance an
    offset.  The image of an integer is little-endian; a structure is the sequence of
    its fields and its padding.  Writing or reading outside the buffer is [None]. *)

From S2P Require Import Prelude.

Module Codec.

Create HintDb codec.

(** ** Images *)

Fixpoint le_bytes (n : nat) (z : Z) : list Z :=
  match n with O => [] | S n => z `mod` 256 :: le_bytes n (z / 256) end.
Fixpoint le_val (bs : list Z) : Z :=
  match bs with [] => 0 | b :: bs => b + 256 * le_val bs end.

(** A type whose values are copied: its size, the image of a value, the value of an
    image, and the values whose image is faithful. *)
Record serial (A : Type) := mkSerial {
  sizeof : nat;
  image : A → list Z;
  value : list Z → option A;
  fits : A → Prop;
  image_length : ∀ x, fits x → length (image x) = sizeof;
  value_image : ∀ x, fits x → value (image x) = Some x }.
Arguments sizeof {A} _.
Arguments image {A} _ _.
Arguments value {A} _ _.
Arguments fits {A} _ _.

Lemma le_bytes_length n z : length (le_bytes n z) = n.
Proof. revert z. induction n as [|n IH]; intros z; simpl; auto. Qed.

Lemma le_val_bytes n z : 0 ≤ z < 256 ^ Z.of_nat n → le_val (le_bytes n z) = z.
Proof.
  revert z. induction n as [|n IH]; intros z Hz; simpl.
  - simpl in Hz. lia.
  - rewrite IH.
    + pose proof (Z.div_mod z 256). lia.
    + rewrite Nat2Z.inj_succ, Z.pow_succ_r in Hz by lia.
      split; [apply Z.div_pos; lia|]. apply Z.div_lt_upper_bound; lia.
Qed.

(** *** Integers *)

Program Definition uint (n : nat) : serial Z :=
  mkSerial Z n (le_bytes n) (λ bs, Some (le_val bs)) (λ z, 0 ≤ z < 256 ^ Z.of_nat n) _ _.
Next Obligation. intros n z _. apply le_bytes_length. Qed.
Next Obligation. intros n z Hz. simpl. by rewrite le_val_bytes. Qed.

Definition uint64 : serial Z := uint 8.
Definition uint32 : serial Z := uint 4.

Lemma fits_uint64 z : fits uint64 z ↔ is_u64 z.
Proof. done. Qed.

(** *** Enumerations: the image is the number of the constructor *)

Program Definition enum {A} (n : nat) (code : A → Z) (decode : Z → option A)
    (H : ∀ x, 0 ≤ code x < 256 ^ Z.of_nat n ∧ decode (code x) = Some x) : serial A :=
  mkSerial A n (λ x, le_bytes n (code x)) (λ bs, decode (le_val bs)) (λ _, True) _ _.
Next Obligation. intros A n code decode H x _. apply le_bytes_length. Qed.
Next Obligation.
  intros A n code decode H x _. simpl. rewrite le_val_bytes by apply H. apply H.
Qed.

(** *** Raw bytes: character arrays and padding *)

Program Definition raw (n : nat) : serial (list Z) :=
  mkSerial (list Z) n id Some (λ bs, length bs = n) _ _.
Solve All Obligations with done.

(** *** Structures *)

Program Definition pair {A B} (a : serial A) (b : serial B) : serial (A * B) :=
  mkSerial (A * B) (sizeof a + sizeof b) (λ p, image a p.1 ++ image b p.2)
    (λ bs, x ← value a (take (sizeof a) bs); y ← value b (drop (sizeof a) bs); Some (x, y))
    (λ p, fits a p.1 ∧ fits b p.2) _ _.
Next Obligation.
  intros A B a b [x y] [Hx Hy]. simpl in *. rewrite length_app, !image_length; done.
Qed.
Next Obligation.
  intros A B a b [x y] [Hx Hy]. simpl in *. pose proof (image_length _ a x Hx) as Hl.
  rewrite <-Hl, take_app_length, drop_app_length, !value_image by done. done.
Qed.

Program Definition struct {A B} (to : B → A) (from : A → B) (H : ∀ y, from (to y) = y) (a : serial A)
    : serial B :=
  mkSerial B (sizeof a) (λ y, image a (to y)) (λ bs, x ← value a bs; Some (from x))
    (λ y, fits a (to y)) _ _.
Next Obligation. intros A B to from H a y Hy. by apply image_length. Qed.
Next Obligation. intros A B to from H a y Hy. simpl. rewrite value_image by done. simpl. by rewrite H. Qed.

(** ** The macros *)

(** A writer changes the buffer and the offset; a reader changes the offset. *)
Definition wr : Type := list Z → nat → option (list Z * nat).
Definition rd (A : Type) : Type := list Z → nat → option (A * nat).

Definition splice (buf : list Z) (ptr : nat) (bs : list Z) : list Z :=
  take ptr buf ++ bs ++ drop (ptr + length bs) buf.

Definition COPY_BUF {A} (s : serial A) (x : A) : wr := λ buf ptr,
  ASSERT bool_decide (ptr + sizeof s ≤ length buf)%nat;
  Some (splice buf ptr (image s x), ptr + sizeof s)%nat.

Definition COPY_VAL {A} (s : serial A) : rd A := λ buf ptr,
  ASSERT bool_decide (ptr + sizeof s ≤ length buf)%nat;
  x ← value s (take (sizeof s) (drop ptr buf)); Some (x, ptr + sizeof s)%nat.

(** Sequencing; [skip] is the code that is not compiled in. *)
Definition skip : wr := λ buf ptr, Some (buf, ptr).
Definition then_ (w1 w2 : wr) : wr := λ buf ptr, '(buf, ptr) ← w1 buf ptr; w2 buf ptr.
Definition ret {A} (x : A) : rd A := λ _ ptr, Some (x, ptr).
Definition bind {A B} (r : rd A) (k : A → rd B) : rd B := λ buf ptr,
  '(x, ptr) ← r buf ptr; k x buf ptr.
Definition guard_w (b : bool) : wr := λ buf ptr, ASSERT b; Some (buf, ptr).
Definition guard_r (b : bool) : rd unit := λ _ ptr, ASSERT b; Some (tt, ptr).

Declare Scope codec_scope.
Delimit Scope codec_scope with codec.
Notation "w1 ;; w2" := (then_ w1 w2) (at level 100, w2 at level 200, right associativity) : codec_scope.
Notation "x <- r ; k" := (bind r (λ x, k%codec))
  (at level 100, r at next level, k at level 200, right associativity) : codec_scope.
Open Scope codec_scope.

(** The loops over arrays. *)
Fixpoint copy_all {A} (w : A → wr) (xs : list A) : wr :=
  match xs with [] => skip | x :: xs => w x;; copy_all w xs end.
Fixpoint read_all {A} (r : rd A) (n : nat) : rd (list A) :=
  match n with O => ret [] | S n => x <- r; xs <- read_all r n; ret (x :: xs) end.

(** An [Array] goes over the wire as its length and its elements. *)
Definition copy_array {A} (w : A → wr) (xs : list A) : wr := COPY_BUF uint64 (zlen xs);; copy_all w xs.
Definition read_array {A} (r : rd A) : rd (list A) := n <- COPY_VAL uint64; read_all r (Z.to_nat n).

(** ** Laws *)

(** [writes w bs]: the writer puts [bs] at the offset, wherever there is room. *)
Definition writes (w : wr) (bs : list Z) : Prop := ∀ buf ptr,
  (ptr + length bs ≤ length buf)%nat →
  w buf ptr = Some (splice buf ptr bs, ptr + length bs)%nat.

(** [reads r bs x]: the reader finds [x] where the buffer has [bs]. *)
Definition reads {A} (r : rd A) (bs : list Z) (x : A) : Prop := ∀ pre post,
  r (pre ++ bs ++ post) (length pre) = Some (x, length pre + length bs)%nat.

Lemma splice_nil buf ptr : splice buf ptr [] = buf.
Proof. unfold splice. simpl. by rewrite Nat.add_0_r, take_drop. Qed.

Lemma splice_length buf ptr bs : (ptr + length bs ≤ length buf)%nat →
  length (splice buf ptr bs) = length buf.
Proof. intros. unfold splice. rewrite !length_app, length_take, length_drop. lia. Qed.

Lemma splice_app pre mid post bs : length mid = length bs →
  splice (pre ++ mid ++ post) (length pre) bs = pre ++ bs ++ post.
Proof.
  intros H. unfold splice. rewrite take_app_length, <-H. do 2 f_equal.
  by rewrite app_assoc, <-length_app, drop_app_length.
Qed.

Lemma split_at (buf : list Z) ptr n : (ptr + n ≤ length buf)%nat →
  ∃ pre mid post, buf = pre ++ mid ++ post ∧ length pre = ptr ∧ length mid = n.
Proof.
  intros H. exists (take ptr buf), (take n (drop ptr buf)), (drop n (drop ptr buf)).
  rewrite !take_drop, !length_take, length_drop. split_and!; lia || done.
Qed.

Lemma splice_splice buf ptr b1 b2 : (ptr + length (b1 ++ b2) ≤ length buf)%nat →
  splice (splice buf ptr b1) (ptr + length b1) b2 = splice buf ptr (b1 ++ b2).
Proof.
  intros H. destruct (split_at buf ptr _ H) as (pre&mid&post&->&<-&Hm).
  rewrite length_app in Hm.
  destruct (split_at mid (length b1) (length b2)) as (m1&m2&m3&->&H1&H2); [lia|].
  assert (m3 = []) as -> by (apply length_zero_iff_nil; rewrite !length_app in Hm; lia).
  rewrite app_nil_r in *. rewrite (splice_app pre (m1 ++ m2) post (b1 ++ b2)) by (rewrite !length_app; lia).
  rewrite <-app_assoc, splice_app by done. rewrite (app_assoc pre), <-length_app.
  by rewrite splice_app, !app_assoc.
Qed.

Lemma writes_COPY_BUF {A} (s : serial A) x : fits s x → writes (COPY_BUF s x) (image s x).
Proof.
  intros Hx buf ptr H. unfold COPY_BUF. rewrite (image_length _ s x Hx) in *.
  by rewrite bool_decide_true.
Qed.

Lemma writes_skip : writes skip [].
Proof. intros buf ptr _. unfold skip. by rewrite splice_nil, Nat.add_0_r. Qed.

Lemma writes_then w1 w2 b1 b2 : writes w1 b1 → writes w2 b2 → writes (w1;; w2) (b1 ++ b2).
Proof.
  intros H1 H2 buf ptr H. pose proof H as H'. rewrite length_app in H'. unfold then_.
  rewrite H1 by lia. simpl. rewrite H2 by (rewrite splice_length; lia).
  rewrite splice_splice by done. rewrite length_app. do 2 f_equal. lia.
Qed.

Lemma writes_guard b : b = true → writes (guard_w b) [].
Proof. intros ->. apply writes_skip. Qed.

Lemma writes_if (b : bool) w1 w2 b1 b2 : writes w1 b1 → writes w2 b2 →
  writes (if b then w1 else w2) (if b then b1 else b2).
Proof. by destruct b. Qed.

Lemma writes_all {A} (w : A → wr) (enc : A → list Z) xs :
  (∀ x, x ∈ xs → writes (w x) (enc x)) → writes (copy_all w xs) (xs ≫= enc).
Proof.
  induction xs as [|x xs IH]; intros H; [apply writes_skip|]. simpl.
  apply writes_then; [apply H; left|]. apply IH. intros. apply H. by right.
Qed.

Lemma writes_array {A} (w : A → wr) (enc : A → list Z) xs : is_u64 (zlen xs) →
  (∀ x, x ∈ xs → writes (w x) (enc x)) →
  writes (copy_array w xs) (image uint64 (zlen xs) ++ (xs ≫= enc)).
Proof.
  intros Hl H. apply writes_then; [by apply (writes_COPY_BUF uint64), fits_uint64|by apply writes_all].
Qed.

Lemma reads_COPY_VAL {A} (s : serial A) x : fits s x → reads (COPY_VAL s) (image s x) x.
Proof.
  intros Hx pre post. unfold COPY_VAL. pose proof (image_length _ s x Hx) as Hl.
  rewrite bool_decide_true by (rewrite !length_app; lia). simpl.
  rewrite drop_app_length, <-Hl, take_app_length, value_image by done. done.
Qed.

Lemma reads_ret {A} (x : A) : reads (ret x) [] x.
Proof. intros pre post. unfold ret. by rewrite Nat.add_0_r. Qed.

Lemma reads_bind {A B} (r : rd A) (k : A → rd B) b1 b2 x y :
  reads r b1 x → reads (k x) b2 y → reads (bind r k) (b1 ++ b2) y.
Proof.
  intros H1 H2 pre post. unfold bind. rewrite <-app_assoc, H1. simpl.
  rewrite app_assoc, <-length_app, H2. rewrite !length_app. do 2 f_equal. lia.
Qed.

Lemma reads_guard b : b = true → reads (guard_r b) [] tt.
Proof. intros ->. apply reads_ret. Qed.

Lemma reads_if {A} (b : bool) (r1 r2 : rd A) b1 b2 x1 x2 : reads r1 b1 x1 → reads r2 b2 x2 →
  reads (if b then r1 else r2) (if b then b1 else b2) (if b then x1 else x2).
Proof. by destruct b. Qed.

Lemma reads_all {A} (r : rd A) (enc : A → list Z) xs :
  (∀ x, x ∈ xs → reads r (enc x) x) → reads (read_all r (length xs)) (xs ≫= enc) xs.
Proof.
  induction xs as [|x xs IH]; intros H; [apply reads_ret|].
  rewrite bind_cons. cbn [length read_all].
  eapply reads_bind; [apply H; left|]. rewrite <-(app_nil_r (xs ≫= enc)).
  eapply reads_bind; [|apply reads_ret]. apply IH. intros. apply H. by right.
Qed.

Lemma reads_array {A} (r : rd A) (enc : A → list Z) xs : is_u64 (zlen xs) →
  (∀ x, x ∈ xs → reads r (enc x) x) →
  reads (read_array r) (image uint64 (zlen xs) ++ (xs ≫= enc)) xs.
Proof.
  intros Hl H. eapply reads_bind; [by apply (reads_COPY_VAL uint64), fits_uint64|].
  rewrite Nat2Z.id. by apply reads_all.
Qed.

(** The size of an encoded array of values of one size. *)
Lemma bind_length {A} (enc : A → list Z) k xs : (∀ x, x ∈ xs → length (enc x) = k) →
  length (xs ≫= enc) = (k * length xs)%nat.
Proof.
  induction xs as [|x xs IH]; intros H; [simpl; lia|].
  rewrite bind_cons, length_app, IH by (intros; apply H; by right).
  rewrite (H x) by left. simpl. lia.
Qed.

End Codec.
