(* ===== verification/Message.v ===== *)
(** * Message: the messages between nodes

    Model of transport/message.cpp and message.h: the message classes with the fields
    that are used, their sizes, and the operations that copy a message into a
    character buffer and out of it, for every concurrency control and workload the
    code is compiled for.  The latency statistics are [double]s, kept as their bit
    patterns; their arithmetic is a parameter.  The fields a fresh object leaves
    uninitialised are parameters too. *)

From S2P Require Import Prelude Globals Codec.

Module Message.
Import Globals.Globals Codec.Codec.

(** ** Data *)

Inductive RemReqType :=
  | INIT_DONE | RLK | RULK | CL_QRY | RQRY | RQRY_CONT | RFIN | RLK_RSP | RULK_RSP | RQRY_RSP
  | RACK | RACK_PREP | RACK_FIN | RTXN | RTXN_CONT | RINIT | RPREPARE | RPASS | RFWD | RDONE
  | CL_RSP | LOG_MSG | LOG_MSG_RSP | LOG_FLUSHED | CALVIN_ACK | NO_MSG.

#[global] Instance RemReqType_eq_dec : EqDecision RemReqType.
Proof. solve_decision. Defined.

Definition rtypes : list RemReqType :=
  [INIT_DONE; RLK; RULK; CL_QRY; RQRY; RQRY_CONT; RFIN; RLK_RSP; RULK_RSP; RQRY_RSP;
   RACK; RACK_PREP; RACK_FIN; RTXN; RTXN_CONT; RINIT; RPREPARE; RPASS; RFWD; RDONE;
   CL_RSP; LOG_MSG; LOG_MSG_RSP; LOG_FLUSHED; CALVIN_ACK; NO_MSG].
Definition rcs : list RC := [RCOK; Commit; Abort; WAIT; WAIT_REM; ERROR; FINISH; NONE].
Definition access_ts : list access_t := [RD; WR; XP; SCAN].
Definition bools : list bool := [false; true].

(** The number of an enumeration's constructor is its position. *)
Fixpoint position {A} `{EqDecision A} (x : A) (l : list A) : nat :=
  match l with [] => 0 | y :: l => if decide (x = y) then 0 else S (position x l) end.

Lemma position_lookup {A} `{EqDecision A} (x : A) l : x ∈ l →
  l !! position x l = Some x ∧ (position x l < length l)%nat.
Proof.
  induction l as [|y l IH]; intros H; [by apply elem_of_nil in H|]. simpl.
  case_decide; [subst; split; [done|lia]|].
  destruct IH; [set_solver|]. split; [done|lia].
Qed.

Program Definition enum_of {A} `{EqDecision A} (n : nat) (l : list A)
    (H : ∀ x, x ∈ l) (Hl : zlen l ≤ 256 ^ Z.of_nat n) : serial A :=
  enum n (λ x, Z.of_nat (position x l)) (λ z, l !! Z.to_nat z) _.
Next Obligation.
  intros A ? n l H Hl x. simpl. destruct (position_lookup x l (H x)). rewrite Nat2Z.id.
  split; [lia|done].
Qed.

Program Definition RemReqType_s : serial RemReqType := enum_of 4 rtypes _ _.
Next Obligation. intros []; unfold rtypes; set_solver. Qed.
Next Obligation. done. Qed.
Program Definition RC_s : serial RC := enum_of 4 rcs _ _.
Next Obligation. intros []; unfold rcs; set_solver. Qed.
Next Obligation. done. Qed.
Program Definition access_s : serial access_t := enum_of 4 access_ts _ _.
Next Obligation. intros []; unfold access_ts; set_solver. Qed.
Next Obligation. done. Qed.
Program Definition bool_s : serial bool := enum_of 1 bools _ _.
Next Obligation. intros []; unfold bools; set_solver. Qed.
Next Obligation. done. Qed.

(** [ycsb_request], with its padding. *)
Record ycsb_request := mkReq {
  acctype : access_t; pad1 : list Z; key : Z; req_value : list Z; pad2 : list Z }.
Record Item_no := mkItem { ol_i_id : Z; ol_supply_w_id : Z; ol_quantity : Z }.

Program Definition ycsb_request_s : serial ycsb_request :=
  struct (λ r, (acctype r, (pad1 r, (key r, (req_value r, pad2 r)))))
    (λ '(a, (p, (k, (v, q)))), mkReq a p k v q) _
    (pair access_s (pair (raw 4) (pair uint64 (pair (raw 1) (raw 7))))).
Next Obligation. by intros []. Qed.
Program Definition Item_no_s : serial Item_no :=
  struct (λ r, (ol_i_id r, (ol_supply_w_id r, ol_quantity r)))
    (λ '(a, (b, c)), mkItem a b c) _ (pair uint64 (pair uint64 uint64)).
Next Obligation. by intros []. Qed.

Definition LASTNAME_LEN : nat := 16.
Definition LogRecord_s : serial (list Z) := raw 56.

Record QueryMessage := mkQM { q_ts : Z; q_start_ts : Z }.
Record ClientQueryMessage := mkCQ { client_startts : Z; partitions : list Z }.

(** The input of a TPC-C and of a product-parts-supplier transaction. *)
Record tpcc_input := mkTI {
  txn_type : Z; w_id : Z; d_id : Z; c_id : Z;
  d_w_id : Z; c_w_id : Z; c_d_id : Z; c_last : list Z; h_amount : Z; by_last_name : bool;
  items : list Item_no; rbk : bool; remote : bool; ol_cnt : Z; o_entry_d : Z }.
Record pps_input := mkPI {
  pps_type : Z; part_key : Z; product_key : Z; supplier_key : Z; part_keys : list Z }.

Definition TPCC_PAYMENT : Z := 1.
Definition TPCC_NEW_ORDER : Z := 2.
Definition PPS_GETPART : Z := 1.
Definition PPS_GETSUPPLIER : Z := 2.
Definition PPS_GETPRODUCT : Z := 3.
Definition PPS_GETPARTBYSUPPLIER : Z := 4.
Definition PPS_GETPARTBYPRODUCT : Z := 5.
Definition PPS_ORDERPRODUCT : Z := 6.
Definition PPS_UPDATEPRODUCTPART : Z := 7.
Definition PPS_UPDATEPART : Z := 8.

(** The classes. *)
Inductive body :=
  | InitDoneMessage
  | FinishMessage (pid : Z) (rc : RC) (readonly : bool) (commit_timestamp : Z)
  | LogMessage (record : list Z)
  | LogRspMessage
  | LogFlushedMessage
  | QueryResponseMessage (rc : RC)
  | AckMessage (rc : RC) (lower upper : Z) (part_keys : list Z)
  | PrepareMessage
  | ForwardMessage (rc : RC) (o_id : Z)
  | DoneMessage
  | ClientResponseMessage (client_startts : Z)
  | YCSBClientQueryMessage (q : ClientQueryMessage) (requests : list ycsb_request)
  | TPCCClientQueryMessage (q : ClientQueryMessage) (t : tpcc_input)
  | PPSClientQueryMessage (q : ClientQueryMessage) (p : pps_input) (recon : bool)
  | YCSBQueryMessage (q : QueryMessage) (requests : list ycsb_request)
  | TPCCQueryMessage (q : QueryMessage) (state : Z) (t : tpcc_input)
  | PPSQueryMessage (q : QueryMessage) (state : Z) (p : pps_input).

(** [Message]; the times are bit patterns of [double]s except [wq_time], [mq_time] and
    [ntwk_time]. *)
Record Message := mkMsg {
  rtype : RemReqType; txn_id : Z; batch_id : Z; return_node_id : Z;
  wq_time : Z; mq_time : Z; ntwk_time : Z;
  lat_work_queue_time : Z; lat_msg_queue_time : Z; lat_cc_block_time : Z; lat_cc_time : Z;
  lat_process_time : Z; lat_network_time : Z; lat_other_time : Z;
  m_body : body }.

Definition set_lat (net other : Z) (m : Message) : Message :=
  mkMsg (rtype m) (txn_id m) (batch_id m) (return_node_id m) (wq_time m) (mq_time m) (ntwk_time m)
    (lat_work_queue_time m) (lat_msg_queue_time m) (lat_cc_block_time m) (lat_cc_time m)
    (lat_process_time m) net other (m_body m).
Definition set_body (b : body) (m : Message) : Message :=
  mkMsg (rtype m) (txn_id m) (batch_id m) (return_node_id m) (wq_time m) (mq_time m) (ntwk_time m)
    (lat_work_queue_time m) (lat_msg_queue_time m) (lat_cc_block_time m) (lat_cc_time m)
    (lat_process_time m) (lat_network_time m) (lat_other_time m) b.
Definition set_return_node_id (n : Z) (m : Message) : Message :=
  mkMsg (rtype m) (txn_id m) (batch_id m) n (wq_time m) (mq_time m) (ntwk_time m)
    (lat_work_queue_time m) (lat_msg_queue_time m) (lat_cc_block_time m) (lat_cc_time m)
    (lat_process_time m) (lat_network_time m) (lat_other_time m) (m_body m).

(** ** Sizes and copies *)

(** What the node is compiled and configured with. *)
Record setup := mkSetup {
  alg : CC_ALG; wl : WORKLOAD; cfg : config; g_node_id : Z;
  g_synth_table_size : Z; g_req_per_query : Z }.

Section node.
Context (e : setup).
(** [double] subtraction and the conversion of an integer, on bit patterns. *)
Context (d_sub : Z → Z → Z) (d_of : Z → Z).
(** What uninitialised fields hold. *)
Context (junk : Z) (junkb : bool) (junkrc : RC) (junks : list Z).

Definition has_ts : bool :=
  bool_decide (alg e = WAIT_DIE) || bool_decide (alg e = TIMESTAMP) || bool_decide (alg e = MVCC).
Definition is_alg (a : CC_ALG) : bool := bool_decide (alg e = a).
Definition is_wl (w : WORKLOAD) : bool := bool_decide (wl e = w).

(** [#if b] around a copy. *)
Definition when (b : bool) (w : wr) : wr := if b then w else skip.
Definition if_ (b : bool) (n : nat) : nat := if b then n else 0%nat.

Definition mget_size : nat := (4 + 8 + if_ (is_alg CALVIN) 8 + 8 + 8 * 7)%nat.
Definition query_size : nat := (mget_size + if_ has_ts 8 + if_ (is_alg OCC) 8)%nat.
Definition client_query_size (q : ClientQueryMessage) : nat :=
  (mget_size + 8 + 8 + 8 * length (partitions q))%nat.

Definition Finish_size : nat := (mget_size + 8 + 4 + 1 + if_ (is_alg MAAT) 8)%nat.
Definition QueryResponse_size : nat := (mget_size + 4)%nat.
Definition Ack_size (ks : list Z) : nat :=
  (mget_size + 4 + if_ (is_alg MAAT) (8 * 2) +
   if_ (is_wl PPS && is_alg CALVIN) (8 + 8 * length ks))%nat.
Definition Forward_size : nat := (mget_size + 4 + if_ (is_wl TPCC) 8)%nat.
Definition ClientResponse_size : nat := (mget_size + 8)%nat.
Definition YCSBClientQuery_size (q : ClientQueryMessage) (rs : list ycsb_request) : nat :=
  (client_query_size q + 8 + sizeof ycsb_request_s * length rs)%nat.
Definition TPCCClientQuery_size (q : ClientQueryMessage) (t : tpcc_input) : nat :=
  (client_query_size q + 8 * 10 + 1 * LASTNAME_LEN + 1 * 3 + 8 + sizeof Item_no_s * length (items t))%nat.
Definition PPSClientQuery_size (q : ClientQueryMessage) (p : pps_input) : nat :=
  (client_query_size q + 8 + 8 * 3 + 8 + 8 * length (part_keys p) + if_ (is_alg CALVIN) 1)%nat.
Definition YCSBQuery_size (rs : list ycsb_request) : nat :=
  (query_size + 8 + sizeof ycsb_request_s * length rs)%nat.
Definition TPCCQuery_size (t : tpcc_input) : nat :=
  (query_size + 8 + 8 + 8 * 3 +
   if_ (txn_type t =? TPCC_PAYMENT)%Z (8 * 4 + 1 * LASTNAME_LEN + 1) +
   if_ (txn_type t =? TPCC_NEW_ORDER)%Z (8 * 2 + 1 * 2 + sizeof Item_no_s * length (items t) + 8))%nat.
Definition PPSQuery_size (p : pps_input) : nat :=
  (query_size + 8 + 8 + 8 + 8 + 8 * length (part_keys p))%nat.

(** The virtual [get_size]; a [LogFlushedMessage] counts as its object. *)
Definition get_size (b : body) : nat :=
  match b with
  | InitDoneMessage | LogMessage _ | LogRspMessage | PrepareMessage | DoneMessage => mget_size
  | LogFlushedMessage => 120
  | FinishMessage _ _ _ _ => Finish_size
  | QueryResponseMessage _ => QueryResponse_size
  | AckMessage _ _ _ ks => Ack_size ks
  | ForwardMessage _ _ => Forward_size
  | ClientResponseMessage _ => ClientResponse_size
  | YCSBClientQueryMessage q rs => YCSBClientQuery_size q rs
  | TPCCClientQueryMessage q t => TPCCClientQuery_size q t
  | PPSClientQueryMessage q p _ => PPSClientQuery_size q p
  | YCSBQueryMessage q rs => YCSBQuery_size rs
  | TPCCQueryMessage q _ t => TPCCQuery_size t
  | PPSQueryMessage q _ p => PPSQuery_size p
  end%nat.

(** *** The header *)

(** The latency of the network: the statistics a message leaves and arrives with. *)
Definition stamp_out (clk : Z) (m : Message) : Message :=
  if (is_alg CALVIN && bool_decide (rtype m = CL_QRY) &&
      (txn_id m `mod` g_node_cnt (cfg e) =? g_node_id e)) ||
     (negb (is_alg CALVIN) && IS_LOCAL (cfg e) (alg e) (g_node_id e) (txn_id m))
  then set_lat (d_of clk) (lat_other_time m) m
  else set_lat (lat_network_time m) (d_sub (d_of clk) (lat_other_time m)) m.
Definition stamp_in (clk : Z) (m : Message) : Message :=
  if (is_alg CALVIN && bool_decide (rtype m = CALVIN_ACK) &&
      (txn_id m `mod` g_node_cnt (cfg e) =? g_node_id e)) ||
     (negb (is_alg CALVIN) && IS_LOCAL (cfg e) (alg e) (g_node_id e) (txn_id m))
  then set_lat (d_sub (d_sub (d_of clk) (lat_network_time m)) (lat_other_time m)) (lat_other_time m) m
  else set_lat (lat_network_time m) (d_of clk) m.

Definition head_to_buf (m : Message) : wr :=
  COPY_BUF RemReqType_s (rtype m);;
  COPY_BUF uint64 (txn_id m);;
  when (is_alg CALVIN) (COPY_BUF uint64 (batch_id m));;
  COPY_BUF uint64 (mq_time m);;
  COPY_BUF uint64 (lat_work_queue_time m);;
  COPY_BUF uint64 (lat_msg_queue_time m);;
  COPY_BUF uint64 (lat_cc_block_time m);;
  COPY_BUF uint64 (lat_cc_time m);;
  COPY_BUF uint64 (lat_process_time m).
Definition lat_to_buf (m : Message) : wr :=
  COPY_BUF uint64 (lat_network_time m);; COPY_BUF uint64 (lat_other_time m).

Definition mcopy_to_buf (clk : Z) (m : Message) (buf : list Z) : option (Message * list Z) :=
  '(buf, ptr) ← head_to_buf m buf 0%nat;
  let m := stamp_out clk m in
  '(buf, _) ← lat_to_buf m buf ptr;
  Some (m, buf).

Definition head_from_buf (m : Message) : rd Message :=
  t <- COPY_VAL RemReqType_s;
  id <- COPY_VAL uint64;
  b <- (if is_alg CALVIN then COPY_VAL uint64 else ret (batch_id m));
  mq <- COPY_VAL uint64;
  l1 <- COPY_VAL uint64; l2 <- COPY_VAL uint64; l3 <- COPY_VAL uint64; l4 <- COPY_VAL uint64;
  l5 <- COPY_VAL uint64; l6 <- COPY_VAL uint64; l7 <- COPY_VAL uint64;
  ret (mkMsg t id b (return_node_id m) (wq_time m) mq (ntwk_time m) l1 l2 l3 l4 l5 l6 l7 (m_body m)).

Definition mcopy_from_buf (clk : Z) (m : Message) (buf : list Z) : option Message :=
  '(m, _) ← head_from_buf m buf 0%nat;
  Some (stamp_in clk m).

(** *** The classes *)

(** The copies of a class start at offset [from]; at the end the offset is compared
    with the size of the message. *)
Definition finish (size : nat) (w : wr) (from : nat) (buf : list Z) : option (list Z) :=
  '(buf, ptr) ← w buf from; ASSERT bool_decide (ptr = size); Some buf.
Definition finish_read (r : rd body) (from : nat) (buf : list Z) : option body :=
  '(b, ptr) ← r buf from; ASSERT bool_decide (ptr = get_size b); Some b.

Definition query_to_buf (q : QueryMessage) : wr :=
  when has_ts (COPY_BUF uint64 (q_ts q);; guard_w (negb (q_ts q =? 0)));;
  when (is_alg OCC) (COPY_BUF uint64 (q_start_ts q)).

Definition query_from_buf (q : QueryMessage) : rd QueryMessage :=
  t <- (if has_ts then t <- COPY_VAL uint64; _ <- guard_r (negb (t =? 0)); ret t
        else ret (q_ts q));
  s <- (if is_alg OCC then COPY_VAL uint64 else ret (q_start_ts q));
  ret (mkQM t s).

Definition client_query_to_buf (q : ClientQueryMessage) : wr :=
  COPY_BUF uint64 (client_startts q);; copy_array (COPY_BUF uint64) (partitions q).

Definition client_query_from_buf : rd ClientQueryMessage :=
  c <- COPY_VAL uint64; ps <- read_array (COPY_VAL uint64); ret (mkCQ c ps).

Definition payment_to_buf (t : tpcc_input) : wr :=
  COPY_BUF uint64 (d_w_id t);; COPY_BUF uint64 (c_w_id t);; COPY_BUF uint64 (c_d_id t);;
  COPY_BUF (raw LASTNAME_LEN) (c_last t);; COPY_BUF uint64 (h_amount t);;
  COPY_BUF bool_s (by_last_name t).

Definition new_order_to_buf (t : tpcc_input) : wr :=
  copy_array (COPY_BUF Item_no_s) (items t);;
  COPY_BUF bool_s (rbk t);; COPY_BUF bool_s (remote t);;
  COPY_BUF uint64 (ol_cnt t);; COPY_BUF uint64 (o_entry_d t).

Definition payment_from_buf (t : tpcc_input) : rd tpcc_input :=
  dw <- COPY_VAL uint64; cw <- COPY_VAL uint64; cd <- COPY_VAL uint64;
  cl <- COPY_VAL (raw LASTNAME_LEN); h <- COPY_VAL uint64; by_ <- COPY_VAL bool_s;
  ret (mkTI (txn_type t) (w_id t) (d_id t) (c_id t) dw cw cd cl h by_
         (items t) (rbk t) (remote t) (ol_cnt t) (o_entry_d t)).

Definition new_order_from_buf (t : tpcc_input) : rd tpcc_input :=
  its <- read_array (COPY_VAL Item_no_s);
  rb <- COPY_VAL bool_s; rm <- COPY_VAL bool_s; ol <- COPY_VAL uint64; oe <- COPY_VAL uint64;
  ret (mkTI (txn_type t) (w_id t) (d_id t) (c_id t) (d_w_id t) (c_w_id t) (c_d_id t) (c_last t)
         (h_amount t) (by_last_name t) its rb rm ol oe).

(** The key of a remote product-parts-supplier query depends on its type. *)
Definition pps_keys_to_buf (p : pps_input) : wr :=
  when (pps_type p =? PPS_GETPART) (COPY_BUF uint64 (part_key p));;
  when (pps_type p =? PPS_GETPRODUCT) (COPY_BUF uint64 (product_key p));;
  when (pps_type p =? PPS_GETSUPPLIER) (COPY_BUF uint64 (supplier_key p));;
  when (pps_type p =? PPS_GETPARTBYPRODUCT) (COPY_BUF uint64 (part_key p));;
  when (pps_type p =? PPS_GETPARTBYSUPPLIER) (COPY_BUF uint64 (part_key p));;
  when (pps_type p =? PPS_ORDERPRODUCT) (COPY_BUF uint64 (part_key p));;
  when (pps_type p =? PPS_UPDATEPRODUCTPART) (COPY_BUF uint64 (product_key p));;
  when (pps_type p =? PPS_UPDATEPART) (COPY_BUF uint64 (part_key p)).

Definition set_part_key (k : Z) (p : pps_input) : pps_input :=
  mkPI (pps_type p) k (product_key p) (supplier_key p) (part_keys p).
Definition set_product_key (k : Z) (p : pps_input) : pps_input :=
  mkPI (pps_type p) (part_key p) k (supplier_key p) (part_keys p).
Definition set_supplier_key (k : Z) (p : pps_input) : pps_input :=
  mkPI (pps_type p) (part_key p) (product_key p) k (part_keys p).
Definition set_part_keys (ks : list Z) (p : pps_input) : pps_input :=
  mkPI (pps_type p) (part_key p) (product_key p) (supplier_key p) ks.

(** [if (txn_type == t) COPY_VAL(...)] *)
Definition when_read (b : bool) (set : Z → pps_input → pps_input) (p : pps_input) : rd pps_input :=
  if b then k <- COPY_VAL uint64; ret (set k p) else ret p.

Definition pps_keys_from_buf (p : pps_input) : rd pps_input :=
  p <- when_read (pps_type p =? PPS_GETPART) set_part_key p;
  p <- when_read (pps_type p =? PPS_GETPRODUCT) set_product_key p;
  p <- when_read (pps_type p =? PPS_GETSUPPLIER) set_supplier_key p;
  p <- when_read (pps_type p =? PPS_GETPARTBYPRODUCT) set_part_key p;
  p <- when_read (pps_type p =? PPS_GETPARTBYSUPPLIER) set_part_key p;
  p <- when_read (pps_type p =? PPS_ORDERPRODUCT) set_part_key p;
  p <- when_read (pps_type p =? PPS_UPDATEPRODUCTPART) set_product_key p;
  when_read (pps_type p =? PPS_UPDATEPART) set_part_key p.

Definition key_ok (r : ycsb_request) : bool := key r <? g_synth_table_size e.

(** [copy_to_buf] of the classes, after the header. *)
Definition Finish_to_buf (pid : Z) (rc : RC) (ro : bool) (ct : Z) (buf : list Z) : option (list Z) :=
  finish Finish_size (COPY_BUF uint64 pid;; COPY_BUF RC_s rc;; COPY_BUF bool_s ro;;
    when (is_alg MAAT) (COPY_BUF uint64 ct)) mget_size buf.
Definition Log_to_buf (record : list Z) (buf : list Z) : option (list Z) :=
  finish mget_size (COPY_BUF LogRecord_s record) mget_size buf.
Definition QueryResponse_to_buf (rc : RC) (buf : list Z) : option (list Z) :=
  finish QueryResponse_size (COPY_BUF RC_s rc) mget_size buf.
Definition Ack_to_buf (rc : RC) (lower upper : Z) (ks : list Z) (buf : list Z) : option (list Z) :=
  finish (Ack_size ks) (COPY_BUF RC_s rc;;
    when (is_alg MAAT) (COPY_BUF uint64 lower;; COPY_BUF uint64 upper);;
    when (is_wl PPS && is_alg CALVIN) (copy_array (COPY_BUF uint64) ks)) mget_size buf.
Definition Forward_to_buf (rc : RC) (o_id : Z) (buf : list Z) : option (list Z) :=
  finish Forward_size (COPY_BUF RC_s rc;; when (is_wl TPCC) (COPY_BUF uint64 o_id)) mget_size buf.
Definition ClientResponse_to_buf (c : Z) (buf : list Z) : option (list Z) :=
  finish ClientResponse_size (COPY_BUF uint64 c) mget_size buf.
Definition YCSBClientQuery_to_buf (q : ClientQueryMessage) (rs : list ycsb_request) (buf : list Z)
    : option (list Z) :=
  '(buf, _) ← client_query_to_buf q buf mget_size;
  finish (YCSBClientQuery_size q rs)
    (copy_array (λ r, guard_w (key_ok r);; COPY_BUF ycsb_request_s r) rs) (client_query_size q) buf.
Definition TPCCClientQuery_to_buf (q : ClientQueryMessage) (t : tpcc_input) (buf : list Z)
    : option (list Z) :=
  '(buf, _) ← client_query_to_buf q buf mget_size;
  finish (TPCCClientQuery_size q t) (COPY_BUF uint64 (txn_type t);;
    COPY_BUF uint64 (w_id t);; COPY_BUF uint64 (d_id t);; COPY_BUF uint64 (c_id t);;
    payment_to_buf t;; new_order_to_buf t) (client_query_size q) buf.
Definition PPSClientQuery_to_buf (q : ClientQueryMessage) (p : pps_input) (recon : bool) (buf : list Z)
    : option (list Z) :=
  '(buf, _) ← client_query_to_buf q buf mget_size;
  finish (PPSClientQuery_size q p) (COPY_BUF uint64 (pps_type p);;
    COPY_BUF uint64 (part_key p);; COPY_BUF uint64 (product_key p);;
    COPY_BUF uint64 (supplier_key p);; copy_array (COPY_BUF uint64) (part_keys p);;
    when (is_alg CALVIN) (COPY_BUF bool_s recon)) (client_query_size q) buf.
Definition YCSBQuery_to_buf (q : QueryMessage) (rs : list ycsb_request) (buf : list Z)
    : option (list Z) :=
  '(buf, _) ← query_to_buf q buf mget_size;
  finish (YCSBQuery_size rs) (copy_array (COPY_BUF ycsb_request_s) rs) query_size buf.
Definition TPCCQuery_to_buf (q : QueryMessage) (st : Z) (t : tpcc_input) (buf : list Z)
    : option (list Z) :=
  '(buf, _) ← query_to_buf q buf mget_size;
  finish (TPCCQuery_size t) (COPY_BUF uint64 (txn_type t);; COPY_BUF uint64 st;;
    COPY_BUF uint64 (w_id t);; COPY_BUF uint64 (d_id t);; COPY_BUF uint64 (c_id t);;
    when (txn_type t =? TPCC_PAYMENT) (payment_to_buf t);;
    when (txn_type t =? TPCC_NEW_ORDER) (new_order_to_buf t)) query_size buf.
Definition PPSQuery_to_buf (q : QueryMessage) (st : Z) (p : pps_input) (buf : list Z)
    : option (list Z) :=
  '(buf, _) ← query_to_buf q buf mget_size;
  finish (PPSQuery_size p) (COPY_BUF uint64 (pps_type p);; COPY_BUF uint64 st;;
    pps_keys_to_buf p;; copy_array (COPY_BUF uint64) (part_keys p)) query_size buf.

Definition body_to_buf (b : body) (buf : list Z) : option (list Z) :=
  match b with
  | InitDoneMessage | LogRspMessage | LogFlushedMessage => Some buf
  | PrepareMessage | DoneMessage => finish mget_size skip mget_size buf
  | FinishMessage pid rc ro ct => Finish_to_buf pid rc ro ct buf
  | LogMessage record => Log_to_buf record buf
  | QueryResponseMessage rc => QueryResponse_to_buf rc buf
  | AckMessage rc lower upper ks => Ack_to_buf rc lower upper ks buf
  | ForwardMessage rc o_id => Forward_to_buf rc o_id buf
  | ClientResponseMessage c => ClientResponse_to_buf c buf
  | YCSBClientQueryMessage q rs => YCSBClientQuery_to_buf q rs buf
  | TPCCClientQueryMessage q t => TPCCClientQuery_to_buf q t buf
  | PPSClientQueryMessage q p recon => PPSClientQuery_to_buf q p recon buf
  | YCSBQueryMessage q rs => YCSBQuery_to_buf q rs buf
  | TPCCQueryMessage q st t => TPCCQuery_to_buf q st t buf
  | PPSQueryMessage q st p => PPSQuery_to_buf q st p buf
  end.

Definition tpcc_head (t : tpcc_input) (ty w d c : Z) : tpcc_input :=
  mkTI ty w d c (d_w_id t) (c_w_id t) (c_d_id t) (c_last t) (h_amount t) (by_last_name t)
    (items t) (rbk t) (remote t) (ol_cnt t) (o_entry_d t).

(** [copy_from_buf] of the classes, after the header; the fields that may not be read
    are arguments. *)
Definition Finish_from_buf (ct : Z) (buf : list Z) : option body :=
  finish_read (pid <- COPY_VAL uint64; rc <- COPY_VAL RC_s; ro <- COPY_VAL bool_s;
    ct <- (if is_alg MAAT then COPY_VAL uint64 else ret ct);
    ret (FinishMessage pid rc ro ct)) mget_size buf.
Definition Log_from_buf (buf : list Z) : option body :=
  finish_read (record <- COPY_VAL LogRecord_s; ret (LogMessage record)) mget_size buf.
Definition QueryResponse_from_buf (buf : list Z) : option body :=
  finish_read (rc <- COPY_VAL RC_s; ret (QueryResponseMessage rc)) mget_size buf.
Definition Ack_from_buf (lower upper : Z) (ks : list Z) (buf : list Z) : option body :=
  finish_read (rc <- COPY_VAL RC_s;
    b <- (if is_alg MAAT then l <- COPY_VAL uint64; u <- COPY_VAL uint64; ret (l, u)
          else ret (lower, upper));
    ks <- (if is_wl PPS && is_alg CALVIN then read_array (COPY_VAL uint64) else ret ks);
    ret (AckMessage rc b.1 b.2 ks)) mget_size buf.
Definition Forward_from_buf (o_id : Z) (buf : list Z) : option body :=
  finish_read (rc <- COPY_VAL RC_s; o_id <- (if is_wl TPCC then COPY_VAL uint64 else ret o_id);
    ret (ForwardMessage rc o_id)) mget_size buf.
Definition ClientResponse_from_buf (buf : list Z) : option body :=
  finish_read (c <- COPY_VAL uint64; ret (ClientResponseMessage c)) mget_size buf.
Definition YCSBClientQuery_from_buf (buf : list Z) : option body :=
  '(q, _) ← client_query_from_buf buf mget_size;
  finish_read (rs <- read_array (r <- COPY_VAL ycsb_request_s; _ <- guard_r (key_ok r); ret r);
    ret (YCSBClientQueryMessage q rs)) (client_query_size q) buf.
Definition TPCCClientQuery_from_buf (t : tpcc_input) (buf : list Z) : option body :=
  '(q, _) ← client_query_from_buf buf mget_size;
  finish_read (ty <- COPY_VAL uint64;
    w <- COPY_VAL uint64; d <- COPY_VAL uint64; c <- COPY_VAL uint64;
    t <- payment_from_buf (tpcc_head t ty w d c); t <- new_order_from_buf t;
    ret (TPCCClientQueryMessage q t)) (client_query_size q) buf.
Definition PPSClientQuery_from_buf (recon : bool) (buf : list Z) : option body :=
  '(q, _) ← client_query_from_buf buf mget_size;
  finish_read (ty <- COPY_VAL uint64;
    pa <- COPY_VAL uint64; pr <- COPY_VAL uint64; su <- COPY_VAL uint64;
    ks <- read_array (COPY_VAL uint64);
    recon <- (if is_alg CALVIN then COPY_VAL bool_s else ret recon);
    ret (PPSClientQueryMessage q (mkPI ty pa pr su ks) recon)) (client_query_size q) buf.
Definition YCSBQuery_from_buf (q : QueryMessage) (buf : list Z) : option body :=
  '(q, _) ← query_from_buf q buf mget_size;
  finish_read (n <- COPY_VAL uint64; _ <- guard_r (n <=? g_req_per_query e);
    rs <- read_all (r <- COPY_VAL ycsb_request_s; _ <- guard_r (key_ok r); ret r) (Z.to_nat n);
    ret (YCSBQueryMessage q rs)) query_size buf.
Definition TPCCQuery_from_buf (q : QueryMessage) (t : tpcc_input) (buf : list Z) : option body :=
  '(q, _) ← query_from_buf q buf mget_size;
  finish_read (ty <- COPY_VAL uint64;
    _ <- guard_r ((ty =? TPCC_PAYMENT) || (ty =? TPCC_NEW_ORDER));
    st <- COPY_VAL uint64;
    w <- COPY_VAL uint64; d <- COPY_VAL uint64; c <- COPY_VAL uint64;
    t <- (if ty =? TPCC_PAYMENT then payment_from_buf (tpcc_head t ty w d c)
          else ret (tpcc_head t ty w d c));
    t <- (if ty =? TPCC_NEW_ORDER then new_order_from_buf t else ret t);
    ret (TPCCQueryMessage q st t)) query_size buf.
Definition PPSQuery_from_buf (q : QueryMessage) (p : pps_input) (buf : list Z) : option body :=
  '(q, _) ← query_from_buf q buf mget_size;
  finish_read (ty <- COPY_VAL uint64; st <- COPY_VAL uint64;
    p <- pps_keys_from_buf (mkPI ty (part_key p) (product_key p) (supplier_key p) (part_keys p));
    ks <- read_array (COPY_VAL uint64);
    ret (PPSQueryMessage q st (set_part_keys ks p))) query_size buf.

(** The virtual [copy_from_buf]; [b] is the object as it is before. *)
Definition body_from_buf (b : body) (buf : list Z) : option body :=
  match b with
  | InitDoneMessage | LogRspMessage | LogFlushedMessage => Some b
  | PrepareMessage | DoneMessage => finish_read (ret b) mget_size buf
  | FinishMessage _ _ _ ct => Finish_from_buf ct buf
  | LogMessage _ => Log_from_buf buf
  | QueryResponseMessage _ => QueryResponse_from_buf buf
  | AckMessage _ lower upper ks => Ack_from_buf lower upper ks buf
  | ForwardMessage _ o_id => Forward_from_buf o_id buf
  | ClientResponseMessage _ => ClientResponse_from_buf buf
  | YCSBClientQueryMessage _ _ => YCSBClientQuery_from_buf buf
  | TPCCClientQueryMessage _ t => TPCCClientQuery_from_buf t buf
  | PPSClientQueryMessage _ _ recon => PPSClientQuery_from_buf recon buf
  | YCSBQueryMessage q _ => YCSBQuery_from_buf q buf
  | TPCCQueryMessage q _ t => TPCCQuery_from_buf q t buf
  | PPSQueryMessage q _ p => PPSQuery_from_buf q p buf
  end.

(** *** Messages *)

Definition new_tpcc : tpcc_input :=
  mkTI junk junk junk junk junk junk junk junks junk junkb [] junkb junkb junk junk.
Definition new_pps : pps_input := mkPI junk junk junk junk [].

Definition new_body (t : RemReqType) : option body :=
  match t with
  | INIT_DONE => Some InitDoneMessage
  | RQRY | RQRY_CONT =>
      Some (match wl e with
            | YCSB => YCSBQueryMessage (mkQM junk junk) []
            | TPCC => TPCCQueryMessage (mkQM junk junk) junk new_tpcc
            | PPS => PPSQueryMessage (mkQM junk junk) junk new_pps
            end)
  | RFIN => Some (FinishMessage junk junkrc junkb junk)
  | RQRY_RSP => Some (QueryResponseMessage junkrc)
  | LOG_MSG => Some (LogMessage junks)
  | LOG_MSG_RSP => Some LogRspMessage
  | LOG_FLUSHED => Some LogFlushedMessage
  | CALVIN_ACK | RACK_PREP | RACK_FIN => Some (AckMessage junkrc junk junk [])
  | CL_QRY | RTXN | RTXN_CONT =>
      Some (match wl e with
            | YCSB => YCSBClientQueryMessage (mkCQ junk []) []
            | TPCC => TPCCClientQueryMessage (mkCQ junk []) new_tpcc
            | PPS => PPSClientQueryMessage (mkCQ junk []) new_pps junkb
            end)
  | RPREPARE => Some PrepareMessage
  | RFWD => Some (ForwardMessage junkrc junk)
  | RDONE => Some DoneMessage
  | CL_RSP => Some (ClientResponseMessage junk)
  | _ => None
  end.

(** [create_message(RemReqType)] *)
Definition new_message (t : RemReqType) : option Message :=
  b ← new_body t;
  Some (mkMsg t UINT64_MAX UINT64_MAX (g_node_id e) 0 0 0 0 0 0 0 0 0 0 b).

Definition copy_to_buf (clk : Z) (m : Message) (buf : list Z) : option (Message * list Z) :=
  match m_body m with
  | LogFlushedMessage => Some (m, buf)
  | b => '(m, buf) ← mcopy_to_buf clk m buf; buf ← body_to_buf b buf; Some (m, buf)
  end.

Definition copy_from_buf (clk : Z) (m : Message) (buf : list Z) : option Message :=
  match m_body m with
  | LogFlushedMessage => Some m
  | b => m ← mcopy_from_buf clk m buf; b ← body_from_buf b buf; Some (set_body b m)
  end.

(** [create_message(char * buf)] *)
Definition create_message (clk : Z) (buf : list Z) : option Message :=
  '(t, _) ← COPY_VAL RemReqType_s buf 0%nat;
  m ← new_message t; copy_from_buf clk m buf.

(** ** What is on the wire *)

Definition on (b : bool) (bs : list Z) : list Z := if b then bs else [].
Abbreviation u64 := (image uint64).
Definition enc_array {A} (s : serial A) (xs : list A) : list Z := u64 (zlen xs) ++ (xs ≫= image s).

Definition enc_query (q : QueryMessage) : list Z :=
  on has_ts (u64 (q_ts q)) ++ on (is_alg OCC) (u64 (q_start_ts q)).
Definition enc_client_query (q : ClientQueryMessage) : list Z :=
  u64 (client_startts q) ++ enc_array uint64 (partitions q).
Definition enc_payment (t : tpcc_input) : list Z :=
  u64 (d_w_id t) ++ u64 (c_w_id t) ++ u64 (c_d_id t) ++ image (raw LASTNAME_LEN) (c_last t) ++
  u64 (h_amount t) ++ image bool_s (by_last_name t).
Definition enc_new_order (t : tpcc_input) : list Z :=
  enc_array Item_no_s (items t) ++ image bool_s (rbk t) ++ image bool_s (remote t) ++
  u64 (ol_cnt t) ++ u64 (o_entry_d t).
Definition enc_tpcc_head (t : tpcc_input) : list Z := u64 (w_id t) ++ u64 (d_id t) ++ u64 (c_id t).
(** The key a remote query carries. *)
Definition pps_key (p : pps_input) : Z :=
  if pps_type p =? PPS_GETSUPPLIER then supplier_key p
  else if (pps_type p =? PPS_GETPRODUCT) || (pps_type p =? PPS_UPDATEPRODUCTPART)
       then product_key p else part_key p.

Definition enc (b : body) : list Z :=
  match b with
  | InitDoneMessage | LogMessage _ | LogRspMessage | LogFlushedMessage | PrepareMessage
  | DoneMessage => []
  | FinishMessage pid rc ro ct =>
      u64 pid ++ image RC_s rc ++ image bool_s ro ++ on (is_alg MAAT) (u64 ct)
  | QueryResponseMessage rc => image RC_s rc
  | AckMessage rc lower upper ks =>
      image RC_s rc ++ on (is_alg MAAT) (u64 lower ++ u64 upper) ++
      on (is_wl PPS && is_alg CALVIN) (enc_array uint64 ks)
  | ForwardMessage rc o_id => image RC_s rc ++ on (is_wl TPCC) (u64 o_id)
  | ClientResponseMessage c => u64 c
  | YCSBClientQueryMessage q rs => enc_client_query q ++ enc_array ycsb_request_s rs
  | TPCCClientQueryMessage q t =>
      enc_client_query q ++ u64 (txn_type t) ++ enc_tpcc_head t ++ enc_payment t ++ enc_new_order t
  | PPSClientQueryMessage q p recon =>
      enc_client_query q ++ u64 (pps_type p) ++ u64 (part_key p) ++ u64 (product_key p) ++
      u64 (supplier_key p) ++ enc_array uint64 (part_keys p) ++ on (is_alg CALVIN) (image bool_s recon)
  | YCSBQueryMessage q rs => enc_query q ++ enc_array ycsb_request_s rs
  | TPCCQueryMessage q st t =>
      enc_query q ++ u64 (txn_type t) ++ u64 st ++ enc_tpcc_head t ++
      on (txn_type t =? TPCC_PAYMENT) (enc_payment t) ++
      on (txn_type t =? TPCC_NEW_ORDER) (enc_new_order t)
  | PPSQueryMessage q st p =>
      enc_query q ++ u64 (pps_type p) ++ u64 st ++ u64 (pps_key p) ++ enc_array uint64 (part_keys p)
  end.

(** The fields of a message are in range; a remote query has the timestamp and the
    type the assertions ask for. *)
Definition u64s (zs : list Z) : Prop := Forall is_u64 zs.
Definition array_ok {A} (s : serial A) (xs : list A) : Prop := is_u64 (zlen xs) ∧ Forall (fits s) xs.
Definition query_ok (q : QueryMessage) : Prop :=
  is_u64 (q_ts q) ∧ is_u64 (q_start_ts q) ∧ (has_ts = true → q_ts q ≠ 0).
Definition client_query_ok (q : ClientQueryMessage) : Prop :=
  is_u64 (client_startts q) ∧ array_ok uint64 (partitions q).
Definition tpcc_ok (t : tpcc_input) : Prop :=
  u64s [txn_type t; w_id t; d_id t; c_id t; d_w_id t; c_w_id t; c_d_id t; h_amount t; ol_cnt t; o_entry_d t] ∧
  length (c_last t) = LASTNAME_LEN ∧ array_ok Item_no_s (items t).
Definition pps_ok (p : pps_input) : Prop :=
  u64s [pps_type p; part_key p; product_key p; supplier_key p] ∧ array_ok uint64 (part_keys p).
Definition requests_ok (rs : list ycsb_request) : Prop :=
  array_ok ycsb_request_s rs ∧ Forall (λ r, key_ok r = true) rs.

Definition body_ok (b : body) : Prop :=
  match b with
  | LogMessage _ | LogFlushedMessage => False
  | InitDoneMessage | LogRspMessage | PrepareMessage | DoneMessage | QueryResponseMessage _ => True
  | FinishMessage pid _ _ ct => u64s [pid; ct]
  | AckMessage _ lower upper ks => u64s [lower; upper] ∧ array_ok uint64 ks
  | ForwardMessage _ z | ClientResponseMessage z => is_u64 z
  | YCSBClientQueryMessage q rs => client_query_ok q ∧ requests_ok rs
  | TPCCClientQueryMessage q t => client_query_ok q ∧ tpcc_ok t
  | PPSClientQueryMessage q p _ => client_query_ok q ∧ pps_ok p
  | YCSBQueryMessage q rs => query_ok q ∧ requests_ok rs ∧ zlen rs ≤ g_req_per_query e
  | TPCCQueryMessage q st t =>
      query_ok q ∧ is_u64 st ∧ tpcc_ok t ∧ (txn_type t = TPCC_PAYMENT ∨ txn_type t = TPCC_NEW_ORDER)
  | PPSQueryMessage q st p => query_ok q ∧ is_u64 st ∧ pps_ok p ∧ 1 ≤ pps_type p ≤ 8
  end.

(** What the receiver's object [b0] becomes: the fields that are not compiled in or
    not sent for the type of the transaction keep what they had. *)
Definition recv_query (q0 q : QueryMessage) : QueryMessage :=
  mkQM (if has_ts then q_ts q else q_ts q0) (if is_alg OCC then q_start_ts q else q_start_ts q0).
Definition with_payment (t t0 : tpcc_input) : tpcc_input :=
  mkTI (txn_type t0) (w_id t0) (d_id t0) (c_id t0) (d_w_id t) (c_w_id t) (c_d_id t) (c_last t)
    (h_amount t) (by_last_name t) (items t0) (rbk t0) (remote t0) (ol_cnt t0) (o_entry_d t0).
Definition with_new_order (t t0 : tpcc_input) : tpcc_input :=
  mkTI (txn_type t0) (w_id t0) (d_id t0) (c_id t0) (d_w_id t0) (c_w_id t0) (c_d_id t0) (c_last t0)
    (h_amount t0) (by_last_name t0) (items t) (rbk t) (remote t) (ol_cnt t) (o_entry_d t).
Definition recv_tpcc (t0 t : tpcc_input) : tpcc_input :=
  let t1 := tpcc_head t0 (txn_type t) (w_id t) (d_id t) (c_id t) in
  let t2 := if txn_type t =? TPCC_PAYMENT then with_payment t t1 else t1 in
  if txn_type t =? TPCC_NEW_ORDER then with_new_order t t2 else t2.
Definition recv_pps (p0 p : pps_input) : pps_input :=
  let p1 := mkPI (pps_type p) (part_key p0) (product_key p0) (supplier_key p0) (part_keys p) in
  if pps_type p =? PPS_GETSUPPLIER then set_supplier_key (supplier_key p) p1
  else if (pps_type p =? PPS_GETPRODUCT) || (pps_type p =? PPS_UPDATEPRODUCTPART)
       then set_product_key (product_key p) p1 else set_part_key (part_key p) p1.

Definition received (b0 b : body) : option body :=
  match b0, b with
  | InitDoneMessage, InitDoneMessage | LogRspMessage, LogRspMessage
  | PrepareMessage, PrepareMessage | DoneMessage, DoneMessage
  | QueryResponseMessage _, QueryResponseMessage _
  | ClientResponseMessage _, ClientResponseMessage _
  | YCSBClientQueryMessage _ _, YCSBClientQueryMessage _ _
  | TPCCClientQueryMessage _ _, TPCCClientQueryMessage _ _ => Some b
  | FinishMessage _ _ _ ct0, FinishMessage pid rc ro ct =>
      Some (FinishMessage pid rc ro (if is_alg MAAT then ct else ct0))
  | AckMessage _ l0 u0 k0, AckMessage rc l u k =>
      let b := if is_alg MAAT then (l, u) else (l0, u0) in
      Some (AckMessage rc b.1 b.2 (if is_wl PPS && is_alg CALVIN then k else k0))
  | ForwardMessage _ o0, ForwardMessage rc o =>
      Some (ForwardMessage rc (if is_wl TPCC then o else o0))
  | PPSClientQueryMessage _ _ r0, PPSClientQueryMessage q p r =>
      Some (PPSClientQueryMessage q p (if is_alg CALVIN then r else r0))
  | YCSBQueryMessage q0 _, YCSBQueryMessage q rs => Some (YCSBQueryMessage (recv_query q0 q) rs)
  | TPCCQueryMessage q0 _ t0, TPCCQueryMessage q st t =>
      Some (TPCCQueryMessage (recv_query q0 q) st (recv_tpcc t0 t))
  | PPSQueryMessage q0 _ p0, PPSQueryMessage q st p =>
      Some (PPSQueryMessage (recv_query q0 q) st (recv_pps p0 p))
  | _, _ => None
  end.

(** ** Lemmas: the writers *)

Lemma writes_u64 z : is_u64 z → writes (COPY_BUF uint64 z) (u64 z).
Proof. intros. by apply (writes_COPY_BUF uint64). Qed.
Lemma writes_RC rc : writes (COPY_BUF RC_s rc) (image RC_s rc).
Proof. by apply (writes_COPY_BUF RC_s). Qed.
Lemma writes_bool b : writes (COPY_BUF bool_s b) (image bool_s b).
Proof. by apply (writes_COPY_BUF bool_s). Qed.
Lemma writes_raw n bs : length bs = n → writes (COPY_BUF (raw n) bs) (image (raw n) bs).
Proof. intros. by apply (writes_COPY_BUF (raw n)). Qed.
Lemma writes_when b w bs : (b = true → writes w bs) → writes (when b w) (on b bs).
Proof. destruct b; [auto|]. intros _. apply writes_skip. Qed.
Lemma writes_copy_array {A} (s : serial A) xs : array_ok s xs →
  writes (copy_array (COPY_BUF s) xs) (enc_array s xs).
Proof.
  intros [Hl Hf]. apply writes_array; [done|]. rewrite Forall_forall in Hf.
  intros x Hx. apply writes_COPY_BUF. auto.
Qed.
Lemma writes_checked rs : requests_ok rs →
  writes (copy_array (λ r, guard_w (key_ok r);; COPY_BUF ycsb_request_s r) rs)
    (enc_array ycsb_request_s rs).
Proof.
  intros [[Hl Hf] Hk]. apply writes_array; [done|]. rewrite Forall_forall in Hf, Hk.
  intros x Hx. apply (writes_then _ _ []); [apply writes_guard; auto|apply writes_COPY_BUF; auto].
Qed.

#[local] Hint Resolve writes_u64 writes_RC writes_bool writes_raw writes_copy_array writes_checked writes_skip
  : codec.

(** Ranges of the fields of a list. *)
Ltac u64_elim := repeat match goal with
  | H : u64s (_ :: _) |- _ => apply Forall_cons in H as [? H]
  | H : Forall is_u64 (_ :: _) |- _ => apply Forall_cons in H as [? H]
  | H : _ ∧ _ |- _ => destruct H
  end.
Ltac writes_tac := u64_elim;
  repeat first [by eauto with codec | apply writes_when; intros | apply writes_then].

Lemma writes_query q : query_ok q → writes (query_to_buf q) (enc_query q).
Proof.
  intros (Ht&Hs&Hz). apply writes_then; [|by writes_tac].
  apply writes_when. intros Hb. rewrite <-(app_nil_r (u64 _)).
  apply writes_then; [by apply writes_u64|]. apply writes_guard. specialize (Hz Hb). by destruct (q_ts q).
Qed.
Lemma writes_client_query q : client_query_ok q → writes (client_query_to_buf q) (enc_client_query q).
Proof. intros []. unfold client_query_to_buf, enc_client_query. writes_tac. Qed.
Lemma writes_payment t : tpcc_ok t → writes (payment_to_buf t) (enc_payment t).
Proof. intros (?&?&?). unfold payment_to_buf, enc_payment. writes_tac. Qed.
Lemma writes_new_order t : tpcc_ok t → writes (new_order_to_buf t) (enc_new_order t).
Proof. intros (?&?&?). unfold new_order_to_buf, enc_new_order. writes_tac. Qed.
Lemma pps_cases z : 1 ≤ z ≤ 8 → z = 1 ∨ z = 2 ∨ z = 3 ∨ z = 4 ∨ z = 5 ∨ z = 6 ∨ z = 7 ∨ z = 8.
Proof. lia. Qed.
Lemma writes_nil_l w1 w2 bs : writes w1 [] → writes w2 bs → writes (w1;; w2) bs.
Proof. apply (writes_then w1 w2 [] bs). Qed.
Lemma writes_nil_r w1 w2 bs : writes w1 bs → writes w2 [] → writes (w1;; w2) bs.
Proof. intros. rewrite <-(app_nil_r bs). by apply writes_then. Qed.
Lemma writes_pps_keys p : pps_ok p → 1 ≤ pps_type p ≤ 8 → writes (pps_keys_to_buf p) (u64 (pps_key p)).
Proof.
  intros [Hu _] Hp. apply pps_cases in Hp. unfold pps_keys_to_buf, pps_key. u64_elim.
  destruct_or! Hp; rewrite Hp;
    repeat first [by eauto with codec | apply writes_nil_l; [exact writes_skip|] | apply writes_nil_r].
Qed.

#[local] Hint Resolve writes_query writes_client_query writes_payment writes_new_order
  writes_pps_keys : codec.

(** *** Lengths *)

Ltac unfold_sizes :=
  unfold Finish_size, QueryResponse_size, Ack_size, Forward_size, ClientResponse_size, YCSBClientQuery_size, TPCCClientQuery_size, PPSClientQuery_size, YCSBQuery_size, TPCCQuery_size, PPSQuery_size in *.
Ltac unfold_to_buf :=
  unfold Finish_to_buf, QueryResponse_to_buf, Ack_to_buf, Forward_to_buf, ClientResponse_to_buf, YCSBClientQuery_to_buf, TPCCClientQuery_to_buf, PPSClientQuery_to_buf, YCSBQuery_to_buf, TPCCQuery_to_buf, PPSQuery_to_buf, Log_to_buf.
Ltac unfold_from_buf :=
  unfold Finish_from_buf, QueryResponse_from_buf, Ack_from_buf, Forward_from_buf, ClientResponse_from_buf, YCSBClientQuery_from_buf, TPCCClientQuery_from_buf, PPSClientQuery_from_buf, YCSBQuery_from_buf, TPCCQuery_from_buf, PPSQuery_from_buf, Log_from_buf.

Lemma length_u64 z : length (u64 z) = 8%nat.
Proof. apply le_bytes_length. Qed.
Lemma length_RC rc : length (image RC_s rc) = 4%nat.
Proof. apply le_bytes_length. Qed.
Lemma length_bool b : length (image bool_s b) = 1%nat.
Proof. apply le_bytes_length. Qed.
Lemma length_on b bs : length (on b bs) = if_ b (length bs).
Proof. by destruct b. Qed.
Lemma length_array {A} (s : serial A) xs : array_ok s xs →
  length (enc_array s xs) = (8 + sizeof s * length xs)%nat.
Proof.
  intros [_ Hf]. unfold enc_array. rewrite length_app, length_u64. f_equal.
  apply bind_length. intros x Hx. rewrite Forall_forall in Hf. apply image_length. auto.
Qed.
Lemma length_query q : (mget_size + length (enc_query q) = query_size)%nat.
Proof.
  unfold enc_query, query_size. rewrite length_app, !length_on, !length_u64. lia.
Qed.
Lemma length_client_query q : client_query_ok q →
  (mget_size + length (enc_client_query q) = client_query_size q)%nat.
Proof.
  intros [_ H]. unfold enc_client_query, client_query_size.
  rewrite length_app, length_u64, length_array by done. simpl. lia.
Qed.

Lemma length_enc b : body_ok b → (mget_size + length (enc b) = get_size b)%nat.
Proof.
  pose proof length_query as Hq. pose proof length_client_query as Hc.
  destruct b; cbn [enc get_size body_ok]; intros Hok; try done; unfold_sizes; u64_elim;
    unfold enc_payment, enc_new_order, enc_tpcc_head, tpcc_ok, pps_ok, requests_ok in *; u64_elim;
    repeat rewrite ?length_app, ?length_on, ?length_u64, ?length_RC, ?length_bool;
    rewrite ?length_array by done;
    try match goal with q : QueryMessage |- _ => specialize (Hq q) end;
    try match goal with H : client_query_ok ?q |- _ => specialize (Hc q H) end;
    change (sizeof uint64) with 8%nat; change (image (raw LASTNAME_LEN)) with (@id (list Z));
    unfold if_, LASTNAME_LEN in *; unfold id; repeat case_match; lia.
Qed.

(** *** Two stages *)

Lemma finish_writes w bs size from buf : writes w bs → (from + length bs = size)%nat →
  (size ≤ length buf)%nat → finish size w from buf = Some (splice buf from bs).
Proof.
  intros Hw Hs Hb. unfold finish. rewrite Hw by lia. simpl. rewrite bool_decide_true by done. done.
Qed.

Lemma stages_write w1 w2 b1 b2 base size buf : writes w1 b1 → writes w2 b2 →
  (mget_size + length b1 = base)%nat → (mget_size + length (b1 ++ b2) = size)%nat →
  (size ≤ length buf)%nat →
  ('(buf, _) ← w1 buf mget_size; finish size w2 base buf) = Some (splice buf mget_size (b1 ++ b2)).
Proof.
  intros H1 H2 Hb Hs Hl. rewrite H1 by (rewrite length_app in Hs; lia). simpl.
  rewrite (finish_writes w2 b2); [|done|rewrite length_app in Hs; lia|
    rewrite splice_length; rewrite length_app in Hs; lia].
  rewrite <-Hb, splice_splice by lia. done.
Qed.

Lemma body_to_buf_writes b buf : body_ok b → (get_size b ≤ length buf)%nat →
  body_to_buf b buf = Some (splice buf mget_size (enc b)).
Proof.
  intros Hok Hl. pose proof (length_enc b Hok) as Hlen.
  destruct b; cbn [body_ok] in Hok; try done; unfold body_to_buf; unfold_to_buf; unfold enc in Hlen |- *;
    try (by rewrite splice_nil); u64_elim.
  all: try (apply finish_writes; [|done|done]; writes_tac).
  all: apply stages_write; [by eauto with codec| |by auto using length_query, length_client_query|done|done].
  all: unfold enc_tpcc_head; rewrite <-?app_assoc.
  all: try match goal with H : tpcc_ok _ |- _ => pose proof H as (?&?&?) end.
  all: try match goal with H : pps_ok _ |- _ => pose proof H as (?&?) end.
  all: try match goal with H : requests_ok _ |- _ => pose proof H as [? ?] end.
  all: writes_tac.
Qed.

(** ** Lemmas: the readers *)

Lemma reads_u64 z : is_u64 z → reads (COPY_VAL uint64) (u64 z) z.
Proof. intros. by apply (reads_COPY_VAL uint64). Qed.
Lemma reads_RC rc : reads (COPY_VAL RC_s) (image RC_s rc) rc.
Proof. by apply (reads_COPY_VAL RC_s). Qed.
Lemma reads_bool b : reads (COPY_VAL bool_s) (image bool_s b) b.
Proof. by apply (reads_COPY_VAL bool_s). Qed.
Lemma reads_raw n bs : length bs = n → reads (COPY_VAL (raw n)) (image (raw n) bs) bs.
Proof. intros. by apply (reads_COPY_VAL (raw n)). Qed.
Lemma reads_on {A} (b : bool) (r : rd A) bs x x0 : (b = true → reads r bs x) →
  reads (if b then r else ret x0) (on b bs) (if b then x else x0).
Proof. destruct b; [auto|]. intros _. apply reads_ret. Qed.
Lemma reads_last {A B} (r : rd A) (f : A → B) bs x : reads r bs x →
  reads (x <- r; ret (f x)) bs (f x).
Proof.
  intros H. rewrite <-(app_nil_r bs). eapply reads_bind; [exact H|apply reads_ret].
Qed.
Lemma reads_last_eq {A B} (r : rd A) (f : A → B) bs x y : reads r bs x → f x = y →
  reads (x <- r; ret (f x)) bs y.
Proof. intros ? <-. by apply reads_last. Qed.
Lemma reads_guard_l {A} b (k : rd A) bs x : b = true → reads k bs x →
  reads (_ <- guard_r b; k) bs x.
Proof. intros. apply (reads_bind _ (λ _, k) [] bs tt); [by apply reads_guard|done]. Qed.
Lemma reads_read_array {A} (s : serial A) xs : array_ok s xs →
  reads (read_array (COPY_VAL s)) (enc_array s xs) xs.
Proof.
  intros [Hl Hf]. apply reads_array; [done|]. rewrite Forall_forall in Hf.
  intros x Hx. apply reads_COPY_VAL. auto.
Qed.
Lemma reads_request r : fits ycsb_request_s r → key_ok r = true →
  reads (r <- COPY_VAL ycsb_request_s; _ <- guard_r (key_ok r); ret r) (image ycsb_request_s r) r.
Proof.
  intros Hf Hk. rewrite <-(app_nil_r (image _ r)).
  eapply reads_bind; [by apply reads_COPY_VAL|]. by apply reads_guard_l, reads_ret.
Qed.
Lemma reads_requests rs : requests_ok rs →
  reads (read_array (r <- COPY_VAL ycsb_request_s; _ <- guard_r (key_ok r); ret r))
    (enc_array ycsb_request_s rs) rs.
Proof.
  intros [[Hl Hf] Hk]. rewrite Forall_forall in Hf, Hk. apply reads_array; [done|].
  intros r Hr. apply reads_request; auto.
Qed.

#[local] Hint Resolve reads_u64 reads_RC reads_bool reads_raw reads_read_array reads_requests : codec.

Ltac reads_tac := u64_elim;
  repeat first [by eauto with codec | apply reads_on; intros | apply reads_last
               | eapply reads_bind | apply reads_ret].

Lemma reads_query q0 q : query_ok q → reads (query_from_buf q0) (enc_query q) (recv_query q0 q).
Proof.
  intros (Ht&Hs&Hz). unfold query_from_buf, enc_query, recv_query.
  eapply reads_bind; [|by apply reads_last, reads_on; eauto with codec].
  apply reads_on. intros Hb. rewrite <-(app_nil_r (u64 _)). eapply reads_bind; [by apply reads_u64|].
  apply reads_guard_l, reads_ret. specialize (Hz Hb). by destruct (q_ts q).
Qed.
Lemma reads_client_query q : client_query_ok q →
  reads client_query_from_buf (enc_client_query q) q.
Proof.
  destruct q as [c ps]. intros [Hc Hp]. unfold client_query_from_buf, enc_client_query. cbn [client_startts partitions] in *.
  eapply reads_bind; [by apply reads_u64|]. apply (reads_last _ (mkCQ c)). by apply reads_read_array.
Qed.
Lemma reads_payment t0 t : tpcc_ok t →
  reads (payment_from_buf t0) (enc_payment t) (with_payment t t0).
Proof.
  intros (?&?&?). u64_elim. unfold payment_from_buf, enc_payment, with_payment.
  do 5 (eapply reads_bind; [by eauto with codec|]). apply (reads_last _ (λ by_, mkTI _ _ _ _ _ _ _ _ _ by_ _ _ _ _ _)).
  apply reads_bool.
Qed.
Lemma reads_new_order t0 t : tpcc_ok t →
  reads (new_order_from_buf t0) (enc_new_order t) (with_new_order t t0).
Proof.
  intros (?&?&?). u64_elim. unfold new_order_from_buf, enc_new_order, with_new_order.
  do 4 (eapply reads_bind; [by eauto with codec|]).
  apply (reads_last _ (λ o, mkTI _ _ _ _ _ _ _ _ _ _ _ _ _ _ o)). by apply reads_u64.
Qed.
Lemma reads_nil_l {A B} (r : rd A) (k : A → rd B) bs x y : reads r [] x → reads (k x) bs y →
  reads (bind r k) bs y.
Proof. apply (reads_bind r k [] bs). Qed.
Lemma reads_nil_r {A B} (r : rd A) (k : A → rd B) bs x y : reads r bs x → reads (k x) [] y →
  reads (bind r k) bs y.
Proof. intros. rewrite <-(app_nil_r bs). by eapply reads_bind. Qed.
Lemma reads_when set p z : is_u64 z → reads (when_read true set p) (u64 z) (set z p).
Proof. intros. apply (reads_last _ (λ k, set k p)). by apply reads_u64. Qed.
Lemma reads_pps_keys p0 p : pps_ok p → 1 ≤ pps_type p ≤ 8 → pps_type p0 = pps_type p →
  reads (pps_keys_from_buf p0) (u64 (pps_key p))
    (set_part_keys (part_keys p0) (recv_pps p0 p)).
Proof.
  intros [Hu _] Hp He. apply pps_cases in Hp. u64_elim.
  destruct p0 as [ty0 pa0 pr0 su0 ks0], p as [ty pa pr su ks]. simpl in *. subst ty0.
  unfold pps_keys_from_buf, pps_key, recv_pps. simpl in Hp.
  destruct_or! Hp; subst ty; cbn -[image when_read bind ret COPY_VAL u64];
    repeat first [by apply reads_when | by apply reads_ret
      | eapply reads_nil_l; [by apply reads_ret|]
      | eapply reads_nil_r; [by apply reads_when|]].
Qed.

#[local] Hint Resolve reads_query reads_client_query reads_payment reads_new_order : codec.

Lemma recv_tpcc_type t0 t : txn_type (recv_tpcc t0 t) = txn_type t.
Proof. unfold recv_tpcc. cbv zeta. by destruct (_ =? TPCC_PAYMENT), (_ =? TPCC_NEW_ORDER). Qed.

Lemma received_size b0 b b' : received b0 b = Some b' → get_size b' = get_size b.
Proof.
  destruct b0, b; cbn [received]; intros; simplify_eq; cbn [get_size]; unfold_sizes; try done.
  - by destruct (is_alg MAAT), (is_wl PPS), (is_alg CALVIN).
  - rewrite recv_tpcc_type. destruct (txn_type t0 =? TPCC_NEW_ORDER) eqn:E; [|done].
    unfold recv_tpcc. by rewrite E.
  - unfold recv_pps. by destruct (pps_type p0 =? PPS_GETSUPPLIER); [|destruct (_ || _)].
Qed.

Lemma finish_reads r bs b' from pre post : reads r bs b' → length pre = from →
  (from + length bs = get_size b')%nat → finish_read r from (pre ++ bs ++ post) = Some b'.
Proof.
  intros Hr Hp Hs. unfold finish_read. rewrite <-Hp, Hr. simpl.
  rewrite bool_decide_true by lia. done.
Qed.

Lemma stages_read {A} (r1 : rd A) (k : A → rd body) (base : A → nat) b1 b2 a b' pre post :
  reads r1 b1 a → reads (k a) b2 b' → length pre = mget_size →
  (mget_size + length b1 = base a)%nat → (mget_size + length (b1 ++ b2) = get_size b')%nat →
  ('(a, _) ← r1 (pre ++ (b1 ++ b2) ++ post) mget_size;
   finish_read (k a) (base a) (pre ++ (b1 ++ b2) ++ post)) = Some b'.
Proof.
  intros H1 H2 Hp Hb Hs. rewrite length_app in Hs. rewrite <-app_assoc, <-Hp, H1. simpl.
  rewrite app_assoc, <-Hb. apply (finish_reads _ b2); [done|rewrite length_app; lia|lia].
Qed.

Lemma reads_tpcc_fields ty0 st0 t0 t : tpcc_ok t →
  (txn_type t = TPCC_PAYMENT ∨ txn_type t = TPCC_NEW_ORDER) → is_u64 st0 → ty0 = txn_type t →
  ∀ q, reads (ty <- COPY_VAL uint64;
        _ <- guard_r ((ty =? TPCC_PAYMENT) || (ty =? TPCC_NEW_ORDER));
        st <- COPY_VAL uint64;
        w <- COPY_VAL uint64; d <- COPY_VAL uint64; c <- COPY_VAL uint64;
        t <- (if ty =? TPCC_PAYMENT then payment_from_buf (tpcc_head t0 ty w d c)
              else ret (tpcc_head t0 ty w d c));
        t <- (if ty =? TPCC_NEW_ORDER then new_order_from_buf t else ret t);
        ret (TPCCQueryMessage q st t))
      (u64 ty0 ++ u64 st0 ++ enc_tpcc_head t ++ on (ty0 =? TPCC_PAYMENT) (enc_payment t) ++
       on (ty0 =? TPCC_NEW_ORDER) (enc_new_order t))
      (TPCCQueryMessage q st0 (recv_tpcc t0 t)).
Proof.
  intros Hok Hty Hst -> q. pose proof Hok as (Hu&?&?). u64_elim. unfold enc_tpcc_head. rewrite <-!app_assoc.
  eapply reads_bind; [by apply reads_u64|]. apply reads_guard_l.
  { destruct Hty as [->| ->]; done. }
  do 4 (eapply reads_bind; [by apply reads_u64|]).
  eapply reads_bind; [apply reads_on; intros; by apply reads_payment|].
  apply (reads_last _ (λ t, TPCCQueryMessage q st0 t)). apply reads_on. intros. by apply reads_new_order.
Qed.

Lemma client_tpcc t0 t :
  with_new_order t (with_payment t (tpcc_head t0 (txn_type t) (w_id t) (d_id t) (c_id t))) = t.
Proof. by destruct t. Qed.

Lemma reads_ack rc l0 u0 k0 l u k : is_u64 l → is_u64 u → array_ok uint64 k →
  reads (rc <- COPY_VAL RC_s;
        b <- (if is_alg MAAT then l <- COPY_VAL uint64; u <- COPY_VAL uint64; ret (l, u)
              else ret (l0, u0));
        ks <- (if is_wl PPS && is_alg CALVIN then read_array (COPY_VAL uint64) else ret k0);
        ret (AckMessage rc b.1 b.2 ks)) (enc (AckMessage rc l u k))
    (let b := if is_alg MAAT then (l, u) else (l0, u0) in
     AckMessage rc b.1 b.2 (if is_wl PPS && is_alg CALVIN then k else k0)).
Proof.
  intros Hl Hu Hk. cbn [enc]. eapply reads_bind; [apply reads_RC|].
  eapply reads_bind.
  - apply reads_on. intros _. eapply reads_bind; [by apply reads_u64|].
    apply (reads_last _ (λ u, (l, u))). by apply reads_u64.
  - cbv zeta. apply (reads_last _ (λ ks, AckMessage rc _ _ ks)). apply reads_on. intros _.
    by apply reads_read_array.
Qed.

Lemma reads_client_pps q p r0 r : pps_ok p →
  reads (ty <- COPY_VAL uint64;
        pa <- COPY_VAL uint64; pr <- COPY_VAL uint64; su <- COPY_VAL uint64;
        ks <- read_array (COPY_VAL uint64);
        recon <- (if is_alg CALVIN then COPY_VAL bool_s else ret r0);
        ret (PPSClientQueryMessage q (mkPI ty pa pr su ks) recon))
    (u64 (pps_type p) ++ u64 (part_key p) ++ u64 (product_key p) ++
      u64 (supplier_key p) ++ enc_array uint64 (part_keys p) ++ on (is_alg CALVIN) (image bool_s r))
    (PPSClientQueryMessage q p (if is_alg CALVIN then r else r0)).
Proof.
  intros [Hu Hk]. u64_elim. do 4 (eapply reads_bind; [by apply reads_u64|]).
  eapply reads_bind; [by apply reads_read_array|]. destruct p.
  apply (reads_last _ (λ recon, PPSClientQueryMessage q _ recon)). apply reads_on. intros _.
  apply reads_bool.
Qed.

Lemma reads_pps q st p0 p : pps_ok p → is_u64 st → 1 ≤ pps_type p ≤ 8 →
  reads (ty <- COPY_VAL uint64; st <- COPY_VAL uint64;
        p <- pps_keys_from_buf (mkPI ty (part_key p0) (product_key p0) (supplier_key p0) (part_keys p0));
        ks <- read_array (COPY_VAL uint64);
        ret (PPSQueryMessage q st (set_part_keys ks p)))
    (u64 (pps_type p) ++ u64 st ++ u64 (pps_key p) ++ enc_array uint64 (part_keys p))
    (PPSQueryMessage q st (recv_pps p0 p)).
Proof.
  intros Hok Hst Hp. pose proof Hok as [Hu Hk].
  eapply reads_bind; [apply reads_u64; by inversion Hu|]. eapply reads_bind; [by apply reads_u64|].
  eapply reads_bind; [by apply reads_pps_keys|].
  eapply (reads_last_eq _ (λ ks, PPSQueryMessage q st (set_part_keys ks _)));
    [by apply reads_read_array|].
  unfold recv_pps. cbv zeta. f_equal. by repeat case_match.
Qed.

Lemma reads_ycsb q rs : requests_ok rs → zlen rs ≤ g_req_per_query e →
  reads (n <- COPY_VAL uint64; _ <- guard_r (n <=? g_req_per_query e);
        rs <- read_all (r <- COPY_VAL ycsb_request_s; _ <- guard_r (key_ok r); ret r) (Z.to_nat n);
        ret (YCSBQueryMessage q rs)) (enc_array ycsb_request_s rs) (YCSBQueryMessage q rs).
Proof.
  intros [[Hl Hf] Hk] Hn. rewrite Forall_forall in Hf, Hk.
  eapply reads_bind; [by apply reads_u64|]. apply reads_guard_l; [by apply Z.leb_le|].
  apply (reads_last _ (λ rs, YCSBQueryMessage q rs)). rewrite Nat2Z.id. apply reads_all.
  intros r Hr. apply reads_request; auto.
Qed.

Lemma reads_client_tpcc q t0 t : tpcc_ok t →
  reads (ty <- COPY_VAL uint64;
        w <- COPY_VAL uint64; d <- COPY_VAL uint64; c <- COPY_VAL uint64;
        t <- payment_from_buf (tpcc_head t0 ty w d c); t <- new_order_from_buf t;
        ret (TPCCClientQueryMessage q t))
    (u64 (txn_type t) ++ enc_tpcc_head t ++ enc_payment t ++ enc_new_order t)
    (TPCCClientQueryMessage q t).
Proof.
  intros Hok. pose proof Hok as (Hu&_&_). u64_elim. unfold enc_tpcc_head. rewrite <-!app_assoc.
  do 4 (eapply reads_bind; [by apply reads_u64|]). eapply reads_bind; [by apply reads_payment|].
  eapply (reads_last_eq _ (TPCCClientQueryMessage q)); [by apply reads_new_order|].
  by rewrite client_tpcc.
Qed.

Lemma body_from_buf_reads b0 b b' pre post : body_ok b → received b0 b = Some b' →
  length pre = mget_size → body_from_buf b0 (pre ++ enc b ++ post) = Some b'.
Proof.
  intros Hok Hr Hp. pose proof (length_enc b Hok) as Hlen. rewrite <-(received_size _ _ _ Hr) in Hlen.
  destruct b0, b; cbn [received body_ok] in *; try done; injection Hr as <-;
    unfold body_from_buf; unfold_from_buf; cbn [enc] in Hlen |- *; try done.
  - u64_elim. apply finish_reads; [|done..]. eapply reads_bind; [by apply reads_u64|].
    eapply reads_bind; [apply reads_RC|]. eapply reads_bind; [apply reads_bool|].
    apply (reads_last _ (FinishMessage _ _ _)), reads_on. intros _. by apply reads_u64.
  - apply finish_reads; [|done..]. apply (reads_last _ QueryResponseMessage), reads_RC.
  - u64_elim. apply finish_reads; [|done..]. by apply reads_ack.
  - by apply finish_reads; [apply reads_ret|..].
  - apply finish_reads; [|done..]. eapply reads_bind; [apply reads_RC|].
    apply (reads_last _ (ForwardMessage _)), reads_on. intros _. by apply reads_u64.
  - by apply finish_reads; [apply reads_ret|..].
  - apply finish_reads; [|done..]. by apply (reads_last _ ClientResponseMessage), reads_u64.
  - destruct Hok as [Hq Hrs]. apply (stages_read _ (λ q, _) client_query_size _ _ q0);
      [by apply reads_client_query| |done|by apply length_client_query|done].
    apply (reads_last _ (YCSBClientQueryMessage q0)). by apply reads_requests.
  - destruct Hok as [Hq Ht]. apply (stages_read _ (λ q, _) client_query_size _ _ q0);
      [by apply reads_client_query| |done|by apply length_client_query|done].
    by apply reads_client_tpcc.
  - destruct Hok as [Hq Ht]. apply (stages_read _ (λ q, _) client_query_size _ _ q0);
      [by apply reads_client_query| |done|by apply length_client_query|done].
    by apply reads_client_pps.
  - destruct Hok as (Hq&Hrs&Hn). apply (stages_read _ (λ q, _) (λ _, query_size) _ _ (recv_query q q0));
      [by apply reads_query|by apply reads_ycsb|done|by apply length_query|done].
  - destruct Hok as (Hq&Hst&Ht&Hty). apply (stages_read _ (λ q, _) (λ _, query_size) _ _ (recv_query q q0));
      [by apply reads_query|by apply reads_tpcc_fields|done|by apply length_query|done].
  - destruct Hok as (Hq&Hst&Ht&Hty). apply (stages_read _ (λ q, _) (λ _, query_size) _ _ (recv_query q q0));
      [by apply reads_query|by apply reads_pps|done|by apply length_query|done].
Qed.

(** *** The header *)

Definition enc_head (m : Message) : list Z :=
  image RemReqType_s (rtype m) ++ u64 (txn_id m) ++ on (is_alg CALVIN) (u64 (batch_id m)) ++
  u64 (mq_time m) ++ u64 (lat_work_queue_time m) ++ u64 (lat_msg_queue_time m) ++
  u64 (lat_cc_block_time m) ++ u64 (lat_cc_time m) ++ u64 (lat_process_time m).
Definition enc_lat (m : Message) : list Z := u64 (lat_network_time m) ++ u64 (lat_other_time m).
Definition enc_header (m : Message) : list Z := enc_head m ++ enc_lat m.

Definition header_ok (m : Message) : Prop :=
  u64s [txn_id m; batch_id m; mq_time m; lat_work_queue_time m; lat_msg_queue_time m;
        lat_cc_block_time m; lat_cc_time m; lat_process_time m; lat_network_time m; lat_other_time m].

Lemma length_header m : length (enc_header m) = mget_size.
Proof.
  unfold enc_header, enc_head, enc_lat, mget_size.
  repeat rewrite ?length_app, ?length_u64, ?length_on, ?(le_bytes_length 4). simpl. lia.
Qed.

Lemma writes_rtype t : writes (COPY_BUF RemReqType_s t) (image RemReqType_s t).
Proof. by apply (writes_COPY_BUF RemReqType_s). Qed.
Lemma writes_head m : header_ok m → writes (head_to_buf m) (enc_head m).
Proof.
  unfold header_ok, head_to_buf, enc_head. intros. apply writes_then; [apply writes_rtype|]. writes_tac.
Qed.
Lemma writes_lat m : header_ok m → writes (lat_to_buf m) (enc_lat m).
Proof. unfold header_ok, lat_to_buf, enc_lat. intros. writes_tac. Qed.
Lemma reads_rtype t : reads (COPY_VAL RemReqType_s) (image RemReqType_s t) t.
Proof. by apply (reads_COPY_VAL RemReqType_s). Qed.

Section doubles.
Context (Hsub : ∀ a b, is_u64 (d_sub a b)) (Hof : ∀ a, is_u64 (d_of a)).

Lemma stamp_out_ok clk m : header_ok m → header_ok (stamp_out clk m).
Proof.
  unfold header_ok, stamp_out, u64s. intros H.
  assert (∀ a b, is_u64 a → is_u64 b → header_ok (set_lat a b m)) as Hset.
  { intros a b Ha Hb. unfold header_ok, u64s. cbn.
    repeat (apply Forall_cons in H as [? H]; try (apply Forall_cons; split; [done|])). done. }
  repeat (apply Forall_cons in H as [? H]). case_match; apply Hset; auto.
Qed.

Lemma mcopy_to_buf_writes clk m buf : header_ok m → (mget_size ≤ length buf)%nat →
  mcopy_to_buf clk m buf = Some (stamp_out clk m, splice buf 0 (enc_header (stamp_out clk m))).
Proof.
  intros Hok Hl. pose proof (stamp_out_ok clk m Hok) as Hok'.
  pose proof (length_header (stamp_out clk m)) as Hlen. unfold mcopy_to_buf.
  assert (enc_head (stamp_out clk m) = enc_head m) as Hh by (unfold stamp_out; by case_match).
  unfold enc_header in *. rewrite Hh in *. rewrite length_app in Hlen.
  rewrite (writes_head m Hok) by lia. cbn [mbind option_bind]. cbv zeta.
  rewrite (writes_lat _ Hok') by (rewrite splice_length; lia).
  cbn [mbind option_bind]. by rewrite splice_splice by (rewrite length_app; lia).
Qed.

(** What a message is when it arrives at this node with the body [b]. *)
Definition arrived (clk : Z) (m : Message) (b : body) : Message :=
  stamp_in clk (mkMsg (rtype m) (txn_id m) (if is_alg CALVIN then batch_id m else UINT64_MAX)
    (g_node_id e) 0 (mq_time m) 0 (lat_work_queue_time m) (lat_msg_queue_time m)
    (lat_cc_block_time m) (lat_cc_time m) (lat_process_time m) (lat_network_time m)
    (lat_other_time m) b).

(** The header of [m] over the object [m0]. *)
Definition over (m m0 : Message) : Message :=
  mkMsg (rtype m) (txn_id m) (if is_alg CALVIN then batch_id m else batch_id m0)
    (return_node_id m0) (wq_time m0) (mq_time m) (ntwk_time m0) (lat_work_queue_time m)
    (lat_msg_queue_time m) (lat_cc_block_time m) (lat_cc_time m) (lat_process_time m)
    (lat_network_time m) (lat_other_time m) (m_body m0).

Lemma reads_head m0 m : header_ok m → reads (head_from_buf m0) (enc_header m) (over m m0).
Proof.
  unfold header_ok. intros Hok. u64_elim. unfold head_from_buf, enc_header, enc_head, enc_lat, over.
  rewrite <-!app_assoc. eapply reads_bind; [apply reads_rtype|].
  eapply reads_bind; [by apply reads_u64|].
  eapply reads_bind; [apply reads_on; intros; by apply reads_u64|].
  do 7 (eapply reads_bind; [by apply reads_u64|]).
  apply (reads_last _ (λ l, mkMsg _ _ _ _ _ _ _ _ _ _ _ _ _ l _)). by apply reads_u64.
Qed.

Lemma mcopy_from_buf_reads clk m0 m post : header_ok m →
  mcopy_from_buf clk m0 (enc_header m ++ post) = Some (stamp_in clk (over m m0)).
Proof.
  intros Hok. unfold mcopy_from_buf.
  rewrite (reads_head m0 m Hok [] post : head_from_buf m0 (enc_header m ++ post) 0%nat = _). done.
Qed.

Lemma copy_to_buf_writes clk m buf : header_ok m → body_ok (m_body m) →
  (get_size (m_body m) ≤ length buf)%nat →
  copy_to_buf clk m buf =
  Some (stamp_out clk m, splice buf 0 (enc_header (stamp_out clk m) ++ enc (m_body m))).
Proof.
  intros Hh Hb Hl. pose proof (length_enc _ Hb) as Hlen.
  pose proof (length_header (stamp_out clk m)) as Hhl.
  assert (∀ b : body, b ≠ LogFlushedMessage → copy_to_buf clk (set_body b m) buf =
    ('(m', buf) ← mcopy_to_buf clk (set_body b m) buf; buf ← body_to_buf b buf; Some (m', buf))) as Hc
    by (intros []; done).
  specialize (Hc (m_body m) ltac:(by intros Heq; rewrite Heq in Hb)).
  replace (set_body (m_body m) m) with m in Hc by (by destruct m). rewrite Hc.
  rewrite mcopy_to_buf_writes by (done || lia). cbn [mbind option_bind].
  rewrite body_to_buf_writes; [|done|rewrite splice_length; lia]. cbn [mbind option_bind].
  rewrite <-Hhl. rewrite <-(splice_splice buf 0) by (rewrite length_app; lia). done.
Qed.

Lemma create_message_reads clk m b0 b b' post : header_ok m → body_ok b →
  new_body (rtype m) = Some b0 → received b0 b = Some b' →
  create_message clk (enc_header m ++ enc b ++ post) = Some (arrived clk m b').
Proof.
  intros Hh Hb Hnew Hr. unfold create_message.
  assert (COPY_VAL RemReqType_s (enc_header m ++ enc b ++ post) 0%nat = Some (rtype m, 4%nat)) as ->.
  { unfold enc_header, enc_head. rewrite <-!app_assoc. exact (reads_rtype (rtype m) [] _). }
  cbn [mbind option_bind]. unfold new_message. rewrite Hnew. cbn [mbind option_bind].
  assert (b0 ≠ LogFlushedMessage) as Hne by (intros ->; by destruct b).
  set (m0 := mkMsg _ _ _ _ _ _ _ _ _ _ _ _ _ _ b0).
  assert (copy_from_buf clk m0 (enc_header m ++ enc b ++ post) =
    (m' ← mcopy_from_buf clk m0 (enc_header m ++ enc b ++ post);
     b ← body_from_buf b0 (enc_header m ++ enc b ++ post); Some (set_body b m'))) as ->
    by (by destruct b0).
  rewrite mcopy_from_buf_reads by done. cbn [mbind option_bind].
  rewrite (body_from_buf_reads b0 b b') by (done || apply length_header). cbn [mbind option_bind].
  f_equal. unfold arrived, over, stamp_in. cbn. by case_match.
Qed.

Lemma splice_0 buf bs : (length bs ≤ length buf)%nat → splice buf 0 bs = bs ++ drop (length bs) buf.
Proof. done. Qed.

End doubles.

(** A message with a log record is never copied: its size leaves the record out. *)
Lemma log_message_to_buf clk m record buf : m_body m = LogMessage record →
  copy_to_buf clk m buf = None.
Proof.
  intros Hb. unfold copy_to_buf. rewrite Hb. destruct (mcopy_to_buf clk m buf) as [[m' buf']|]; [|done].
  cbn [mbind option_bind body_to_buf]. unfold Log_to_buf, finish, COPY_BUF.
  destruct (bool_decide _); [|done]. cbn [assert_ mbind option_bind].
  rewrite bool_decide_false; [done|]. cbn [sizeof LogRecord_s raw get_size]. lia.
Qed.

Lemma log_message_from_buf clk m record buf : m_body m = LogMessage record →
  copy_from_buf clk m buf = None.
Proof.
  intros Hb. unfold copy_from_buf. rewrite Hb. destruct (mcopy_from_buf clk m buf) as [m'|]; [|done].
  cbn [mbind option_bind body_from_buf]. unfold Log_from_buf, finish_read, COPY_VAL, bind.
  destruct (bool_decide _); [|done]. cbn [assert_ mbind option_bind value LogRecord_s raw ret].
  rewrite bool_decide_false; [done|]. cbn [sizeof LogRecord_s raw get_size]. lia.
Qed.

End node.

(** Another node of the same system. *)
Definition peer (e : setup) (n : Z) : setup :=
  mkSetup (alg e) (wl e) (cfg e) n (g_synth_table_size e) (g_req_per_query e).

Section claims.
Context (e : setup) (d_sub : Z → Z → Z) (d_of : Z → Z).
Context (junk : Z) (junkb : bool) (junkrc : RC) (junks : list Z).

(** C30: messages survive the wire.  For a message of any class but [LogMessage] and
    [LogFlushedMessage] (whose copying fails an assertion, [log_message_fails]), with
    the body that its type has in this configuration, fields of their width, arrays of
    fewer than 2^64 elements, not more requests than a YCSB query has, and a known
    type of TPC-C or PPS transaction: copying it into a buffer with room for it writes
    exactly its size and nothing behind it, passes all assertions on the way, and the
    message another node creates from the buffer has the same type, transaction,
    statistics and fields, except for the fields the configuration does not send and
    the two latencies that are updated on the way. *)
Theorem message_roundtrip n clk clk' m b0 b' buf :
  (∀ a b, is_u64 (d_sub a b)) → (∀ a, is_u64 (d_of a)) →
  header_ok m → body_ok e (m_body m) →
  new_body e junk junkb junkrc junks (rtype m) = Some b0 → received e b0 (m_body m) = Some b' →
  (get_size e (m_body m) ≤ length buf)%nat →
  ∃ buf', copy_to_buf e d_sub d_of clk m buf = Some (stamp_out e d_sub d_of clk m, buf') ∧
    length buf' = length buf ∧
    drop (get_size e (m_body m)) buf' = drop (get_size e (m_body m)) buf ∧
    create_message (peer e n) d_sub d_of junk junkb junkrc junks clk' buf' =
      Some (arrived (peer e n) d_sub d_of clk' (stamp_out e d_sub d_of clk m) b') ∧
    get_size (peer e n) b' = get_size e (m_body m).
Proof.
  intros Hsub Hof Hh Hb Hnew Hr Hl. set (m' := stamp_out e d_sub d_of clk m).
  pose proof (length_enc e _ Hb) as Hlen. pose proof (length_header e m') as Hhl.
  eexists. split; [by apply copy_to_buf_writes|]. fold m'.
  assert (length (enc_header e m' ++ enc e (m_body m)) = get_size e (m_body m)) as Hs
    by (rewrite length_app; lia).
  split_and!.
  - rewrite splice_length; lia.
  - rewrite splice_0 by lia. by rewrite <-Hs, drop_app_length.
  - rewrite splice_0 by lia. rewrite <-app_assoc.
    apply (create_message_reads (peer e n) d_sub d_of junk junkb junkrc junks clk' m' b0 (m_body m)); try done.
    + by apply stamp_out_ok.
    + unfold m', stamp_out. by case_match.
  - apply (received_size (peer e n) b0 (m_body m)). exact Hr.
Qed.

(** A log record never reaches a replica.  Copying a [LogMessage] to a buffer, or
    reading one, always fails: [get_size] leaves the record out, so the assertion
    after the copy compares with a size that is too small. *)
Theorem log_message_fails clk m record buf :
  m_body m = LogMessage record →
  copy_to_buf e d_sub d_of clk m buf = None ∧ copy_from_buf e d_sub d_of clk m buf = None.
Proof. intros. split; eauto using log_message_to_buf, log_message_from_buf. Qed.

End claims.

(** The final message of a transaction under MaaT, from node 0 to node 1. *)
Definition ex_setup : setup := mkSetup MAAT YCSB (mkCfg 2 4 2 1 0) 0 100 10.
Definition ex_msg : Message :=
  mkMsg RFIN 6 UINT64_MAX 0 0 12 0 1 2 3 4 5 0 0 (FinishMessage 0 Abort true 77).
Definition ex_sub (a b : Z) : Z := wrap64 (a - b).

Lemma message_roundtrip_witness :
  ∃ buf', copy_to_buf ex_setup ex_sub wrap64 1000 ex_msg (repeat 0 200) =
      Some (stamp_out ex_setup ex_sub wrap64 1000 ex_msg, buf') ∧
    m_body <$> create_message (peer ex_setup 1) ex_sub wrap64 9 true WAIT [] 2000 buf' =
      Some (FinishMessage 0 Abort true 77).
Proof.
  edestruct (message_roundtrip ex_setup ex_sub wrap64 9 true WAIT [] 1 1000 2000 ex_msg
    (FinishMessage 9 WAIT true 9) (FinishMessage 0 Abort true 77) (repeat 0 200))
    as (buf'&Hc&_&_&Hr&_).
  - intros a b. apply wrap64_u64.
  - apply wrap64_u64.
  - repeat constructor; vm_compute; done.
  - repeat constructor; vm_compute; done.
  - reflexivity.
  - reflexivity.
  - vm_compute. lia.
  - exists buf'. split; [exact Hc|]. rewrite Hr. vm_compute. reflexivity.
Defined.

Lemma log_message_fails_witness :
  copy_to_buf ex_setup ex_sub wrap64 0
    (mkMsg LOG_MSG 6 0 0 0 0 0 0 0 0 0 0 0 0 (LogMessage (repeat 0 56))) (repeat 0 4096) = None.
Proof.
  exact (proj1 (log_message_fails ex_setup ex_sub wrap64 0
    (mkMsg LOG_MSG 6 0 0 0 0 0 0 0 0 0 0 0 0 (LogMessage (repeat 0 56)))
    (repeat 0 56) (repeat 0 4096) eq_refl)).
Defined.

End Message.
