(* ===== verification/MsgThread.v ===== *)
(** * MsgThread: batching messages on their way to the other nodes

    Model of [MessageThread] and [mbuf] (transport/msg_thread.cpp, msg_thread.h) on
    the sending side and of [Message::create_messages] (transport/message.cpp) on the
    receiving side.  A thread has a buffer per node; a message is copied to the
    buffer of its destination, and a buffer is sent when it is full or old.  The
    sockets carry the bytes of a batch unchanged (transport.cpp); what
    [msg_queue.dequeue] returns and the readings of the clock are inputs. *)

From S2P Require Import Prelude Globals Codec Message.

Module MsgThread.
Import Globals.Globals Codec.Codec Message.Message.

(** [mbuf]; [wait] is never read. *)
Record mbuf := mkBuf { buffer : list Z; starttime : Z; b_ptr : nat; cnt : Z }.

(** The thread and the batches it has sent, the last one last. *)
Record thread := mkThd { buffers : list mbuf; sent : list (Z * list Z) }.

(** [g_total_node_cnt] (system/global.cpp) *)
Definition g_total_node_cnt (c : config) : Z :=
  wrap32 (wrap32 (g_node_cnt c + g_client_node_cnt c) + wrap32 (g_repl_cnt c * g_node_cnt c)).

Section thread.
Context (e : setup) (d_sub : Z → Z → Z) (d_of : Z → Z).
Context (g_msg_size : nat) (g_msg_time_limit : Z).

(** Element [i] of the buffer seen as an array of [uint32_t] is set to [v]. *)
Definition store32 (i : nat) (v : Z) (buf : list Z) : option (list Z) :=
  fst <$> COPY_BUF uint32 (wrap32 v) buf (4 * i)%nat.

(** *** [mbuf] *)

Definition reset (dest_id : Z) (b : mbuf) : option mbuf :=
  buf ← store32 0 dest_id (buffer b);
  buf ← store32 1 (g_node_id e) buf;
  Some (mkBuf buf 0 12 0).
Definition fits (s : nat) (b : mbuf) : bool := bool_decide (b_ptr b + s ≤ g_msg_size)%nat.
Definition ready (clk : Z) (b : mbuf) : bool :=
  if cnt b =? 0 then false else g_msg_time_limit <=? wrap64 (clk - starttime b).

(** *** [MessageThread] *)

(** [init]; [fresh] is what [nn_allocmsg] returns for the buffer of a node. *)
Definition init (buffer_cnt : nat) (fresh : nat → list Z) : option thread :=
  bs ← mapM (λ n, reset (Z.of_nat n) (mkBuf (fresh n) 0 0 0)) (seq 0 buffer_cnt);
  Some (mkThd bs []).

Definition send_batch (dest : nat) (t : thread) : option thread :=
  sbuf ← buffers t !! dest;
  ASSERT 0 <? cnt sbuf;
  buf ← store32 2 (cnt sbuf) (buffer sbuf);
  sbuf' ← reset (Z.of_nat dest) (mkBuf buf (starttime sbuf) (b_ptr sbuf) (cnt sbuf));
  Some (mkThd (<[dest := sbuf']> (buffers t))
          (sent t ++ [(Z.of_nat dest, take (b_ptr sbuf) buf)])).

(** The loop of [check_and_send_batches]; [clk i] is the time when buffer [i] is
    looked at. *)
Fixpoint check_loop (clk : nat → Z) (ns : list nat) (t : thread) : option thread :=
  match ns with
  | [] => Some t
  | n :: ns =>
      b ← buffers t !! n;
      t ← (if ready (clk n) b then send_batch n t else Some t);
      check_loop clk ns t
  end.
Definition check_and_send_batches (clk : nat → Z) (t : thread) : option thread :=
  check_loop clk (seq 0 (length (buffers t))) t.

(** Copying a message to the buffer of its destination. *)
Definition buffer_msg (clk now : Z) (m : Message) (b : mbuf) : option mbuf :=
  '(m', tail) ← copy_to_buf e d_sub d_of clk m (drop (b_ptr b) (buffer b));
  Some (mkBuf (take (b_ptr b) (buffer b) ++ tail)
          (if starttime b =? 0 then now else starttime b)
          (b_ptr b + get_size e (m_body m')) (wrap64 (cnt b + 1))).

(** What a call of [run] finds: the message it dequeues, if any, and the clock. *)
Record event := mkEv { ev_msg : option (nat * Message); ev_copy : Z; ev_now : Z; ev_check : nat → Z }.

Definition run (ev : event) (t : thread) : option thread :=
  match ev_msg ev with
  | None => check_and_send_batches (ev_check ev) t
  | Some (dest, m) =>
      ASSERT Z.of_nat dest <? g_total_node_cnt (cfg e);
      ASSERT negb (Z.of_nat dest =? g_node_id e);
      sbuf ← buffers t !! dest;
      t ← (if fits (get_size e (m_body m)) sbuf then Some t
           else ASSERT 0 <? cnt sbuf; send_batch dest t);
      sbuf ← buffers t !! dest;
      sbuf ← buffer_msg (ev_copy ev) (ev_now ev) m sbuf;
      check_and_send_batches (ev_check ev) (mkThd (<[dest := sbuf]> (buffers t)) (sent t))
  end.

Fixpoint run_all (evs : list event) (t : thread) : option thread :=
  match evs with [] => Some t | ev :: evs => t ← run ev t; run_all evs t end.

End thread.

(** ** The receiving side *)

Section receive.
Context (e : setup) (d_sub : Z → Z → Z) (d_of : Z → Z).
Context (junk : Z) (junkb : bool) (junkrc : RC) (junks : list Z).

Fixpoint create_loop (n : nat) (clk : nat → Z) (return_id : Z) (ptr : nat) (data : list Z)
    : option (list Message) :=
  match n with
  | O => Some []
  | S n =>
      msg ← create_message e d_sub d_of junk junkb junkrc junks (clk n) (drop ptr data);
      let msg := set_return_node_id return_id msg in
      msgs ← create_loop n clk return_id (ptr + get_size e (m_body msg)) data;
      Some (msg :: msgs)
  end.

Definition create_messages (clk : nat → Z) (buf : list Z) : option (list Message) :=
  '((dest_id, return_id, txn_cnt), ptr) ←
    (d <- COPY_VAL uint32; r <- COPY_VAL uint32; c <- COPY_VAL uint32; ret (d, r, c)) buf 0%nat;
  ASSERT dest_id =? g_node_id e;
  ASSERT negb (return_id =? g_node_id e);
  ASSERT ISCLIENTN (cfg e) return_id || ISSERVERN (cfg e) return_id || ISREPLICAN (cfg e) return_id;
  create_loop (Z.to_nat txn_cnt) clk return_id ptr buf.

End receive.

(** ** Specification *)

Section spec.
Context (e : setup) (d_sub : Z → Z → Z) (d_of : Z → Z).
Context (junk : Z) (junkb : bool) (junkrc : RC) (junks : list Z).
Context (g_msg_size : nat) (g_msg_time_limit : Z).

(** The message without the two latencies that change on the way. *)
Definition strip (m : Message) : Message := set_lat 0 0 m.

(** What arrives for a message: the fields that are sent, and this node as the sender. *)
Definition delivery (m : Message) : option Message :=
  b0 ← new_body e junk junkb junkrc junks (rtype m);
  b ← received e b0 (m_body m);
  Some (mkMsg (rtype m) (txn_id m) (if is_alg e CALVIN then batch_id m else UINT64_MAX)
          (g_node_id e) 0 (mq_time m) 0 (lat_work_queue_time m) (lat_msg_queue_time m)
          (lat_cc_block_time m) (lat_cc_time m) (lat_process_time m) 0 0 b).

(** A message that can be sent, and one that also fits into a buffer. *)
Definition msg_ok (m : Message) : Prop :=
  header_ok m ∧ body_ok e (m_body m) ∧ is_Some (delivery m).
Definition ev_ok (nodes : nat) (ev : event) : Prop :=
  match ev_msg ev with
  | None => True
  | Some (d, m) => msg_ok m ∧ (12 + get_size e (m_body m) ≤ g_msg_size)%nat ∧
      (d < nodes)%nat ∧ Z.of_nat d < g_total_node_cnt (cfg e) ∧ Z.of_nat d ≠ g_node_id e
  end.

(** The messages handed to the thread for a node, as they are copied. *)
Definition handed (d : nat) (evs : list event) : list Message :=
  omap (λ ev, '(d', m) ← ev_msg ev;
    if bool_decide (d' = d) then Some (stamp_out e d_sub d_of (ev_copy ev) m) else None) evs.

(** The batches sent to a node. *)
Definition sent_to (d : nat) (t : thread) : list (list Z) :=
  snd <$> filter (λ p, p.1 = Z.of_nat d) (sent t).

(** *** Buffers *)

Definition wire (m : Message) : list Z := enc_header e m ++ enc e (m_body m).
Abbreviation u32 := (image uint32).
Definition batch (d : nat) (ms : list Message) : list Z :=
  (u32 (Z.of_nat d) ++ u32 (g_node_id e) ++ u32 (zlen ms)) ++ (ms ≫= wire).

Record holds (d : nat) (b : mbuf) (ms : list Message) : Prop := {
  h_ok : Forall msg_ok ms;
  h_len : length (buffer b) = g_msg_size;
  h_ptr : b_ptr b = (12 + length (ms ≫= wire))%nat;
  h_cnt : cnt b = zlen ms;
  h_fit : (b_ptr b ≤ g_msg_size)%nat;
  h_buf : ∃ x rest, length x = 4%nat ∧
    buffer b = (u32 (Z.of_nat d) ++ u32 (g_node_id e) ++ x) ++ (ms ≫= wire) ++ rest }.

Record inv (nodes : nat) (evs : list event) (t : thread) : Prop := {
  i_len : length (buffers t) = nodes;
  i_buf : ∀ d b, buffers t !! d = Some b → ∃ bs ms, holds d b ms ∧
    Forall (Forall msg_ok) bs ∧ Forall (λ l, zlen l < u32_mod) bs ∧
    sent_to d t = batch d <$> bs ∧ concat bs ++ ms = handed d evs }.

Context (Hsub : ∀ a b, is_u64 (d_sub a b)) (Hof : ∀ a, is_u64 (d_of a)).
Context (Hsize : (12 ≤ g_msg_size)%nat) (Hsize' : Z.of_nat g_msg_size < u32_mod).
Context (Hme : is_u32 (g_node_id e)).

Lemma length_u32 z : length (u32 z) = 4%nat.
Proof. apply le_bytes_length. Qed.

Lemma wire_length m : msg_ok m → length (wire m) = get_size e (m_body m).
Proof.
  intros (_&Hb&_). unfold wire. rewrite length_app, length_header. by apply length_enc.
Qed.

Lemma wires_length ms : (length ms ≤ length (ms ≫= wire))%nat.
Proof.
  induction ms as [|m ms IH]; [done|]. rewrite bind_cons, length_app. simpl.
  assert (1 ≤ length (wire m))%nat; [|lia].
  unfold wire. rewrite length_app, length_header. unfold mget_size. lia.
Qed.

Lemma holds_cnt d b ms : holds d b ms → zlen ms < u32_mod.
Proof. intros []. pose proof (wires_length ms). lia. Qed.

Lemma store32_app i v buf pre x post : is_u32 v → length pre = (4 * i)%nat → length x = 4%nat →
  buf = pre ++ x ++ post → store32 i v buf = Some (pre ++ u32 v ++ post).
Proof.
  intros Hv Hp Hx ->. unfold store32. rewrite wrap32_small, <-Hp by done.
  assert (writes (COPY_BUF uint32 v) (u32 v)) as Hw by (by apply (writes_COPY_BUF uint32)).
  rewrite Hw by (rewrite !length_app, length_u32; lia). cbn [fmap option_fmap option_map fst].
  f_equal. apply splice_app. by rewrite length_u32.
Qed.

Lemma reset_holds d b : Z.of_nat d < u32_mod → length (buffer b) = g_msg_size →
  ∃ b', reset e (Z.of_nat d) b = Some b' ∧ holds d b' [].
Proof.
  intros Hd Hl. destruct (split_at (buffer b) 4 8) as (w0&w12&rest&Hbuf&H0&H12); [lia|].
  destruct (split_at w12 4 4) as (w1&w2&w3&->&H1&H2); [lia|].
  assert (w3 = []) as -> by (apply length_zero_iff_nil; rewrite !length_app in H12; lia).
  rewrite app_nil_r in *. unfold reset.
  rewrite (store32_app 0 _ _ [] w0 ((w1 ++ w2) ++ rest)); [|unfold is_u32; lia|done..].
  cbn [mbind option_bind].
  rewrite (store32_app 1 _ _ (u32 (Z.of_nat d)) w1 (w2 ++ rest));
    [|done|by rewrite length_u32|done|by rewrite <-!app_assoc].
  cbn [mbind option_bind]. eexists. split; [done|].
  split; cbn [buffer b_ptr cnt]; [constructor| |done|done|lia|].
  - rewrite Hbuf, !length_app in Hl. rewrite !length_app, !length_u32. lia.
  - exists w2, rest. split; [done|]. by rewrite <-!app_assoc.
Qed.

Lemma stamp_out_body clk m : m_body (stamp_out e d_sub d_of clk m) = m_body m.
Proof. unfold stamp_out. by destruct (_ || _). Qed.

Lemma stamp_out_delivery clk m : delivery (stamp_out e d_sub d_of clk m) = delivery m.
Proof. unfold stamp_out. by destruct (_ || _). Qed.

Lemma stamp_out_msg_ok clk m : msg_ok m → msg_ok (stamp_out e d_sub d_of clk m).
Proof.
  intros (Hh&Hb&Hd). unfold msg_ok. rewrite stamp_out_body, stamp_out_delivery.
  split; [by apply stamp_out_ok|done].
Qed.

Lemma buffer_msg_holds d b ms clk now m : holds d b ms → msg_ok m →
  fits g_msg_size (get_size e (m_body m)) b = true →
  ∃ b', buffer_msg e d_sub d_of clk now m b = Some b' ∧
    holds d b' (ms ++ [stamp_out e d_sub d_of clk m]).
Proof.
  intros Hh Hm Hf. apply bool_decide_eq_true in Hf. pose proof (holds_cnt d b ms Hh) as Hcnt.
  destruct Hh as [Hok Hlen Hptr Hc Hfit (x&rest&Hx&Hbuf)]. pose proof Hm as (Hhd&Hb&_).
  pose proof (stamp_out_msg_ok clk m Hm) as Hm'.
  unfold buffer_msg. set (pre := (u32 (Z.of_nat d) ++ u32 (g_node_id e) ++ x) ++ (ms ≫= wire)).
  assert (length pre = b_ptr b) as Hpre.
  { unfold pre. rewrite !length_app, !length_u32. lia. }
  rewrite app_assoc in Hbuf. fold pre in Hbuf. rewrite Hbuf, <-Hpre, drop_app_length, take_app_length.
  rewrite Hbuf, length_app in Hlen.
  rewrite copy_to_buf_writes by (done || lia). cbn [mbind option_bind].
  rewrite stamp_out_body. eexists. split; [done|].
  pose proof (wire_length _ Hm') as Hw. rewrite stamp_out_body in Hw. unfold wire in Hw at 1.
  rewrite stamp_out_body in Hw. rewrite splice_0 by lia.
  assert (((ms ++ [stamp_out e d_sub d_of clk m]) ≫= wire) =
    (ms ≫= wire) ++ enc_header e (stamp_out e d_sub d_of clk m) ++ enc e (m_body m)) as Hbind.
  { rewrite bind_app, bind_cons. change ([] ≫= wire) with (@nil Z). rewrite app_nil_r. unfold wire at 2. by rewrite stamp_out_body. }
  split; cbn [buffer b_ptr cnt].
  - apply Forall_app. split; [done|]. by constructor.
  - rewrite !length_app, length_drop. rewrite length_app in Hw. lia.
  - rewrite Hbind, length_app, Hw. lia.
  - rewrite Hc, length_app, Nat2Z.inj_add, wrap64_small; [done|]. unfold is_u64, u64_mod, u32_mod in *. lia.
  - lia.
  - exists x, (drop (length (enc_header e (stamp_out e d_sub d_of clk m) ++ enc e (m_body m))) rest).
    split; [done|]. unfold pre. rewrite Hbind, <-!app_assoc. done.
Qed.

Lemma store_cnt d b ms : holds d b ms → ∃ rest,
  store32 2 (cnt b) (buffer b) = Some (batch d ms ++ rest) ∧
  length (batch d ms) = b_ptr b ∧ length (batch d ms ++ rest) = g_msg_size.
Proof.
  intros Hh. pose proof (holds_cnt d b ms Hh) as Hcnt.
  destruct Hh as [Hok Hlen Hptr Hc Hfit (x&rest&Hx&Hbuf)]. exists rest.
  assert (length (batch d ms) = b_ptr b) as Hb.
  { unfold batch. rewrite !length_app, !length_u32. lia. }
  split_and!; [|done|].
  - rewrite (store32_app 2 _ _ (u32 (Z.of_nat d) ++ u32 (g_node_id e)) x ((ms ≫= wire) ++ rest)).
    + unfold batch. by rewrite Hc, <-!app_assoc.
    + rewrite Hc. unfold is_u32. lia.
    + by rewrite length_app, !length_u32.
    + done.
    + rewrite Hbuf. by rewrite <-!app_assoc.
  - rewrite Hbuf, !length_app, !length_u32 in Hlen. rewrite length_app, Hb. lia.
Qed.

Lemma send_batch_inv nodes evs t d b : Z.of_nat nodes < u32_mod → inv nodes evs t →
  buffers t !! d = Some b → 0 < cnt b →
  ∃ t' b', send_batch e d t = Some t' ∧ inv nodes evs t' ∧
    buffers t' !! d = Some b' ∧ holds d b' [].
Proof.
  intros Hn [Hl Hi] Hd Hc. pose proof (lookup_lt_Some _ _ _ Hd) as Hdl.
  destruct (Hi d b Hd) as (bs&ms&Hh&Hbs&Hz&Hs&Hlog).
  destruct (store_cnt d b ms Hh) as (rest&Hst&Hbl&Hrl).
  destruct (reset_holds d (mkBuf (batch d ms ++ rest) (starttime b) (b_ptr b) (cnt b)))
    as (b'&Hr&Hh'); [lia|done|].
  unfold send_batch. rewrite Hd. cbn [mbind option_bind]. rewrite (proj2 (Z.ltb_lt _ _)) by done.
  cbn [assert_ mbind option_bind]. rewrite Hst. cbn [mbind option_bind].
  rewrite Hr. cbn [mbind option_bind]. eexists _, b'. split; [done|]. cbn [buffers].
  rewrite <-Hbl, take_app_length. split_and!; [|by apply list_lookup_insert_eq|done].
  split; cbn [buffers]; [by rewrite length_insert|]. intros d' c Hd'.
  unfold sent_to. cbn [sent]. rewrite filter_app, fmap_app.
  destruct (decide (d' = d)) as [->|Hne].
  - rewrite list_lookup_insert_eq in Hd' by done. injection Hd' as <-.
    rewrite filter_cons_True by done. exists (bs ++ [ms]), []. split_and!.
    + done.
    + apply Forall_app. split; [done|]. constructor; [apply Hh|done].
    + apply Forall_app. split; [done|]. constructor; [by eapply holds_cnt|done].
    + rewrite fmap_app. unfold sent_to in Hs. by rewrite Hs.
    + rewrite concat_app. simpl. rewrite !app_nil_r. done.
  - rewrite list_lookup_insert_ne in Hd' by done.
    rewrite filter_cons_False by (cbn; lia). rewrite filter_nil, fmap_nil, app_nil_r. by apply Hi.
Qed.

(** *** The thread *)

Lemma check_loop_inv nodes evs clk ns t : Z.of_nat nodes < u32_mod → inv nodes evs t →
  Forall (λ n, n < nodes)%nat ns →
  ∃ t', check_loop e g_msg_time_limit clk ns t = Some t' ∧ inv nodes evs t'.
Proof.
  intros Hn. revert t. induction ns as [|n ns IH]; intros t Hi Hns; [by exists t|].
  apply Forall_cons in Hns as [Hl Hns]. simpl.
  destruct (lookup_lt_is_Some_2 (buffers t) n) as [b Hb]; [rewrite (i_len _ _ _ Hi); done|].
  rewrite Hb. cbn [mbind option_bind]. destruct (ready g_msg_time_limit (clk n) b) eqn:Hr.
  - destruct (send_batch_inv nodes evs t n b) as (t'&b'&Hs&Hi'&_); [done..| |].
    + destruct (i_buf _ _ _ Hi n b Hb) as (_&ms&Hh&_). rewrite (h_cnt _ _ _ Hh).
      unfold ready in Hr. rewrite (h_cnt _ _ _ Hh) in Hr. destruct ms; [done|simpl; lia].
    + rewrite Hs. cbn [mbind option_bind]. by apply IH.
  - cbn [mbind option_bind]. by apply IH.
Qed.

Lemma check_inv nodes evs clk t : Z.of_nat nodes < u32_mod → inv nodes evs t →
  ∃ t', check_and_send_batches e g_msg_time_limit clk t = Some t' ∧ inv nodes evs t'.
Proof.
  intros Hn Hi. apply check_loop_inv; [done..|]. rewrite (i_len _ _ _ Hi).
  apply Forall_forall. intros n Hin%elem_of_seq. lia.
Qed.

Lemma handed_snoc d evs ev : handed d (evs ++ [ev]) = handed d evs ++ handed d [ev].
Proof. unfold handed. by rewrite omap_app. Qed.

(** The buffer of the destination after it was sent if the message does not fit. *)
Lemma make_room nodes evs t d b m : Z.of_nat nodes < u32_mod → inv nodes evs t →
  (12 + get_size e (m_body m) ≤ g_msg_size)%nat → buffers t !! d = Some b →
  ∃ t' b' bs ms,
    (if fits g_msg_size (get_size e (m_body m)) b then Some t
     else ASSERT 0 <? cnt b; send_batch e d t) = Some t' ∧
    inv nodes evs t' ∧ buffers t' !! d = Some b' ∧ fits g_msg_size (get_size e (m_body m)) b' = true ∧
    holds d b' ms ∧ Forall (Forall msg_ok) bs ∧ Forall (λ l, zlen l < u32_mod) bs ∧
    sent_to d t' = batch d <$> bs ∧ concat bs ++ ms = handed d evs.
Proof.
  intros Hn Hi Hm Hb. destruct (fits _ _ b) eqn:Hf.
  - destruct (i_buf _ _ _ Hi d b Hb) as (bs&ms&?&?&?&?&?).
    by exists t, b, bs, ms.
  - destruct (i_buf _ _ _ Hi d b Hb) as (_&ms&Hh&_).
    assert (0 < cnt b) as Hc.
    { rewrite (h_cnt _ _ _ Hh). destruct ms; [|simpl; lia]. apply bool_decide_eq_false in Hf.
      rewrite (h_ptr _ _ _ Hh) in Hf. simpl in Hf. lia. }
    rewrite (proj2 (Z.ltb_lt _ _)) by done. cbn [assert_ mbind option_bind].
    destruct (send_batch_inv nodes evs t d b Hn Hi Hb Hc) as (t'&b'&Hs&Hi'&Hb'&Hh').
    destruct (i_buf _ _ _ Hi' d b' Hb') as (bs&ms'&Hh''&?&?&?&?).
    exists t', b', bs, ms'. split_and!; [done..| |done|done|done|done|done].
    apply bool_decide_eq_true. rewrite (h_ptr _ _ _ Hh'). simpl. lia.
Qed.

Lemma run_inv nodes evs ev t : Z.of_nat nodes < u32_mod → inv nodes evs t →
  ev_ok nodes ev →
  ∃ t', run e d_sub d_of g_msg_size g_msg_time_limit ev t = Some t' ∧ inv nodes (evs ++ [ev]) t'.
Proof.
  intros Hn Hi Hev. unfold run, ev_ok in *. destruct (ev_msg ev) as [[d m]|] eqn:Hmsg.
  - destruct Hev as (Hm&Hs&Hd&Htot&Hself).
    destruct (lookup_lt_is_Some_2 (buffers t) d) as [b Hb]; [rewrite (i_len _ _ _ Hi); done|].
    rewrite (proj2 (Z.ltb_lt _ _)), (proj2 (Z.eqb_neq _ _)) by done.
    cbn [assert_ mbind option_bind negb]. rewrite Hb. cbn [mbind option_bind].
    destruct (make_room nodes evs t d b m Hn Hi Hs Hb)
      as (t1&b1&bs&ms&Hroom&Hi1&Hb1&Hf1&Hh1&Hbs&Hz&Hst&Hlog).
    rewrite Hroom. cbn [mbind option_bind]. rewrite Hb1. cbn [mbind option_bind].
    destruct (buffer_msg_holds d b1 ms (ev_copy ev) (ev_now ev) m Hh1 Hm Hf1) as (b2&Hb2&Hh2).
    rewrite Hb2. cbn [mbind option_bind]. apply check_inv; [done|].
    pose proof (lookup_lt_Some _ _ _ Hb1) as Hl1.
    split; cbn [buffers]; [rewrite length_insert; apply (i_len _ _ _ Hi1)|].
    intros d' c Hc. rewrite handed_snoc.
    assert (handed d' [ev] = if bool_decide (d = d') then [stamp_out e d_sub d_of (ev_copy ev) m] else [])
      as -> by (unfold handed; simpl; rewrite Hmsg; simpl; by case_bool_decide).
    destruct (decide (d' = d)) as [->|Hne].
    + rewrite list_lookup_insert_eq in Hc by done. injection Hc as <-. rewrite bool_decide_true by done.
      exists bs, (ms ++ [stamp_out e d_sub d_of (ev_copy ev) m]). rewrite app_assoc, Hlog. done.
    + rewrite list_lookup_insert_ne in Hc by done. rewrite bool_decide_false, app_nil_r by congruence.
      by apply (i_buf _ _ _ Hi1).
  - destruct (check_inv nodes evs (ev_check ev) t Hn Hi) as (t'&Ht'&Hi'). exists t'. split; [done|].
    split; [apply (i_len _ _ _ Hi')|]. intros d b Hb. rewrite handed_snoc.
    assert (handed d [ev] = []) as -> by (unfold handed; simpl; by rewrite Hmsg).
    rewrite app_nil_r. by apply (i_buf _ _ _ Hi').
Qed.

Lemma run_all_inv nodes evs evs' t : Z.of_nat nodes < u32_mod → inv nodes evs t →
  Forall (ev_ok nodes) evs' →
  ∃ t', run_all e d_sub d_of g_msg_size g_msg_time_limit evs' t = Some t' ∧ inv nodes (evs ++ evs') t'.
Proof.
  intros Hn. revert evs t. induction evs' as [|ev evs' IH]; intros evs t Hi Hev.
  - exists t. by rewrite app_nil_r.
  - apply Forall_cons in Hev as [Hev Hevs]. destruct (run_inv nodes evs ev t Hn Hi Hev) as (t1&H1&Hi1).
    destruct (IH (evs ++ [ev]) t1 Hi1 Hevs) as (t'&H'&Hi'). exists t'. simpl. rewrite H1.
    rewrite <-app_assoc in Hi'. done.
Qed.

Lemma init_inv nodes fresh : Z.of_nat nodes < u32_mod → (∀ n, length (fresh n) = g_msg_size) →
  ∃ t, init e nodes fresh = Some t ∧ inv nodes [] t.
Proof.
  intros Hn Hf. unfold init.
  assert (∃ bs, mapM (λ n, reset e (Z.of_nat n) (mkBuf (fresh n) 0 0 0)) (seq 0 nodes) = Some bs ∧
    length bs = nodes ∧ ∀ d b, bs !! d = Some b → holds d b []) as (bs&Hbs&Hl&Hh).
  { destruct (mapM (λ n, reset e (Z.of_nat n) (mkBuf (fresh n) 0 0 0)) (seq 0 nodes)) as [bs|] eqn:E.
    - apply mapM_Some in E. exists bs. pose proof (Forall2_length _ _ _ E) as Hlen.
      rewrite length_seq in Hlen. split_and!; [done..|]. intros d b Hb.
      pose proof (lookup_lt_Some _ _ _ Hb). assert (seq 0 nodes !! d = Some d) as Hd
        by (apply lookup_seq; split; lia).
      pose proof (Forall2_lookup_lr _ _ _ _ _ _ E Hd Hb) as Hr. simpl in Hr.
      destruct (reset_holds d (mkBuf (fresh d) 0 0 0)) as (b'&Hb'&Hh); [lia|apply Hf|]. by simplify_eq.
    - apply mapM_None, Exists_exists in E as (n&Hin%elem_of_seq&Hr).
      destruct (reset_holds n (mkBuf (fresh n) 0 0 0)) as (b'&Hb'&_); [lia|apply Hf|]. by simplify_eq. }
  rewrite Hbs. cbn [mbind option_bind]. eexists. split; [done|]. split; [done|].
  intros d b Hb. exists [], []. split_and!; [by apply Hh|constructor..|done|done].
Qed.

(** *** Receiving a batch *)

Abbreviation create_message' d := (create_message (peer e (Z.of_nat d)) d_sub d_of junk junkb junkrc junks).
Abbreviation create_loop' d := (create_loop (peer e (Z.of_nat d)) d_sub d_of junk junkb junkrc junks).

Lemma create_one d clk m post : msg_ok m → ∃ msg,
  create_message' d clk (wire m ++ post) = Some msg ∧
  get_size (peer e (Z.of_nat d)) (m_body msg) = length (wire m) ∧
  Some (strip (set_return_node_id (g_node_id e) msg)) = delivery m.
Proof.
  intros Hm. pose proof (wire_length m Hm) as Hw. destruct Hm as (Hh&Hb&dm&Hd). unfold delivery in Hd.
  destruct (new_body _ _ _ _ _ _) as [b0|] eqn:Hnew; [|done]. cbn [mbind option_bind] in Hd.
  destruct (received e b0 (m_body m)) as [b'|] eqn:Hr; [|done]. cbn [mbind option_bind] in Hd.
  eexists. split; [|split].
  - unfold wire. rewrite <-app_assoc.
    by apply (create_message_reads (peer e (Z.of_nat d)) _ _ _ _ _ _ _ _ b0 _ b').
  - rewrite Hw, <-(received_size e b0 (m_body m) b' Hr).
    unfold arrived, stamp_in. by destruct (_ || _).
  - unfold delivery. rewrite Hnew. cbn [mbind option_bind]. rewrite Hr. cbn [mbind option_bind].
    unfold arrived, stamp_in. by destruct (_ || _).
Qed.

Lemma create_loop_spec d clk ms pre post : Forall msg_ok ms → ∃ msgs,
  create_loop' d (length ms) clk (g_node_id e) (length pre) (pre ++ (ms ≫= wire) ++ post) = Some msgs ∧
  Some ∘ strip <$> msgs = delivery <$> ms.
Proof.
  intros Hok. revert pre. induction Hok as [|m ms Hm _ IH]; intros pre; [by exists []|].
  rewrite bind_cons, <-(app_assoc (wire m)). cbn [length create_loop]. rewrite drop_app_length.
  destruct (create_one d (clk (length ms)) m ((ms ≫= wire) ++ post) Hm) as (msg&Hc&Hs&Hd).
  rewrite Hc. cbn [mbind option_bind]. cbv zeta.
  destruct (IH (pre ++ wire m)) as (msgs&Hl&Heq).
  rewrite length_app, <-app_assoc, <-Hs in Hl. change (m_body (set_return_node_id _ msg)) with (m_body msg).
  rewrite Hl. cbn [mbind option_bind]. eexists. split; [done|]. rewrite !fmap_cons, Heq. f_equal. done.
Qed.

Definition known_node (n : Z) : bool := ISCLIENTN (cfg e) n || ISSERVERN (cfg e) n || ISREPLICAN (cfg e) n.

Lemma create_messages_spec d clk ms : Forall msg_ok ms → zlen ms < u32_mod →
  Z.of_nat d < u32_mod → Z.of_nat d ≠ g_node_id e → known_node (g_node_id e) = true →
  ∃ msgs, create_messages (peer e (Z.of_nat d)) d_sub d_of junk junkb junkrc junks clk (batch d ms) = Some msgs ∧
    Some ∘ strip <$> msgs = delivery <$> ms.
Proof.
  intros Hok Hl Hd Hne Hk. unfold create_messages.
  assert (reads (d <- COPY_VAL uint32; r <- COPY_VAL uint32; c <- COPY_VAL uint32; ret (d, r, c))
    (u32 (Z.of_nat d) ++ u32 (g_node_id e) ++ u32 (zlen ms))
    (Z.of_nat d, g_node_id e, zlen ms)) as Hr.
  { eapply reads_bind; [by apply (reads_COPY_VAL uint32); unfold Codec.fits; simpl; unfold u32_mod in *; lia|].
    eapply reads_bind; [by apply (reads_COPY_VAL uint32)|].
    apply (reads_last _ (λ c, (Z.of_nat d, g_node_id e, c))).
    apply (reads_COPY_VAL uint32); unfold Codec.fits; simpl; unfold u32_mod in *; lia. }
  rewrite (Hr [] (ms ≫= wire) : _ (batch d ms) 0%nat = _). cbn [mbind option_bind].
  cbn [peer g_node_id cfg]. rewrite Z.eqb_refl, (proj2 (Z.eqb_neq _ _)) by congruence.
  cbn [assert_ mbind option_bind negb]. rewrite (Hk : _ || _ || _ = true).
  cbn [assert_ mbind option_bind]. rewrite Nat2Z.id.
  destruct (create_loop_spec d clk ms (u32 (Z.of_nat d) ++ u32 (g_node_id e) ++ u32 (zlen ms)) [] Hok)
    as (msgs&Hc&Hs).
  exists msgs. split; [|done]. unfold batch. rewrite app_nil_r in Hc. exact Hc.
Qed.

(** The messages dequeued for a node. *)
Definition posted (d : nat) (evs : list event) : list Message :=
  omap (λ ev, '(d', m) ← ev_msg ev; if bool_decide (d' = d) then Some m else None) evs.

Lemma delivery_handed d evs : delivery <$> handed d evs = delivery <$> posted d evs.
Proof.
  unfold handed, posted. induction evs as [|ev evs IH]; [done|]. cbn [omap list_omap].
  destruct (ev_msg ev) as [[d' m]|]; cbn [mbind option_bind]; [|done].
  case_bool_decide; [|done]. rewrite !fmap_cons, IH, stamp_out_delivery. done.
Qed.

Lemma decode_batches d clk bs : Forall (Forall msg_ok) bs → Forall (λ l, zlen l < u32_mod) bs →
  Z.of_nat d < u32_mod → Z.of_nat d ≠ g_node_id e → known_node (g_node_id e) = true →
  ∃ msgss, mapM (create_messages (peer e (Z.of_nat d)) d_sub d_of junk junkb junkrc junks clk)
      (batch d <$> bs) = Some msgss ∧
    Some ∘ strip <$> concat msgss = delivery <$> concat bs.
Proof.
  intros Hok Hz Hd Hne Hk. induction Hok as [|ms bs Hms _ IH]; [by exists []|].
  apply Forall_cons in Hz as [Hz1 Hz2]. destruct (IH Hz2) as (msgss&Hm&Heq).
  destruct (create_messages_spec d clk ms Hms Hz1 Hd Hne Hk) as (msgs&Hc&Hs).
  exists (msgs :: msgss). rewrite fmap_cons. cbn [mapM]. rewrite Hc. cbn [mbind option_bind].
  rewrite Hm. split; [done|]. cbn [concat]. by rewrite !fmap_app, Heq, Hs.
Qed.

(** C31: no message between two nodes is lost, duplicated, reordered or mangled.  For
    every sequence of calls of [run] in which the dequeued messages are for other
    nodes, are well-formed (no log messages) and each fit into an empty buffer with the
    batch header ([12 + size <= g_msg_size]), and whatever the clock says: the calls
    succeed, and what another node creates from the batches sent to it is what was
    dequeued for it, in order, up to the messages still in its buffer. *)
Theorem batches_deliver nodes fresh evs d :
  known_node (g_node_id e) = true → Z.of_nat nodes < u32_mod →
  (∀ n, length (fresh n) = g_msg_size) → Forall (ev_ok nodes) evs →
  (d < nodes)%nat → Z.of_nat d ≠ g_node_id e →
  ∃ t b, (t0 ← init e nodes fresh; run_all e d_sub d_of g_msg_size g_msg_time_limit evs t0) = Some t ∧
    buffers t !! d = Some b ∧
    ∀ clk, ∃ msgss,
      mapM (create_messages (peer e (Z.of_nat d)) d_sub d_of junk junkb junkrc junks clk) (sent_to d t) =
        Some msgss ∧
      Some ∘ strip <$> concat msgss =
        take (length (posted d evs) - Z.to_nat (cnt b)) (delivery <$> posted d evs).
Proof.
  intros Hk Hn Hf Hev Hd Hne. destruct (init_inv nodes fresh Hn Hf) as (t0&Ht0&Hi0).
  destruct (run_all_inv nodes [] evs t0 Hn Hi0 Hev) as (t&Ht&Hi).
  destruct (lookup_lt_is_Some_2 (buffers t) d) as [b Hb]; [by rewrite (i_len _ _ _ Hi)|].
  exists t, b. rewrite Ht0. cbn [mbind option_bind]. split_and!; [done..|]. intros clk.
  destruct (i_buf _ _ _ Hi d b Hb) as (bs&ms&Hh&Hbs&Hz&Hs&Hlog). simpl in Hlog.
  destruct (decode_batches d clk bs Hbs Hz) as (msgss&Hm&Heq); [lia|done|done|].
  exists msgss. rewrite Hs. split; [done|].
  rewrite Heq, <-(length_fmap delivery), <-delivery_handed, <-Hlog, fmap_app, length_app, !length_fmap.
  rewrite (h_cnt _ _ _ Hh), Nat2Z.id, Nat.add_sub.
  by rewrite take_app_length' by (by rewrite length_fmap).
Qed.

End spec.

(** Three final messages from node 0 to node 1 through a buffer with room for two. *)
Definition ex_ev : event := mkEv (Some (1%nat, ex_msg)) 1000 1000 (λ _, 1000).

Lemma batches_deliver_witness : ∃ t msgss,
  (t0 ← init ex_setup 3 (λ _, repeat 0 256);
   run_all ex_setup ex_sub wrap64 256 5000 [ex_ev; ex_ev; ex_ev] t0) = Some t ∧
  mapM (create_messages (peer ex_setup 1) ex_sub wrap64 9 true WAIT [] (λ _, 2000)) (sent_to 1 t) = Some msgss.
Proof.
  destruct (batches_deliver ex_setup ex_sub wrap64 9 true WAIT [] 256 5000) with
    (nodes := 3%nat) (fresh := λ _ : nat, repeat 0 256) (evs := [ex_ev; ex_ev; ex_ev]) (d := 1%nat)
    as (t&b&Ht&_&Hm).
  - intros. apply wrap64_u64.
  - apply wrap64_u64.
  - lia.
  - unfold u32_mod. lia.
  - cbn. unfold is_u32, u32_mod. lia.
  - reflexivity.
  - unfold u32_mod. lia.
  - intros. apply repeat_length.
  - assert (ev_ok ex_setup 9 true WAIT [] 256 3 ex_ev) as H.
    { unfold ev_ok. cbn [ev_msg ex_ev]. split; [|split; [vm_compute; lia|]].
      - split; [|split].
        + repeat constructor; vm_compute; done.
        + repeat constructor; vm_compute; done.
        + eexists. reflexivity.
      - split; [lia|]. split; [reflexivity|]. cbn. lia. }
    repeat (apply Forall_cons_2; [exact H|]). apply Forall_nil_2.
  - lia.
  - cbn. lia.
  - destruct (Hm (λ _, 2000)) as (msgss&Hd&_). exists t, msgss. split; [exact Ht|exact Hd].
Defined.

End MsgThread.
