(* ===== verification/TxnAccess.v ===== *)
(** * TxnAccess: serializability of two-phase locking

    Model of how a transaction reaches rows under NO_WAIT and WAIT_DIE, serializable
    isolation, with rollback: [row_t::get_row], [get_row_post_wait] and [return_row]
    (storage/row.cpp), [TxnManager::get_row], [get_row_post_wait], [cleanup_row] and
    [cleanup] (system/txn.cpp).  What the lock manager promises is a type class,
    [LockService]; the theorems about transactions are proved against it, and the
    lock table of [LockTable] is an instance.  Between its calls a transaction reads
    and writes the rows it has; the calls of all transactions interleave, and
    [cleanup] of one transaction is a step per row. *)

From S2P Require Import Prelude RowLock LockTable.

Module TxnAccess.

Abbreviation row_ptr := nat.
Abbreviation txn_ptr := nat.

(** ** What the lock manager promises *)

(** [held l i t m]: transaction [t] holds row [i] in mode [m]; [pend] also counts the
    requests that still wait.  [get] and [release] are the calls of [lock_get] and
    [lock_release] with their results; [begin] and [finish] are a transaction getting
    its manager and giving it back. *)
Class LockService (L : Type) := {
  held : L → row_ptr → txn_ptr → lock_t → Prop;
  pend : L → row_ptr → txn_ptr → lock_t → Prop;
  active : L → txn_ptr → Prop;
  is_row : L → row_ptr → Prop;
  lock_ready : L → txn_ptr → bool;
  get : row_ptr → lock_t → txn_ptr → L → RC → L → Prop;
  release : row_ptr → txn_ptr → L → L → Prop;
  begin : txn_ptr → L → L → Prop;
  finish : txn_ptr → L → L → Prop;
  lock_inv : L → Prop }.

Section promises.
Context {L : Type} `{LockService L}.

Record get_spec (i : row_ptr) (m : lock_t) (t : txn_ptr) (l : L) (rc : RC) (l' : L) : Prop := {
  gs_inv : lock_inv l';
  gs_rc : rc = RCOK ∨ rc = WAIT ∨ rc = Abort;
  gs_new : rc = RCOK → held l' i t m;
  gs_wait : rc = WAIT → pend l' i t m;
  gs_held j t' m' : held l j t' m' → held l' j t' m';
  gs_pend j t' m' : pend l j t' m' → pend l' j t' m';
  gs_only j t' m' : pend l' j t' m' → pend l j t' m' ∨ (j = i ∧ t' = t ∧ rc ≠ Abort);
  gs_active t' : active l' t' ↔ active l t' }.

Record release_spec (i : row_ptr) (t : txn_ptr) (l l' : L) : Prop := {
  rs_inv : lock_inv l';
  rs_held j t' m' : held l j t' m' → (j, t') ≠ (i, t) → held l' j t' m';
  rs_pend j t' m' : pend l j t' m' → (j, t') ≠ (i, t) → pend l' j t' m';
  rs_only j t' m' : pend l' j t' m' → pend l j t' m' ∧ (j, t') ≠ (i, t);
  rs_active t' : active l' t' ↔ active l t' }.

(** Nothing but the set of active transactions changes. *)
Record same_locks (l l' : L) : Prop := {
  sl_inv : lock_inv l';
  sl_held j t m : held l j t m ↔ held l' j t m;
  sl_pend j t m : pend l j t m ↔ pend l' j t m }.

End promises.

(** A request by an active transaction for a row it has no request on, a release by a
    holder, and the end of a transaction without requests do what they should; the
    first two always return. *)
Class LockLaws (L : Type) `{LockService L} := {
  exclusive l i t t' m : lock_inv l → held l i t LOCK_EX → held l i t' m → t' = t;
  ready_held l i t m : lock_inv l → lock_ready l t = true → pend l i t m → held l i t m;
  held_pend l i t m : held l i t m → pend l i t m;
  get_total i m t l : lock_inv l → is_row l i → active l t → (∀ m', ¬ pend l i t m') →
    m ≠ LOCK_NONE → ∃ rc l', get i m t l rc l';
  get_does i m t l rc l' : lock_inv l → active l t → (∀ m', ¬ pend l i t m') →
    m ≠ LOCK_NONE → get i m t l rc l' → get_spec i m t l rc l';
  release_total i t m l : lock_inv l → held l i t m → ∃ l', release i t l l';
  release_does i t m l l' : lock_inv l → held l i t m → release i t l l' → release_spec i t l l';
  begin_does t l l' : lock_inv l → ¬ active l t → begin t l l' →
    same_locks l l' ∧ ∀ t', active l' t' ↔ active l t' ∨ t' = t;
  finish_does t l l' : lock_inv l → (∀ i m, ¬ pend l i t m) → finish t l l' →
    same_locks l l' ∧ ∀ t', active l' t' ↔ active l t' ∧ t' ≠ t }.

(** ** Transactions *)

Section client.
Context {V : Type} `{EqDecision V}.

(** [Access]; [data] is the row itself under locking, [orig_data] is the copy a write
    keeps. *)
Record Access := mkAcc { a_type : access_t; a_row : row_ptr; a_orig : option V }.

(** What a transaction did to rows, for the specification. *)
Inductive op := Read (i : row_ptr) (v : V) | Write (i : row_ptr) (v : V).

(** Not started, running, or in [cleanup] with the given outcome. *)
Inductive phase := Idle | Running | Cleaning (rc : RC).

Record txn := mkTxn {
  t_phase : phase;
  t_acc : list Access;
  t_last : option (row_ptr * access_t);  (* last_row and last_type while it waits *)
  t_log : list op }.

Definition new_txn (p : phase) : txn := mkTxn p [] None [].

(** *** [row_t] *)

Definition lock_of (type : access_t) : lock_t :=
  match type with RD | SCAN => LOCK_SH | _ => LOCK_EX end.

(** The row argument of [return_row]: none, the row itself or a copy. *)
Inductive row_arg := Null | This | Copy (v : V).

(** [return_row] before the call of [lock_release]. *)
Definition return_row (type : access_t) (r : row_arg) (i : row_ptr) (data : row_ptr → V)
    : option (row_ptr → V) :=
  ASSERT (match r with Copy _ => bool_decide (type = XP) | _ => true end);
  if bool_decide (type = XP) then
    match r with Copy v => Some (<[i := v]> data) | This => Some data | Null => None end
  else Some data.

(** *** [TxnManager] *)

Definition add_access (type : access_t) (i : row_ptr) (data : row_ptr → V) (x : txn) : txn :=
  mkTxn (t_phase x)
    (t_acc x ++ [mkAcc type i (if bool_decide (type = WR) then Some (data i) else None)])
    None (t_log x).

(** [get_row], where [row_t::get_row] returned [rc]. *)
Definition get_row (i : row_ptr) (type : access_t) (rc : RC) (data : row_ptr → V) (x : txn) : txn :=
  if bool_decide (rc = Abort) || bool_decide (rc = WAIT) then
    mkTxn (t_phase x) (t_acc x) (if bool_decide (rc = WAIT) then Some (i, type) else None) (t_log x)
  else add_access type i data x.

Definition get_row_post_wait (ready : bool) (data : row_ptr → V) (x : txn) : option txn :=
  '(i, type) ← t_last x;
  ASSERT ready;
  Some (add_access type i data x).

(** [cleanup_row] before the release: the rows afterwards. *)
Definition cleanup_row (rc : RC) (a : Access) (data : row_ptr → V) : option (row_ptr → V) :=
  let type := if bool_decide (a_type a = WR) && bool_decide (rc = Abort) then XP else a_type a in
  if bool_decide (type = XP) then
    v ← a_orig a; return_row type (Copy v) (a_row a) data
  else return_row type This (a_row a) data.

(** The accesses are cleaned up from the last to the first. *)
Definition pop_access (x : txn) : option (Access * txn) :=
  match reverse (t_acc x) with
  | [] => None
  | a :: acc => Some (a, mkTxn (t_phase x) (reverse acc) (t_last x) (t_log x))
  end.

Definition set_phase (p : phase) (x : txn) : txn := mkTxn p (t_acc x) (t_last x) (t_log x).
Definition log_op (o : op) (x : txn) : txn := mkTxn (t_phase x) (t_acc x) (t_last x) (t_log x ++ [o]).

(** *** Serial executions *)

Fixpoint replay (m : row_ptr → V) (ops : list op) : option (row_ptr → V) :=
  match ops with
  | [] => Some m
  | Read i v :: ops => if bool_decide (m i = v) then replay m ops else None
  | Write i v :: ops => replay (<[i := v]> m) ops
  end.

End client.
Arguments Access : clear implicits.
Arguments op : clear implicits.
Arguments txn : clear implicits.

(** *** The system *)

Section system.
Context {V : Type} `{EqDecision V} {L : Type} `{LockLaws L}.

(** [s_cval] and [s_hist] are ghost state: the committed values of the rows and the
    operations of the committed transactions, in the order of their commits. *)
Record state := mkS {
  s_locks : L;
  s_data : row_ptr → V;
  s_txns : txn_ptr → txn V;
  s_cval : row_ptr → V;
  s_hist : list (list (op V)) }.

Definition rows_of (x : txn V) : list row_ptr := a_row <$> t_acc x.
Definition can_write (x : txn V) (i : row_ptr) : Prop := ∃ a, a ∈ t_acc x ∧ a_row a = i ∧ a_type a = WR.

Inductive step (s : state) : state → Prop :=
  | step_begin t l' :
      t_phase (s_txns s t) = Idle → begin t (s_locks s) l' →
      step s (mkS l' (s_data s) (<[t := new_txn Running]> (s_txns s)) (s_cval s) (s_hist s))
  | step_end t rc l' :
      t_phase (s_txns s t) = Cleaning rc → t_acc (s_txns s t) = [] → finish t (s_locks s) l' →
      step s (mkS l' (s_data s) (<[t := new_txn Idle]> (s_txns s)) (s_cval s) (s_hist s))
  | step_get_row t i type rc l' :
      t_phase (s_txns s t) = Running → t_last (s_txns s t) = None →
      i ∉ rows_of (s_txns s t) → type ≠ XP →
      get i (lock_of type) t (s_locks s) rc l' →
      step s (mkS l' (s_data s) (<[t := get_row i type rc (s_data s) (s_txns s t)]> (s_txns s))
                (s_cval s) (s_hist s))
  | step_post_wait t x' :
      get_row_post_wait (lock_ready (s_locks s) t) (s_data s) (s_txns s t) = Some x' →
      step s (mkS (s_locks s) (s_data s) (<[t := x']> (s_txns s)) (s_cval s) (s_hist s))
  | step_read t i :
      t_phase (s_txns s t) = Running → i ∈ rows_of (s_txns s t) →
      step s (mkS (s_locks s) (s_data s) (<[t := log_op (Read i (s_data s i)) (s_txns s t)]> (s_txns s))
                (s_cval s) (s_hist s))
  | step_write t i v :
      t_phase (s_txns s t) = Running → can_write (s_txns s t) i →
      step s (mkS (s_locks s) (<[i := v]> (s_data s)) (<[t := log_op (Write i v) (s_txns s t)]> (s_txns s))
                (s_cval s) (s_hist s))
  | step_commit t :
      (* cleanup(RCOK) starts; the ghost state is updated *)
      t_phase (s_txns s t) = Running → t_last (s_txns s t) = None →
      step s (mkS (s_locks s) (s_data s) (<[t := set_phase (Cleaning RCOK) (s_txns s t)]> (s_txns s))
                (default (s_cval s) (replay (s_cval s) (t_log (s_txns s t))))
                (s_hist s ++ [t_log (s_txns s t)]))
  | step_abort t :
      t_phase (s_txns s t) = Running → t_last (s_txns s t) = None →
      step s (mkS (s_locks s) (s_data s) (<[t := set_phase (Cleaning Abort) (s_txns s t)]> (s_txns s))
                (s_cval s) (s_hist s))
  | step_cleanup_row t rc a x' data' l' :
      t_phase (s_txns s t) = Cleaning rc → pop_access (s_txns s t) = Some (a, x') →
      cleanup_row rc a (s_data s) = Some data' → release (a_row a) t (s_locks s) l' →
      step s (mkS l' data' (<[t := x']> (s_txns s)) (s_cval s) (s_hist s)).

Definition init_state (l : L) (d : row_ptr → V) : state := mkS l d (λ _, new_txn Idle) d [].

(** *** The invariant *)

Definition op_row (o : op V) : row_ptr := match o with Read i _ | Write i _ => i end.

(** The transaction may have changed the row and has not committed. *)
Definition dirty (x : txn V) (i : row_ptr) : Prop := can_write x i ∧ t_phase x ≠ Cleaning RCOK.

(** Replaying the transaction's operations on the committed values gives the values
    it sees. *)
Definition replays (cval data : row_ptr → V) (x : txn V) : Prop :=
  ∃ m, replay cval (t_log x) = Some m ∧ (∀ i, can_write x i → m i = data i) ∧
    (∀ i, ¬ can_write x i → m i = cval i).

Record txn_ok (l : L) (data cval : row_ptr → V) (t : txn_ptr) (x : txn V) : Prop := {
  to_acc : ∀ a, a ∈ t_acc x → held l (a_row a) t (lock_of (a_type a)) ∧ a_type a ≠ XP;
  to_nd : NoDup (rows_of x);
  to_active : active l t ↔ t_phase x ≠ Idle;
  to_idle : t_phase x = Idle → t_acc x = [] ∧ t_last x = None;
  to_pend : ∀ i m, pend l i t m → i ∈ rows_of x ∨ ∃ ty, t_last x = Some (i, ty);
  to_wait : ∀ i ty, t_last x = Some (i, ty) →
    pend l i t (lock_of ty) ∧ (i ∉ rows_of x) ∧ ty ≠ XP ∧ t_phase x = Running;
  to_phase : ∀ rc, t_phase x = Cleaning rc → rc = RCOK ∨ rc = Abort;
  to_orig : ∀ a, a ∈ t_acc x → a_type a = WR → t_phase x ≠ Cleaning RCOK →
    a_orig a = Some (cval (a_row a));
  to_rows : t_phase x = Running → ∀ o, o ∈ t_log x → op_row o ∈ rows_of x;
  to_log : t_phase x = Running → replays cval data x }.

Record inv (d0 : row_ptr → V) (s : state) : Prop := {
  iv_lock : lock_inv (s_locks s);
  iv_txn : ∀ t, txn_ok (s_locks s) (s_data s) (s_cval s) t (s_txns s t);
  iv_clean : ∀ i, (∀ t, ¬ dirty (s_txns s t) i) → s_data s i = s_cval s i;
  iv_hist : replay d0 (concat (s_hist s)) = Some (s_cval s) }.

(** *** Replaying *)

Lemma replay_app (m : row_ptr → V) (ops1 ops2 : list (op V)) : replay m (ops1 ++ ops2) = replay m ops1 ≫= λ m', replay m' ops2.
Proof.
  revert m. induction ops1 as [|[i v|i v] ops1 IH]; intros m; simpl; [done| |apply IH].
  case_bool_decide; [apply IH|done].
Qed.

(** Only the rows of the operations matter. *)
Lemma replay_agree (m1 m2 : row_ptr → V) (ops : list (op V)) r1 :
  (∀ o, o ∈ ops → m1 (op_row o) = m2 (op_row o)) → replay m1 ops = Some r1 →
  ∃ r2, replay m2 ops = Some r2 ∧
    ∀ i, (m1 i = m2 i → r1 i = r2 i) ∧ ((∀ o, o ∈ ops → op_row o ≠ i) → r2 i = m2 i).
Proof.
  revert m1 m2. induction ops as [|o ops IH]; intros m1 m2 Ha Hr.
  - injection Hr as <-. by exists m2.
  - destruct o as [i v|i v]; simpl in *.
    + pose proof (Ha (Read i v) ltac:(left)) as Hi. simpl in Hi.
      case_bool_decide as Hv; [|done]. rewrite bool_decide_true by congruence.
      destruct (IH m1 m2) as (r2&Hr2&Hi2); [intros; apply Ha; by right|done|].
      exists r2. split; [done|]. intros j. destruct (Hi2 j) as [Hj1 Hj2]. split; [done|].
      intros Hno. apply Hj2. intros. apply Hno. by right.
    + destruct (IH (<[i := v]> m1) (<[i := v]> m2)) as (r2&Hr2&Hi2); [|done|].
      { intros o Ho. destruct (decide (op_row o = i)) as [<-|Hne].
        - by rewrite !fn_lookup_insert.
        - rewrite !fn_lookup_insert_ne by done. apply Ha. by right. }
      exists r2. split; [done|]. intros j. destruct (Hi2 j) as [Hj1 Hj2]. split.
      * intros Hj. apply Hj1. destruct (decide (j = i)) as [->|Hne]; [by rewrite !fn_lookup_insert|].
        by rewrite !fn_lookup_insert_ne.
      * intros Hno. rewrite Hj2 by (intros; apply Hno; by right).
        apply fn_lookup_insert_ne, (Hno (Write i v)). left.
Qed.

(** *** Exclusive rows *)

#[local] Instance can_write_dec x i : Decision (can_write x i).
Proof.
  refine (cast_if (decide (Exists (λ a, a_row a = i ∧ a_type a = WR) (t_acc x))));
    rewrite Exists_exists in *; unfold can_write; naive_solver.
Defined.

Lemma can_write_rows x i : can_write x i → i ∈ rows_of x.
Proof. intros (a&Ha&<-&_). unfold rows_of. by apply list_elem_of_fmap_2. Qed.

Lemma writer_alone s d0 t t' i : inv d0 s → can_write (s_txns s t) i → i ∈ rows_of (s_txns s t') → t' = t.
Proof.
  intros Hi (a&Ha&<-&Hw) (a'&Heq&Ha')%list_elem_of_fmap.
  destruct (to_acc _ _ _ _ _ (iv_txn _ _ Hi t) a Ha) as [Hh _].
  destruct (to_acc _ _ _ _ _ (iv_txn _ _ Hi t') a' Ha') as [Hh' _].
  rewrite Hw in Hh. rewrite <-Heq in Hh'. by eapply (exclusive (s_locks s)); [apply Hi|..].
Qed.

(** A row the transaction has and cannot write has its committed value. *)
Lemma reader_clean s d0 t i : inv d0 s → i ∈ rows_of (s_txns s t) → ¬ can_write (s_txns s t) i →
  s_data s i = s_cval s i.
Proof.
  intros Hi Hr Hw. apply (iv_clean _ _ Hi). intros t' [Hw' _].
  by rewrite (writer_alone s d0 t' t i) in Hw.
Qed.

(** *** Preservation *)

(** Nothing changes for transaction [t]. *)
Definition same_for (t : txn_ptr) (l l' : L) : Prop :=
  (∀ i m, held l i t m → held l' i t m) ∧ (∀ i m, pend l i t m → pend l' i t m) ∧
  (∀ i m, pend l' i t m → pend l i t m) ∧ (active l' t ↔ active l t).

Lemma same_for_refl t l : same_for t l l.
Proof. by split_and!. Qed.
#[local] Hint Resolve same_for_refl : core.

Lemma txn_ok_frame l l' data data' cval cval' t x : txn_ok l data cval t x →
  same_for t l l' →
  (∀ i, i ∈ rows_of x → data' i = data i) → (∀ i, i ∈ rows_of x → cval' i = cval i) →
  txn_ok l' data' cval' t x.
Proof.
  intros [] [Hh [Hp [Hold Hact]]] Hd Hc. split; try done.
  - intros a Ha. destruct (to_acc0 a Ha). auto.
  - by rewrite Hact.
  - eauto.
  - intros i ty Hl. destruct (to_wait0 i ty Hl) as (?&?&?&?). auto.
  - intros a Ha Hw Hph. rewrite Hc; [auto|]. by apply list_elem_of_fmap_2.
  - intros Hr. destruct (to_log0 Hr) as (m&Hm&Hm1&Hm2).
    destruct (replay_agree cval cval' (t_log x) m) as (m'&Hm'&Hi).
    + intros o Ho. symmetry. apply Hc. auto.
    + done.
    + exists m'. split; [done|]. split.
      * intros i Hw. destruct (Hi i) as [Hi1 _]. pose proof (can_write_rows x i Hw).
        rewrite <-Hi1, Hm1, Hd by (done || (symmetry; auto)). done.
      * intros i Hw. destruct (Hi i) as [Hi1 Hi2]. destruct (decide (i ∈ rows_of x)).
        -- rewrite <-Hi1, Hm2, Hc by (done || (symmetry; auto)). done.
        -- apply Hi2. intros o Ho <-. auto.
Qed.

Lemma inv_update d0 s l' data' cval' hist' t x' : inv d0 s → lock_inv l' →
  txn_ok l' data' cval' t x' →
  (∀ t', t' ≠ t → same_for t' (s_locks s) l' ∧
     (∀ i, i ∈ rows_of (s_txns s t') → data' i = s_data s i ∧ cval' i = s_cval s i)) →
  (∀ i, (∀ t', t' ≠ t → ¬ dirty (s_txns s t') i) → ¬ dirty x' i → data' i = cval' i) →
  replay d0 (concat hist') = Some cval' →
  inv d0 (mkS l' data' (<[t := x']> (s_txns s)) cval' hist').
Proof.
  intros [] Hl Hx Hf Hc Hh. split; simpl; try done.
  - intros t'. destruct (decide (t' = t)) as [->|Hne]; [by rewrite fn_lookup_insert|].
    rewrite fn_lookup_insert_ne by done. destruct (Hf t' Hne) as [Hsame H3].
    eapply txn_ok_frame; [apply iv_txn0|done|intros; by apply H3..].
  - intros i Hi. apply Hc.
    + intros t' Hne. specialize (Hi t'). by rewrite fn_lookup_insert_ne in Hi.
    + specialize (Hi t). by rewrite fn_lookup_insert in Hi.
Qed.

Lemma new_txn_ok l data cval t p : p = Idle ∨ p = Running → (active l t ↔ p ≠ Idle) →
  (∀ i m, ¬ pend l i t m) → txn_ok l data cval t (new_txn p).
Proof.
  intros Hph Hact Hno. split; simpl; try done.
  - intros a Ha. by apply elem_of_nil in Ha.
  - constructor.
  - intros i m Hp. by destruct (Hno i m).
  - intros rc ->. by destruct Hph.
  - intros a Ha. by apply elem_of_nil in Ha.
  - intros _ o Ho. by apply elem_of_nil in Ho.
  - intros _. exists cval. split_and!; [done| |done]. intros i (a&Ha&_). by apply elem_of_nil in Ha.
Qed.

(** A transaction without rows has nothing in the lock manager. *)
Lemma no_rows_no_pend l data cval t x : txn_ok l data cval t x → t_acc x = [] → t_last x = None →
  ∀ i m, ¬ pend l i t m.
Proof.
  intros [] Ha Hl i m Hp. destruct (to_pend0 i m Hp) as [Hr|[ty Hty]]; [|congruence].
  unfold rows_of in Hr. rewrite Ha in Hr. by apply elem_of_nil in Hr.
Qed.

(** A transaction that has no rows starts or ends. *)
Lemma txn_inv_fresh d0 s t l' p : inv d0 s → p = Idle ∨ p = Running →
  t_acc (s_txns s t) = [] → t_last (s_txns s t) = None → same_locks (s_locks s) l' →
  (∀ t', active l' t' ↔ if decide (t' = t) then p ≠ Idle else active (s_locks s) t') →
  inv d0 (mkS l' (s_data s) (<[t := new_txn p]> (s_txns s)) (s_cval s) (s_hist s)).
Proof.
  intros Hi Hp Ha Hl [Hlk Hh Hpd] Hact.
  pose proof (no_rows_no_pend _ _ _ _ _ (iv_txn _ _ Hi t) Ha Hl) as Hno.
  apply inv_update; [done..| | | |apply Hi].
  - apply new_txn_ok; [done| |].
    + rewrite Hact. by rewrite decide_True.
    + intros i m Hp'. by apply (Hno i m), Hpd.
  - intros t' Hne. specialize (Hact t'). rewrite decide_False in Hact by done.
    split; [|done]. split_and!; [intros ??; by apply Hh|intros ??; by apply Hpd..|done].
  - intros i Hno' _. apply (iv_clean _ _ Hi). intros t'. destruct (decide (t' = t)) as [->|]; [|auto].
    intros [(a&Hin&_) _]. rewrite Ha in Hin. by apply elem_of_nil in Hin.
Qed.

Lemma inv_begin d0 s t l' : inv d0 s → t_phase (s_txns s t) = Idle → begin t (s_locks s) l' →
  inv d0 (mkS l' (s_data s) (<[t := new_txn Running]> (s_txns s)) (s_cval s) (s_hist s)).
Proof.
  intros Hi Hph Hb. pose proof (iv_txn _ _ Hi t) as Hok. destruct (to_idle _ _ _ _ _ Hok Hph).
  destruct (begin_does t (s_locks s) l') as [Hsl Hact]; [apply Hi| |done|].
  { rewrite (to_active _ _ _ _ _ Hok). tauto. }
  apply txn_inv_fresh; [auto..|]. intros t'. rewrite Hact. case_decide; [|tauto]. naive_solver.
Qed.

Lemma inv_end d0 s t rc l' : inv d0 s → t_phase (s_txns s t) = Cleaning rc →
  t_acc (s_txns s t) = [] → finish t (s_locks s) l' →
  inv d0 (mkS l' (s_data s) (<[t := new_txn Idle]> (s_txns s)) (s_cval s) (s_hist s)).
Proof.
  intros Hi Hph Ha Hf. pose proof (iv_txn _ _ Hi t) as Hok.
  assert (t_last (s_txns s t) = None) as Hl.
  { destruct (t_last (s_txns s t)) as [[i ty]|] eqn:E; [|done].
    destruct (to_wait _ _ _ _ _ Hok i ty E) as (_&_&_&?). congruence. }
  destruct (finish_does t (s_locks s) l') as [Hsl Hact];
    [apply Hi|by eapply no_rows_no_pend|done|].
  apply txn_inv_fresh; [auto..|]. intros t'. rewrite Hact. case_decide; tauto.
Qed.

(** A row is added to the accesses of a transaction that has just got its lock. *)
Lemma can_write_add type i data x j :
  can_write (add_access type i data x) j ↔ can_write x j ∨ (j = i ∧ type = WR).
Proof.
  unfold can_write, add_access. simpl. split.
  - intros (a&Ha&Hr&Hw). apply elem_of_app in Ha as [Ha|Ha]; [left; by exists a|right].
    apply list_elem_of_singleton in Ha. by subst a.
  - intros [(a&Ha&Hr&Hw)|[-> ->]]; eexists; (split; [apply elem_of_app|]).
    + by left.
    + done.
    + right. by apply list_elem_of_singleton.
    + done.
Qed.

Lemma rows_add type i data x : rows_of (add_access type i data x) = rows_of x ++ [i].
Proof. unfold rows_of, add_access. simpl. by rewrite fmap_app. Qed.

Lemma txn_ok_add l l' data cval t x type i : txn_ok l data cval t x → t_phase x = Running →
  (∀ i m, held l i t m → held l' i t m) → held l' i t (lock_of type) → type ≠ XP →
  (∀ j m, pend l' j t m → pend l j t m ∨ j = i) → (active l' t ↔ active l t) →
  t_last x = None ∨ (∃ ty, t_last x = Some (i, ty)) →
  i ∉ rows_of x → data i = cval i → txn_ok l' data cval t (add_access type i data x).
Proof.
  intros [] Hr Hh Hl Hty Hpe Hact Hlast Hi Hd. split; rewrite ?rows_add; try done.
  - intros a [Ha|Ha]%elem_of_app; [destruct (to_acc0 a Ha); auto|].
    by apply list_elem_of_singleton in Ha as ->.
  - apply NoDup_app. split_and!; [done|set_solver|apply NoDup_singleton].
  - by rewrite Hact.
  - simpl. congruence.
  - intros j m Hp. left. apply elem_of_app. apply Hpe in Hp as [Hp|Hp]; [|set_solver].
    destruct (to_pend0 j m Hp) as [?|[ty Hj]]; [auto|].
    destruct Hlast as [Hn|[ty' Hn]]; rewrite Hn in Hj; [done|]. injection Hj as <- <-. set_solver.
  - intros a [Ha|Ha]%elem_of_app Hw; [auto|]. apply list_elem_of_singleton in Ha as ->.
    simpl in *. subst type. intros _. by rewrite bool_decide_true, Hd.
  - intros Hr' o Ho. apply elem_of_app. left. by apply to_rows0.
  - intros _. destruct (to_log0 Hr) as (m&Hm&Hm1&Hm2). exists m. split; [done|]. split.
    + intros j [Hj|[-> _]]%can_write_add; [auto|]. destruct (decide (can_write x i)); [auto|].
      by rewrite Hm2.
    + intros j Hj. apply Hm2. rewrite can_write_add in Hj. tauto.
Qed.

(** A row a transaction gets into its hands is clean. *)
Lemma granted_clean d0 s l' t i m : inv d0 s → lock_inv l' →
  (∀ j t' m', held (s_locks s) j t' m' → held l' j t' m') → held l' i t m →
  i ∉ rows_of (s_txns s t) → s_data s i = s_cval s i.
Proof.
  intros Hi Hl Hh Ht Hno. apply (iv_clean _ _ Hi). intros t' [Hw _].
  pose proof Hw as (a&Ha&Hr&Hty). destruct (to_acc _ _ _ _ _ (iv_txn _ _ Hi t') a Ha) as [Hha _].
  rewrite Hty, Hr in Hha. apply Hh in Hha. rewrite <-(exclusive l' i t' t m Hl Hha Ht) in Hw.
  by apply Hno, can_write_rows.
Qed.

(** Getting rows does not clean any. *)
Lemma clean_others d0 s t x' i : inv d0 s → (dirty (s_txns s t) i → dirty x' i) →
  (∀ t', t' ≠ t → ¬ dirty (s_txns s t') i) → ¬ dirty x' i → s_data s i = s_cval s i.
Proof.
  intros Hi Hx Hno Hn. apply (iv_clean _ _ Hi). intros t'. destruct (decide (t' = t)) as [->|]; auto.
Qed.

(** The call of [lock_get] for a row the transaction does not have. *)
Lemma txn_free d0 s t i : inv d0 s → t_last (s_txns s t) = None → i ∉ rows_of (s_txns s t) →
  ∀ m, ¬ pend (s_locks s) i t m.
Proof.
  intros Hi Hl Hno m Hp.
  destruct (to_pend _ _ _ _ _ (iv_txn _ _ Hi t) i m Hp) as [?|[ty ?]]; [done|congruence].
Qed.

Lemma txn_running d0 s t : inv d0 s → t_phase (s_txns s t) = Running → active (s_locks s) t.
Proof. intros Hi Hp. apply (to_active _ _ _ _ _ (iv_txn _ _ Hi t)). by rewrite Hp. Qed.

Lemma lock_of_not_none ty : lock_of ty ≠ LOCK_NONE.
Proof. by destruct ty. Qed.

Lemma txn_get d0 s t i type rc l' : inv d0 s →
  t_phase (s_txns s t) = Running → t_last (s_txns s t) = None →
  i ∉ rows_of (s_txns s t) → get i (lock_of type) t (s_locks s) rc l' →
  get_spec i (lock_of type) t (s_locks s) rc l'.
Proof.
  intros Hi Hph Hl Hno. apply get_does; [apply Hi|by eapply txn_running|by eapply txn_free|].
  apply lock_of_not_none.
Qed.

Lemma inv_get_row d0 s t i type rc l' : inv d0 s →
  t_phase (s_txns s t) = Running → t_last (s_txns s t) = None →
  i ∉ rows_of (s_txns s t) → type ≠ XP → get i (lock_of type) t (s_locks s) rc l' →
  inv d0 (mkS l' (s_data s) (<[t := get_row i type rc (s_data s) (s_txns s t)]> (s_txns s))
            (s_cval s) (s_hist s)).
Proof.
  intros Hi Hph Hlast Hno Hty Hg. pose proof (iv_txn _ _ Hi t) as Hok.
  destruct (txn_get d0 s t i type rc l') as []; [done..|].
  apply inv_update; [done..| | | |apply Hi].
  - unfold get_row. destruct gs_rc0 as [->|[->| ->]]; simpl.
    + eapply txn_ok_add; eauto using granted_clean. intros j m Hp. naive_solver.
    + destruct Hok. split; simpl; try done.
      * intros a Ha. destruct (to_acc0 a Ha). auto.
      * by rewrite gs_active0.
      * congruence.
      * intros j m Hp. apply gs_only0 in Hp as [Hp|(->&_&_)]; [|eauto].
        destruct (to_pend0 j m Hp) as [?|[ty ?]]; [auto|congruence].
      * intros j ty [= <- <-]. auto.
    + destruct Hok. split; simpl; try done.
      * intros a Ha. destruct (to_acc0 a Ha). auto.
      * by rewrite gs_active0.
      * congruence.
      * intros j m Hp. apply gs_only0 in Hp as [Hp|(_&_&?)]; [|done].
        destruct (to_pend0 j m Hp) as [?|[ty ?]]; [auto|congruence].
  - intros t' Hne. split; [|done]. split_and!; auto.
    intros j m Hp. by apply gs_only0 in Hp as [?|(_&?&_)].
  - intros j Hj. apply (clean_others d0 s t); [done|..|done]. intros [Hw Hp]. unfold get_row.
    destruct (_ || _); [done|]. split; [|done]. apply can_write_add. auto.
Qed.

Lemma inv_post_wait d0 s t x' : inv d0 s →
  get_row_post_wait (lock_ready (s_locks s) t) (s_data s) (s_txns s t) = Some x' →
  inv d0 (mkS (s_locks s) (s_data s) (<[t := x']> (s_txns s)) (s_cval s) (s_hist s)).
Proof.
  intros Hi Hx. unfold get_row_post_wait in Hx.
  destruct (t_last (s_txns s t)) as [[i type]|] eqn:Hl; [|done]. simpl in Hx.
  destruct (lock_ready (s_locks s) t) eqn:Hr; [|done]. simpl in Hx. injection Hx as <-.
  pose proof (iv_txn _ _ Hi t) as Hok. pose proof (iv_lock _ _ Hi) as Hlk.
  destruct (to_wait _ _ _ _ _ Hok i type Hl) as (Hp&Hno&Hty&Hph).
  pose proof (ready_held _ _ _ _ Hlk Hr Hp) as Hh.
  apply inv_update; [done..| |auto| |apply Hi].
  - eapply txn_ok_add; eauto using granted_clean.
  - intros j Hj. apply (clean_others d0 s t); [done|..|done]. intros [Hw Hp']. split; [|done].
    apply can_write_add. auto.
Qed.

Lemma log_op_write o x i : can_write (log_op o x) i ↔ can_write x i.
Proof. done. Qed.

Lemma inv_read d0 s t i : inv d0 s → t_phase (s_txns s t) = Running → i ∈ rows_of (s_txns s t) →
  inv d0 (mkS (s_locks s) (s_data s) (<[t := log_op (Read i (s_data s i)) (s_txns s t)]> (s_txns s))
            (s_cval s) (s_hist s)).
Proof.
  intros Hi Hph Hr. pose proof (iv_txn _ _ Hi t) as Hok.
  apply inv_update; [done|apply Hi| |auto| |apply Hi].
  - destruct Hok. split; simpl; try done.
    + intros _ o [Ho|Ho]%elem_of_app; [by apply to_rows0|].
      apply list_elem_of_singleton in Ho as ->. done.
    + intros _. destruct (to_log0 Hph) as (m&Hm&Hm1&Hm2). exists m. split; [|by split].
      simpl. rewrite replay_app, Hm. simpl. rewrite bool_decide_true; [done|].
      destruct (decide (can_write (s_txns s t) i)) as [Hw|Hw]; [auto|].
      rewrite Hm2 by done. symmetry. by eapply reader_clean.
  - intros j Hj. by apply (clean_others d0 s t).
Qed.

Lemma inv_write d0 s t i v : inv d0 s → t_phase (s_txns s t) = Running → can_write (s_txns s t) i →
  inv d0 (mkS (s_locks s) (<[i := v]> (s_data s)) (<[t := log_op (Write i v) (s_txns s t)]> (s_txns s))
            (s_cval s) (s_hist s)).
Proof.
  intros Hi Hph Hw. pose proof (iv_txn _ _ Hi t) as Hok.
  apply inv_update; [done|apply Hi| | | |apply Hi].
  - destruct Hok. split; simpl; try done.
    + intros _ o [Ho|Ho]%elem_of_app; [by apply to_rows0|].
      apply list_elem_of_singleton in Ho as ->. by apply can_write_rows.
    + intros _. destruct (to_log0 Hph) as (m&Hm&Hm1&Hm2). exists (<[i := v]> m). simpl.
      rewrite replay_app, Hm. split; [done|]. split; intros j Hj; rewrite log_op_write in Hj.
      * destruct (decide (i = j)) as [->|Hne]; [by rewrite !fn_lookup_insert|].
        rewrite !fn_lookup_insert_ne by done. auto.
      * rewrite fn_lookup_insert_ne by (intros ->; done). auto.
  - intros t' Hne. split; [done|]. intros j Hj. split; [|done].
    apply fn_lookup_insert_ne. intros ->. apply Hne. by eapply writer_alone.
  - intros j Hj Hd. assert (i ≠ j) as Hij.
    { intros ->. apply Hd. split; [done|]. simpl. by rewrite Hph. }
    rewrite fn_lookup_insert_ne by done. by apply (clean_others d0 s t (log_op (Write i v) (s_txns s t))).
Qed.

Lemma txn_ok_cleaning l data cval cval' t x rc : txn_ok l data cval t x → t_last x = None →
  rc = RCOK ∨ rc = Abort ∧ cval' = cval → t_phase x = Running →
  txn_ok l data cval' t (set_phase (Cleaning rc) x).
Proof.
  intros [] Hl Hrc Hph. split; simpl; try done.
  - rewrite to_active0, Hph. by split.
  - intros i ty Hl'. congruence.
  - intros rc' [= <-]. naive_solver.
  - intros a Ha Hw Hne. destruct Hrc as [->|[-> ->]]; [done|]. apply to_orig0; [done..|]. by rewrite Hph.
Qed.

Lemma txn_inv_commit d0 s t : inv d0 s → t_phase (s_txns s t) = Running → t_last (s_txns s t) = None →
  inv d0 (mkS (s_locks s) (s_data s) (<[t := set_phase (Cleaning RCOK) (s_txns s t)]> (s_txns s))
            (default (s_cval s) (replay (s_cval s) (t_log (s_txns s t))))
            (s_hist s ++ [t_log (s_txns s t)])).
Proof.
  intros Hi Hph Hl. pose proof (iv_txn _ _ Hi t) as Hok.
  destruct (to_log _ _ _ _ _ Hok Hph) as (m&Hm&Hm1&Hm2). rewrite Hm. simpl.
  apply inv_update; [done|apply Hi| | | |].
  - eapply txn_ok_cleaning; eauto.
  - intros t' Hne. split; [done|]. intros i Hr. split; [done|]. apply Hm2. intros Hw.
    apply Hne. by eapply writer_alone.
  - intros i Hno _. destruct (decide (can_write (s_txns s t) i)) as [Hw|Hw]; [symmetry; auto|].
    rewrite Hm2 by done. apply (iv_clean _ _ Hi). intros t'. destruct (decide (t' = t)) as [->|]; [|auto].
    by intros [].
  - rewrite concat_app, replay_app, (iv_hist _ _ Hi). simpl. by rewrite app_nil_r.
Qed.

Lemma txn_inv_abort d0 s t : inv d0 s → t_phase (s_txns s t) = Running → t_last (s_txns s t) = None →
  inv d0 (mkS (s_locks s) (s_data s) (<[t := set_phase (Cleaning Abort) (s_txns s t)]> (s_txns s))
            (s_cval s) (s_hist s)).
Proof.
  intros Hi Hph Hl. apply inv_update; [done|apply Hi| |auto| |apply Hi].
  - eapply txn_ok_cleaning; eauto. apply Hi.
  - intros i Hno. apply (clean_others d0 s t); [done|..|done]. by intros [? _].
Qed.

Lemma pop_access_acc (x : txn V) a x' : pop_access x = Some (a, x') →
  t_acc x = t_acc x' ++ [a] ∧ t_phase x' = t_phase x ∧ t_last x' = t_last x.
Proof.
  unfold pop_access. destruct (reverse (t_acc x)) as [|b l] eqn:E; [done|]. intros [= <- <-]. simpl.
  split; [|done]. by rewrite <-(reverse_involutive (t_acc x)), E, reverse_cons.
Qed.

(** What the clean-up of a row does to it. *)
Lemma cleanup_row_spec rc (a : Access V) data data' : a_type a ≠ XP → cleanup_row rc a data = Some data' →
  (a_type a = WR ∧ rc = Abort ∧ ∃ v, a_orig a = Some v ∧ data' = <[a_row a := v]> data) ∨
  ((a_type a ≠ WR ∨ rc ≠ Abort) ∧ data' = data).
Proof.
  intros Hx. unfold cleanup_row. destruct (bool_decide (a_type a = WR) && _) eqn:E.
  - apply andb_true_iff in E as [->%bool_decide_eq_true ->%bool_decide_eq_true]. simpl.
    destruct (a_orig a) as [v|]; [|done]. simpl. intros [= <-]. left. eauto.
  - rewrite bool_decide_false by done. unfold return_row. simpl. rewrite bool_decide_false by done.
    intros [= <-]. right. split; [|done].
    apply andb_false_iff in E as [E%bool_decide_eq_false|E%bool_decide_eq_false]; auto.
Qed.

Lemma can_write_pop (x x' : txn V) a j : t_acc x = t_acc x' ++ [a] →
  can_write x j ↔ can_write x' j ∨ (j = a_row a ∧ a_type a = WR).
Proof.
  intros Hx. unfold can_write. rewrite Hx. split.
  - intros (b&Hb&Hr&Hw). apply elem_of_app in Hb as [Hb|Hb]; [left; eauto|right].
    apply list_elem_of_singleton in Hb. by subst b.
  - intros [(b&Hb&Hr&Hw)|[-> Hw]]; eexists; (split; [apply elem_of_app|]);
      [by left|done|right; by apply list_elem_of_singleton|done].
Qed.

Lemma txn_ok_pop l l' data data' cval t x x' a rc : txn_ok l data cval t x →
  t_phase x = Cleaning rc → pop_access x = Some (a, x') →
  release_spec (a_row a) t l l' → txn_ok l' data' cval t x'.
Proof.
  intros [] Hph Hp []. destruct (pop_access_acc x a x' Hp) as (Hacc&Hph'&Hl').
  unfold rows_of in *. rewrite Hacc, fmap_app in to_nd0. apply NoDup_app in to_nd0 as (Hnd&Hd&_).
  assert (∀ b, b ∈ t_acc x' → b ∈ t_acc x) as Hsub by (intros b Hb; rewrite Hacc; set_solver).
  split; rewrite ?Hph', ?Hl'.
  - intros b Hb. destruct (to_acc0 b (Hsub b Hb)) as [H1 H2]. split; [|done]. apply rs_held0; [done|].
    intros [= E]. apply (Hd (a_row b)); [by apply list_elem_of_fmap_2|]. rewrite E. by left.
  - done.
  - by rewrite rs_active0.
  - congruence.
  - intros j m Hpd. apply rs_only0 in Hpd as [Hpd Hne]. rewrite Hacc, fmap_app in to_pend0.
    destruct (to_pend0 j m Hpd) as [[?|Hj]%elem_of_app|?]; [by left| |by right].
    apply list_elem_of_singleton in Hj. by subst j.
  - intros j ty Hl. destruct (to_wait0 j ty Hl) as (_&_&_&Hr). congruence.
  - done.
  - intros b Hb. apply to_orig0. auto.
  - intros Hr. congruence.
  - intros Hr. congruence.
Qed.

Lemma inv_cleanup_row d0 s t rc a x' data' l' : inv d0 s →
  t_phase (s_txns s t) = Cleaning rc → pop_access (s_txns s t) = Some (a, x') →
  cleanup_row rc a (s_data s) = Some data' → release (a_row a) t (s_locks s) l' →
  inv d0 (mkS l' data' (<[t := x']> (s_txns s)) (s_cval s) (s_hist s)).
Proof.
  intros Hi Hph Hp Hcl Hrel. pose proof (iv_lock _ _ Hi) as Hlk. pose proof (iv_txn _ _ Hi t) as Hok.
  destruct (pop_access_acc _ _ _ Hp) as (Hacc&Hph'&_).
  assert (a ∈ t_acc (s_txns s t)) as Ha by (rewrite Hacc; set_solver).
  pose proof (λ j, can_write_pop _ _ _ j Hacc) as Hcw.
  destruct (to_acc _ _ _ _ _ Hok a Ha) as [Hheld Hxp].
  pose proof (release_does _ _ _ _ _ Hlk Hheld Hrel) as Hrs.
  assert (∀ t', t' ≠ t → same_for t' (s_locks s) l') as Hsame.
  { destruct Hrs. intros t' Hne. split_and!; [intros; apply rs_held0; congruence|
      intros; apply rs_pend0; congruence|intros ???%rs_only0; tauto|done]. }
  destruct (cleanup_row_spec rc a _ _ Hxp Hcl) as
    [(Hw&->&v&Hv&->)|[Hw ->]].
  - assert (v = s_cval s (a_row a)) as ->
      by (rewrite (to_orig _ _ _ _ _ Hok a Ha Hw) in Hv by (by rewrite Hph); by injection Hv).
    apply inv_update; [done|apply Hrs|by eapply txn_ok_pop| | |apply Hi].
    + intros t' Hne. split; [auto|]. intros j Hj. split; [|done].
      apply fn_lookup_insert_ne. intros <-. apply Hne.
      eapply writer_alone; [done| |done]. by exists a.
    + intros j Hno Hn. destruct (decide (a_row a = j)) as [<-|Hj]; [by rewrite fn_lookup_insert|].
      rewrite fn_lookup_insert_ne by done. apply (clean_others d0 s t x'); [done| |done|done].
      intros [Hd Hd']. split; [|by rewrite Hph']. apply Hcw in Hd as [?|[? _]]; [done|congruence].
  - apply inv_update; [done|apply Hrs|by eapply txn_ok_pop| | |apply Hi].
    + auto.
    + intros j Hno Hn. apply (clean_others d0 s t x'); [done| |done|done].
      intros [Hd Hd']. split; [|by rewrite Hph']. apply Hcw in Hd as [?|[_ Hw']]; [done|].
      destruct Hw as [Hw|Hw]; [done|]. destruct (to_phase _ _ _ _ _ Hok rc Hph) as [->| ->]; done.
Qed.

Lemma txn_inv_step d0 s s' : inv d0 s → step s s' → inv d0 s'.
Proof.
  intros Hi Hs. destruct Hs; eauto using inv_begin, inv_end, inv_get_row, inv_post_wait,
    inv_read, inv_write, txn_inv_commit, txn_inv_abort, inv_cleanup_row.
Qed.

(** A lock manager before the first transaction. *)
Definition fresh_locks (l : L) : Prop :=
  lock_inv l ∧ (∀ t, ¬ active l t) ∧ (∀ i t m, ¬ pend l i t m).

Lemma txn_inv_reachable l d0 s : fresh_locks l → rtc step (init_state l d0) s → inv d0 s.
Proof.
  intros (Hl&Hact&Hno). revert s. apply (rtc_ind_r (λ s, inv d0 s)); [|eauto using txn_inv_step].
  split; simpl; [done| |done|done]. intros t. apply new_txn_ok; [by left| |done].
  specialize (Hact t). tauto.
Qed.

(** *** What the interface gives *)

Lemma serializable_inv d0 s : inv d0 s →
  replay d0 (concat (s_hist s)) = Some (s_cval s) ∧
  (∀ i, (∀ t, ¬ dirty (s_txns s t) i) → s_data s i = s_cval s i) ∧
  (∀ t i, i ∈ rows_of (s_txns s t) → ¬ can_write (s_txns s t) i → s_data s i = s_cval s i).
Proof.
  intros Hi. split_and!; [apply Hi|apply (iv_clean _ _ Hi)|intros t i; by apply (reader_clean s d0)].
Qed.

(** One row is always cleaned up. *)
Lemma cleanup_row_enabled d0 s t rc a acc : inv d0 s → t_phase (s_txns s t) = Cleaning rc →
  t_acc (s_txns s t) = acc ++ [a] →
  ∃ s', step s s' ∧ t_acc (s_txns s' t) = acc ∧ t_phase (s_txns s' t) = Cleaning rc ∧
    s_cval s' = s_cval s ∧ s_hist s' = s_hist s ∧ (∀ t', t' ≠ t → s_txns s' t' = s_txns s t').
Proof.
  intros Hi Hph Hacc. pose proof (iv_txn _ _ Hi t) as Hok.
  assert (a ∈ t_acc (s_txns s t)) as Ha by (rewrite Hacc; set_solver).
  destruct (to_acc _ _ _ _ _ Hok a Ha) as [Hh Hxp].
  destruct (release_total _ _ _ _ (iv_lock _ _ Hi) Hh) as [l' Hl'].
  assert (∃ data', cleanup_row rc a (s_data s) = Some data') as [data' Hd].
  { unfold cleanup_row, return_row. destruct (bool_decide (a_type a = WR) && _) eqn:E; simpl.
    - apply andb_true_iff in E as [Hw%bool_decide_eq_true ->%bool_decide_eq_true].
      rewrite (to_orig _ _ _ _ _ Hok a Ha Hw) by (by rewrite Hph). simpl. eauto.
    - rewrite !bool_decide_false by done. eauto. }
  set (x' := mkTxn (t_phase (s_txns s t)) acc (t_last (s_txns s t)) (t_log (s_txns s t))).
  assert (pop_access (s_txns s t) = Some (a, x')) as Hp.
  { unfold pop_access. rewrite Hacc, reverse_app. simpl. by rewrite reverse_involutive. }
  eexists. split; [by eapply step_cleanup_row|]. simpl. rewrite fn_lookup_insert.
  split_and!; try done. intros t' Hne. by rewrite fn_lookup_insert_ne.
Qed.

Lemma cleanup_run d0 s t rc : inv d0 s → t_phase (s_txns s t) = Cleaning rc →
  ∃ s', rtc step s s' ∧ inv d0 s' ∧ t_acc (s_txns s' t) = [] ∧
    s_cval s' = s_cval s ∧ s_hist s' = s_hist s ∧ (∀ t', t' ≠ t → s_txns s' t' = s_txns s t').
Proof.
  remember (t_acc (s_txns s t)) as acc eqn:Hacc. symmetry in Hacc. revert s Hacc.
  induction acc as [|a acc IH] using rev_ind; intros s Hacc Hi Hph.
  { exists s. by split_and!. }
  destruct (cleanup_row_enabled d0 s t rc a acc) as (s1&Hst&Ha&Hp&Hc&Hh&Ho); [done..|].
  destruct (IH s1) as (s'&Hr&Hi'&Ha'&Hc'&Hh'&Ho'); [done|by eapply txn_inv_step|done|].
  exists s'. split; [by eapply rtc_l|]. split_and!; [done|done|congruence|congruence|].
  intros t' Hne. by rewrite Ho', Ho.
Qed.

(** What a transaction may have written has the committed value once it is done. *)
Lemma cleanup_done d0 s t rc : inv d0 s → t_phase (s_txns s t) = Cleaning rc →
  ∃ s', rtc step s s' ∧ t_acc (s_txns s' t) = [] ∧
    s_cval s' = s_cval s ∧ s_hist s' = s_hist s ∧
    (∀ t', t' ≠ t → s_txns s' t' = s_txns s t') ∧
    (∀ i, can_write (s_txns s t) i → s_data s' i = s_cval s i).
Proof.
  intros Hi Hph. destruct (cleanup_run d0 s t rc Hi Hph) as (s'&Hr&Hi'&Ha&Hc&Hh&Ho).
  exists s'. split_and!; try done. intros i Hw. rewrite <-Hc. apply (iv_clean _ _ Hi').
  intros t' [Hw' _]. destruct (decide (t' = t)) as [->|Hne].
  - destruct Hw' as (a&Hin&_). rewrite Ha in Hin. by apply elem_of_nil in Hin.
  - rewrite Ho in Hw' by done. apply Hne. apply (writer_alone s d0 t t' i); [done..|]. by apply can_write_rows.
Qed.

Lemma get_row_enabled d0 s t i type : inv d0 s → t_phase (s_txns s t) = Running →
  t_last (s_txns s t) = None → is_row (s_locks s) i → i ∉ rows_of (s_txns s t) →
  ∃ rc l', get i (lock_of type) t (s_locks s) rc l'.
Proof.
  intros Hi Hph Hl Hrow Hno. apply get_total; [apply Hi|done|by eapply txn_running|by eapply txn_free|].
  apply lock_of_not_none.
Qed.

End system.
Arguments state : clear implicits.

(** ** The lock table keeps the promises *)

Section lock_table.
Import RowLock LockTable.
Context (alg : CC_ALG) (Halg : alg = NO_WAIT ∨ alg = WAIT_DIE).

Definition on_row (f : locked_row → list LockEntry) (l : sys) (i : row_ptr) (t : txn_ptr)
    (m : lock_t) : Prop :=
  ∃ x, LockTable.s_rows l !! i = Some x ∧ mkEntry m t ∈ f x.

(** The calls, as the steps of the lock table make them. *)
Definition table_get (i : row_ptr) (m : lock_t) (t : txn_ptr) (l : sys) (rc : RC) (l' : sys) : Prop :=
  ∃ x s', LockTable.s_rows l !! i = Some x ∧
    lock_get alg m t (mkState (lr_row x) (LockTable.s_txns l) (s_restarts l)) = Some (rc, s') ∧
    l' = mkSys (<[i := mkLR (row s') (if bool_decide (rc = RCOK)
                                      then mkEntry m t :: lr_held x else lr_held x)]> (LockTable.s_rows l))
           (txns s') (restarts s') (s_active l) (s_cur l) (s_seq l) (s_next l).

Definition table_release (i : row_ptr) (t : txn_ptr) (l l' : sys) : Prop :=
  ∃ x s', LockTable.s_rows l !! i = Some x ∧
    lock_release alg t (mkState (lr_row x) (LockTable.s_txns l) (s_restarts l)) = Some s' ∧
    l' = mkSys (<[i := mkLR (row s') (held_after t x (row s'))]> (LockTable.s_rows l))
           (txns s') (restarts s') (s_active l) (s_cur l) (s_seq l) (s_next l).

Definition table_begin (t : txn_ptr) (l l' : sys) : Prop :=
  ∃ x, Forall (λ t', txn_id (LockTable.s_txns l t') ≠ txn_id x ∧
                     timestamp (LockTable.s_txns l t') ≠ timestamp x) (s_active l) ∧
    (lock_ready_cnt x = lock_ready_cnt (LockTable.s_txns l t) ∨ lock_ready_cnt x = 0) ∧
    zlen (s_active l) + 2 < u32_mod ∧
    l' = mkSys (LockTable.s_rows l) (<[t := x]> (LockTable.s_txns l)) (s_restarts l)
           (t :: s_active l) (s_cur l) (s_seq l) (s_next l).

Definition table_finish (t : txn_ptr) (l l' : sys) : Prop :=
  l' = mkSys (LockTable.s_rows l) (LockTable.s_txns l) (s_restarts l)
         (filter (λ t', t' ≠ t) (s_active l)) (s_cur l) (s_seq l) (s_next l).

#[export] Instance table_service : LockService sys := {|
  held := on_row lr_held;
  pend := on_row lr_entries;
  active l t := t ∈ s_active l;
  is_row l i := is_Some (LockTable.s_rows l !! i);
  TxnAccess.lock_ready l t := RowLock.lock_ready (LockTable.s_txns l t);
  get := table_get;
  release := table_release;
  begin := table_begin;
  finish := table_finish;
  lock_inv := sys_inv alg |}.

Lemma alg_locking : locking alg.
Proof. unfold locking. tauto. Qed.

Lemma alg_calvin : alg ≠ CALVIN.
Proof. by destruct Halg as [->| ->]. Qed.

Lemma on_row_insert l l' i x y : LockTable.s_rows l !! i = Some x →
  LockTable.s_rows l' = <[i := y]> (LockTable.s_rows l) → ∀ f j t m,
  on_row f l' j t m ↔ if decide (j = i) then mkEntry m t ∈ f y else on_row f l j t m.
Proof.
  intros Hi Hl' f j t m. unfold on_row. rewrite Hl'. case_decide as Hj.
  - subst j. rewrite list_lookup_insert_eq by (by eapply lookup_lt_Some). naive_solver.
  - by rewrite list_lookup_insert_ne.
Qed.

Lemma table_exclusive l i t t' m : sys_inv alg l →
  on_row lr_held l i t LOCK_EX → on_row lr_held l i t' m → t' = t.
Proof.
  intros Hl (x&Hx&Ht) (x'&Hx'&Ht'). rewrite Hx in Hx'. injection Hx' as <-.
  destruct (decide (t' = t)) as [|E]; [done|].
  destruct (held_compatible alg l x _ _ Hl (list_elem_of_lookup_2 _ _ _ Hx) Ht Ht') as [Hc _];
    [congruence|].
  apply conflict_lock_false in Hc. simpl in Hc.
  destruct (sys_row_ok _ _ _ _ Hl Hx) as [[Hrc _] _ Hty _ _ _ _ _].
  rewrite Forall_forall in Hty. pose proof (Hty _ Ht) as H1. pose proof (Hty _ Ht') as H2.
  simpl in *. subst m. destruct Hc as [?|[?|[? ?]]]; congruence.
Qed.

Lemma table_free l i x t : LockTable.s_rows l !! i = Some x →
  (∀ m, ¬ on_row lr_entries l i t m) → t ∉ le_txn <$> lr_entries x.
Proof.
  intros Hx Hno ([m' t']&->&He)%list_elem_of_fmap. apply (Hno m'). by exists x.
Qed.

Lemma table_ready_held l i t m : sys_inv alg l →
  RowLock.lock_ready (LockTable.s_txns l t) = true → on_row lr_entries l i t m → on_row lr_held l i t m.
Proof.
  intros Hl Hr (x&Hx&He). exists x. split; [done|].
  apply elem_of_app in He as [He|He]; [done|]. exfalso.
  assert (0 < total_waits t (LockTable.s_rows l)) as Hw.
  { apply waiting_total. exists x, (mkEntry m t). split; [|done]. by eapply list_elem_of_lookup_2. }
  rewrite (si_ready _ _ Hl t Hw) in Hr. done.
Qed.

Lemma table_get_total i m t l : sys_inv alg l → is_Some (LockTable.s_rows l !! i) → t ∈ s_active l →
  (∀ m', ¬ on_row lr_entries l i t m') → m ≠ LOCK_NONE → ∃ rc l', table_get i m t l rc l'.
Proof.
  intros Hl [x Hx] Hact Hno Hm. pose proof (table_free l i x t Hx Hno) as Hn.
  destruct (lock_get_spec alg m t (mkState (lr_row x) (LockTable.s_txns l) (s_restarts l)))
    as (rc&s'&Hg&_&_); [apply alg_locking|by eapply sys_row_ok|by eapply sys_get_pre|].
  exists rc. eexists. by exists x, s'.
Qed.

(** The requests on the row after [lock_get]. *)
Lemma get_entries m t l x rc s' : get_outcome alg m t (mkState (lr_row x) (LockTable.s_txns l) (s_restarts l)) rc s' →
  let y := mkLR (row s') (if bool_decide (rc = RCOK) then mkEntry m t :: lr_held x else lr_held x) in
  lr_entries y ≡ₚ if bool_decide (rc = Abort) then lr_entries x else mkEntry m t :: lr_entries x.
Proof.
  intros [_ Ho]. unfold lr_entries. destruct rc; simpl in *; try done.
  - by destruct Ho as (_&_&->&_).
  - by destruct Ho as (->&_).
  - destruct Ho as (_&_&ws&->&Hws&_). simpl. by rewrite Hws, <-Permutation_middle.
Qed.

Lemma table_get_does i m t l rc l' : sys_inv alg l → t ∈ s_active l →
  (∀ m', ¬ on_row lr_entries l i t m') → m ≠ LOCK_NONE → table_get i m t l rc l' →
  get_spec i m t l rc l'.
Proof.
  intros Hl Hact Hno Hm (x&s'&Hx&Hg&->). pose proof (table_free l i x t Hx Hno) as Hn.
  destruct (lock_get_spec alg m t (mkState (lr_row x) (LockTable.s_txns l) (s_restarts l)))
    as (rc'&s''&Hg'&_&Ho); [apply alg_locking|by eapply sys_row_ok|by eapply sys_get_pre|].
  rewrite Hg in Hg'. injection Hg' as <- <-. pose proof (get_entries m t l x rc s' Ho) as He.
  cbv zeta in He.
  match goal with |- _ ?l' => pose proof (on_row_insert l l' i x _ Hx eq_refl) as Hin end.
  split; cbn -[lr_entries]; try done.
  - apply (step_get_inv alg l i x m t rc s'); [apply alg_locking|done..| |done]. intros E. by destruct alg_calvin.
  - destruct Ho as [_ Ho], rc; naive_solver.
  - intros ->. apply Hin. rewrite decide_True by done. by left.
  - intros ->. apply Hin. rewrite decide_True by done. rewrite He. by left.
  - intros j t' m' Hj. apply Hin. destruct (decide (j = i)) as [->|]; [|done]. destruct Hj as (x'&Hx'&Hj).
    rewrite Hx in Hx'. injection Hx' as <-. simpl. destruct (bool_decide (rc = RCOK)); [by right|done].
  - intros j t' m' Hj. apply Hin. destruct (decide (j = i)) as [->|]; [|done]. destruct Hj as (x'&Hx'&Hj).
    rewrite Hx in Hx'. injection Hx' as <-. rewrite He.
    destruct (bool_decide (rc = Abort)); [done|by right].
  - intros j t' m' Hj. apply Hin in Hj. destruct (decide (j = i)) as [->|]; [|by left]. rewrite He in Hj.
    destruct (bool_decide (rc = Abort)) eqn:E; [left; by exists x|]. apply bool_decide_eq_false in E.
    apply elem_of_cons in Hj as [[= -> ->]|Hj]; [by right|].
    left. by exists x.
Qed.

Lemma held_txn l i x t m : mkEntry m t ∈ lr_held x → LockTable.s_rows l !! i = Some x →
  t ∈ le_txn <$> lr_held x.
Proof. intros Hh _. apply list_elem_of_fmap. by exists (mkEntry m t). Qed.

Lemma table_release_parts l i x t m : sys_inv alg l → LockTable.s_rows l !! i = Some x →
  mkEntry m t ∈ lr_held x →
  ∃ s' o, lock_release alg t (mkState (lr_row x) (LockTable.s_txns l) (s_restarts l)) = Some s' ∧
    le_txn o = t ∧ (∀ e, e ∈ lr_held x → le_txn e ≠ t → e ∈ held_after t x (row s')) ∧
    lr_entries x ≡ₚ o :: lr_entries (mkLR (row s') (held_after t x (row s'))).
Proof.
  intros Hl Hx Hh. pose proof (held_txn l i x t m Hh Hx) as Ht.
  destruct (lock_release_spec alg t (mkState (lr_row x) (LockTable.s_txns l) (s_restarts l)))
    as (s'&r1&Hrel&_&Hd&Hp); simpl.
  { apply alg_locking. } { by eapply sys_row_ok. } { by eapply sys_release_pre. }
  { by eapply sys_wait_ok. } { intros [? _]. by apply alg_calvin. }
  destruct (sys_row_ok _ _ _ _ Hl Hx). unfold lr_entries in ro_nodup0.
  rewrite fmap_app in ro_nodup0. apply NoDup_app in ro_nodup0 as (Hnd&_&_).
  destruct (filter_out_one _ t Hnd Ht) as (o&Hot&Hho). exists s', o. split; [done|].
  rewrite (held_after_spec alg l i x t r1 s') by done. split; [done|]. split.
  - intros e He Hne. apply elem_of_app. right. by apply list_elem_of_filter.
  - unfold lr_entries. simpl. rewrite (po_rest _ _ _ _ Hp). simpl.
    pose proof (grant_prefix_app (lock_type r1) (waiters (lr_row x))) as E.
    destruct (grant_prefix _ _) as [g rest]. simpl in *. rewrite <-E, Hho at 1. simpl.
    constructor. rewrite (Permutation_app_comm g (filter _ _)). by rewrite <-app_assoc.
Qed.

Lemma table_release_total i t m l : sys_inv alg l → on_row lr_held l i t m → ∃ l', table_release i t l l'.
Proof.
  intros Hl (x&Hx&Hh). destruct (table_release_parts l i x t m Hl Hx Hh) as (s'&o&Hr&_).
  eexists. by exists x, s'.
Qed.

Lemma table_release_does i t m l l' : sys_inv alg l → on_row lr_held l i t m →
  table_release i t l l' → release_spec i t l l'.
Proof.
  intros Hl (x&Hx&Hh) (x'&s'&Hx'&Hr&->). rewrite Hx in Hx'. injection Hx' as <-.
  destruct (table_release_parts l i x t m Hl Hx Hh) as (s''&o&Hr'&Hot&Hkeep&He).
  rewrite Hr in Hr'. injection Hr' as <-. pose proof (held_txn l i x t m Hh Hx) as Ht.
  pose proof (ro_nodup _ _ _ (sys_row_ok _ _ _ _ Hl Hx)) as Hnd. rewrite He in Hnd.
  apply NoDup_cons in Hnd as [Hnd _].
  match goal with |- _ ?l' => pose proof (on_row_insert l l' i x _ Hx eq_refl) as Hin end.
  split; cbn -[lr_entries]; try done.
  - apply (step_release_inv alg l i x t s'); [apply alg_locking|done..| |done]. intros E. by destruct alg_calvin.
  - intros j t' m' Hj Hne. apply Hin. destruct (decide (j = i)) as [->|]; [|done]. destruct Hj as (x'&Hx'&Hj).
    rewrite Hx in Hx'. injection Hx' as <-. apply Hkeep; [done|]. simpl. congruence.
  - intros j t' m' Hj Hne. apply Hin. destruct (decide (j = i)) as [->|]; [|done]. destruct Hj as (x'&Hx'&Hj).
    rewrite Hx in Hx'. injection Hx' as <-. rewrite He in Hj. apply elem_of_cons in Hj as [<-|Hj]; [|done].
    simpl in Hot. congruence.
  - intros j t' m' Hj. apply Hin in Hj. destruct (decide (j = i)) as [->|]; [|split; [done|congruence]]. split.
    + exists x. split; [done|]. rewrite He. by right.
    + intros [= ->]. apply Hnd. rewrite Hot. apply list_elem_of_fmap. by exists (mkEntry m' t).
Qed.

#[export] Instance table_laws : LockLaws sys.
Proof.
  split; cbn -[lr_entries].
  - apply table_exclusive.
  - apply table_ready_held.
  - intros l i t m (x&Hx&Hh). exists x. split; [done|]. apply elem_of_app. by left.
  - apply table_get_total.
  - apply table_get_does.
  - apply table_release_total.
  - apply table_release_does.
  - intros t l l' Hl Hn (x&H1&H2&H3&->). split; [|simpl; set_solver]. split; try done.
    by apply step_begin_inv.
  - intros t l l' Hl Hn ->. split; [split; try done|].
    + apply step_end_inv; [done| |].
      * intros Hc. destruct (si_cur _ _ Hl t Hc) as [? _]. by apply alg_calvin.
      * apply Forall_forall. intros x [i Hx]%list_elem_of_lookup. by eapply table_free.
    + intros t'. simpl. rewrite list_elem_of_filter. tauto.
Qed.

Lemma init_fresh n h : Z.of_nat n + 1 < u32_mod → (∀ t, lock_ready_cnt (h t) = 0) →
  fresh_locks (init_sys n h).
Proof.
  intros Hn Hh. split_and!; [by apply init_sys_inv|by intros t ?%elem_of_nil|].
  intros i t m (x&Hx&He). simpl in Hx. apply lookup_replicate in Hx as [-> _].
  by apply elem_of_nil in He.
Qed.

(** C5: NO_WAIT and WAIT_DIE are serializable.  In every state that the interleaved
    transactions reach from rows with values [d0], executing the operations of the
    committed transactions one transaction after the other, in the order of their
    commits, reads exactly the values the transactions read and ends with the
    committed values of the rows; a row that no uncommitted transaction may have
    written has its committed value, and so has every row a transaction has in its
    hands for reading. *)
Theorem two_phase_serializable {V : Type} `{EqDecision V} n h d0 (s : TxnAccess.state V sys) :
  Z.of_nat n + 1 < u32_mod → (∀ t, lock_ready_cnt (h t) = 0) →
  rtc TxnAccess.step (init_state (init_sys n h) d0) s →
  replay d0 (concat (s_hist s)) = Some (s_cval s) ∧
  (∀ i, (∀ t, ¬ dirty (TxnAccess.s_txns s t) i) → s_data s i = s_cval s i) ∧
  (∀ t i, i ∈ rows_of (TxnAccess.s_txns s t) → ¬ can_write (TxnAccess.s_txns s t) i →
     s_data s i = s_cval s i).
Proof.
  intros Hn Hh Hr. by eapply serializable_inv, txn_inv_reachable, Hr; apply init_fresh.
Qed.

(** C16: the calls of a transaction return.  In every reachable state a running
    transaction that asks for a row it does not have gets an answer from the lock
    manager.  A transaction in [cleanup] can give all its rows back by its own steps
    alone; the other transactions and the committed values are then as before, and the
    rows it may have written have their committed values: the new ones after a commit,
    the ones from before the transaction after an abort. *)
Theorem two_phase_calls_return {V : Type} `{EqDecision V} n h d0 (s : TxnAccess.state V sys) t :
  Z.of_nat n + 1 < u32_mod → (∀ t, lock_ready_cnt (h t) = 0) →
  rtc TxnAccess.step (init_state (init_sys n h) d0) s →
  match t_phase (TxnAccess.s_txns s t) with
  | Idle => t_acc (TxnAccess.s_txns s t) = []
  | Running => ∀ i type, t_last (TxnAccess.s_txns s t) = None →
      is_row (s_locks s) i → i ∉ rows_of (TxnAccess.s_txns s t) →
      ∃ rc l', get i (lock_of type) t (s_locks s) rc l'
  | Cleaning _ => ∃ s', rtc TxnAccess.step s s' ∧ t_acc (TxnAccess.s_txns s' t) = [] ∧
      s_cval s' = s_cval s ∧ s_hist s' = s_hist s ∧
      (∀ t', t' ≠ t → TxnAccess.s_txns s' t' = TxnAccess.s_txns s t') ∧
      (∀ i, can_write (TxnAccess.s_txns s t) i → s_data s' i = s_cval s i)
  end.
Proof.
  intros Hn Hh Hr. pose proof (txn_inv_reachable _ _ _ (init_fresh n h Hn Hh) Hr) as Hi.
  destruct (t_phase _) eqn:Hp.
  - by apply (to_idle _ _ _ _ _ (iv_txn _ _ Hi t)).
  - intros i type. by apply (get_row_enabled d0).
  - by apply (cleanup_done d0 s t rc).
Qed.

End lock_table.

(** *** Examples *)

(** Under NO_WAIT transaction 0 gets the only row for writing and writes 7 to it. *)
Definition ex_locks : LockTable.sys :=
  LockTable.mkSys [LockTable.mkLR (RowLock.mkRow LOCK_EX 1 0 1 [[]] [] 5) [RowLock.mkEntry LOCK_EX 0%nat]]
    (<[0%nat := LockTable.ex_txn 10 5]> LockTable.ex_h0) [] [0%nat] None (λ _, 0) 0.

Definition ex_writer (p : phase) : txn Z := mkTxn p [mkAcc WR 0%nat (Some 0)] None [Write 0%nat 7].

Definition ex_init : state Z LockTable.sys := init_state (LockTable.init_sys 1 LockTable.ex_h0) (λ _, 0).

Definition ex_txns (p : phase) : txn_ptr → txn Z :=
  <[0%nat := ex_writer p]> (<[0%nat := mkTxn Running [mkAcc WR 0%nat (Some 0)] None []]>
    (<[0%nat := new_txn Running]> (λ _, new_txn Idle))).

Definition ex_written : state Z LockTable.sys :=
  mkS ex_locks (<[0%nat := 7]> (λ _, 0)) (ex_txns Running) (λ _, 0) [].

#[local] Existing Instance table_service.

Lemma ex_written_run : rtc (@step Z _ LockTable.sys (table_service NO_WAIT)) ex_init ex_written.
Proof.
  eapply rtc_l; [eapply (step_begin _ 0%nat)|].
  { done. }
  { exists (LockTable.ex_txn 10 5). split_and!; [constructor|by left|done|reflexivity]. }
  eapply rtc_l; [eapply (step_get_row _ 0%nat 0%nat WR RCOK)|].
  { done. } { done. } { by intros ?%elem_of_nil. } { done. }
  { exists (LockTable.mkLR RowLock.init []). eexists. split_and!; reflexivity. }
  eapply rtc_l; [eapply (step_write _ 0%nat 0%nat 7)|].
  { done. } { exists (mkAcc WR 0%nat (Some 0)). split_and!; [by left|done|done]. }
  apply rtc_refl.
Qed.

Definition ex_final (rc : RC) (cval : row_ptr → Z) (hist : list (list (op Z))) : state Z LockTable.sys :=
  mkS ex_locks (<[0%nat := 7]> (λ _, 0))
    (<[0%nat := ex_writer (Cleaning rc)]> (ex_txns Running)) cval hist.

Definition ex_committed : state Z LockTable.sys :=
  ex_final RCOK (<[0%nat := 7]> (λ _, 0)) [[Write 0%nat 7]].

Definition ex_aborted : state Z LockTable.sys := ex_final Abort (λ _, 0) [].

Lemma ex_committed_run : rtc (@step Z _ LockTable.sys (table_service NO_WAIT)) ex_init ex_committed.
Proof. eapply rtc_r; [exact ex_written_run|]. exact (step_commit ex_written 0%nat eq_refl eq_refl). Qed.

Lemma ex_aborted_run : rtc (@step Z _ LockTable.sys (table_service NO_WAIT)) ex_init ex_aborted.
Proof. eapply rtc_r; [exact ex_written_run|]. exact (step_abort ex_written 0%nat eq_refl eq_refl). Qed.

Lemma two_phase_serializable_witness :
  replay (λ _, 0) [Write 0%nat 7] = Some (s_cval ex_committed) ∧ s_data ex_committed 0%nat = 7.
Proof.
  destruct (two_phase_serializable NO_WAIT (or_introl eq_refl) 1 LockTable.ex_h0 (λ _, 0) ex_committed)
    as (H1&_&_); [done|done|exact ex_committed_run|].
  split; [exact H1|reflexivity].
Defined.

Lemma two_phase_calls_return_witness :
  ∃ s' : state Z LockTable.sys,
    rtc (@step Z _ LockTable.sys (table_service NO_WAIT)) ex_aborted s' ∧
    t_acc (s_txns s' 0%nat) = [] ∧ s_data s' 0%nat = 0.
Proof.
  destruct (two_phase_calls_return NO_WAIT (or_introl eq_refl) 1 LockTable.ex_h0 (λ _, 0) ex_aborted 0%nat)
    as (s'&Hr&Ha&_&_&_&Hd); [done|done|exact ex_aborted_run|].
  exists s'. split; [exact Hr|]. split; [exact Ha|].
  apply (Hd 0%nat). exists (mkAcc WR 0%nat (Some 0)). split_and!; [by left|done|done].
Defined.

End TxnAccess.
