(* ===== verification/Sequencer.v ===== *)
(** * Sequencer: Calvin's batches

    Model of [Sequencer] (system/sequencer.cpp) for YCSB: [process_txn] puts a
    client's query into the batch of the next epoch and into the fill queues of its
    participants, [send_next_batch] sends the fill queues and the end of the batch to
    all nodes, [process_ack] counts the acknowledgements and answers the client.  The
    wait list is a list of batches from head to tail, and the entries of a batch are an
    array of which only written cells have a value.  Clock readings are statistics
    and not modelled. *)

From S2P Require Import Prelude.

Module Sequencer.

Record config := mkCfg {
  g_node_cnt : nat;
  g_client_node_cnt : nat;
  g_part_cnt : Z;
  g_inflight_max : Z }.

Inductive msg_type := CL_QRY | RDONE.

Record ycsb_request := mkReq { acctype : access_t; key : Z }.

(** The fields of a query message, and of the message that ends a batch. *)
Record Message := mkMsg {
  rtype : msg_type;
  txn_id : Z;
  batch_id : Z;
  return_node_id : nat;
  requests : list ycsb_request;
  client_startts : Z }.

Record qlite := mkQ {
  client_id : nat;
  q_startts : Z;
  server_ack_cnt : Z;
  q_msg : Message }.

Record qlite_ll := mkEn {
  en_list : list (option qlite);
  size : Z;
  max_size : Z;
  txns_left : Z;
  epoch : Z }.

Record Sequencer := mkSeq {
  next_txn_id : Z;
  wl : list qlite_ll;
  fill_queue : list (list Message) }.

(** The answer to the client. *)
Record CL_RSP := mkRsp { r_dest : nat; r_txn_id : Z; r_startts : Z }.

#[export] Instance msg_type_eq_dec : EqDecision msg_type.
Proof. solve_decision. Defined.
#[export] Instance ycsb_request_eq_dec : EqDecision ycsb_request.
Proof. solve_decision. Defined.
#[export] Instance Message_eq_dec : EqDecision Message.
Proof. solve_decision. Defined.

(** The capacity of a fill queue. *)
Definition fill_capacity : Z := 65526.

Section sequencer.
Context (c : config).

Definition ISSERVERN (id : nat) : bool := bool_decide (id < g_node_cnt c)%nat.
Definition ISCLIENTN (id : nat) : bool :=
  bool_decide (g_node_cnt c ≤ id)%nat && bool_decide (id < g_node_cnt c + g_client_node_cnt c)%nat.
Definition GET_NODE_ID (part : Z) : Z := part `mod` Z.of_nat (g_node_cnt c).
Definition key_to_part (key : Z) : Z := key `mod` g_part_cnt c.

(** [YCSBQuery::participants]; a set is in ascending order. *)
Definition participants (m : Message) : list nat :=
  Z.to_nat <$> foldl (λ s req, sset_insert (GET_NODE_ID (key_to_part (key req))) s) [] (requests m).

Definition init : Sequencer := mkSeq 0 [] (replicate (g_node_cnt c) []).

(** *** [process_txn] *)

Definition new_list (e : Z) : qlite_ll := mkEn (replicate 1000 None) 0 1000 0 e.

(** The wait list without the batch of epoch [e], and that batch. *)
Definition open_batch (e : Z) (l : list qlite_ll) : list qlite_ll * qlite_ll :=
  match reverse l with
  | en :: l' => if epoch en =? e then (reverse l', en) else (l, new_list e)
  | [] => (l, new_list e)
  end.

Definition grow (en : qlite_ll) : qlite_ll :=
  if size en =? max_size en then
    let m := wrap32 (max_size en * 2) in
    mkEn (resize (Z.to_nat m) None (en_list en)) (size en) m (txns_left en) (epoch en)
  else en.

(** [en->list[id] = ...], stopping outside the array. *)
Definition put_entry (id : Z) (q : qlite) (l : list (option qlite)) : option (list (option qlite)) :=
  ASSERT (id <? zlen l); Some (<[Z.to_nat id := Some q]> l).

(** A push to a full queue is repeated until the simulation ends. *)
Fixpoint push_all (ps : list nat) (m : Message) (fq : list (list Message)) : option (list (list Message)) :=
  match ps with
  | [] => Some fq
  | p :: ps =>
      q ← fq !! p;
      ASSERT (zlen q <? fill_capacity);
      push_all ps m (<[p := q ++ [m]]> fq)
  end.

(** The entry of a query is written and the batch counts it. *)
Definition add_query (id : Z) (q : qlite) (en : qlite_ll) : option qlite_ll :=
  l ← put_entry id q (en_list en);
  let en := mkEn l (wrap64 (size en + 1)) (max_size en) (wrap32 (txns_left en + 1)) (epoch en) in
  ASSERT (size en =? txns_left en);
  ASSERT (size en <=? wrap64 (g_inflight_max c * Z.of_nat (g_node_cnt c)));
  Some en.

(** The sequencer afterwards and the message as it was modified. *)
Definition process_txn (g_node_id : nat) (seq_epoch : Z) (msg : Message) (s : Sequencer)
    : option (Sequencer * Message) :=
  let '(front, en) := open_batch (wrap64 (seq_epoch + 1)) (wl s) in
  let en := grow en in
  let tid := wrap32 (Z.of_nat g_node_id + wrap32 (Z.of_nat (g_node_cnt c) * next_txn_id s)) in
  ASSERT (negb (tid =? UINT64_MAX));
  let ps := participants msg in
  ASSERT (0 <? zlen ps);
  ASSERT (ISCLIENTN (return_node_id msg));
  let msg' := mkMsg (rtype msg) tid (epoch en) g_node_id (requests msg) (client_startts msg) in
  let q := mkQ (return_node_id msg) (client_startts msg) (zlen ps) msg' in
  en ← add_query (tid / Z.of_nat (g_node_cnt c)) q en;
  fq ← push_all ps msg' (fill_queue s);
  Some (mkSeq (wrap32 (next_txn_id s + 1)) (front ++ [en]) fq, msg').

(** *** [process_ack] *)

Definition process_ack (batch txn : Z) (s : Sequencer) : option (Sequencer * option CL_RSP) :=
  '(i, en) ← list_find (λ en, epoch en = batch) (wl s);
  ASSERT (0 <? txns_left en);
  let id := Z.to_nat (txn / Z.of_nat (g_node_cnt c)) in
  q ← mjoin (en_list en !! id);
  ASSERT (0 <? server_ack_cnt q);
  let left := wrap32 (server_ack_cnt q - 1) in
  let q' := mkQ (client_id q) (q_startts q) left (q_msg q) in
  let en' := mkEn (<[id := Some q']> (en_list en)) (size en) (max_size en)
    (if left =? 0 then wrap32 (txns_left en - 1) else txns_left en) (epoch en) in
  let rsp := if left =? 0 then Some (mkRsp (client_id q) txn (q_startts q)) else None in
  let wl' := if txns_left en' =? 0 then delete i (wl s) else <[i := en']> (wl s) in
  Some (mkSeq (next_txn_id s) wl' (fill_queue s), rsp).

(** *** [send_next_batch] *)

Definition rdone (g_node_id : nat) (seq_epoch : Z) : Message :=
  mkMsg RDONE UINT64_MAX seq_epoch g_node_id [] 0.

(** What goes to each node, and the sequencer afterwards. *)
Definition send_next_batch (g_node_id : nat) (seq_epoch : Z) (s : Sequencer)
    : list (list Message) * Sequencer :=
  ((λ q, q ++ [rdone g_node_id seq_epoch]) <$> fill_queue s,
   mkSeq 0 (wl s) ((λ _, []) <$> fill_queue s)).

(** ** The invariant *)

(** The fill queues hold a whole batch and transaction ids fit 32 bits. *)
Record cfg_ok : Prop := {
  co_nodes : (0 < g_node_cnt c)%nat;
  co_parts : 0 < g_part_cnt c;
  co_inflight : 0 ≤ g_inflight_max c;
  co_fill : g_inflight_max c * Z.of_nat (g_node_cnt c) ≤ fill_capacity;
  co_ids : Z.of_nat (g_node_cnt c) * (g_inflight_max c * Z.of_nat (g_node_cnt c) + 2) < u32_mod }.

(** A sequenced query and the client it came from; the history of a node is ghost
    state. *)
Record sequenced := mkSq { sq_client : nat; sq_msg : Message }.

Definition sq_batch (x : sequenced) : Z := batch_id (sq_msg x).
Definition sq_txn (x : sequenced) : Z := txn_id (sq_msg x).
Definition batch (h : list sequenced) (b : Z) : list sequenced := filter (λ x, sq_batch x = b) h.

(** [out b t] is the number of acknowledgements still to come for transaction [t] of
    batch [b]. *)
Definition entry_of (out : Z → Z → Z) (x : sequenced) : qlite :=
  mkQ (sq_client x) (client_startts (sq_msg x)) (out (sq_batch x) (sq_txn x)) (sq_msg x).

Definition open_txns (out : Z → Z → Z) (l : list sequenced) : list sequenced :=
  filter (λ x, 0 < out (sq_batch x) (sq_txn x)) l.

Record en_ok (h : list sequenced) (out : Z → Z → Z) (en : qlite_ll) : Prop := {
  eo_size : size en = zlen (batch h (epoch en));
  eo_len : zlen (en_list en) = max_size en;
  eo_max : size en ≤ max_size en ∧ 1000 ≤ max_size en ≤ 2 * fill_capacity;
  eo_left : txns_left en = zlen (open_txns out (batch h (epoch en)));
  eo_entry : ∀ k x, batch h (epoch en) !! k = Some x → en_list en !! k = Some (Some (entry_of out x)) }.

Record seq_ok (i : nat) (E : Z) (h : list sequenced) (out : Z → Z → Z) (s : Sequencer) : Prop := {
  so_epoch : 0 ≤ E ∧ E + 2 < u64_mod;
  so_node : (i < g_node_cnt c)%nat;
  so_hist : Forall (λ x, 1 ≤ sq_batch x ≤ E + 1 ∧ rtype (sq_msg x) = CL_QRY ∧
    return_node_id (sq_msg x) = i ∧ participants (sq_msg x) ≠ []) h;
  so_ids : ∀ b k x, batch h b !! k = Some x →
    sq_txn x = Z.of_nat i + Z.of_nat (g_node_cnt c) * Z.of_nat k;
  so_cap : ∀ b, zlen (batch h b) ≤ g_inflight_max c * Z.of_nat (g_node_cnt c);
  so_next : next_txn_id s = zlen (batch h (E + 1));
  so_len : length (fill_queue s) = g_node_cnt c;
  so_fill : ∀ j, (j < g_node_cnt c)%nat → fill_queue s !! j =
    Some (filter (λ m, j ∈ participants m) (sq_msg <$> batch h (E + 1)));
  so_sorted : StronglySorted (λ a b, epoch a < epoch b) (wl s);
  so_bound : Forall (λ en, 1 ≤ epoch en ≤ E + 1) (wl s);
  so_wl : Forall (λ en, en_ok h out en ∧ 0 < txns_left en) (wl s);
  so_live : ∀ x, x ∈ h → 0 < out (sq_batch x) (sq_txn x) → sq_batch x ∈ epoch <$> wl s;
  so_cur : ∀ x, x ∈ h → sq_batch x = E + 1 → 0 < out (sq_batch x) (sq_txn x);
  so_out : ∀ b t, 0 ≤ out b t ≤ Z.of_nat (g_node_cnt c) ∧
    (0 < out b t → ∃ x, x ∈ h ∧ sq_batch x = b ∧ sq_txn x = t) }.

(** ** Histories *)

Lemma batch_app h h' b : batch (h ++ h') b = batch h b ++ batch h' b.
Proof. apply filter_app. Qed.

Lemma batch_single x b : batch [x] b = if decide (sq_batch x = b) then [x] else [].
Proof. unfold batch. case_decide; [by rewrite filter_cons_True|by rewrite filter_cons_False]. Qed.

Lemma batch_snoc h x : batch (h ++ [x]) (sq_batch x) = batch h (sq_batch x) ++ [x].
Proof. by rewrite batch_app, batch_single, decide_True. Qed.

Lemma batch_snoc_other h x b : b ≠ sq_batch x → batch (h ++ [x]) b = batch h b.
Proof. intros Hb. rewrite batch_app, batch_single, decide_False by congruence. apply app_nil_r. Qed.

Lemma elem_of_batch h b x : x ∈ batch h b ↔ sq_batch x = b ∧ x ∈ h.
Proof. unfold batch. by rewrite list_elem_of_filter. Qed.

(** Transactions of a node are told apart by batch and id. *)
Lemma sq_key_inj i E h out s x y : seq_ok i E h out s → x ∈ h → y ∈ h →
  sq_batch x = sq_batch y → sq_txn x = sq_txn y → x = y.
Proof.
  intros Hs Hx Hy Hb Ht.
  assert (x ∈ batch h (sq_batch x)) as [k Hk]%list_elem_of_lookup by (by apply elem_of_batch).
  assert (y ∈ batch h (sq_batch x)) as [k' Hk']%list_elem_of_lookup by (by apply elem_of_batch).
  pose proof (so_ids _ _ _ _ _ Hs _ _ _ Hk). pose proof (so_ids _ _ _ _ _ Hs _ _ _ Hk').
  pose proof (so_node _ _ _ _ _ Hs).
  assert (k = k') as -> by nia. congruence.
Qed.

Lemma tid_index i k : (i < g_node_cnt c)%nat →
  (Z.of_nat i + Z.of_nat (g_node_cnt c) * k) / Z.of_nat (g_node_cnt c) = k.
Proof. intros Hi. rewrite Z.add_comm, Z.mul_comm, Z.div_add_l, Z.div_small by lia. lia. Qed.

Lemma tid_node i k : (i < g_node_cnt c)%nat →
  (Z.of_nat i + Z.of_nat (g_node_cnt c) * k) `mod` Z.of_nat (g_node_cnt c) = Z.of_nat i.
Proof. intros Hi. rewrite (Z.mul_comm _ k), Z.mod_add, Z.mod_small by lia. done. Qed.

(** The index of a transaction in its batch. *)
Lemma sq_index i E h out s b k x : seq_ok i E h out s → batch h b !! k = Some x →
  Z.to_nat (sq_txn x / Z.of_nat (g_node_cnt c)) = k.
Proof.
  intros Hs Hk. rewrite (so_ids _ _ _ _ _ Hs _ _ _ Hk). pose proof (so_node _ _ _ _ _ Hs).
  rewrite tid_index by done. lia.
Qed.

Lemma hist_NoDup i E h out s : seq_ok i E h out s → NoDup h.
Proof.
  intros Hs. assert (∀ b, NoDup (batch h b)) as Hb.
  { intros b. apply NoDup_alt. intros k k' x Hk Hk'.
    pose proof (so_ids _ _ _ _ _ Hs _ _ _ Hk). pose proof (so_ids _ _ _ _ _ Hs _ _ _ Hk').
    pose proof (so_node _ _ _ _ _ Hs). nia. }
  clear Hs. induction h as [|x h IH]; constructor.
  - intros Hx. specialize (Hb (sq_batch x)). unfold batch in Hb. rewrite filter_cons_True in Hb by done.
    apply NoDup_cons in Hb as [Hn _]. by apply Hn, elem_of_batch.
  - apply IH. intros b. specialize (Hb b). unfold batch in *. rewrite filter_cons in Hb.
    case_decide; [by apply NoDup_cons in Hb as [_ ?]|done].
Qed.

(** Only the counts of the batch matter. *)
Lemma en_ok_ext h h' out out' en : en_ok h out en → batch h' (epoch en) = batch h (epoch en) →
  (∀ x, x ∈ batch h (epoch en) → out' (sq_batch x) (sq_txn x) = out (sq_batch x) (sq_txn x)) →
  en_ok h' out' en.
Proof.
  intros [] Hb Ho. split; rewrite ?Hb; try done.
  - rewrite eo_left0. unfold open_txns. do 2 f_equal. apply list_filter_ext.
    intros x Hx. by rewrite Ho.
  - intros k x Hk. rewrite (eo_entry0 k x Hk). unfold entry_of. rewrite Ho; [done|].
    by eapply list_elem_of_lookup_2.
Qed.

Lemma seq_ok_ext i E h out out' s : (∀ b t, out' b t = out b t) →
  seq_ok i E h out s → seq_ok i E h out' s.
Proof.
  intros Ho []. split; try done.
  - eapply Forall_impl; [exact so_wl0|]. intros en [Hen ?]. split; [|done].
    by apply (en_ok_ext h h out).
  - intros x Hx. rewrite Ho. auto.
  - intros x Hx. rewrite Ho. auto.
  - intros b t. by rewrite Ho.
Qed.

(** ** Participants *)

Lemma participants_sset m : cfg_ok → ∃ l, participants m = Z.to_nat <$> l ∧
  StronglySorted Z.lt l ∧ Forall (λ z, 0 ≤ z < Z.of_nat (g_node_cnt c)) l.
Proof.
  intros Hc. eexists. split; [done|]. pose proof (co_nodes Hc).
  enough (∀ ks l, StronglySorted Z.lt l → Forall (λ z, 0 ≤ z < Z.of_nat (g_node_cnt c)) l →
    StronglySorted Z.lt (foldl (λ s req, sset_insert (GET_NODE_ID (key_to_part (key req))) s) l ks) ∧
    Forall (λ z, 0 ≤ z < Z.of_nat (g_node_cnt c))
      (foldl (λ s req, sset_insert (GET_NODE_ID (key_to_part (key req))) s) l ks)) as H'
    by (apply H'; constructor).
  intros ks. induction ks as [|k ks IH]; intros l Hs Hf; simpl; [done|]. apply IH.
  - by apply sset_insert_sorted.
  - rewrite Forall_forall in *. intros z Hz. apply elem_of_sset_insert in Hz as [->|Hz]; [|auto].
    apply Z.mod_pos_bound. lia.
Qed.

Lemma participants_lt m j : cfg_ok → j ∈ participants m → (j < g_node_cnt c)%nat.
Proof.
  intros Hc Hj. destruct (participants_sset m Hc) as (l&E&_&Hf). rewrite E in Hj.
  apply list_elem_of_fmap in Hj as (z&->&Hz). rewrite Forall_forall in Hf. specialize (Hf z Hz). lia.
Qed.

Lemma participants_NoDup m : cfg_ok → NoDup (participants m).
Proof.
  intros Hc. destruct (participants_sset m Hc) as (l&->&Hs&Hf). clear Hc.
  induction Hs as [|z l Hs IH Hz]; simpl; [constructor|]. apply Forall_cons in Hf as [Hz0 Hf].
  constructor; [|by apply IH]. intros (y&Hy&Hyl)%list_elem_of_fmap.
  rewrite Forall_forall in Hz, Hf. specialize (Hz y Hyl). specialize (Hf y Hyl). lia.
Qed.

Lemma participants_len m : cfg_ok → zlen (participants m) ≤ Z.of_nat (g_node_cnt c).
Proof.
  intros Hc. apply Nat2Z.inj_le. rewrite <-(length_seq (g_node_cnt c) 0).
  apply submseteq_length, NoDup_submseteq; [by apply participants_NoDup|]. intros j Hj%participants_lt; [|done].
  apply elem_of_seq. lia.
Qed.

(** ** Fill queues *)

Lemma push_all_spec ps m fq : NoDup ps → (∀ p, p ∈ ps → ∃ q, fq !! p = Some q ∧ zlen q < fill_capacity) →
  ∃ fq', push_all ps m fq = Some fq' ∧ length fq' = length fq ∧
    (∀ j q, fq !! j = Some q → fq' !! j = Some (if decide (j ∈ ps) then q ++ [m] else q)) ∧
    concat fq' ≡ₚ replicate (length ps) m ++ concat fq.
Proof.
  revert fq. induction ps as [|p ps IH]; intros fq Hnd Hq.
  { exists fq. split_and!; [done..| |done]. intros j q Hj. rewrite decide_False; [done|apply not_elem_of_nil]. }
  cbn [push_all].
  apply NoDup_cons in Hnd as [Hp Hnd]. destruct (Hq p) as (q&Hpq&Hlen); [by left|].
  rewrite Hpq. simpl. rewrite (proj2 (Z.ltb_lt _ _) Hlen). simpl.
  destruct (IH (<[p := q ++ [m]]> fq)) as (fq'&Hf&Hl&Hj&Hp'); [done| |].
  { intros p' Hp'. rewrite list_lookup_insert_ne by (intros ->; done). apply Hq. by right. }
  exists fq'. split_and!; [done|by rewrite Hl, length_insert| |].
  2:{ rewrite Hp', (concat_snoc_perm fq p q m Hpq). simpl. by rewrite Permutation_middle. }
  intros j q' Hq'. destruct (decide (j = p)) as [->|Hne].
  - rewrite (Hj p (q ++ [m])) by (rewrite list_lookup_insert_eq; [done|by eapply lookup_lt_Some]).
    rewrite decide_False by done. rewrite decide_True by (by left). congruence.
  - rewrite (Hj j q') by (by rewrite list_lookup_insert_ne).
    destruct (decide (j ∈ ps)).
    + by rewrite decide_True by (by right).
    + rewrite decide_False; [done|]. by intros [?|?]%elem_of_cons.
Qed.

(** ** [process_txn] *)

(** The batch that is being filled is the last of the wait list, or new. *)
Record opened (E : Z) (h : list sequenced) (out : Z → Z → Z) (l front : list qlite_ll) (en : qlite_ll)
    : Prop := {
  op_epoch : epoch en = E + 1;
  op_ok : en_ok h out en;
  op_front : Forall (λ e, epoch e < E + 1) front;
  op_sub : front `sublist_of` l;
  op_all : ∀ e, e ∈ l → epoch e = E + 1 ∨ e ∈ front }.

Lemma new_list_ok h out e : batch h e = [] → en_ok h out (new_list e).
Proof.
  intros Hb. split; unfold new_list; cbn [size max_size txns_left en_list epoch]; rewrite ?Hb; done.
Qed.

Lemma open_batch_spec i E h out s : seq_ok i E h out s →
  ∃ front en, open_batch (E + 1) (wl s) = (front, en) ∧ opened E h out (wl s) front en.
Proof.
  intros Hs. destruct Hs. unfold open_batch. rewrite <-(reverse_involutive (wl s)) in *.
  destruct (reverse (wl s)) as [|en r] eqn:Er.
  - simpl in *. eexists _, _. split; [done|]. split; try done.
    + apply new_list_ok, elem_of_nil_inv. intros x [Hb Hx]%elem_of_batch.
      apply (elem_of_nil (sq_batch x)). apply so_live0; [done|]. by apply so_cur0.
    + intros e He. by apply elem_of_nil in He.
  - rewrite reverse_involutive. rewrite reverse_cons in *. apply Forall_app in so_wl0 as [_ Hen].
    apply Forall_cons in Hen as [[Hen _] _]. apply Forall_app in so_bound0 as [Hbf Hbe].
    apply Forall_cons in Hbe as [Hbe _].
    assert (∀ e, e ∈ reverse r → epoch e < epoch en) as Hlt.
    { intros e He. by apply (StronglySorted_app_1_elem_of _ _ _ e en so_sorted0); [|left]. }
    destruct (Z.eqb_spec (epoch en) (E + 1)) as [He|He]; eexists _, _; (split; [done|]); split; try done.
    + apply Forall_forall. intros e H'%Hlt. lia.
    + by apply sublist_inserts_r.
    + intros e [H'|H']%elem_of_app; [by right|]. apply list_elem_of_singleton in H' as ->. by left.
    + apply new_list_ok, elem_of_nil_inv. intros x [Hb Hx]%elem_of_batch.
      pose proof (so_live0 x Hx (so_cur0 x Hx Hb)) as (e&Hxe&He')%list_elem_of_fmap.
      apply elem_of_app in He' as [He'|He'%list_elem_of_singleton]; [|congruence].
      specialize (Hlt e He'). lia.
    + apply Forall_app. split; [|constructor; [lia|done]].
      apply Forall_forall. intros e H'%Hlt. lia.
    + intros e He'. by right.
Qed.

Lemma grow_ok h out en : en_ok h out en → size en ≤ fill_capacity →
  en_ok h out (grow en) ∧ size en < max_size (grow en) ∧ size (grow en) = size en ∧
  txns_left (grow en) = txns_left en ∧ epoch (grow en) = epoch en.
Proof.
  intros Hen Hsz. pose proof Hen as []. unfold grow. destruct (Z.eqb_spec (size en) (max_size en)) as [E|E].
  - assert (wrap32 (max_size en * 2) = max_size en * 2) as ->.
    { apply wrap32_small. unfold is_u32, u32_mod, fill_capacity in *. lia. }
    split_and!; cbn [size max_size txns_left epoch]; [|lia|done..].
    split; cbn [size max_size txns_left epoch en_list]; try done.
    + rewrite length_resize. lia.
    + unfold fill_capacity in *. lia.
    + intros k x Hk. pose proof (lookup_lt_Some _ _ _ Hk). rewrite lookup_resize; [eauto|lia..].
  - split_and!; [done|lia|done..].
Qed.

Lemma add_entry_ok h out out' en x l : en_ok h out en → size en < max_size en → size en < fill_capacity →
  sq_batch x = epoch en → 0 < out' (sq_batch x) (sq_txn x) →
  (∀ y, y ∈ batch h (epoch en) → out' (sq_batch y) (sq_txn y) = out (sq_batch y) (sq_txn y)) →
  l = <[length (batch h (epoch en)) := Some (entry_of out' x)]> (en_list en) →
  en_ok (h ++ [x]) out' (mkEn l (size en + 1) (max_size en) (txns_left en + 1) (epoch en)).
Proof.
  intros [] Hlt Hcap Hx Hpos Hold ->.
  pose proof (batch_snoc h x) as Hb. rewrite Hx in Hb.
  split; cbn [size max_size txns_left epoch en_list]; rewrite ?Hb.
  - rewrite length_app. simpl. lia.
  - by rewrite length_insert.
  - lia.
  - unfold open_txns. rewrite filter_app, filter_cons_True, length_app by done. simpl.
    rewrite (list_filter_ext _ (λ y, 0 < out (sq_batch y) (sq_txn y))); [|intros y Hy; by rewrite Hold].
    unfold open_txns in eo_left0. lia.
  - intros k y Hk. apply lookup_snoc_Some in Hk as [[Hk Hy]|[-> <-]].
    + rewrite list_lookup_insert_ne by lia. rewrite (eo_entry0 k y Hy). unfold entry_of.
      rewrite Hold; [done|]. by eapply list_elem_of_lookup_2.
    + rewrite list_lookup_insert_eq; [done|]. lia.
Qed.

(** The next transaction of node [i], as [process_txn] modifies its message. *)
Definition next_txn (i : nat) (E : Z) (h : list sequenced) (m : Message) : sequenced :=
  mkSq (return_node_id m)
    (mkMsg (rtype m) (Z.of_nat i + Z.of_nat (g_node_cnt c) * zlen (batch h (E + 1))) (E + 1) i
       (requests m) (client_startts m)).

Definition add_out (out : Z → Z → Z) (x : sequenced) (b t : Z) : Z :=
  out b t + if decide (b = sq_batch x ∧ t = sq_txn x) then zlen (participants (sq_msg x)) else 0.

(** The next transaction is a new one. *)
Lemma next_txn_new i E h out s m : seq_ok i E h out s →
  ∀ y, y ∈ h → ¬ (sq_batch y = E + 1 ∧ sq_txn y = sq_txn (next_txn i E h m)).
Proof.
  intros Hs y Hy [Hb Ht].
  assert (y ∈ batch h (E + 1)) as [k Hk]%list_elem_of_lookup by (by apply elem_of_batch).
  pose proof (so_ids _ _ _ _ _ Hs _ _ _ Hk) as Hid. rewrite Ht in Hid. unfold sq_txn in Hid. simpl in Hid.
  pose proof (lookup_lt_Some _ _ _ Hk). pose proof (so_node _ _ _ _ _ Hs). nia.
Qed.

Lemma add_out_old i E h out s m y : seq_ok i E h out s → y ∈ h →
  add_out out (next_txn i E h m) (sq_batch y) (sq_txn y) = out (sq_batch y) (sq_txn y).
Proof.
  intros Hs Hy. unfold add_out. rewrite decide_False; [lia|].
  by apply (next_txn_new _ _ _ _ _ m Hs).
Qed.

Lemma add_out_new i E h out s m : seq_ok i E h out s →
  let x := next_txn i E h m in
  add_out out x (sq_batch x) (sq_txn x) = zlen (participants m).
Proof.
  intros Hs x. unfold add_out. rewrite decide_True by done.
  replace (out (sq_batch x) (sq_txn x)) with 0; [done|].
  destruct (so_out _ _ _ _ _ Hs (sq_batch x) (sq_txn x)) as [? Hex].
  destruct (decide (out (sq_batch x) (sq_txn x) = 0)) as [|Hne]; [done|].
  destruct Hex as (y&Hy&Hb&Ht); [lia|]. by destruct (next_txn_new _ _ _ _ _ m Hs y Hy).
Qed.

(** The state after [process_txn]. *)
Lemma seq_ok_add i E h out s m front en l fq : cfg_ok → seq_ok i E h out s →
  rtype m = CL_QRY → participants m ≠ [] →
  zlen (batch h (E + 1)) < g_inflight_max c * Z.of_nat (g_node_cnt c) →
  opened E h out (wl s) front en →
  let x := next_txn i E h m in
  en_ok (h ++ [x]) (add_out out x) l → 0 < txns_left l → epoch l = E + 1 →
  length fq = length (fill_queue s) →
  (∀ j q, fill_queue s !! j = Some q →
     fq !! j = Some (if decide (j ∈ participants m) then q ++ [sq_msg x] else q)) →
  seq_ok i E (h ++ [x]) (add_out out x) (mkSeq (next_txn_id s + 1) (front ++ [l]) fq).
Proof.
  intros Hc Hs Hrt Hps Hcap Hop x Hl Hleft Hel Hlen Hfq.
  pose proof (λ y, add_out_old i E h out s m y Hs) as Hold. pose proof (add_out_new i E h out s m Hs) as Hnew.
  fold x in Hold, Hnew. cbv zeta in Hnew. pose proof (participants_len m Hc).
  assert (0 < zlen (participants m)) as Hpos by (destruct (participants m); [done|simpl; lia]).
  assert (sq_batch x = E + 1) as Hbx by done.
  pose proof (batch_snoc_other h x) as Hother. pose proof (batch_snoc h x) as Hcur.
  rewrite Hbx in Hother, Hcur.
  destruct Hs, Hop. split; cbn [next_txn_id wl fill_queue]; try done.
  - apply Forall_app. split; [done|]. constructor; [|done]. rewrite Hbx. simpl. split_and!; try done; lia.
  - intros b k y Hk. destruct (decide (b = E + 1)) as [->|Hb]; [|rewrite Hother in Hk by done; eauto].
    rewrite Hcur in Hk. apply lookup_snoc_Some in Hk as [[_ Hk]|[-> <-]]; [eauto|done].
  - intros b. destruct (decide (b = E + 1)) as [->|Hb]; [|by rewrite Hother].
    rewrite Hcur, length_app. simpl. lia.
  - rewrite Hcur, length_app. simpl. lia.
  - congruence.
  - intros j Hj. rewrite (Hfq j _ (so_fill0 j Hj)), Hcur, fmap_app, filter_app. do 2 f_equal. simpl.
    destruct (decide (j ∈ participants m)).
    + by rewrite filter_cons_True.
    + by rewrite filter_cons_False, app_nil_r.
  - apply StronglySorted_app_2; [|by eapply StronglySorted_sublist|by repeat constructor].
    intros a b Ha ->%list_elem_of_singleton. rewrite Forall_forall in op_front0. rewrite Hel. auto.
  - apply Forall_app. split; [|constructor; [lia|done]]. rewrite Forall_forall in *.
    intros e He. apply so_bound0. by eapply elem_of_sublist.
  - apply Forall_app. split; [|by constructor]. rewrite Forall_forall in *. intros e He.
    destruct (so_wl0 e) as [Hen ?]; [by eapply elem_of_sublist|]. split; [|done].
    specialize (op_front0 e He). eapply en_ok_ext; [done|apply Hother; lia|].
    intros y [_ Hy]%elem_of_batch. auto.
  - intros y [Hy|Hy]%elem_of_app Ho.
    + rewrite Hold in Ho by done. pose proof (so_live0 y Hy Ho) as (e&He&Hin)%list_elem_of_fmap.
      rewrite fmap_app. apply elem_of_app. destruct (op_all0 e Hin) as [Hee|Hin'].
      * right. simpl. rewrite He, Hee, Hel. by left.
      * left. rewrite He. by apply list_elem_of_fmap_2.
    + apply list_elem_of_singleton in Hy as ->. rewrite fmap_app. apply elem_of_app. right.
      simpl. rewrite Hel. by left.
  - intros y [Hy|Hy]%elem_of_app Hb.
    + rewrite Hold by done. auto.
    + apply list_elem_of_singleton in Hy as ->. by rewrite Hnew.
  - intros b t. destruct (decide (b = sq_batch x ∧ t = sq_txn x)) as [[-> ->]|Hne].
    + rewrite Hnew. split; [lia|]. intros _. exists x. split_and!; try done.
      apply elem_of_app. right. by left.
    + unfold add_out. rewrite decide_False by done. destruct (so_out0 b t) as [Ho Hex]. split; [lia|].
      intros Hp. destruct Hex as (y&Hy&?&?); [lia|]. exists y. split_and!; try done.
      apply elem_of_app. by left.
Qed.

Lemma cap_bounds : cfg_ok →
  wrap64 (g_inflight_max c * Z.of_nat (g_node_cnt c)) = g_inflight_max c * Z.of_nat (g_node_cnt c).
Proof.
  intros []. apply wrap64_small. unfold is_u64, u64_mod, fill_capacity in *. nia.
Qed.

Lemma next_tid i E h out s : cfg_ok → seq_ok i E h out s →
  wrap32 (Z.of_nat i + wrap32 (Z.of_nat (g_node_cnt c) * next_txn_id s)) =
    Z.of_nat i + Z.of_nat (g_node_cnt c) * zlen (batch h (E + 1)).
Proof.
  intros [] []. rewrite so_next0. specialize (so_cap0 (E + 1)).
  assert (is_u32 (Z.of_nat i + Z.of_nat (g_node_cnt c) * zlen (batch h (E + 1))) ∧
          is_u32 (Z.of_nat (g_node_cnt c) * zlen (batch h (E + 1)))) as [H1 H2].
  { unfold is_u32. nia. }
  by rewrite (wrap32_small _ H2), (wrap32_small _ H1).
Qed.

Lemma sq_txn_bound i E h out s x : cfg_ok → seq_ok i E h out s → x ∈ h → sq_txn x < u32_mod.
Proof.
  intros [] Hs Hx. assert (x ∈ batch h (sq_batch x)) as [k Hk]%list_elem_of_lookup by (by apply elem_of_batch).
  rewrite (so_ids _ _ _ _ _ Hs _ _ _ Hk). pose proof (so_cap _ _ _ _ _ Hs (sq_batch x)).
  apply lookup_lt_Some in Hk. pose proof (so_node _ _ _ _ _ Hs). nia.
Qed.

Lemma add_query_spec i E h out s m en : cfg_ok → seq_ok i E h out s →
  en_ok h out en → epoch en = E + 1 → size en < max_size en → participants m ≠ [] →
  zlen (batch h (E + 1)) < g_inflight_max c * Z.of_nat (g_node_cnt c) →
  let x := next_txn i E h m in
  ∃ en', add_query (zlen (batch h (E + 1))) (entry_of (add_out out x) x) en = Some en' ∧
    en_ok (h ++ [x]) (add_out out x) en' ∧ 0 < txns_left en' ∧ epoch en' = E + 1.
Proof.
  intros Hc Hs Hen He Hlt Hps Hcap x. pose proof (eo_size _ _ _ Hen) as Hsz. rewrite He in Hsz.
  pose proof (co_fill Hc) as Hfill.
  pose proof (add_out_new i E h out s m Hs : add_out out x (sq_batch x) (sq_txn x) = _) as Hnew.
  assert (txns_left en = size en) as Hleft.
  { rewrite (eo_left _ _ _ Hen), (eo_size _ _ _ Hen). unfold open_txns. rewrite list_filter_all; [done|].
    apply Forall_forall. intros y [Hb Hy]%elem_of_batch. apply (so_cur _ _ _ _ _ Hs); [done|].
    by rewrite Hb, He. }
  unfold add_query, put_entry. rewrite assert_bind_true by
    (apply Z.ltb_lt; rewrite (eo_len _ _ _ Hen); lia).
  cbn [mbind option_bind size txns_left]. rewrite Nat2Z.id, Hleft, cap_bounds by done.
  rewrite (wrap64_small (size en + 1)) by (unfold is_u64, u64_mod, fill_capacity in *; lia).
  rewrite (wrap32_small (size en + 1)) by (unfold is_u32, u32_mod, fill_capacity in *; lia).
  rewrite assert_bind_true by (by apply Z.eqb_eq). rewrite assert_bind_true by (apply Z.leb_le; lia).
  eexists. split; [done|]. cbn [txns_left epoch]. split; [|lia].
  rewrite <-Hleft at 2. apply (add_entry_ok h out).
  - done.
  - done.
  - lia.
  - by rewrite He.
  - fold x. rewrite Hnew. destruct (participants m); [done|simpl; lia].
  - intros y [_ Hy]%elem_of_batch. by apply (add_out_old i E h out s m).
  - by rewrite He.
Qed.

Lemma process_txn_spec i E h out s m : cfg_ok → seq_ok i E h out s →
  rtype m = CL_QRY → participants m ≠ [] → ISCLIENTN (return_node_id m) = true →
  zlen (batch h (E + 1)) < g_inflight_max c * Z.of_nat (g_node_cnt c) →
  let x := next_txn i E h m in
  ∃ s', process_txn i E m s = Some (s', sq_msg x) ∧ seq_ok i E (h ++ [x]) (add_out out x) s' ∧
    concat (fill_queue s') ≡ₚ replicate (length (participants m)) (sq_msg x) ++ concat (fill_queue s).
Proof.
  intros Hc Hs Hrt Hps Hcl Hcap x. pose proof (so_epoch _ _ _ _ _ Hs) as HE.
  pose proof (so_node _ _ _ _ _ Hs) as Hi. pose proof (co_fill Hc) as Hfill.
  destruct (open_batch_spec _ _ _ _ _ Hs) as (front&en&Hopen&Hop). pose proof (op_ok _ _ _ _ _ _ Hop) as Hen.
  pose proof (op_epoch _ _ _ _ _ _ Hop) as Hee. pose proof (eo_size _ _ _ Hen) as Hsz. rewrite Hee in Hsz.
  destruct (grow_ok h out en Hen) as (Hg&Hlt&Hgs&Hgl&Hge); [lia|].
  destruct (add_query_spec i E h out s m (grow en)) as (en'&Hadd&Hen'&Hpos&He'); try done; [congruence|lia|].
  destruct (push_all_spec (participants m) (sq_msg x) (fill_queue s)) as (fq&Hpush&Hlen&Hfq&Hperm).
  { by apply participants_NoDup. }
  { intros p Hp. eexists. split; [apply (so_fill _ _ _ _ _ Hs); by eapply participants_lt|].
    pose proof (length_filter (λ m, p ∈ participants m) (sq_msg <$> batch h (E + 1))) as Hl.
    rewrite length_fmap in Hl. lia. }
  exists (mkSeq (next_txn_id s + 1) (front ++ [en']) fq). split; [|split; [by eapply seq_ok_add|done]].
  unfold process_txn. rewrite wrap64_small by (unfold is_u64; lia). rewrite Hopen.
  cbv zeta. rewrite (next_tid i E h out s Hc Hs), Hge, Hee.
  rewrite (assert_bind_true (negb _)).
  2:{ apply negb_true_iff, Z.eqb_neq. unfold UINT64_MAX. destruct Hc. unfold u32_mod in *. nia. }
  rewrite (assert_bind_true (0 <? _)) by (apply Z.ltb_lt; destruct (participants m); [done|simpl; lia]).
  rewrite (assert_bind_true (ISCLIENTN _)) by done.
  rewrite tid_index by done.
  assert (entry_of (add_out out x) x = mkQ (return_node_id m) (client_startts m) (zlen (participants m)) (sq_msg x)) as Hq.
  { unfold entry_of. f_equal. exact (add_out_new i E h out s m Hs). }
  fold x in Hadd. rewrite Hq in Hadd. unfold x, next_txn in Hadd, Hpush. cbn [sq_msg] in Hadd, Hpush.
  rewrite Hadd. cbn [mbind option_bind]. rewrite Hpush. cbn [mbind option_bind]. rewrite wrap32_small; [done|].
  rewrite (so_next _ _ _ _ _ Hs). unfold is_u32, u32_mod, fill_capacity in *. lia.
Qed.

(** When [process_txn] returns, its assertions held. *)
Lemma process_txn_pre i E h out s m r : cfg_ok → seq_ok i E h out s → process_txn i E m s = Some r →
  participants m ≠ [] ∧ ISCLIENTN (return_node_id m) = true ∧
  zlen (batch h (E + 1)) < g_inflight_max c * Z.of_nat (g_node_cnt c).
Proof.
  intros Hc Hs Hr. pose proof (so_epoch _ _ _ _ _ Hs) as HE. pose proof (co_fill Hc) as Hfill.
  destruct (open_batch_spec _ _ _ _ _ Hs) as (front&en&Hopen&Hop). pose proof (op_ok _ _ _ _ _ _ Hop) as Hen.
  pose proof (eo_size _ _ _ Hen) as Hsz. rewrite (op_epoch _ _ _ _ _ _ Hop) in Hsz.
  pose proof (so_cap _ _ _ _ _ Hs (E + 1)).
  destruct (grow_ok h out en Hen) as (_&_&Hgs&_&_); [lia|].
  unfold process_txn in Hr. rewrite wrap64_small in Hr by (unfold is_u64; lia). rewrite Hopen in Hr.
  cbv zeta in Hr. inv_option. unfold add_query in *. inv_option. bool_to_prop.
  cbn [size] in *. rewrite Hgs, cap_bounds in * by done.
  rewrite wrap64_small in * by (unfold is_u64, u64_mod, fill_capacity in *; lia).
  split_and!; [|done|lia]. by destruct (participants m).
Qed.

(** ** [process_ack] *)

Definition del_out (out : Z → Z → Z) (b t b' t' : Z) : Z :=
  out b' t' - if decide (b' = b ∧ t' = t) then 1 else 0.

Lemma filter_count_one {A} (P Q : A → Prop) `{!∀ x, Decision (P x)} `{!∀ x, Decision (Q x)} (l : list A) k x :
  l !! k = Some x → P x → ¬ Q x → (∀ k' y, k' ≠ k → l !! k' = Some y → P y ↔ Q y) →
  length (filter P l) = S (length (filter Q l)).
Proof.
  revert k. induction l as [|y l IH]; intros k Hk HP HQ Hoth; [done|]. destruct k as [|k]; simpl in Hk.
  - injection Hk as ->. rewrite filter_cons_True, filter_cons_False by done. simpl. do 2 f_equal.
    apply list_filter_ext. intros z [k Hk]%list_elem_of_lookup. by apply (Hoth (S k) z).
  - specialize (IH k Hk HP HQ). assert (length (filter P l) = S (length (filter Q l))) as E.
    { apply IH. intros k' z Hne Hz. apply (Hoth (S k') z); [lia|done]. }
    assert (P y ↔ Q y) as HPQ by (by apply (Hoth 0%nat y)).
    destruct (decide (P y)).
    + rewrite !filter_cons_True by tauto. simpl. by rewrite E.
    + rewrite !filter_cons_False by tauto. done.
Qed.

Lemma del_out_same out b t : del_out out b t b t = out b t - 1.
Proof. unfold del_out. by rewrite decide_True. Qed.

Lemma del_out_other i E h out s b k x k' y : seq_ok i E h out s →
  batch h b !! k = Some x → batch h b !! k' = Some y → k' ≠ k →
  del_out out b (sq_txn x) (sq_batch y) (sq_txn y) = out (sq_batch y) (sq_txn y).
Proof.
  intros Hs Hx Hy Hne. unfold del_out. rewrite decide_False; [lia|]. intros [_ Ht].
  rewrite (so_ids _ _ _ _ _ Hs _ _ _ Hx), (so_ids _ _ _ _ _ Hs _ _ _ Hy) in Ht.
  pose proof (so_node _ _ _ _ _ Hs). nia.
Qed.

(** The batch after an acknowledgement. *)
Lemma ack_entry_ok i E h out s en k x : seq_ok i E h out s → en_ok h out en →
  batch h (epoch en) !! k = Some x → 0 < out (sq_batch x) (sq_txn x) →
  let out' := del_out out (epoch en) (sq_txn x) in
  let last := out (sq_batch x) (sq_txn x) =? 1 in
  en_ok h out' (mkEn (<[k := Some (entry_of out' x)]> (en_list en)) (size en) (max_size en)
    (if last then txns_left en - 1 else txns_left en) (epoch en)).
Proof.
  intros Hs [] Hk Hpos out' last. pose proof (λ k' y, del_out_other i E h out s _ k x k' y Hs Hk) as Hoth.
  assert (sq_batch x = epoch en) as Hb.
  { assert (x ∈ batch h (epoch en)) as [? _]%elem_of_batch by (by eapply list_elem_of_lookup_2). done. }
  assert (out' (sq_batch x) (sq_txn x) = out (sq_batch x) (sq_txn x) - 1) as Hx.
  { unfold out'. rewrite Hb. apply del_out_same. }
  assert (∀ k' y, k' ≠ k → batch h (epoch en) !! k' = Some y →
    0 < out (sq_batch y) (sq_txn y) ↔ 0 < out' (sq_batch y) (sq_txn y)) as Hiff.
  { intros k' y Hne Hy. unfold out'. by rewrite (Hoth k' y Hy Hne). }
  split; cbn [size max_size txns_left epoch en_list]; [done|by rewrite length_insert|done| |].
  - unfold last, open_txns in *. destruct (Z.eqb_spec (out (sq_batch x) (sq_txn x)) 1) as [E1|E1].
    + rewrite eo_left0, (filter_count_one _ (λ y, 0 < out' (sq_batch y) (sq_txn y)) _ k x); [lia|done|done|lia|done].
    + rewrite eo_left0. do 2 f_equal. apply list_filter_ext. intros y [k' Hy]%list_elem_of_lookup.
      destruct (decide (k' = k)) as [->|Hne]; [|eauto]. rewrite Hk in Hy. injection Hy as <-. lia.
  - intros k' y Hy. destruct (decide (k' = k)) as [->|Hne].
    + rewrite list_lookup_insert_eq by (by eapply lookup_lt_Some, eo_entry0, Hk).
      congruence.
    + rewrite list_lookup_insert_ne by done. rewrite (eo_entry0 k' y Hy). unfold entry_of, out'.
      by rewrite (Hoth k' y Hy Hne).
Qed.

Lemma sorted_fmap {A} (f : A → Z) l :
  StronglySorted (λ a b, f a < f b) l ↔ StronglySorted Z.lt (f <$> l).
Proof.
  split.
  - induction 1 as [|x l Hs IH Hx]; simpl; constructor; [done|]. by apply Forall_fmap.
  - induction l as [|x l IH]; intros Hs; constructor; inversion Hs as [|? ? H1 H2]; subst; [auto|].
    exact (proj1 (Forall_fmap f _ l) H2).
Qed.

(** The wait list when the batch at [k] is replaced, and dropped once it is done. *)
Lemma wl_replace k (en en' : qlite_ll) l : l !! k = Some en → epoch en' = epoch en →
  let l' := if txns_left en' =? 0 then delete k l else <[k := en']> l in
  StronglySorted (λ a b, epoch a < epoch b) l →
  StronglySorted (λ a b, epoch a < epoch b) l' ∧
  (∀ e, e ∈ l' → (e ∈ l ∧ epoch e ≠ epoch en) ∨ (e = en' ∧ txns_left en' ≠ 0)) ∧
  (∀ e, e ∈ l → epoch e ≠ epoch en → epoch e ∈ epoch <$> l') ∧
  (txns_left en' ≠ 0 → epoch en ∈ epoch <$> l').
Proof.
  intros Hk He l' Hs. pose proof (take_drop_middle _ _ _ Hk) as Hl.
  assert (∀ e, e ∈ take k l ∨ e ∈ drop (S k) l → e ∈ l ∧ epoch e ≠ epoch en) as Hrest.
  { intros e Hin. rewrite <-Hl in Hs. split; [rewrite <-Hl; set_solver|].
    destruct Hin as [Hin|Hin].
    - pose proof (StronglySorted_app_1_elem_of _ _ _ e en Hs Hin ltac:(left)) as Hlt. simpl in Hlt. lia.
    - apply StronglySorted_app_1_r in Hs. inversion Hs as [|? ? _ Hf]; subst.
      rewrite Forall_forall in Hf. specialize (Hf e Hin). simpl in Hf. lia. }
  assert (∀ e, e ∈ l → epoch e ≠ epoch en → e ∈ take k l ∨ e ∈ drop (S k) l) as Hsplit.
  { intros e Hin Hne. rewrite <-Hl in Hin. apply elem_of_app in Hin as [?|Hin]; [by left|].
    apply elem_of_cons in Hin as [->|?]; [done|by right]. }
  unfold l'. destruct (Z.eqb_spec (txns_left en') 0) as [H0|H0].
  - rewrite delete_take_drop. split_and!; [|intros e; rewrite elem_of_app; auto| |done].
    + eapply StronglySorted_sublist; [|exact Hs]. rewrite <-delete_take_drop. apply sublist_delete.
    + intros e He' Hne. apply list_elem_of_fmap_2, elem_of_app. auto.
  - rewrite insert_take_drop by (by eapply lookup_lt_Some). split_and!.
    + rewrite sorted_fmap in *. rewrite <-Hl in Hs. rewrite fmap_app, fmap_cons in *. by rewrite He.
    + intros e [?|[->|?]%elem_of_cons]%elem_of_app; auto.
    + intros e He' Hne. apply list_elem_of_fmap_2, elem_of_app. rewrite elem_of_cons.
      destruct (Hsplit e He' Hne); auto.
    + intros _. rewrite <-He. apply list_elem_of_fmap_2. set_solver.
Qed.

(** The state after [process_ack]. *)
Lemma seq_ok_ack i E h out s k en en' x : seq_ok i E h out s → wl s !! k = Some en →
  x ∈ h → sq_batch x = epoch en → 0 < out (epoch en) (sq_txn x) → epoch en ≤ E →
  let out' := del_out out (epoch en) (sq_txn x) in
  en_ok h out' en' → epoch en' = epoch en → 0 ≤ txns_left en' →
  seq_ok i E h out' (mkSeq (next_txn_id s)
    (if txns_left en' =? 0 then delete k (wl s) else <[k := en']> (wl s)) (fill_queue s)).
Proof.
  intros Hs Hk Hxh Hxb Hpos Hle out' Hen He' Hleft.
  destruct (wl_replace k en en' (wl s) Hk He' (so_sorted _ _ _ _ _ Hs)) as (Hsort&Hin&Hkeep&Hcur).
  assert (∀ b t, b ≠ epoch en → out' b t = out b t) as Hother.
  { intros b t Hb. unfold out', del_out. rewrite decide_False by tauto. lia. }
  assert (∀ b t, out' b t ≤ out b t) as Hless.
  { intros b t. unfold out', del_out. case_decide; lia. }
  destruct Hs. split; cbn [next_txn_id wl fill_queue]; try done.
  - rewrite Forall_forall in *. intros e He. destruct (Hin e He) as [[? _]|[-> _]]; [auto|].
    rewrite He'. by eapply so_bound0, list_elem_of_lookup_2.
  - rewrite Forall_forall in *. intros e He. destruct (Hin e He) as [[Hel Hne]|[-> Hne]]; [|split; [done|lia]].
    destruct (so_wl0 e Hel) as [Hok ?]. split; [|done]. apply (en_ok_ext h h out); [done|done|].
    intros y [Hy _]%elem_of_batch. apply Hother. congruence.
  - intros y Hy Hp. specialize (Hless (sq_batch y) (sq_txn y)).
    pose proof (so_live0 y Hy ltac:(lia)) as (e&Hye&He)%list_elem_of_fmap.
    destruct (decide (sq_batch y = epoch en)) as [Heq|Hne].
    + rewrite Heq. apply Hcur. intros H0. rewrite (eo_left _ _ _ Hen), He' in H0.
      assert (y ∈ open_txns out' (batch h (epoch en))) as Hopen.
      { apply list_elem_of_filter. split; [done|]. by apply elem_of_batch. }
      destruct (open_txns _ _); [by apply elem_of_nil in Hopen|simpl in H0; lia].
    + rewrite Hye in *. by apply Hkeep.
  - intros y Hy Hb. rewrite Hother by lia. auto.
  - intros b t. destruct (so_out0 b t) as [Hb Hex]. specialize (Hless b t). split; [|intros; apply Hex; lia].
    unfold out', del_out in *. case_decide as Hd; [|lia]. destruct Hd as [-> ->]. lia.
Qed.

Lemma process_ack_spec i E h out s b t : cfg_ok → seq_ok i E h out s → 0 < out b t → b ≤ E →
  ∃ x s', x ∈ h ∧ sq_batch x = b ∧ sq_txn x = t ∧
    process_ack b t s = Some (s', if out b t =? 1
      then Some (mkRsp (sq_client x) t (client_startts (sq_msg x))) else None) ∧
    seq_ok i E h (del_out out b t) s'.
Proof.
  intros Hc Hs Hpos Hle. destruct (so_out _ _ _ _ _ Hs b t) as [Hbound Hex].
  destruct (Hex Hpos) as (x&Hx&<-&<-). exists x.
  pose proof (so_live _ _ _ _ _ Hs x Hx Hpos) as (en0&Hen0&Hin0)%list_elem_of_fmap.
  destruct (list_find_elem_of (λ en, epoch en = sq_batch x) (wl s) en0) as [[k en] Hfind]; [done|done|].
  pose proof Hfind as (Hk&Hep&_)%list_find_Some.
  pose proof (list_elem_of_lookup_2 _ _ _ Hk) as Hin. pose proof (so_wl _ _ _ _ _ Hs) as Hwl.
  rewrite Forall_forall in Hwl. destruct (Hwl en Hin) as [Hen Hleft].
  assert (x ∈ batch h (epoch en)) as [kx Hkx]%list_elem_of_lookup by (by apply elem_of_batch).
  pose proof (sq_index _ _ _ _ _ _ _ _ Hs Hkx) as Hidx.
  unfold process_ack. rewrite Hfind. cbn [mbind option_bind].
  rewrite (assert_bind_true (0 <? txns_left en)) by (by apply Z.ltb_lt). cbv zeta. rewrite Hidx.
  rewrite (eo_entry _ _ _ Hen kx x Hkx). cbn [mbind mjoin option_bind option_join server_ack_cnt entry_of
    client_id q_startts q_msg].
  rewrite (assert_bind_true (0 <? out _ _)) by (by apply Z.ltb_lt).
  pose proof (co_ids Hc). pose proof (co_inflight Hc). pose proof (co_nodes Hc).
  rewrite (wrap32_small (out _ _ - 1)) by (unfold is_u32; nia).
  assert (txns_left en ≤ fill_capacity) as Hcap.
  { rewrite (eo_left _ _ _ Hen). unfold open_txns.
    pose proof (length_filter (λ y, 0 < out (sq_batch y) (sq_txn y)) (batch h (epoch en))).
    pose proof (so_cap _ _ _ _ _ Hs (epoch en)). pose proof (co_fill Hc). lia. }
  rewrite (wrap32_small (txns_left en - 1)) by (unfold is_u32, u32_mod, fill_capacity in *; lia).
  assert ((out (sq_batch x) (sq_txn x) - 1 =? 0) = (out (sq_batch x) (sq_txn x) =? 1)) as ->
    by (destruct (Z.eqb_spec (out (sq_batch x) (sq_txn x)) 1); [by apply Z.eqb_eq; lia|apply Z.eqb_neq; lia]).
  eexists. split_and!; [done..|].
  pose proof (ack_entry_ok i E h out s en kx x Hs Hen Hkx Hpos) as Hen'. cbv zeta in Hen'.
  rewrite Hep in Hen'. unfold entry_of in Hen' at 1. rewrite del_out_same in Hen'.
  pose proof (λ en', seq_ok_ack i E h out s k en en' x Hs Hk Hx (eq_sym Hep)) as Hfin.
  rewrite Hep in Hfin |- *. apply Hfin; [done|done|exact Hen'|done|]. cbn [txns_left]. case_match; lia.
Qed.

Lemma process_ack_fill b t s s' rsp : process_ack b t s = Some (s', rsp) → fill_queue s' = fill_queue s.
Proof.
  unfold process_ack. intros Hp. inv_option. destruct p as [k en]. cbv zeta in Hp. inv_option. by subst.
Qed.

(** ** [send_next_batch] *)

(** What node [j] gets of batch [b]. *)
Definition part_of (h : list sequenced) (b : Z) (j : nat) : list Message :=
  filter (λ m, j ∈ participants m) (sq_msg <$> batch h b).

Lemma future_batch i E h out s b : seq_ok i E h out s → E + 1 < b → batch h b = [].
Proof.
  intros Hs Hb. apply elem_of_nil_inv. intros x [Hx Hin]%elem_of_batch.
  pose proof (so_hist _ _ _ _ _ Hs) as Hh. rewrite Forall_forall in Hh. destruct (Hh x Hin) as [? _]. lia.
Qed.

Lemma send_next_batch_spec i E h out s : seq_ok i E h out s → E + 3 < u64_mod →
  let '(outs, s') := send_next_batch i (E + 1) s in
  length outs = g_node_cnt c ∧
  (∀ j, (j < g_node_cnt c)%nat → outs !! j = Some (part_of h (E + 1) j ++ [rdone i (E + 1)])) ∧
  seq_ok i (E + 1) h out s'.
Proof.
  intros Hs HE. pose proof (future_batch _ _ _ _ _ (E + 1 + 1) Hs ltac:(lia)) as Hnil. unfold send_next_batch.
  destruct Hs. split_and!.
  - by rewrite length_fmap.
  - intros j Hj. by rewrite list_lookup_fmap, so_fill0.
  - split; cbn [next_txn_id wl fill_queue]; rewrite ?Hnil; try done.
    + lia.
    + eapply Forall_impl; [exact so_hist0|]. simpl. intros x (?&?&?&?). split_and!; try done; lia.
    + by rewrite length_fmap.
    + intros j Hj. by rewrite list_lookup_fmap, so_fill0.
    + eapply Forall_impl; [exact so_bound0|]. simpl. lia.
    + intros x Hx Hb. exfalso. assert (x ∈ batch h (E + 1 + 1)) as Hin by (by apply elem_of_batch).
      rewrite Hnil in Hin. by apply elem_of_nil in Hin.
Qed.

Lemma init_ok i : cfg_ok → (i < g_node_cnt c)%nat → seq_ok i 0 [] (λ _ _, 0) init.
Proof.
  intros Hc Hi. destruct Hc. split; simpl; try done.
  - intros b. apply Z.mul_nonneg_nonneg; lia.
  - apply length_replicate.
  - intros j Hj. by rewrite lookup_replicate_2.
  - constructor.
  - intros x Hx. by apply elem_of_nil in Hx.
  - intros b t. split; [lia|]. done.
Qed.

End sequencer.
End Sequencer.
