(* ===== verification/Calvin.v ===== *)
(** * Calvin: the order of transactions on all nodes

    Sequencers and schedulers of all server nodes.  [QWorkQueue]'s sequencer and
    scheduler queues (system/work_queue.cpp), the loops of [CalvinSequencerThread] and
    [CalvinLockThread] (system/calvin_thread.cpp), the dispatch of the input thread
    (system/io_thread.cpp) and [calvin_wrapup] (system/worker_thread.cpp) make the
    steps of a transition system over the sequencers of [Sequencer].  Messages from one
    node to another arrive in the order they were sent, which is what
    [MessageQueue::enqueue] arranges for the sequencer thread; acknowledgements arrive
    in any order.  What a transaction does between the scheduler and its
    acknowledgement is left open. *)

From S2P Require Import Prelude Sequencer.

Module Calvin.
Import Sequencer.

(** ** Queues *)

(** [CALVIN_ACK] *)
Record Ack := mkAck { a_txn_id : Z; a_batch_id : Z; a_return_node_id : nat }.

Inductive seq_item := Query (m : Message) | Acked (a : Ack).

(** [worker_epoch] is kept by [SimManager]. *)
Record QWorkQueue := mkWQ {
  seq_queue : list seq_item;
  sched_queue : list (list Message);
  sched_ptr : nat;
  worker_epoch : Z }.

Section queues.
Context (c : config).

Definition wq_init : QWorkQueue := mkWQ [] (replicate (g_node_cnt c) []) 0 1.

Definition sequencer_enqueue (x : seq_item) (q : QWorkQueue) : QWorkQueue :=
  mkWQ (seq_queue q ++ [x]) (sched_queue q) (sched_ptr q) (worker_epoch q).

Definition sequencer_dequeue (q : QWorkQueue) : option seq_item * QWorkQueue :=
  match seq_queue q with
  | [] => (None, q)
  | x :: r => (Some x, mkWQ r (sched_queue q) (sched_ptr q) (worker_epoch q))
  end.

Definition sched_enqueue (m : Message) (q : QWorkQueue) : option QWorkQueue :=
  ASSERT (ISSERVERN c (return_node_id m));
  r ← sched_queue q !! return_node_id m;
  Some (mkWQ (seq_queue q) (<[return_node_id m := r ++ [m]]> (sched_queue q)) (sched_ptr q) (worker_epoch q)).

Fixpoint sched_enqueue_all (ms : list Message) (q : QWorkQueue) : option QWorkQueue :=
  match ms with
  | [] => Some q
  | m :: ms => q ← sched_enqueue m q; sched_enqueue_all ms q
  end.

Definition sched_dequeue (q : QWorkQueue) : option (option Message * QWorkQueue) :=
  r ← sched_queue q !! sched_ptr q;
  match r with
  | [] => Some (None, q)
  | m :: r =>
      ASSERT (batch_id m =? worker_epoch q);
      let sq := <[sched_ptr q := r]> (sched_queue q) in
      if bool_decide (rtype m = RDONE) then
        let we := if bool_decide (sched_ptr q = g_node_cnt c - 1)%nat
                  then wrap64 (worker_epoch q + 1) else worker_epoch q in
        Some (None, mkWQ (seq_queue q) sq ((sched_ptr q + 1) `mod` g_node_cnt c)%nat we)
      else Some (Some m, mkWQ (seq_queue q) sq (sched_ptr q) (worker_epoch q))
  end.

End queues.

(** ** The nodes and the network *)

(** [n_exec] are the transactions the lock thread has taken and that are not wrapped
    up.  [n_order], [n_hist] and [n_rsp] are ghost state: the order in which they were
    taken, the sequenced queries, and the answers sent with the batch they belong to. *)
Record node := mkNode {
  n_seq : Sequencer;
  n_epoch : Z;
  n_wq : QWorkQueue;
  n_exec : list Message;
  n_order : list Message;
  n_hist : list sequenced;
  n_rsp : list (Z * CL_RSP) }.

(** [s_chan i j] is on the way from [i] to [j], [s_acks i] to the sequencer of [i]. *)
Record sys := mkSys {
  s_node : nat → node;
  s_chan : nat → nat → list Message;
  s_acks : nat → list Ack }.

Section system.
Context (c : config).

(** *** Steps of a node *)

Definition set_wq (q : QWorkQueue) (n : node) : node :=
  mkNode (n_seq n) (n_epoch n) q (n_exec n) (n_order n) (n_hist n) (n_rsp n).

(** [CalvinSequencerThread::run] when the batch is ready: the messages for the other
    nodes. *)
Definition next_batch (i : nat) (n : node) : option (list (list Message) * node) :=
  let e := wrap64 (n_epoch n + 1) in
  let '(outs, s) := send_next_batch i e (n_seq n) in
  local ← outs !! i;
  q ← sched_enqueue_all c local (n_wq n);
  Some (outs, mkNode s e q (n_exec n) (n_order n) (n_hist n) (n_rsp n)).

(** [CalvinSequencerThread::run] for the next message of its queue. *)
Definition run_sequencer (i : nat) (n : node) : option node :=
  let '(x, q) := sequencer_dequeue (n_wq n) in
  match x with
  | None => Some n
  | Some (Query m) =>
      ASSERT (bool_decide (rtype m = CL_QRY));
      '(s, m') ← process_txn c i (n_epoch n) m (n_seq n);
      Some (mkNode s (n_epoch n) q (n_exec n) (n_order n)
              (n_hist n ++ [mkSq (return_node_id m) m']) (n_rsp n))
  | Some (Acked a) =>
      '(s, rsp) ← process_ack c (a_batch_id a) (a_txn_id a) (n_seq n);
      Some (mkNode s (n_epoch n) q (n_exec n) (n_order n) (n_hist n)
              (n_rsp n ++ match rsp with Some r => [(a_batch_id a, r)] | None => [] end))
  end.

(** [CalvinLockThread::run]: a transaction is handed to lock acquisition. *)
Definition run_lock_thread (n : node) : option node :=
  '(m, q) ← sched_dequeue c (n_wq n);
  match m with
  | None => Some (set_wq q n)
  | Some m =>
      ASSERT (bool_decide (rtype m = CL_QRY));
      ASSERT (negb (txn_id m =? UINT64_MAX));
      ASSERT (ISSERVERN c (return_node_id m));
      Some (mkNode (n_seq n) (n_epoch n) q (n_exec n ++ [m]) (n_order n ++ [m]) (n_hist n) (n_rsp n))
  end.

Definition ack_of (j : nat) (m : Message) : Ack := mkAck (txn_id m) (batch_id m) j.

Definition set_exec (l : list Message) (n : node) : node :=
  mkNode (n_seq n) (n_epoch n) (n_wq n) l (n_order n) (n_hist n) (n_rsp n).

Inductive step (s : sys) : sys → Prop :=
  (* a client's query arrives *)
  | step_query i m :
      (i < g_node_cnt c)%nat → rtype m = CL_QRY →
      step s (mkSys (<[i := set_wq (sequencer_enqueue (Query m) (n_wq (s_node s i))) (s_node s i)]> (s_node s))
                (s_chan s) (s_acks s))
  | step_batch i outs n' :
      (i < g_node_cnt c)%nat → n_epoch (s_node s i) + 3 < u64_mod →
      next_batch i (s_node s i) = Some (outs, n') →
      step s (mkSys (<[i := n']> (s_node s))
                (<[i := λ j, if decide (j = i) then s_chan s i j
                             else s_chan s i j ++ default [] (outs !! j)]> (s_chan s)) (s_acks s))
  | step_sequencer i n' :
      (i < g_node_cnt c)%nat → run_sequencer i (s_node s i) = Some n' →
      step s (mkSys (<[i := n']> (s_node s)) (s_chan s) (s_acks s))
  (* the input thread of [j] takes the next message from [i] *)
  | step_deliver i j m r q :
      (i < g_node_cnt c)%nat → (j < g_node_cnt c)%nat → s_chan s i j = m :: r →
      sched_enqueue c m (n_wq (s_node s j)) = Some q →
      step s (mkSys (<[j := set_wq q (s_node s j)]> (s_node s))
                (<[i := <[j := r]> (s_chan s i)]> (s_chan s)) (s_acks s))
  | step_lock_thread j n' :
      (j < g_node_cnt c)%nat → run_lock_thread (s_node s j) = Some n' →
      step s (mkSys (<[j := n']> (s_node s)) (s_chan s) (s_acks s))
  (* calvin_wrapup of a transaction of this node's sequencer, and of another's *)
  | step_wrapup_local j l1 m l2 :
      (j < g_node_cnt c)%nat → n_exec (s_node s j) = l1 ++ m :: l2 → return_node_id m = j →
      step s (mkSys (<[j := set_wq (sequencer_enqueue (Acked (ack_of j m)) (n_wq (s_node s j)))
                              (set_exec (l1 ++ l2) (s_node s j))]> (s_node s)) (s_chan s) (s_acks s))
  | step_wrapup_remote j l1 m l2 :
      (j < g_node_cnt c)%nat → n_exec (s_node s j) = l1 ++ m :: l2 → return_node_id m ≠ j →
      step s (mkSys (<[j := set_exec (l1 ++ l2) (s_node s j)]> (s_node s)) (s_chan s)
                (<[return_node_id m := s_acks s (return_node_id m) ++ [ack_of j m]]> (s_acks s)))
  | step_ack i l1 a l2 :
      (i < g_node_cnt c)%nat → s_acks s i = l1 ++ a :: l2 →
      step s (mkSys (<[i := set_wq (sequencer_enqueue (Acked a) (n_wq (s_node s i))) (s_node s i)]> (s_node s))
                (s_chan s) (<[i := l1 ++ l2]> (s_acks s))).

Definition init_node : node := mkNode (init c) 0 (wq_init c) [] [] [] [].
Definition init_sys : sys := mkSys (λ _, init_node) (λ _ _, []) (λ _, []).

(** ** The order *)

Definition nodes : list nat := seq 0 (g_node_cnt c).

(** What epoch [e] holds for node [j]: the batches of all sequencers, by node. *)
Definition epoch_part (s : sys) (j : nat) (e : Z) : list Message :=
  concat ((λ i, part_of c (n_hist (s_node s i)) e j) <$> nodes).

(** Epochs 1 to [w]. *)
Definition schedule (s : sys) (w : Z) (j : nat) : list Message :=
  concat (epoch_part s j <$> seqZ 1 w).

(** ** Messages under way *)

Definition sched_of (s : sys) (i j : nat) : list Message :=
  default [] (sched_queue (n_wq (s_node s j)) !! i).

(** Sent by the sequencer of [i] and not yet taken by the scheduler of [j]. *)
Definition sent (s : sys) (i j : nat) : list Message := sched_of s i j ++ s_chan s i j.

(** The messages of node [i] to node [j] for epochs [a] to [E]. *)
Definition script (i : nat) (h : list sequenced) (j : nat) (a E : Z) : list Message :=
  concat ((λ e, part_of c h e j ++ [rdone i e]) <$> seqZ a (E + 1 - a)).

Definition msg_key (m : Message) : Z * Z := (batch_id m, txn_id m).
Definition ack_key (a : Ack) : Z * Z := (a_batch_id a, a_txn_id a).
Definition msg_keys (l : list Message) : list (Z * Z) := msg_key <$> filter (λ m, rtype m = CL_QRY) l.

Definition queued_acks (l : list seq_item) : list Ack :=
  omap (λ x, match x with Acked a => Some a | Query _ => None end) l.

(** What node [j] has of node [i]'s transactions. *)
Definition held (s : sys) (i j : nat) : list Message :=
  filter (λ m, return_node_id m = i) (n_exec (s_node s j)) ++ sent s i j.

(** The transactions of node [i] that were sent, once per participant that has not
    acknowledged, and all its transactions. *)
Definition away (s : sys) (i : nat) : list (Z * Z) :=
  msg_keys (concat (held s i <$> nodes)) ++
  (ack_key <$> s_acks s i ++ queued_acks (seq_queue (n_wq (s_node s i)))).

Definition outstanding (s : sys) (i : nat) : list (Z * Z) :=
  msg_keys (concat (fill_queue (n_seq (s_node s i)))) ++ away s i.

Definition count (l : list (Z * Z)) (b t : Z) : Z := zlen (filter (λ k, k = (b, t)) l).
Definition out (s : sys) (i : nat) (b t : Z) : Z := count (outstanding s i) b t.

(** The answers due: those of the sequenced transactions that all participants
    acknowledged. *)
Definition answer (x : sequenced) : Z * CL_RSP :=
  (sq_batch x, mkRsp (sq_client x) (sq_txn x) (client_startts (sq_msg x))).
Definition answers (o : Z → Z → Z) (h : list sequenced) : list (Z * CL_RSP) :=
  answer <$> filter (λ x, o (sq_batch x) (sq_txn x) = 0) h.

(** ** The invariant *)

Record node_ok (s : sys) (i : nat) : Prop := {
  no_seq : seq_ok c i (n_epoch (s_node s i)) (n_hist (s_node s i)) (out s i) (n_seq (s_node s i));
  no_away : Forall (λ k, k.1 ≤ n_epoch (s_node s i)) (away s i);
  no_rsp : n_rsp (s_node s i) ≡ₚ answers (out s i) (n_hist (s_node s i)) }.

(** [pre] is what the scheduler has taken of the batch it is reading. *)
Record sched_at (s : sys) (j : nat) (pre : list Message) : Prop := {
  sa_order : n_order (s_node s j) =
    let q := n_wq (s_node s j) in
    schedule s (worker_epoch q - 1) j ++
    concat ((λ i, part_of c (n_hist (s_node s i)) (worker_epoch q) j) <$> seq 0 (sched_ptr q)) ++ pre;
  sa_pre : pre `prefix_of`
    part_of c (n_hist (s_node s (sched_ptr (n_wq (s_node s j))))) (worker_epoch (n_wq (s_node s j))) j;
  sa_sent : ∀ i, (i < g_node_cnt c)%nat →
    let q := n_wq (s_node s j) in
    let a := if decide (i < sched_ptr q)%nat then worker_epoch q + 1 else worker_epoch q in
    a ≤ n_epoch (s_node s i) + 1 ∧
    (if decide (i = sched_ptr q) then pre else []) ++ sent s i j =
      script i (n_hist (s_node s i)) j a (n_epoch (s_node s i)) }.

Record sched_ok (s : sys) (j : nat) : Prop := {
  sc_len : length (sched_queue (n_wq (s_node s j))) = g_node_cnt c;
  sc_ptr : (sched_ptr (n_wq (s_node s j)) < g_node_cnt c)%nat;
  sc_epoch : 1 ≤ worker_epoch (n_wq (s_node s j));
  sc_exec : Forall (λ m, rtype m = CL_QRY ∧ (return_node_id m < g_node_cnt c)%nat) (n_exec (s_node s j));
  sc_at : ∃ pre, sched_at s j pre }.

Record inv (s : sys) : Prop := {
  iv_node : ∀ i, (i < g_node_cnt c)%nat → node_ok s i;
  iv_sched : ∀ j, (j < g_node_cnt c)%nat → sched_ok s j;
  iv_self : ∀ i, s_chan s i i = [] }.

(** ** Counting *)

#[local] Instance count_perm : Proper ((≡ₚ) ==> (=) ==> (=) ==> (=)) count.
Proof. intros l l' Hl b ? <- t ? <-. unfold count. by rewrite Hl. Qed.

Lemma count_app l l' b t : count (l ++ l') b t = count l b t + count l' b t.
Proof. unfold count. rewrite filter_app, length_app. lia. Qed.

Lemma count_cons k l b t : count (k :: l) b t = (if decide (k = (b, t)) then 1 else 0) + count l b t.
Proof.
  unfold count. case_decide as Hk; [rewrite filter_cons_True by done|rewrite filter_cons_False by done]; simpl; lia.
Qed.

Lemma msg_keys_app l l' : msg_keys (l ++ l') = msg_keys l ++ msg_keys l'.
Proof. unfold msg_keys. by rewrite filter_app, fmap_app. Qed.

Lemma msg_keys_query m : rtype m = CL_QRY → msg_keys [m] = [msg_key m].
Proof. intros Hm. unfold msg_keys. by rewrite filter_cons_True. Qed.

#[local] Instance msg_keys_perm : Proper ((≡ₚ) ==> (≡ₚ)) msg_keys.
Proof. intros l l' Hl. unfold msg_keys. by rewrite Hl. Qed.

Lemma queued_acks_app l l' : queued_acks (l ++ l') = queued_acks l ++ queued_acks l'.
Proof. apply omap_app. Qed.

(** One of the lists that are concatenated changes. *)
Lemma concat_change {A} (f g : nat → list A) (l : list nat) j : NoDup l → j ∈ l →
  (∀ k, k ≠ j → f k = g k) → concat (f <$> l) ++ g j ≡ₚ concat (g <$> l) ++ f j.
Proof.
  intros Hnd Hj Hfg. induction l as [|k l IH]; [by apply elem_of_nil in Hj|].
  apply NoDup_cons in Hnd as [Hk Hnd]. rewrite !fmap_cons. simpl.
  destruct (decide (k = j)) as [->|Hne].
  - assert (f <$> l = g <$> l) as ->.
    { apply list_fmap_ext. intros i k Hi. apply Hfg. intros ->. by apply Hk, (list_elem_of_lookup_2 _ i). }
    rewrite <-!app_assoc, (Permutation_app_comm _ (g j)), (Permutation_app_comm _ (f j)), !app_assoc.
    by rewrite (Permutation_app_comm (f j)).
  - rewrite Hfg by done. rewrite <-!app_assoc. f_equiv. apply IH; [done|].
    by apply elem_of_cons in Hj as [->|?].
Qed.

Lemma nodes_NoDup : NoDup nodes.
Proof. apply NoDup_seq. Qed.

Lemma elem_of_nodes j : j ∈ nodes ↔ (j < g_node_cnt c)%nat.
Proof. unfold nodes. rewrite elem_of_seq. lia. Qed.

(** ** Scripts *)

Lemma script_cons i h j a E : a ≤ E →
  script i h j a E = part_of c h a j ++ rdone i a :: script i h j (a + 1) E.
Proof.
  intros Ha. unfold script. rewrite seqZ_cons by lia. simpl.
  replace (Z.pred (E + 1 - a)) with (E + 1 - (a + 1)) by lia.
  rewrite <-app_assoc. simpl. by replace (Z.succ a) with (a + 1) by lia.
Qed.

Lemma script_nil i h j a E : E < a → script i h j a E = [].
Proof. intros Ha. unfold script. by rewrite seqZ_nil by lia. Qed.

Lemma script_snoc i h j a E : a ≤ E + 1 →
  script i h j a (E + 1) = script i h j a E ++ part_of c h (E + 1) j ++ [rdone i (E + 1)].
Proof.
  intros Ha. unfold script. replace (E + 1 + 1 - a) with ((E + 1 - a) + 1) by lia.
  rewrite seqZ_app by lia. rewrite fmap_app, concat_app. f_equal.
  replace (a + (E + 1 - a)) with (E + 1) by lia.
  rewrite seqZ_cons by lia. rewrite seqZ_nil by lia. simpl. by rewrite app_nil_r.
Qed.

Lemma part_of_snoc_other h x e j : e ≠ sq_batch x → part_of c (h ++ [x]) e j = part_of c h e j.
Proof. intros He. unfold part_of. by rewrite batch_snoc_other. Qed.

Lemma script_hist i h x j a E : E < sq_batch x → script i (h ++ [x]) j a E = script i h j a E.
Proof.
  intros HE. unfold script. f_equal. apply list_fmap_ext. intros k e He.
  apply lookup_seqZ in He as [-> ?]. rewrite part_of_snoc_other by lia. done.
Qed.

(** Everything sent is of node [i]; queries are of a sealed batch. *)
Lemma elem_of_script i h j a E m : m ∈ script i h j a E →
  (∃ e, a ≤ e ≤ E ∧ m = rdone i e) ∨
  (∃ x, x ∈ h ∧ m = sq_msg x ∧ a ≤ sq_batch x ≤ E ∧ j ∈ participants c m).
Proof.
  unfold script. rewrite elem_of_concat_fmap. intros (e&He&Hm). apply elem_of_seqZ in He.
  apply elem_of_app in Hm as [Hm|Hm]; [right|left].
  - unfold part_of in Hm. apply list_elem_of_filter in Hm as [Hp Hm].
    apply list_elem_of_fmap in Hm as (x&->&[Hb Hx]%elem_of_batch). exists x. split_and!; try done; lia.
  - apply list_elem_of_singleton in Hm. exists e. split; [lia|done].
Qed.

Lemma elem_of_part h b j m : m ∈ part_of c h b j ↔
  ∃ x, x ∈ h ∧ m = sq_msg x ∧ sq_batch x = b ∧ j ∈ participants c m.
Proof.
  unfold part_of. rewrite list_elem_of_filter, list_elem_of_fmap. split.
  - intros (Hp&x&->&[Hb Hx]%elem_of_batch). by exists x.
  - intros (x&Hx&->&Hb&Hp). split; [done|]. exists x. split; [done|]. by apply elem_of_batch.
Qed.

(** ** What stays the same *)

Lemma node_ok_frame s s' i : node_ok s i →
  n_seq (s_node s' i) = n_seq (s_node s i) → n_epoch (s_node s' i) = n_epoch (s_node s i) →
  n_hist (s_node s' i) = n_hist (s_node s i) → n_rsp (s_node s' i) = n_rsp (s_node s i) →
  away s' i ≡ₚ away s i → node_ok s' i.
Proof.
  intros [] Hq He Hh Hr Ha.
  assert (∀ b t, out s' i b t = out s i b t) as Ho.
  { intros b t. unfold out, outstanding. by rewrite Hq, Ha. }
  split; rewrite ?Hq, ?He, ?Hh, ?Hr, ?Ha; [by apply (seq_ok_ext c _ _ _ (out s i))|done|].
  rewrite no_rsp0. unfold answers. f_equiv. rewrite (list_filter_ext _ (λ x, out s' i (sq_batch x) (sq_txn x) = 0)); [done|].
  intros x _. by rewrite Ho.
Qed.

(** The scheduler of [j] only depends on the sealed batches. *)
Definition same_hist (s s' : sys) : Prop := ∀ i, (i < g_node_cnt c)%nat →
  n_epoch (s_node s' i) = n_epoch (s_node s i) ∧
  ∃ l, n_hist (s_node s' i) = n_hist (s_node s i) ++ l ∧
    Forall (λ x, n_epoch (s_node s i) < sq_batch x) l.

Lemma same_hist_refl s s' :
  (∀ i, (i < g_node_cnt c)%nat → n_epoch (s_node s' i) = n_epoch (s_node s i) ∧
     n_hist (s_node s' i) = n_hist (s_node s i)) → same_hist s s'.
Proof. intros Hs i Hi. destruct (Hs i Hi) as [He Hh]. split; [done|]. exists []. by rewrite app_nil_r. Qed.

Lemma part_of_later h l e j E : Forall (λ x, E < sq_batch x) l → e ≤ E →
  part_of c (h ++ l) e j = part_of c h e j.
Proof.
  intros Hl He. unfold part_of. rewrite batch_app.
  replace (batch l e) with ([] : list sequenced); [by rewrite app_nil_r|].
  symmetry. apply elem_of_nil_inv. intros x [Hb Hx]%elem_of_batch.
  rewrite Forall_forall in Hl. specialize (Hl x Hx). simpl in Hl. lia.
Qed.

Lemma script_later i h l j a E : Forall (λ x, E < sq_batch x) l →
  script i (h ++ l) j a E = script i h j a E.
Proof.
  intros Hl. unfold script. f_equal. apply list_fmap_ext. intros k e He.
  apply lookup_seqZ in He as [-> ?]. rewrite (part_of_later _ _ _ _ E) by (done || lia). done.
Qed.

Lemma schedule_same s s' w j : same_hist s s' →
  (∀ i, (i < g_node_cnt c)%nat → w ≤ n_epoch (s_node s i)) → schedule s' w j = schedule s w j.
Proof.
  intros Hs Hw. unfold schedule. f_equal. apply list_fmap_ext. intros k e He.
  apply lookup_seqZ in He as [-> ?]. unfold epoch_part. f_equal. apply list_fmap_ext. intros k' i Hi.
  apply list_elem_of_lookup_2, elem_of_nodes in Hi. destruct (Hs i Hi) as (_&l&->&Hl).
  rewrite (part_of_later _ _ _ _ (n_epoch (s_node s i))); [done|done|]. specialize (Hw i Hi). lia.
Qed.

Lemma sched_at_frame s s' j pre : sched_at s j pre → same_hist s s' →
  (sched_ptr (n_wq (s_node s j)) < g_node_cnt c)%nat →
  sched_ptr (n_wq (s_node s' j)) = sched_ptr (n_wq (s_node s j)) →
  worker_epoch (n_wq (s_node s' j)) = worker_epoch (n_wq (s_node s j)) →
  n_order (s_node s' j) = n_order (s_node s j) →
  (∀ i, (i < g_node_cnt c)%nat → sent s' i j = sent s i j) → sched_at s' j pre.
Proof.
  intros [] Hs Hlt Hp Hw Ho Hsent. split.
  - rewrite Ho, sa_order0. cbv zeta. rewrite Hp, Hw. f_equal; [|f_equal].
    + symmetry. apply schedule_same; [done|]. intros i Hi. destruct (sa_sent0 i Hi) as [Ha _].
      case_decide; lia.
    + f_equal. apply list_fmap_ext. intros k i Hi. apply list_elem_of_lookup_2, elem_of_seq in Hi.
      assert (i < g_node_cnt c)%nat as Hi' by lia. destruct (Hs i Hi') as (_&l&->&Hl).
      destruct (sa_sent0 i Hi') as [Ha _]. rewrite decide_True in Ha by lia.
      by rewrite (part_of_later _ _ _ _ (n_epoch (s_node s i))) by (done || lia).
  - rewrite Hp, Hw. destruct (Hs _ Hlt) as (_&l&->&Hl). etrans; [exact sa_pre0|].
    unfold part_of. rewrite batch_app, fmap_app, filter_app. apply prefix_app_r, reflexivity.
  - intros i Hi. cbv zeta. rewrite Hp, Hw, Hsent by done. destruct (sa_sent0 i Hi) as [Ha Hse].
    destruct (Hs i Hi) as (->&l&->&Hl). by rewrite script_later.
Qed.

Lemma sched_ok_frame s s' j : sched_ok s j → same_hist s s' →
  length (sched_queue (n_wq (s_node s' j))) = length (sched_queue (n_wq (s_node s j))) →
  sched_ptr (n_wq (s_node s' j)) = sched_ptr (n_wq (s_node s j)) →
  worker_epoch (n_wq (s_node s' j)) = worker_epoch (n_wq (s_node s j)) →
  n_order (s_node s' j) = n_order (s_node s j) →
  (∀ m, m ∈ n_exec (s_node s' j) → m ∈ n_exec (s_node s j)) →
  (∀ i, (i < g_node_cnt c)%nat → sent s' i j = sent s i j) → sched_ok s' j.
Proof.
  intros [] Hs Hl Hp Hw Ho He Hsent. destruct sc_at0 as [pre Hpre].
  split; rewrite ?Hl, ?Hp, ?Hw; try done.
  - rewrite Forall_forall in *. auto.
  - exists pre. by apply (sched_at_frame s).
Qed.

(** ** Steps that only move acknowledgements *)

Lemma upd_field {A} (f : node → A) (ns : nat → node) i n' k :
  f n' = f (ns i) → f ((<[i := n']> ns) k) = f (ns k).
Proof.
  intros Hf. destruct (decide (k = i)) as [->|Hne]; [by rewrite fn_lookup_insert|].
  by rewrite fn_lookup_insert_ne.
Qed.

Lemma concat_fmap_app {A} (f g : nat → list A) l :
  concat ((λ k, f k ++ g k) <$> l) ≡ₚ concat (f <$> l) ++ concat (g <$> l).
Proof.
  induction l as [|k l IH]; simpl; [done|]. rewrite IH, <-!app_assoc. apply Permutation_app_head.
  rewrite !app_assoc. apply Permutation_app_tail, Permutation_app_comm.
Qed.

Definition exec_of (s : sys) (i j : nat) : list Message :=
  filter (λ m, return_node_id m = i) (n_exec (s_node s j)).

Lemma away_parts s i : away s i ≡ₚ
  msg_keys (concat (exec_of s i <$> nodes)) ++ msg_keys (concat (sent s i <$> nodes)) ++
  (ack_key <$> s_acks s i) ++ (ack_key <$> queued_acks (seq_queue (n_wq (s_node s i)))).
Proof.
  unfold away, held. change (λ j, filter _ _ ++ _) with (λ j, exec_of s i j ++ sent s i j).
  by rewrite concat_fmap_app, msg_keys_app, fmap_app, <-app_assoc.
Qed.

(** The scheduler's and the sequencer's state stay the same. *)
Record quiet (n n' : node) : Prop := {
  qu_seq : n_seq n' = n_seq n;
  qu_epoch : n_epoch n' = n_epoch n;
  qu_hist : n_hist n' = n_hist n;
  qu_rsp : n_rsp n' = n_rsp n;
  qu_order : n_order n' = n_order n;
  qu_sched : sched_queue (n_wq n') = sched_queue (n_wq n);
  qu_ptr : sched_ptr (n_wq n') = sched_ptr (n_wq n);
  qu_we : worker_epoch (n_wq n') = worker_epoch (n_wq n);
  qu_exec : ∀ m, m ∈ n_exec n' → m ∈ n_exec n }.

Lemma quiet_sent s i n' acks' k j : quiet (s_node s i) n' →
  sent (mkSys (<[i := n']> (s_node s)) (s_chan s) acks') k j = sent s k j.
Proof.
  intros []. unfold sent, sched_of. simpl.
  by rewrite (upd_field (λ n, sched_queue (n_wq n)) (s_node s) i n' j qu_sched0).
Qed.

Lemma inv_quiet s i n' acks' : inv s → quiet (s_node s i) n' →
  (∀ k, away (mkSys (<[i := n']> (s_node s)) (s_chan s) acks') k ≡ₚ away s k) →
  inv (mkSys (<[i := n']> (s_node s)) (s_chan s) acks').
Proof.
  intros [] Hq Ha. pose proof (λ k j, quiet_sent s i n' acks' k j Hq) as Hsent. destruct Hq.
  split; [| |done].
  - intros k Hk. apply (node_ok_frame s); simpl; auto; by apply upd_field.
  - intros j Hj. apply (sched_ok_frame s); simpl; auto.
    + apply same_hist_refl. intros k Hk. split; [by apply (upd_field n_epoch)|by apply (upd_field n_hist)].
    + by rewrite (upd_field (λ n, sched_queue (n_wq n))).
    + by apply (upd_field (λ n, sched_ptr (n_wq n))).
    + by apply (upd_field (λ n, worker_epoch (n_wq n))).
    + by apply (upd_field n_order).
    + intros m. destruct (decide (j = i)) as [->|Hne]; [rewrite fn_lookup_insert; auto|].
      by rewrite fn_lookup_insert_ne.
Qed.

Definition queued (s : sys) (i : nat) : list Ack := queued_acks (seq_queue (n_wq (s_node s i))).

Lemma away_acks s s' k : (∀ j, held s' k j = held s k j) →
  s_acks s' k ++ queued s' k ≡ₚ s_acks s k ++ queued s k → away s' k ≡ₚ away s k.
Proof.
  intros Hh Ha. unfold away. rewrite (list_fmap_ext _ _ nodes (λ _ j _, Hh j)).
  apply Permutation_app_head, fmap_Permutation, Ha.
Qed.

(** One transaction leaves the executing ones of node [j]. *)
Lemma away_exec s s' j m l1 l2 k : (j < g_node_cnt c)%nat → rtype m = CL_QRY →
  n_exec (s_node s j) = l1 ++ m :: l2 → n_exec (s_node s' j) = l1 ++ l2 →
  (∀ j', j' ≠ j → n_exec (s_node s' j') = n_exec (s_node s j')) →
  (∀ j', sent s' k j' = sent s k j') →
  s_acks s' k ++ queued s' k ≡ₚ
    (if decide (return_node_id m = k) then [ack_of j m] else []) ++ s_acks s k ++ queued s k →
  away s' k ≡ₚ away s k.
Proof.
  intros Hj Hm He He' Hother Hsent Ha. rewrite !away_parts.
  rewrite (list_fmap_ext _ _ nodes (λ _ j _, Hsent j)), <-!fmap_app.
  change (queued_acks (seq_queue (n_wq (s_node s' k)))) with (queued s' k).
  change (queued_acks (seq_queue (n_wq (s_node s k)))) with (queued s k). rewrite Ha, fmap_app.
  assert (concat (exec_of s k <$> nodes) ≡ₚ
    (if decide (return_node_id m = k) then [m] else []) ++ concat (exec_of s' k <$> nodes)) as Hex.
  { pose proof (concat_change (exec_of s k) (exec_of s' k) nodes j nodes_NoDup (proj2 (elem_of_nodes j) Hj)) as Hc.
    apply (Permutation_app_inv_r (exec_of s' k j)). rewrite Hc.
    - rewrite (Permutation_app_comm (concat _)), <-app_assoc, (Permutation_app_comm (concat _)), app_assoc.
      apply Permutation_app_tail. unfold exec_of. rewrite He, He', !filter_app.
      case_decide; [rewrite filter_cons_True by done|by rewrite filter_cons_False by done].
      by rewrite <-Permutation_middle.
    - intros j' Hne. unfold exec_of. by rewrite Hother. }
  rewrite Hex. case_decide; [|done]. rewrite msg_keys_app, (msg_keys_query m) by done.
  simpl. change (ack_key (ack_of j m)) with (msg_key m). rewrite app_assoc, <-Permutation_middle. by rewrite <-app_assoc.
Qed.

Lemma quiet_held s i n' acks' k j : quiet (s_node s i) n' → n_exec n' = n_exec (s_node s i) →
  held (mkSys (<[i := n']> (s_node s)) (s_chan s) acks') k j = held s k j.
Proof.
  intros Hq He. unfold held. rewrite quiet_sent by done. simpl. by rewrite (upd_field n_exec).
Qed.

Lemma inv_query s i m : inv s →
  inv (mkSys (<[i := set_wq (sequencer_enqueue (Query m) (n_wq (s_node s i))) (s_node s i)]> (s_node s))
         (s_chan s) (s_acks s)).
Proof.
  intros Hi. apply inv_quiet; [done|by split|]. intros k. apply away_acks.
  - intros j. by apply quiet_held.
  - simpl. apply Permutation_app_head. unfold queued. simpl.
    by rewrite (upd_field (λ n, queued_acks (seq_queue (n_wq n)))) by (simpl; by rewrite queued_acks_app, app_nil_r).
Qed.

Lemma inv_ack s i l1 a l2 : inv s → s_acks s i = l1 ++ a :: l2 →
  inv (mkSys (<[i := set_wq (sequencer_enqueue (Acked a) (n_wq (s_node s i))) (s_node s i)]> (s_node s))
         (s_chan s) (<[i := l1 ++ l2]> (s_acks s))).
Proof.
  intros Hi Ha. apply inv_quiet; [done|by split|]. intros k. apply away_acks.
  - intros j. by apply quiet_held.
  - unfold queued. simpl. destruct (decide (k = i)) as [->|Hne].
    + rewrite !fn_lookup_insert, Ha. simpl. rewrite queued_acks_app. simpl.
      rewrite app_assoc, <-Permutation_cons_append, <-app_assoc. rewrite <-app_assoc. simpl.
      by rewrite <-Permutation_middle.
    + by rewrite !fn_lookup_insert_ne.
Qed.

Lemma exec_shrinks (l1 l2 : list Message) m m' : m' ∈ l1 ++ l2 → m' ∈ l1 ++ m :: l2.
Proof. rewrite !elem_of_app, elem_of_cons. tauto. Qed.

Lemma exec_query s j m l1 l2 : inv s → (j < g_node_cnt c)%nat → n_exec (s_node s j) = l1 ++ m :: l2 →
  rtype m = CL_QRY ∧ (return_node_id m < g_node_cnt c)%nat.
Proof.
  intros Hi Hj He. pose proof (sc_exec _ _ (iv_sched _ Hi j Hj)) as Hf. rewrite He in Hf.
  apply Forall_app in Hf as [_ Hf]. by apply Forall_cons in Hf as [? _].
Qed.

Lemma inv_wrapup_local s j l1 m l2 : inv s → (j < g_node_cnt c)%nat →
  n_exec (s_node s j) = l1 ++ m :: l2 → return_node_id m = j →
  inv (mkSys (<[j := set_wq (sequencer_enqueue (Acked (ack_of j m)) (n_wq (s_node s j)))
                       (set_exec (l1 ++ l2) (s_node s j))]> (s_node s)) (s_chan s) (s_acks s)).
Proof.
  intros Hi Hj He Hr. destruct (exec_query _ _ _ _ _ Hi Hj He) as [Hm _].
  assert (quiet (s_node s j) (set_wq (sequencer_enqueue (Acked (ack_of j m)) (n_wq (s_node s j)))
    (set_exec (l1 ++ l2) (s_node s j)))) as Hq.
  { split; try done. simpl. intros m'. rewrite He. apply exec_shrinks. }
  apply inv_quiet; [done..|]. intros k. apply (away_exec s _ j m l1 l2); [done..| | | |].
  - simpl. by rewrite fn_lookup_insert.
  - intros j' Hne. simpl. by rewrite fn_lookup_insert_ne.
  - intros j'. by apply quiet_sent.
  - unfold queued. simpl. destruct (decide (k = j)) as [->|Hne].
    + rewrite fn_lookup_insert, decide_True by done. simpl. rewrite queued_acks_app. simpl.
      by rewrite app_assoc, <-Permutation_cons_append.
    + rewrite fn_lookup_insert_ne, decide_False by congruence. done.
Qed.

Lemma inv_wrapup_remote s j l1 m l2 : inv s → (j < g_node_cnt c)%nat →
  n_exec (s_node s j) = l1 ++ m :: l2 → return_node_id m ≠ j →
  inv (mkSys (<[j := set_exec (l1 ++ l2) (s_node s j)]> (s_node s)) (s_chan s)
         (<[return_node_id m := s_acks s (return_node_id m) ++ [ack_of j m]]> (s_acks s))).
Proof.
  intros Hi Hj He Hr. destruct (exec_query _ _ _ _ _ Hi Hj He) as [Hm _].
  assert (quiet (s_node s j) (set_exec (l1 ++ l2) (s_node s j))) as Hq.
  { split; try done. simpl. intros m'. rewrite He. apply exec_shrinks. }
  apply inv_quiet; [done..|]. intros k. apply (away_exec s _ j m l1 l2); [done..| | | |].
  - simpl. by rewrite fn_lookup_insert.
  - intros j' Hne. simpl. by rewrite fn_lookup_insert_ne.
  - intros j'. by apply quiet_sent.
  - unfold queued. simpl. rewrite (upd_field (λ n, queued_acks (seq_queue (n_wq n)))) by done.
    destruct (decide (return_node_id m = k)) as [<-|Hne].
    + rewrite fn_lookup_insert, <-app_assoc. simpl. by rewrite <-Permutation_middle.
    + by rewrite fn_lookup_insert_ne.
Qed.

(** ** Deliveries *)

Lemma sched_enqueue_spec m q r : sched_queue q !! return_node_id m = Some r →
  (return_node_id m < g_node_cnt c)%nat →
  sched_enqueue c m q = Some (mkWQ (seq_queue q) (<[return_node_id m := r ++ [m]]> (sched_queue q))
    (sched_ptr q) (worker_epoch q)).
Proof.
  intros Hr Hlt. unfold sched_enqueue. rewrite assert_bind_true by (by apply bool_decide_eq_true). by rewrite Hr.
Qed.

(** A message on its way from [i] belongs to [i]. *)
Lemma sent_return s i j m : inv s → (i < g_node_cnt c)%nat → (j < g_node_cnt c)%nat → m ∈ sent s i j →
  return_node_id m = i ∧ batch_id m ≤ n_epoch (s_node s i).
Proof.
  intros Hi Hin Hj Hm. destruct (sc_at _ _ (iv_sched _ Hi j Hj)) as [pre Hpre].
  destruct (sa_sent _ _ _ Hpre i Hin) as [_ Hs]. cbv zeta in Hs.
  assert (m ∈ script i (n_hist (s_node s i)) j (if decide (i < sched_ptr (n_wq (s_node s j)))%nat
    then worker_epoch (n_wq (s_node s j)) + 1 else worker_epoch (n_wq (s_node s j))) (n_epoch (s_node s i))) as Hsc
    by (rewrite <-Hs; apply elem_of_app; by right).
  apply elem_of_script in Hsc as [(e&He&->)|(x&Hx&->&Hb&_)]; [simpl; split; [done|lia]|].
  pose proof (so_hist _ _ _ _ _ _ (no_seq _ _ (iv_node _ Hi i Hin))) as Hh. rewrite Forall_forall in Hh.
  destruct (Hh x Hx) as (_&_&Hr&_). split; [done|]. unfold sq_batch in Hb. lia.
Qed.

Lemma deliver_sent s i j m r q k j' : inv s → (i < g_node_cnt c)%nat → (j < g_node_cnt c)%nat →
  s_chan s i j = m :: r → sched_enqueue c m (n_wq (s_node s j)) = Some q →
  sent (mkSys (<[j := set_wq q (s_node s j)]> (s_node s)) (<[i := <[j := r]> (s_chan s i)]> (s_chan s)) (s_acks s)) k j'
    = sent s k j' ∧
  length (sched_queue q) = length (sched_queue (n_wq (s_node s j))) ∧
  seq_queue q = seq_queue (n_wq (s_node s j)) ∧ sched_ptr q = sched_ptr (n_wq (s_node s j)) ∧
  worker_epoch q = worker_epoch (n_wq (s_node s j)).
Proof.
  intros Hi Hin Hj Hc Hq.
  destruct (sent_return s i j m Hi Hin Hj) as [Hret _]; [unfold sent; rewrite Hc; set_solver|].
  destruct (lookup_lt_is_Some_2 (sched_queue (n_wq (s_node s j))) i) as [r0 Hr0].
  { by rewrite (sc_len _ _ (iv_sched _ Hi j Hj)). }
  rewrite (sched_enqueue_spec m _ r0) in Hq by (by rewrite Hret). injection Hq as <-. rewrite Hret. simpl.
  split_and!; [|by rewrite length_insert|done..]. unfold sent, sched_of. simpl.
  destruct (decide (k = i)) as [->|Hk], (decide (j' = j)) as [->|Hj'].
  - rewrite !fn_lookup_insert. simpl. rewrite list_lookup_insert_eq by (by eapply lookup_lt_Some).
    rewrite Hr0, Hc. simpl. by rewrite <-app_assoc.
  - by rewrite fn_lookup_insert, !fn_lookup_insert_ne.
  - rewrite fn_lookup_insert, fn_lookup_insert_ne by done. simpl. by rewrite list_lookup_insert_ne.
  - by rewrite !fn_lookup_insert_ne.
Qed.

Lemma inv_deliver s i j m r q : inv s → (i < g_node_cnt c)%nat → (j < g_node_cnt c)%nat →
  s_chan s i j = m :: r → sched_enqueue c m (n_wq (s_node s j)) = Some q →
  inv (mkSys (<[j := set_wq q (s_node s j)]> (s_node s)) (<[i := <[j := r]> (s_chan s i)]> (s_chan s)) (s_acks s)).
Proof.
  intros Hi Hin Hj Hc Hq. set (s' := mkSys _ _ _).
  assert (∀ k j', sent s' k j' = sent s k j') as Hsent by (intros; by eapply deliver_sent).
  destruct (deliver_sent s i j m r q 0 0 Hi Hin Hj Hc Hq) as (_&Hlen&Hsq&Hptr&Hwe).
  assert (∀ k, away s' k ≡ₚ away s k) as Ha.
  { intros k. apply away_acks.
    - intros j'. unfold held. rewrite Hsent. simpl. by rewrite (upd_field n_exec).
    - apply Permutation_app_head. unfold queued. simpl.
      by rewrite (upd_field (λ n, queued_acks (seq_queue (n_wq n)))) by (simpl; by rewrite Hsq). }
  split.
  - intros k Hk. apply (node_ok_frame s); simpl; auto using iv_node; by apply upd_field.
  - intros k Hk. apply (sched_ok_frame s); simpl; auto using iv_sched.
    + apply same_hist_refl. intros k' _. split; [by apply (upd_field n_epoch)|by apply (upd_field n_hist)].
    + by apply (upd_field (λ n, length (sched_queue (n_wq n)))).
    + by apply (upd_field (λ n, sched_ptr (n_wq n))).
    + by apply (upd_field (λ n, worker_epoch (n_wq n))).
    + by apply (upd_field n_order).
    + intros m'. by rewrite (upd_field n_exec).
  - intros k. simpl. destruct (decide (k = i)) as [->|Hne]; [|rewrite fn_lookup_insert_ne by done; apply Hi].
    rewrite fn_lookup_insert. destruct (decide (i = j)) as [->|Hne].
    + by rewrite (iv_self _ Hi) in Hc.
    + rewrite fn_lookup_insert_ne by done. apply Hi.
Qed.

(** ** The sequencer thread *)

(** The scheduler's side of node [i] stays the same. *)
Record seq_side (n n' : node) : Prop := {
  ss_epoch : n_epoch n' = n_epoch n;
  ss_hist : ∃ l, n_hist n' = n_hist n ++ l ∧ Forall (λ x, n_epoch n < sq_batch x) l;
  ss_order : n_order n' = n_order n;
  ss_exec : n_exec n' = n_exec n;
  ss_sched : sched_queue (n_wq n') = sched_queue (n_wq n);
  ss_ptr : sched_ptr (n_wq n') = sched_ptr (n_wq n);
  ss_we : worker_epoch (n_wq n') = worker_epoch (n_wq n) }.

Lemma seq_side_held s i n' k j : seq_side (s_node s i) n' →
  sent (mkSys (<[i := n']> (s_node s)) (s_chan s) (s_acks s)) k j = sent s k j ∧
  held (mkSys (<[i := n']> (s_node s)) (s_chan s) (s_acks s)) k j = held s k j.
Proof.
  intros []. unfold held, sent, sched_of. simpl.
  rewrite (upd_field (λ n, sched_queue (n_wq n)) (s_node s) i n' j ss_sched0). by rewrite (upd_field n_exec).
Qed.

Lemma inv_seq_side s i n' : inv s → (i < g_node_cnt c)%nat → seq_side (s_node s i) n' →
  node_ok (mkSys (<[i := n']> (s_node s)) (s_chan s) (s_acks s)) i →
  inv (mkSys (<[i := n']> (s_node s)) (s_chan s) (s_acks s)).
Proof.
  intros Hi Hin Hss Hnode. pose proof (λ k j, seq_side_held s i n' k j Hss) as Hh. destruct Hss.
  split; [| |apply Hi].
  - intros k Hk. destruct (decide (k = i)) as [->|Hne]; [done|].
    apply (node_ok_frame s); simpl; rewrite ?fn_lookup_insert_ne by done; auto using iv_node.
    apply away_acks; [intros; by apply Hh|]. unfold queued. simpl. by rewrite fn_lookup_insert_ne.
  - intros j Hj. apply (sched_ok_frame s); simpl; auto using iv_sched.
    + intros k Hk. simpl. destruct (decide (k = i)) as [->|Hne]; [by rewrite fn_lookup_insert|].
      rewrite fn_lookup_insert_ne by done. split; [done|]. exists []. by rewrite app_nil_r.
    + by rewrite (upd_field (λ n, sched_queue (n_wq n))).
    + by apply (upd_field (λ n, sched_ptr (n_wq n))).
    + by apply (upd_field (λ n, worker_epoch (n_wq n))).
    + by apply (upd_field n_order).
    + intros m'. by rewrite (upd_field n_exec).
    + intros. by apply Hh.
Qed.

Lemma count_replicate n k b t : count (replicate n k) b t = if decide (k = (b, t)) then Z.of_nat n else 0.
Proof.
  induction n as [|n IH]; [by destruct (decide _)|]. rewrite replicate_S, count_cons, IH. case_decide; lia.
Qed.

Lemma msg_keys_replicate n m : rtype m = CL_QRY → msg_keys (replicate n m) = replicate n (msg_key m).
Proof.
  intros Hm. unfold msg_keys. rewrite list_filter_all by (by apply Forall_replicate). apply fmap_replicate.
Qed.

Lemma answers_ext o o' h : (∀ b t, o b t = o' b t) → answers o h = answers o' h.
Proof. intros Ho. unfold answers. f_equal. apply list_filter_ext. intros x _. by rewrite Ho. Qed.

Lemma answers_snoc o o' h x : (∀ y, y ∈ h → o' (sq_batch y) (sq_txn y) = o (sq_batch y) (sq_txn y)) →
  o' (sq_batch x) (sq_txn x) ≠ 0 → answers o' (h ++ [x]) = answers o h.
Proof.
  intros Hold Hx. unfold answers. rewrite filter_app, filter_cons_False, app_nil_r by done. f_equal.
  apply list_filter_ext. intros y Hy. by rewrite Hold.
Qed.

Lemma inv_process_txn s i m r sq m' : cfg_ok c → inv s → (i < g_node_cnt c)%nat →
  seq_queue (n_wq (s_node s i)) = Query m :: r → rtype m = CL_QRY →
  process_txn c i (n_epoch (s_node s i)) m (n_seq (s_node s i)) = Some (sq, m') →
  let n := s_node s i in
  inv (mkSys (<[i := mkNode sq (n_epoch n) (mkWQ r (sched_queue (n_wq n)) (sched_ptr (n_wq n)) (worker_epoch (n_wq n)))
                      (n_exec n) (n_order n) (n_hist n ++ [mkSq (return_node_id m) m']) (n_rsp n)]> (s_node s))
         (s_chan s) (s_acks s)).
Proof.
  intros Hc Hi Hin Hq Hm Hp n. pose proof (iv_node _ Hi i Hin) as [Hseq Haway Hrsp].
  destruct (process_txn_pre c _ _ _ _ _ _ _ Hc Hseq Hp) as (Hps&Hcl&Hcap).
  destruct (process_txn_spec c _ _ _ _ _ m Hc Hseq Hm Hps Hcl Hcap) as (sq'&Hp'&Hok&Hperm).
  rewrite Hp in Hp'. injection Hp' as <- ->.
  set (x := next_txn c i (n_epoch n) (n_hist n) m) in *.
  change (mkSq (return_node_id m) (sq_msg x)) with x. fold n in Hp, Hseq, Haway, Hrsp.
  match goal with |- inv (mkSys (<[i := ?n']> _) _ _) => assert (seq_side n n') as Hss end.
  { split; try done. exists [x]. split; [done|]. constructor; [|done]. change (sq_batch x) with (n_epoch n + 1). lia. }
  apply inv_seq_side; [done..|]. set (s' := mkSys _ _ _).
  assert (away s' i ≡ₚ away s i) as Ha.
  { apply away_acks; [intros j; by apply seq_side_held|]. unfold queued. simpl. rewrite fn_lookup_insert. simpl.
    by rewrite Hq. }
  assert (∀ b t, out s' i b t = add_out c (out s i) x b t) as Ho.
  { intros b t. unfold add_out, out, outstanding. rewrite Ha. unfold s'. cbn [s_node].
    rewrite fn_lookup_insert. cbn [n_seq]. rewrite Hperm, msg_keys_app, !count_app, msg_keys_replicate, count_replicate by done.
    change (msg_key (sq_msg x)) with (sq_batch x, sq_txn x). change (participants c (sq_msg x)) with (participants c m).
    fold n. destruct (decide (b = sq_batch x ∧ t = sq_txn x)) as [[-> ->]|Hne].
    - rewrite decide_True by done. lia.
    - rewrite decide_False; [lia|]. intros E. apply Hne. by injection E as <- <-. }
  split; simpl; rewrite ?fn_lookup_insert; simpl.
  - by apply (seq_ok_ext c _ _ _ (add_out c (out s i) x)).
  - by rewrite Ha.
  - rewrite Hrsp. fold n. rewrite (answers_snoc (out s i) (out s' i)); [done| |].
    + intros y Hy. rewrite Ho. by apply (add_out_old c _ _ _ _ _ m y Hseq).
    + change (out s' i (sq_batch x) (sq_txn x) ≠ 0). rewrite Ho.
      pose proof (add_out_new c _ _ _ _ _ m Hseq : add_out c (out s i) x (sq_batch x) (sq_txn x) = _) as ->.
      destruct (participants c m); [done|simpl; lia].
Qed.

(** The transaction whose last acknowledgement arrives is answered. *)
Lemma answers_del i E h o q x : seq_ok c i E h o q → x ∈ h → 0 < o (sq_batch x) (sq_txn x) →
  answers (del_out o (sq_batch x) (sq_txn x)) h ≡ₚ
    answers o h ++ if o (sq_batch x) (sq_txn x) =? 1 then [answer x] else [].
Proof.
  intros Hs Hx Hpos. set (o' := del_out _ _ _).
  assert (o' (sq_batch x) (sq_txn x) = o (sq_batch x) (sq_txn x) - 1) as Hox by apply del_out_same.
  assert (∀ y, y ∈ h → y ≠ x → o' (sq_batch y) (sq_txn y) = o (sq_batch y) (sq_txn y)) as Hoy.
  { intros y Hy Hne. unfold o', del_out. rewrite decide_False; [lia|]. intros [Hb Ht].
    by apply Hne, (sq_key_inj c i E h o q). }
  destruct (list_elem_of_split _ _ Hx) as (l1&l2&->). pose proof (hist_NoDup c _ _ _ _ _ Hs) as Hnd.
  apply NoDup_app in Hnd as (_&Hd1&Hnd). apply NoDup_cons in Hnd as [Hd2 _].
  unfold answers. rewrite !filter_app, !fmap_app.
  assert (∀ l : list sequenced, (∀ y, y ∈ l → y ∈ l1 ++ x :: l2 ∧ y ≠ x) →
    filter (λ y, o' (sq_batch y) (sq_txn y) = 0) l = filter (λ y, o (sq_batch y) (sq_txn y) = 0) l) as Hf.
  { intros l Hl. apply list_filter_ext. intros y Hy. destruct (Hl y Hy). by rewrite Hoy. }
  rewrite !filter_cons, (Hf l1), (Hf l2).
  - rewrite (decide_False (P := o (sq_batch x) (sq_txn x) = 0)) by lia.
    destruct (Z.eqb_spec (o (sq_batch x) (sq_txn x)) 1) as [E1|E1].
    + rewrite decide_True by lia. simpl. rewrite <-app_assoc. apply Permutation_app_head, Permutation_cons_append.
    + rewrite decide_False by lia. by rewrite app_nil_r.
  - intros y Hy. split; [set_solver|]. intros ->. done.
  - intros y Hy. split; [set_solver|]. intros ->. apply (Hd1 x Hy). by left.
Qed.

Lemma inv_process_ack s i a r : cfg_ok c → inv s → (i < g_node_cnt c)%nat →
  seq_queue (n_wq (s_node s i)) = Acked a :: r →
  let n := s_node s i in
  ∃ sq rsp, process_ack c (a_batch_id a) (a_txn_id a) (n_seq n) = Some (sq, rsp) ∧
  inv (mkSys (<[i := mkNode sq (n_epoch n) (mkWQ r (sched_queue (n_wq n)) (sched_ptr (n_wq n)) (worker_epoch (n_wq n)))
                      (n_exec n) (n_order n) (n_hist n)
                      (n_rsp n ++ match rsp with Some r => [(a_batch_id a, r)] | None => [] end)]> (s_node s))
         (s_chan s) (s_acks s)).
Proof.
  intros Hc Hi Hin Hq n. pose proof (iv_node _ Hi i Hin) as [Hseq Haway Hrsp]. fold n in Hseq, Haway, Hrsp, Hq.
  assert (ack_key a ∈ away s i) as Hin_a.
  { unfold away. apply elem_of_app. right. apply list_elem_of_fmap_2, elem_of_app. right. fold n. rewrite Hq. by left. }
  assert (0 < out s i (a_batch_id a) (a_txn_id a)) as Hpos.
  { unfold out, outstanding. rewrite count_app. pose proof Hin_a as (l1&l2&E)%list_elem_of_split.
    rewrite E, count_app, count_cons, decide_True by done. unfold count. lia. }
  assert (a_batch_id a ≤ n_epoch n) as Hle.
  { rewrite Forall_forall in Haway. exact (Haway _ Hin_a). }
  destruct (process_ack_spec c _ _ _ _ _ _ _ Hc Hseq Hpos Hle) as (x&sq&Hx&Hb&Ht&Hp&Hok).
  eexists sq, _. split; [exact Hp|]. rewrite <-Hb, <-Ht in *.
  match goal with |- inv (mkSys (<[i := ?n']> _) _ _) => assert (seq_side n n') as Hss end.
  { split; try done. exists []. by rewrite app_nil_r. }
  apply inv_seq_side; [done..|]. set (s' := mkSys _ _ _).
  assert (away s i ≡ₚ (sq_batch x, sq_txn x) :: away s' i) as Ha.
  { unfold away. rewrite (list_fmap_ext (held s' i) (held s i) nodes (λ _ j _, proj2 (seq_side_held s i _ i j Hss))).
    simpl. rewrite fn_lookup_insert. simpl. fold n. rewrite Hq. simpl. rewrite !fmap_app. simpl. unfold ack_key at 2.
    rewrite <-Hb, <-Ht. by rewrite <-!Permutation_middle. }
  assert (∀ b t, out s' i b t = del_out (out s i) (sq_batch x) (sq_txn x) b t) as Ho.
  { intros b t. unfold del_out, out, outstanding. unfold s' at 1. cbn [s_node]. rewrite fn_lookup_insert. cbn [n_seq].
    rewrite Ha, !count_app, count_cons. fold n.
    rewrite (process_ack_fill _ _ _ _ _ _ Hp).
    destruct (decide (b = sq_batch x ∧ t = sq_txn x)) as [[-> ->]|Hne].
    - rewrite decide_True by done. lia.
    - rewrite decide_False; [lia|]. intros E. apply Hne. by injection E as <- <-. }
  assert (s_node s' i = _) as Hn by apply fn_lookup_insert.
  split; rewrite !Hn; cbn [n_seq n_epoch n_hist n_rsp].
  - by apply (seq_ok_ext c _ _ _ (del_out (out s i) (sq_batch x) (sq_txn x))).
  - rewrite Ha in Haway. by apply Forall_cons in Haway as [_ Haway].
  - rewrite (answers_ext (out s' i) (del_out (out s i) (sq_batch x) (sq_txn x))) by (intros; apply Ho).
    rewrite (answers_del i (n_epoch n) (n_hist n) (out s i) (n_seq n) x) by done. rewrite Hrsp.
    by destruct (_ =? 1).
Qed.

Lemma node_refl s i n' : n' = s_node s i → inv s → inv (mkSys (<[i := n']> (s_node s)) (s_chan s) (s_acks s)).
Proof.
  intros -> Hi. apply inv_quiet; [done|by split|]. intros k. apply away_acks.
  - intros j. by apply quiet_held.
  - unfold queued. simpl. by rewrite (upd_field (λ n, queued_acks (seq_queue (n_wq n)))).
Qed.

Lemma inv_sequencer s i n' : cfg_ok c → inv s → (i < g_node_cnt c)%nat →
  run_sequencer i (s_node s i) = Some n' → inv (mkSys (<[i := n']> (s_node s)) (s_chan s) (s_acks s)).
Proof.
  intros Hc Hi Hin Hr. unfold run_sequencer, sequencer_dequeue in Hr.
  destruct (seq_queue (n_wq (s_node s i))) as [|[m|a] r] eqn:Hq.
  - injection Hr as <-. by apply node_refl.
  - inv_option. destruct p as [sq m']. injection Hr as <-. apply bool_decide_eq_true in Hassert.
    by apply (inv_process_txn s i m r).
  - destruct (inv_process_ack s i a r Hc Hi Hin Hq) as (sq&rsp&Hp&Hinv). rewrite Hp in Hr.
    injection Hr as <-. exact Hinv.
Qed.

(** ** The lock thread *)

(** The next message from the sequencer whose turn it is. *)
Lemma sched_head s j pre m l : inv s → (j < g_node_cnt c)%nat → sched_at s j pre →
  let p := sched_ptr (n_wq (s_node s j)) in
  let w := worker_epoch (n_wq (s_node s j)) in
  let part := part_of c (n_hist (s_node s p)) w j in
  sent s p j = m :: l → w ≤ n_epoch (s_node s p) ∧ batch_id m = w ∧ return_node_id m = p ∧
    ((rtype m = CL_QRY ∧ (pre ++ [m]) `prefix_of` part) ∨
     (m = rdone p w ∧ pre = part ∧ l = script p (n_hist (s_node s p)) j (w + 1) (n_epoch (s_node s p)))).
Proof.
  intros Hi Hj Hpre p w part Hm. pose proof (sc_ptr _ _ (iv_sched _ Hi j Hj)) as Hp. fold p in Hp.
  destruct (sa_sent _ _ _ Hpre p Hp) as [_ Hs]. cbv zeta in Hs. fold p w in Hs.
  rewrite decide_True in Hs by done. rewrite (decide_False (P := (p < p)%nat)) in Hs by lia.
  rewrite Hm in Hs. destruct (decide (w ≤ n_epoch (s_node s p))) as [Hw|Hw].
  2:{ rewrite script_nil in Hs by lia. by destruct pre. }
  rewrite script_cons in Hs by done. fold part in Hs. split; [done|].
  destruct (sa_pre _ _ _ Hpre) as [rest Hrest]. fold p w in Hrest. fold part in Hrest.
  rewrite Hrest, <-app_assoc in Hs. apply app_inv_head in Hs.
  destruct rest as [|m0 rest]; simpl in Hs; injection Hs as -> ->.
  - split_and!; [done..|]. right. by rewrite Hrest, app_nil_r.
  - assert (m0 ∈ part) as Hin by (rewrite Hrest; set_solver).
    apply elem_of_part in Hin as (x&Hx&->&Hb&_).
    pose proof (so_hist _ _ _ _ _ _ (no_seq _ _ (iv_node _ Hi p Hp))) as Hh. rewrite Forall_forall in Hh.
    destruct (Hh x Hx) as (_&Hrt&Hret&_). split_and!; [done..|]. left. split; [done|].
    rewrite Hrest. exists rest. by rewrite <-app_assoc.
Qed.

Lemma away_held s s' j k : (j < g_node_cnt c)%nat →
  (∀ j', j' ≠ j → held s k j' = held s' k j') → msg_keys (held s' k j) ≡ₚ msg_keys (held s k j) →
  s_acks s' k = s_acks s k → queued s' k = queued s k → away s' k ≡ₚ away s k.
Proof.
  intros Hj Hoth Hkeys Ha Hq. unfold away. unfold queued in Hq. rewrite Ha, Hq.
  apply Permutation_app_tail. apply (Permutation_app_inv_r (msg_keys (held s k j))).
  rewrite <-Hkeys at 2. rewrite <-!msg_keys_app.
  pose proof (concat_change (held s k) (held s' k) nodes j nodes_NoDup (proj2 (elem_of_nodes j) Hj) Hoth) as Hc.
  by rewrite Hc.
Qed.

(** The sequencer's side of node [j] stays the same. *)
Record sched_side (n n' : node) : Prop := {
  sd_seq : n_seq n' = n_seq n;
  sd_epoch : n_epoch n' = n_epoch n;
  sd_hist : n_hist n' = n_hist n;
  sd_rsp : n_rsp n' = n_rsp n;
  sd_queue : seq_queue (n_wq n') = seq_queue (n_wq n) }.

Lemma inv_sched_side s j n' : inv s → (j < g_node_cnt c)%nat → sched_side (s_node s j) n' →
  let s' := mkSys (<[j := n']> (s_node s)) (s_chan s) (s_acks s) in
  (∀ k, msg_keys (held s' k j) ≡ₚ msg_keys (held s k j)) → sched_ok s' j → inv s'.
Proof.
  intros Hi Hj [] s' Hkeys Hok. split; [| |apply Hi].
  - intros k Hk. apply (node_ok_frame s); simpl; auto using iv_node; try by apply upd_field.
    apply (away_held s s' j k); [done| |done|done|].
    + intros j' Hne. unfold held, sent, sched_of, s'. simpl. by rewrite fn_lookup_insert_ne.
    + unfold queued. simpl. by rewrite (upd_field (λ n, seq_queue (n_wq n))).
  - intros j' Hj'. destruct (decide (j' = j)) as [->|Hne]; [done|].
    apply (sched_ok_frame s); simpl; rewrite ?fn_lookup_insert_ne by done; auto using iv_sched.
    + apply same_hist_refl. intros k _. split; [by apply (upd_field n_epoch)|by apply (upd_field n_hist)].
    + intros k _. unfold sent, sched_of. simpl. by rewrite fn_lookup_insert_ne.
Qed.

(** The scheduler's histories are those of the state before. *)
Lemma schedule_sd s j n' w k : sched_side (s_node s j) n' →
  schedule (mkSys (<[j := n']> (s_node s)) (s_chan s) (s_acks s)) w k = schedule s w k.
Proof.
  intros []. unfold schedule, epoch_part. f_equal. apply list_fmap_ext. intros _ e _. f_equal.
  apply list_fmap_ext. intros _ i _. simpl. by rewrite (upd_field n_hist).
Qed.

Section take.
Context (s : sys) (j : nat) (pre l : list Message) (m : Message) (Hi : inv s) (Hj : (j < g_node_cnt c)%nat)
  (Hpre : sched_at s j pre).
#[local] Abbreviation n := (s_node s j).
#[local] Abbreviation q := (n_wq n).
Context (Hl : sched_queue q !! sched_ptr q = Some (m :: l)).

Lemma take_sent n' k : sched_queue (n_wq n') = <[sched_ptr q := l]> (sched_queue q) →
  sent s (sched_ptr q) j = m :: l ++ s_chan s (sched_ptr q) j ∧
  sent (mkSys (<[j := n']> (s_node s)) (s_chan s) (s_acks s)) k j =
    if decide (k = sched_ptr q) then l ++ s_chan s (sched_ptr q) j else sent s k j.
Proof.
  intros Hn'. unfold sent, sched_of. simpl. rewrite Hl. split; [done|]. rewrite fn_lookup_insert, Hn'.
  case_decide as Hk; [subst k|by rewrite list_lookup_insert_ne].
  by rewrite list_lookup_insert_eq by (by eapply lookup_lt_Some).
Qed.

Lemma inv_take_query : rtype m = CL_QRY →
  inv (mkSys (<[j := mkNode (n_seq n) (n_epoch n)
                       (mkWQ (seq_queue q) (<[sched_ptr q := l]> (sched_queue q)) (sched_ptr q) (worker_epoch q))
                       (n_exec n ++ [m]) (n_order n ++ [m]) (n_hist n) (n_rsp n)]> (s_node s)) (s_chan s) (s_acks s)).
Proof.
  intros Hm. match goal with |- inv (mkSys (<[j := ?x]> _) _ _) => set (n' := x) end.
  destruct (take_sent n' 0 eq_refl) as [Hsent _]. pose proof (λ k, proj2 (take_sent n' k eq_refl)) as Hs'.
  destruct (sched_head s j pre m _ Hi Hj Hpre Hsent) as (Hw&Hb&Hret&[[_ Hpf]|[-> _]]); [|done].
  assert (sched_side n n') as Hsd by (by split).
  apply inv_sched_side; [done..| |].
  - intros k. unfold held. rewrite Hs'. simpl. rewrite fn_lookup_insert. simpl. rewrite filter_app.
    destruct (decide (k = sched_ptr q)) as [->|Hk].
    + rewrite filter_cons_True by done. rewrite Hsent, <-app_assoc. done.
    + rewrite filter_cons_False by congruence. by rewrite app_nil_r.
  - pose proof (iv_sched _ Hi j Hj) as []. split; simpl; rewrite ?fn_lookup_insert; simpl; auto.
    + by rewrite length_insert.
    + apply Forall_app. split; [done|]. constructor; [|done]. split; [done|]. by rewrite Hret.
    + exists (pre ++ [m]). destruct Hpre as [Ho Hpr Hse]. split; simpl; rewrite ?fn_lookup_insert; simpl.
      * rewrite (schedule_sd s j n' _ j Hsd), Ho. cbv zeta. rewrite <-!app_assoc. do 3 f_equal.
        apply list_fmap_ext. intros _ i _. by rewrite (upd_field n_hist).
      * by rewrite (upd_field n_hist).
      * intros i Hin. rewrite (upd_field n_hist), (upd_field n_epoch), Hs' by done.
        destruct (Hse i Hin) as [Ha Hsc]. split; [done|]. rewrite <-Hsc.
        destruct (decide (i = sched_ptr q)) as [->|Hne]; [|done]. by rewrite Hsent, <-app_assoc.
Qed.

(** The position after the end of a batch. *)
Lemma next_position : let p := sched_ptr q in let w := worker_epoch q in
  let p' := ((p + 1) `mod` g_node_cnt c)%nat in
  let w' := if decide (p = g_node_cnt c - 1)%nat then w + 1 else w in
  (p' < g_node_cnt c)%nat ∧ 1 ≤ w' ∧
  schedule s (w' - 1) j ++ concat ((λ i, part_of c (n_hist (s_node s i)) w' j) <$> seq 0 p') =
  schedule s (w - 1) j ++ concat ((λ i, part_of c (n_hist (s_node s i)) w j) <$> seq 0 p) ++
    part_of c (n_hist (s_node s p)) w j ∧
  (∀ i, (i < g_node_cnt c)%nat →
    (if decide (i < p')%nat then w' + 1 else w') = if decide (i < p + 1)%nat then w + 1 else w).
Proof.
  intros p w p' w'. pose proof (iv_sched _ Hi j Hj) as []. fold p in sc_ptr0. fold w in sc_epoch0.
  assert (concat ((λ i, part_of c (n_hist (s_node s i)) w j) <$> seq 0 (p + 1)) =
    concat ((λ i, part_of c (n_hist (s_node s i)) w j) <$> seq 0 p) ++ part_of c (n_hist (s_node s p)) w j) as Hsnoc.
  { rewrite seq_app, fmap_app, concat_app. simpl. by rewrite app_nil_r. }
  unfold w'. destruct (decide (p = g_node_cnt c - 1)%nat) as [Hp|Hp].
  - assert (p' = 0)%nat as ->.
    { unfold p'. replace (p + 1)%nat with (g_node_cnt c) by lia. apply Nat.Div0.mod_same. }
    split_and!; [lia|lia| |].
    + simpl. rewrite app_nil_r, <-Hsnoc. replace (p + 1)%nat with (g_node_cnt c) by lia.
      unfold schedule. replace (w + 1 - 1) with ((w - 1) + 1) by lia. rewrite seqZ_app by lia.
      rewrite fmap_app, concat_app. f_equal. replace (1 + (w - 1)) with w by lia.
      rewrite seqZ_cons, seqZ_nil by lia. simpl. by rewrite app_nil_r.
    + intros i Hin. rewrite decide_False by lia. by rewrite decide_True by lia.
  - assert (p' = p + 1)%nat as -> by (apply Nat.mod_small; lia).
    split_and!; [lia|lia|by rewrite Hsnoc|]. done.
Qed.

Lemma inv_take_rdone we : m = rdone (sched_ptr q) (worker_epoch q) →
  we = (if bool_decide (sched_ptr q = g_node_cnt c - 1)%nat then wrap64 (worker_epoch q + 1) else worker_epoch q) →
  inv (mkSys (<[j := set_wq (mkWQ (seq_queue q) (<[sched_ptr q := l]> (sched_queue q))
                               ((sched_ptr q + 1) `mod` g_node_cnt c)%nat we) n]> (s_node s)) (s_chan s) (s_acks s)).
Proof.
  intros Hm Hwe. match goal with |- inv (mkSys (<[j := ?x]> _) _ _) => set (n' := x) end.
  destruct (take_sent n' 0 eq_refl) as [Hsent _]. pose proof (λ k, proj2 (take_sent n' k eq_refl)) as Hs'.
  pose proof (iv_sched _ Hi j Hj) as [].
  destruct (sched_head s j pre m _ Hi Hj Hpre Hsent) as (Hw&Hb&Hret&[[Hq _]|(_&Hpart&Hrest)]); [by rewrite Hm in Hq|].
  assert (we = if decide (sched_ptr q = g_node_cnt c - 1)%nat then worker_epoch q + 1 else worker_epoch q) as ->.
  { rewrite Hwe. pose proof (so_epoch _ _ _ _ _ _ (no_seq _ _ (iv_node _ Hi _ sc_ptr0))).
    destruct (decide _) as [Hd|Hd]; [rewrite bool_decide_true by done|by rewrite bool_decide_false].
    apply wrap64_small. unfold is_u64. lia. }
  destruct next_position as (Hp'&Hw'&Hord&Ha'). assert (sched_side n n') as Hsd by (by split).
  apply inv_sched_side; [done..| |].
  - intros k. unfold held. rewrite Hs'. simpl. rewrite fn_lookup_insert. simpl.
    destruct (decide (k = sched_ptr q)) as [->|Hk]; [|done]. rewrite Hsent, !msg_keys_app.
    apply Permutation_app_head. rewrite Hm. by rewrite <-msg_keys_app.
  - split; simpl; rewrite ?fn_lookup_insert; simpl; auto; [by rewrite length_insert|].
    exists []. destruct Hpre as [Ho Hpr Hse]. split; simpl; rewrite ?fn_lookup_insert; simpl.
    + rewrite (schedule_sd s j n' _ j Hsd), Ho, app_nil_r. cbv zeta. rewrite Hpart, <-Hord. f_equal. f_equal.
      apply list_fmap_ext. intros _ i _. by rewrite (upd_field n_hist).
    + apply prefix_nil.
    + intros i Hin. rewrite (upd_field n_hist), (upd_field n_epoch), Hs', Ha' by done.
      destruct (Hse i Hin) as [Ha Hsc]. cbv zeta in Ha, Hsc.
      assert (∀ P (d : Decision P), (if decide P then [] else []) = ([] : list Message)) as Hif
        by (intros P d; by destruct (decide P)).
      rewrite Hif. simpl.
      destruct (decide (i = sched_ptr q)) as [->|Hne].
      * rewrite decide_True by lia. by split; [lia|].
      * destruct (decide (i < sched_ptr q)%nat) as [Hlt|Hlt].
        -- rewrite decide_True by lia. done.
        -- rewrite decide_False by lia. done.
Qed.

End take.

(** A transaction on its way has an id of 32 bits. *)
Lemma part_txn_id s i e j m : cfg_ok c → inv s → (i < g_node_cnt c)%nat →
  m ∈ part_of c (n_hist (s_node s i)) e j → txn_id m < u32_mod.
Proof.
  intros Hc Hi Hin (x&Hx&->&_)%elem_of_part. by eapply sq_txn_bound; [|apply (no_seq _ _ (iv_node _ Hi i Hin))|].
Qed.

Lemma lock_thread_runs s j : cfg_ok c → inv s → (j < g_node_cnt c)%nat →
  ∃ n', run_lock_thread (s_node s j) = Some n' ∧ inv (mkSys (<[j := n']> (s_node s)) (s_chan s) (s_acks s)).
Proof.
  intros Hc Hi Hj. pose proof (iv_sched _ Hi j Hj) as [Hlen Hptr _ _ [pre Hpre]].
  destruct (lookup_lt_is_Some_2 (sched_queue (n_wq (s_node s j))) (sched_ptr (n_wq (s_node s j)))) as [r Hr]; [lia|].
  unfold run_lock_thread, sched_dequeue. rewrite Hr. cbn [mbind option_bind]. destruct r as [|m l].
  { eexists. split; [done|]. apply node_refl; [|done]. by destruct (s_node s j). }
  destruct (sched_head s j pre m (l ++ s_chan s (sched_ptr (n_wq (s_node s j))) j) Hi Hj Hpre)
    as (_&Hb&Hret&Hm); [unfold sent, sched_of; by rewrite Hr|].
  rewrite (assert_bind_true (batch_id m =? _)) by (by apply Z.eqb_eq).
  destruct Hm as [[Hm [rest Hpf]]|(Hm&_)].
  - rewrite bool_decide_false by congruence. cbn [mbind option_bind].
    rewrite (assert_bind_true (bool_decide (rtype m = CL_QRY))) by (by apply bool_decide_eq_true).
    rewrite (assert_bind_true (negb _)), (assert_bind_true (ISSERVERN c _)).
    + eexists. split; [done|]. by eapply inv_take_query.
    + apply bool_decide_eq_true. by rewrite Hret.
    + assert (txn_id m < u32_mod) as Hid by (eapply part_txn_id; [done..|rewrite Hpf; set_solver]).
      apply negb_true_iff, Z.eqb_neq. unfold UINT64_MAX, u64_mod, u32_mod in *. lia.
  - rewrite bool_decide_true by (by rewrite Hm). eexists. split; [done|]. by eapply inv_take_rdone.
Qed.

(** ** Sending a batch *)

Lemma sched_enqueue_all_spec i ms q r : (i < g_node_cnt c)%nat → sched_queue q !! i = Some r →
  Forall (λ m, return_node_id m = i) ms →
  sched_enqueue_all c ms q = Some (mkWQ (seq_queue q) (<[i := r ++ ms]> (sched_queue q)) (sched_ptr q) (worker_epoch q)).
Proof.
  intros Hi. revert q r. induction ms as [|m ms IH]; intros q r Hr Hf; simpl.
  { rewrite app_nil_r, list_insert_id by done. by destruct q. }
  apply Forall_cons in Hf as [Hm Hf]. rewrite (sched_enqueue_spec m q r) by (by rewrite Hm). simpl. rewrite Hm.
  rewrite (IH _ (r ++ [m])); simpl; [|by rewrite list_lookup_insert_eq by (by eapply lookup_lt_Some)|done].
  by rewrite list_insert_insert_eq, <-app_assoc.
Qed.

Section send.
Context (Hc : cfg_ok c) (s : sys) (i : nat) (Hi : inv s) (Hin : (i < g_node_cnt c)%nat)
  (HE : n_epoch (s_node s i) + 3 < u64_mod).
#[local] Abbreviation n := (s_node s i).
#[local] Abbreviation E := (n_epoch n).
#[local] Abbreviation h := (n_hist n).

Definition batch_out (j : nat) : list Message := part_of c h (E + 1) j ++ [rdone i (E + 1)].

Lemma batch_out_return j : Forall (λ m, return_node_id m = i) (batch_out j).
Proof.
  apply Forall_forall. intros m [Hm|Hm]%elem_of_app.
  - apply elem_of_part in Hm as (x&Hx&->&_).
    pose proof (so_hist _ _ _ _ _ _ (no_seq _ _ (iv_node _ Hi i Hin))) as Hh. rewrite Forall_forall in Hh.
    by destruct (Hh x Hx) as (_&_&?&_).
  - by apply list_elem_of_singleton in Hm as ->.
Qed.

(** The state afterwards. *)
Record batch_sent (s' : sys) : Prop := {
  bs_seq : seq_ok c i (E + 1) h (out s i) (n_seq (s_node s' i));
  bs_fill : concat (fill_queue (n_seq (s_node s' i))) = [];
  bs_epoch : n_epoch (s_node s' i) = E + 1;
  bs_node : ∀ k, k ≠ i → s_node s' k = s_node s k;
  bs_hist : n_hist (s_node s' i) = h;
  bs_rsp : n_rsp (s_node s' i) = n_rsp n;
  bs_order : n_order (s_node s' i) = n_order n;
  bs_exec : n_exec (s_node s' i) = n_exec n;
  bs_queue : seq_queue (n_wq (s_node s' i)) = seq_queue (n_wq n);
  bs_ptr : sched_ptr (n_wq (s_node s' i)) = sched_ptr (n_wq n);
  bs_we : worker_epoch (n_wq (s_node s' i)) = worker_epoch (n_wq n);
  bs_len : length (sched_queue (n_wq (s_node s' i))) = length (sched_queue (n_wq n));
  bs_acks : s_acks s' = s_acks s;
  bs_self : ∀ k, s_chan s' k k = [];
  bs_sent : ∀ k j, (j < g_node_cnt c)%nat →
    sent s' k j = sent s k j ++ if decide (k = i) then batch_out j else [] }.

Lemma next_batch_spec : ∃ outs n', next_batch i n = Some (outs, n') ∧
  batch_sent (mkSys (<[i := n']> (s_node s))
    (<[i := λ j, if decide (j = i) then s_chan s i j else s_chan s i j ++ default [] (outs !! j)]> (s_chan s)) (s_acks s)).
Proof.
  pose proof (no_seq _ _ (iv_node _ Hi i Hin)) as Hseq. pose proof (so_epoch _ _ _ _ _ _ Hseq).
  pose proof (send_next_batch_spec c _ _ _ _ _ Hseq HE) as Hsp. unfold next_batch.
  rewrite wrap64_small by (unfold is_u64; lia).
  destruct (send_next_batch i (E + 1) (n_seq n)) as [outs sq] eqn:Hs. destruct Hsp as (Hlen&Houts&Hok).
  pose proof (iv_sched _ Hi i Hin) as [Hsl _ _ _ _].
  destruct (lookup_lt_is_Some_2 (sched_queue (n_wq n)) i) as [r Hr]; [lia|].
  rewrite (Houts i Hin). cbn [mbind option_bind]. fold (batch_out i).
  rewrite (sched_enqueue_all_spec i _ _ r Hin Hr (batch_out_return i)). cbn [mbind option_bind].
  eexists _, _. split; [done|]. injection Hs as Houts' <-.
  split; simpl; rewrite ?fn_lookup_insert; simpl; try done.
  - rewrite <-Houts' in *. clear. by induction (fill_queue _).
  - intros k Hk. by rewrite fn_lookup_insert_ne.
  - by rewrite length_insert.
  - intros k. destruct (decide (k = i)) as [->|Hk]; [|rewrite fn_lookup_insert_ne by done; apply Hi].
    rewrite fn_lookup_insert, decide_True by done. apply Hi.
  - intros k j Hj. unfold sent, sched_of. simpl. destruct (decide (j = i)) as [->|Hji].
    + rewrite fn_lookup_insert. simpl. destruct (decide (k = i)) as [->|Hk].
      * rewrite list_lookup_insert_eq by (by eapply lookup_lt_Some). rewrite Hr, fn_lookup_insert, decide_True by done.
        simpl. by rewrite (iv_self _ Hi), !app_nil_r.
      * rewrite list_lookup_insert_ne, fn_lookup_insert_ne by done. by rewrite app_nil_r.
    + rewrite (fn_lookup_insert_ne _ i j) by done. destruct (decide (k = i)) as [->|Hk].
      * rewrite fn_lookup_insert, decide_False by done. rewrite (Houts j Hj). simpl. by rewrite <-app_assoc.
      * rewrite fn_lookup_insert_ne by done. by rewrite app_nil_r.
Qed.

Section sent.
Context (s' : sys) (Hbs : batch_sent s').

Lemma sent_field {A} (f : node → A) k : f (s_node s' i) = f n → f (s_node s' k) = f (s_node s k).
Proof. destruct (decide (k = i)) as [->|Hk]; [done|]. by rewrite (bs_node _ Hbs k Hk). Qed.

Lemma sent_held k j : (j < g_node_cnt c)%nat →
  held s' k j = held s k j ++ if decide (k = i) then batch_out j else [].
Proof.
  intros Hj. unfold held. rewrite (bs_sent _ Hbs k j Hj), app_assoc.
  by rewrite (sent_field n_exec) by apply (bs_exec _ Hbs).
Qed.

Lemma fill_parts : fill_queue (n_seq n) = (λ j, part_of c h (E + 1) j) <$> nodes.
Proof.
  pose proof (no_seq _ _ (iv_node _ Hi i Hin)) as Hseq. apply list_eq. intros j.
  destruct (decide (j < g_node_cnt c)%nat) as [Hj|Hj].
  - rewrite (so_fill _ _ _ _ _ _ Hseq j Hj). unfold nodes. by rewrite list_lookup_fmap, lookup_seq_lt.
  - rewrite !lookup_ge_None_2; [done|..].
    + rewrite length_fmap. unfold nodes. rewrite length_seq. lia.
    + rewrite (so_len _ _ _ _ _ _ Hseq). lia.
Qed.

Lemma batch_out_keys : msg_keys (concat (batch_out <$> nodes)) = msg_keys (concat (fill_queue (n_seq n))).
Proof.
  rewrite fill_parts. induction nodes as [|j l IH]; [done|]. rewrite !fmap_cons. simpl.
  unfold batch_out at 1. rewrite !msg_keys_app, IH. f_equal. by rewrite app_nil_r.
Qed.

Lemma sent_away k : away s' k ≡ₚ (if decide (k = i) then msg_keys (concat (fill_queue (n_seq n))) else []) ++ away s k.
Proof.
  unfold away. rewrite (bs_acks _ Hbs), (sent_field (λ n, queued_acks (seq_queue (n_wq n)))) by (by rewrite (bs_queue _ Hbs)).
  assert (held s' k <$> nodes = (λ j, held s k j ++ if decide (k = i) then batch_out j else []) <$> nodes) as ->.
  { apply list_fmap_ext. intros p j Hj. apply list_elem_of_lookup_2, elem_of_nodes in Hj. by apply sent_held. }
  rewrite concat_fmap_app, msg_keys_app. rewrite (app_assoc (if decide (k = i) then _ else _)). apply Permutation_app_tail.
  rewrite Permutation_app_comm. apply Permutation_app_tail. case_decide; [by rewrite <-batch_out_keys|].
  clear. by induction nodes.
Qed.

Lemma sent_out b t : out s' i b t = out s i b t.
Proof.
  unfold out, outstanding. rewrite (bs_fill _ Hbs), sent_away, decide_True by done. done.
Qed.

Lemma sent_node_ok k : (k < g_node_cnt c)%nat → node_ok s' k.
Proof.
  intros Hk. pose proof (sent_away k) as Ha. destruct (decide (k = i)) as [->|Hne].
  2:{ apply (node_ok_frame s); rewrite ?(bs_node _ Hbs) by done; auto using iv_node. }
  pose proof (iv_node _ Hi i Hin) as [Hseq Haway Hrsp].
  split; rewrite ?(bs_epoch _ Hbs), ?(bs_hist _ Hbs), ?(bs_rsp _ Hbs).
  - apply (seq_ok_ext c _ _ _ (out s i)); [apply sent_out|apply Hbs].
  - rewrite Ha. apply Forall_app. split; [|eapply Forall_impl; [exact Haway|simpl; lia]].
    rewrite fill_parts. apply Forall_forall. intros key Hkey. unfold msg_keys in Hkey.
    apply list_elem_of_fmap in Hkey as (m&->&[_ Hm]%list_elem_of_filter).
    apply elem_of_concat_fmap in Hm as (j&_&Hm). apply elem_of_part in Hm as (x&Hx&->&Hb&_).
    unfold sq_batch in Hb. simpl. lia.
  - rewrite Hrsp. by rewrite (answers_ext (out s' i) (out s i)) by apply sent_out.
Qed.

Lemma sent_schedule w j : schedule s' w j = schedule s w j.
Proof.
  unfold schedule, epoch_part. f_equal. apply list_fmap_ext. intros _ e _. f_equal.
  apply list_fmap_ext. intros _ k _. by rewrite (sent_field n_hist) by apply Hbs.
Qed.

Lemma sent_sched_ok j : (j < g_node_cnt c)%nat → sched_ok s' j.
Proof.
  intros Hj. pose proof (iv_sched _ Hi j Hj) as [Hlen Hptr Hwe Hex [pre [Ho Hpr Hse]]].
  pose proof (sent_field (λ n, sched_ptr (n_wq n)) j (bs_ptr _ Hbs)) as Ep.
  pose proof (sent_field (λ n, worker_epoch (n_wq n)) j (bs_we _ Hbs)) as Ew. simpl in Ep, Ew.
  pose proof (λ k, sent_field n_hist k (bs_hist _ Hbs)) as Eh.
  split; rewrite ?Ep, ?Ew; try done.
  - rewrite (sent_field (λ n, length (sched_queue (n_wq n)))); [done|apply Hbs].
  - by rewrite (sent_field n_exec) by apply Hbs.
  - exists pre. split; cbv zeta; rewrite ?Ep, ?Ew, ?Eh.
    + rewrite (sent_field n_order), Ho, sent_schedule by apply Hbs. cbv zeta. do 3 f_equal.
      apply list_fmap_ext. intros _ k _. by rewrite Eh.
    + done.
    + intros k Hk. destruct (Hse k Hk) as [Ha Hsc]. cbv zeta in Ha, Hsc. rewrite ?Eh.
      rewrite (bs_sent _ Hbs k j Hj), app_assoc, Hsc. destruct (decide (k = i)) as [->|Hne].
      * rewrite (bs_epoch _ Hbs). split; [case_decide; lia|]. by rewrite script_snoc.
      * rewrite (bs_node _ Hbs) by done. by rewrite app_nil_r.
Qed.

Lemma inv_batch_sent : inv s'.
Proof. split; [apply sent_node_ok|apply sent_sched_ok|apply (bs_self _ Hbs)]. Qed.

End sent.

End send.

(** ** Reachable states *)

Lemma inv_batch s i outs n' : cfg_ok c → inv s → (i < g_node_cnt c)%nat → n_epoch (s_node s i) + 3 < u64_mod →
  next_batch i (s_node s i) = Some (outs, n') →
  inv (mkSys (<[i := n']> (s_node s))
    (<[i := λ j, if decide (j = i) then s_chan s i j else s_chan s i j ++ default [] (outs !! j)]> (s_chan s)) (s_acks s)).
Proof.
  intros Hc Hi Hin HE Hn. destruct (next_batch_spec s i Hi Hin HE) as (outs'&n''&Hn'&Hbs).
  rewrite Hn in Hn'. injection Hn' as <- <-. by eapply inv_batch_sent.
Qed.

Lemma calvin_inv_step s s' : cfg_ok c → inv s → step s s' → inv s'.
Proof.
  intros Hc Hi Hs. destruct Hs; eauto using inv_query, inv_batch, inv_sequencer, inv_deliver, inv_wrapup_local,
    inv_wrapup_remote, inv_ack.
  destruct (lock_thread_runs s j Hc Hi) as (n''&Hn&Hinv); [done|]. congruence.
Qed.

Lemma init_outstanding i : outstanding init_sys i = [].
Proof.
  unfold outstanding, away. simpl.
  assert (∀ (A : Type) n, concat (replicate n ([] : list A)) = []) as Hr by (intros A n; by induction n).
  rewrite Hr. replace (concat (held init_sys i <$> nodes)) with ([] : list Message); [done|].
  symmetry. assert (∀ j, held init_sys i j = []) as Hh.
  { intros j. unfold held, sent, sched_of. simpl. rewrite app_nil_r.
    destruct (replicate (g_node_cnt c) [] !! i) as [l|] eqn:E; [|done]. by apply lookup_replicate in E as [-> _]. }
  rewrite (list_fmap_ext _ (λ _, []) nodes (λ _ j _, Hh j)). by induction nodes.
Qed.

Lemma calvin_init_inv : cfg_ok c → inv init_sys.
Proof.
  intros Hc. assert (∀ i b t, out init_sys i b t = 0) as Ho.
  { intros i b t. unfold out. by rewrite init_outstanding. }
  split; [| |done].
  - intros i Hin. split; simpl.
    + apply (seq_ok_ext c _ _ _ (λ _ _, 0)); [done|]. by apply init_ok.
    + pose proof (init_outstanding i) as E. unfold outstanding in E. apply app_nil in E as [_ ->]. constructor.
    + done.
  - intros j Hj. split; simpl; try done.
    + apply length_replicate.
    + lia.
    + exists []. split; simpl; [done|apply prefix_nil|]. intros i Hin.
      rewrite script_nil by lia. split; [lia|].
      unfold sent, sched_of. simpl. rewrite lookup_replicate_2 by done. by destruct (decide (i = 0%nat)).
Qed.

Definition reachable (s : sys) : Prop := rtc step init_sys s.

Lemma calvin_inv_reachable s : cfg_ok c → reachable s → inv s.
Proof.
  intros Hc. apply (rtc_ind_r (λ s, inv s)); [by apply calvin_init_inv|]. intros. by eapply calvin_inv_step.
Qed.

(** ** One order for all *)

(** All sequenced messages of epochs 1 to [w]. *)
Definition global (s : sys) (w : Z) : list Message :=
  concat ((λ e, concat ((λ i, sq_msg <$> batch (n_hist (s_node s i)) e) <$> nodes)) <$> seqZ 1 w).

Lemma filter_concat_fmap {A} (P : Message → Prop) `{!∀ m, Decision (P m)} (f : A → list Message) l :
  filter P (concat (f <$> l)) = concat ((λ x, filter P (f x)) <$> l).
Proof. induction l as [|x l IH]; [done|]. rewrite !fmap_cons. simpl. by rewrite filter_app, IH. Qed.

Lemma schedule_global s w j : schedule s w j = filter (λ m, j ∈ participants c m) (global s w).
Proof.
  unfold schedule, global. rewrite filter_concat_fmap. f_equal. apply list_fmap_ext. intros _ e _.
  unfold epoch_part. by rewrite filter_concat_fmap.
Qed.

Lemma elem_of_global s w m : m ∈ global s w ↔
  ∃ e i x, e ∈ seqZ 1 w ∧ i ∈ nodes ∧ x ∈ batch (n_hist (s_node s i)) e ∧ m = sq_msg x.
Proof.
  unfold global. rewrite elem_of_concat_fmap. setoid_rewrite elem_of_concat_fmap.
  setoid_rewrite list_elem_of_fmap. naive_solver.
Qed.

(** Transactions are told apart by their keys over all nodes and epochs. *)
Lemma global_NoDup s w : cfg_ok c → inv s → NoDup (msg_key <$> global s w).
Proof.
  intros Hc Hi. assert (∀ e i x, i ∈ nodes → x ∈ batch (n_hist (s_node s i)) e →
    ∃ k, batch_id (sq_msg x) = e ∧ batch (n_hist (s_node s i)) e !! k = Some x ∧ (i < g_node_cnt c)%nat ∧
      txn_id (sq_msg x) = Z.of_nat i + Z.of_nat (g_node_cnt c) * Z.of_nat k) as Hid.
  { intros e i x Hin Hx. apply elem_of_seq in Hin. pose proof (no_seq _ _ (iv_node _ Hi i ltac:(lia))) as Hs.
    pose proof Hx as [k Hk]%list_elem_of_lookup. exists k. apply elem_of_batch in Hx as [Hb _].
    split; [done|]. split; [done|]. split; [lia|]. exact (so_ids _ _ _ _ _ _ Hs e k x Hk). }
  apply NoDup_concat_fmap; [apply NoDup_seqZ| |].
  - intros e He. apply NoDup_concat_fmap; [apply NoDup_seq| |].
    + intros i Hin. rewrite <-list_fmap_compose. apply NoDup_alt. intros a b k Ha Hb.
      rewrite list_lookup_fmap in Ha, Hb. destruct (batch _ _ !! a) as [x|] eqn:Hx; [|done].
      destruct (batch _ _ !! b) as [y|] eqn:Hy; [|done]. simpl in Ha, Hb. simplify_eq.
      apply elem_of_seq in Hin. pose proof (no_seq _ _ (iv_node _ Hi i ltac:(lia))) as Hs.
      pose proof (so_ids _ _ _ _ _ _ Hs e a x Hx) as H1. pose proof (so_ids _ _ _ _ _ _ Hs e b y Hy) as H2.
      unfold sq_txn in *. nia.
    + intros i j ? ? Hin Hjn (x&->&Hx)%list_elem_of_fmap (y&->&Hy)%list_elem_of_fmap [= _ Ht].
      destruct (Hid e i x Hin Hx) as (k&_&_&?&H1), (Hid e j y Hjn Hy) as (k'&_&_&?&H2).
      apply Nat2Z.inj. rewrite <-(tid_node c i (Z.of_nat k)), <-(tid_node c j (Z.of_nat k')) by done. congruence.
  - intros e e' ? ? _ _ (i&Hin&(x&->&Hx)%list_elem_of_fmap)%elem_of_concat_fmap
      (j&Hjn&(y&->&Hy)%list_elem_of_fmap)%elem_of_concat_fmap [= Hb _].
    by destruct (Hid e i x Hin Hx) as (k&<-&_), (Hid e' j y Hjn Hy) as (k'&<-&_).
Qed.

Lemma global_mono s w w' : w ≤ w' → global s w `prefix_of` global s w'.
Proof.
  intros Hw. unfold global. destruct (decide (0 ≤ w)) as [H0|H0]; [|by rewrite (seqZ_nil 1 w) by lia; apply prefix_nil].
  replace w' with (w + (w' - w)) by lia. rewrite seqZ_app by lia. rewrite fmap_app, concat_app.
  by apply prefix_app_r.
Qed.

Lemma prefix_filter (P : Message → Prop) `{!∀ m, Decision (P m)} l l' :
  l `prefix_of` l' → filter P l `prefix_of` filter P l'.
Proof. intros [r ->]. rewrite filter_app. by apply prefix_app_r. Qed.

Lemma order_prefix s j : inv s → (j < g_node_cnt c)%nat →
  n_order (s_node s j) `prefix_of` schedule s (worker_epoch (n_wq (s_node s j))) j.
Proof.
  intros Hi Hj. pose proof (iv_sched _ Hi j Hj) as [_ Hp Hw _ [pre [-> [rest Hpre] _]]]. cbv zeta.
  set (w := worker_epoch _) in *. set (p := sched_ptr _) in *.
  assert (schedule s w j = schedule s (w - 1) j ++ epoch_part s j w) as ->.
  { unfold schedule. rewrite <-(Z.sub_add 1 w) at 1. rewrite seqZ_app, fmap_app, concat_app by lia.
    f_equal. replace (1 + (w - 1)) with w by lia. simpl. by rewrite app_nil_r. }
  apply prefix_app. unfold epoch_part, nodes.
  replace (g_node_cnt c) with (p + S (g_node_cnt c - p - 1))%nat by lia.
  rewrite seq_app, fmap_app, concat_app. apply prefix_app. simpl. rewrite Hpre, <-app_assoc.
  by apply prefix_app_r.
Qed.

Lemma order_global s j w : inv s → (j < g_node_cnt c)%nat → worker_epoch (n_wq (s_node s j)) ≤ w →
  n_order (s_node s j) `prefix_of` filter (λ m, j ∈ participants c m) (global s w).
Proof.
  intros Hi Hj Hw. etrans; [by apply order_prefix|]. rewrite schedule_global. by apply prefix_filter, global_mono.
Qed.

(** ** Executable schedules *)

Inductive act :=
  | DoQuery (i : nat) (m : Message) | DoBatch (i : nat) | DoSequencer (i : nat) | DoDeliver (i j : nat)
  | DoLockThread (j : nat) | DoWrapup (j : nat) | DoAck (i : nat).

Definition run_act (a : act) (s : sys) : option sys :=
  match a with
  | DoQuery i m =>
      ASSERT (ISSERVERN c i && bool_decide (rtype m = CL_QRY));
      Some (mkSys (<[i := set_wq (sequencer_enqueue (Query m) (n_wq (s_node s i))) (s_node s i)]> (s_node s))
              (s_chan s) (s_acks s))
  | DoBatch i =>
      ASSERT (ISSERVERN c i && (n_epoch (s_node s i) + 3 <? u64_mod));
      '(outs, n') ← next_batch i (s_node s i);
      Some (mkSys (<[i := n']> (s_node s))
              (<[i := λ j, if decide (j = i) then s_chan s i j
                           else s_chan s i j ++ default [] (outs !! j)]> (s_chan s)) (s_acks s))
  | DoSequencer i =>
      ASSERT (ISSERVERN c i);
      n' ← run_sequencer i (s_node s i);
      Some (mkSys (<[i := n']> (s_node s)) (s_chan s) (s_acks s))
  | DoDeliver i j =>
      ASSERT (ISSERVERN c i && ISSERVERN c j);
      match s_chan s i j with
      | [] => None
      | m :: r =>
          q ← sched_enqueue c m (n_wq (s_node s j));
          Some (mkSys (<[j := set_wq q (s_node s j)]> (s_node s))
                  (<[i := <[j := r]> (s_chan s i)]> (s_chan s)) (s_acks s))
      end
  | DoLockThread j =>
      ASSERT (ISSERVERN c j);
      n' ← run_lock_thread (s_node s j);
      Some (mkSys (<[j := n']> (s_node s)) (s_chan s) (s_acks s))
  | DoWrapup j =>
      ASSERT (ISSERVERN c j);
      match n_exec (s_node s j) with
      | [] => None
      | m :: l =>
          if decide (return_node_id m = j) then
            Some (mkSys (<[j := set_wq (sequencer_enqueue (Acked (ack_of j m)) (n_wq (s_node s j)))
                                  (set_exec l (s_node s j))]> (s_node s)) (s_chan s) (s_acks s))
          else
            Some (mkSys (<[j := set_exec l (s_node s j)]> (s_node s)) (s_chan s)
                    (<[return_node_id m := s_acks s (return_node_id m) ++ [ack_of j m]]> (s_acks s)))
      end
  | DoAck i =>
      ASSERT (ISSERVERN c i);
      match s_acks s i with
      | [] => None
      | a :: l =>
          Some (mkSys (<[i := set_wq (sequencer_enqueue (Acked a) (n_wq (s_node s i))) (s_node s i)]> (s_node s))
                  (s_chan s) (<[i := l]> (s_acks s)))
      end
  end.

Fixpoint run_acts (l : list act) (s : sys) : option sys :=
  match l with
  | [] => Some s
  | a :: l => s ← run_act a s; run_acts l s
  end.

Lemma run_act_step a s s' : run_act a s = Some s' → step s s'.
Proof.
  assert (∀ i, ISSERVERN c i = true → (i < g_node_cnt c)%nat) as Hsv by (intros i Hi; by apply bool_decide_eq_true in Hi).
  destruct a as [i m|i|i|i j|j|j|i]; simpl; intros Hr; inv_option; try subst s'.
  - apply andb_true_iff in Hassert as [Hi Hm%bool_decide_eq_true]. by apply step_query; auto.
  - apply andb_true_iff in Hassert as [Hi Hm%Z.ltb_lt]. destruct p. injection Hr as <-. apply step_batch; auto.
  - apply step_sequencer; auto.
  - apply andb_true_iff in Hassert as [Hi Hj]. destruct (s_chan s i j) as [|m r] eqn:E; [done|].
    inv_option. subst s'. eapply step_deliver; eauto.
  - apply step_lock_thread; auto.
  - destruct (n_exec (s_node s j)) as [|m l] eqn:E; [done|]. destruct (decide (return_node_id m = j)); simplify_eq.
    + by apply (step_wrapup_local s _ [] m l); auto.
    + by apply (step_wrapup_remote s _ [] m l); auto.
  - destruct (s_acks s i) as [|a l] eqn:E; [done|]. simplify_eq. by apply (step_ack s i [] a l); auto.
Qed.

Lemma run_acts_reachable l s : run_acts l init_sys = Some s → reachable s.
Proof.
  unfold reachable. generalize init_sys. induction l as [|a l IH]; simpl; intros s0 Hr; inv_option; [by subst|].
  eapply rtc_l; [by eapply run_act_step|auto].
Qed.

Lemma answers_NoDup i E h o sq : seq_ok c i E h o sq → NoDup (answers o h).
Proof.
  intros Hs. unfold answers. apply NoDup_fmap_2_strong; [|by eapply NoDup_filter, hist_NoDup].
  intros x y Hx Hy Hxy. apply list_elem_of_filter in Hx as [_ Hx], Hy as [_ Hy].
  injection Hxy as Hb _ Ht _. by eapply sq_key_inj.
Qed.

(** C7: In every reachable state of the Calvin nodes, whatever the timing of batches,
    deliveries and threads, two nodes take the transactions in which both participate
    in the same order: one of the two lists is a prefix of the other.  What a scheduler
    has taken is a prefix of one global list, by epoch and then by sequencer, restricted
    to the transactions in which its node participates; and no assertion of [sched_dequeue]
    and of the lock thread fails. *)
Theorem calvin_same_order s j k : cfg_ok c → reachable s → (j < g_node_cnt c)%nat → (k < g_node_cnt c)%nat →
  let shared := filter (λ m, j ∈ participants c m ∧ k ∈ participants c m) in
  let order i := n_order (s_node s i) in
  (shared (order j) `prefix_of` shared (order k) ∨ shared (order k) `prefix_of` shared (order j)) ∧
  order j `prefix_of` filter (λ m, j ∈ participants c m) (global s (worker_epoch (n_wq (s_node s j)))) ∧
  is_Some (run_lock_thread (s_node s j)).
Proof.
  intros Hc Hr Hj Hk shared order. pose proof (calvin_inv_reachable s Hc Hr) as Hi.
  split_and!; [|by apply order_global|].
  - set (w := Z.max (worker_epoch (n_wq (s_node s j))) (worker_epoch (n_wq (s_node s k)))).
    apply (prefix_weak_total _ _ (shared (global s w))).
    + etrans; [apply prefix_filter, (order_global s j w); [done..|lia]|].
      rewrite list_filter_filter_l; [done|]. naive_solver.
    + etrans; [apply prefix_filter, (order_global s k w); [done..|lia]|].
      rewrite list_filter_filter_l; [done|]. naive_solver.
  - destruct (lock_thread_runs s j Hc Hi Hj) as (n'&->&_). by eexists.
Qed.

(** C32: In every reachable state, the answers a sequencer has sent are those of the
    sequenced queries that every participant has acknowledged, each exactly once, to the
    client it came from; when nothing is outstanding every sequenced query is answered.
    The sequencer's thread does not fail: an acknowledgement finds its batch and its
    entry, a query of a client is sequenced while the batch is not full, and a batch is
    sent until the epoch counter is used up. *)
Theorem calvin_answers_once s i : cfg_ok c → reachable s → (i < g_node_cnt c)%nat →
  let n := s_node s i in
  NoDup (n_rsp n) ∧ n_rsp n ≡ₚ answers (out s i) (n_hist n) ∧
  (outstanding s i = [] → n_rsp n ≡ₚ answer <$> n_hist n) ∧
  (∀ a r, seq_queue (n_wq n) = Acked a :: r → is_Some (run_sequencer i n)) ∧
  (∀ m r, seq_queue (n_wq n) = Query m :: r → rtype m = CL_QRY → participants c m ≠ [] →
     ISCLIENTN c (return_node_id m) = true →
     zlen (batch (n_hist n) (n_epoch n + 1)) < g_inflight_max c * Z.of_nat (g_node_cnt c) →
     is_Some (run_sequencer i n)) ∧
  (n_epoch n + 3 < u64_mod → is_Some (next_batch i n)).
Proof.
  intros Hc Hr Hin n. pose proof (calvin_inv_reachable s Hc Hr) as Hi.
  pose proof (iv_node _ Hi i Hin) as [Hseq Haway Hrsp]. fold n in Hseq, Haway, Hrsp. split_and!.
  - rewrite Hrsp. by eapply answers_NoDup.
  - done.
  - intros Ho. rewrite Hrsp. unfold answers. rewrite list_filter_all; [done|]. apply Forall_true.
    intros x. unfold out. by rewrite Ho.
  - intros a r Hq. destruct (inv_process_ack s i a r Hc Hi Hin Hq) as (sq&rsp&Hp&_).
    subst n. unfold run_sequencer, sequencer_dequeue. rewrite Hq, Hp. by eexists.
  - intros m r Hq Hm Hps Hcl Hcap. destruct (process_txn_spec c i _ _ _ _ m Hc Hseq Hm Hps Hcl Hcap) as (s'&Hp&_).
    unfold run_sequencer, sequencer_dequeue. rewrite Hq, Hp. by rewrite bool_decide_true by done.
  - intros HE. destruct (next_batch_spec s i Hi Hin HE) as (outs&n'&Hn&_). subst n. rewrite Hn. by eexists.
Qed.

End system.
(** ** Runs of two nodes *)

(** Two servers and one client; query 0 is on both servers, query 1 on the second. *)
Definition ex_config : config := mkCfg 2 1 2 100.
Definition ex_query (k : Z) : Message :=
  if k =? 0 then mkMsg CL_QRY 0 0 2 [mkReq RD 0; mkReq WR 1] 7 else mkMsg CL_QRY 0 0 2 [mkReq WR 1; mkReq RD 3] 9.

(** Both are sequenced, one by each node, and the first node takes the first. *)
Definition ex_start : list act :=
  [DoQuery 0 (ex_query 0); DoQuery 1 (ex_query 1); DoSequencer 0; DoSequencer 1; DoBatch 0; DoBatch 1;
   DoLockThread 0].
(** The second node takes both, and the first is acknowledged by both and answered. *)
Definition ex_rest : list act :=
  [DoDeliver 0 1; DoDeliver 0 1; DoLockThread 1; DoLockThread 1; DoLockThread 1; DoWrapup 0; DoWrapup 1;
   DoAck 0; DoSequencer 0; DoSequencer 0].

Lemma ex_config_ok : cfg_ok ex_config.
Proof. split; unfold fill_capacity, u32_mod; simpl; lia. Qed.

Definition ex_state (l : list act) : sys := default (init_sys ex_config) (run_acts ex_config l (init_sys ex_config)).

Lemma ex_run_reachable l : bool_decide (is_Some (run_acts ex_config l (init_sys ex_config))) = true →
  reachable ex_config (ex_state l).
Proof. intros [s Hs]%bool_decide_eq_true. unfold ex_state. rewrite Hs. by eapply run_acts_reachable. Qed.

Lemma calvin_same_order_witness :
  let s := ex_state (ex_start ++ ex_rest) in
  (txn_id <$> n_order (s_node s 0)) = [0] ∧ (txn_id <$> n_order (s_node s 1)) = [0; 1] ∧
  is_Some (run_lock_thread ex_config (s_node s 1)).
Proof.
  split; [by vm_compute|]. split; [by vm_compute|].
  refine (proj2 (proj2 (calvin_same_order ex_config (ex_state (ex_start ++ ex_rest)) 1 0 ex_config_ok _ _ _))).
  - apply ex_run_reachable. by vm_compute.
  - simpl. lia.
  - simpl. lia.
Defined.

Lemma calvin_answers_once_witness :
  let s := ex_state (ex_start ++ ex_rest) in
  n_rsp (s_node s 0) = [(1, mkRsp 2 0 7)] ∧ n_rsp (s_node s 0) ≡ₚ answer <$> n_hist (s_node s 0).
Proof.
  split; [by vm_compute|].
  refine (proj1 (proj2 (proj2 (calvin_answers_once ex_config (ex_state (ex_start ++ ex_rest)) 0 ex_config_ok _ _))) _).
  - apply ex_run_reachable. by vm_compute.
  - simpl. lia.
  - by vm_compute.
Defined.

End Calvin.
