(* ===== verification/CalvinLocks.v ===== *)
(** * CalvinLocks: deterministic locking

    The lock thread of a Calvin node takes the transactions in the order of the
    scheduler and requests all their locks ([CalvinLockThread::run],
    [YCSBTxnManager::acquire_locks], [TxnManager::get_lock]); a transaction runs when it
    has them all, and the workers give them back one by one ([TxnManager::cleanup]).
    The lock table is that of [LockTable].  Every call on a row is a step, so releases
    of the workers fall between the requests of the lock thread.  The last part composes
    this with [Calvin]: on all nodes together, conflicting transactions are ordered as
    in one list. *)

From S2P Require Import Prelude RowLock LockTable Sequencer Calvin.

Module CalvinLocks.
Import RowLock LockTable.

(** ** The node *)

(** The log is ghost state: which transaction of the schedule was granted or gave back
    which row. *)
Inductive event := Grant (i : nat) (k : Z) (md : lock_t) | Release (i : nat) (k : Z).

(** [l_todo] and [l_rc] are the rest of the loop of [acquire_locks] and its result;
    [l_locked] is [calvin_locked_rows]; [l_work] are the transactions the lock thread
    puts into the work queue, besides those [lock_release] restarts; [l_rel] are the
    transactions in cleanup with the rows they still have to give back. *)
Record lnode := mkLN {
  l_tbl : sys;
  l_todo : list Sequencer.ycsb_request;
  l_rc : RC;
  l_locked : txn_ptr → list nat;
  l_work : list (Z * Z);
  l_rel : list (txn_ptr * list nat);
  l_log : list event }.

Definition set_tbl (tbl : sys) (n : lnode) : lnode :=
  mkLN tbl (l_todo n) (l_rc n) (l_locked n) (l_work n) (l_rel n) (l_log n).

(** [row_t::get_lock] *)
Definition lock_mode (type : access_t) : lock_t :=
  if bool_decide (type = RD) || bool_decide (type = SCAN) then LOCK_SH else LOCK_EX.

Definition txn_key (x : TxnManager) : Z * Z := (txn_id x, batch_id x).

(** What was put into the work queue to be executed. *)
Definition started (n : lnode) : list (Z * Z) := l_work n ++ s_restarts (l_tbl n).

Section node.
(** [row_of] is what the index and the item's location give for a key. *)
Context (c : Sequencer.config) (g_node_id : nat) (g_req_per_query : Z) (row_of : Z → nat).
Context (sched : list Sequencer.Message).

Definition is_local (req : Sequencer.ycsb_request) : bool :=
  Sequencer.GET_NODE_ID c (Sequencer.key_to_part c (Sequencer.key req)) =? Z.of_nat g_node_id.

(** A manager for the next transaction, and the first lines of [acquire_locks]. *)
Definition acquire_start (t : txn_ptr) (x : TxnManager) (m : Sequencer.Message) (n : lnode) : option lnode :=
  let s := l_tbl n in
  ASSERT (zlen (Sequencer.requests m) =? g_req_per_query);
  Some (mkLN
    (mkSys (s_rows s) (acquire_begin (<[t := x]> (s_txns s)) t) (s_restarts s) (t :: s_active s) (Some t)
       (<[t := s_next s]> (s_seq s)) (s_next s + 1))
    (Sequencer.requests m) RCOK (<[t := []]> (l_locked n)) (l_work n) (l_rel n) (l_log n)).

(** [TxnManager::get_lock] and [Row_lock::lock_get] *)
Definition get_lock (i : nat) (type : access_t) (t : txn_ptr) (n : lnode) : option (RC * lnode) :=
  let s := l_tbl n in
  if bool_decide (i ∈ l_locked n t) then Some (RCOK, n)
  else
    x ← s_rows s !! i;
    '(rc, s') ← lock_get CALVIN (lock_mode type) t (mkState (lr_row x) (s_txns s) (s_restarts s));
    let e := mkEntry (lock_mode type) t in
    Some (rc, mkLN
      (mkSys (<[i := mkLR (row s') (if bool_decide (rc = RCOK) then e :: lr_held x else lr_held x)]> (s_rows s))
         (txns s') (restarts s') (s_active s) (s_cur s) (s_seq s) (s_next s))
      (l_todo n) (l_rc n) (<[t := l_locked n t ++ [i]]> (l_locked n)) (l_work n) (l_rel n)
      (l_log n ++ if bool_decide (rc = RCOK) then [Grant i (s_seq s t) (lock_mode type)] else [])).

(** One iteration of the loop of [acquire_locks]. *)
Definition acquire_one (t : txn_ptr) (req : Sequencer.ycsb_request) (rest : list Sequencer.ycsb_request)
    (n : lnode) : option lnode :=
  '(rc2, n') ← (if is_local req then get_lock (row_of (Sequencer.key req)) (Sequencer.acctype req) t n
                else Some (RCOK, n));
  Some (mkLN (l_tbl n') rest (if bool_decide (rc2 = RCOK) then l_rc n' else rc2) (l_locked n') (l_work n')
          (l_rel n') (l_log n')).

(** The end of [acquire_locks]; the lock thread puts the transaction into the work queue
    if the result is RCOK. *)
Definition acquire_done (t : txn_ptr) (n : lnode) : lnode :=
  let s := l_tbl n in
  let x := decr_lr (s_txns s t) in
  let rc := if (lock_ready_cnt x =? 0) && negb (lock_ready x) then RCOK else l_rc n in
  mkLN (mkSys (s_rows s) (acquire_end (s_txns s) t) (s_restarts s) (s_active s) None (s_seq s) (s_next s))
    [] rc (l_locked n) (if bool_decide (rc = RCOK) then l_work n ++ [txn_key x] else l_work n) (l_rel n) (l_log n).

(** The holders a release lets in. *)
Definition joined (x : locked_row) (r' : Row_lock) : list LockEntry :=
  take (length (waiters (lr_row x)) - length (waiters r')) (waiters (lr_row x)).

(** [row->return_row(rc,RD,this,row)] *)
Definition release_one (t : txn_ptr) (i : nat) (rel : list (txn_ptr * list nat)) (n : lnode) : option lnode :=
  let s := l_tbl n in
  x ← s_rows s !! i;
  s' ← lock_release CALVIN t (mkState (lr_row x) (s_txns s) (s_restarts s));
  Some (mkLN
    (mkSys (<[i := mkLR (row s') (held_after t x (row s'))]> (s_rows s)) (txns s') (restarts s')
       (s_active s) (s_cur s) (s_seq s) (s_next s))
    (l_todo n) (l_rc n) (l_locked n) (l_work n) rel
    (l_log n ++ Release i (s_seq s t) ::
       ((λ e, Grant i (s_seq s (le_txn e)) (le_type e)) <$> joined x (row s')))).

Inductive lstep (n : lnode) : lnode → Prop :=
  | lstep_take m t x n' :
      sched !! Z.to_nat (s_next (l_tbl n)) = Some m → s_cur (l_tbl n) = None → t ∉ s_active (l_tbl n) →
      txn_key x = (Sequencer.txn_id m, Sequencer.batch_id m) → lock_ready_cnt x = 0 → recon x = false →
      zlen (s_active (l_tbl n)) + 2 < u32_mod → acquire_start t x m n = Some n' → lstep n n'
  | lstep_request t req rest n' :
      s_cur (l_tbl n) = Some t → l_todo n = req :: rest → acquire_one t req rest n = Some n' → lstep n n'
  | lstep_acquired t :
      s_cur (l_tbl n) = Some t → l_todo n = [] → lstep n (acquire_done t n)
  (* a worker has executed the transaction and begins cleanup *)
  | lstep_finish t :
      t ∈ s_active (l_tbl n) → txn_key (s_txns (l_tbl n) t) ∈ started n → t ∉ (l_rel n).*1 →
      lstep n (mkLN (l_tbl n) (l_todo n) (l_rc n) (l_locked n) (l_work n) ((t, l_locked n t) :: l_rel n) (l_log n))
  | lstep_release t i rest l1 l2 n' :
      l_rel n = l1 ++ (t, i :: rest) :: l2 → release_one t i (l1 ++ (t, rest) :: l2) n = Some n' → lstep n n'
  | lstep_end t l1 l2 :
      l_rel n = l1 ++ (t, []) :: l2 →
      lstep n (mkLN
        (mkSys (s_rows (l_tbl n)) (s_txns (l_tbl n)) (s_restarts (l_tbl n))
           (filter (λ t', t' ≠ t) (s_active (l_tbl n))) (s_cur (l_tbl n)) (s_seq (l_tbl n)) (s_next (l_tbl n)))
        (l_todo n) (l_rc n) (l_locked n) (l_work n) (l1 ++ l2) (l_log n)).

Definition linit (rows : nat) (h : heap) : lnode := mkLN (init_sys rows h) [] RCOK (λ _, []) [] [] [].

Definition lreach (rows : nat) (n : lnode) : Prop :=
  ∃ h, (∀ t, lock_ready_cnt (h t) = 0) ∧ rtc lstep (linit rows h) n.

(** ** What a transaction locks *)

(** The rows of this node a list of requests locks, with the mode of the first request. *)
Definition add_lock (l : list (nat * lock_t)) (req : Sequencer.ycsb_request) : list (nat * lock_t) :=
  let i := row_of (Sequencer.key req) in
  if is_local req && negb (bool_decide (i ∈ l.*1)) then l ++ [(i, lock_mode (Sequencer.acctype req))] else l.

Definition locks (reqs : list Sequencer.ycsb_request) : list (nat * lock_t) := foldl add_lock [] reqs.

(** The requests of the [k]th transaction that [acquire_locks] has gone through. *)
Definition processed (n : lnode) (k : Z) (m : Sequencer.Message) : list Sequencer.ycsb_request :=
  if decide (s_cur (l_tbl n) ≠ None ∧ k = s_next (l_tbl n) - 1)
  then take (length (Sequencer.requests m) - length (l_todo n)) (Sequencer.requests m)
  else Sequencer.requests m.

Definition row_entries (s : sys) (i : nat) : list LockEntry :=
  match s_rows s !! i with Some x => lr_entries x | None => [] end.

Definition msg_at (k : Z) : option Sequencer.Message := sched !! Z.to_nat k.

(** ** The invariant *)

(** A row is granted after the conflicting transactions earlier in the schedule have
    given it back, and given back after it was granted. *)
Record log_ok (l : list event) : Prop := {
  lo_order : ∀ p i k' md', l !! p = Some (Grant i k' md') →
    ∀ k m md, 0 ≤ k < k' → msg_at k = Some m → (i, md) ∈ locks (Sequencer.requests m) →
    conflict_lock md md' = true → Release i k ∈ take p l;
  lo_once : ∀ p q i k md, l !! p = Some (Grant i k md) → l !! q = Some (Release i k) → (p < q)%nat }.

Record linv (n : lnode) : Prop := {
  li_tbl : sys_inv CALVIN (l_tbl n);
  li_next : 0 ≤ s_next (l_tbl n) ≤ zlen sched;
  li_txn : ∀ t, t ∈ s_active (l_tbl n) → 0 ≤ s_seq (l_tbl n) t < s_next (l_tbl n) ∧
    recon (s_txns (l_tbl n) t) = false ∧ ∃ m, msg_at (s_seq (l_tbl n) t) = Some m ∧
    txn_key (s_txns (l_tbl n) t) = (Sequencer.txn_id m, Sequencer.batch_id m) ∧
    l_locked n t = (locks (processed n (s_seq (l_tbl n) t) m)).*1;
  li_seq : ∀ t t', t ∈ s_active (l_tbl n) → t' ∈ s_active (l_tbl n) →
    s_seq (l_tbl n) t = s_seq (l_tbl n) t' → t = t';
  li_cur : ∀ t, s_cur (l_tbl n) = Some t → s_seq (l_tbl n) t = s_next (l_tbl n) - 1 ∧
    (∃ m, msg_at (s_seq (l_tbl n) t) = Some m ∧ l_todo n `suffix_of` Sequencer.requests m) ∧
    (l_rc n = RCOK → total_waits t (s_rows (l_tbl n)) = 0) ∧
    (l_rc n ≠ RCOK → lock_ready (s_txns (l_tbl n) t) = false);
  li_has : ∀ k m i md, 0 ≤ k < s_next (l_tbl n) → msg_at k = Some m → (i, md) ∈ locks (processed n k m) →
    (∃ t, mkEntry md t ∈ row_entries (l_tbl n) i ∧ s_seq (l_tbl n) t = k) ∨ Release i k ∈ l_log n;
  li_entry : ∀ i e m, e ∈ row_entries (l_tbl n) i → msg_at (s_seq (l_tbl n) (le_txn e)) = Some m →
    (i, le_type e) ∈ locks (processed n (s_seq (l_tbl n) (le_txn e)) m) ∧
    Release i (s_seq (l_tbl n) (le_txn e)) ∉ l_log n;
  li_rel_nodup : NoDup (l_rel n).*1;
  li_rel : ∀ t rows, (t, rows) ∈ l_rel n → t ∈ s_active (l_tbl n) ∧ s_cur (l_tbl n) ≠ Some t ∧
    total_waits t (s_rows (l_tbl n)) = 0 ∧ NoDup rows ∧
    ∀ i, i ∈ rows ↔ t ∈ le_txn <$> row_entries (l_tbl n) i;
  li_norel : ∀ t i, t ∈ s_active (l_tbl n) → t ∉ (l_rel n).*1 → Release i (s_seq (l_tbl n) t) ∉ l_log n;
  li_bound : ∀ i k, Release i k ∈ l_log n → 0 ≤ k < s_next (l_tbl n);
  li_grants : ∀ i k md, Grant i k md ∈ l_log n → 0 ≤ k < s_next (l_tbl n) ∧
    ∃ m, msg_at k = Some m ∧ (i, md) ∈ locks (Sequencer.requests m);
  li_log : log_ok (l_log n);
  li_nodup : NoDup (started n);
  li_started : ∀ p, p ∈ started n → ∃ k m, 0 ≤ k < s_next (l_tbl n) ∧ msg_at k = Some m ∧
    p = (Sequencer.txn_id m, Sequencer.batch_id m);
  li_start : ∀ t, t ∈ s_active (l_tbl n) →
    (txn_key (s_txns (l_tbl n) t) ∈ started n ↔
     s_cur (l_tbl n) ≠ Some t ∧ total_waits t (s_rows (l_tbl n)) = 0) }.

(** ** Locks of a list of requests *)

Lemma locks_snoc l req : locks (l ++ [req]) = add_lock (locks l) req.
Proof. unfold locks. by rewrite foldl_app. Qed.

Lemma add_lock_in l req x : x ∈ l → x ∈ add_lock l req.
Proof. intros Hx. unfold add_lock. case_match; [|done]. apply elem_of_app. by left. Qed.

Lemma locks_app l l' x : x ∈ locks l → x ∈ locks (l ++ l').
Proof.
  intros Hx. induction l' as [|r l' IH] using rev_ind; [by rewrite app_nil_r|].
  rewrite app_assoc, locks_snoc. by apply add_lock_in.
Qed.

Lemma locks_NoDup l : NoDup (locks l).*1.
Proof.
  induction l as [|r l IH] using rev_ind; [constructor|]. rewrite locks_snoc. unfold add_lock.
  destruct (is_local r); simpl; [|done]. case_bool_decide as Hi; simpl; [done|].
  rewrite fmap_app. apply NoDup_app. split_and!; [done| |apply NoDup_singleton].
  intros i Hin ->%list_elem_of_singleton. done.
Qed.

Lemma locks_mode l i md md' : (i, md) ∈ locks l → (i, md') ∈ locks l → md = md'.
Proof.
  intros [a Ha]%list_elem_of_lookup [b Hb]%list_elem_of_lookup.
  assert (a = b) as ->; [|congruence].
  eapply (NoDup_lookup _ _ _ i (locks_NoDup l)); rewrite list_lookup_fmap; [by rewrite Ha|by rewrite Hb].
Qed.

Lemma lock_mode_some type : lock_mode type ≠ LOCK_NONE.
Proof. unfold lock_mode. by destruct (_ || _). Qed.

Lemma locks_types l i md : (i, md) ∈ locks l → md ≠ LOCK_NONE.
Proof.
  induction l as [|r l IH] using rev_ind; [by intros ?%elem_of_nil|]. rewrite locks_snoc. unfold add_lock.
  destruct (_ && _); [|done]. rewrite elem_of_app, list_elem_of_singleton.
  intros [?|[= _ ->]]; [auto|apply lock_mode_some].
Qed.

(** ** Requests gone through *)

Lemma processed_other n k m : s_cur (l_tbl n) = None ∨ k ≠ s_next (l_tbl n) - 1 →
  processed n k m = Sequencer.requests m.
Proof. intros H. unfold processed. rewrite decide_False; [done|]. naive_solver. Qed.

Lemma processed_cur n k m l : s_cur (l_tbl n) ≠ None → k = s_next (l_tbl n) - 1 →
  Sequencer.requests m = l ++ l_todo n → processed n k m = l.
Proof.
  intros Hc Hk Hm. unfold processed. rewrite decide_True by done. rewrite Hm, length_app.
  replace (length l + length (l_todo n) - length (l_todo n))%nat with (length l) by lia. apply take_app_length.
Qed.

Lemma processed_locks n k m x : x ∈ locks (processed n k m) → x ∈ locks (Sequencer.requests m).
Proof.
  unfold processed. case_decide; [|done]. intros Hx.
  rewrite <-(take_drop (length (Sequencer.requests m) - length (l_todo n)) (Sequencer.requests m)).
  by apply locks_app.
Qed.

(** ** The log *)

Lemma log_ok_release l i k : log_ok l → log_ok (l ++ [Release i k]).
Proof.
  intros [Ho Hn]. split.
  - intros p i' k' md' Hp. apply lookup_snoc_Some in Hp as [[Hp Hl]|[_ [=]]].
    intros k0 m md Hk Hm Hi Hc. rewrite take_app_le by lia. by eapply Ho.
  - intros p q i' k' md Hp Hq. apply lookup_snoc_Some in Hp as [[Hp Hl]|[_ [=]]].
    apply lookup_snoc_Some in Hq as [[Hq Hl']|[-> _]]; [by eapply Hn|done].
Qed.

(** The condition for a new grant. *)
Definition may_grant (l : list event) (i : nat) (k' : Z) (md' : lock_t) : Prop :=
  (Release i k' ∉ l) ∧
  (∀ k m md, 0 ≤ k < k' → msg_at k = Some m → (i, md) ∈ locks (Sequencer.requests m) →
    conflict_lock md md' = true → Release i k ∈ l).

Lemma log_ok_grant l i k md : log_ok l → may_grant l i k md → log_ok (l ++ [Grant i k md]).
Proof.
  intros [Ho Hn] [Hr Hg]. split.
  - intros p i' k' md' Hp. apply lookup_snoc_Some in Hp as [[Hp Hl]|[-> [= <- <- <-]]];
      intros k0 m0 md0 Hk Hm Hi Hc; rewrite take_app_le by lia; [by eapply Ho|].
    rewrite take_ge by lia. by eapply Hg.
  - intros p q i' k' md' Hp Hq. apply lookup_snoc_Some in Hq as [[Hq Hl]|[-> [=]]].
    apply lookup_snoc_Some in Hp as [[_ Hp]|[-> [= <- <- <-]]]; [by eapply Hn|].
    destruct Hr. by eapply list_elem_of_lookup_2.
Qed.

Lemma log_ok_grants l i (es : list LockEntry) (seq : txn_ptr → Z) : log_ok l →
  (∀ e, e ∈ es → may_grant l i (seq (le_txn e)) (le_type e)) →
  log_ok (l ++ ((λ e, Grant i (seq (le_txn e)) (le_type e)) <$> es)).
Proof.
  intros Hl Hg. induction es as [|e es IH] using rev_ind; [by rewrite app_nil_r|].
  rewrite fmap_app, app_assoc. apply log_ok_grant.
  - apply IH. intros e' He'. apply Hg, elem_of_app. by left.
  - destruct (Hg e) as [Hr Ho]; [apply elem_of_app; right; by left|]. split.
    + rewrite elem_of_app, list_elem_of_fmap. intros [?|(?&?&_)]; done.
    + intros k m md Hk Hm Hi Hc. apply elem_of_app. left. by eapply Ho.
Qed.

(** Of the requests in a row, one that holds it is not in conflict with an earlier one. *)
Lemma held_ordered s x i e e' : sys_inv CALVIN s → s_rows s !! i = Some x → e ∈ lr_held x →
  e' ∈ lr_entries x → s_seq s (le_txn e') < s_seq s (le_txn e) → conflict_lock (le_type e') (le_type e) = false.
Proof.
  intros Hs Hx He [He'|He']%elem_of_app Hlt.
  - apply (held_compatible CALVIN s x); try done; [by eapply list_elem_of_lookup_2|].
    intros ->. lia.
  - pose proof (ca_held _ _ (ro_calvin _ _ _ (sys_row_ok _ _ _ _ Hs Hx) eq_refl) e' e He' He). lia.
Qed.

(** A holder of a row in a state whose log is up to date. *)
Lemma held_may_grant n i x e : sys_inv CALVIN (l_tbl n) → s_rows (l_tbl n) !! i = Some x → e ∈ lr_held x →
  s_seq (l_tbl n) (le_txn e) < s_next (l_tbl n) → Release i (s_seq (l_tbl n) (le_txn e)) ∉ l_log n →
  (∀ k m i md, 0 ≤ k < s_next (l_tbl n) → msg_at k = Some m → (i, md) ∈ locks (processed n k m) →
    (∃ t, mkEntry md t ∈ row_entries (l_tbl n) i ∧ s_seq (l_tbl n) t = k) ∨ Release i k ∈ l_log n) →
  may_grant (l_log n) i (s_seq (l_tbl n) (le_txn e)) (le_type e).
Proof.
  intros Hs Hx He Hk Hr Hhas. split; [done|]. intros k m md Hk' Hm Hi Hc.
  destruct (Hhas k m i md) as [(t&Ht&Hseq)|?]; [lia|done| | |done].
  - rewrite processed_other by (right; lia). done.
  - unfold row_entries in Ht. rewrite Hx in Ht.
    pose proof (held_ordered _ _ _ _ _ Hs Hx He Ht ltac:(simpl; lia)). simpl in *. congruence.
Qed.

Lemma row_entries_insert s i x y h rs a cur sq nx j : s_rows s !! i = Some x →
  row_entries (mkSys (<[i := y]> (s_rows s)) h rs a cur sq nx) j =
    if decide (j = i) then lr_entries y else row_entries s j.
Proof.
  intros Hx. unfold row_entries. simpl. case_decide as Hj.
  - subst. rewrite list_lookup_insert_eq; [done|]. by eapply lookup_lt_Some.
  - by rewrite list_lookup_insert_ne.
Qed.

Lemma row_entries_at s i x : s_rows s !! i = Some x → row_entries s i = lr_entries x.
Proof. intros Hx. unfold row_entries. by rewrite Hx. Qed.

Lemma entry_active s i e : sys_inv CALVIN s → e ∈ row_entries s i → le_txn e ∈ s_active s.
Proof.
  intros Hs. unfold row_entries. destruct (s_rows s !! i) as [x|] eqn:Hx; [|by intros ?%elem_of_nil].
  apply (ro_active _ _ _ (sys_row_ok _ _ _ _ Hs Hx)).
Qed.

(** ** The lock thread takes a transaction *)

Lemma idle_processed n k m : s_cur (l_tbl n) = None → processed n k m = Sequencer.requests m.
Proof. intros Hc. apply processed_other. by left. Qed.

Context (sched_nodup : NoDup ((λ m, (Sequencer.txn_id m, Sequencer.batch_id m)) <$> sched)).

Lemma key_msg_at k k' m m' : 0 ≤ k → 0 ≤ k' → msg_at k = Some m → msg_at k' = Some m' →
  (Sequencer.txn_id m, Sequencer.batch_id m) = (Sequencer.txn_id m', Sequencer.batch_id m') → k = k'.
Proof.
  intros Hk Hk' Hm Hm' Heq. unfold msg_at in *. apply Z2Nat.inj; [done..|].
  eapply (NoDup_lookup _ _ _ _ sched_nodup); rewrite list_lookup_fmap; [by rewrite Hm|].
  by rewrite Hm', Heq.
Qed.

Section take.
Context (n : lnode) (Hi : linv n) (m : Sequencer.Message) (t : txn_ptr) (x : TxnManager).
Context (Hm : msg_at (s_next (l_tbl n)) = Some m) (Hcur : s_cur (l_tbl n) = None) (Ht : t ∉ s_active (l_tbl n)).
Context (Hkey : txn_key x = (Sequencer.txn_id m, Sequencer.batch_id m)) (Hcnt : lock_ready_cnt x = 0)
  (Hrec : recon x = false) (Hlen : zlen (s_active (l_tbl n)) + 2 < u32_mod).
#[local] Abbreviation s := (l_tbl n).
#[local] Abbreviation n' := (mkLN
    (mkSys (s_rows s) (acquire_begin (<[t := x]> (s_txns s)) t) (s_restarts s) (t :: s_active s) (Some t)
       (<[t := s_next s]> (s_seq s)) (s_next s + 1))
    (Sequencer.requests m) RCOK (<[t := []]> (l_locked n)) (l_work n) (l_rel n) (l_log n)).

Lemma take_free i e : e ∈ row_entries s i → le_txn e ≠ t.
Proof. intros He <-. by apply Ht, (entry_active s i); [apply Hi|]. Qed.

Lemma take_old t' : t' ∈ s_active s → t' ≠ t ∧ s_seq (l_tbl n') t' = s_seq s t' ∧ s_txns (l_tbl n') t' = s_txns s t'.
Proof.
  intros Hin. assert (t ≠ t') as Hne by (intros ->; done). simpl. unfold acquire_begin.
  by rewrite fn_lookup_insert_ne, !heap_insert_ne by done.
Qed.

Lemma take_tbl : sys_inv CALVIN (l_tbl n') ∧ total_waits t (s_rows s) = 0.
Proof.
  pose proof (li_tbl _ Hi) as Hs.
  assert (Forall (λ x, t ∉ le_txn <$> lr_entries x) (s_rows s)) as Hfree.
  { apply Forall_forall. intros y [i Hy]%list_elem_of_lookup (e&Het&He)%list_elem_of_fmap.
    apply (take_free i e); [|by symmetry]. by rewrite (row_entries_at _ _ _ Hy). }
  pose proof (step_begin_inv CALVIN s t x Hs Ht ltac:(done) ltac:(by right) Hlen) as Hs1.
  pose proof (step_acquire_begin_inv _ t Hs1 Hcur ltac:(simpl; set_solver) Hfree) as Hs2.
  split; [done|]. pose proof (si_cnt _ _ Hs2 t) as Hc. cbn [s_cur s_txns s_rows] in Hc.
  rewrite bool_decide_true in Hc by done. unfold acquire_begin in Hc. rewrite !heap_insert_eq in Hc.
  cbn [incr_lr set_lock_ready_cnt lock_ready_cnt] in Hc. rewrite Hcnt in Hc. change (wrap32 (0 + 1)) with 1 in Hc. lia.
Qed.

Lemma take_next : 0 ≤ s_next s < zlen sched.
Proof. pose proof (li_next _ Hi). pose proof (lookup_lt_Some _ _ _ Hm). lia. Qed.

Lemma take_processed k m' : k ≠ s_next s → processed n' k m' = processed n k m'.
Proof. intros Hk. rewrite (idle_processed n) by done. apply processed_other. right. simpl. lia. Qed.

Lemma take_processed_new : processed n' (s_next s) m = [].
Proof. apply processed_cur; [done|simpl; lia|done]. Qed.

Lemma take_txn t' : t' ∈ s_active (l_tbl n') → 0 ≤ s_seq (l_tbl n') t' < s_next (l_tbl n') ∧
  recon (s_txns (l_tbl n') t') = false ∧ ∃ m, msg_at (s_seq (l_tbl n') t') = Some m ∧
  txn_key (s_txns (l_tbl n') t') = (Sequencer.txn_id m, Sequencer.batch_id m) ∧
  l_locked n' t' = (locks (processed n' (s_seq (l_tbl n') t') m)).*1.
Proof.
  pose proof take_next. intros [->|Hin]%elem_of_cons.
  - assert (s_seq (l_tbl n') t = s_next s) as Hsq by apply fn_lookup_insert.
    assert (l_locked n' t = []) as Hl by apply fn_lookup_insert.
    assert (s_txns (l_tbl n') t = incr_lr x) as Hx.
    { simpl. unfold acquire_begin. by rewrite !heap_insert_eq. }
    rewrite Hsq, Hl, Hx. split; [simpl; lia|]. split; [done|]. exists m. do 2 (split; [done|]).
    by rewrite take_processed_new.
  - destruct (li_txn _ Hi t' Hin) as (?&?&m'&?&?&Hl). destruct (take_old t' Hin) as (Hne&Hsq&Hx).
    rewrite Hsq, Hx. split; [simpl; lia|]. split; [done|]. exists m'. do 2 (split; [done|]).
    rewrite take_processed by lia. rewrite <-Hl. simpl. by rewrite fn_lookup_insert_ne.
Qed.

Lemma inv_take : linv n'.
Proof.
  pose proof take_next as Hnx. pose proof take_tbl as [Hs2 Hz]. pose proof Hi as [].
  split; [done|simpl; lia|exact take_txn| | | | |done| | | | |done|done| |].
  - intros t1 t2 [->|H1]%elem_of_cons [->|H2]%elem_of_cons Heq; [done|..].
    + destruct (take_old t2 H2) as (_&Hsq&_), (li_txn0 t2 H2). rewrite Hsq in Heq. simpl in Heq.
      rewrite fn_lookup_insert in Heq. lia.
    + destruct (take_old t1 H1) as (_&Hsq&_), (li_txn0 t1 H1). rewrite Hsq in Heq. simpl in Heq.
      rewrite fn_lookup_insert in Heq. lia.
    + destruct (take_old t1 H1) as (_&Hsq&_), (take_old t2 H2) as (_&Hsq'&_). rewrite Hsq, Hsq' in Heq. auto.
  - intros t' [= <-]. simpl. rewrite fn_lookup_insert. split; [lia|]. split; [by exists m|done].
  - intros k m' i md Hk Hm' Hin. simpl in Hk. destruct (decide (k = s_next s)) as [->|Hne].
    + rewrite Hm in Hm'. injection Hm' as <-.
      rewrite take_processed_new in Hin. by apply elem_of_nil in Hin.
    + rewrite take_processed in Hin by done. destruct (li_has0 k m' i md ltac:(lia) Hm' Hin) as [(t'&Ht'&Hsq)|?]; [|by right].
      left. exists t'. split; [done|]. destruct (take_old t') as (_&->&_); [|done]. by apply (entry_active _ _ _ li_tbl0 Ht').
  - intros i e m' He Hm'. destruct (take_old (le_txn e)) as (_&Hsq&_); [by apply (entry_active _ _ _ li_tbl0 He)|].
    rewrite Hsq in Hm' |- *. destruct (li_txn0 (le_txn e)) as [? _]; [by apply (entry_active _ _ _ li_tbl0 He)|].
    rewrite take_processed by lia. by apply li_entry0.
  - intros t' rows Hin. destruct (li_rel0 t' rows Hin) as (Ha&_&Hw&Hn&Hr). destruct (take_old t' Ha) as (Hne&_).
    split_and!; [by right|simpl; congruence|done..].
  - intros t' i [->|Hin]%elem_of_cons Hr.
    + simpl. rewrite fn_lookup_insert. intros Hl. specialize (li_bound0 _ _ Hl). lia.
    + destruct (take_old t' Hin) as (_&Hsq&_). rewrite Hsq. auto.
  - intros i k Hl. specialize (li_bound0 i k Hl). simpl. lia.
  - intros i k md Hl. destruct (li_grants0 i k md Hl) as [? ?]. split; [simpl; lia|done].
  - intros p Hp. destruct (li_started0 p Hp) as (k&m'&?&?&?). exists k, m'. split; [simpl; lia|done].
  - intros t' [->|Hin]%elem_of_cons.
    + split; [|by intros [? _]]. simpl. unfold acquire_begin. rewrite !heap_insert_eq.
      change (txn_key (incr_lr x)) with (txn_key x). rewrite Hkey. intros Hp.
      destruct (li_started0 _ Hp) as (k&m'&Hk&Hm'&Heq).
      assert (s_next s = k); [|lia]. eapply key_msg_at; [| |exact Hm|exact Hm'|exact Heq]; lia.
    + destruct (take_old t' Hin) as (Hne&_&Hx). rewrite Hx. change (started n') with (started n).
      rewrite (li_start0 t' Hin), Hcur. simpl. split; intros [_ ?]; split; congruence.
Qed.

End take.

(** ** The lock thread goes through a request *)

(** What [lock_get] does under CALVIN to the row, the counters and the managers. *)
Record got (s : sys) (x : locked_row) (e : LockEntry) (rc : RC) (s' : state) : Prop := {
  gt_rc : rc = RCOK ∨ rc = WAIT;
  gt_restarts : restarts s' = s_restarts s;
  gt_static : same_static (s_txns s) (txns s');
  gt_entries : lr_entries (mkLR (row s') (if bool_decide (rc = RCOK) then e :: lr_held x else lr_held x))
    ≡ₚ e :: lr_entries x;
  gt_waits : ∀ t, wcount t (waiters (row s')) =
    wcount t (waiters (lr_row x)) + if bool_decide (rc = WAIT ∧ t = le_txn e) then 1 else 0;
  gt_ready : lock_ready (txns s' (le_txn e)) = if bool_decide (rc = RCOK) then lock_ready (s_txns s (le_txn e)) else false }.

Lemma lock_get_got s i x type t rc s' : sys_inv CALVIN s → s_rows s !! i = Some x → t ∈ s_active s →
  t ∉ le_txn <$> lr_entries x → type ≠ LOCK_NONE →
  lock_get CALVIN type t (mkState (lr_row x) (s_txns s) (s_restarts s)) = Some (rc, s') →
  got s x (mkEntry type t) rc s'.
Proof.
  intros Hs Hx Ht Hn Hty Hget.
  destruct (lock_get_spec CALVIN type t (mkState (lr_row x) (s_txns s) (s_restarts s)))
    as (rc'&s1&Hget'&_&Hr&Hout); [by right; right|by apply (sys_row_ok _ _ _ _ Hs Hx)|by eapply sys_get_pre|].
  rewrite Hget in Hget'. injection Hget' as <- <-. simpl in *. destruct rc; try done.
  - destruct Hout as (_&_&Hrow&Hh). split; simpl; rewrite ?Hrow, ?Hh; auto; simpl; done || lia.
  - by destruct Hout.
  - destruct Hout as (_&Hh&ws&Hrow&Hws&_). split; simpl; rewrite ?Hrow, ?Hh; auto; simpl.
    + apply start_wait_static.
    + unfold lr_entries. simpl. by rewrite Hws, Permutation_middle.
    + intros t'. rewrite Hws, wcount_cons. simpl.
      destruct (decide (t = t')) as [<-|]; [rewrite bool_decide_true by done|rewrite bool_decide_false by naive_solver]; lia.
    + apply start_wait_ready. by right.
Qed.

Section request.
Context (n : lnode) (Hi : linv n) (t : txn_ptr) (req : Sequencer.ycsb_request) (rest : list Sequencer.ycsb_request).
Context (Hcur : s_cur (l_tbl n) = Some t) (Htodo : l_todo n = req :: rest).
#[local] Abbreviation s := (l_tbl n).

Lemma request_msg : ∃ m l, msg_at (s_seq s t) = Some m ∧ Sequencer.requests m = l ++ req :: rest ∧
  processed n (s_seq s t) m = l.
Proof.
  destruct (li_cur _ Hi t Hcur) as (Hsq&(m&Hm&[l Hl])&_). exists m, l. split; [done|].
  rewrite Htodo in Hl. split; [done|]. apply processed_cur; [congruence|done|by rewrite Htodo].
Qed.

Lemma request_locks n' k m : s_cur (l_tbl n') = s_cur s → s_next (l_tbl n') = s_next s → l_todo n' = rest →
  msg_at k = Some m →
  locks (processed n' k m) =
    if decide (k = s_seq s t) then add_lock (locks (processed n k m)) req else locks (processed n k m).
Proof.
  intros Hc Hnx Ht Hm. destruct (li_cur _ Hi t Hcur) as (Hsq&_). case_decide as Hk.
  - destruct request_msg as (m'&l&Hm'&Hl&Hp). rewrite Hk, Hm' in Hm. injection Hm as <-.
    rewrite Hk, Hp, <-locks_snoc. f_equal. apply processed_cur; [by rewrite Hc, Hcur|by rewrite Hnx|].
    by rewrite Hl, Ht, <-app_assoc.
  - rewrite !processed_other; [done|right; congruence|right; rewrite Hnx; congruence].
Qed.

Lemma request_suffix : ∃ m, msg_at (s_seq s t) = Some m ∧ rest `suffix_of` Sequencer.requests m.
Proof.
  destruct request_msg as (m&l&Hm&Hl&_). exists m. split; [done|]. exists (l ++ [req]). by rewrite Hl, <-app_assoc.
Qed.

Lemma request_active : t ∈ s_active s.
Proof. by destruct (si_cur _ _ (li_tbl _ Hi) t Hcur) as (_&_&?). Qed.

(** A request for a row of another node, or for a row that is locked already. *)
Lemma inv_request_skip :
  (∀ m, msg_at (s_seq s t) = Some m → add_lock (locks (processed n (s_seq s t) m)) req = locks (processed n (s_seq s t) m)) →
  linv (mkLN s rest (l_rc n) (l_locked n) (l_work n) (l_rel n) (l_log n)).
Proof.
  intros Hskip. set (n' := mkLN _ _ _ _ _ _ _).
  assert (∀ k m, msg_at k = Some m → locks (processed n' k m) = locks (processed n k m)) as Hp.
  { intros k m Hm. rewrite (request_locks n') by done. case_decide as Hk; [|done]. subst. auto. }
  pose proof Hi as []. split; try done.
  - intros t' Ht'. destruct (li_txn0 t' Ht') as (?&?&m&Hm&?&Hl). do 2 (split; [done|]). exists m.
    do 2 (split; [done|]). by rewrite Hp.
  - intros t' Ht'. destruct (li_cur0 t' Ht') as (?&_&?&?). change (l_tbl n') with s in Ht'. rewrite Hcur in Ht'.
    injection Ht' as <-. split_and!; try done. apply request_suffix.
  - intros k m i md Hk Hm Hin. rewrite Hp in Hin by done. by eapply li_has0.
  - intros i e m He Hm. rewrite Hp by done. by apply li_entry0.
Qed.

Section lock.
Context (x : locked_row) (rc : RC) (s' : state).
#[local] Abbreviation i := (row_of (Sequencer.key req)).
#[local] Abbreviation e := (mkEntry (lock_mode (Sequencer.acctype req)) t).
Context (Hloc : is_local req = true) (Hnew : i ∉ l_locked n t) (Hx : s_rows s !! i = Some x).
Context (Hget : lock_get CALVIN (le_type e) t (mkState (lr_row x) (s_txns s) (s_restarts s)) = Some (rc, s')).
#[local] Abbreviation y := (mkLR (row s') (if bool_decide (rc = RCOK) then e :: lr_held x else lr_held x)).
#[local] Abbreviation tbl' := (mkSys (<[i := y]> (s_rows s)) (txns s') (restarts s') (s_active s) (s_cur s) (s_seq s)
  (s_next s)).
#[local] Abbreviation with_log l := (mkLN tbl' rest (if bool_decide (rc = RCOK) then l_rc n else rc)
  (<[t := l_locked n t ++ [i]]> (l_locked n)) (l_work n) (l_rel n) l).
#[local] Abbreviation n' := (with_log (l_log n ++ if bool_decide (rc = RCOK) then [Grant i (s_seq s t) (le_type e)] else [])).

Lemma request_fresh : t ∉ le_txn <$> lr_entries x.
Proof.
  intros (e0&He&He0)%list_elem_of_fmap. destruct request_msg as (m&l&Hm&_).
  rewrite <-(row_entries_at _ _ _ Hx) in He0.
  destruct (li_entry _ Hi i e0 m He0) as [Hin _]; [by rewrite <-He|]. rewrite <-He in Hin.
  destruct (li_txn _ Hi t request_active) as (_&_&m'&Hm'&_&Hl). rewrite Hm in Hm'. injection Hm' as <-.
  apply Hnew. rewrite Hl. apply list_elem_of_fmap. by eexists (_, _).
Qed.

Lemma request_got : got s x e rc s'.
Proof.
  eapply lock_get_got; [apply Hi|exact Hx|exact request_active|exact request_fresh|apply lock_mode_some|exact Hget].
Qed.

Lemma request_tbl : sys_inv CALVIN tbl'.
Proof.
  apply (step_get_inv CALVIN s i x (le_type e) t); try done; [by right; right|apply Hi|exact request_active|
    exact request_fresh|apply lock_mode_some].
Qed.

Lemma request_entries j e0 : e0 ∈ row_entries tbl' j ↔ (j = i ∧ e0 = e) ∨ e0 ∈ row_entries s j.
Proof.
  rewrite (row_entries_insert s i x) by done. case_decide as Hj; [subst|naive_solver].
  rewrite (gt_entries _ _ _ _ _ request_got), elem_of_cons, (row_entries_at _ _ _ Hx). naive_solver.
Qed.

Lemma request_waits t' : t' ≠ t ∨ rc = RCOK → total_waits t' (s_rows tbl') = total_waits t' (s_rows s).
Proof.
  intros Ht. simpl. rewrite (total_waits_insert t' _ _ x) by done. simpl. rewrite (gt_waits _ _ _ _ _ request_got).
  rewrite bool_decide_false by naive_solver. lia.
Qed.

Lemma request_new_locks k m : msg_at k = Some m → ∀ l, locks (processed (with_log l) k m) =
  locks (processed n k m) ++ if decide (k = s_seq s t) then [(i, le_type e)] else [].
Proof.
  intros Hm l. rewrite (request_locks (with_log l)) by done. case_decide as Hk; [|by rewrite app_nil_r].
  destruct (li_txn _ Hi t request_active) as (_&_&m'&Hm'&_&Hl). rewrite Hk, Hm' in Hm. injection Hm as ->.
  unfold add_lock. rewrite Hloc, Hk, <-Hl, bool_decide_false by done. done.
Qed.

Lemma request_release j k : Release j k ∈ l_log n' ↔ Release j k ∈ l_log n.
Proof.
  simpl. rewrite elem_of_app. split; [|by left]. intros [?|Hg]; [done|].
  case_bool_decide; [by apply list_elem_of_singleton in Hg|by apply elem_of_nil in Hg].
Qed.

Lemma request_norel : (t ∉ (l_rel n).*1) ∧ Release i (s_seq s t) ∉ l_log n.
Proof.
  assert (t ∉ (l_rel n).*1) as Hr.
  { intros ([t' rows]&->&Hin)%list_elem_of_fmap. by destruct (li_rel _ Hi t' rows Hin) as (_&?&_). }
  split; [done|]. by apply (li_norel _ Hi t i request_active).
Qed.

Lemma request_has l k m j md : (∀ j k, Release j k ∈ l_log n → Release j k ∈ l) →
  0 ≤ k < s_next s → msg_at k = Some m → (j, md) ∈ locks (processed (with_log l) k m) →
  (∃ t, mkEntry md t ∈ row_entries tbl' j ∧ s_seq s t = k) ∨ Release j k ∈ l.
Proof.
  intros Hl Hk Hm. rewrite request_new_locks by done. rewrite elem_of_app. intros [Hin|Hin].
  - destruct (li_has _ Hi k m j md Hk Hm Hin) as [(t'&Ht'&?)|?]; [|auto].
    left. exists t'. split; [|done]. apply request_entries. by right.
  - case_decide as Hs; [|by apply elem_of_nil in Hin]. apply list_elem_of_singleton in Hin as [= -> ->].
    left. exists t. split; [|done]. apply request_entries. by left.
Qed.

Lemma request_log : log_ok (l_log n').
Proof.
  simpl. case_bool_decide as Hrc; [|rewrite app_nil_r; apply Hi]. apply log_ok_grant; [apply Hi|].
  destruct (li_txn _ Hi t request_active) as [Hk _].
  apply (held_may_grant (with_log (l_log n)) i y e); simpl.
  - exact request_tbl.
  - rewrite list_lookup_insert_eq; [done|]. by eapply lookup_lt_Some.
  - rewrite bool_decide_true by done. by left.
  - lia.
  - apply request_norel.
  - intros k m j md. by apply (request_has (l_log n)).
Qed.

Lemma request_txn t' : t' ∈ s_active s → 0 ≤ s_seq s t' < s_next s ∧
  recon (txns s' t') = false ∧ ∃ m, msg_at (s_seq s t') = Some m ∧
  txn_key (txns s' t') = (Sequencer.txn_id m, Sequencer.batch_id m) ∧
  l_locked n' t' = (locks (processed n' (s_seq s t') m)).*1.
Proof.
  intros Hin. destruct (li_txn _ Hi t' Hin) as (?&?&m&Hm&Hk&Hl).
  destruct (gt_static _ _ _ _ _ request_got t') as (E1&E2&_&E3).
  split; [done|]. split; [congruence|]. exists m. split; [done|].
  split; [unfold txn_key in *; by rewrite <-E1, <-E2|].
  rewrite request_new_locks by done. rewrite fmap_app, <-Hl. destruct (decide (t' = t)) as [->|Hne].
  - rewrite decide_True by done. simpl. by rewrite fn_lookup_insert.
  - rewrite decide_False; [simpl; by rewrite fn_lookup_insert_ne, app_nil_r|].
    intros Hs. apply Hne, (li_seq _ Hi); [done|exact request_active|done].
Qed.

Lemma request_cur : (l_rc n' = RCOK → total_waits t (s_rows tbl') = 0) ∧
  (l_rc n' ≠ RCOK → lock_ready (txns s' t) = false).
Proof.
  destruct (li_cur _ Hi t Hcur) as (_&_&Hw&Hr). pose proof (gt_ready _ _ _ _ _ request_got) as Hy. simpl in Hy.
  cbn [l_rc]. destruct (gt_rc _ _ _ _ _ request_got) as [Hrc|Hrc].
  - rewrite request_waits by auto. rewrite Hy, bool_decide_true by done. done.
  - rewrite Hy, bool_decide_false by congruence. split; [congruence|done].
Qed.

Lemma inv_request_lock : linv n'.
Proof.
  pose proof request_norel as [Hnr Hrel]. pose proof request_got as Hg. pose proof Hi as [].
  split; [exact request_tbl|done|exact request_txn|done| | | |done| | | | |exact request_log| | |].
  - intros t' Ht'. simpl in Ht'. rewrite Hcur in Ht'. injection Ht' as <-.
    destruct (li_cur0 t Hcur) as (?&_). split; [done|]. split; [exact request_suffix|exact request_cur].
  - intros k m j md Hk Hm Hin. eapply request_has; [|exact Hk|exact Hm|exact Hin]. intros. by apply request_release.
  - intros j e0 m He Hm. rewrite request_release. rewrite request_new_locks by done. rewrite elem_of_app.
    apply request_entries in He as [[-> ->]|He].
    + split; [|done]. right. by rewrite decide_True by done; left.
    + destruct (li_entry0 j e0 m He Hm). auto.
  - intros t' rows Hin. destruct (li_rel0 t' rows Hin) as (?&Hc&Hw&?&Hr).
    assert (t' ≠ t) as Hne by congruence. do 2 (split; [done|]). split; [|split; [done|]].
    + rewrite request_waits by auto. done.
    + intros j. rewrite Hr, !list_elem_of_fmap. setoid_rewrite request_entries. naive_solver.
  - intros t' j Ha Hr. rewrite request_release. by apply li_norel0.
  - intros j k Hl. rewrite request_release in Hl. by apply (li_bound0 j).
  - intros j k md Hl. simpl in Hl. apply elem_of_app in Hl as [Hl|Hl]; [by apply li_grants0|].
    case_bool_decide; [apply list_elem_of_singleton in Hl as [= -> -> ->]|by apply elem_of_nil in Hl].
    destruct (li_txn0 t request_active) as (Hk&_&m&Hm&_). split; [done|]. exists m. split; [done|].
    apply (processed_locks n' (s_seq s t)). rewrite request_new_locks, decide_True by done.
    apply elem_of_app. right. by left.
  - unfold started. simpl. by rewrite (gt_restarts _ _ _ _ _ Hg).
  - intros p Hp. unfold started in Hp. simpl in Hp. rewrite (gt_restarts _ _ _ _ _ Hg) in Hp. by apply li_started0.
  - intros t' Ht'. destruct (gt_static _ _ _ _ _ Hg t') as (E1&E2&_).
    specialize (li_start0 t' Ht'). unfold started, txn_key in *.
    cbn [l_tbl l_work s_restarts s_txns s_cur] in *.
    rewrite (gt_restarts _ _ _ _ _ Hg), <-E1, <-E2, li_start0. destruct (decide (t' = t)) as [->|Hne].
    + rewrite Hcur. naive_solver.
    + rewrite request_waits by auto. done.
Qed.

End lock.

Lemma inv_request n' : acquire_one t req rest n = Some n' → linv n'.
Proof.
  unfold acquire_one, get_lock. destruct request_msg as (m&l&Hm&_&Hp).
  destruct (is_local req) eqn:Hloc.
  - destruct (li_txn _ Hi t request_active) as (_&_&m'&Hm'&_&Hl). rewrite Hm in Hm'. injection Hm' as <-.
    case_bool_decide as Hin.
    + intros [= <-]. apply inv_request_skip. intros m' Hm'. rewrite Hm in Hm'. injection Hm' as <-.
      unfold add_lock. rewrite Hloc, <-Hl, bool_decide_true by done. done.
    + destruct (s_rows s !! _) as [x|] eqn:Hx; [|done]. cbn [mbind option_bind].
      destruct (lock_get _ _ _ _) as [[rc s']|] eqn:Hget; [|done]. cbn [mbind option_bind].
      intros [= <-]. exact (inv_request_lock x rc s' Hloc Hin Hx Hget).
  - intros [= <-]. apply inv_request_skip. intros m' Hm'. unfold add_lock. by rewrite Hloc.
Qed.

End request.

(** ** The end of [acquire_locks] *)

Lemma key_inj n t t' : linv n → t ∈ s_active (l_tbl n) → t' ∈ s_active (l_tbl n) →
  txn_key (s_txns (l_tbl n) t) = txn_key (s_txns (l_tbl n) t') → t = t'.
Proof.
  intros Hi Ht Ht' Heq. destruct (li_txn _ Hi t Ht) as (?&_&m&Hm&Hk&_), (li_txn _ Hi t' Ht') as (?&_&m'&Hm'&Hk'&_).
  apply (li_seq _ Hi); [done..|]. rewrite Hk, Hk' in Heq. eapply key_msg_at; [| |exact Hm|exact Hm'|done]; lia.
Qed.

Section acquired.
Context (n : lnode) (Hi : linv n) (t : txn_ptr) (Hcur : s_cur (l_tbl n) = Some t) (Htodo : l_todo n = []).
#[local] Abbreviation s := (l_tbl n).
#[local] Abbreviation n' := (acquire_done t n).

Lemma acquired_processed k m : processed n' k m = processed n k m.
Proof.
  rewrite (processed_other n') by (by left). unfold processed. case_decide; [|done].
  rewrite Htodo, Nat.sub_0_r. by rewrite take_ge.
Qed.

Lemma acquired_rc : bool_decide (l_rc n' = RCOK) = bool_decide (total_waits t (s_rows s) = 0).
Proof.
  destruct (li_cur _ Hi t Hcur) as (_&_&Hw&Hr). pose proof (si_cnt _ _ (li_tbl _ Hi) t) as Hc.
  rewrite bool_decide_true in Hc by done. pose proof (total_waits_nonneg t (s_rows s)).
  pose proof (total_waits_bound _ _ t (li_tbl _ Hi)). cbn [acquire_done l_rc].
  assert (lock_ready_cnt (decr_lr (s_txns s t)) = total_waits t (s_rows s)) as Hd.
  { simpl. rewrite wrap32_small by (unfold is_u32; lia). lia. }
  rewrite Hd. apply bool_decide_ext. destruct (Z.eqb_spec (total_waits t (s_rows s)) 0) as [Hz|Hz]; simpl.
  - destruct (lock_ready (s_txns s t)) eqn:Hl; simpl; [|done]. split; [done|]. intros _.
    destruct (decide (l_rc n = RCOK)); [done|]. by specialize (Hr ltac:(done)).
  - split; [auto|done].
Qed.

Lemma acquired_started : started n' = (l_work n ++ if bool_decide (total_waits t (s_rows s) = 0)
  then [txn_key (s_txns s t)] else []) ++ s_restarts s.
Proof.
  unfold started. rewrite <-acquired_rc. simpl. by case_bool_decide; rewrite ?app_nil_r.
Qed.

Lemma acquired_in p : p ∈ started n' ↔ p ∈ started n ∨ (p = txn_key (s_txns s t) ∧ total_waits t (s_rows s) = 0).
Proof.
  rewrite acquired_started. unfold started. rewrite !elem_of_app.
  case_bool_decide; [rewrite list_elem_of_singleton|rewrite elem_of_nil]; naive_solver.
Qed.

Lemma inv_acquired : linv n'.
Proof.
  pose proof Hi as []. destruct (si_cur _ _ li_tbl0 t Hcur) as (_&_&Ht).
  assert (txn_key (s_txns s t) ∉ started n) as Hns by (rewrite li_start0, Hcur by done; by intros [? _]).
  split; [by apply step_acquire_end_inv|done| |done|done| | |done| |done|done|done|done| | |].
  - intros t' Hin. destruct (li_txn0 t' Hin) as (?&?&m&?&Hk&?).
    destruct (acquire_end_static (s_txns s) t t') as (E1&E2&_&E3).
    cbn [acquire_done l_tbl s_txns s_seq s_next l_locked]. split; [done|]. split; [congruence|].
    exists m. split; [done|]. unfold txn_key in *. by rewrite <-E1, <-E2, acquired_processed.
  - intros k m i md. rewrite acquired_processed. apply li_has0.
  - intros i e m He Hm. rewrite acquired_processed. by apply li_entry0.
  - intros t' rows Hin. destruct (li_rel0 t' rows Hin) as (?&_&?). done.
  - rewrite acquired_started. unfold started in li_nodup0, Hns. case_bool_decide; [|by rewrite app_nil_r].
    rewrite <-app_assoc. rewrite (Permutation_app_comm [_]), app_assoc.
    apply NoDup_app. split_and!; [done| |apply NoDup_singleton]. intros p Hp ->%list_elem_of_singleton. done.
  - intros p Hp. apply acquired_in in Hp as [Hp|[-> _]]; [by apply li_started0|].
    destruct (li_txn0 t Ht) as (?&_&m&?&?&_). eauto.
  - intros t' Hin. rewrite acquired_in. cbn [acquire_done l_tbl s_txns s_cur s_rows].
    destruct (acquire_end_static (s_txns s) t t') as (E1&E2&_). unfold txn_key at 1 2. rewrite <-E1, <-E2.
    change (txn_id (s_txns s t'), batch_id (s_txns s t')) with (txn_key (s_txns s t')).
    rewrite (li_start0 t' Hin), Hcur. destruct (decide (t' = t)) as [->|Hne]; [naive_solver|].
    split; [|naive_solver]. intros [?|[Heq _]]; [naive_solver|]. destruct Hne. by apply (key_inj n).
Qed.

End acquired.

(** ** Cleanup *)

(** Before a transaction begins to give back, its entries are those of all its locks. *)
Lemma locked_entries n t i : linv n → t ∈ s_active (l_tbl n) → t ∉ (l_rel n).*1 →
  i ∈ l_locked n t ↔ t ∈ le_txn <$> row_entries (l_tbl n) i.
Proof.
  intros Hi Ht Hr. destruct (li_txn _ Hi t Ht) as (Hk&_&m&Hm&_&Hl). rewrite Hl, !list_elem_of_fmap. split.
  - intros ([i' md]&->&Hin). simpl. destruct (li_has _ Hi _ m i' md Hk Hm Hin) as [(t'&He&Hsq)|Hrel].
    + exists (mkEntry md t'). split; [|done]. apply (li_seq _ Hi); [done| |by symmetry].
      by apply (entry_active _ _ _ (li_tbl _ Hi) He).
    + by destruct (li_norel _ Hi t i' Ht Hr).
  - intros (e&->&He). destruct (li_entry _ Hi i e m He Hm) as [Hin _]. by exists (i, le_type e).
Qed.

Lemma inv_finish n t : linv n → t ∈ s_active (l_tbl n) → txn_key (s_txns (l_tbl n) t) ∈ started n →
  t ∉ (l_rel n).*1 →
  linv (mkLN (l_tbl n) (l_todo n) (l_rc n) (l_locked n) (l_work n) ((t, l_locked n t) :: l_rel n) (l_log n)).
Proof.
  intros Hi Ht Hst Hr. pose proof (locked_entries n t) as Hle. pose proof Hi as []. split; try done.
  - simpl. by constructor.
  - intros t' rows [[= -> ->]|Hin]%elem_of_cons; [|by apply li_rel0]. apply li_start0 in Hst as [Hc Hw]; [|done].
    do 3 (split; [done|]). split; [|by intros i; apply Hle].
    destruct (li_txn0 t Ht) as (_&_&m&_&_&->). apply locks_NoDup.
  - intros t' i Ht' Hr'. apply li_norel0; [done|]. simpl in Hr'. by apply not_elem_of_cons in Hr' as [_ ?].
Qed.

(** What [lock_release] does under CALVIN. *)
Record gave (s : sys) (x : locked_row) (t : txn_ptr) (s' : state) (o : LockEntry) (new : list (Z * Z)) : Prop := {
  gv_txn : le_txn o = t;
  gv_static : same_static (s_txns s) (txns s');
  gv_ready : ∀ t', lock_ready_cnt (txns s' t') ≠ 0 → lock_ready (txns s' t') = lock_ready (s_txns s t');
  gv_waiters : waiters (lr_row x) = joined x (row s') ++ waiters (row s');
  gv_entries : lr_entries x ≡ₚ o :: lr_entries (mkLR (row s') (held_after t x (row s')));
  gv_restarts : restarts s' = s_restarts s ++ new;
  gv_new : restarts_of (s_txns s) (txns s') (joined x (row s')) new }.

Lemma lock_release_gave s i x t : sys_inv CALVIN s → s_rows s !! i = Some x → t ∈ le_txn <$> lr_held x →
  recon (s_txns s t) = false →
  ∃ s' o new, lock_release CALVIN t (mkState (lr_row x) (s_txns s) (s_restarts s)) = Some s' ∧ gave s x t s' o new.
Proof.
  intros Hs Hx Ht Hrec.
  destruct (lock_release_spec CALVIN t (mkState (lr_row x) (s_txns s) (s_restarts s)))
    as (s'&r1&Hrel&_&Hd&Hp); simpl.
  { by right; right. } { by apply (sys_row_ok _ _ _ _ Hs Hx). } { by eapply sys_release_pre. }
  { by eapply sys_wait_ok. } { intros [_ Hr]. congruence. }
  pose proof (ro_nodup _ _ _ (sys_row_ok _ _ _ _ Hs Hx)) as Hnd. unfold lr_entries in Hnd. rewrite fmap_app in Hnd.
  apply NoDup_app in Hnd as (Hnh&_&_). destruct (filter_out_one _ t Hnh Ht) as (o&Ho&Hho).
  destruct (po_restarts _ _ _ _ Hp) as (new&Hnew&Hof). simpl in *.
  pose proof (grant_prefix_app (lock_type r1) (waiters (lr_row x))) as Hg.
  pose proof (po_rest _ _ _ _ Hp) as Hrest. pose proof (po_heap _ _ _ _ Hp) as [Hst Hgh]. simpl in *.
  destruct (grant_prefix _ _) as [g rest]. simpl in *.
  assert (joined x (row s') = g) as Hj.
  { unfold joined. rewrite Hrest, <-Hg, length_app, Nat.add_sub. apply take_app_length. }
  exists s', o, new. split; [done|]. split; [done|done| |by rewrite Hj, Hrest| |done|by rewrite Hj].
  { intros t' Hne. destruct (Hgh t') as [_ ->]. by rewrite (proj2 (Z.eqb_neq _ _) Hne), andb_false_r. }
  unfold lr_entries, held_after. cbn [lr_row lr_held]. fold (joined x (row s')).
  rewrite Hho at 1. rewrite Hj, Hrest, <-Hg. simpl. constructor.
  rewrite !app_assoc. apply Permutation_app_tail, Permutation_app_comm.
Qed.

Section release.
Context (n : lnode) (Hi : linv n) (t : txn_ptr) (i : nat) (rest : list nat) (l1 l2 : list (txn_ptr * list nat)).
Context (Hrel : l_rel n = l1 ++ (t, i :: rest) :: l2).
#[local] Abbreviation s := (l_tbl n).

Lemma release_t : t ∈ s_active s ∧ s_cur s ≠ Some t ∧ total_waits t (s_rows s) = 0 ∧ NoDup (i :: rest) ∧
  ∀ j, j ∈ i :: rest ↔ t ∈ le_txn <$> row_entries s j.
Proof. apply (li_rel _ Hi). rewrite Hrel. apply elem_of_app. right. by left. Qed.

(** The call returns. *)
Lemma release_returns : ∃ x s' o new, s_rows s !! i = Some x ∧ t ∈ le_txn <$> lr_held x ∧
  lock_release CALVIN t (mkState (lr_row x) (s_txns s) (s_restarts s)) = Some s' ∧ gave s x t s' o new.
Proof.
  destruct release_t as (Ht&_&Hw&_&Hr). assert (t ∈ le_txn <$> row_entries s i) as He by (apply Hr; by left).
  unfold row_entries in He. destruct (s_rows s !! i) as [x|] eqn:Hx; [|by apply elem_of_nil in He].
  unfold lr_entries in He. rewrite fmap_app in He. apply elem_of_app in He as [He|He].
  - destruct (lock_release_gave s i x t) as (s'&o&new&?&?); [apply Hi|done|done| |by exists x, s', o, new].
    by destruct (li_txn _ Hi t Ht) as (_&?&_).
  - pose proof (total_waits_lookup t _ _ _ Hx). pose proof (wcount_nonneg t (waiters (lr_row x))).
    assert (wcount t (waiters (lr_row x)) = 0) as Hz%wcount_zero by lia. done.
Qed.

Section effect.
Context (x : locked_row) (s' : state) (o : LockEntry) (new : list (Z * Z)).
Context (Hx : s_rows s !! i = Some x) (Hheld : t ∈ le_txn <$> lr_held x) (Hgave : gave s x t s' o new).
Context (Hcall : lock_release CALVIN t (mkState (lr_row x) (s_txns s) (s_restarts s)) = Some s').
#[local] Abbreviation y := (mkLR (row s') (held_after t x (row s'))).
#[local] Abbreviation g := (joined x (row s')).
#[local] Abbreviation tbl' := (mkSys (<[i := y]> (s_rows s)) (txns s') (restarts s') (s_active s) (s_cur s) (s_seq s)
  (s_next s)).
#[local] Abbreviation with_log l := (mkLN tbl' (l_todo n) (l_rc n) (l_locked n) (l_work n) (l1 ++ (t, rest) :: l2) l).
#[local] Abbreviation log1 := (l_log n ++ [Release i (s_seq s t)]).
#[local] Abbreviation n' := (with_log (l_log n ++ Release i (s_seq s t) ::
  ((λ e, Grant i (s_seq s (le_txn e)) (le_type e)) <$> g))).

Lemma release_tbl : sys_inv CALVIN tbl'.
Proof.
  eapply step_release_inv; [by right; right|apply Hi|done|done| |done].
  intros _. destruct release_t as (Ht&_). by destruct (li_txn _ Hi t Ht) as (_&?&_).
Qed.

Lemma release_nodup : NoDup (le_txn <$> o :: lr_entries y).
Proof. rewrite <-(gv_entries _ _ _ _ _ _ Hgave). apply (ro_nodup _ _ _ (sys_row_ok _ _ _ _ (li_tbl _ Hi) Hx)). Qed.

Lemma release_entries j e : e ∈ row_entries tbl' j ↔ e ∈ row_entries s j ∧ ¬ (j = i ∧ le_txn e = t).
Proof.
  pose proof release_nodup as [Hn _]%NoDup_cons. rewrite (gv_txn _ _ _ _ _ _ Hgave) in Hn.
  rewrite (row_entries_insert s i x) by done. case_decide as Hj; [subst j|naive_solver].
  rewrite (row_entries_at _ _ _ Hx), (gv_entries _ _ _ _ _ _ Hgave), elem_of_cons. split.
  - intros He. split; [by right|]. intros [_ Het]. apply Hn, list_elem_of_fmap. by exists e.
  - intros [[->|?] Hne]; [|done]. destruct Hne. split; [done|]. apply (gv_txn _ _ _ _ _ _ Hgave).
Qed.

Lemma release_joined e : e ∈ g → e ∈ lr_held y ∧ e ∈ row_entries s i.
Proof.
  intros He. split; [apply elem_of_app; by left|]. rewrite (row_entries_at _ _ _ Hx). apply elem_of_app. right.
  rewrite (gv_waiters _ _ _ _ _ _ Hgave). apply elem_of_app. by left.
Qed.

Lemma release_waits t' : total_waits t' (s_rows tbl') = total_waits t' (s_rows s) - wcount t' g.
Proof.
  simpl. rewrite (total_waits_insert t' _ _ x) by done. simpl.
  rewrite (gv_waiters _ _ _ _ _ _ Hgave), wcount_app. lia.
Qed.

Lemma release_zero t' : total_waits t' (s_rows s) = 0 → total_waits t' (s_rows tbl') = 0.
Proof.
  intros Hz. pose proof (total_waits_nonneg t' (s_rows tbl')). pose proof (wcount_nonneg t' g).
  pose proof (release_waits t'). lia.
Qed.

Lemma release_log j k : Release j k ∈ l_log n' ↔ Release j k ∈ log1.
Proof.
  simpl. rewrite !elem_of_app, elem_of_cons, list_elem_of_singleton, list_elem_of_fmap. naive_solver.
Qed.

Lemma release_seq t' : t' ∈ s_active s → s_seq s t' = s_seq s t → t' = t.
Proof. intros. apply (li_seq _ Hi); [done|apply release_t|done]. Qed.

Lemma release_has (l : list event) k m j md : (∀ j k, Release j k ∈ log1 → Release j k ∈ l) →
  0 ≤ k < s_next s → msg_at k = Some m → (j, md) ∈ locks (processed n k m) →
  (∃ t, mkEntry md t ∈ row_entries tbl' j ∧ s_seq s t = k) ∨ Release j k ∈ l.
Proof.
  intros Hl Hk Hm Hin. destruct (li_has _ Hi k m j md Hk Hm Hin) as [(t'&He&Hsq)|Hr].
  - destruct (decide (j = i ∧ t' = t)) as [[-> ->]|Hne].
    + right. apply Hl, elem_of_app. right. rewrite Hsq. by left.
    + left. exists t'. split; [|done]. by apply release_entries.
  - right. apply Hl, elem_of_app. by left.
Qed.

Lemma release_entry_log j e : e ∈ row_entries tbl' j → Release j (s_seq s (le_txn e)) ∉ log1.
Proof.
  intros [He Hne]%release_entries. pose proof (entry_active _ _ _ (li_tbl _ Hi) He) as Ha.
  destruct (li_txn _ Hi _ Ha) as (_&_&m&Hm&_). destruct (li_entry _ Hi j e m He Hm) as [_ Hr].
  rewrite elem_of_app, list_elem_of_singleton. intros [?|[= -> Hsq]]; [done|].
  apply Hne. split; [done|]. by apply release_seq.
Qed.

Lemma release_log_ok : log_ok (l_log n').
Proof.
  cbn [l_log]. rewrite cons_middle, app_assoc. apply log_ok_grants; [apply log_ok_release, Hi|].
  intros e He. destruct (release_joined e He) as [Hh Hr].
  pose proof (entry_active _ _ _ (li_tbl _ Hi) Hr) as Ha.
  apply (held_may_grant (with_log log1) i y e); simpl.
  - exact release_tbl.
  - rewrite list_lookup_insert_eq; [done|]. by eapply lookup_lt_Some.
  - done.
  - by destruct (li_txn _ Hi _ Ha) as [[_ ?] _].
  - apply release_entry_log. rewrite (row_entries_insert s i x), decide_True by done. apply elem_of_app. by left.
  - intros k m j md. by apply (release_has log1).
Qed.

Lemma release_rel_other t' rows : (t', rows) ∈ l1 ++ (t, rest) :: l2 →
  (t' = t ∧ rows = rest) ∨ (t' ≠ t ∧ (t', rows) ∈ l_rel n).
Proof.
  pose proof (li_rel_nodup _ Hi) as Hn. rewrite Hrel, fmap_app, fmap_cons in Hn.
  apply NoDup_app in Hn as (_&Hd&[Hn _]%NoDup_cons). rewrite Hrel, !elem_of_app, !elem_of_cons.
  assert (∀ l, (t', rows) ∈ l → t' ∈ l.*1) as Hin by (intros l Hl; apply list_elem_of_fmap; by exists (t', rows)).
  intros [H1|[[= -> ->]|H2]]; [right|by left|right].
  - split; [|by left]. intros ->. apply (Hd t (Hin _ H1)). by left.
  - split; [|by right; right]. intros ->. by apply Hn, Hin.
Qed.

Lemma release_rel t' rows : (t', rows) ∈ l_rel n' → t' ∈ s_active s ∧ s_cur s ≠ Some t' ∧
  total_waits t' (s_rows tbl') = 0 ∧ NoDup rows ∧ ∀ j, j ∈ rows ↔ t' ∈ le_txn <$> row_entries tbl' j.
Proof.
  assert (∀ t' j, t' ∈ le_txn <$> row_entries tbl' j ↔ t' ∈ le_txn <$> row_entries s j ∧ ¬ (j = i ∧ t' = t)) as Hent.
  { intros t0 j. rewrite !list_elem_of_fmap. setoid_rewrite release_entries. naive_solver. }
  intros [[-> ->]|[Hne Hin]]%release_rel_other.
  - destruct release_t as (?&?&?&[Hnd ?]%NoDup_cons&Hr). do 2 (split; [done|]). split; [by apply release_zero|].
    split; [done|]. intros j. rewrite Hent, <-Hr, elem_of_cons. naive_solver.
  - destruct (li_rel _ Hi t' rows Hin) as (?&?&?&?&Hr). do 2 (split; [done|]). split; [by apply release_zero|].
    split; [done|]. intros j. rewrite Hent, <-Hr. naive_solver.
Qed.

(** The transactions that are restarted. *)
Lemma release_new t' : t' ∈ s_active s →
  txn_key (s_txns s t') ∈ new ↔ 0 < wcount t' g ∧ s_cur s ≠ Some t' ∧ total_waits t' (s_rows tbl') = 0.
Proof.
  intros Ha. destruct (gv_new _ _ _ _ _ _ Hgave) as [Hin _]. rewrite Hin.
  pose proof (λ t, si_cnt _ _ release_tbl t) as Hc. cbn [s_cur s_txns] in Hc.
  assert (∀ t, 0 < wcount t g → t ∈ s_active s) as Hact.
  { intros t0 Hp. destruct (decide (t0 ∈ le_txn <$> g)) as [(e&->&He)%list_elem_of_fmap|Hz%wcount_zero]; [|lia].
    by apply (entry_active _ _ _ (li_tbl _ Hi) (proj2 (release_joined e He))). }
  assert (∀ t, lock_ready_cnt (txns s' t) = 0 ↔ s_cur s ≠ Some t ∧ total_waits t (s_rows tbl') = 0) as Hz.
  { intros t0. rewrite Hc. pose proof (total_waits_nonneg t0 (s_rows tbl')). case_bool_decide; [split; [lia|naive_solver]|].
    split; [intros; split; [done|lia]|lia]. }
  split.
  - intros (t0&Hp&Hcnt&Heq). apply Hz in Hcnt. assert (t' = t0) as ->; [|done]. apply (key_inj n); auto.
  - intros [Hp Hq]. exists t'. split; [done|]. split; [by apply Hz|done].
Qed.

Lemma release_new_keys p : p ∈ new → ∃ t', t' ∈ s_active s ∧ 0 < wcount t' g ∧ p = txn_key (s_txns s t').
Proof.
  intros Hp. destruct (gv_new _ _ _ _ _ _ Hgave) as [Hin _]. apply Hin in Hp as (t'&Hw&_&->). exists t'.
  split; [|done]. destruct (decide (t' ∈ le_txn <$> g)) as [(e&->&He)%list_elem_of_fmap|Hz%wcount_zero]; [|lia].
  by apply (entry_active _ _ _ (li_tbl _ Hi) (proj2 (release_joined e He))).
Qed.

Lemma release_started : NoDup (started n').
Proof.
  unfold started. cbn [l_work l_tbl s_restarts]. rewrite (gv_restarts _ _ _ _ _ _ Hgave), app_assoc.
  apply NoDup_app. split_and!; [apply Hi| |].
  - intros p Hp (t'&Ha&Hw&->)%release_new_keys. apply (li_start _ Hi t' Ha) in Hp as [_ Hz].
    pose proof (release_waits t'). pose proof (total_waits_nonneg t' (s_rows tbl')). lia.
  - destruct (gv_new _ _ _ _ _ _ Hgave) as [_ Hsub]. eapply sublist_NoDup; [|exact Hsub].
    pose proof (ro_nodup _ _ _ (sys_row_ok _ _ _ _ (li_tbl _ Hi) Hx)) as Hn. unfold lr_entries in Hn.
    rewrite (gv_waiters _ _ _ _ _ _ Hgave), !fmap_app in Hn. apply NoDup_app in Hn as (_&_&[Hn _]%NoDup_app).
    replace (_ <$> g) with ((λ t', txn_key (s_txns s t')) <$> (le_txn <$> g)) by (by rewrite <-list_fmap_compose).
    apply NoDup_fmap_2_strong; [|done]. intros t1 t2 (e1&->&H1)%list_elem_of_fmap (e2&->&H2)%list_elem_of_fmap Heq.
    apply (key_inj n); [done|..|done]; eapply (entry_active _ i), release_joined; apply Hi || done.
Qed.

Lemma release_active t' : txn_key (txns s' t') = txn_key (s_txns s t') ∧
  recon (txns s' t') = recon (s_txns s t').
Proof.
  destruct (gv_static _ _ _ _ _ _ Hgave t') as (E1&E2&_&E3). unfold txn_key. by rewrite <-E1, <-E2, <-E3.
Qed.

Lemma release_start t' : t' ∈ s_active s →
  (txn_key (txns s' t') ∈ started n' ↔ s_cur s ≠ Some t' ∧ total_waits t' (s_rows tbl') = 0).
Proof.
  intros Ha. destruct (release_active t') as [-> _]. unfold started. cbn [l_work l_tbl s_restarts].
  rewrite (gv_restarts _ _ _ _ _ _ Hgave), app_assoc, elem_of_app, release_new by done.
  change (l_work n ++ s_restarts s) with (started n). rewrite (li_start _ Hi t' Ha).
  pose proof (wcount_nonneg t' g). pose proof (release_waits t') as Hw.
  pose proof (total_waits_nonneg t' (s_rows tbl')). pose proof (total_waits_nonneg t' (s_rows s)). split.
  - intros [[? Hz]|(_&?&?)]; [|done]. split; [done|]. by apply release_zero.
  - intros [Hc Hz]. destruct (decide (0 < wcount t' g)); [by right|]. left. split; [done|]. simpl in Hz, Hw. lia.
Qed.

Lemma inv_release : linv n'.
Proof.
  pose proof release_log as Hlog. destruct release_t as (Ht&Hct&_). pose proof Hi as [].
  assert (∀ k m, processed n' k m = processed n k m) as Hp by done.
  split; [exact release_tbl|done| |done| | | | |exact release_rel| | | |exact release_log_ok|exact release_started| |
    exact release_start].
  - intros t' Ha. destruct (li_txn0 t' Ha) as (?&?&m&?&?&?), (release_active t') as [E1 E2].
    cbn [l_tbl s_txns s_seq s_next]. rewrite E1, E2. eauto 10.
  - intros t' Hc. destruct (li_cur0 t' Hc) as (?&?&Hw&Hr). split; [done|]. split; [done|]. split.
    + intros Hrc. by apply release_zero, Hw.
    + intros Hrc. specialize (Hr Hrc). pose proof (si_cnt _ _ release_tbl t') as Hcn. cbn [s_cur s_txns s_rows] in Hcn.
      rewrite bool_decide_true in Hcn by done. cbn [l_tbl s_txns]. rewrite (gv_ready _ _ _ _ _ _ Hgave); [done|].
      pose proof (total_waits_nonneg t' (<[i := y]> (s_rows s))). lia.
  - intros k m j md Hk Hm. rewrite Hp. apply release_has; [|done..]. intros j' k'. apply Hlog.
  - intros j e m He Hm. rewrite Hlog. split; [|by apply release_entry_log]. rewrite Hp.
    apply release_entries in He as [He _]. by apply li_entry0.
  - rewrite Hrel, fmap_app in li_rel_nodup0. simpl. by rewrite fmap_app.
  - intros t' j Ha Hr. rewrite Hlog, elem_of_app, list_elem_of_singleton. simpl in Hr. rewrite fmap_app in Hr.
    intros [Hl|[= -> Hsq]].
    + apply (li_norel0 t' j); [done| |done]. by rewrite Hrel, fmap_app.
    + apply Hr, elem_of_app. right. rewrite (release_seq t' Ha Hsq). by left.
  - intros j k Hl. apply Hlog, elem_of_app in Hl as [Hl|[= -> ->]%list_elem_of_singleton]; [by apply (li_bound0 j)|].
    by destruct (li_txn0 t Ht).
  - intros j k md Hl. cbn [l_log] in Hl. apply elem_of_app in Hl as [Hl|Hl]; [by apply li_grants0|].
    apply elem_of_cons in Hl as [?|(e&[= -> -> ->]&He)%list_elem_of_fmap]; [done|].
    destruct (release_joined e He) as [_ Hr]. pose proof (entry_active _ _ _ li_tbl0 Hr) as Ha.
    destruct (li_txn0 _ Ha) as (Hk&_&m&Hm&_). split; [done|]. exists m. split; [done|].
    destruct (li_entry0 i e m Hr Hm) as [Hin _]. by apply processed_locks in Hin.
  - intros p Hp'. unfold started in Hp'. cbn [l_work l_tbl s_restarts] in Hp'.
    rewrite (gv_restarts _ _ _ _ _ _ Hgave), app_assoc in Hp'. apply elem_of_app in Hp' as [Hp'|Hp']; [by apply li_started0|].
    destruct (release_new_keys p Hp') as (t'&Ha&_&->). destruct (li_txn0 t' Ha) as (?&_&m&?&?&_). eauto.
Qed.

End effect.
End release.

(** The transaction has given back everything. *)
Lemma linv_end n t l1 l2 : linv n → l_rel n = l1 ++ (t, []) :: l2 →
  linv (mkLN
    (mkSys (s_rows (l_tbl n)) (s_txns (l_tbl n)) (s_restarts (l_tbl n))
       (filter (λ t', t' ≠ t) (s_active (l_tbl n))) (s_cur (l_tbl n)) (s_seq (l_tbl n)) (s_next (l_tbl n)))
    (l_todo n) (l_rc n) (l_locked n) (l_work n) (l1 ++ l2) (l_log n)).
Proof.
  intros Hi Hrel. set (n' := mkLN _ _ _ _ _ _ _).
  assert ((t, []) ∈ l_rel n) as Hin by (rewrite Hrel; apply elem_of_app; right; by left).
  assert (∀ t', t' ∈ s_active (l_tbl n') ↔ t' ≠ t ∧ t' ∈ s_active (l_tbl n)) as Ha.
  { intros t'. simpl. by rewrite list_elem_of_filter. }
  assert ((l_rel n).*1 ≡ₚ t :: (l1 ++ l2).*1) as Hperm by (by rewrite Hrel, <-Permutation_middle).
  assert (∀ t' rows, (t', rows) ∈ l1 ++ l2 → (t', rows) ∈ l_rel n ∧ t' ≠ t) as Hsub.
  { intros t' rows Hx. split; [rewrite Hrel; set_solver|]. pose proof (li_rel_nodup _ Hi) as Hn. rewrite Hperm in Hn.
    apply NoDup_cons in Hn as [Hn _]. intros ->. apply Hn, list_elem_of_fmap. by exists (t, rows). }
  pose proof Hi as []. destruct (li_rel0 t [] Hin) as (Ht&Hc&_&_&Hfree). split; try done.
  - apply step_end_inv; [done..|]. apply Forall_forall. intros x [i Hx]%list_elem_of_lookup He.
    rewrite <-(row_entries_at _ _ _ Hx) in He. apply Hfree in He. by apply elem_of_nil in He.
  - intros t' [_ Ht']%Ha. by apply li_txn0.
  - intros t1 t2 [_ H1]%Ha [_ H2]%Ha. by apply li_seq0.
  - rewrite Hperm in li_rel_nodup0. by apply NoDup_cons in li_rel_nodup0 as [_ ?].
  - intros t' rows [Hr Hne]%Hsub. destruct (li_rel0 t' rows Hr) as (?&?). split; [by apply Ha|done].
  - intros t' i [Hne Ht']%Ha Hr. apply li_norel0; [done|]. rewrite Hperm. by apply not_elem_of_cons.
  - intros t' [_ Ht']%Ha. by apply li_start0.
Qed.

Lemma linv_step n n' : linv n → lstep n n' → linv n'.
Proof.
  intros Hi Hs. destruct Hs as [m t x n' Hm Hc Ht Hk H0 Hr Hl Hst|t req rest n' Hc Ht Hst|t Hc Ht|t Ht Hst Hr|
    t i rest l1 l2 n' Hr Hst|t l1 l2 Hr].
  - unfold acquire_start in Hst. inv_option. subst n'. by apply inv_take.
  - by eapply inv_request.
  - by apply inv_acquired.
  - by apply inv_finish.
  - destruct (release_returns n Hi t i rest l1 l2 Hr) as (x&s'&o&new&Hx&Hh&Hcall&Hg).
    unfold release_one in Hst. rewrite Hx in Hst. cbn [mbind option_bind] in Hst. rewrite Hcall in Hst.
    injection Hst as <-. by eapply inv_release.
  - by eapply linv_end.
Qed.

Lemma linv_init rows h : Z.of_nat rows + 1 < u32_mod → (∀ t, lock_ready_cnt (h t) = 0) → linv (linit rows h).
Proof.
  intros Hr Hh. assert (∀ i e, e ∈ row_entries (init_sys rows h) i → False) as He.
  { intros i e. unfold row_entries. simpl. destruct (replicate _ _ !! i) as [x|] eqn:Hx; [|by intros ?%elem_of_nil].
    apply lookup_replicate in Hx as [-> _]. by intros ?%elem_of_nil. }
  split; [by apply init_sys_inv|simpl; lia|..]; simpl; try done; try (by intros ? ?%elem_of_nil);
    try (by intros ? ? ?%elem_of_nil); try (by intros ? ? ? ?%elem_of_nil); try constructor; try done.
  - lia.
  - by destruct (He i e).
  - by destruct (He i e).
Qed.

Lemma lreach_inv rows n : Z.of_nat rows + 1 < u32_mod → lreach rows n → linv n.
Proof.
  intros Hr (h&Hh&Hs). revert n Hs. apply (rtc_ind_r (λ n, linv n)); [by apply linv_init|].
  intros n n' _ Hs Hi. by eapply linv_step.
Qed.

(** ** Executable schedules *)

(** The next step of the lock thread, and of the cleanup that began last. *)
Inductive lact := DoTake (t : txn_ptr) | DoRequest | DoAcquired | DoFinish (t : txn_ptr) | DoRelease | DoEnd.

Definition run_lact (a : lact) (n : lnode) : option lnode :=
  match a with
  | DoTake t =>
      ASSERT (bool_decide (s_cur (l_tbl n) = None) && negb (bool_decide (t ∈ s_active (l_tbl n))) &&
              (zlen (s_active (l_tbl n)) + 2 <? u32_mod));
      m ← msg_at (s_next (l_tbl n));
      acquire_start t (mkTxn (Sequencer.txn_id m) (Sequencer.batch_id m) 0 false 0 false) m n
  | DoRequest =>
      t ← s_cur (l_tbl n);
      match l_todo n with [] => None | req :: rest => acquire_one t req rest n end
  | DoAcquired =>
      t ← s_cur (l_tbl n);
      match l_todo n with [] => Some (acquire_done t n) | _ => None end
  | DoFinish t =>
      ASSERT (bool_decide (t ∈ s_active (l_tbl n)) && bool_decide (txn_key (s_txns (l_tbl n) t) ∈ started n) &&
              negb (bool_decide (t ∈ (l_rel n).*1)));
      Some (mkLN (l_tbl n) (l_todo n) (l_rc n) (l_locked n) (l_work n) ((t, l_locked n t) :: l_rel n) (l_log n))
  | DoRelease =>
      match l_rel n with (t, i :: rest) :: l => release_one t i ((t, rest) :: l) n | _ => None end
  | DoEnd =>
      match l_rel n with
      | (t, []) :: l =>
          Some (mkLN
            (mkSys (s_rows (l_tbl n)) (s_txns (l_tbl n)) (s_restarts (l_tbl n))
               (filter (λ t', t' ≠ t) (s_active (l_tbl n))) (s_cur (l_tbl n)) (s_seq (l_tbl n)) (s_next (l_tbl n)))
            (l_todo n) (l_rc n) (l_locked n) (l_work n) l (l_log n))
      | _ => None
      end
  end.

Fixpoint run_lacts (l : list lact) (n : lnode) : option lnode :=
  match l with
  | [] => Some n
  | a :: l => n ← run_lact a n; run_lacts l n
  end.

Lemma run_lact_step a n n' : run_lact a n = Some n' → lstep n n'.
Proof.
  destruct a as [t| | |t| |]; simpl; intros Hr.
  - inv_option. rewrite !andb_true_iff, negb_true_iff, bool_decide_eq_true, bool_decide_eq_false, Z.ltb_lt in Hassert.
    destruct Hassert as [[? ?] ?]. eapply lstep_take; cycle -1; [exact Hr|done..].
  - inv_option. destruct (l_todo n) eqn:Ht; [done|]. by eapply lstep_request.
  - inv_option. destruct (l_todo n) eqn:Ht; [|done]. injection Hr as <-. by apply lstep_acquired.
  - inv_option. rewrite !andb_true_iff, negb_true_iff, !bool_decide_eq_true, bool_decide_eq_false in Hassert.
    destruct Hassert as [[? ?] ?]. subst n'. by apply lstep_finish.
  - destruct (l_rel n) as [|[t [|i rest]] l] eqn:Hl; try done. by eapply (lstep_release n t i rest []).
  - destruct (l_rel n) as [|[t [|i rest]] l] eqn:Hl; try done. injection Hr as <-. by apply (lstep_end n t [] l).
Qed.

Lemma run_lacts_reach l rows h n : (∀ t, lock_ready_cnt (h t) = 0) → run_lacts l (linit rows h) = Some n → lreach rows n.
Proof.
  intros Hh Hr. exists h. split; [done|]. revert Hr. generalize (linit rows h).
  induction l as [|a l IH]; simpl; intros n0 Hr; inv_option; [by subst|].
  eapply rtc_l; [by eapply run_lact_step|auto].
Qed.

(** ** Properties of a node *)

(** Of two conflicting grants of a row, the first is that of the transaction earlier in
    the schedule, which gives the row back in between. *)
Lemma grants_ordered n i k k' md md' : linv n → before (l_log n) (Grant i k md) (Grant i k' md') → k ≠ k' →
  conflict_lock md md' = true →
  0 ≤ k < k' ∧ before (l_log n) (Release i k) (Grant i k' md').
Proof.
  intros Hi (p&q&Hp&Hq&Hlt)%before_lookup Hne Hc. destruct (li_log _ Hi) as [Ho Hn].
  destruct (li_grants _ Hi i k md) as [Hk (m&Hm&Hl)]; [by eapply list_elem_of_lookup_2|].
  destruct (li_grants _ Hi i k' md') as [Hk' (m'&Hm'&Hl')]; [by eapply list_elem_of_lookup_2|].
  assert (∀ a x, x ∈ take a (l_log n) → ∃ b, l_log n !! b = Some x ∧ (b < a)%nat) as Htake.
  { intros a x [b Hb]%list_elem_of_lookup. apply lookup_take_Some in Hb as [? ?]. eauto. }
  assert (k < k') as Hkk.
  { destruct (decide (k < k')); [done|]. exfalso.
    destruct (Htake p (Release i k')) as (r&Hr&?); [eapply (Ho p i k md Hp k' m' md'); try done; [lia|]|].
    { by rewrite conflict_lock_sym. }
    pose proof (Hn q r i k' md' Hq Hr). lia. }
  split; [lia|]. destruct (Htake q (Release i k)) as (r&Hr&?); [eapply (Ho q i k' md' Hq k m md); try done; lia|].
  apply before_lookup. eauto.
Qed.

(** A transaction that waits for nothing holds its rows. *)
Lemma started_holds n t m i md : linv n → t ∈ s_active (l_tbl n) → s_cur (l_tbl n) ≠ Some t →
  total_waits t (s_rows (l_tbl n)) = 0 → t ∉ (l_rel n).*1 → msg_at (s_seq (l_tbl n) t) = Some m →
  (i, md) ∈ locks (Sequencer.requests m) → ∃ x, s_rows (l_tbl n) !! i = Some x ∧ mkEntry md t ∈ lr_held x.
Proof.
  intros Hi Ht Hc Hz Hr Hm Hin. destruct (li_txn _ Hi t Ht) as [Hk _].
  assert (processed n (s_seq (l_tbl n) t) m = Sequencer.requests m) as Hp.
  { apply processed_other. destruct (s_cur (l_tbl n)) as [t'|] eqn:Hcur; [right|by left].
    intros Hs. destruct (li_cur _ Hi t' Hcur) as [Hs' _]. apply Hc. f_equal. apply (li_seq _ Hi); [|done|congruence].
    by destruct (si_cur _ _ (li_tbl _ Hi) t' Hcur) as (_&_&?). }
  destruct (li_has _ Hi _ m i md Hk Hm) as [(t'&He&Hs)|Hrel]; [by rewrite Hp| |by destruct (li_norel _ Hi t i Ht Hr)].
  assert (t' = t) as -> by (apply (li_seq _ Hi); [by apply (entry_active _ _ _ (li_tbl _ Hi) He)|done..]).
  unfold row_entries in He. destruct (s_rows (l_tbl n) !! i) as [x|] eqn:Hx; [|by apply elem_of_nil in He].
  exists x. split; [done|]. apply elem_of_app in He as [?|He]; [done|].
  pose proof (total_waits_lookup t _ _ _ Hx). pose proof (wcount_nonneg t (waiters (lr_row x))).
  assert (wcount t (waiters (lr_row x)) = 0) as Hw%wcount_zero by lia.
  destruct Hw. apply list_elem_of_fmap. by exists (mkEntry md t).
Qed.

Lemma request_returns n t req rest : linv n → s_cur (l_tbl n) = Some t → l_todo n = req :: rest →
  (is_local req = true → (row_of (Sequencer.key req) < length (s_rows (l_tbl n)))%nat) → is_Some (acquire_one t req rest n).
Proof.
  intros Hi Hc Ht Hlen. unfold acquire_one, get_lock. destruct (is_local req) eqn:Hloc; [|by eexists].
  case_bool_decide as Hin; [by eexists|]. specialize (Hlen eq_refl).
  apply lookup_lt_is_Some in Hlen as [x Hx]. rewrite Hx. cbn [mbind option_bind].
  destruct (lock_get_spec CALVIN (lock_mode (Sequencer.acctype req)) t
    (mkState (lr_row x) (s_txns (l_tbl n)) (s_restarts (l_tbl n)))) as (rc&s'&->&_); simpl.
  - by right; right.
  - by apply (sys_row_ok _ _ _ _ (li_tbl _ Hi) Hx).
  - eapply sys_get_pre; [apply Hi|exact Hx|by eapply request_active| |apply lock_mode_some].
    by eapply request_fresh.
  - by eexists.
Qed.

(** C33: Every transaction of the schedule is put into the work queue at most once, and
    exactly then when [acquire_locks] is done and it waits for no row any more; until it
    gives back, it then holds every row of this node it asked for in the mode it asked
    for.  The calls of the lock thread and of cleanup return. *)
Theorem calvin_starts_with_locks rows n : Z.of_nat rows + 1 < u32_mod → lreach rows n →
  NoDup (started n) ∧
  (∀ t, t ∈ s_active (l_tbl n) →
     (txn_key (s_txns (l_tbl n) t) ∈ started n ↔ s_cur (l_tbl n) ≠ Some t ∧ ¬ waiting (l_tbl n) t)) ∧
  (∀ t m i md, t ∈ s_active (l_tbl n) → txn_key (s_txns (l_tbl n) t) ∈ started n → t ∉ (l_rel n).*1 →
     msg_at (s_seq (l_tbl n) t) = Some m → (i, md) ∈ locks (Sequencer.requests m) →
     ∃ x, s_rows (l_tbl n) !! i = Some x ∧ mkEntry md t ∈ lr_held x) ∧
  (∀ t req rest, s_cur (l_tbl n) = Some t → l_todo n = req :: rest →
     (is_local req = true → (row_of (Sequencer.key req) < length (s_rows (l_tbl n)))%nat) → is_Some (acquire_one t req rest n)) ∧
  (∀ t i rest l1 l2, l_rel n = l1 ++ (t, i :: rest) :: l2 →
     is_Some (release_one t i (l1 ++ (t, rest) :: l2) n)).
Proof.
  intros Hr Hl. pose proof (lreach_inv rows n Hr Hl) as Hi.
  assert (∀ t, total_waits t (s_rows (l_tbl n)) = 0 ↔ ¬ waiting (l_tbl n) t) as Hw.
  { intros t. rewrite waiting_total. pose proof (total_waits_nonneg t (s_rows (l_tbl n))). lia. }
  split; [apply Hi|]. split; [|split; [|split]].
  - intros t Ht. by rewrite (li_start _ Hi t Ht), Hw.
  - intros t m i md Ht Hst Hrel Hm Hin. apply (li_start _ Hi t Ht) in Hst as [Hc Hz].
    by eapply started_holds.
  - intros. by apply request_returns.
  - intros t i rest l1 l2 Hrel. destruct (release_returns n Hi t i rest l1 l2 Hrel) as (x&s'&o&new&Hx&_&Hcall&_).
    unfold release_one. rewrite Hx. cbn [mbind option_bind]. rewrite Hcall. by eexists.
Qed.

End node.
(** ** All nodes *)

Section cluster.
Context (c : Sequencer.config) (g_req_per_query : Z) (row_of : nat → Z → nat) (rows : nat → nat).
Context (s : Calvin.sys) (L : nat → lnode).

Definition order (j : nat) : list Sequencer.Message := Calvin.n_order (Calvin.s_node s j).

(** The lock thread of every node works on what its scheduler has taken. *)
Definition locks_along : Prop := ∀ j, (j < Sequencer.g_node_cnt c)%nat →
  Z.of_nat (rows j) + 1 < u32_mod ∧ lreach c j g_req_per_query (row_of j) (order j) (rows j) (L j).

(** The epochs all schedulers are in. *)
Definition last_epoch : Z := foldr (λ j w, Z.max (Calvin.worker_epoch (Calvin.n_wq (Calvin.s_node s j))) w) 0 (Calvin.nodes c).

Lemma last_epoch_le j : (j < Sequencer.g_node_cnt c)%nat →
  Calvin.worker_epoch (Calvin.n_wq (Calvin.s_node s j)) ≤ last_epoch.
Proof.
  intros Hj. unfold last_epoch. assert (j ∈ Calvin.nodes c) as Hin by (apply elem_of_seq; lia).
  induction (Calvin.nodes c) as [|i l IH]; [by apply elem_of_nil in Hin|]. simpl.
  apply elem_of_cons in Hin as [->|Hin]; [lia|]. specialize (IH Hin). lia.
Qed.

Lemma order_sublist j : Sequencer.cfg_ok c → Calvin.inv c s → (j < Sequencer.g_node_cnt c)%nat →
  order j `sublist_of` Calvin.global c s last_epoch.
Proof.
  intros Hc Hi Hj. destruct (Calvin.order_global c s j last_epoch Hi Hj (last_epoch_le j Hj)) as [r Hr].
  etrans; [|apply (sublist_filter (λ m, j ∈ Sequencer.participants c m))]. rewrite Hr. by apply sublist_inserts_r.
Qed.

Lemma order_NoDup j : Sequencer.cfg_ok c → Calvin.inv c s → (j < Sequencer.g_node_cnt c)%nat →
  NoDup ((λ m, (Sequencer.txn_id m, Sequencer.batch_id m)) <$> order j).
Proof.
  intros Hc Hi Hj. replace (_ <$> order j) with (prod_swap <$> (Calvin.msg_key <$> order j))
    by (by rewrite <-list_fmap_compose). apply (NoDup_fmap_2 _).
  eapply sublist_NoDup; [by apply (Calvin.global_NoDup c s last_epoch)|]. by apply fmap_sublist, order_sublist.
Qed.

(** C8: Serializability of Calvin.  When the nodes lock what their schedulers hand out,
    there is one list of all transactions, without repetition, such that on every node
    and every row, of two conflicting transactions that were granted the row the first
    is the one earlier in that list, and it has given the row back before the other was
    granted it. *)
Theorem calvin_conflict_serializable : Sequencer.cfg_ok c → Calvin.reachable c s → locks_along →
  ∃ G, NoDup (Calvin.msg_key <$> G) ∧
    ∀ j i k k' md md' a b, (j < Sequencer.g_node_cnt c)%nat →
      before (l_log (L j)) (Grant i k md) (Grant i k' md') → k ≠ k' → conflict_lock md md' = true →
      order j !! Z.to_nat k = Some a → order j !! Z.to_nat k' = Some b →
      before G a b ∧ before (l_log (L j)) (Release i k) (Grant i k' md').
Proof.
  intros Hc Hr Hl. pose proof (Calvin.calvin_inv_reachable c s Hc Hr) as Hi.
  exists (Calvin.global c s last_epoch). split; [by apply Calvin.global_NoDup|].
  intros j i k k' md md' a b Hj Hb Hne Hcf Ha Hb'. destruct (Hl j Hj) as [Hrows Hreach].
  pose proof (order_NoDup j Hc Hi Hj) as Hnd. pose proof (lreach_inv _ _ _ _ _ Hnd _ _ Hrows Hreach) as Hinv.
  destruct (grants_ordered _ _ _ _ _ i k k' md md' Hinv Hb Hne Hcf) as [Hk Hrel]. split; [|done].
  unfold before. etrans; [|by apply (order_sublist j)]. apply before_lookup.
  exists (Z.to_nat k), (Z.to_nat k'). split_and!; [done..|lia].
Qed.

End cluster.

(** ** A run *)

(** The second node of the run of [Calvin]: both its transactions write row 0, the second
    waits for the first and is restarted by its release. *)
Definition ex_row_of (key : Z) : nat := Z.to_nat (key / 2).
Definition ex_order : list Sequencer.Message := order (Calvin.ex_state (Calvin.ex_start ++ Calvin.ex_rest)) 1.
Definition ex_managers : heap := λ _, mkTxn 0 0 0 false 0 false.
Definition ex_half : list lact :=
  [DoTake 0%nat; DoRequest; DoRequest; DoAcquired; DoTake 1%nat; DoRequest; DoRequest; DoAcquired; DoFinish 0%nat].
Definition ex_node (l : list lact) : lnode :=
  default (linit 2 ex_managers) (run_lacts Calvin.ex_config 1 2 ex_row_of ex_order l (linit 2 ex_managers)).

Lemma ex_lreach l :
  bool_decide (is_Some (run_lacts Calvin.ex_config 1 2 ex_row_of ex_order l (linit 2 ex_managers))) = true →
  lreach Calvin.ex_config 1 2 ex_row_of ex_order 2 (ex_node l).
Proof. intros [n Hn]%bool_decide_eq_true. unfold ex_node. rewrite Hn. by eapply run_lacts_reach; [|exact Hn]. Qed.

Lemma calvin_starts_with_locks_witness :
  let n := ex_node ex_half in
  started n = [(0, 1)] ∧ s_active (l_tbl n) = [1%nat; 0%nat] ∧
  (txn_key (s_txns (l_tbl n) 1%nat) ∈ started n ↔ s_cur (l_tbl n) ≠ Some 1%nat ∧ ¬ waiting (l_tbl n) 1%nat).
Proof.
  split; [by vm_compute|]. split; [by vm_compute|].
  refine (proj1 (proj2 (calvin_starts_with_locks Calvin.ex_config 1 2 ex_row_of ex_order _ 2 (ex_node ex_half) _ _)) 1%nat _).
  - apply (bool_decide_unpack _). by vm_compute.
  - done.
  - apply ex_lreach. by vm_compute.
  - apply (bool_decide_unpack _). by vm_compute.
Defined.

Definition ex_cluster (j : nat) : lnode :=
  if decide (j = 1%nat) then ex_node (ex_half ++ [DoRelease; DoEnd]) else linit 2 ex_managers.

Lemma calvin_conflict_serializable_witness :
  ∃ G a b, NoDup (Calvin.msg_key <$> G) ∧ ex_order = [a; b] ∧ before G a b.
Proof.
  destruct (calvin_conflict_serializable Calvin.ex_config 2 (λ _, ex_row_of) (λ _, 2%nat)
    (Calvin.ex_state (Calvin.ex_start ++ Calvin.ex_rest)) ex_cluster) as (G&HG&Hord).
  - apply Calvin.ex_config_ok.
  - apply Calvin.ex_run_reachable. by vm_compute.
  - intros j Hj. split; [done|]. unfold ex_cluster. case_decide as Hj'.
    + subst j. apply ex_lreach. by vm_compute.
    + exists ex_managers. split; [done|]. apply rtc_refl.
  - destruct ex_order as [|a [|b [|]]] eqn:Ho; try (by vm_compute in Ho).
    exists G, a, b. split; [exact HG|]. split; [done|].
    apply (Hord 1%nat 0%nat 0 1 LOCK_EX LOCK_EX a b).
    + simpl. lia.
    + apply before_lookup. exists 0%nat, 3%nat. split; [by vm_compute|]. split; [by vm_compute|lia].
    + done.
    + done.
    + fold ex_order. by rewrite Ho.
    + fold ex_order. by rewrite Ho.
Defined.

End CalvinLocks.
