(* ===== verification/YcsbTxn.v ===== *)
(** * YcsbTxn: running a YCSB transaction on several nodes

    Model of [YCSBTxnManager] (benchmarks/ycsb_txn.cpp) outside Calvin: the state machine
    that goes through the requests of a query, sends runs of requests for another node to
    that node and continues after its answer, with the handlers of [WorkerThread]
    (system/worker_thread.cpp) that drive it on the home node and on the other nodes.
    What the concurrency control answers to [get_row] is an input.  The reference is the
    query executed request by request; the theorem says that the machines on all nodes
    together do exactly that. *)

From S2P Require Import Prelude Sequencer TwoPC.

Module YcsbTxn.
Import Sequencer.

Inductive YCSBRemTxnType := YCSB_0 | YCSB_1 | YCSB_FIN | YCSB_RDONE.

#[export] Instance YCSBRemTxnType_eq_dec : EqDecision YCSBRemTxnType.
Proof. solve_decision. Defined.

(** The manager of a transaction on one node; [y_log] are the requests it has executed. *)
Record YCSBTxnManager := mkY {
  y_requests : list ycsb_request;
  next_record_id : nat;
  y_state : YCSBRemTxnType;
  partitions_touched : list Z;
  y_log : list ycsb_request }.

Definition set_state (st : YCSBRemTxnType) (t : YCSBTxnManager) : YCSBTxnManager :=
  mkY (y_requests t) (next_record_id t) st (partitions_touched t) (y_log t).
Definition set_next (n : nat) (t : YCSBTxnManager) : YCSBTxnManager :=
  mkY (y_requests t) n (y_state t) (partitions_touched t) (y_log t).
Definition touch (n : Z) (t : YCSBTxnManager) : YCSBTxnManager :=
  mkY (y_requests t) (next_record_id t) (y_state t) (TwoPC.add_unique n (partitions_touched t)) (y_log t).

(** [reset] and [requests.append] of a query or of a message *)
Definition start_txn (reqs : list ycsb_request) : YCSBTxnManager := mkY reqs 0 YCSB_0 [] [].
Definition append (g_req_per_query : nat) (reqs : list ycsb_request) (t : YCSBTxnManager) : option YCSBTxnManager :=
  ASSERT bool_decide (length (y_requests t) + length reqs ≤ g_req_per_query)%nat;
  Some (mkY (y_requests t ++ reqs) (next_record_id t) (y_state t) (partitions_touched t) (y_log t)).

Section manager.
(** [g_node_id] is the node of the manager and [local] is [IS_LOCAL(txn->txn_id)]. *)
Context (c : config) (g_node_id : Z) (local : bool).

Definition owner (req : ycsb_request) : Z := GET_NODE_ID c (key_to_part c (key req)).
Definition dest_node (req : ycsb_request) : Z := GET_NODE_ID c (key req).

Definition is_done (t : YCSBTxnManager) : bool := bool_decide (next_record_id t = length (y_requests t)).

Definition next_ycsb_state (t : YCSBTxnManager) : option YCSBTxnManager :=
  match y_state t with
  | YCSB_0 => Some (set_state YCSB_1 t)
  | YCSB_1 =>
      let t := set_next (S (next_record_id t)) t in
      Some (if negb local || negb (is_done t) then set_state YCSB_0 t else set_state YCSB_FIN t)
  | YCSB_FIN => Some t
  | YCSB_RDONE => None
  end.

(** The loop of [copy_remote_requests] *)
Fixpoint remote_run (dest : Z) (l : list ycsb_request) : list ycsb_request :=
  match l with
  | [] => []
  | req :: l =>
      if negb (owner req =? g_node_id) && (dest_node req =? dest) then req :: remote_run dest l else []
  end.

(** [send_remote_request]: the node and the requests of the message. *)
Definition send_remote_request (t : YCSBTxnManager) : option (Z * list ycsb_request * YCSBTxnManager) :=
  req ← y_requests t !! next_record_id t;
  let dest := dest_node req in
  let t := touch dest t in
  let reqs := remote_run dest (drop (next_record_id t) (y_requests t)) in
  ASSERT (negb (dest =? g_node_id));
  Some (dest, reqs, set_next (next_record_id t + length reqs) t).

Definition run_ycsb_1 (req : ycsb_request) (t : YCSBTxnManager) : option YCSBTxnManager :=
  ASSERT (bool_decide (acctype req = RD ∨ acctype req = SCAN ∨ acctype req = WR));
  Some (mkY (y_requests t) (next_record_id t) (y_state t) (partitions_touched t) (y_log t ++ [req])).

(** [row_rc] is the answer of [get_row], if it is called. *)
Definition run_txn_state (row_rc : RC) (t : YCSBTxnManager)
    : option (RC * YCSBTxnManager * option (Z * list ycsb_request)) :=
  req ← y_requests t !! next_record_id t;
  '(rc, t, out) ← match y_state t with
    | YCSB_0 =>
        if owner req =? g_node_id then Some (row_rc, t, None)
        else '(dest, reqs, t) ← send_remote_request t; Some (WAIT_REM, t, Some (dest, reqs))
    | YCSB_1 => t ← run_ycsb_1 req t; Some (RCOK, t, None)
    | YCSB_FIN => Some (RCOK, t, None)
    | YCSB_RDONE => None
    end;
  t ← if bool_decide (rc = RCOK) then next_ycsb_state t else Some t;
  Some (rc, t, out).

(** The loop of [run_txn]; [ans i] is the answer for request [i] of this manager. *)
Fixpoint run_loop (fuel : nat) (ans : nat → RC) (t : YCSBTxnManager)
    : option (RC * YCSBTxnManager * option (Z * list ycsb_request)) :=
  match fuel with
  | O => None
  | S fuel =>
      if is_done t then Some (RCOK, t, None)
      else
        '(rc, t, out) ← run_txn_state (ans (next_record_id t)) t;
        if bool_decide (rc = RCOK) then run_loop fuel ans t else Some (rc, t, out)
  end.

Definition run_txn (fuel : nat) (ans : nat → RC) (t : YCSBTxnManager)
    : option (RC * YCSBTxnManager * option (Z * list ycsb_request)) :=
  let first := local && bool_decide (y_state t = YCSB_0) && bool_decide (next_record_id t = 0%nat) in
  run_loop fuel ans (if first then touch g_node_id t else t).

Definition run_txn_post_wait (t : YCSBTxnManager) : option YCSBTxnManager := next_ycsb_state t.

End manager.

(** ** All nodes *)

Section txn.
(** [ans n i] is what [get_row] answers on node [n] for its request [i]. *)
Context (c : config) (home : Z) (ans : Z → nat → RC) (g_req_per_query : nat).

(** [process_rqry] and, after waiting, [process_rqry_cont] on node [n]: what goes back. *)
Fixpoint serve (fuel : nat) (n : Z) (t : YCSBTxnManager) : option (RC * YCSBTxnManager) :=
  match fuel with
  | O => None
  | S f =>
      '(rc, t, _) ← run_txn c n false fuel (ans n) t;
      match rc with
      | WAIT => t ← run_txn_post_wait false t; serve f n t
      | RCOK | Abort => Some (rc, t)
      | _ => None (* a request of another node *)
      end
  end.

(** [process_rtxn], [process_rtxn_cont] and [process_rqry_rsp] on the home node, until
    [start_commit] or [start_abort]. *)
Fixpoint exec (fuel : nat) (t : YCSBTxnManager) (parts : Z → YCSBTxnManager)
    : option (RC * YCSBTxnManager * (Z → YCSBTxnManager)) :=
  match fuel with
  | O => None
  | S f =>
      '(rc, t, out) ← run_txn c home true fuel (ans home) t;
      match rc with
      | RCOK | Abort => Some (rc, t, parts)
      | WAIT => t ← run_txn_post_wait true t; exec f t parts
      | WAIT_REM =>
          '(n, reqs) ← out;
          p ← append g_req_per_query reqs (parts n);
          '(rc, p) ← serve fuel n p;
          if bool_decide (rc = Abort) then Some (Abort, t, <[n := p]> parts)
          else exec f t (<[n := p]> parts)
      | _ => None
      end
  end.

Definition run_query (fuel : nat) (reqs : list ycsb_request)
    : option (RC * YCSBTxnManager * (Z → YCSBTxnManager)) :=
  exec fuel (start_txn reqs) (λ _, start_txn []).

(** ** The reference *)

Section reference.
Context (reqs : list ycsb_request).

Definition requests_of (n : Z) (l : list ycsb_request) : list ycsb_request := filter (λ r, owner c r = n) l.

(** The answer to request [q] of the query, on the node that has its row. *)
Definition answer (q : nat) (req : ycsb_request) : RC :=
  if decide (owner c req = home) then ans home q
  else ans (owner c req) (length (requests_of (owner c req) (take q reqs))).

(** The requests before the first one that is refused, from request [q] on. *)
Fixpoint granted (q : nat) (l : list ycsb_request) : list ycsb_request :=
  match l with
  | [] => []
  | req :: l => if decide (answer q req = Abort) then [] else req :: granted (S q) l
  end.

End reference.
End txn.

(** ** One node *)

(** A request that the workload generates. *)
Definition req_ok (req : ycsb_request) : Prop := acctype req = RD ∨ acctype req = SCAN ∨ acctype req = WR.
Definition row_answer (rc : RC) : Prop := rc = RCOK ∨ rc = WAIT ∨ rc = Abort.

(** A manager before request [k], or after waiting for its row. *)
Definition at_req (reqs : list ycsb_request) (k : nat) (waited : bool) (touched : list Z)
    (log : list ycsb_request) : YCSBTxnManager :=
  mkY reqs k (if waited then YCSB_1 else YCSB_0) touched log.

Section loop.
Context (c : config) (me : Z) (local : bool) (ans : nat → RC) (reqs : list ycsb_request).

(** The manager after request [k]. *)
Definition after_req (k : nat) (touched : list Z) (log : list ycsb_request) : YCSBTxnManager :=
  mkY reqs (S k) (if local && bool_decide (S k = length reqs) then YCSB_FIN else YCSB_0) touched log.

Lemma loop_request fuel k touched log req : reqs !! k = Some req → owner c req = me →
  run_loop c me local (S fuel) ans (at_req reqs k false touched log) =
    if bool_decide (ans k = RCOK) then run_loop c me local fuel ans (at_req reqs k true touched log)
    else Some (ans k, at_req reqs k false touched log, None).
Proof.
  intros Hk Ho. cbn [run_loop]. unfold is_done. rewrite bool_decide_false.
  2:{ simpl. apply lookup_lt_Some in Hk. lia. }
  unfold run_txn_state. cbn [at_req y_requests next_record_id y_state]. rewrite Hk. cbn [mbind option_bind].
  rewrite Ho, Z.eqb_refl. cbn [mbind option_bind]. destruct (bool_decide (ans k = RCOK)) eqn:Hb; simpl; by rewrite Hb.
Qed.

Lemma loop_waited fuel k touched log req : reqs !! k = Some req → req_ok req →
  run_loop c me local (S fuel) ans (at_req reqs k true touched log) =
    run_loop c me local fuel ans (after_req k touched (log ++ [req])).
Proof.
  intros Hk Ho. cbn [run_loop]. unfold is_done. rewrite bool_decide_false.
  2:{ simpl. apply lookup_lt_Some in Hk. lia. }
  unfold run_txn_state. cbn [at_req y_requests next_record_id y_state]. rewrite Hk. cbn [mbind option_bind].
  unfold run_ycsb_1. rewrite assert_bind_true by (by apply bool_decide_eq_true). cbn [mbind option_bind].
  rewrite bool_decide_true by done. unfold next_ycsb_state, after_req, is_done. simpl.
  by destruct local, (bool_decide (S k = length reqs)).
Qed.

Lemma loop_done fuel t : next_record_id t = length (y_requests t) →
  run_loop c me local (S fuel) ans t = Some (RCOK, t, None).
Proof. intros Hd. cbn [run_loop]. unfold is_done. by rewrite bool_decide_true. Qed.

End loop.

(** ** Another node serves a message *)

(** How many requests are answered before one is refused. *)
Fixpoint accepted (ans : nat → RC) (k : nat) (l : list ycsb_request) : nat :=
  match l with
  | [] => 0
  | _ :: l => if decide (ans k = Abort) then 0 else S (accepted ans (S k) l)
  end.

Lemma accepted_le ans k l : (accepted ans k l ≤ length l)%nat.
Proof. revert k. induction l as [|r l IH]; intros k; simpl; [lia|]. case_decide; [lia|]. specialize (IH (S k)). lia. Qed.

Section serve.
Context (c : config) (ans : Z → nat → RC) (n : Z).
Context (Hans : ∀ i, row_answer (ans n i)).

(** What a node has after [k] more requests than before. *)
Definition served (done l : list ycsb_request) (k : nat) : YCSBTxnManager :=
  mkY (done ++ l) (length done + k) YCSB_0 [] (done ++ take k l).

Definition scont (f : nat) (r : RC * YCSBTxnManager * option (Z * list ycsb_request)) : option (RC * YCSBTxnManager) :=
  let '(rc, t, _) := r in
  match rc with
  | WAIT => t ← run_txn_post_wait false t; serve c ans (pred f) n t
  | RCOK | Abort => Some (rc, t)
  | _ => None
  end.

Lemma serve_unfold f t : serve c ans (S f) n t = (run_loop c n false (S f) (ans n) t ≫= scont (S f)).
Proof. cbn [serve]. unfold run_txn. cbn [andb]. by destruct (run_loop _ _ _ _ _ _) as [[[rc t'] out]|]. Qed.

Context (done l : list ycsb_request) (Hl : Forall (λ r, owner c r = n ∧ req_ok r) l).

Definition goal_of (k : nat) : nat := (k + accepted (ans n) (length done + k) (drop k l))%nat.

Lemma goal_step k req : l !! k = Some req → ans n (length done + k) ≠ Abort → goal_of (S k) = goal_of k.
Proof.
  intros Hk Ha. unfold goal_of. rewrite (drop_S l req k Hk). cbn [accepted]. rewrite decide_False by done.
  rewrite Nat.add_succ_r. lia.
Qed.

Definition left (k : nat) (waited : bool) : nat := (2 * (length l - k) - if waited then 1 else 0)%nat.

Lemma serve_run m : ∀ k waited fl f, m = left k waited → (k ≤ length l)%nat →
  (waited = true → (k < length l)%nat ∧ ans n (length done + k) ≠ Abort) → (m < fl)%nat → (m < f)%nat →
  (run_loop c n false fl (ans n) (at_req (done ++ l) (length done + k) waited [] (done ++ take k l)) ≫= scont f) =
    Some (if decide (goal_of k = length l) then RCOK else Abort, served done l (goal_of k)).
Proof.
  induction (lt_wf m) as [m _ IH]. intros k waited fl f -> Hk Hw Hfl Hf.
  destruct fl as [|fl]; [lia|]. destruct f as [|f]; [lia|]. destruct (decide (k = length l)) as [->|Hne].
  { destruct waited; [by destruct Hw; lia|]. rewrite loop_done by (simpl; by rewrite length_app).
    assert (goal_of (length l) = length l) as -> by (unfold goal_of; rewrite drop_ge by lia; simpl; lia).
    rewrite decide_True by done. done. }
  destruct (lookup_lt_is_Some_2 l k) as [req Hreq]; [lia|]. rewrite Forall_forall in Hl.
  destruct (Hl req) as [Ho Hq]; [by eapply list_elem_of_lookup_2|].
  assert ((done ++ l) !! (length done + k)%nat = Some req) as Hlk by (by rewrite lookup_app_r, Nat.add_sub' by lia).
  destruct waited.
  - destruct Hw as [_ Ha]; [done|]. rewrite (loop_waited _ _ _ _ _ _ _ _ _ req) by done.
    rewrite <-(goal_step k req) by done. unfold left in *.
    rewrite <-(IH (left (S k) false) ltac:(unfold left; lia) (S k) false fl (S f) eq_refl); try done; try (unfold left; lia).
    unfold at_req, after_req. cbn [andb]. rewrite (take_S_r l k req) by done.
    by rewrite app_assoc, Nat.add_succ_r.
  - rewrite (loop_request _ _ _ _ _ _ _ _ _ req) by done. case_bool_decide as Hrc.
    + rewrite <-(IH (left k true) ltac:(unfold left; lia) k true fl (S f) eq_refl); try done; try (unfold left in *; lia).
      intros _. split; [lia|congruence].
    + destruct (Hans (length done + k)) as [?|[Hwt|Hab]]; [done|..].
      * rewrite Hwt. cbn [mbind option_bind scont pred]. unfold run_txn_post_wait, next_ycsb_state. cbn [at_req y_state mbind option_bind].
        destruct f as [|f]; [unfold left in *; lia|]. rewrite serve_unfold.
        rewrite <-(IH (left k true) ltac:(unfold left; lia) k true (S f) (S f) eq_refl); try done;
          try (unfold left in *; lia).
        intros _. split; [lia|congruence].
      * rewrite Hab. cbn [mbind option_bind scont].
        assert (goal_of k = k) as -> by (unfold goal_of; rewrite (drop_S l req k Hreq); cbn [accepted];
          rewrite decide_True by done; lia).
        rewrite decide_False by done. done.
Qed.

(** A message with [l] on a node that has run [done] before. *)
Lemma serve_spec g_req_per_query fuel : (2 * length l < fuel)%nat → (length done + length l ≤ g_req_per_query)%nat →
  (append g_req_per_query l (served done [] 0) ≫= serve c ans fuel n) =
    Some (if decide (goal_of 0 = length l) then RCOK else Abort, served done l (goal_of 0)).
Proof.
  intros Hf Hcap. destruct fuel as [|f]; [lia|]. unfold append.
  rewrite assert_bind_true by (apply bool_decide_eq_true; simpl; rewrite app_nil_r; lia).
  cbn [mbind option_bind served y_requests next_record_id y_state partitions_touched y_log].
  rewrite serve_unfold, !app_nil_r.
  rewrite <-(serve_run (left 0 false) 0 false (S f) (S f) eq_refl); try done; try (unfold left; lia).
  unfold at_req. cbn [take]. by rewrite take_0, app_nil_r.
Qed.

End serve.

(** ** The home node *)

Section home.
Context (c : config) (home : Z) (ans : Z → nat → RC) (g_req_per_query : nat) (reqs : list ycsb_request).
Context (Hans : ∀ n i, row_answer (ans n i)) (Hok : Forall req_ok reqs).
Context (Hroute : ∀ req, dest_node c req = owner c req) (Hcap : (length reqs ≤ g_req_per_query)%nat).

Definition touched (p : nat) : list Z := foldl (λ s r, TwoPC.add_unique (owner c r) s) [home] (take p reqs).

(** The execution stops before this request. *)
Definition stop (p : nat) : nat := (p + length (granted c home ans reqs p (drop p reqs)))%nat.

(** [p] requests of the query were run. *)
Record at_pos (p : nat) (waited : bool) (t : YCSBTxnManager) (parts : Z → YCSBTxnManager) : Prop := {
  ap_len : (p ≤ length reqs)%nat;
  ap_waited : waited = true → ∃ req, reqs !! p = Some req ∧ owner c req = home ∧ ans home p ≠ Abort;
  ap_home : ∃ st, t = mkY reqs p st (touched p) (requests_of c home (take p reqs)) ∧
    ((p < length reqs)%nat → st = if waited then YCSB_1 else YCSB_0);
  ap_parts : ∀ n, n ≠ home → parts n = served (requests_of c n (take p reqs)) [] 0 }.

Record final (p : nat) (r : RC * YCSBTxnManager * (Z → YCSBTxnManager)) : Prop := {
  fi_rc : r.1.1 = if decide (stop p = length reqs) then RCOK else Abort;
  fi_home : y_log r.1.2 = requests_of c home (take (stop p) reqs);
  fi_parts : ∀ n, n ≠ home → y_log (r.2 n) = requests_of c n (take (stop p) reqs);
  fi_touched : partitions_touched r.1.2 = touched (S (stop p)) }.

Lemma requests_of_app n l l' : requests_of c n (l ++ l') = requests_of c n l ++ requests_of c n l'.
Proof. apply filter_app. Qed.

Lemma requests_of_all n l : Forall (λ r, owner c r = n) l → requests_of c n l = l.
Proof. apply list_filter_all. Qed.

Lemma requests_of_none n l : Forall (λ r, owner c r ≠ n) l → requests_of c n l = [].
Proof.
  induction 1 as [|r l Hr _ IH]; [done|]. unfold requests_of in *. by rewrite filter_cons_False.
Qed.

Lemma add_unique_in x l : x ∈ l → TwoPC.add_unique x l = l.
Proof. intros Hx. unfold TwoPC.add_unique. by rewrite bool_decide_true. Qed.

Lemma add_unique_mem x y l : x ∈ TwoPC.add_unique y l ↔ x = y ∨ x ∈ l.
Proof. unfold TwoPC.add_unique. case_bool_decide; [naive_solver|]. rewrite elem_of_app, list_elem_of_singleton. naive_solver. Qed.

Lemma touched_home p : home ∈ touched p.
Proof.
  unfold touched. generalize (take p reqs). intros l. assert (home ∈ [home]) as H by (by left). revert H.
  generalize [home]. induction l as [|r l IH]; intros s Hs; [done|]. simpl. apply IH, add_unique_mem. by right.
Qed.

Lemma touch_all n l s : Forall (λ r, owner c r = n) l → l ≠ [] →
  foldl (λ s r, TwoPC.add_unique (owner c r) s) s l = TwoPC.add_unique n s.
Proof.
  intros Hl Hne. destruct Hl as [|r l Hr Hl]; [done|]. simpl. rewrite Hr. clear Hne Hr.
  induction Hl as [|r' l Hr' Hl IH]; [done|]. simpl. rewrite Hr', (add_unique_in n (TwoPC.add_unique n s)); [done|].
  apply add_unique_mem. by left.
Qed.

Lemma touched_run p k n : (0 < k)%nat → (p + k ≤ length reqs)%nat → Forall (λ r, owner c r = n) (take k (drop p reqs)) →
  touched (p + k) = TwoPC.add_unique n (touched p).
Proof.
  intros Hk Hle Hl. unfold touched. rewrite <-take_take_drop, foldl_app. apply touch_all; [done|].
  intros H0%(f_equal length). rewrite length_take, length_drop in H0. simpl in H0. lia.
Qed.

Lemma touched_full p : (length reqs ≤ p)%nat → touched p = touched (length reqs).
Proof. intros Hp. unfold touched. by rewrite !take_ge by lia. Qed.

Lemma remote_run_spec d l : ∃ k, remote_run c home d l = take k l ∧ (k ≤ length l)%nat ∧
  Forall (λ r, owner c r ≠ home ∧ owner c r = d) (take k l) ∧
  (∀ req, head l = Some req → owner c req ≠ home → owner c req = d → (0 < k)%nat).
Proof.
  induction l as [|r l (k&Hk&Hle&Hf&_)]; [by exists 0%nat|]. cbn [remote_run]. rewrite Hroute.
  destruct (Z.eqb_spec (owner c r) home), (Z.eqb_spec (owner c r) d); simpl;
    try (exists 0%nat; split_and!; [done|lia|constructor|naive_solver]).
  exists (S k). rewrite Hk. split_and!; [done|simpl; lia|by constructor|lia].
Qed.

(** A run of requests of one other node. *)
Lemma stop_run n : n ≠ home → ∀ k p, (p + k ≤ length reqs)%nat → Forall (λ r, owner c r = n) (take k (drop p reqs)) →
  let a := accepted (ans n) (length (requests_of c n (take p reqs))) (take k (drop p reqs)) in
  stop p = if decide (a = k) then stop (p + k) else (p + a)%nat.
Proof.
  intros Hn k. induction k as [|k IH]; intros p Hle Hf; cbv zeta.
  { rewrite take_0. case_decide as H0; [by rewrite Nat.add_0_r|by destruct H0]. }
  destruct (lookup_lt_is_Some_2 reqs p) as [req Hreq]; [lia|]. rewrite (drop_S reqs req p Hreq) in Hf |- *.
  cbn [take] in *. apply Forall_cons in Hf as [Ho Hf]. cbn [accepted].
  assert (length (requests_of c n (take (S p) reqs)) = S (length (requests_of c n (take p reqs)))) as Hlen.
  { rewrite (take_S_r reqs p req), requests_of_app, length_app by done. unfold requests_of at 2.
    rewrite filter_cons_True by done. simpl. lia. }
  assert (answer c home ans reqs p req = ans n (length (requests_of c n (take p reqs)))) as Ha.
  { unfold answer. by rewrite decide_False, Ho by congruence. }
  specialize (IH (S p) ltac:(lia) Hf). cbv zeta in IH. rewrite Hlen in IH.
  unfold stop at 1. rewrite (drop_S reqs req p Hreq). cbn [granted]. rewrite Ha.
  destruct (decide (ans n _ = Abort)) as [Hab|Hab]; [by rewrite decide_False by lia; simpl|].
  simpl. unfold stop at 1 in IH. simpl in IH. rewrite Nat.add_succ_r. rewrite IH.
  destruct (decide (accepted _ _ _ = k)) as [->|Hne].
  - rewrite decide_True by done. f_equal. lia.
  - rewrite decide_False by lia. lia.
Qed.

(** A request of the home node. *)
Lemma stop_home p req : reqs !! p = Some req → owner c req = home →
  stop p = if decide (ans home p = Abort) then p else stop (S p).
Proof.
  intros Hreq Ho. unfold stop at 1. rewrite (drop_S reqs req p Hreq). cbn [granted]. unfold answer.
  rewrite (decide_True (P := owner c req = home)) by done. case_decide; simpl; [lia|]. unfold stop. lia.
Qed.

Definition cont (f : nat) (parts : Z → YCSBTxnManager) (r : RC * YCSBTxnManager * option (Z * list ycsb_request))
    : option (RC * YCSBTxnManager * (Z → YCSBTxnManager)) :=
  let '(rc, t, out) := r in
  match rc with
  | RCOK | Abort => Some (rc, t, parts)
  | WAIT => t ← run_txn_post_wait true t; exec c home ans g_req_per_query (pred f) t parts
  | WAIT_REM =>
      '(n, l) ← out;
      p ← append g_req_per_query l (parts n);
      '(rc, p) ← serve c ans f n p;
      if bool_decide (rc = Abort) then Some (Abort, t, <[n := p]> parts)
      else exec c home ans g_req_per_query (pred f) t (<[n := p]> parts)
  | _ => None
  end.

Lemma exec_unfold f t parts : home ∈ partitions_touched t →
  exec c home ans g_req_per_query (S f) t parts = (run_loop c home true (S f) (ans home) t ≫= cont (S f) parts).
Proof.
  intros Hh. cbn [exec]. unfold run_txn. replace (if _ && _ then touch home t else t) with t.
  - by destruct (run_loop _ _ _ _ _ _) as [[[rc t'] out]|].
  - destruct (_ && _); [|done]. unfold touch. rewrite add_unique_in by done. by destruct t.
Qed.

Lemma served_all done l : served done l (length l) = served (done ++ l) [] 0.
Proof. unfold served. by rewrite !app_nil_r, length_app, Nat.add_0_r, firstn_all. Qed.

(** The message that is sent at request [p], and the manager after it. *)
Lemma send_spec p req parts fuel : at_pos p false (at_req reqs p false (touched p) (requests_of c home (take p reqs))) parts →
  reqs !! p = Some req → owner c req ≠ home → ∃ k, (0 < k)%nat ∧ (p + k ≤ length reqs)%nat ∧
  Forall (λ r, owner c r = owner c req) (take k (drop p reqs)) ∧
  run_loop c home true (S fuel) (ans home) (at_req reqs p false (touched p) (requests_of c home (take p reqs))) =
    Some (WAIT_REM, at_req reqs (p + k) false (touched (p + k)) (requests_of c home (take (p + k) reqs)),
          Some (owner c req, take k (drop p reqs))).
Proof.
  intros Hp Hreq Ho. destruct (remote_run_spec (owner c req) (drop p reqs)) as (k&Hk&Hle&Hf&Hpos).
  rewrite length_drop in Hle. pose proof (lookup_lt_Some _ _ _ Hreq) as Hlt. exists k.
  assert (0 < k)%nat as Hk0 by (apply (Hpos req); [by rewrite (drop_S reqs req p Hreq)|done..]).
  assert (Forall (λ r, owner c r = owner c req) (take k (drop p reqs))) as Hf'.
  { eapply Forall_impl; [exact Hf|]. naive_solver. }
  split_and!; [done|lia|done|]. cbn [run_loop]. unfold is_done. rewrite bool_decide_false by (simpl; lia).
  unfold run_txn_state. cbn [at_req y_requests next_record_id y_state]. rewrite Hreq. cbn [mbind option_bind].
  rewrite (proj2 (Z.eqb_neq _ _) Ho). unfold send_remote_request. cbn [at_req y_requests next_record_id]. rewrite Hreq.
  cbn [mbind option_bind touch at_req next_record_id y_requests]. rewrite Hroute, Hk.
  rewrite assert_bind_true by (by rewrite (proj2 (Z.eqb_neq _ _) Ho)). cbn [mbind option_bind].
  rewrite bool_decide_false by done. rewrite length_take, length_drop, Nat.min_l by lia.
  unfold set_next, touch, at_req. cbn [y_requests y_state partitions_touched y_log].
  rewrite <-(touched_run p k (owner c req)) by (done || lia). rewrite <-(take_take_drop reqs p k), requests_of_app.
  rewrite (requests_of_none home (take k (drop p reqs))); [by rewrite app_nil_r|].
  eapply Forall_impl; [exact Hf|]. naive_solver.
Qed.

Lemma final_step p q r : stop p = stop q → final q r → final p r.
Proof. intros Hs [H1 H2 H3 H4]. split; rewrite Hs; done. Qed.

(** The end of the query, and a refused request. *)
Lemma final_here p rc t parts : at_pos p false t parts → stop p = p →
  rc = (if decide (p = length reqs) then RCOK else Abort) →
  (∀ req, reqs !! p = Some req → owner c req = home) → final p (rc, t, parts).
Proof.
  intros [Hlen _ (st&->&_) Hparts] Hs -> Ho. split; simpl; rewrite Hs; [done..| |].
  - intros n Hn. rewrite Hparts by done. simpl. by rewrite app_nil_r.
  - destruct (decide (p = length reqs)) as [->|Hne]; [symmetry; apply touched_full; lia|].
    destruct (lookup_lt_is_Some_2 reqs p) as [req Hreq]; [lia|]. rewrite <-Nat.add_1_r.
    rewrite (touched_run p 1 home); [by rewrite add_unique_in by apply touched_home|lia..|].
    rewrite (drop_S reqs req p Hreq). simpl. constructor; [by apply Ho|constructor].
Qed.

Definition togo (p : nat) (waited : bool) : nat := (2 * (length reqs - p) - if waited then 1 else 0)%nat.

Lemma after_home p req t parts : at_pos p true t parts → reqs !! p = Some req → owner c req = home →
  ∃ t', (∀ fuel, run_loop c home true (S fuel) (ans home) t = run_loop c home true fuel (ans home) t') ∧
    at_pos (S p) false t' parts.
Proof.
  intros [Hlen Hw (st&->&Hst) Hparts] Hreq Ho. pose proof (lookup_lt_Some _ _ _ Hreq) as Hlt. rewrite (Hst Hlt).
  rewrite Forall_forall in Hok. eexists. split.
  - intros fuel. apply (loop_waited _ _ _ _ _ _ _ _ _ req); [done|]. apply Hok. by eapply list_elem_of_lookup_2.
  - assert (touched (S p) = touched p) as Ht.
    { rewrite <-Nat.add_1_r, (touched_run p 1 home); [by rewrite add_unique_in by apply touched_home|lia..|].
      rewrite (drop_S reqs req p Hreq). simpl. by constructor. }
    split; [lia|done| |].
    + eexists. split; [unfold after_req; rewrite Ht, (take_S_r reqs p req), requests_of_app by done;
        unfold requests_of at 3; by rewrite filter_cons_True by done|].
      intros Hl. rewrite bool_decide_false by lia. done.
    + intros n Hn. rewrite Hparts, (take_S_r reqs p req), requests_of_app by done.
      rewrite (requests_of_none n [req]); [by rewrite app_nil_r|]. constructor; [congruence|constructor].
Qed.

(** From here on, with enough fuel, the query is run. *)
Definition runs (m : nat) : Prop := ∀ p waited fl f t parts, m = togo p waited → at_pos p waited t parts →
  (m < fl)%nat → (m < f)%nat →
  ∃ r, (run_loop c home true fl (ans home) t ≫= cont f parts) = Some r ∧ final p r.

#[local] Abbreviation here p waited := (at_req reqs p waited (touched p) (requests_of c home (take p reqs))).

Lemma home_request p req parts fl f : (∀ m, (m < togo p false)%nat → runs m) → at_pos p false (here p false) parts →
  reqs !! p = Some req → owner c req = home → (togo p false < S fl)%nat → (togo p false < S f)%nat →
  ∃ r, (run_loop c home true (S fl) (ans home) (here p false) ≫= cont (S f) parts) = Some r ∧ final p r.
Proof.
  intros IH Hp Hreq Ho Hfl Hf. pose proof (lookup_lt_Some _ _ _ Hreq) as Hlt.
  assert (ans home p ≠ Abort → at_pos p true (here p true) parts) as Hp'.
  { intros Ha. destruct Hp. split; [done|by exists req| |done]. by eexists. }
  rewrite (loop_request _ _ _ _ _ _ _ _ _ req) by done. case_bool_decide as Hrc.
  - apply (IH (togo p true) ltac:(unfold togo; lia) p true); [done|apply Hp'; congruence|unfold togo in *; lia..].
  - destruct (Hans home p) as [?|[Hwt|Hab]]; [done|..].
    + rewrite Hwt. cbn [mbind option_bind cont pred]. unfold run_txn_post_wait, next_ycsb_state. cbn [at_req y_state mbind option_bind].
      destruct f as [|f]; [unfold togo in *; lia|]. rewrite exec_unfold by apply touched_home.
      apply (IH (togo p true) ltac:(unfold togo; lia) p true); [done|apply Hp'; congruence|unfold togo in *; lia..].
    + rewrite Hab. cbn [mbind option_bind cont]. eexists. split; [done|].
      apply final_here; [done|by rewrite (stop_home p req), decide_True by done|by rewrite decide_False by lia|].
      intros req' Hreq'. congruence.
Qed.

Lemma remote_pos p k n t parts : n ≠ home → (p + k ≤ length reqs)%nat → at_pos p false t parts →
  Forall (λ r, owner c r = n) (take k (drop p reqs)) →
  at_pos (p + k) false (here (p + k) false)
    (<[n := served (requests_of c n (take p reqs)) (take k (drop p reqs)) k]> parts).
Proof.
  intros Hn Hle [_ _ _ Hparts] Hf. split; [done|done|by eexists|]. intros n' Hn'.
  rewrite <-take_take_drop, requests_of_app. destruct (decide (n' = n)) as [->|Hne].
  - rewrite fn_lookup_insert, (requests_of_all n (take k (drop p reqs))) by done.
    rewrite <-served_all. f_equal. rewrite length_take, length_drop. lia.
  - rewrite fn_lookup_insert_ne, Hparts by done. rewrite (requests_of_none n' (take k _)); [by rewrite app_nil_r|].
    eapply Forall_impl; [exact Hf|]. simpl. congruence.
Qed.

(** Another node refuses request [a] of the message. *)
Lemma remote_refused p k a n t parts : n ≠ home → (p + k ≤ length reqs)%nat → (a < k)%nat → at_pos p false t parts →
  Forall (λ r, owner c r = n) (take k (drop p reqs)) → stop p = (p + a)%nat →
  final p (Abort, here (p + k) false,
    <[n := served (requests_of c n (take p reqs)) (take k (drop p reqs)) a]> parts).
Proof.
  intros Hn Hle Ha [_ _ _ Hparts] Hf Hs.
  assert (take a (take k (drop p reqs)) = take a (drop p reqs)) as Htk by (rewrite take_take; f_equal; lia).
  assert (Forall (λ r, owner c r = n) (take a (drop p reqs))) as Hfa by (rewrite <-Htk; by apply Forall_take).
  assert (∀ j, (0 < j)%nat → (j ≤ k)%nat → touched (p + j) = TwoPC.add_unique n (touched p)) as Ht.
  { intros j Hj Hjk. apply touched_run; [done|lia|]. replace (take j (drop p reqs)) with (take j (take k (drop p reqs)))
      by (rewrite take_take; f_equal; lia). by apply Forall_take. }
  split; simpl; rewrite Hs.
  - by rewrite decide_False by lia.
  - rewrite <-!take_take_drop, !requests_of_app, !(requests_of_none home (take _ (drop p reqs))); [done|..];
      (eapply Forall_impl; [eassumption|]; simpl; congruence).
  - intros n' Hn'. rewrite <-take_take_drop, requests_of_app. destruct (decide (n' = n)) as [->|Hne].
    + rewrite fn_lookup_insert, (requests_of_all n (take a _)) by done. simpl. by rewrite Htk.
    + rewrite fn_lookup_insert_ne, Hparts by done. rewrite (requests_of_none n' (take a _)); [done|].
      eapply Forall_impl; [exact Hfa|]. simpl. congruence.
  - rewrite Ht by lia. rewrite <-Nat.add_succ_r. symmetry. apply Ht; lia.
Qed.

Lemma home_remote p req parts fl f : (∀ m, (m < togo p false)%nat → runs m) → at_pos p false (here p false) parts →
  reqs !! p = Some req → owner c req ≠ home → (togo p false < S fl)%nat → (togo p false < S f)%nat →
  ∃ r, (run_loop c home true (S fl) (ans home) (here p false) ≫= cont (S f) parts) = Some r ∧ final p r.
Proof.
  intros IH Hp Hreq Ho Hfl Hf. set (n := owner c req) in *.
  destruct (send_spec p req parts fl Hp Hreq Ho) as (k&Hk&Hle&Hown&->). cbn [mbind option_bind cont]. fold n.
  set (l := take k (drop p reqs)) in *. set (done := requests_of c n (take p reqs)).
  assert (length l = k) as Hl by (unfold l; rewrite length_take, length_drop; lia).
  rewrite (ap_parts _ _ _ _ Hp n Ho). fold done. pose proof (stop_run n Ho k p Hle Hown) as Hst. cbv zeta in Hst.
  fold l done in Hst. pose proof (accepted_le (ans n) (length done) l) as Hacc.
  assert (length done + length l ≤ g_req_per_query)%nat as Hfit.
  { trans (length reqs); [|done]. rewrite <-(take_drop p reqs), length_app. unfold done, l.
    pose proof (length_filter (λ r, owner c r = n) (take p reqs)). rewrite length_take. unfold requests_of. lia. }
  assert (Forall (λ r, owner c r = n ∧ req_ok r) l) as Hlok.
  { apply Forall_forall. intros r Hr. rewrite Forall_forall in Hown, Hok. split; [by apply Hown|]. apply Hok.
    apply elem_of_take in Hr as (i&Hr&_). rewrite lookup_drop in Hr. by eapply list_elem_of_lookup_2. }
  pose proof (serve_spec c ans n (Hans n) done l Hlok g_req_per_query (S f)
    ltac:(rewrite Hl; unfold togo in *; lia) Hfit) as Hsv.
  destruct (append g_req_per_query l (served done [] 0)) as [q|]; [|done].
  cbn [mbind option_bind] in Hsv |- *. rewrite Hsv.
  cbn [mbind option_bind]. unfold goal_of. rewrite !drop_0, !Nat.add_0_r, !Nat.add_0_l, Hl.
  destruct (decide (accepted (ans n) (length done) l = k)) as [Heq|Hne].
  - rewrite bool_decide_false by done. rewrite Heq. cbn [pred]. destruct f as [|f]; [unfold togo in *; lia|].
    rewrite exec_unfold by apply touched_home.
    destruct (IH (togo (p + k) false) ltac:(unfold togo; lia) (p + k)%nat false (S f) (S f)
      (here (p + k) false) (<[n := served done l k]> parts) eq_refl) as (r&->&Hr).
    + by eapply remote_pos.
    + unfold togo in *. lia.
    + unfold togo in *. lia.
    + exists r. split; [done|]. by eapply final_step.
  - rewrite bool_decide_true by done. eexists. split; [done|]. eapply remote_refused; [done..|lia|done|done|done].
Qed.

Lemma home_run m : runs m.
Proof.
  induction (lt_wf m) as [m _ IH]. intros p waited fl f t parts -> Hp Hfl Hf.
  destruct fl as [|fl]; [lia|]. destruct f as [|f]; [lia|]. pose proof (ap_len _ _ _ _ Hp) as Hlen.
  destruct (decide (p = length reqs)) as [Heq|Hne].
  { destruct waited; [destruct (ap_waited _ _ _ _ Hp eq_refl) as (req&Hr&_); apply lookup_lt_Some in Hr; lia|].
    pose proof (ap_home _ _ _ _ Hp) as (st&Ht&_).
    rewrite loop_done by (by rewrite Ht). eexists. split; [done|]. apply final_here; [done| |by rewrite decide_True|].
    - unfold stop. rewrite drop_ge by lia. simpl. lia.
    - intros req Hr%lookup_lt_Some. lia. }
  destruct (lookup_lt_is_Some_2 reqs p) as [req Hreq]; [lia|]. destruct waited.
  - destruct (ap_waited _ _ _ _ Hp eq_refl) as (req'&Hreq'&Ho&Ha). rewrite Hreq in Hreq'. injection Hreq' as <-.
    destruct (after_home p req t parts Hp Hreq Ho) as (t'&->&Hp').
    destruct (IH (togo (S p) false) ltac:(unfold togo; lia) (S p) false fl (S f) t' parts eq_refl Hp') as (r&->&Hr);
      [unfold togo in *; lia..|]. exists r. split; [done|]. eapply final_step; [|done].
    rewrite (stop_home p req) by done. by rewrite decide_False.
  - pose proof Hp as [_ _ (st&Ht&Hst) Hparts]. rewrite (Hst ltac:(lia)) in Ht. subst t.
    destruct (decide (owner c req = home)) as [Ho|Ho].
    + by eapply (home_request p req).
    + by eapply (home_remote p req).
Qed.

Lemma granted_prefix l : ∀ q, take (length (granted c home ans reqs q l)) l = granted c home ans reqs q l.
Proof. induction l as [|r l IH]; intros q; [done|]. cbn [granted]. case_decide; [done|]. simpl. by rewrite IH. Qed.

Lemma granted_take p : take (stop p) reqs = take p reqs ++ granted c home ans reqs p (drop p reqs).
Proof.
  unfold stop. by rewrite <-take_take_drop, granted_prefix.
Qed.

(** The first [run_txn] of the query. *)
Lemma query_run fuel : (2 * length reqs < fuel)%nat → ∃ r, run_query c home ans g_req_per_query fuel reqs = Some r ∧ final 0 r.
Proof.
  intros Hf. destruct fuel as [|fuel]; [lia|]. unfold run_query.
  destruct (home_run (togo 0 false) 0%nat false (S fuel) (S fuel) (at_req reqs 0 false [home] []) (λ _, start_txn []))
    as (r&Hr&Hfin); [done| |unfold togo; lia..|].
  - split; [lia|done| |done]. by eexists.
  - exists r. split; [|done]. rewrite <-Hr. cbn [exec]. unfold run_txn. cbn [start_txn y_state next_record_id andb].
    rewrite !bool_decide_true by done. unfold touch. cbn. by destruct (run_loop _ _ _ _ _ _) as [[[rc t] out]|].
Qed.

End home.

(** ** The query as a whole *)

(** Locality and the destination of messages agree when the nodes have equally many
    partitions. *)
Lemma route_agree c req : (0 < g_node_cnt c)%nat → 0 < g_part_cnt c →
  (Z.of_nat (g_node_cnt c) | g_part_cnt c) → dest_node c req = owner c req.
Proof.
  intros Hn Hp Hd. unfold dest_node, owner, GET_NODE_ID, key_to_part. symmetry. by apply Z.mod_mod_divide.
Qed.

(** C11: when the number of nodes divides the number of partitions (otherwise requests go
    to nodes that do not have their rows, [ycsb_route_fails]) and the query has no more
    requests than [g_req_per_query], a query of reads, scans and writes that runs on all its nodes
    by state machines, remote messages and waits is the query executed request by request,
    each on the node of its row.  Whatever the concurrency control answers, with as much fuel as two steps for each request the
    execution ends; it commits exactly if no request is refused, and otherwise aborts at
    the first refused one; every node has executed its part of the requests before that
    one, each once and in the order of the query; and the nodes that will take part in the
    commit are the home node and the nodes of these requests and the refused one. *)
Theorem ycsb_query_exact c home ans g_req_per_query reqs fuel :
  (0 < g_node_cnt c)%nat → 0 < g_part_cnt c → (Z.of_nat (g_node_cnt c) | g_part_cnt c) →
  (∀ n i, row_answer (ans n i)) → Forall req_ok reqs →
  (length reqs ≤ g_req_per_query)%nat → (2 * length reqs < fuel)%nat →
  let ok := granted c home ans reqs 0 reqs in
  ∃ rc t parts, run_query c home ans g_req_per_query fuel reqs = Some (rc, t, parts) ∧
    rc = (if decide (length ok = length reqs) then RCOK else Abort) ∧
    y_log t = requests_of c home ok ∧
    (∀ n, n ≠ home → y_log (parts n) = requests_of c n ok) ∧
    partitions_touched t = foldl (λ s r, TwoPC.add_unique (owner c r) s) [home] (take (S (length ok)) reqs).
Proof.
  intros Hn Hp Hd Hans Hok Hcap Hf ok.
  destruct (query_run c home ans g_req_per_query reqs Hans Hok (λ req, route_agree c req Hn Hp Hd) Hcap fuel Hf)
    as ([[rc t] parts]&Hr&[H1 H2 H3 H4]).
  pose proof (granted_take c home ans reqs 0%nat) as Hg. rewrite take_0, drop_0 in Hg. simpl in Hg. fold ok in Hg.
  rewrite Hg in H2, H3. exists rc, t, parts. split; [exact Hr|]. split; [exact H1|]. by split; [exact H2|].
Qed.

(** Two nodes; node 0 runs a query with rows of both, and the second request of node 1
    waits. *)
Lemma ycsb_query_exact_witness :
  let c := mkCfg 2 1 4 100 in
  let reqs := [mkReq RD 0; mkReq WR 1; mkReq RD 3; mkReq WR 2] in
  let ans := λ n i, if bool_decide (n = 1 ∧ i = 1%nat) then WAIT else RCOK in
  granted c 0 ans reqs 0 reqs = reqs ∧ requests_of c 1 reqs = [mkReq WR 1; mkReq RD 3] ∧
  ∃ rc t parts, run_query c 0 ans 10 10 reqs = Some (rc, t, parts) ∧ rc = RCOK.
Proof.
  intros c reqs ans. split; [by vm_compute|]. split; [by vm_compute|].
  destruct (ycsb_query_exact c 0 ans 10 reqs 10) as (rc&t&parts&Hr&Hrc&_).
  - simpl. lia.
  - simpl. lia.
  - exists 2. reflexivity.
  - intros n i. unfold row_answer, ans. case_bool_decide; auto.
  - unfold reqs, req_ok. repeat (apply Forall_cons; split; [simpl; auto|]). constructor.
  - simpl. lia.
  - simpl. lia.
  - exists rc, t, parts. split; [exact Hr|]. rewrite Hrc. by vm_compute.
Defined.

(** With four partitions on three nodes the message for a row that another node has is
    addressed to the sender: the query of node 1 for key 4 fails at the assertion. *)
Lemma ycsb_route_fails : run_query (mkCfg 3 1 4 100) 1 (λ _ _, RCOK) 10 10 [mkReq RD 4] = None.
Proof. by vm_compute. Qed.

End YcsbTxn.
