(* ===== verification/Catalog.v ===== *)
(** * Catalog: table schemas and the typed access to rows

    Model of [Catalog] (storage/catalog.cpp) and of the accessors of [row_t]
    (storage/row.cpp): a schema is a list of columns with offsets into the tuple, and a
    row is a block of bytes that [set_value] and [get_value] cut at these offsets.  The
    copies are not checked in the code; an access outside the block, outside the columns
    or past the end of the copied value is [None].  The reference is a record with one
    value per column. *)

From Stdlib Require Import Ascii.
From stdpp Require Import strings.
From S2P Require Import Prelude Codec.

Module Catalog.
Import Codec.

Definition cstr : Type := list ascii.

Record Column := mkCol { c_id : Z; c_size : Z; c_index : Z; c_type : cstr; c_name : cstr }.

(** A [const char *]: the C string it points to, or [None] if the string is gone. *)
Definition char_ptr : Type := option cstr.

(** [capacity] is the length of the array [_columns], of which the first [field_cnt] are
    set. *)
Record Catalog := mkCat {
  table_name : char_ptr;
  table_id : Z;
  capacity : nat;
  columns : list Column;
  tuple_size : Z }.

#[export] Instance Column_eq_dec : EqDecision Column.
Proof. solve_decision. Defined.
#[export] Instance Catalog_eq_dec : EqDecision Catalog.
Proof. solve_decision. Defined.

Definition field_cnt (s : Catalog) : Z := zlen (columns s).

Definition init (table_name : char_ptr) (table_id : Z) (field_cnt : nat) : Catalog :=
  mkCat table_name table_id field_cnt [] 0.

(** The length of the buffers for names. *)
Definition name_len : nat := 80.

Definition add_col (col_name : cstr) (size : Z) (type : cstr) (s : Catalog) : option Catalog :=
  ASSERT bool_decide (length (columns s) < capacity s)%nat;
  ASSERT bool_decide (length type < name_len)%nat;
  ASSERT bool_decide (length col_name < name_len)%nat;
  Some (mkCat (table_name s) (table_id s) (capacity s)
    (columns s ++ [mkCol (field_cnt s) (wrap32 size) (tuple_size s) type col_name])
    (wrap32 (tuple_size s + size))).

Fixpoint find_name (name : cstr) (l : list Column) : nat :=
  match l with
  | [] => 0
  | c :: l => if bool_decide (name = c_name c) then 0 else S (find_name name l)
  end.
Definition get_field_id (s : Catalog) (name : cstr) : option nat :=
  let i := find_name name (columns s) in
  ASSERT bool_decide (i < length (columns s))%nat;
  Some i.

(** [int] from [uint32_t], as a size or an index *)
Definition to_int (z : Z) : option nat := ASSERT (z <? 2 ^ 31); Some (Z.to_nat z).

Definition get_field_size (s : Catalog) (id : nat) : option nat := c ← columns s !! id; to_int (c_size c).
Definition get_field_index (s : Catalog) (id : nat) : option nat := c ← columns s !! id; to_int (c_index c).

(** ** Rows *)

Record row_t := mkRow { schema : Catalog; data : list Z }.

Definition memcpy (dst : list Z) (pos : nat) (src : list Z) (size : nat) : option (list Z) :=
  ASSERT bool_decide (size ≤ length src)%nat;
  ASSERT bool_decide (pos + size ≤ length dst)%nat;
  Some (splice dst pos (take size src)).

(** [alloc n] is the block of [n] bytes that the allocator returns. *)
Definition row_init (alloc : nat → list Z) (s : Catalog) : option row_t :=
  n ← to_int (tuple_size s); Some (mkRow s (alloc n)).

Definition set_value (id : nat) (ptr : list Z) (r : row_t) : option row_t :=
  datasize ← get_field_size (schema r) id;
  pos ← get_field_index (schema r) id;
  d ← memcpy (data r) pos ptr datasize;
  Some (mkRow (schema r) d).

Definition set_value_sized (id : nat) (ptr : list Z) (size : nat) (r : row_t) : option row_t :=
  pos ← get_field_index (schema r) id;
  d ← memcpy (data r) pos ptr size;
  Some (mkRow (schema r) d).

Definition set_value_name (col_name : cstr) (ptr : list Z) (r : row_t) : option row_t :=
  id ← get_field_id (schema r) col_name; set_value id ptr r.

(** [SET_VALUE] and [GET_VALUE] for an integer type of [n] bytes *)
Definition SET_VALUE (n : nat) (col_id : nat) (value : Z) (r : row_t) : option row_t :=
  set_value col_id (le_bytes n value) r.
Definition GET_VALUE (n : nat) (col_id : nat) (r : row_t) : option Z :=
  pos ← get_field_index (schema r) col_id;
  ASSERT bool_decide (pos + n ≤ length (data r))%nat;
  Some (le_val (take n (drop pos (data r)))).

(** The pointer [&data[pos]]: the bytes from there on. *)
Definition get_value (id : nat) (r : row_t) : option (list Z) :=
  pos ← get_field_index (schema r) id; Some (drop pos (data r)).

Definition set_data (src : list Z) (r : row_t) : option row_t :=
  n ← to_int (tuple_size (schema r));
  d ← memcpy (data r) 0 src n;
  Some (mkRow (schema r) d).

Definition copy (src r : row_t) : option row_t :=
  ASSERT bool_decide (schema src = schema r); set_data (data src) r.

(** The calls that change a row. *)
Inductive call :=
  | SetValue (id : nat) (ptr : list Z)
  | SetSized (id : nat) (ptr : list Z) (size : nat)
  | SetName (col_name : cstr) (ptr : list Z)
  | SetInt (n id : nat) (value : Z)
  | SetData (src : list Z)
  | Copy (src : row_t).

Definition run_call (c : call) : row_t → option row_t :=
  match c with
  | SetValue id ptr => set_value id ptr
  | SetSized id ptr size => set_value_sized id ptr size
  | SetName col_name ptr => set_value_name col_name ptr
  | SetInt n id value => SET_VALUE n id value
  | SetData src => set_data src
  | Copy src => copy src
  end.
Fixpoint run_calls (l : list call) (r : row_t) : option row_t :=
  match l with [] => Some r | c :: l => r ← run_call c r; run_calls l r end.

(** ** The reference: a record with a value for every column *)

Definition size_of (c : Column) : nat := Z.to_nat (c_size c).
Definition total (l : list Column) : nat := sum_list (size_of <$> l).

Fixpoint split_fields (l : list Column) (d : list Z) : list (list Z) :=
  match l with [] => [] | c :: l => take (size_of c) d :: split_fields l (drop (size_of c) d) end.
Definition fields (r : row_t) : list (list Z) := split_fields (columns (schema r)) (data r).

(** The first [n] bytes of the old value are replaced. *)
Definition overwrite (bs old : list Z) : list Z := bs ++ drop (length bs) old.

Definition spec_call (s : Catalog) (fs : list (list Z)) (c : call) : list (list Z) :=
  let size id := default 0%nat (size_of <$> columns s !! id) in
  match c with
  | SetValue id ptr => <[id := take (size id) ptr]> fs
  | SetSized id ptr n => <[id := overwrite (take n ptr) (fs !!! id)]> fs
  | SetName name ptr => let id := find_name name (columns s) in <[id := take (size id) ptr]> fs
  | SetInt n id value => <[id := take (size id) (le_bytes n value)]> fs
  | SetData src => split_fields (columns s) src
  | Copy src => fields src
  end.

(** ** Typing *)

Record schema_ok (s : Catalog) : Prop := {
  so_tuple : tuple_size s = Z.of_nat (total (columns s));
  so_small : Z.of_nat (total (columns s)) < 2 ^ 31;
  so_cols : ∀ i c, columns s !! i = Some c →
    c_id c = Z.of_nat i ∧ c_index c = Z.of_nat (total (take i (columns s))) ∧ 0 ≤ c_size c;
  so_cap : (length (columns s) ≤ capacity s)%nat }.

Record row_ok (r : row_t) : Prop := {
  ro_schema : schema_ok (schema r);
  ro_data : length (data r) = total (columns (schema r)) }.

(** A call that fits the schema. *)
Definition call_ok (s : Catalog) (c : call) : Prop :=
  match c with
  | SetValue id ptr => ∃ col, columns s !! id = Some col ∧ (size_of col ≤ length ptr)%nat
  | SetSized id ptr n => ∃ col, columns s !! id = Some col ∧ (n ≤ size_of col)%nat ∧ (n ≤ length ptr)%nat
  | SetName name ptr => ∃ col, columns s !! find_name name (columns s) = Some col ∧ (size_of col ≤ length ptr)%nat
  | SetInt n id _ => ∃ col, columns s !! id = Some col ∧ (size_of col ≤ n)%nat
  | SetData src => (total (columns s) ≤ length src)%nat
  | Copy src => row_ok src ∧ schema src = s
  end.

(** ** Cutting a tuple into fields *)

Definition shape (l : list Column) (fs : list (list Z)) : Prop := Forall2 (λ c f, length f = size_of c) l fs.

Lemma total_cons c l : total (c :: l) = (size_of c + total l)%nat.
Proof. done. Qed.

Lemma total_app l l' : total (l ++ l') = (total l + total l')%nat.
Proof. induction l as [|c l IH]; [done|]. rewrite <-app_comm_cons, !total_cons, IH. lia. Qed.

Lemma split_shape l d : (total l ≤ length d)%nat → shape l (split_fields l d).
Proof.
  revert d. induction l as [|c l IH]; intros d Hd; [constructor|]. rewrite total_cons in Hd. constructor.
  - rewrite length_take. lia.
  - apply IH. rewrite length_drop. lia.
Qed.

Lemma split_concat l d : total l = length d → concat (split_fields l d) = d.
Proof.
  revert d. induction l as [|c l IH]; intros d Hd; simpl.
  - symmetry in Hd. by apply nil_length_inv in Hd.
  - rewrite total_cons in Hd. rewrite IH, take_drop; [done|]. rewrite length_drop. lia.
Qed.

Lemma split_of_concat l fs rest : shape l fs → split_fields l (concat fs ++ rest) = fs.
Proof.
  induction 1 as [|c f l fs Hf _ IH]; [done|]. simpl. by rewrite <-Hf, <-app_assoc, take_app_length, drop_app_length, IH.
Qed.

Lemma shape_total l fs : shape l fs → length (concat fs) = total l.
Proof. induction 1 as [|c f l fs Hf _ IH]; [done|]. simpl. by rewrite length_app, IH, Hf. Qed.

(** Field [i] in the tuple. *)
Lemma concat_field l fs i f : shape l fs → fs !! i = Some f →
  concat fs = concat (take i fs) ++ f ++ concat (drop (S i) fs) ∧ length (concat (take i fs)) = total (take i l).
Proof.
  intros Hs Hf. split.
  - rewrite <-(take_drop_middle fs i f Hf) at 1. by rewrite concat_app.
  - apply shape_total. by apply Forall2_take.
Qed.

Lemma splice_field l fs i c f bs : shape l fs → l !! i = Some c → fs !! i = Some f → (length bs ≤ size_of c)%nat →
  splice (concat fs) (total (take i l)) bs = concat (<[i := overwrite bs f]> fs) ∧
  shape l (<[i := overwrite bs f]> fs).
Proof.
  intros Hs Hc Hf Hb. pose proof (Forall2_lookup_lr _ _ _ _ _ _ Hs Hc Hf) as Hlen. simpl in Hlen. split.
  - destruct (concat_field l fs i f Hs Hf) as [-> <-]. rewrite insert_take_drop by (by eapply lookup_lt_Some).
    rewrite concat_app. simpl. unfold overwrite. rewrite <-(take_drop (length bs) f) at 1.
    rewrite <-!app_assoc. apply splice_app. rewrite length_take. lia.
  - rewrite <-(list_insert_id l i c Hc). apply Forall2_insert; [done|]. unfold overwrite.
    rewrite length_app, length_drop. lia.
Qed.

Section row.
Context (r : row_t) (Hr : row_ok r).

Lemma fields_shape : shape (columns (schema r)) (fields r).
Proof. apply split_shape. rewrite (ro_data _ Hr). done. Qed.

Lemma data_fields : data r = concat (fields r).
Proof. symmetry. apply split_concat. by rewrite (ro_data _ Hr). Qed.

Lemma row_of_fields fs : shape (columns (schema r)) fs →
  row_ok (mkRow (schema r) (concat fs)) ∧ fields (mkRow (schema r) (concat fs)) = fs.
Proof.
  intros Hs. split; [split; simpl; [apply Hr|by apply shape_total]|].
  unfold fields. simpl. rewrite <-(app_nil_r (concat fs)). by apply split_of_concat.
Qed.

Lemma field_at id c : columns (schema r) !! id = Some c →
  ∃ f, fields r !! id = Some f ∧ length f = size_of c ∧ get_field_size (schema r) id = Some (size_of c) ∧
    get_field_index (schema r) id = Some (total (take id (columns (schema r)))) ∧
    (total (take id (columns (schema r))) + size_of c ≤ length (data r))%nat.
Proof.
  intros Hc. destruct (so_cols _ (ro_schema _ Hr) id c Hc) as (_&Hidx&H0).
  destruct (Forall2_lookup_l _ _ _ _ _ fields_shape Hc) as (f&Hf&Hlen). exists f.
  pose proof (so_small _ (ro_schema _ Hr)) as Hsm.
  assert (total (columns (schema r)) = total (take id (columns (schema r))) + (size_of c +
    total (drop (S id) (columns (schema r)))))%nat as Htot.
  { rewrite <-(take_drop_middle _ _ _ Hc) at 1. rewrite total_app. done. }
  split_and!; [done|done|..].
  - unfold get_field_size, to_int. rewrite Hc. simpl. rewrite assert_bind_true; [done|].
    apply Z.ltb_lt. unfold size_of in Htot. lia.
  - unfold get_field_index, to_int. rewrite Hc. simpl. rewrite assert_bind_true; [by rewrite Hidx, Nat2Z.id|].
    apply Z.ltb_lt. lia.
  - rewrite (ro_data _ Hr). lia.
Qed.

(** Any copy of at most the size of a column. *)
Lemma memcpy_field id c f ptr n : columns (schema r) !! id = Some c → fields r !! id = Some f →
  (n ≤ size_of c)%nat → (n ≤ length ptr)%nat →
  ∃ d, memcpy (data r) (total (take id (columns (schema r)))) ptr n = Some d ∧
    row_ok (mkRow (schema r) d) ∧ fields (mkRow (schema r) d) = <[id := overwrite (take n ptr) f]> (fields r).
Proof.
  intros Hc Hf Hn Hp. destruct (field_at id c Hc) as (f'&_&_&_&_&Hle). unfold memcpy.
  rewrite !assert_bind_true by (apply bool_decide_eq_true; lia). eexists. split; [done|].
  destruct (splice_field _ (fields r) id c f (take n ptr) fields_shape Hc Hf) as [Hsp Hsh]; [rewrite length_take; lia|].
  rewrite data_fields, Hsp. by apply row_of_fields.
Qed.

Lemma overwrite_all bs f : length bs = length f → overwrite bs f = bs.
Proof. intros Hl. unfold overwrite. by rewrite Hl, drop_ge, app_nil_r by lia. Qed.

Lemma set_value_ok id c ptr : columns (schema r) !! id = Some c → (size_of c ≤ length ptr)%nat →
  ∃ r', set_value id ptr r = Some r' ∧ row_ok r' ∧ schema r' = schema r ∧
    fields r' = <[id := take (size_of c) ptr]> (fields r).
Proof.
  intros Hc Hp. destruct (field_at id c Hc) as (f&Hf&Hlen&Hsz&Hix&_).
  destruct (memcpy_field id c f ptr (size_of c) Hc Hf) as (d&Hd&Hok&Hfs); [lia|done|].
  unfold set_value. rewrite Hsz, Hix. cbn [mbind option_bind]. rewrite Hd. eexists. split; [done|].
  split; [done|]. split; [done|]. rewrite Hfs, overwrite_all; [done|]. rewrite length_take. lia.
Qed.

Lemma set_data_ok src : (total (columns (schema r)) ≤ length src)%nat →
  ∃ r', set_data src r = Some r' ∧ row_ok r' ∧ schema r' = schema r ∧
    fields r' = split_fields (columns (schema r)) src.
Proof.
  intros Hl. unfold set_data, to_int, memcpy. destruct (ro_schema _ Hr) as [Ht Hsm _ _]. rewrite Ht.
  rewrite assert_bind_true by lia. cbn [mbind option_bind]. rewrite Nat2Z.id.
  rewrite !assert_bind_true by (apply bool_decide_eq_true; rewrite ?(ro_data _ Hr); lia). eexists. split; [done|].
  set (n := total (columns (schema r))) in *.
  assert (splice (data r) 0 (take n src) = concat (split_fields (columns (schema r)) src)) as ->.
  { unfold splice. rewrite drop_ge, app_nil_r by (rewrite length_take, (ro_data _ Hr); fold n; lia). simpl.
    rewrite <-(split_concat (columns (schema r)) (take n src)) by (rewrite length_take; fold n; lia).
    f_equal. rewrite <-(take_drop n src) at 2.
    rewrite <-(split_concat (columns (schema r)) (take n src)) at 2 by (rewrite length_take; fold n; lia).
    symmetry. apply split_of_concat, split_shape. rewrite length_take. fold n. lia. }
  destruct (row_of_fields (split_fields (columns (schema r)) src)) as [Hok Hfs]; [by apply split_shape|]. done.
Qed.

(** One call. *)
Lemma call_typed c : call_ok (schema r) c → ∃ r', run_call c r = Some r' ∧ row_ok r' ∧ schema r' = schema r ∧
  fields r' = spec_call (schema r) (fields r) c.
Proof.
  intros Hc. destruct c as [id ptr|id ptr n|name ptr|n id v|src|src]; cbn [run_call spec_call call_ok] in *.
  - destruct Hc as (col&Hcol&Hl). rewrite Hcol. by apply set_value_ok.
  - destruct Hc as (col&Hcol&Hn&Hl). destruct (field_at id col Hcol) as (f&Hf&_&_&Hix&_).
    destruct (memcpy_field id col f ptr n Hcol Hf Hn Hl) as (d&Hd&Hok&Hfs).
    unfold set_value_sized. rewrite Hix. cbn [mbind option_bind]. rewrite Hd. eexists. split; [done|].
    split; [done|]. split; [done|]. by rewrite Hfs, (list_lookup_total_correct _ _ _ Hf).
  - destruct Hc as (col&Hcol&Hl). unfold set_value_name, get_field_id.
    rewrite assert_bind_true by (apply bool_decide_eq_true; by eapply lookup_lt_Some).
    cbn [mbind option_bind]. rewrite Hcol. by apply set_value_ok.
  - destruct Hc as (col&Hcol&Hl). rewrite Hcol. apply set_value_ok; [done|]. by rewrite le_bytes_length.
  - by apply set_data_ok.
  - destruct Hc as [Hok Hs]. unfold copy. rewrite assert_bind_true by (by apply bool_decide_eq_true).
    unfold fields. rewrite Hs. apply set_data_ok. rewrite (ro_data _ Hok), Hs. lia.
Qed.

Lemma get_value_typed n id c : columns (schema r) !! id = Some c → (n ≤ size_of c)%nat →
  GET_VALUE n id r = Some (le_val (take n (fields r !!! id))) ∧
  (take (size_of c) <$> get_value id r) = Some (fields r !!! id).
Proof.
  intros Hc Hn. destruct (field_at id c Hc) as (f&Hf&Hlen&_&Hix&Hle).
  rewrite (list_lookup_total_correct _ _ _ Hf). unfold GET_VALUE, get_value. rewrite Hix. cbn [mbind option_bind].
  rewrite assert_bind_true by (apply bool_decide_eq_true; lia).
  destruct (concat_field _ _ id f fields_shape Hf) as [Hcat Hpos].
  assert (drop (total (take id (columns (schema r)))) (data r) = f ++ concat (drop (S id) (fields r))) as ->.
  { by rewrite data_fields, Hcat, <-Hpos, drop_app_length. }
  rewrite take_app_le by lia. split; [done|]. simpl. by rewrite <-Hlen, take_app_length.
Qed.

End row.

(** ** Building a schema *)

Lemma catalog_init_ok name id n : schema_ok (init name id n).
Proof. split; simpl; [done|done| |lia]. intros i c Hc. by rewrite lookup_nil in Hc. Qed.

Lemma add_col_ok s name size type : schema_ok s → (length (columns s) < capacity s)%nat →
  (length type < name_len)%nat → (length name < name_len)%nat → 0 ≤ size →
  Z.of_nat (total (columns s)) + size < 2 ^ 31 →
  ∃ s', add_col name size type s = Some s' ∧ schema_ok s' ∧ table_id s' = table_id s ∧ capacity s' = capacity s ∧
    columns s' = columns s ++ [mkCol (field_cnt s) size (tuple_size s) type name].
Proof.
  intros [Ht Hsm Hcols Hcap] Hc Hty Hnm H0 Hlt. unfold add_col.
  rewrite !assert_bind_true by (by apply bool_decide_eq_true). eexists. split; [done|].
  rewrite !wrap32_small by (unfold is_u32, u32_mod; lia). split; [|done].
  assert (total (columns s ++ [mkCol (field_cnt s) size (tuple_size s) type name]) =
    total (columns s) + Z.to_nat size)%nat as Htot by (rewrite total_app, total_cons; unfold size_of, total; simpl; lia).
  split; cbn [columns tuple_size capacity]; rewrite ?Htot; [lia|lia| |rewrite length_app; simpl; lia].
  intros i c [Hi|[-> Hi]]%lookup_snoc_Some.
  - destruct Hi as [Hi Hl]. rewrite take_app_le by lia. by apply Hcols.
  - subst c. simpl. rewrite take_app_length. unfold field_cnt. by split_and!.
Qed.

(** C34: the accessors of a row are type safe.  On a new row of a well-formed schema, with
    any content of the allocated block, every sequence of calls that fit the schema (the
    column exists, the copied value is long enough, a sized copy is no longer than the
    column) returns without touching memory outside the row; the row stays well-formed,
    and its columns hold what a record with one variable per column would hold.  Reading
    a column gives the value of its variable. *)
Theorem row_calls_typed alloc s calls :
  (∀ n, length (alloc n) = n) → schema_ok s → Forall (call_ok s) calls →
  ∃ r r', row_init alloc s = Some r ∧ run_calls calls r = Some r' ∧ row_ok r' ∧ schema r' = s ∧
    fields r' = foldl (spec_call s) (fields r) calls ∧
    ∀ n id c, columns s !! id = Some c → (n ≤ size_of c)%nat →
      GET_VALUE n id r' = Some (le_val (take n (fields r' !!! id))) ∧
      (take (size_of c) <$> get_value id r') = Some (fields r' !!! id).
Proof.
  intros Halloc Hs Hcalls. exists (mkRow s (alloc (total (columns s)))).
  assert (∃ r', run_calls calls (mkRow s (alloc (total (columns s)))) = Some r' ∧ row_ok r' ∧ schema r' = s ∧
    fields r' = foldl (spec_call s) (fields (mkRow s (alloc (total (columns s))))) calls) as (r'&Hrun&Hok&Hsch&Hf).
  { assert (row_ok (mkRow s (alloc (total (columns s))))) as Hr by (split; [done|apply Halloc]). revert Hr.
    assert (schema (mkRow s (alloc (total (columns s)))) = s) as Hsr by done. revert Hsr.
    generalize (mkRow s (alloc (total (columns s)))).
    induction Hcalls as [|c calls Hc _ IH]; intros r Hsr Hr; [by exists r|].
    destruct (call_typed r Hr c) as (r1&Hr1&Hok1&Hs1&Hf1); [by rewrite Hsr|]. rewrite Hsr in *.
    destruct (IH r1 Hs1 Hok1) as (r'&Hr'&Hok'&Hs'&Hf'). exists r'. cbn [run_calls foldl]. rewrite Hr1.
    split; [done|]. by rewrite Hf', Hf1. }
  exists r'. unfold row_init, to_int. rewrite (so_tuple _ Hs), assert_bind_true by (apply Z.ltb_lt, Hs).
  cbn [mbind option_bind]. rewrite Nat2Z.id. do 5 (split; [done|]).
  intros n id c Hc Hn. apply get_value_typed; [done|by rewrite Hsch|done].
Qed.

Definition ex_schema : Catalog :=
  let str := String.list_ascii_of_string in
  default (init None 0 0) (s ← add_col (str "D_ID"%string) 8 (str "int64_t"%string) (init (Some (str "DISTRICT"%string)) 1 3);
    s ← add_col (str "D_NAME"%string) 10 (str "string"%string) s;
    add_col (str "D_NEXT_O_ID"%string) 8 (str "int64_t"%string) s).

Definition ex_calls : list call :=
  [SetInt 8 0 5; SetSized 1 (replicate 6 104) 6; SetInt 8 2 3001;
   SetName (String.list_ascii_of_string "D_NEXT_O_ID"%string) (le_bytes 8 3002)].

Lemma row_calls_typed_witness :
  ∃ r r', row_init (λ n, replicate n 0) ex_schema = Some r ∧ run_calls ex_calls r = Some r' ∧
    GET_VALUE 8 2 r' = Some 3002 ∧ GET_VALUE 8 0 r' = Some 5.
Proof.
  assert (schema_ok ex_schema) as Hs.
  { split; [done|done| |simpl; lia]. intros i c Hc. do 3 (destruct i as [|i]; [by injection Hc as <-|]). done. }
  destruct (row_calls_typed (λ n, replicate n 0) ex_schema ex_calls) as (r&r'&Hi&Hr&_&_&Hf&Hg).
  - intros n. by rewrite length_replicate.
  - exact Hs.
  - unfold ex_calls. repeat (apply Forall_cons; split; [eexists; split_and!; [reflexivity|vm_compute; lia..]|]).
    constructor.
  - exists r, r'. split; [done|]. split; [done|].
    destruct (Hg 8%nat 2%nat _ eq_refl (Nat.le_refl 8)) as [-> _].
    destruct (Hg 8%nat 0%nat _ eq_refl (Nat.le_refl 8)) as [-> _].
    rewrite Hf. injection Hi as <-. by vm_compute.
Defined.

End Catalog.
