(* ===== verification/Schema.v ===== *)
(** * Schema: loading the schema of a workload

    Model of [Workload::init_schema] (system/wl.cpp): it reads the text of a schema file
    line by line, builds a [Catalog] for every table and creates the indexes.  Streams,
    [getline], [strtok] and [atoi] are written out.  The theorem says that the text of
    any well-formed description is loaded as described. *)

From Stdlib Require Import Ascii DecimalNat.
From stdpp Require Import strings gmap.
From S2P Require Import Prelude Codec IndexHash Catalog.

Module Schema.
Import Catalog.

Definition str : String.string → cstr := String.list_ascii_of_string.

Definition NL : ascii := "010".
Definition TAB : ascii := "009".
Definition NUL : ascii := "000".
Definition COMMA : ascii := ",".

(** ** Streams and strings *)

(** What comes before the first [x], and what comes after it. *)
Fixpoint break (x : ascii) (l : cstr) : cstr * option cstr :=
  match l with
  | [] => ([], None)
  | y :: l => if decide (y = x) then ([], Some l) else let '(a, b) := break x l in (y :: a, b)
  end.

(** The rest of the file; [None] once its end was reached. *)
Definition stream : Type := option cstr.

(** [getline]: whether it succeeded, the line and the stream.  A stream that is at its end
    leaves the line as it is. *)
Definition getline (fin : stream) (line : cstr) : bool * cstr * stream :=
  match fin with
  | None => (false, line, None)
  | Some s =>
      match break NL s with
      | (l, Some r) => (true, l, Some r)
      | (l, None) => (bool_decide (l ≠ []), l, None)
      end
  end.

(** A [std::string] as a C string. *)
Definition c_str (l : cstr) : cstr := (break NUL l).1.

Fixpoint drop_while (p : ascii → bool) (l : cstr) : cstr :=
  match l with [] => [] | x :: l' => if p x then drop_while p l' else l end.

Definition isspace (x : ascii) : bool := let n := nat_of_ascii x in bool_decide (9 ≤ n ≤ 13 ∨ n = 32)%nat.
Definition isdigit (x : ascii) : bool := let n := nat_of_ascii x in bool_decide (48 ≤ n ≤ 57)%nat.

Fixpoint digits (acc : Z) (l : cstr) : Z :=
  match l with
  | [] => acc
  | x :: l => if isdigit x then digits (10 * acc + (Z.of_nat (nat_of_ascii x) - 48)) l else acc
  end.

Definition signed (l : cstr) : Z :=
  match l with
  | "-"%char :: l => - digits 0 l
  | "+"%char :: l => digits 0 l
  | l => digits 0 l
  end.

(** A number that is no [int] is undefined behaviour. *)
Definition atoi (l : cstr) : option Z :=
  let z := signed (drop_while isspace l) in
  ASSERT bool_decide (- 2 ^ 31 ≤ z < 2 ^ 31);
  Some z.

(** [strtok] with the delimiter of the file: the token and what is left. *)
Definition strtok (l : cstr) : option (cstr * cstr) :=
  match drop_while (λ x, bool_decide (x = COMMA)) l with
  | [] => None
  | l => let '(t, r) := break COMMA l in Some (t, default [] r)
  end.

(** [line.compare(0, length p, p) == 0] *)
Definition starts (p line : cstr) : bool := bool_decide (take (length p) line = p).

(** ** [init_schema] *)

Record globals := mkG {
  g_part_cnt : Z; g_synth_table_size : Z; g_num_wh : Z; g_dist_per_wh : Z; g_cust_per_dist : Z; g_max_items : Z;
  MAX_PPS_PART_KEY : Z; MAX_PPS_PRODUCT_KEY : Z; MAX_PPS_SUPPLIER_KEY : Z }.

Record INDEX := mkINDEX { ix_table : option Catalog; ix_hash : IndexHash.index }.

(** [operator[]] puts a null pointer where there is no table. *)
Record Workload := mkWl { tables : gmap String.string (option Catalog); indexes : gmap String.string INDEX }.

Section load.
Context (WL : WORKLOAD) (g : globals).

Definition per_part (n : Z) : option Z := ASSERT negb (g_part_cnt g =? 0); Some (n / g_part_cnt g).

Definition table_size (tname : cstr) : option Z :=
  let named n := bool_decide (take (length (str n)) (drop 1 tname) = str n) in
  match WL with
  | TPCC =>
      ASSERT bool_decide (1 ≤ length tname)%nat;
      if named "WAREHOUSE"%string then per_part (g_num_wh g)
      else if named "DISTRICT"%string then wh ← per_part (g_num_wh g); Some (wrap32 (wh * g_dist_per_wh g))
      else if named "CUSTOMER"%string || named "HISTORY"%string || named "ORDER"%string
      then wh ← per_part (g_num_wh g); Some (wrap32 (wrap32 (wh * g_dist_per_wh g) * g_cust_per_dist g))
      else if named "ITEM"%string then Some (g_max_items g)
      else if named "STOCK"%string then wh ← per_part (g_num_wh g); Some (wrap32 (wh * g_max_items g))
      else Some (g_synth_table_size g)
  | PPS =>
      ASSERT bool_decide (1 ≤ length tname)%nat;
      Some (if named "PARTS"%string then MAX_PPS_PART_KEY g
            else if named "PRODUCTS"%string then MAX_PPS_PRODUCT_KEY g
            else if named "SUPPLIERS"%string then MAX_PPS_SUPPLIER_KEY g
            else if named "SUPPLIES"%string then MAX_PPS_PRODUCT_KEY g
            else if named "USES"%string then MAX_PPS_SUPPLIER_KEY g
            else g_synth_table_size g)
  | YCSB => per_part (g_synth_table_size g)
  end.

(** The lines of the columns; the last [getline] leaves the line after them. *)
Fixpoint read_fields (fuel : nat) (line : cstr) (fin : stream) : option (list cstr * cstr * stream) :=
  match fuel with
  | O => None
  | S fuel =>
      if bool_decide (1 < length line)%nat then
        let '(_, line', fin) := getline fin line in
        '(ls, l, fin) ← read_fields fuel line' fin;
        Some (line :: ls, l, fin)
      else Some ([], line, fin)
  end.

Definition parse_col (line : cstr) (s : Catalog) : option Catalog :=
  '(t, r) ← strtok (c_str line);
  size ← atoi t;
  '(type, r) ← strtok r;
  '(name, _) ← strtok r;
  add_col name (wrap64 size) type s.

Fixpoint parse_cols (lines : list cstr) (s : Catalog) : option Catalog :=
  match lines with [] => Some s | line :: lines => s ← parse_col line s; parse_cols lines s end.

(** The comma separated items of an index line. *)
Fixpoint items (fuel : nat) (line : cstr) : list cstr :=
  match fuel, line with
  | S fuel, _ :: _ => let '(t, r) := break COMMA line in t :: items fuel (default [] r)
  | _, _ => []
  end.

(** At the end of the block of a table the string [tname] is destroyed, and with it
    what [table_name] of the catalog points to. *)
Definition end_block (s : Catalog) : Catalog :=
  mkCat None (table_id s) (capacity s) (columns s) (tuple_size s).

Definition new_table (tname : cstr) (s : Catalog) (w : Workload) : Workload :=
  mkWl (<[String.string_of_list_ascii tname := Some s]> (tables w)) (indexes w).

Definition new_index (iname tname : cstr) (size : Z) (w : Workload) : Workload :=
  let t := String.string_of_list_ascii tname in
  let table := default None (tables w !! t) in
  mkWl (<[t := table]> (tables w))
    (<[String.string_of_list_ascii iname := mkINDEX table (IndexHash.init size)]> (indexes w)).

Fixpoint schema_loop (fuel : nat) (line : cstr) (fin : stream) (id : Z) (w : Workload) : option Workload :=
  match fuel with
  | O => None
  | S fuel =>
      match getline fin line with
      | (false, _, _) => Some w
      | (true, line, fin) =>
          if starts (str "TABLE="%string) line then
            let tname := c_str (drop 6 line) in
            let '(_, line, fin) := getline fin line in
            '(lines, line, fin) ← read_fields fuel line fin;
            s ← parse_cols lines (init (Some tname) id (length lines));
            schema_loop fuel line fin (wrap32 (id + 1)) (new_table tname (end_block s) w)
          else if starts (str "INDEX="%string) line then
            let iname := c_str (drop 6 line) in
            let '(_, line, fin) := getline fin line in
            let its := items (length line) line in
            tname ← head its;
            _ ← mapM (λ l, atoi (c_str l)) (tail its);
            size ← table_size tname;
            schema_loop fuel [] fin id (new_index iname tname size w)
          else schema_loop fuel line fin id w
      end
  end.

Definition init_schema (fuel : nat) (text : cstr) : option Workload :=
  schema_loop fuel [] (Some text) 0 (mkWl ∅ ∅).

End load.

(** ** The reference: a description and its text *)

Definition column : Type := nat * cstr * cstr.

(** A table ends with a line of at most one character. *)
Inductive item :=
  | STable (name : cstr) (cols : list column) (last : cstr)
  | SIndex (name tname : cstr) (flds : list nat)
  | SComment (line : cstr).

Fixpoint print_uint (d : Decimal.uint) : cstr :=
  match d with
  | Decimal.Nil => []
  | Decimal.D0 d => "0"%char :: print_uint d
  | Decimal.D1 d => "1"%char :: print_uint d
  | Decimal.D2 d => "2"%char :: print_uint d
  | Decimal.D3 d => "3"%char :: print_uint d
  | Decimal.D4 d => "4"%char :: print_uint d
  | Decimal.D5 d => "5"%char :: print_uint d
  | Decimal.D6 d => "6"%char :: print_uint d
  | Decimal.D7 d => "7"%char :: print_uint d
  | Decimal.D8 d => "8"%char :: print_uint d
  | Decimal.D9 d => "9"%char :: print_uint d
  end.
Definition print_nat (n : nat) : cstr := print_uint (Nat.to_uint n).

Definition print_col (c : column) : cstr := TAB :: print_nat c.1.1 ++ COMMA :: c.1.2 ++ COMMA :: c.2.

Fixpoint print_flds (flds : list nat) : cstr :=
  match flds with [] => [] | n :: flds => COMMA :: print_nat n ++ print_flds flds end.

Definition lines_of (i : item) : list cstr :=
  match i with
  | STable name cols last => (str "TABLE="%string ++ name) :: (print_col <$> cols) ++ [last]
  | SIndex name tname flds =>
      [str "INDEX="%string ++ name; tname ++ print_flds flds]
  | SComment line => [line]
  end.

Definition unlines (ls : list cstr) : cstr := concat ((λ l, l ++ [NL]) <$> ls).
Definition print (l : list item) : cstr := unlines (concat (lines_of <$> l)).

(** What is described. *)
Fixpoint columns_of (i off : nat) (cols : list column) : list Column :=
  match cols with
  | [] => []
  | (size, type, name) :: cols =>
      mkCol (Z.of_nat i) (Z.of_nat size) (Z.of_nat off) type name :: columns_of (S i) (off + size) cols
  end.
Definition sizes (cols : list column) : nat := sum_list ((λ c : column, c.1.1) <$> cols).
Definition catalog_of (id : Z) (cols : list column) : Catalog :=
  mkCat None id (length cols) (columns_of 0 0 cols) (Z.of_nat (sizes cols)).

(** The last table of a name; tables are numbered from [id]. *)
Fixpoint last_table (name : cstr) (id : Z) (l : list item) : option Catalog :=
  match l with
  | [] => None
  | STable n cols _ :: l =>
      match last_table name (id + 1) l with
      | Some s => Some s
      | None => if decide (n = name) then Some (catalog_of id cols) else None
      end
  | _ :: l => last_table name id l
  end.

(** The name of a table occurs in the line of an index. *)
Definition mentioned (name : cstr) (l : list item) : bool :=
  existsb (λ i, match i with SIndex _ t _ => bool_decide (t = name) | _ => false end) l.

(** What a loaded workload has under the name of a table: a name that only indexes
    mention has a null pointer. *)
Definition table_of (name : cstr) (l : list item) : option (option Catalog) :=
  match last_table name 0 l with
  | Some s => Some (Some s)
  | None => if mentioned name l then Some None else None
  end.

(** The expected number of rows of the tables: the entry with the name that follows
    the first character. *)
Definition expected_rows (WL : WORKLOAD) (g : globals) : list (String.string * Z) :=
  let wh := g_num_wh g / g_part_cnt g in
  match WL with
  | TPCC =>
      let customers := (wh * g_dist_per_wh g * g_cust_per_dist g) `mod` 2 ^ 32 in
      [("WAREHOUSE", wh); ("DISTRICT", (wh * g_dist_per_wh g) `mod` 2 ^ 32);
       ("CUSTOMER", customers); ("HISTORY", customers); ("ORDER", customers);
       ("ITEM", g_max_items g); ("STOCK", (wh * g_max_items g) `mod` 2 ^ 32)]%string
  | PPS =>
      [("PARTS", MAX_PPS_PART_KEY g); ("PRODUCTS", MAX_PPS_PRODUCT_KEY g);
       ("SUPPLIERS", MAX_PPS_SUPPLIER_KEY g); ("SUPPLIES", MAX_PPS_PRODUCT_KEY g);
       ("USES", MAX_PPS_SUPPLIER_KEY g)]%string
  | YCSB => [(""%string, g_synth_table_size g / g_part_cnt g)]
  end.
Definition bucket_cnt_of (WL : WORKLOAD) (g : globals) (tname : cstr) : Z :=
  match find (λ p : String.string * Z, bool_decide (str p.1 `prefix_of` tail tname)) (expected_rows WL g) with
  | Some (_, n) => n
  | None => g_synth_table_size g
  end.

(** The last index of a name, after the items [before]: it has the table that its table
    name had so far, and only empty buckets. *)
Fixpoint last_index (WL : WORKLOAD) (g : globals) (name : cstr) (before l : list item) : option INDEX :=
  match l with
  | [] => None
  | i :: l =>
      match last_index WL g name (before ++ [i]) l, i with
      | Some x, _ => Some x
      | None, SIndex n t _ =>
          let cnt := bucket_cnt_of WL g t in
          if decide (n = name)
          then Some (mkINDEX (last_table t 0 before)
                       (IndexHash.mkIdx cnt (replicate (Z.to_nat cnt) (IndexHash.mkBH 0 []))))
          else None
      | None, _ => None
      end
  end.
Definition index_of (WL : WORKLOAD) (g : globals) (name : cstr) (l : list item) : option INDEX :=
  last_index WL g name [] l.

(** Text without line ends and null characters. *)
Definition text_ok (l : cstr) : Prop := (NL ∉ l) ∧ (NUL ∉ l).
Definition word_ok (l : cstr) : Prop := text_ok l ∧ (COMMA ∉ l) ∧ l ≠ [].
Definition col_ok (c : column) : Prop :=
  word_ok c.1.2 ∧ word_ok c.2 ∧ (length c.1.2 < name_len)%nat ∧ (length c.2 < name_len)%nat.

Definition item_ok (i : item) : Prop :=
  match i with
  | STable name cols last =>
      text_ok name ∧ Forall col_ok cols ∧ Z.of_nat (sizes cols) < 2 ^ 31 ∧ (NL ∉ last) ∧ (length last ≤ 1)%nat
  | SIndex name tname flds => text_ok name ∧ word_ok tname ∧ Forall (λ n, Z.of_nat n < 2 ^ 31) flds
  | SComment line => (NL ∉ line) ∧ starts (str "TABLE="%string) line = false ∧ starts (str "INDEX="%string) line = false
  end.

(** ** Strings *)

Lemma break_at x a r : x ∉ a → break x (a ++ x :: r) = (a, Some r).
Proof.
  induction a as [|y a IH]; intros Ha; simpl; [by rewrite decide_True|].
  apply not_elem_of_cons in Ha as [Hy Ha]. rewrite decide_False, IH by done. done.
Qed.

Lemma break_none x a : x ∉ a → break x a = (a, None).
Proof.
  induction a as [|y a IH]; intros Ha; simpl; [done|].
  apply not_elem_of_cons in Ha as [Hy Ha]. rewrite decide_False, IH by done. done.
Qed.

Lemma c_str_id l : NUL ∉ l → c_str l = l.
Proof. intros Hl. unfold c_str. by rewrite break_none. Qed.

Lemma getline_line l r line : NL ∉ l → getline (Some (l ++ NL :: r)) line = (true, l, Some r).
Proof. intros Hl. unfold getline. by rewrite break_at. Qed.

Lemma strtok_last w : COMMA ∉ w → w ≠ [] → strtok w = Some (w, []).
Proof.
  intros Hw Hne. unfold strtok. destruct w as [|x w]; [done|]. cbn [drop_while].
  rewrite bool_decide_false by (intros ->; apply Hw; by left). by rewrite break_none.
Qed.

Lemma strtok_word w r : COMMA ∉ w → w ≠ [] → strtok (w ++ COMMA :: r) = Some (w, r).
Proof.
  intros Hw Hne. unfold strtok. destruct w as [|x w]; [done|]. rewrite <-app_comm_cons. cbn [drop_while].
  rewrite bool_decide_false by (intros ->; apply Hw; by left). by rewrite app_comm_cons, break_at.
Qed.

Definition digit_char (x : ascii) : Prop := isdigit x = true.

Lemma print_uint_digits d : Forall digit_char (print_uint d).
Proof. induction d; simpl; constructor; done. Qed.

Lemma digits_print d acc : digits (Z.of_nat acc) (print_uint d) = Z.of_nat (Nat.of_uint_acc d acc).
Proof.
  revert acc. induction d as [|d IH|d IH|d IH|d IH|d IH|d IH|d IH|d IH|d IH|d IH]; intros acc; [done|..];
    cbn [print_uint Nat.of_uint_acc digits];
    rewrite <-IH, Nat.tail_mul_spec; cbn [isdigit]; f_equal; vm_compute nat_of_ascii; lia.
Qed.

Lemma print_nat_head n : ∃ x l, print_nat n = x :: l ∧ digit_char x.
Proof.
  pose proof (print_uint_digits (Nat.to_uint n)) as Hd. unfold print_nat.
  destruct (print_uint (Nat.to_uint n)) as [|x l] eqn:He; [|inversion Hd; by eauto].
  exfalso. pose proof (Unsigned.of_to n) as Hn. destruct (Nat.to_uint n) eqn:Hu; try discriminate.
  simpl in Hn. subst n. discriminate Hu.
Qed.

Lemma digit_not_in x n : isdigit x = false → x ∉ print_nat n.
Proof.
  intros Hx Hin. pose proof (print_uint_digits (Nat.to_uint n)) as Hd. rewrite Forall_forall in Hd.
  apply Hd in Hin. unfold digit_char in Hin. congruence.
Qed.

Lemma digit_facts x : digit_char x → isspace x = false ∧ x ≠ "-"%char ∧ x ≠ "+"%char.
Proof.
  unfold digit_char, isdigit, isspace. intros Hx%bool_decide_eq_true. split; [apply bool_decide_eq_false; lia|].
  split; intros ->; vm_compute in Hx; lia.
Qed.

Lemma atoi_nat n : Z.of_nat n < 2 ^ 31 → atoi (print_nat n) = Some (Z.of_nat n) ∧ atoi (TAB :: print_nat n) = Some (Z.of_nat n).
Proof.
  intros Hn. destruct (print_nat_head n) as (x&l&Hp&Hx). destruct (digit_facts x Hx) as (Hs&Hm&Hpl).
  assert (digits 0 (print_nat n) = Z.of_nat n) as Hd.
  { unfold print_nat. change 0 with (Z.of_nat 0). rewrite digits_print. f_equal. apply Unsigned.of_to. }
  assert (signed (drop_while isspace (print_nat n)) = Z.of_nat n) as Hsg.
  { rewrite Hp. cbn [drop_while]. rewrite Hs, <-Hd, Hp. by destruct x as [[] [] [] [] [] [] [] []]. }
  unfold atoi. replace (drop_while isspace (TAB :: print_nat n)) with (drop_while isspace (print_nat n)) by done.
  rewrite Hsg, assert_bind_true; [done|]. apply bool_decide_eq_true. lia.
Qed.

(** ** Tables *)

Lemma sizes_cons c cols : sizes (c :: cols) = (c.1.1 + sizes cols)%nat.
Proof. done. Qed.

Lemma print_col_line c : col_ok c → (NL ∉ print_col c) ∧ (NUL ∉ print_col c) ∧ (1 < length (print_col c))%nat.
Proof.
  intros (((Hn1&Hz1)&_&_)&((Hn2&Hz2)&_&_)&_). unfold print_col.
  split; [|split; [|simpl; rewrite length_app; simpl; lia]];
    rewrite not_elem_of_cons, not_elem_of_app, not_elem_of_cons, not_elem_of_app, not_elem_of_cons;
    split_and!; try done; by apply digit_not_in.
Qed.

Lemma parse_col_print c s : col_ok c → Z.of_nat c.1.1 < 2 ^ 31 →
  parse_col (print_col c) s = add_col c.2 (Z.of_nat c.1.1) c.1.2 s.
Proof.
  intros Hc Hsz. destruct (print_col_line c Hc) as (_&Hz&_). unfold parse_col. rewrite c_str_id by done.
  destruct Hc as ((_&Hc1&He1)&(_&Hc2&He2)&_). unfold print_col. rewrite app_comm_cons.
  rewrite strtok_word; [|apply not_elem_of_cons; split; [done|by apply digit_not_in]|done].
  cbn [mbind option_bind]. destruct (atoi_nat c.1.1 Hsz) as [_ ->]. cbn [mbind option_bind].
  rewrite strtok_word by done. cbn [mbind option_bind]. rewrite strtok_last by done. cbn [mbind option_bind].
  rewrite wrap64_small; [done|]. unfold is_u64, u64_mod. lia.
Qed.

Lemma parse_cols_print nm id cap cols : ∀ cs off, Forall col_ok cols → Z.of_nat (off + sizes cols) < 2 ^ 31 →
  (length cs + length cols ≤ cap)%nat →
  parse_cols (print_col <$> cols) (mkCat nm id cap cs (Z.of_nat off)) =
    Some (mkCat nm id cap (cs ++ columns_of (length cs) off cols) (Z.of_nat (off + sizes cols))).
Proof.
  induction cols as [|c cols IH]; intros cs off Hok Hsz Hcap.
  { simpl. by rewrite app_nil_r, Nat.add_0_r. }
  apply Forall_cons in Hok as [Hc Hok]. rewrite sizes_cons in *. simpl in Hcap. cbn [fmap list_fmap parse_cols].
  rewrite parse_col_print by (done || lia). destruct Hc as (_&_&Hl1&Hl2). unfold add_col.
  cbn [columns capacity table_id tuple_size].
  rewrite !assert_bind_true by (apply bool_decide_eq_true; done || lia). cbn [mbind option_bind].
  rewrite !wrap32_small by (unfold is_u32, u32_mod; lia). rewrite <-Nat2Z.inj_add.
  rewrite (IH (cs ++ _)); [|done|lia|rewrite length_app; simpl; lia]. destruct c as [[sz ty] cn]. f_equal. f_equal; [|simpl; lia].
  rewrite length_app, <-app_assoc, Nat.add_1_r. done.
Qed.

Lemma columns_of_lookup cols : ∀ k off i c, columns_of k off cols !! i = Some c →
  c_id c = Z.of_nat (k + i) ∧ c_index c = Z.of_nat (off + total (take i (columns_of k off cols))) ∧ 0 ≤ c_size c.
Proof.
  induction cols as [|[[sz ty] nm] cols IH]; intros k off i c Hc; [done|]. destruct i as [|i].
  - injection Hc as <-. simpl. split_and!; [f_equal; lia|unfold total; simpl; f_equal; lia|lia].
  - apply IH in Hc as (Hid&Hix&H0). split_and!; [rewrite Hid; f_equal; lia| |done]. cbn [columns_of take].
    rewrite Hix, total_cons. unfold size_of. simpl. f_equal. lia.
Qed.

Lemma columns_of_total cols k off : total (columns_of k off cols) = sizes cols ∧ length (columns_of k off cols) = length cols.
Proof.
  revert k off. induction cols as [|[[sz ty] nm] cols IH]; intros k off; [done|]. cbn [columns_of].
  destruct (IH (S k) (off + sz)%nat) as [H1 H2]. rewrite total_cons, sizes_cons, H1. unfold size_of. simpl.
  split; [lia|by f_equal].
Qed.

Lemma catalog_of_ok id cols : Z.of_nat (sizes cols) < 2 ^ 31 → schema_ok (catalog_of id cols).
Proof.
  intros Hs. destruct (columns_of_total cols 0 0) as [Ht Hl]. split; unfold catalog_of; cbn [columns tuple_size capacity].
  - by rewrite Ht.
  - by rewrite Ht.
  - intros i c Hc. by apply (columns_of_lookup cols 0 0).
  - by rewrite Hl.
Qed.

(** ** The loops *)

Lemma unlines_cons l ls r : unlines (l :: ls) ++ r = l ++ NL :: (unlines ls ++ r).
Proof. unfold unlines. simpl. by rewrite <-!app_assoc. Qed.

(** The lines of a table, of which the first has been read. *)
Lemma read_fields_lines ls last r : Forall (λ l, (NL ∉ l) ∧ (1 < length l)%nat) ls → NL ∉ last → (length last ≤ 1)%nat →
  ∀ l0 rest fuel, ls ++ [last] = l0 :: rest → (length ls < fuel)%nat →
  read_fields fuel l0 (Some (unlines rest ++ r)) = Some (ls, last, Some r).
Proof.
  intros Hls Hl Hlen. induction Hls as [|l ls [Hnl Hll] Hls IH]; intros l0 rest fuel Heq Hf;
    (destruct fuel as [|fuel]; [simpl in Hf; lia|]); injection Heq as <- <-; cbn [read_fields].
  - by rewrite bool_decide_false by lia.
  - rewrite bool_decide_true by done. simpl in Hf. destruct (ls ++ [last]) as [|l1 rest] eqn:Hr.
    { by destruct ls. }
    rewrite unlines_cons, getline_line. { rewrite (IH l1 rest fuel); [done|done|lia]. }
    assert (l1 ∈ ls ++ [last]) as [Hin|Hin%list_elem_of_singleton]%elem_of_app by (rewrite Hr; by left).
    + rewrite Forall_forall in Hls. by apply Hls.
    + by subst.
Qed.

Lemma items_fields tname flds : COMMA ∉ tname → tname ≠ [] → ∀ fuel,
  (length (tname ++ print_flds flds) ≤ fuel)%nat →
  items fuel (tname ++ print_flds flds) = tname :: (print_nat <$> flds).
Proof.
  revert tname. induction flds as [|n flds IH]; intros tname Hc Hne fuel Hf; cbn [print_flds] in *.
  - rewrite app_nil_r in *. destruct tname as [|x tname]; [done|]. destruct fuel as [|fuel]; [simpl in Hf; lia|].
    cbn [items]. rewrite break_none by done. by destruct fuel.
  - rewrite length_app in Hf. simpl in Hf. destruct fuel as [|fuel]; [lia|].
    destruct tname as [|x tname]; [done|]. cbn [items app]. rewrite app_comm_cons, break_at by done.
    cbn [default]. unfold default, id. rewrite IH; [done|by apply digit_not_in| |simpl in Hf; lia].
    destruct (print_nat_head n) as (y&l&->&_). done.
Qed.

Lemma atoi_fields flds : Forall (λ n, Z.of_nat n < 2 ^ 31) flds →
  is_Some (mapM (λ l, atoi (c_str l)) (print_nat <$> flds)).
Proof.
  intros Hf. apply mapM_is_Some_2. apply Forall_fmap. eapply Forall_impl; [exact Hf|]. intros n Hn. simpl.
  rewrite c_str_id by (by apply digit_not_in). destruct (atoi_nat n Hn) as [-> _]. by eexists.
Qed.

Lemma starts_app p l : starts p (p ++ l) = true.
Proof. unfold starts. rewrite take_app_length. by apply bool_decide_eq_true. Qed.

Lemma keyword_line k : k = str "TABLE="%string ∨ k = str "INDEX="%string → NL ∉ k.
Proof. intros [->| ->]; eapply bool_decide_eq_true_1; by vm_compute. Qed.

Section loop.
Context (WL : WORKLOAD) (g : globals) (Hpart : g_part_cnt g ≠ 0).

Lemma table_size_word tname : word_ok tname → is_Some (table_size WL g tname).
Proof.
  intros (_&_&Hne). assert (1 ≤ length tname)%nat by (destruct tname; simpl; [done|lia]).
  assert (∀ n, is_Some (per_part g n)) as Hdiv.
  { intros n. unfold per_part. rewrite assert_bind_true by (by apply negb_true_iff, Z.eqb_neq). by eexists. }
  unfold table_size. destruct WL; rewrite ?assert_bind_true by (by apply bool_decide_eq_true); [done| |by eexists].
  destruct (Hdiv (g_num_wh g)) as [wh ->]. repeat case_match; by eexists.
Qed.

Lemma loop_table fuel line name cols last r id w : item_ok (STable name cols last) → (length cols < fuel)%nat →
  0 ≤ id → id + 1 < u32_mod →
  schema_loop WL g (S fuel) line (Some (unlines (lines_of (STable name cols last)) ++ r)) id w =
    schema_loop WL g fuel last (Some r) (id + 1) (new_table name (catalog_of id cols) w).
Proof.
  intros ((Hn&Hz)&Hcols&Hsz&Hl&Hll) Hf H0 Hid. cbn [schema_loop lines_of]. rewrite unlines_cons, getline_line.
  2:{ apply not_elem_of_app. split; [apply keyword_line; auto|done]. }
  rewrite starts_app. assert (drop 6 (str "TABLE="%string ++ name) = name) as -> by done. rewrite c_str_id by done.
  destruct ((print_col <$> cols) ++ [last]) as [|l0 rest] eqn:Hr; [by destruct cols|].
  assert (Forall (λ l, (NL ∉ l) ∧ (1 < length l)%nat) (print_col <$> cols)) as Hlines.
  { apply Forall_fmap. eapply Forall_impl; [exact Hcols|]. intros c Hc. simpl. by destruct (print_col_line c Hc) as (?&?&?). }
  rewrite unlines_cons, getline_line.
  2:{ assert (l0 ∈ (print_col <$> cols) ++ [last]) as [Hin|Hin%list_elem_of_singleton]%elem_of_app by (rewrite Hr; by left).
      - rewrite Forall_forall in Hlines. by apply Hlines.
      - by subst. }
  rewrite (read_fields_lines (print_col <$> cols) last r Hlines Hl Hll l0 rest fuel Hr) by (by rewrite length_fmap).
  cbn [mbind option_bind]. rewrite length_fmap. unfold init. change 0 with (Z.of_nat 0) at 1.
  rewrite parse_cols_print by (done || simpl; lia). cbn [mbind option_bind app length].
  rewrite wrap32_small by (unfold is_u32; lia). done.
Qed.

Lemma loop_index fuel line name tname flds r id w : item_ok (SIndex name tname flds) →
  schema_loop WL g (S fuel) line (Some (unlines (lines_of (SIndex name tname flds)) ++ r)) id w =
    schema_loop WL g fuel [] (Some r) id (new_index name tname (default 0 (table_size WL g tname)) w).
Proof.
  intros ((Hn&Hz)&Hw&Hf). cbn [schema_loop lines_of]. rewrite unlines_cons, getline_line.
  2:{ apply not_elem_of_app. split; [apply keyword_line; auto|done]. }
  assert (starts (str "TABLE="%string) (str "INDEX="%string ++ name) = false) as -> by done.
  rewrite starts_app. assert (drop 6 (str "INDEX="%string ++ name) = name) as -> by done. rewrite c_str_id by done.
  pose proof Hw as ((Htn&_)&Htc&Hte).
  rewrite unlines_cons, getline_line.
  2:{ apply not_elem_of_app. split; [done|]. clear -flds. induction flds as [|n flds IH]; [simpl; by apply not_elem_of_nil|].
      simpl. apply not_elem_of_cons. split; [done|]. apply not_elem_of_app. split; [by apply digit_not_in|done]. }
  rewrite items_fields by done. cbn [head tail mbind option_bind].
  destruct (atoi_fields flds Hf) as [zs ->]. destruct (table_size_word tname Hw) as [size ->]. done.
Qed.

Lemma loop_comment fuel line l r id w : item_ok (SComment l) →
  schema_loop WL g (S fuel) line (Some (unlines (lines_of (SComment l)) ++ r)) id w =
    schema_loop WL g fuel l (Some r) id w.
Proof.
  intros (Hn&Ht&Hi). cbn [schema_loop lines_of]. rewrite unlines_cons, getline_line by done. by rewrite Ht, Hi.
Qed.

Lemma print_cons i l : print (i :: l) = unlines (lines_of i) ++ print l.
Proof. unfold print, unlines. cbn [fmap list_fmap concat]. by rewrite fmap_app, concat_app. Qed.

Lemma unlines_length ls : (length ls ≤ length (unlines ls))%nat.
Proof.
  induction ls as [|l ls IH]; [done|]. rewrite <-(app_nil_r (unlines _)), unlines_cons, app_nil_r, length_app. simpl. lia.
Qed.

(** The items one after the other. *)
Fixpoint load (l : list item) (id : Z) (w : Workload) : Workload :=
  match l with
  | [] => w
  | STable name cols _ :: l => load l (id + 1) (new_table name (catalog_of id cols) w)
  | SIndex name tname _ :: l => load l id (new_index name tname (default 0 (table_size WL g tname)) w)
  | SComment _ :: l => load l id w
  end.

Lemma loop_items l : ∀ fuel line id w, Forall item_ok l → 0 ≤ id → id + zlen l < u32_mod →
  (length (print l) < fuel)%nat → schema_loop WL g fuel line (Some (print l)) id w = Some (load l id w).
Proof.
  induction l as [|i l IH]; intros fuel line id w Hok H0 Hid Hf; (destruct fuel as [|fuel]; [lia|]); [done|].
  apply Forall_cons in Hok as [Hi Hok]. rewrite print_cons in *. rewrite length_app in Hf.
  pose proof (unlines_length (lines_of i)) as Hlen. rewrite length_cons, Nat2Z.inj_succ in Hid.
  destruct i as [name cols last|name tname flds|c].
  - assert (length (lines_of (STable name cols last)) = 2 + length cols)%nat as Hn.
    { cbn [lines_of length]. rewrite length_app, length_fmap. simpl. lia. }
    rewrite loop_table by (done || lia). apply IH; [done|lia..].
  - change (length (lines_of _)) with 2%nat in Hlen. rewrite loop_index by done. apply IH; [done|lia..].
  - change (length (lines_of _)) with 1%nat in Hlen. rewrite loop_comment by done. apply IH; [done|lia..].
Qed.

Lemma table_size_spec tname : word_ok tname → table_size WL g tname = Some (bucket_cnt_of WL g tname).
Proof.
  intros (_&_&Hne). destruct tname as [|x t]; [done|].
  assert (∀ n, bool_decide (take (length (str n)) (drop 1 (x :: t)) = str n) =
    bool_decide (str n `prefix_of` tail (x :: t))) as Hnamed.
  { intros n. apply bool_decide_ext. cbn [drop tail]. split.
    - intros Ht. exists (drop (length (str n)) t). rewrite <-Ht at 1. by rewrite take_drop.
    - intros [k ->]. apply take_app_length. }
  assert (∀ n, per_part g n = Some (n / g_part_cnt g)) as Hdiv.
  { intros n. unfold per_part. by rewrite assert_bind_true by (by apply negb_true_iff, Z.eqb_neq). }
  assert (∀ a b, wrap32 (wrap32 a * b) = (a * b) `mod` 2 ^ 32) as Hmod.
  { intros a b. unfold wrap32. change u32_mod with (2 ^ 32). apply Z.mul_mod_idemp_l. lia. }
  unfold table_size, bucket_cnt_of. destruct WL; cbn [expected_rows]; [apply Hdiv|..];
    rewrite assert_bind_true by (apply bool_decide_eq_true; simpl; lia);
    rewrite !Hnamed; cbn [find fst]; rewrite ?Hdiv; cbn [mbind option_bind]; rewrite ?Hmod;
    repeat (case_bool_decide; [done|]); try done.
Qed.

(** The workload is what the items so far describe. *)
Definition as_described (before : list item) (w : Workload) : Prop :=
  (∀ name, tables w !! String.string_of_list_ascii name = table_of name before) ∧
  (∀ name, indexes w !! String.string_of_list_ascii name = index_of WL g name before).

Fixpoint table_cnt (l : list item) : Z :=
  match l with [] => 0 | STable _ _ _ :: l => 1 + table_cnt l | _ :: l => table_cnt l end.

Lemma table_cnt_snoc l i : table_cnt (l ++ [i]) = table_cnt l + table_cnt [i].
Proof. induction l as [|[] l IH]; simpl in *; lia. Qed.

Lemma last_table_snoc name id l i :
  last_table name id (l ++ [i]) =
    match i with
    | STable n cols _ => if decide (n = name) then Some (catalog_of (id + table_cnt l) cols) else last_table name id l
    | _ => last_table name id l
    end.
Proof.
  revert id. induction l as [|[] l IH]; intros id; cbn [app last_table table_cnt]; rewrite ?IH; [|destruct i..]; try done.
  - destruct i; try done. by rewrite Z.add_0_r.
  - rewrite Z.add_assoc. by case_decide.
Qed.

Lemma last_index_snoc name before l i :
  last_index WL g name before (l ++ [i]) =
    match i with
    | SIndex n t _ =>
        if decide (n = name)
        then Some (mkINDEX (last_table t 0 (before ++ l)) (IndexHash.init (bucket_cnt_of WL g t)))
        else last_index WL g name before l
    | _ => last_index WL g name before l
    end.
Proof.
  revert before. induction l as [|j l IH]; intros before; cbn [app last_index].
  { rewrite app_nil_r. by destruct i. }
  rewrite IH, <-app_assoc. destruct i; try done. by case_decide.
Qed.

Lemma mentioned_snoc name l i : mentioned name (l ++ [i]) = mentioned name l || mentioned name [i].
Proof. unfold mentioned. by rewrite existsb_app. Qed.

Lemma string_inj a b : String.string_of_list_ascii a = String.string_of_list_ascii b → a = b.
Proof.
  intros E. rewrite <-(String.list_ascii_of_string_of_list_ascii a), E.
  apply String.list_ascii_of_string_of_list_ascii.
Qed.

Lemma described_table before w name cols last :
  as_described before w →
  as_described (before ++ [STable name cols last]) (new_table name (catalog_of (table_cnt before) cols) w).
Proof.
  intros [Ht Hi]. split; intros n; cbn [new_table tables indexes].
  - unfold table_of. rewrite last_table_snoc, mentioned_snoc, Z.add_0_l, orb_false_r. case_decide as E.
    + subst n. by rewrite lookup_insert_eq.
    + rewrite lookup_insert_ne by (by intros ?%string_inj). apply Ht.
  - unfold index_of. rewrite last_index_snoc. apply Hi.
Qed.

Lemma described_index before w name tname flds :
  as_described before w → word_ok tname →
  as_described (before ++ [SIndex name tname flds])
    (new_index name tname (default 0 (table_size WL g tname)) w).
Proof.
  intros [Ht Hi] Hw. rewrite table_size_spec by done. unfold new_index. rewrite Ht.
  assert (default None (table_of tname before) = last_table tname 0 before) as ->.
  { unfold table_of. destruct (last_table tname 0 before); [done|]. by destruct (mentioned tname before). }
  split; intros n; cbn [tables indexes].
  - unfold table_of. rewrite last_table_snoc, mentioned_snoc. simpl. rewrite orb_false_r.
    destruct (decide (tname = n)) as [->|Hne].
    + rewrite lookup_insert_eq, bool_decide_true, orb_true_r by done. by destruct (last_table n 0 before).
    + rewrite lookup_insert_ne, bool_decide_false, orb_false_r by (done || by intros ?%string_inj). apply Ht.
  - unfold index_of. rewrite last_index_snoc. case_decide as E.
    + subst n. by rewrite lookup_insert_eq.
    + rewrite lookup_insert_ne by (by intros ?%string_inj). apply Hi.
Qed.

Lemma load_described l : ∀ before w, Forall item_ok l → as_described before w →
  as_described (before ++ l) (load l (table_cnt before) w).
Proof.
  induction l as [|i l IH]; intros before w Hok Hd; [by rewrite app_nil_r|].
  apply Forall_cons in Hok as [Hi Hok]. pose proof (table_cnt_snoc before i) as Hc.
  rewrite cons_middle, app_assoc. destruct i as [name cols last|name tname flds|c]; simpl in Hc; cbn [load].
  - rewrite Z.add_0_r in Hc. rewrite <-Hc. apply IH; [done|]. by apply described_table.
  - rewrite Z.add_0_r in Hc. rewrite <-Hc. apply IH; [done|]. apply described_index; [done|apply Hi].
  - rewrite Z.add_0_r in Hc. rewrite <-Hc. apply IH; [done|]. destruct Hd as [Ht Hi'].
    split; intros n; [unfold table_of; rewrite last_table_snoc, mentioned_snoc, orb_false_r; apply Ht|].
    unfold index_of. rewrite last_index_snoc. apply Hi'.
Qed.

Lemma last_table_ok l name : ∀ id s, Forall item_ok l → last_table name id l = Some s → schema_ok s.
Proof.
  induction l as [|i l IH]; intros id s Hok; [done|]. apply Forall_cons in Hok as [Hi Hok].
  destruct i as [n cols last|n t f|c]; cbn [last_table]; [|by apply IH..].
  destruct (last_table name (id + 1) l) eqn:E; [intros [= <-]; by eapply IH|].
  case_decide; [|done]. intros [= <-]. apply catalog_of_ok, Hi.
Qed.

End loop.

(** C35: loading a schema inverts writing it.  The text of any description of tables,
    indexes and other lines, with names that fit their buffers and tuples below 2^31
    bytes, and for a positive number of partitions, is read by [init_schema] without
    failing.  The workload then has, under every name, the last table described with it,
    numbered by its position, with the described columns in order and at consecutive
    offsets and with a table name that points nowhere; or a null pointer if only indexes
    mention the name.  Every index is the last one described with its name; it has the
    table that its table name had before it and as many empty buckets as the workload
    expects rows.  Every schema is well-formed, so that rows can be accessed by its
    columns.  As much fuel as the text has characters is enough. *)
Theorem schema_roundtrip WL g l fuel :
  g_part_cnt g ≠ 0 → Forall item_ok l → zlen l < u32_mod → (length (print l) < fuel)%nat →
  ∃ w, init_schema WL g fuel (print l) = Some w ∧
    (∀ name, tables w !! String.string_of_list_ascii name = table_of name l) ∧
    (∀ name, indexes w !! String.string_of_list_ascii name = index_of WL g name l) ∧
    ∀ name s, tables w !! name = Some (Some s) → schema_ok s.
Proof.
  intros Hp Hok Hlen Hf. exists (load WL g l 0 (mkWl ∅ ∅)). split; [by apply loop_items|].
  destruct (load_described WL g Hp l [] (mkWl ∅ ∅) Hok) as [Ht Hi]; [by split|].
  split; [done|]. split; [done|]. intros name s Hs.
  rewrite <-(String.string_of_list_ascii_of_string name) in Hs. simpl in Ht, Hs. rewrite Ht in Hs.
  unfold table_of in Hs. destruct (last_table _ 0 l) eqn:E; [|by destruct (mentioned _ _)].
  simplify_eq. by eapply last_table_ok.
Qed.

(** ** The file of YCSB *)

Definition ycsb_text : cstr := str "//size, type, name
TABLE=MAIN_TABLE
	100,string,F0
	100,string,F1
	100,string,F2
	100,string,F3
	100,string,F4
	100,string,F5
	100,string,F6
	100,string,F7
	100,string,F8
	100,string,F9

INDEX=MAIN_INDEX
	MAIN_TABLE,0
"%string.

Definition ycsb_items : list item :=
  [SComment (str "//size, type, name"%string);
   STable (str "MAIN_TABLE"%string)
     ((λ f, (100%nat, str "string"%string, str f)) <$>
       ["F0"; "F1"; "F2"; "F3"; "F4"; "F5"; "F6"; "F7"; "F8"; "F9"]%string) [];
   SIndex (str "MAIN_INDEX"%string) (TAB :: str "MAIN_TABLE"%string) [0%nat]].

#[export] Instance text_ok_dec l : Decision (text_ok l).
Proof. unfold text_ok. apply _. Defined.
#[export] Instance word_ok_dec l : Decision (word_ok l).
Proof. unfold word_ok. apply _. Defined.
#[export] Instance col_ok_dec c : Decision (col_ok c).
Proof. unfold col_ok. apply _. Defined.
#[export] Instance item_ok_dec i : Decision (item_ok i).
Proof. destruct i; simpl; apply _. Defined.

(** The table has ten columns of 100 bytes.  The index is created for the name with the
    tab of the file in front, which is no table: it has none. *)
Lemma schema_roundtrip_witness :
  let g := mkG 2 16 1 1 1 1 1 1 1 in
  ∃ w s, init_schema YCSB g 300 ycsb_text = Some w ∧ tables w !! "MAIN_TABLE"%string = Some (Some s) ∧
    schema_ok s ∧ length (columns s) = 10%nat ∧ tuple_size s = 1000 ∧
    (ix_table <$> indexes w !! "MAIN_INDEX"%string) = Some None.
Proof.
  intros g. assert (ycsb_text = print ycsb_items) as -> by (by vm_compute).
  destruct (schema_roundtrip YCSB g ycsb_items 300) as (w&Hr&Ht&Hi&Hok).
  - done.
  - eapply bool_decide_eq_true_1. by vm_compute.
  - by vm_compute.
  - apply Nat.ltb_lt. by vm_compute.
  - specialize (Ht (str "MAIN_TABLE"%string)). specialize (Hi (str "MAIN_INDEX"%string)).
    assert (String.string_of_list_ascii (str "MAIN_TABLE"%string) = "MAIN_TABLE"%string) as Et by done.
    assert (String.string_of_list_ascii (str "MAIN_INDEX"%string) = "MAIN_INDEX"%string) as Ei by done.
    rewrite Et in Ht. rewrite Ei in Hi.
    eexists w, _. split; [exact Hr|]. split; [rewrite Ht; vm_compute; reflexivity|]. split.
    { apply (Hok "MAIN_TABLE"%string). rewrite Ht. vm_compute. reflexivity. }
    do 2 (split; [vm_compute; reflexivity|]). rewrite Hi. vm_compute. reflexivity.
Defined.

(** A file that ends in the line of a column, without a line end, is never loaded: the
    loop over the columns reads the last line again and again. *)
Lemma read_fields_eof fuel line : (1 < length line)%nat → read_fields fuel line None = None.
Proof.
  intros Hl. induction fuel as [|fuel IH]; [done|]. cbn [read_fields getline]. rewrite bool_decide_true by done.
  by rewrite IH.
Qed.

End Schema.
