(* ===== verification/Rand.v ===== *)
(** * Rand: programs that draw random numbers, and threads that run at once

    The loaders and the generators of queries draw random numbers: a computation gets the
    list of the values drawn and may need more than there are.  It is [safe] when no
    assertion fails whatever is drawn, and [total] when further values always complete it.
    The threads of a loader interleave their steps in any order. *)

From S2P Require Import Prelude.

Module Rand.

(** ** Threads *)

(** The order in which several threads run. *)
Inductive interleave {A} : list (list A) → list A → Prop :=
  | il_nil ls : Forall (λ l, l = []) ls → interleave ls []
  | il_cons ls i x l r : ls !! i = Some (x :: l) → interleave (<[i := l]> ls) r → interleave ls (x :: r).

Lemma interleave_perm {A} (ls : list (list A)) r : interleave ls r → r ≡ₚ concat ls.
Proof.
  induction 1 as [ls Hls|ls i x l r Hi _ IH].
  - induction Hls as [|l ls -> _ IH]; [done|]. simpl. exact IH.
  - rewrite IH, insert_take_drop by (by eapply lookup_lt_Some).
    rewrite <-(take_drop_middle ls i (x :: l) Hi) at 3. rewrite !concat_app. simpl. apply Permutation_middle.
Qed.

(** One thread after the other is an order. *)
Lemma interleave_concat {A} (ls : list (list A)) : interleave ls (concat ls).
Proof.
  enough (∀ done : list (list A), Forall (λ l, l = []) done → interleave (done ++ ls) (concat ls)) as H by by apply (H []).
  induction ls as [|l ls IH]; intros done Hd; [constructor; by rewrite app_nil_r|]. simpl. induction l as [|x l IHl]; simpl.
  - rewrite cons_middle, app_assoc. apply IH, Forall_app. by split; [|repeat constructor].
  - apply (il_cons _ (length done) _ l); [by rewrite list_lookup_middle|]. by rewrite insert_app_r_alt, Nat.sub_diag by lia.
Qed.

(** ** Random numbers *)

(** A computation gets the values of [next]; it may need more than there are. *)
Inductive res (A : Type) := Done (a : A) (rest : list Z) | More | Fail.
Arguments Done {A} _ _.
Arguments More {A}.
Arguments Fail {A}.

Definition rand (A : Type) : Type := list Z → res A.
Definition rret {A} (a : A) : rand A := λ ds, Done a ds.
Definition rbind {A B} (m : rand A) (k : A → rand B) : rand B := λ ds,
  match m ds with Done a r => k a r | More => More | Fail => Fail end.
Definition next : rand Z := λ ds, match ds with [] => More | d :: r => Done d r end.
Definition check (b : bool) : rand unit := λ ds, if b then Done tt ds else Fail.
Definition lift {A} (o : option A) : rand A := λ ds, match o with Some a => Done a ds | None => Fail end.

Declare Scope rand_scope.
Delimit Scope rand_scope with rand.
Notation "x <-- m ; k" := (rbind m (λ x, k%rand)) (at level 100, m at next level, k at level 200, right associativity) : rand_scope.
Notation "' pat <-- m ; k" := (rbind m (λ x, match x with pat => k%rand end))
  (at level 20, pat pattern, m at level 100, k at level 200) : rand_scope.

(** The iterations of a loop over a list, without and with a state. *)
Fixpoint rmap {A B} (f : A → rand B) (l : list A) : rand (list B) :=
  match l with [] => rret [] | a :: l => (b <-- f a; bs <-- rmap f l; rret (b :: bs))%rand end.
Fixpoint rmapS {S A B} (f : A → S → rand (B * S)) (l : list A) (s : S) : rand (list B * S) :=
  match l with [] => rret ([], s) | a :: l => ('(b, s) <-- f a s; '(bs, s) <-- rmapS f l s; rret (b :: bs, s))%rand end.

(** [while (!p(a = m())) {}]: every pass draws a number, so that the fuel is never used up. *)
Fixpoint until_loop {A} (fuel : nat) (m : rand A) (p : A → bool) : rand A :=
  match fuel with O => λ _, More | S fuel => (a <-- m; if p a then rret a else until_loop fuel m p)%rand end.
Definition until {A} (m : rand A) (p : A → bool) : rand A := λ ds, until_loop (S (length ds)) m p ds.

(** ** Computations that can always be completed *)

Definition safe {A} (m : rand A) (P : A → Prop) : Prop := ∀ ds,
  match m ds with Done a _ => P a | More => True | Fail => False end.

(** Whatever was drawn so far, further values complete the computation; they are drawn when
    the others are used up. *)
Definition total {A} (m : rand A) (P : A → Prop) : Prop := ∀ ds, ∃ ds' a rest,
  (∀ x, m (ds ++ ds' ++ x) = Done a (rest ++ x)) ∧ (length rest ≤ length ds)%nat ∧ (ds' = [] ∨ rest = []) ∧ P a.

Definition good {A} (m : rand A) (P : A → Prop) : Prop := safe m P ∧ total m P.

Lemma safe_bind {A B} (m : rand A) (k : A → rand B) P Q :
  safe m P → (∀ a, P a → safe (k a) Q) → safe (rbind m k) Q.
Proof.
  intros Hm Hk ds. unfold rbind. specialize (Hm ds). destruct (m ds) as [a r| |]; [by apply Hk|done..].
Qed.

Lemma total_bind {A B} (m : rand A) (k : A → rand B) P Q :
  total m P → (∀ a, P a → total (k a) Q) → total (rbind m k) Q.
Proof.
  intros Hm Hk ds. destruct (Hm ds) as (d1&a&r1&H1&Hl1&Ho1&Ha). destruct (Hk a Ha r1) as (d2&b&r2&H2&Hl2&Ho2&Hb).
  exists (d1 ++ d2), b, r2. split; [|split; [lia|split; [|done]]].
  - intros x. unfold rbind. by rewrite <-app_assoc, H1, H2.
  - destruct Ho1 as [-> | ->]; [done|]. right. destruct r2; [done|simpl in Hl2; lia].
Qed.

Lemma safe_next : safe next (λ _, True).
Proof. by intros [|d ds]. Qed.

Lemma total_next : total next (λ _, True).
Proof.
  intros [|d ds]; [exists [0], 0, []; split_and!; auto|]. exists [], d, ds.
  split_and!; [done|simpl; lia|by left|done].
Qed.

Lemma safe_check b : b = true → safe (check b) (λ _, True).
Proof. by intros -> ds. Qed.

Lemma total_check b : b = true → total (check b) (λ _, True).
Proof. intros -> ds. exists [], tt, ds. split_and!; auto. Qed.

Lemma total_ret {A} (a : A) (P : A → Prop) : P a → total (rret a) P.
Proof. intros Ha ds. exists [], a, ds. split_and!; auto. Qed.

Lemma safe_ret {A} (a : A) (P : A → Prop) : P a → safe (rret a) P.
Proof. by intros Ha ds. Qed.

Lemma good_bind {A B} (m : rand A) (k : A → rand B) P Q : good m P → (∀ a, P a → good (k a) Q) → good (rbind m k) Q.
Proof. intros [H1 H2] Hk. split; [eapply safe_bind|eapply total_bind]; eauto; intros a Ha; by apply Hk. Qed.
(** The first step of a computation, by a lemma on it. *)
Ltac rand_side := first [done | lia | unfold u64_mod in *; lia].
Tactic Notation "draw" uconstr(H) "as" simple_intropattern_list(xs) :=
  eapply good_bind; [eapply H; rand_side|cbv beta; intros xs].
Lemma good_ret {A} (a : A) (P : A → Prop) : P a → good (rret a) P.
Proof. intros Ha. split; [by apply safe_ret|by apply total_ret]. Qed.
Lemma good_next : good next (λ _, True).
Proof. split; [apply safe_next|apply total_next]. Qed.
Lemma good_check b : b = true → good (check b) (λ _, True).
Proof. intros Hb. split; [by apply safe_check|by apply total_check]. Qed.
Lemma good_lift {A} (o : option A) a (P : A → Prop) : o = Some a → P a → good (lift o) P.
Proof. intros ->. apply (good_ret a). Qed.
Lemma good_impl {A} (m : rand A) (P Q : A → Prop) : good m P → (∀ a, P a → Q a) → good m Q.
Proof.
  intros [H1 H2] HPQ. split; [intros ds; specialize (H1 ds); destruct (m ds); auto|].
  intros ds. destruct (H2 ds) as (d&a&r&?&?&?&?). exists d, a, r. auto.
Qed.

(** No assertion fails, and whatever was drawn, more numbers give a result. *)
Definition completes {A} (m : rand A) : Prop := ∀ ds, m ds ≠ Fail ∧ ∃ ds' a rest, m (ds ++ ds') = Done a rest.
Lemma good_completes {A} (m : rand A) P : good m P → completes m.
Proof.
  intros [H1 H2] ds. split; [intros Hf; specialize (H1 ds); by rewrite Hf in H1|].
  destruct (H2 ds) as (ds'&a&rest&H&_). exists ds', a, (rest ++ []). rewrite <-H. by rewrite app_nil_r.
Qed.

Lemma good_rmap {A B} (f : A → rand B) (Q : A → B → Prop) l : (∀ a, a ∈ l → good (f a) (Q a)) → good (rmap f l) (Forall2 Q l).
Proof.
  induction l as [|a l IH]; intros Hf; [by apply good_ret|]. cbn [rmap]. eapply good_bind; [apply Hf; by left|]. intros b Hb.
  eapply good_bind; [apply IH; intros x Hx; apply Hf; by right|]. intros bs Hbs. apply good_ret. by constructor.
Qed.

Lemma good_rmapS {S A B} (f : A → S → rand (B * S)) (Q : A → B → Prop) (I : S → Prop) l :
  (∀ a s, a ∈ l → I s → good (f a s) (λ '(b, s'), Q a b ∧ I s')) →
  ∀ s, I s → good (rmapS f l s) (λ '(bs, s'), Forall2 Q l bs ∧ I s').
Proof.
  induction l as [|a l IH]; intros Hf s Hs; [by apply good_ret|]. cbn [rmapS]. eapply good_bind; [apply Hf; [by left|done]|]. intros [b s1] [Hb H1].
  eapply good_bind; [apply IH; [intros x s' Hx; apply Hf; by right|done]|]. intros [bs s2] [Hbs H2]. apply good_ret. split; [by constructor|done].
Qed.

(** *** Loops that draw until a value fits *)

(** A computation that draws at least one number. *)
Definition eats {A} (m : rand A) : Prop := ∀ ds a r, m ds = Done a r → (length r < length ds)%nat.
(** The values that a computation can give from some numbers. *)
Definition reaches {A} (m : rand A) (a : A) : Prop := ∃ ds, ∀ x, m (ds ++ x) = Done a x.

Section until.
Context {A : Type} (m : rand A) (p : A → bool) (P : A → Prop).
Context (Hm : good m P) (Heat : eats m) (a0 : A) (Ha0 : reaches m a0) (Hp0 : p a0 = true).

Lemma until_safe fuel : safe (until_loop fuel m p) (λ a, P a ∧ p a = true).
Proof.
  induction fuel as [|fuel IH]; cbn [until_loop]; [done|]. eapply safe_bind; [apply Hm|]. intros a Ha.
  destruct (p a) eqn:Hp; [by apply safe_ret|done].
Qed.

Lemma until_total n : ∀ ds, (length ds ≤ n)%nat → ∃ ds' a rest,
  (∀ x fuel, (length (ds ++ ds' ++ x) < fuel)%nat → until_loop fuel m p (ds ++ ds' ++ x) = Done a (rest ++ x)) ∧
  (length rest ≤ length ds)%nat ∧ (ds' = [] ∨ rest = []) ∧ P a ∧ p a = true.
Proof.
  induction n as [n IH] using lt_wf_ind. intros ds Hn. destruct (proj2 Hm ds) as (d1&a&r1&H1&Hl1&Ho1&Ha). destruct (p a) eqn:Hp.
  { exists d1, a, r1. split_and!; try done. intros x [|fuel] Hf; [lia|]. cbn [until_loop]. unfold rbind. by rewrite H1, Hp. }
  destruct Ho1 as [-> | ->].
  - pose proof (Heat _ _ _ (H1 [])) as He. rewrite !length_app in He. cbn [length] in He. destruct (IH (length r1) ltac:(lia) r1 ltac:(lia)) as (d2&b&r2&H2&Hl2&Ho2&Hb).
    exists d2, b, r2. split_and!; try done; [|lia|apply Hb..]. intros x [|fuel] Hf; [lia|]. cbn [until_loop]. unfold rbind.
    specialize (H1 (d2 ++ x)). rewrite app_nil_l in H1. rewrite H1, Hp. apply H2. rewrite !length_app in *. lia.
  - destruct Ha0 as [d0 Hd0]. exists (d1 ++ d0), a0, []. split_and!; try done; [|by right|].
    + intros x [|[|fuel]] Hf; [lia| |].
      { exfalso. pose proof (Heat _ _ _ (H1 [])) as He. rewrite !length_app in *. simpl in *. lia. }
      cbn [until_loop]. unfold rbind. rewrite <-app_assoc, H1, Hp. cbn [app]. by rewrite Hd0, Hp0.
    + pose proof (proj1 Hm (d0 ++ [])) as Hs. by rewrite Hd0 in Hs.
Qed.

Lemma good_until : good (until m p) (λ a, P a ∧ p a = true).
Proof.
  split; [intros ds; apply until_safe|]. intros ds. destruct (until_total (length ds) ds ltac:(lia)) as (d&a&r&H1&H2&H3&H4).
  exists d, a, r. split_and!; try done; [|apply H4..]. intros x. apply H1. lia.
Qed.

End until.

End Rand.
