(* ===== verification/Double.v ===== *)
(** * Double: the [double] columns of rows

    A column of type [double] is 64 bits of a row.  Its value is a binary64 number of the
    Standard Library's [SpecFloat], and the results of operations are rounded as the hardware
    rounds them, to nearest even. *)

From Stdlib Require Import SpecFloat.
From S2P Require Import Prelude.

Module Double.

Definition double_of_bits (z : Z) : spec_float :=
  let s := Z.testbit z 63 in
  let e := Z.land (Z.shiftr z 52) 2047 in
  let m := Z.land z (2 ^ 52 - 1) in
  if e =? 0 then match m with Zpos p => S754_finite s p (-1074) | _ => S754_zero s end
  else if e =? 2047 then (if m =? 0 then S754_infinity s else S754_nan)
  else match m + 2 ^ 52 with Zpos p => S754_finite s p (e - 1075) | _ => S754_nan end.

Definition sign_bit (s : bool) : Z := if s then 2 ^ 63 else 0.

Definition bits_of_double (d : spec_float) : Z :=
  match d with
  | S754_zero s => sign_bit s
  | S754_infinity s => sign_bit s + Z.shiftl 2047 52
  | S754_nan => Z.shiftl 4095 51
  | S754_finite s m e =>
      sign_bit s + (if Zpos m <? 2 ^ 52 then Zpos m else Z.shiftl (e + 1075) 52 + (Zpos m - 2 ^ 52))
  end.

(** [+] and [-] of doubles, and the constant 1. *)
Definition dadd (a b : Z) : Z := bits_of_double (SFadd 53 1024 (double_of_bits a) (double_of_bits b)).
Definition dsub (a b : Z) : Z := bits_of_double (SFsub 53 1024 (double_of_bits a) (double_of_bits b)).
Definition d_one : Z := Z.shiftl 1023 52.

(** The conversion of an integer, [/], the change of the sign and [<]. *)
Definition d_of_Z (z : Z) : Z := bits_of_double (binary_normalize 53 1024 z 0 false).
Definition ddiv (a b : Z) : Z := bits_of_double (SFdiv 53 1024 (double_of_bits a) (double_of_bits b)).
Definition dopp (a : Z) : Z := bits_of_double (SFopp (double_of_bits a)).
Definition dltb (a b : Z) : bool := SFltb (double_of_bits a) (double_of_bits b).

(** [*] and [==]. *)
Definition dmul (a b : Z) : Z := bits_of_double (SFmul 53 1024 (double_of_bits a) (double_of_bits b)).
Definition deqb (a b : Z) : bool := SFeqb (double_of_bits a) (double_of_bits b).

(** The conversion to [uint64_t] drops the fraction; it is not defined for numbers that do
    not fit then. *)
Definition d_to_u64 (a : Z) : option Z :=
  match double_of_bits a with
  | S754_zero _ => Some 0
  | S754_finite s m e =>
      let t := Z.shiftl (Zpos m) e in
      if (if s then t =? 0 else t <? u64_mod) then Some t else None
  | _ => None
  end.

(** The sign, the exponent and the fraction of a word. *)
Lemma fields_of_bits z : is_u64 z →
  z = sign_bit (Z.testbit z 63) + Z.shiftl (Z.land (Z.shiftr z 52) 2047) 52 + Z.land z (2 ^ 52 - 1).
Proof.
  intros Hz. unfold is_u64, u64_mod in Hz. change 2047 with (Z.ones 11). change (2 ^ 52 - 1) with (Z.ones 52).
  rewrite !Z.land_ones, Z.shiftl_mul_pow2, Z.shiftr_div_pow2 by lia.
  assert (sign_bit (Z.testbit z 63) = z / 2 ^ 63 * 2 ^ 63) as ->.
  { unfold sign_bit. rewrite Z.testbit_odd, Z.shiftr_div_pow2 by lia.
    assert (z / 2 ^ 63 = 0 ∨ z / 2 ^ 63 = 1) as [-> | ->]; [|done..].
    assert (0 ≤ z / 2 ^ 63 < 2); [|lia]. split; [apply Z.div_pos; lia|apply Z.div_lt_upper_bound; lia]. }
  change (2 ^ 63) with (2 ^ 52 * 2 ^ 11). rewrite <-Z.div_div by lia.
  pose proof (Z.div_mod z (2 ^ 52)). pose proof (Z.div_mod (z / 2 ^ 52) (2 ^ 11)). lia.
Qed.

Lemma bits_of_double_of_bits z : is_u64 z → double_of_bits z ≠ S754_nan → bits_of_double (double_of_bits z) = z.
Proof.
  intros Hz. pose proof (fields_of_bits z Hz) as Hf. unfold double_of_bits.
  assert (0 ≤ Z.land z (2 ^ 52 - 1) < 2 ^ 52) as Hm.
  { change (2 ^ 52 - 1) with (Z.ones 52). rewrite Z.land_ones by lia. apply Z.mod_pos_bound. lia. }
  set (s := Z.testbit z 63) in *. set (e := Z.land (Z.shiftr z 52) 2047) in *. set (m := Z.land z (2 ^ 52 - 1)) in *.
  clearbody s e m. destruct (Z.eqb_spec e 0) as [He|He].
  { rewrite He, Z.shiftl_0_l in Hf. intros _. destruct m as [|p|p]; [simpl; lia| |lia]. cbn [bits_of_double].
    rewrite (proj2 (Z.ltb_lt _ _)) by lia. lia. }
  destruct (Z.eqb_spec e 2047) as [Hi|Hi].
  { destruct (Z.eqb_spec m 0) as [H0|H0]; [|done]. intros _. cbn [bits_of_double]. rewrite Hi, H0 in Hf. lia. }
  destruct (m + 2 ^ 52) as [|p|p] eqn:Hp; [lia| |lia]. intros _. cbn [bits_of_double].
  rewrite (proj2 (Z.ltb_ge _ _)) by lia. replace (e - 1075 + 1075) with e by lia. lia.
Qed.

(** *** Integers of at most 53 bits are doubles *)

Lemma digits2_pos_bounds p : 2 ^ (Zpos (digits2_pos p) - 1) ≤ Zpos p < 2 ^ Zpos (digits2_pos p).
Proof.
  induction p as [p IH|p IH|]; cbn [digits2_pos]; [| |done].
  all: rewrite Pos2Z.inj_succ, <-Z.add_1_r; replace (Zpos (digits2_pos p) + 1 - 1) with (Zpos (digits2_pos p) - 1 + 1) by lia;
    rewrite !Z.pow_add_r by lia; lia.
Qed.

Lemma fexp_53 d e : -1074 ≤ d + e - 53 → fexp 53 1024 (d + e) = d + e - 53.
Proof. intros H. unfold fexp, SpecFloat.emin. lia. Qed.

(** A number of 53 bits needs no rounding. *)
Lemma round_exact m e : Zpos (digits2_pos m) = 53 → -1074 ≤ e ≤ 971 → binary_round_aux 53 1024 false (Zpos m) e loc_Exact = S754_finite false m e.
Proof.
  intros Hd He. unfold binary_round_aux, shr_fexp. cbn [Zdigits2]. rewrite fexp_53, Hd by lia.
  replace (53 + e - 53 - e) with 0 by lia. cbn. rewrite Hd, (fexp_53 53) by lia.
  replace (53 + e - 53 - e) with 0 by lia. cbn. case_match; [done|]. lia.
Qed.

Lemma pow2_le_inv a b : 0 ≤ b → 2 ^ a < 2 ^ b → a < b.
Proof. intros Hb H. apply (Z.pow_lt_mono_r_iff 2); lia. Qed.

Lemma normalize_exact p : Zpos p < 2 ^ 53 → ∃ m e, binary_normalize 53 1024 (Zpos p) 0 false = S754_finite false m e ∧
  2 ^ 52 ≤ Zpos m < 2 ^ 53 ∧ -52 ≤ e ≤ 0 ∧ Zpos m = Zpos p * 2 ^ (- e).
Proof.
  intros Hp. pose proof (digits2_pos_bounds p) as Hd. set (d := Zpos (digits2_pos p)) in Hd.
  assert (1 ≤ d ≤ 53) as Hd53. { pose proof (pow2_le_inv (d - 1) 53). lia. }
  cbn [binary_normalize]. unfold binary_round. rewrite fexp_53 by lia. fold d. unfold shl_align.
  assert (∃ m, (match d + 0 - 53 - 0 with Zneg k => (Pos.iter xO p k, d + 0 - 53) | _ => (p, 0) end) = (m, d - 53) ∧
    Zpos m = Zpos p * 2 ^ (53 - d)) as (m&->&Hm).
  { destruct (d + 0 - 53 - 0) as [|k|k] eqn:Hk; [|lia|].
    - exists p. replace d with 53 by lia. split; [done|]. lia.
    - exists (Pos.iter xO p k). split; [f_equal; lia|]. change (Pos.iter xO p k) with (Zpower.shift_pos k p). rewrite Zpower.shift_pos_correct, Z.mul_comm. f_equal.
      replace (53 - d) with (Zpos k) by lia. done. }
  assert (2 ^ 52 ≤ Zpos m < 2 ^ 53) as Hb.
  { rewrite Hm. replace (2 ^ 52) with (2 ^ (d - 1) * 2 ^ (53 - d)) by (rewrite <-Z.pow_add_r by lia; f_equal; lia).
    replace (2 ^ 53) with (2 ^ d * 2 ^ (53 - d)) by (rewrite <-Z.pow_add_r by lia; f_equal; lia).
    assert (0 < 2 ^ (53 - d)) by (apply Z.pow_pos_nonneg; lia). nia. }
  exists m, (d - 53). rewrite round_exact; [|pose proof (digits2_pos_bounds m)|lia].
  - split; [done|]. split; [done|]. split; [lia|]. by replace (- (d - 53)) with (53 - d) by lia.
  - pose proof (pow2_le_inv (Zpos (digits2_pos m) - 1) 53). pose proof (pow2_le_inv 52 (Zpos (digits2_pos m))). lia.
Qed.

(** A normal positive number is its bits. *)
Lemma double_of_normal m e : 2 ^ 52 ≤ Zpos m < 2 ^ 53 → -1074 ≤ e ≤ 971 → double_of_bits (bits_of_double (S754_finite false m e)) = S754_finite false m e.
Proof.
  intros Hm He. cbn [bits_of_double sign_bit]. rewrite (proj2 (Z.ltb_ge _ _)), Z.add_0_l, Z.shiftl_mul_pow2 by lia.
  set (f := Zpos m - 2 ^ 52). assert (0 ≤ f < 2 ^ 52) as Hf by lia. unfold double_of_bits.
  change 2047 with (Z.ones 11). change (2 ^ 52 - 1) with (Z.ones 52). rewrite !Z.land_ones, Z.shiftr_div_pow2 by lia.
  rewrite Z.div_add_l, (Z.div_small f), Z.add_0_r, (Z.mod_small (e + 1075)) by lia.
  assert (((e + 1075) * 2 ^ 52 + f) `mod` 2 ^ 52 = f) as -> by (rewrite Z.add_comm, Z.mod_add, Z.mod_small; lia).
  rewrite Z.testbit_odd, Z.shiftr_div_pow2, (Z.div_small _ (2 ^ 63)) by lia.
  change (Z.ones 11) with 2047. rewrite (proj2 (Z.eqb_neq (e + 1075) 0)), (proj2 (Z.eqb_neq (e + 1075) 2047)) by lia.
  replace (f + 2 ^ 52) with (Zpos m) by lia. f_equal. lia.
Qed.

(** An integer below 2^53 comes back from [double] as it was. *)
Lemma d_to_u64_of_Z z : 0 ≤ z < 2 ^ 53 → d_to_u64 (d_of_Z z) = Some z.
Proof.
  intros Hz. destruct z as [|p|p]; [done| |lia]. unfold d_to_u64, d_of_Z.
  destruct (normalize_exact p) as (m&e&->&Hm&He&Hp); [lia|]. rewrite double_of_normal by lia.
  assert (Z.shiftl (Zpos m) e = Zpos p) as ->.
  { replace e with (- (- e)) by lia. rewrite Z.shiftl_opp_r, Z.shiftr_div_pow2, Hp by lia. apply Z.div_mul.
    pose proof (Z.pow_pos_nonneg 2 (- e)). lia. }
  by rewrite (proj2 (Z.ltb_lt _ _)) by (unfold u64_mod; lia).
Qed.

End Double.
