(* ===== verification/YcsbLoad.v ===== *)
(** * YcsbLoad: the tables of YCSB and the queries on them

    Model of the loader of YCSB ([init_table_slice], benchmarks/ycsb_wl.cpp), whose threads
    put the rows of a node into its hash index, and of the generator of queries
    ([gen_requests_zipf], benchmarks/ycsb_query.cpp).  Random numbers are an input, the
    list of values that [mrand->next] returns; doubles are 64-bit words ([Double]), and the
    function [pow] of the mathematical library is a parameter.  The theorems say which rows
    a node has, and that every query asks for rows that exist where it looks for them. *)

From S2P Require Import Prelude Rand Double Sequencer IndexHash TwoPC YcsbTxn.

Module YcsbLoad.
Import Rand.Rand Double.Double Sequencer YcsbTxn.

Record params := mkP {
  g_synth_table_size : Z;
  g_init_parallelism : Z;
  g_req_per_query : nat;
  g_strict_ppt : bool;
  g_part_per_txn : Z;
  g_key_order : bool;
  FIRST_PART_LOCAL : bool;
  (** doubles *)
  g_zipf_theta : Z;
  g_txn_read_perc : Z;
  g_tup_read_perc : Z }.

(** ** The loader *)

Section load.
Context (c : config) (p : params) (g_node_id : Z).

(** The keys of the rows that a thread makes, between [key] and [hi]. *)
Fixpoint slice_loop (fuel : nat) (key hi : Z) : option (list Z) :=
  match fuel with
  | O => None
  | S fuel =>
      if key <? hi then
        if negb (GET_NODE_ID c (key_to_part c key) =? g_node_id) then slice_loop fuel (wrap64 (key + 1)) hi
        else (key ::.) <$> slice_loop fuel (wrap64 (key + g_part_cnt c)) hi
      else Some []
  end.

Definition init_table_slice (fuel : nat) (tid : Z) : option (list Z) :=
  ASSERT g_synth_table_size p `mod` g_init_parallelism p =? 0;
  ASSERT tid <? g_init_parallelism p;
  let slice_size := g_synth_table_size p / g_init_parallelism p in
  slice_loop fuel (wrap64 (slice_size * tid)) (wrap64 (slice_size * (tid + 1))).

(** The insertions of all threads, in the order in which they happen.  A row is identified
    by its primary key. *)
Fixpoint insert_rows (ks : list Z) (t : IndexHash.index) : option IndexHash.index :=
  match ks with
  | [] => Some t
  | k :: ks => t ← IndexHash.index_insert YCSB (g_part_cnt c) k (Z.to_nat k) t; insert_rows ks t
  end.

(** The lookup of [run_ycsb_0]. *)
Definition find_row (key : Z) (t : IndexHash.index) : option nat :=
  l ← IndexHash.index_read YCSB (g_part_cnt c) key t; head l.

End load.

(** ** The generator *)

Section gen.
Context (pow : Z → Z → Z) (c : config) (p : params) (home_partition_id : Z).

Definition table_size : Z := g_synth_table_size p / g_part_cnt c.

(** The members of the generator *)
Record YCSBQueryGenerator := mkGen { the_n : Z; denom : Z; zeta_2_theta : Z }.

(** The loop adds the terms from [i] on; it ends because [n] is not the largest number. *)
Fixpoint zeta_loop (n : nat) (i theta sum : Z) : Z :=
  match n with
  | O => sum
  | S n => zeta_loop n (i + 1) theta (dadd sum (pow (ddiv (d_of_Z 1) (d_of_Z i)) theta))
  end.
Definition zeta (n theta : Z) : Z := zeta_loop (Z.to_nat n) 1 theta (d_of_Z 0).

Definition init : YCSBQueryGenerator :=
  let n := wrap64 (table_size - 1) in
  mkGen n (zeta n (g_zipf_theta p)) (zeta 2 (g_zipf_theta p)).

(** The result of [zipf] from the value [d] of [mrand->next]. *)
Definition zipf_of (g : YCSBQueryGenerator) (n theta d : Z) : option Z :=
  let one := d_of_Z 1 in
  let alpha := ddiv one (dsub one theta) in
  let zetan := denom g in
  let eta := ddiv (dsub one (pow (ddiv (d_of_Z 2) (d_of_Z n)) (dsub one theta)))
                  (dsub one (ddiv (zeta_2_theta g) zetan)) in
  let u := ddiv (d_of_Z (d `mod` 10000000)) (d_of_Z 10000000) in
  let uz := dmul u zetan in
  if dltb uz one then Some 1
  else if dltb uz (dadd one (pow (ddiv one (d_of_Z 2)) theta)) then Some 2
  else
    k ← d_to_u64 (dmul (d_of_Z n) (pow (dadd (dsub (dmul eta u) eta) one) alpha));
    Some (wrap64 (1 + k)).

Definition zipf (g : YCSBQueryGenerator) (n theta : Z) : rand Z := (
  _ <-- check (the_n g =? n);
  _ <-- check (deqb theta (g_zipf_theta p));
  d <-- next;
  lift (zipf_of g n theta d))%rand.

(** [(double)(mrand->next() % 10000) / 10000], and whether a request reads, from the values
    drawn for the query and for the request *)
Definition fraction (d : Z) : Z := ddiv (d_of_Z (d `mod` 10000)) (d_of_Z 10000).
Definition is_read (r_twr r : Z) : bool :=
  dltb (fraction r_twr) (g_txn_read_perc p) || dltb (fraction r) (g_tup_read_perc p).

Record gen_state := mkGs { gs_reqs : list ycsb_request; partitions_accessed : list Z }.

Definition all_keys (st : gen_state) : list Z := key <$> gs_reqs st.

(** The condition of the inner loop *)
Definition redraw (accessed : list Z) (partition_id : Z) : bool :=
  g_strict_ppt p && (g_part_per_txn p <=? g_part_cnt c) &&
  ((zlen accessed <? g_part_per_txn p) && sset_count partition_id accessed ||
   (zlen accessed =? g_part_per_txn p) && negb (sset_count partition_id accessed)).

Fixpoint draw_partition (accessed : list Z) (ds : list Z) : res Z :=
  match ds with
  | [] => More
  | d :: ds =>
      let partition_id := d `mod` g_part_cnt c in
      if redraw accessed partition_id then draw_partition accessed ds else Done partition_id ds
  end.

(** The row of a request *)
Definition draw_row (g : YCSBQueryGenerator) : rand Z := (
  row_id <-- zipf g (wrap64 (table_size - 1)) (g_zipf_theta p);
  _ <-- check (row_id <? table_size);
  rret row_id)%rand.

(** One pass of the loop; the counter is the number of requests. *)
Definition gen_request (g : YCSBQueryGenerator) (r_twr : Z) (st : gen_state) : rand gen_state := (
  r <-- next;
  partition_id <-- (if FIRST_PART_LOCAL p && bool_decide (gs_reqs st = []) then rret home_partition_id
                    else draw_partition (partitions_accessed st));
  row_id <-- draw_row g;
  let primary_key := wrap64 (wrap64 (row_id * g_part_cnt c) + partition_id) in
  _ <-- check (primary_key <? g_synth_table_size p);
  _ <-- next;
  if bool_decide (primary_key ∈ all_keys st) then rret st
  else
    _ <-- check (bool_decide (length (gs_reqs st) < g_req_per_query p)%nat);
    rret (mkGs (gs_reqs st ++ [mkReq (if is_read r_twr r then RD else WR) primary_key])
               (sset_insert partition_id (partitions_accessed st))))%rand.

Definition request_cnt : nat := 4.

Fixpoint gen_loop (g : YCSBQueryGenerator) (fuel : nat) (r_twr : Z) (st : gen_state) : rand gen_state :=
  if bool_decide (request_cnt ≤ length (gs_reqs st))%nat then rret st
  else match fuel with
  | O => λ _, More
  | S fuel => rbind (gen_request g r_twr st) (gen_loop g fuel r_twr)
  end.

(** The inner loop of the sort, from the end of the list. *)
Fixpoint bubble (l : list ycsb_request) : list ycsb_request :=
  match l with
  | [] => []
  | x :: l =>
      match bubble l with
      | [] => [x]
      | y :: r => if key y <? key x then y :: x :: r else x :: y :: r
      end
  end.
Fixpoint sort_requests (n : nat) (l : list ycsb_request) : list ycsb_request :=
  match n with
  | O => l
  | S n => match bubble l with [] => [] | x :: r => x :: sort_requests n r end
  end.

(** Every pass of the loop draws a number, so that the fuel is never used up. *)
Definition gen_requests_zipf (g : YCSBQueryGenerator) : rand (list ycsb_request * list Z) := (
  r_twr <-- next;
  st <-- (λ ds, gen_loop g (length ds) r_twr (mkGs [] []) ds);
  _ <-- check (bool_decide (length (gs_reqs st) = request_cnt));
  rret (if g_key_order p then sort_requests (length (gs_reqs st)) (gs_reqs st) else gs_reqs st,
        partitions_accessed st))%rand.

(** [create_query] with Zipf distributed rows, which is the configuration *)
Definition create_query (g : YCSBQueryGenerator) : rand (list ycsb_request * list Z) := (
  _ <-- check (negb (the_n g =? 0));
  gen_requests_zipf g)%rand.

End gen.

(** ** The rows of a node *)

Section load_proofs.
Context (c : config) (p : params) (me : Z).
#[local] Abbreviation N := (Z.of_nat (g_node_cnt c)).
Context (Hpart : g_part_cnt c = N) (Hme : 0 ≤ me < N).

Lemma owner_mod k : GET_NODE_ID c (key_to_part c k) = k `mod` N.
Proof. unfold GET_NODE_ID, key_to_part. rewrite Hpart. apply Z.mod_mod. lia. Qed.

Lemma slice_spec fuel : ∀ lo hi, 0 ≤ lo → hi + N < u64_mod → (Z.to_nat (hi - lo) < fuel)%nat →
  ∃ l, slice_loop c me fuel lo hi = Some l ∧ NoDup l ∧ ∀ k, k ∈ l ↔ lo ≤ k < hi ∧ k `mod` N = me.
Proof.
  induction fuel as [|fuel IH]; intros lo hi Hlo Hhi Hf; [lia|]. cbn [slice_loop].
  destruct (Z.ltb_spec lo hi) as [Hlt|Hge].
  2:{ exists []. split; [done|]. split; [constructor|]. intros k. rewrite elem_of_nil. split; [done|lia]. }
  rewrite owner_mod, !wrap64_small by (unfold is_u64; lia). destruct (Z.eqb_spec (lo `mod` N) me) as [Heq|Hne]; cbn [negb].
  - destruct (IH (lo + N) hi) as (l&Hl&Hnd&Hin); [lia..|]. rewrite Hpart, Hl. exists (lo :: l). split; [done|]. split.
    + constructor; [|done]. rewrite Hin. lia.
    + intros k. rewrite elem_of_cons, Hin. split; [intros [->|[? ?]]; (split; [lia|done])|]. intros [Hk Hm].
      destruct (decide (k = lo)) as [|Hne]; [by left|right]. split; [|done]. split; [|lia].
      pose proof (Z.div_mod k N ltac:(lia)) as H1. pose proof (Z.div_mod lo N ltac:(lia)) as H2. rewrite Hm in H1.
      rewrite Heq in H2. assert (lo `div` N < k `div` N) by (apply (Zmult_lt_reg_r _ _ N); lia).
      assert (N * (lo `div` N + 1) ≤ N * (k `div` N)) by (apply Z.mul_le_mono_nonneg_l; lia). lia.
  - destruct (IH (lo + 1) hi) as (l&Hl&Hnd&Hin); [lia..|]. exists l. split; [done|]. split; [done|].
    intros k. rewrite Hin. split; [intros [? ?]; split; [lia|done]|]. intros [Hk Hm].
    split; [|done]. split; [|lia]. assert (k ≠ lo) by congruence. lia.
Qed.

(** [insert_rows] on an index that has the rows [done]. *)
Lemma insert_rows_spec ks : ∀ done t, IndexHash.wf YCSB (g_part_cnt c) t → NoDup (done ++ ks) →
  (∀ k, IndexHash.abstract YCSB (g_part_cnt c) t k = if decide (k ∈ done) then [[Z.to_nat k]] else []) →
  ∃ t', insert_rows c ks t = Some t' ∧
    ∀ k, find_row c k t' = if decide (k ∈ done ++ ks) then Some (Z.to_nat k) else None.
Proof.
  induction ks as [|k ks IH]; intros done t Hwf Hnd Habs.
  - exists t. split; [reflexivity|]. intros k. rewrite app_nil_r. unfold find_row.
    rewrite (IndexHash.index_read_spec YCSB (g_part_cnt c) t _ k Hwf Habs). by case_decide.
  - destruct (IndexHash.index_insert_spec YCSB (g_part_cnt c) t _ k (Z.to_nat k) Hwf Habs) as (t1&Ht1&Hwf1&Habs1).
    cbn [insert_rows]. rewrite Ht1. cbn [mbind option_bind].
    replace (done ++ k :: ks) with ((done ++ [k]) ++ ks) in * by (by rewrite <-app_assoc).
    apply IH; [exact Hwf1|exact Hnd|]. intros k'. rewrite Habs1. unfold IndexHash.spec_insert.
    apply NoDup_app in Hnd as (Hnd&_&_). apply NoDup_app in Hnd as (_&Hk&_).
    destruct (decide (k = k')) as [<-|Hne].
    + rewrite fn_lookup_insert, decide_False, decide_True; [reflexivity|set_solver|].
      intros Hin. apply (Hk k Hin). by left.
    + rewrite fn_lookup_insert_ne by exact Hne. apply decide_ext. set_solver.
Qed.

(** All threads together. *)
Context (Hpar : 0 < g_init_parallelism p) (Hdiv : (g_init_parallelism p | g_synth_table_size p)).
Context (Hsize : N ≤ g_synth_table_size p) (Hfits : g_synth_table_size p + N < u64_mod).
Context (fuel : nat) (Hfuel : (Z.to_nat (g_synth_table_size p) < fuel)%nat).

#[local] Abbreviation slice_size := (g_synth_table_size p `div` g_init_parallelism p).

Lemma thread_slice tid : 0 ≤ tid < g_init_parallelism p →
  ∃ l, init_table_slice c p me fuel tid = Some l ∧ NoDup l ∧
    ∀ k, k ∈ l ↔ slice_size * tid ≤ k < slice_size * (tid + 1) ∧ k `mod` N = me.
Proof.
  intros Ht. unfold init_table_slice. destruct Hdiv as [s Hs].
  assert (slice_size = s) as -> by (rewrite Hs; apply Z.div_mul; lia).
  rewrite assert_bind_true by (apply Z.eqb_eq; rewrite Hs; apply Z.mod_mul; lia).
  rewrite assert_bind_true by (apply Z.ltb_lt; lia). cbn [mbind option_bind].
  assert (0 < s) by nia. assert (0 ≤ s * tid ∧ s * (tid + 1) ≤ s * g_init_parallelism p) as [H0 H1] by nia.
  rewrite !wrap64_small by (unfold is_u64; nia). apply slice_spec; [done|lia|]. nia.
Qed.

Lemma node_rows : ∃ ls, mapM (init_table_slice c p me fuel) (seqZ 0 (g_init_parallelism p)) = Some ls ∧
  ∀ ks, interleave ls ks → NoDup ks ∧
    ∃ t, insert_rows c ks (IndexHash.init (g_synth_table_size p / g_part_cnt c)) = Some t ∧
      ∀ k, find_row c k t = if decide (0 ≤ k < g_synth_table_size p ∧ k `mod` N = me) then Some (Z.to_nat k) else None.
Proof.
  set (f := λ tid, default [] (init_table_slice c p me fuel tid)). exists (f <$> seqZ 0 (g_init_parallelism p)).
  assert (∀ tid, tid ∈ seqZ 0 (g_init_parallelism p) → init_table_slice c p me fuel tid = Some (f tid) ∧ NoDup (f tid) ∧
    ∀ k, k ∈ f tid ↔ slice_size * tid ≤ k < slice_size * (tid + 1) ∧ k `mod` N = me) as Hf.
  { intros tid Ht%elem_of_seqZ. destruct (thread_slice tid) as (l&Hl&Hrest); [lia|]. unfold f. by rewrite Hl. }
  split. { apply mapM_Some. apply Forall2_fmap_r, Forall_Forall2_diag, Forall_forall. intros tid Ht. by apply Hf. }
  assert (∃ s, g_synth_table_size p = s * g_init_parallelism p ∧ slice_size = s ∧ 0 < s) as (s&Hs&Hsl&Hs0).
  { destruct Hdiv as [s Hs]. exists s. split; [done|]. split; [rewrite Hs; apply Z.div_mul; lia|]. nia. }
  rewrite Hsl in Hf.
  intros ks Hks%interleave_perm.
  assert (∀ k, k ∈ ks ↔ 0 ≤ k < g_synth_table_size p ∧ k `mod` N = me) as Hin.
  { intros k. rewrite Hks, elem_of_concat_fmap. split.
    - intros (tid&Ht&Hk). apply Hf in Hk as [Hr Hm]; [|done]. apply elem_of_seqZ in Ht. split; [nia|done].
    - intros [Hr Hm]. pose proof (Z.div_mod k s ltac:(lia)). pose proof (Z.mod_pos_bound k s Hs0).
      assert (0 ≤ k / s < g_init_parallelism p).
      { split; [apply Z.div_pos; lia|]. apply Z.div_lt_upper_bound; lia. }
      exists (k / s). assert (k / s ∈ seqZ 0 (g_init_parallelism p)) as Ht by (apply elem_of_seqZ; lia).
      split; [done|]. apply Hf; [done|]. split; [lia|done]. }
  assert (NoDup ks) as Hnd.
  { rewrite Hks. rewrite <-(list_fmap_id (concat _)). apply NoDup_concat_fmap; [apply NoDup_seqZ| |].
    - intros tid Ht. rewrite list_fmap_id. by apply Hf.
    - intros t1 t2 a b Ht1 Ht2 Ha Hb Hab. apply Hf in Ha as [Ha _]; [|done]. apply Hf in Hb as [Hb _]; [|done].
      simpl in Hab. subst b. nia. }
  split; [done|].
  destruct (IndexHash.init_abstract YCSB (g_part_cnt c) (g_synth_table_size p / g_part_cnt c)) as [Hwf Habs].
  { apply Z.div_str_pos. lia. }
  { lia. }
  destruct (insert_rows_spec ks [] _ Hwf Hnd) as (t&Ht&Hfind).
  { intros k. rewrite Habs. symmetry. apply decide_False. apply not_elem_of_nil. }
  exists t. split; [exact Ht|]. intros k. rewrite Hfind. apply decide_ext. exact (Hin k).
Qed.

End load_proofs.

(** ** Computations that fail on bad draws only *)

Section guarded.
Context (bad : Z → Prop).

Definition gsafe {A} (m : rand A) (P : A → Prop) : Prop := ∀ ds,
  match m ds with Done a r => P a ∧ r ⊆ ds | More => True | Fail => ∃ d, d ∈ ds ∧ bad d end.

(** As long as no assertion has failed, further values complete the computation. *)
Definition gtotal {A} (m : rand A) (P : A → Prop) : Prop := m [] ≠ Fail ∧ ∀ ds, m ds ≠ Fail → ∃ ds' a rest,
  (∀ x, m (ds ++ ds' ++ x) = Done a (rest ++ x)) ∧ (length rest ≤ length ds)%nat ∧ (ds' = [] ∨ rest = []) ∧ P a.

Definition ggood {A} (m : rand A) (P : A → Prop) : Prop := gsafe m P ∧ gtotal m P.

Lemma gsafe_bind {A B} (m : rand A) (k : A → rand B) P Q :
  gsafe m P → (∀ a, P a → gsafe (k a) Q) → gsafe (rbind m k) Q.
Proof.
  intros Hm Hk ds. unfold rbind. specialize (Hm ds). destruct (m ds) as [a r| |]; [|done..].
  destruct Hm as [Ha Hr]. specialize (Hk a Ha r). destruct (k a r) as [b r'| |]; [|done|].
  - destruct Hk as [? ?]. split; [done|by etrans].
  - destruct Hk as (d&?&?). eauto.
Qed.

Lemma ggood_bind {A B} (m : rand A) (k : A → rand B) P Q :
  ggood m P → (∀ a, P a → ggood (k a) Q) → ggood (rbind m k) Q.
Proof.
  intros [Hs [Hn Ht]] Hk. split; [eapply gsafe_bind; [done|intros a Ha; by apply Hk]|]. split.
  - unfold rbind. specialize (Hs []). destruct (m []) as [a r| |]; [|done..]. destruct Hs as [Ha Hr].
    destruct r as [|d r]; [by apply Hk|]. exfalso. apply (not_elem_of_nil d), Hr. by left.
  - intros ds Hf. destruct (Ht ds) as (d1&a&r1&H1&Hl1&Ho1&Ha); [intros E; unfold rbind in Hf; by rewrite E in Hf|].
    assert (k a r1 ≠ Fail) as Hk1.
    { destruct Ho1 as [-> | ->]; [|by apply Hk]. specialize (H1 []). rewrite !app_nil_r in H1.
      unfold rbind in Hf. by rewrite H1 in Hf. }
    destruct (proj2 (proj2 (Hk a Ha)) r1 Hk1) as (d2&b&r2&H2&Hl2&Ho2&Hb).
    exists (d1 ++ d2), b, r2. split; [|split; [lia|split; [|done]]].
    + intros x. unfold rbind. by rewrite <-app_assoc, H1, H2.
    + destruct Ho1 as [-> | ->]; [done|]. right. destruct r2; [done|simpl in Hl2; lia].
Qed.

Lemma ggood_ret {A} (a : A) (P : A → Prop) : P a → ggood (rret a) P.
Proof. intros Ha. split; [done|]. split; [done|]. intros ds _. exists [], a, ds. split_and!; auto. Qed.
Lemma ggood_check b : b = true → ggood (check b) (λ _, True).
Proof. intros ->. exact (ggood_ret tt (λ _, True) I). Qed.
Lemma ggood_next : ggood next (λ _, True).
Proof.
  split; [intros [|d ds]; [done|]; split; [done|set_solver]|]. split; [done|]. intros ds _. apply total_next.
Qed.

End guarded.

(** ** The requests *)

Section gen_proofs.
Context (pow : Z → Z → Z) (c : config) (p : params) (home : Z).

#[local] Abbreviation G := (init pow c p).
Definition row_of (d : Z) : option Z := zipf_of pow G (wrap64 (table_size c p - 1)) (g_zipf_theta p) d.

#[local] Arguments row_of : simpl never.
#[local] Arguments init : simpl never.
#[local] Arguments is_read : simpl never.

(** The assertion on the row drawn from [d] holds. *)
Definition row_exists (d : Z) : Prop := ∃ row, row_of d = Some row ∧ row < table_size c p.

Record gen_ok : Prop := {
  go_part : 0 < g_part_cnt c;
  go_home : 0 ≤ home < g_part_cnt c;
  go_table : 2 ≤ table_size c p;
  go_size : g_synth_table_size p < u64_mod;
  (** the parameter of the distribution is a number *)
  go_theta : deqb (g_zipf_theta p) (g_zipf_theta p) = true;
  go_req : (request_cnt ≤ g_req_per_query p)%nat;
  go_ppt : 0 < g_part_per_txn p;
  (** enough rows can be drawn *)
  go_rows : ∃ ds, NoDup (row_of <$> ds) ∧ length ds = request_cnt ∧ Forall row_exists ds }.
Context (Hok : gen_ok).

#[local] Abbreviation bad := (λ d, ¬ row_exists d).

Lemma row_of_pos d row : row_of d = Some row → 0 ≤ row.
Proof.
  unfold row_of, zipf_of. repeat case_match; intros E; simplify_eq; [lia..|].
  destruct (d_to_u64 _); simplify_eq/=. apply Z.mod_pos_bound. unfold u64_mod. lia.
Qed.

Definition in_table (row : Z) : Prop := 0 ≤ row < table_size c p.

Lemma draw_row_eq : ∀ ds, draw_row pow c p G ds =
  match ds with
  | [] => More
  | d :: r => match row_of d with
              | Some row => if row <? table_size c p then Done row r else Fail
              | None => Fail
              end
  end.
Proof.
  intros ds. unfold draw_row, zipf, rbind, check. cbn [the_n init]. rewrite Z.eqb_refl, (go_theta Hok).
  destruct ds as [|d r]; [done|]. cbn [next]. fold (row_of d).
  unfold lift. destruct (row_of d); [|done]. by destruct (_ <? _).
Qed.

Lemma good_row : ∃ d row, row_of d = Some row ∧ in_table row.
Proof.
  destruct (go_rows Hok) as ([|d ds]&_&Hl&Hf); [done|]. apply Forall_cons in Hf as [(row&Hr&Hlt) _].
  exists d, row. split; [done|]. split; [by eapply row_of_pos|done].
Qed.

Lemma ggood_row : ggood bad (draw_row pow c p G) in_table.
Proof.
  split; [|split].
  - intros ds. rewrite draw_row_eq. destruct ds as [|d r]; [done|]. destruct (row_of d) as [row|] eqn:E.
    + destruct (Z.ltb_spec row (table_size c p)) as [Hlt|Hge].
      * split; [split; [by eapply row_of_pos|done]|set_solver].
      * exists d. split; [by left|]. intros (row'&Hr&?). simplify_eq. lia.
    + exists d. split; [by left|]. intros (row'&?&_). congruence.
  - by rewrite draw_row_eq.
  - intros [|d r]; rewrite draw_row_eq.
    + intros _. destruct good_row as (d&row&Hr&Hi). exists [d], row, []. split_and!; [|simpl; lia|by right|done].
      intros x. rewrite draw_row_eq. cbn [app]. rewrite Hr. by rewrite (proj2 (Z.ltb_lt _ _)) by apply Hi.
    + destruct (row_of d) as [row|] eqn:E; [|done]. destruct (Z.ltb_spec row (table_size c p)) as [Hlt|]; [|done].
      intros _. exists [], row, r. split_and!; [|simpl; lia|by left|split; [by eapply row_of_pos|done]].
      intros x. rewrite draw_row_eq. cbn [app]. rewrite E. by rewrite (proj2 (Z.ltb_lt _ _)).
Qed.

Definition strict : bool := g_strict_ppt p && (g_part_per_txn p <=? g_part_cnt c).

Record st_ok (st : gen_state) : Prop := {
  so_len : (length (gs_reqs st) ≤ request_cnt)%nat;
  so_nodup : NoDup (all_keys st);
  so_keys : Forall (λ r, 0 ≤ key r < g_synth_table_size p ∧ (acctype r = RD ∨ acctype r = WR)) (gs_reqs st);
  so_parts : ∀ q, q ∈ partitions_accessed st ↔ ∃ r, r ∈ gs_reqs st ∧ key r `mod` g_part_cnt c = q;
  so_sorted : StronglySorted Z.lt (partitions_accessed st);
  so_first : FIRST_PART_LOCAL p = true → ∀ r, gs_reqs st !! 0%nat = Some r → key r `mod` g_part_cnt c = home;
  so_strict : strict = true → zlen (partitions_accessed st) = Z.min (zlen (gs_reqs st)) (g_part_per_txn p) }.

Lemma redraw_not_strict accs q : strict = false → redraw c p accs q = false.
Proof. unfold redraw, strict. by intros ->. Qed.

Definition part_ok (st : gen_state) (q : Z) : Prop :=
  0 ≤ q < g_part_cnt c ∧ (FIRST_PART_LOCAL p = true → gs_reqs st = [] → q = home) ∧
  (strict = true → (zlen (partitions_accessed st) < g_part_per_txn p ↔ q ∉ partitions_accessed st)).

Lemma good_partition st : st_ok st → ∃ q, 0 ≤ q < g_part_cnt c ∧ redraw c p (partitions_accessed st) q = false.
Proof.
  intros Hst. pose proof (go_part Hok) as Hp. pose proof (go_ppt Hok) as Hppt.
  destruct strict eqn:Hs; [|exists 0; split; [lia|by apply redraw_not_strict]].
  pose proof (so_strict _ Hst Hs) as Hlen. pose proof Hs as [_ Hle%Z.leb_le]%andb_true_iff.
  set (accs := partitions_accessed st) in *. destruct (Z.lt_ge_cases (zlen accs) (g_part_per_txn p)) as [Hlt|Hge].
  - destruct (pick_fresh (seqZ 0 (g_part_cnt c)) accs) as (q&Hq%elem_of_seqZ&Hn); [apply NoDup_seqZ| |].
    { rewrite length_seqZ. lia. }
    exists q. split; [lia|]. unfold redraw, sset_count. rewrite (bool_decide_false (q ∈ accs)) by done.
    rewrite andb_false_r, (proj2 (Z.eqb_neq _ _)) by lia. by rewrite andb_false_r.
  - assert (zlen accs = g_part_per_txn p) as Heq by lia. destruct accs as [|q accs'] eqn:Ha; [simpl in *; lia|].
    rewrite <-Ha in *. exists q. assert (q ∈ accs) as Hq by (rewrite Ha; by left). split.
    + apply (so_parts _ Hst) in Hq as (r&_&<-). by apply Z.mod_pos_bound.
    + unfold redraw, sset_count. rewrite (bool_decide_true (q ∈ accs)) by done.
      rewrite (proj2 (Z.ltb_ge _ _)) by lia. by rewrite andb_false_r, andb_false_r.
Qed.

Lemma redraw_part st q : st_ok st → gs_reqs st ≠ [] ∨ FIRST_PART_LOCAL p = false →
  0 ≤ q < g_part_cnt c → redraw c p (partitions_accessed st) q = false → part_ok st q.
Proof.
  intros Hst Hne Hq Hr. split; [done|]. split; [intros Hf H0; by destruct Hne; congruence|].
  intros Hs. pose proof (so_strict _ Hst Hs) as Hlen. unfold redraw in Hr. fold strict in Hr. rewrite Hs in Hr.
  cbn [andb] in Hr. apply orb_false_iff in Hr as [H1 H2]. unfold sset_count in *.
  split.
  - intros Hlt Hin. rewrite (proj2 (Z.ltb_lt _ _)), bool_decide_true in H1 by done. done.
  - intros Hn. destruct (Z.lt_ge_cases (zlen (partitions_accessed st)) (g_part_per_txn p)) as [|Hge]; [done|].
    rewrite (proj2 (Z.eqb_eq _ _)), bool_decide_false in H2 by (done || lia). done.
Qed.

Definition choose (st : gen_state) : rand Z :=
  if FIRST_PART_LOCAL p && bool_decide (gs_reqs st = []) then rret home else draw_partition c p (partitions_accessed st).

Lemma choose_home st : st_ok st → FIRST_PART_LOCAL p = true → gs_reqs st = [] → part_ok st home.
Proof.
  intros Hst Hf H0. split; [apply Hok|]. split; [done|]. intros Hs.
  assert (partitions_accessed st = []) as ->.
  { destruct (partitions_accessed st) as [|q l] eqn:He; [done|]. assert (q ∈ partitions_accessed st) as Hq by (rewrite He; by left).
    apply (so_parts _ Hst) in Hq as (r&Hr&_). rewrite H0 in Hr. by apply not_elem_of_nil in Hr. }
  split; [intros _; by apply not_elem_of_nil|]. intros _. simpl. apply Hok.
Qed.

Lemma draw_cases st : st_ok st →
  (choose st = rret home ∧ part_ok st home) ∨
  (choose st = draw_partition c p (partitions_accessed st) ∧ (gs_reqs st ≠ [] ∨ FIRST_PART_LOCAL p = false)).
Proof.
  intros Hst. unfold choose. destruct (FIRST_PART_LOCAL p) eqn:Hf; [|right; auto]. cbn [andb].
  case_bool_decide as H0; [left|right]; split; auto. by apply choose_home.
Qed.

Lemma ggood_choose st : st_ok st → ggood bad (choose st) (part_ok st).
Proof.
  intros Hst. destruct (draw_cases st Hst) as [[-> Hp]|[-> Hne]]; [by apply ggood_ret|].
  assert (∀ d, redraw c p (partitions_accessed st) (d `mod` g_part_cnt c) = false →
    part_ok st (d `mod` g_part_cnt c)) as Hok'.
  { intros d Hr. apply redraw_part; try done. apply Z.mod_pos_bound, Hok. }
  split; [|split; [done|]].
  - intros ds. induction ds as [|d ds IH]; [done|]. simpl. destruct (redraw _ _ _ _) eqn:Hr.
    + destruct (draw_partition _ _ _ ds); [|done|].
      * destruct IH. split; [done|set_solver].
      * destruct IH as (d'&?&?). exists d'. split; [by right|done].
    + split; [by apply Hok'|set_solver].
  - intros ds _. induction ds as [|d ds (ds'&a&rest&Hd&Hl&Ho&Ha)].
    + destruct (good_partition st Hst) as (q&Hq&Hr). exists [q], q, []. split_and!; [|simpl; lia|by right|by apply redraw_part].
      intros x. simpl. by rewrite Z.mod_small, Hr by done.
    + destruct (redraw c p (partitions_accessed st) (d `mod` g_part_cnt c)) eqn:Hr.
      * exists ds', a, rest. split_and!; [|simpl; lia|done|done]. intros x. simpl. by rewrite Hr, Hd.
      * exists [], (d `mod` g_part_cnt c), ds. split_and!; [intros x; simpl; by rewrite Hr|simpl; lia|by left|by apply Hok'].
Qed.

(** The key of row [row] in partition [q]. *)
Lemma key_of row q : 0 ≤ row < table_size c p → 0 ≤ q < g_part_cnt c →
  wrap64 (wrap64 (row * g_part_cnt c) + q) = row * g_part_cnt c + q ∧
  0 ≤ row * g_part_cnt c + q < g_synth_table_size p ∧ (row * g_part_cnt c + q) `mod` g_part_cnt c = q.
Proof.
  intros Hrow Hq. pose proof (go_size Hok) as Hsz. unfold table_size in Hrow.
  assert (row * g_part_cnt c + q < g_synth_table_size p) as Hlt.
  { pose proof (Z.mul_div_le (g_synth_table_size p) (g_part_cnt c) ltac:(lia)). nia. }
  assert (0 ≤ row * g_part_cnt c) by nia. split_and!; [|lia|done|].
  { rewrite (wrap64_small (row * g_part_cnt c)) by (unfold is_u64; lia). apply wrap64_small. unfold is_u64. lia. }
  rewrite Z.add_comm, Z.mod_add, Z.mod_small by lia. done.
Qed.

Lemma add_request st q row t : st_ok st → part_ok st q → (length (gs_reqs st) < request_cnt)%nat →
  0 ≤ row < table_size c p → row * g_part_cnt c + q ∉ all_keys st → t = RD ∨ t = WR →
  st_ok (mkGs (gs_reqs st ++ [mkReq t (row * g_part_cnt c + q)]) (sset_insert q (partitions_accessed st))).
Proof.
  intros [H1 H2 H3 H4 H5 H6 H7] (Hq&Hfirst&Hstrict) Hlen Hrow Hnew Ht. destruct (key_of row q Hrow Hq) as (_&Hr&Hm).
  split; cbn [gs_reqs partitions_accessed].
  - rewrite length_app. simpl. lia.
  - unfold all_keys. cbn [gs_reqs]. rewrite fmap_app. apply NoDup_app. split; [done|]. split; [|apply NoDup_singleton].
    intros x Hx ->%list_elem_of_singleton. done.
  - apply Forall_app. split; [done|]. constructor; [done|constructor].
  - intros x. rewrite elem_of_sset_insert, H4. setoid_rewrite elem_of_app. setoid_rewrite list_elem_of_singleton.
    split; [intros [->|(r&Hin&Hk)]; [eexists; split; [by right|done]|eauto]|].
    intros (r&[Hin| ->]&Hk); [right; eauto|left]. simpl in Hk. lia.
  - by apply sset_insert_sorted.
  - intros Hf r Hr0. destruct (gs_reqs st) as [|r' l] eqn:He; simpl in Hr0; injection Hr0 as <-; [|by apply H6].
    simpl. rewrite Hm. by apply Hfirst.
  - intros Hs. rewrite sset_insert_length, length_app by done. specialize (H7 Hs). specialize (Hstrict Hs).
    simpl. destruct (decide (q ∈ partitions_accessed st)) as [Hin|Hin].
    + assert (¬ zlen (partitions_accessed st) < g_part_per_txn p) by (rewrite Hstrict; auto). lia.
    + assert (zlen (partitions_accessed st) < g_part_per_txn p) by (by apply Hstrict). lia.
Qed.

(** After the row is drawn a pass ends with one of two states. *)
Definition finish (r_twr r q row : Z) (st : gen_state) : rand gen_state := (
  let primary_key := wrap64 (wrap64 (row * g_part_cnt c) + q) in
  _ <-- check (primary_key <? g_synth_table_size p);
  _ <-- next;
  if bool_decide (primary_key ∈ all_keys st) then rret st
  else
    _ <-- check (bool_decide (length (gs_reqs st) < g_req_per_query p)%nat);
    rret (mkGs (gs_reqs st ++ [mkReq (if is_read p r_twr r then RD else WR) primary_key])
               (sset_insert q (partitions_accessed st))))%rand.

#[local] Abbreviation request := (gen_request pow c p home G).
#[local] Abbreviation loop := (gen_loop pow c p home G).

Lemma gen_request_finish r_twr st : request r_twr st =
  (r <-- next; q <-- choose st; row <-- draw_row pow c p G; finish r_twr r q row st)%rand.
Proof. done. Qed.

Lemma finish_eq r_twr r q row st : st_ok st → part_ok st q → in_table row → (length (gs_reqs st) < request_cnt)%nat →
  finish r_twr r q row st = (_ <-- next;
    rret (if bool_decide (row * g_part_cnt c + q ∈ all_keys st) then st else
      mkGs (gs_reqs st ++ [mkReq (if is_read p r_twr r then RD else WR) (row * g_part_cnt c + q)])
           (sset_insert q (partitions_accessed st))))%rand.
Proof.
  intros Hst (Hq&_) Hz Hlen. destruct (key_of row q Hz Hq) as (He&Hr&_).
  pose proof (go_req Hok) as Hreq. unfold finish, check. rewrite He, (proj2 (Z.ltb_lt _ _)) by lia.
  rewrite (bool_decide_true (length (gs_reqs st) < g_req_per_query p)%nat) by lia. unfold rbind.
  unfold rret. by destruct (bool_decide _).
Qed.

Definition pass_ok (st st' : gen_state) : Prop :=
  st_ok st' ∧ (length (gs_reqs st) ≤ length (gs_reqs st'))%nat.

Lemma ggood_finish r_twr r q row st : st_ok st → part_ok st q → in_table row →
  (length (gs_reqs st) < request_cnt)%nat → ggood bad (finish r_twr r q row st) (pass_ok st).
Proof.
  intros Hst Hq Hz Hlen. rewrite finish_eq by done. eapply ggood_bind; [apply ggood_next|]. intros _ _.
  apply ggood_ret. case_bool_decide; [done|]. split; [|cbn [gs_reqs]; rewrite length_app; cbn [length]; lia].
  apply add_request; try done. destruct (is_read _ _ _); auto.
Qed.

Lemma ggood_request_tail r_twr r st : st_ok st → (length (gs_reqs st) < request_cnt)%nat →
  ggood bad (q <-- choose st; row <-- draw_row pow c p G; finish r_twr r q row st)%rand (pass_ok st).
Proof.
  intros Hst Hlen. eapply ggood_bind; [by apply ggood_choose|intros q Hq].
  eapply ggood_bind; [apply ggood_row|intros row Hrow]. by apply ggood_finish.
Qed.

Lemma gen_request_gsafe r_twr st : st_ok st → (length (gs_reqs st) < request_cnt)%nat →
  gsafe bad (request r_twr st) (pass_ok st).
Proof.
  intros Hst Hlen. rewrite gen_request_finish. eapply gsafe_bind; [apply ggood_next|intros r _].
  by apply ggood_request_tail.
Qed.

Lemma gen_request_gtotal r_twr st : st_ok st → (length (gs_reqs st) < request_cnt)%nat →
  ∀ d ds, request r_twr st (d :: ds) ≠ Fail →
  ∃ ds' st' rest, (∀ x, request r_twr st (d :: ds ++ ds' ++ x) = Done st' (rest ++ x)) ∧
    (length rest ≤ length ds)%nat ∧ (ds' = [] ∨ rest = []) ∧ pass_ok st st'.
Proof.
  intros Hst Hlen d ds Hf. destruct (ggood_request_tail r_twr d st Hst Hlen) as [_ [_ Ht]]. apply (Ht ds Hf).
Qed.

(** From nothing drawn, a pass can add a request. *)
Lemma gen_request_progress r_twr st : st_ok st → (length (gs_reqs st) < request_cnt)%nat →
  ∃ ds st', ds ≠ [] ∧ (∀ x, request r_twr st (ds ++ x) = Done st' x) ∧
    st_ok st' ∧ length (gs_reqs st') = S (length (gs_reqs st)).
Proof.
  intros Hst Hlen. destruct (ggood_choose st Hst) as [_ [Hn0 Ht]].
  destruct (Ht [] Hn0) as (d1&q&rest&Hd&Hl&_&Hq). destruct rest; [|simpl in Hl; lia]. clear Hl.
  assert (∀ x, choose st (d1 ++ x) = Done q x) as Hc by exact Hd.
  destruct (go_rows Hok) as (rows&Hnd&Hrows&Hex).
  set (key_at := λ d, (λ row, row * g_part_cnt c + q) <$> row_of d).
  destruct (pick_fresh (key_at <$> rows) (Some <$> all_keys st)) as (k&(d&->&Hdin)%list_elem_of_fmap&Hnew).
  { assert (Inj eq eq (fmap (M:=option) (λ z, z * g_part_cnt c + q))).
    { apply option_fmap_eq_inj. intros x y Hxy. pose proof (go_part Hok). nia. }
    change key_at with (fmap (M:=option) (λ z, z * g_part_cnt c + q) ∘ row_of).
    rewrite list_fmap_compose. by apply NoDup_fmap. }
  { unfold all_keys. rewrite !length_fmap. lia. }
  rewrite Forall_forall in Hex. destruct (Hex d Hdin) as (row&Hrow&Hlt).
  assert (in_table row) as Hin by (split; [by eapply row_of_pos|done]).
  unfold key_at in Hnew. rewrite Hrow in Hnew. cbn [fmap option_fmap option_map] in Hnew.
  assert (row * g_part_cnt c + q ∉ all_keys st) as Hnew' by (intros Hk; apply Hnew, list_elem_of_fmap; eauto).
  eexists (0 :: d1 ++ [d; 0]), _. split; [done|]. split.
  - intros x. rewrite gen_request_finish. unfold rbind at 1. cbn [next app]. unfold rbind at 1.
    rewrite <-app_assoc, Hc. cbn [app]. unfold rbind at 1. rewrite draw_row_eq, Hrow, (proj2 (Z.ltb_lt _ _)) by done.
    rewrite finish_eq by done. unfold rbind, next. rewrite (bool_decide_false (_ ∈ _)) by done. done.
  - split; [|cbn [gs_reqs]; rewrite length_app; cbn [length]; lia].
    apply add_request; try done. destruct (is_read _ _ _); auto.
Qed.

Lemma gen_loop_gsafe r_twr fuel : ∀ st, st_ok st → gsafe bad (loop fuel r_twr st)
  (λ st', st_ok st' ∧ length (gs_reqs st') = request_cnt).
Proof.
  assert (∀ st, st_ok st → (request_cnt ≤ length (gs_reqs st))%nat → st_ok st ∧ length (gs_reqs st) = request_cnt) as Hend.
  { intros st Hst Hl. split; [done|]. pose proof (so_len _ Hst). lia. }
  induction fuel as [|fuel IH]; intros st Hst; cbn [gen_loop]; case_bool_decide;
    try (intros ds; split; [by apply Hend|done]).
  - by intros ds.
  - eapply gsafe_bind; [apply gen_request_gsafe; [done|lia]|]. intros st' [Hst' _]. by apply IH.
Qed.

(** Less fuel makes no assertion fail. *)
Lemma gen_loop_fuel r_twr f : ∀ f' st ds, (f ≤ f')%nat → loop f' r_twr st ds ≠ Fail → loop f r_twr st ds ≠ Fail.
Proof.
  induction f as [|f IH]; intros f' st ds Hf.
  - intros _. cbn [gen_loop]. by case_bool_decide.
  - destruct f' as [|f']; [lia|]. cbn [gen_loop]. case_bool_decide; [done|]. unfold rbind.
    destruct (request r_twr st ds); [|done..]. apply IH. lia.
Qed.

Lemma gen_loop_gtotal r_twr m : ∀ st ds, m = (5 * length ds + (request_cnt - length (gs_reqs st)))%nat → st_ok st →
  loop (length ds) r_twr st ds ≠ Fail →
  ∃ ds' st' rest n, (n ≤ length ds + length ds')%nat ∧ ∀ fuel x, (n ≤ fuel)%nat →
    loop fuel r_twr st (ds ++ ds' ++ x) = Done st' (rest ++ x).
Proof.
  induction (lt_wf m) as [m _ IH]. intros st ds -> Hst Hnf.
  destruct (decide (request_cnt ≤ length (gs_reqs st))%nat) as [Hge|Hlt].
  { exists [], st, ds, 0%nat. split; [lia|]. intros fuel x _. destruct fuel; cbn [gen_loop]; by rewrite bool_decide_true. }
  assert (∃ ds1 st1 rest1, (∀ x, request r_twr st (ds ++ ds1 ++ x) = Done st1 (rest1 ++ x)) ∧
    (length rest1 < length ds + length ds1)%nat ∧ st_ok st1 ∧ loop (length rest1) r_twr st1 rest1 ≠ Fail ∧
    (5 * length rest1 + (request_cnt - length (gs_reqs st1)) < 5 * length ds + (request_cnt - length (gs_reqs st)))%nat)
    as (d1&st1&rest1&H1&Hl1&Hst1&Hnf1&Hm).
  { assert (∀ st, loop 0 r_twr st [] ≠ Fail) as H0 by (intros st'; cbn [gen_loop]; by case_bool_decide).
    destruct ds as [|d ds].
    - destruct (gen_request_progress r_twr st Hst) as (d1&st1&Hne&H1&Hst1&Hlen); [lia|].
      exists d1, st1, []. split_and!; [done|destruct d1; [done|simpl; lia]|done|apply H0|simpl; lia].
    - simpl in Hnf. rewrite bool_decide_false in Hnf by done. unfold rbind in Hnf.
      destruct (gen_request_gtotal r_twr st Hst ltac:(lia) d ds) as (d1&st1&rest1&H1&Hl&Ho&Hst1&Hlen).
      { intros E. by rewrite E in Hnf. }
      exists d1, st1, rest1. split_and!; [done|simpl; lia|done| |simpl in *; lia].
      destruct Ho as [-> | ->]; [|apply H0]. specialize (H1 []). rewrite !app_nil_r in H1. rewrite H1 in Hnf.
      by apply (gen_loop_fuel _ _ (length ds)). }
  destruct (IH _ Hm st1 rest1 eq_refl Hst1 Hnf1) as (d2&st2&rest2&n&Hn&H2).
  exists (d1 ++ d2), st2, rest2, (S n). split; [rewrite length_app; lia|]. intros fuel x Hf.
  destruct fuel as [|fuel]; [lia|]. cbn [gen_loop]. rewrite bool_decide_false by done. unfold rbind.
  rewrite <-app_assoc, H1. apply H2. lia.
Qed.

Lemma start_ok : st_ok (mkGs [] []).
Proof.
  split; simpl; [unfold request_cnt; lia|constructor|constructor| |constructor|done|intros _; pose proof (go_ppt Hok); lia].
  intros q. split; [by intros ?%not_elem_of_nil|]. intros (r&?%not_elem_of_nil&_). done.
Qed.

End gen_proofs.

(** ** The sort *)

#[local] Abbreviation key_le := (λ r1 r2, key r1 ≤ key r2).

Lemma bubble_perm l : bubble l ≡ₚ l.
Proof.
  induction l as [|x l IH]; [done|]. simpl. destruct (bubble l) as [|y r]; [by rewrite <-IH|].
  case_match; rewrite <-IH; [apply perm_swap|done].
Qed.

Lemma bubble_min l x r : bubble l = x :: r → Forall (key_le x) r.
Proof.
  revert x r. induction l as [|y l IH]; intros x r; [done|]. simpl. destruct (bubble l) as [|z r'] eqn:Hb.
  - intros [= <- <-]. constructor.
  - specialize (IH z r' eq_refl). destruct (Z.ltb_spec (key z) (key y)); intros [= <- <-].
    + constructor; [lia|done].
    + constructor; [done|]. eapply Forall_impl; [exact IH|]. simpl. lia.
Qed.

Lemma sort_requests_spec n : ∀ l, length l = n → sort_requests n l ≡ₚ l ∧ StronglySorted key_le (sort_requests n l).
Proof.
  induction n as [|n IH]; intros l Hl.
  - apply nil_length_inv in Hl as ->. split; [done|constructor].
  - cbn [sort_requests]. pose proof (bubble_perm l) as Hp. destruct (bubble l) as [|x r] eqn:Hb.
    { apply Permutation_length in Hp. simpl in Hp. lia. }
    pose proof (Permutation_length Hp) as Hlen. simpl in Hlen. destruct (IH r) as [Hp' Hs]; [lia|]. split.
    + by rewrite Hp'.
    + constructor; [done|]. rewrite Hp'. by eapply bubble_min.
Qed.

(** ** Queries *)

Record query_ok (c : config) (p : params) (home : Z) (q : list ycsb_request) (ps : list Z) : Prop := {
  qo_len : (0 < length q ≤ g_req_per_query p)%nat;
  qo_nodup : NoDup (key <$> q);
  qo_keys : ∀ r, r ∈ q → 0 ≤ key r < g_synth_table_size p ∧ (acctype r = RD ∨ acctype r = WR);
  qo_order : g_key_order p = true → StronglySorted key_le q;
  qo_home : FIRST_PART_LOCAL p = true → ∃ r, r ∈ q ∧ key r `mod` g_part_cnt c = home;
  qo_parts : ∀ x, x ∈ ps ↔ ∃ r, r ∈ q ∧ key r `mod` g_part_cnt c = x;
  qo_strict : strict c p = true → zlen ps = Z.min (zlen q) (g_part_per_txn p) }.

Lemma query_of_state c p home st : st_ok c p home st → length (gs_reqs st) = request_cnt →
  (request_cnt ≤ g_req_per_query p)%nat →
  query_ok c p home (if g_key_order p then sort_requests (length (gs_reqs st)) (gs_reqs st) else gs_reqs st)
    (partitions_accessed st).
Proof.
  intros Hst Hlen Hcap. destruct (sort_requests_spec _ (gs_reqs st) eq_refl) as [Hp Hs].
  assert ((if g_key_order p then sort_requests (length (gs_reqs st)) (gs_reqs st) else gs_reqs st) ≡ₚ gs_reqs st) as Hq
    by (by destruct (g_key_order p)).
  set (q := if g_key_order p then _ else _) in *. split.
  - rewrite Hq, Hlen. unfold request_cnt in *. lia.
  - rewrite Hq. apply Hst.
  - intros r Hr. rewrite Hq in Hr. pose proof (so_keys _ _ _ _ Hst) as Hk. rewrite Forall_forall in Hk. by apply Hk.
  - unfold q. by intros ->.
  - intros Hf. destruct (gs_reqs st) as [|r l] eqn:He; [done|]. exists r. split; [rewrite Hq; by left|].
    apply (so_first _ _ _ _ Hst Hf). by rewrite He.
  - intros x. rewrite (so_parts _ _ _ _ Hst). by setoid_rewrite Hq.
  - intros Hstr. rewrite (so_strict _ _ _ _ Hst Hstr). by rewrite Hq.
Qed.

Section queries.
Context (pow : Z → Z → Z) (c : config) (p : params) (home : Z) (Hok : gen_ok pow c p home).

#[local] Abbreviation G := (init pow c p).
#[local] Abbreviation gen := (gen_requests_zipf pow c p home G).
#[local] Abbreviation bad := (λ d, ¬ row_exists pow c p d).

Lemma gen_gsafe : gsafe bad gen (λ a, query_ok c p home a.1 a.2).
Proof.
  eapply gsafe_bind; [apply ggood_next|intros r_twr _]. eapply gsafe_bind.
  { intros ds. apply (gen_loop_gsafe pow c p home Hok r_twr (length ds) _ (start_ok pow c p home Hok)). }
  intros st [Hst Hlen]. eapply gsafe_bind; [by apply ggood_check, bool_decide_eq_true|intros _ _].
  apply ggood_ret. apply query_of_state; [done..|apply Hok].
Qed.

Lemma gen_gtotal ds : gen ds ≠ Fail → ∃ ds' a rest, gen (ds ++ ds') = Done a rest.
Proof.
  assert (∀ r_twr ds, gen_loop pow c p home G (length ds) r_twr (mkGs [] []) ds ≠ Fail →
    ∃ ds' a rest, gen (r_twr :: ds ++ ds') = Done a rest) as Hcons.
  { clear ds. intros r_twr ds Hnf.
    destruct (gen_loop_gtotal pow c p home Hok r_twr _ _ ds eq_refl (start_ok pow c p home Hok) Hnf)
      as (ds'&st&rest&n&Hn&Hrun).
    exists ds'. unfold gen_requests_zipf, rbind at 1 2. cbn [next].
    pose proof (gen_loop_gsafe pow c p home Hok r_twr (length (ds ++ ds')) _ (start_ok pow c p home Hok) (ds ++ ds')) as Hsafe.
    specialize (Hrun (length (ds ++ ds')) []). rewrite !app_nil_r in Hrun.
    rewrite Hrun in Hsafe |- * by (rewrite length_app; lia). destruct Hsafe as [[_ Hlen] _].
    unfold rbind, check. rewrite bool_decide_true by done. by eexists _, _. }
  intros Hnf. destruct ds as [|r_twr ds].
  - destruct (Hcons 0 []) as (ds'&a&rest&Hr); [done|]. by exists (0 :: ds'), a, rest.
  - apply Hcons. unfold gen_requests_zipf, rbind at 1 2 in Hnf. cbn [next] in Hnf. intros E. by rewrite E in Hnf.
Qed.

Lemma create_query_eq ds : create_query pow c p home G ds = gen ds.
Proof.
  unfold create_query, rbind, check. cbn [the_n init]. pose proof (go_table _ _ _ _ Hok) as Ht.
  pose proof (go_size _ _ _ _ Hok) as Hs. pose proof (go_part _ _ _ _ Hok) as Hp.
  assert (table_size c p ≤ g_synth_table_size p).
  { unfold table_size in *. destruct (Z.le_gt_cases 0 (g_synth_table_size p)) as [H0|H0].
    - apply Z.div_le_upper_bound; nia.
    - assert (g_synth_table_size p / g_part_cnt c < 0) by (apply Z.div_lt_upper_bound; lia). lia. }
  rewrite wrap64_small by (unfold is_u64; lia). by rewrite (proj2 (Z.eqb_neq _ _)) by lia.
Qed.

End queries.


(** Two nodes, twelve rows and two loading threads, and the uniform distribution, for which
    [pow] is needed with the exponents 0 and 1 only.  The query starts in partition 1 and
    draws a row twice. *)
Definition ex_pow (x y : Z) : Z := if y =? 0 then d_of_Z 1 else x.
Definition ex_c : config := mkCfg 2 1 2 100.
Definition ex_p : params := mkP 12 2 10 false 2 true true 0 0 (ddiv (d_of_Z 1) (d_of_Z 2)).
Definition ex_draws : list Z :=
  [0;  6000; 0; 9;  4; 0; 2000000; 9;  4; 0; 2000000; 9;  5000; 1; 5000000; 9;  6; 0; 9999999; 9].

Lemma ex_gen_ok : gen_ok ex_pow ex_c ex_p 1.
Proof.
  split; [by vm_compute..|unfold request_cnt; simpl; lia|by vm_compute|].
  exists [0; 2000000; 5000000; 9999999]. split_and!; [eapply bool_decide_eq_true_1; by vm_compute|done|].
  repeat constructor; eexists; (split; [vm_compute; reflexivity|done]).
Qed.

Lemma ex_interleave : interleave [[0; 2; 4]; [6; 8; 10]] [6; 0; 8; 2; 10; 4].
Proof.
  do 3 (eapply (il_cons _ 1%nat); [reflexivity|]; eapply (il_cons _ 0%nat); [reflexivity|]).
  constructor. simpl. repeat constructor.
Qed.


(** With two partitions on a node the loader skips the rows of one of them. *)
Lemma loader_skips : init_table_slice (mkCfg 1 1 2 100) (mkP 8 1 10 false 2 true true 0 0 0) 0 9 0 = Some [0; 2; 4; 6].
Proof. by vm_compute. Qed.

End YcsbLoad.
