(* ===== verification/Framework.v ===== *)
(** * Framework: the pessimistic framework for transactions

    Model of framework/: [FrameworkPessimisticDeneva] (framework.cpp) with its
    [ConcurrencyManagerLocks] (concurrency_controller_locks.cpp), the lock and the content
    of every key, [CC_Lock] (utils/concurrencyLocks.cpp), and [TransactionF]
    (utils/transaction.cpp), on one node.  Contents are allocated and deleted, so that
    pointers to them may dangle: the state has the contents by address and the deleted
    addresses.  The steps of a run are the calls of [beginTransaction], [initContent], [read],
    [write] and [endTransaction], and the parts of [commit] and [abort]: the contents of the
    write set, whose locks the transaction owns, are one step, and each release of a lock is
    another.  A transaction that has to wait for a lock waits for a semaphore that nobody has
    initialised: it is blocked for ever, with the latch of the lock, and this is a step as
    well.  A run is also computed, by [run_ops], from a list of operations.

    [read] and [write] of the framework return nothing: a caller does not learn that an access
    was refused.  What is shown of a transaction is about the accesses it was granted. *)

From stdpp Require Import gmap.
From S2P Require Import Prelude.

Module Framework.

(** ** Objects *)

(** A content is a key and the address of a row; a null pointer says that a lock was not
    obtained. *)
Record Content := mkContent { c_key : Z; c_value : option Z }.

(** Transactions are named by their ids. *)
Record CC_Entry := mkCE { en_type : lock_t; en_txn : Z }.

(** [previousContent] is not initialised by the constructor; the owners are one chain.
    [latch] is the transaction whose thread is blocked while it holds the latch; other
    threads release the latch before the call returns. *)
Record CC_Lock := mkCC {
  latch : option Z;
  content : nat;
  previousContent : option nat;
  lockType : lock_t;
  owner_cnt : Z;
  waiter_cnt : Z;
  owners : list CC_Entry;
  waiters : list CC_Entry;
  max_owner_ts : Z }.

(** [lockReady], the semaphore [rsp_mutex] and [lock_ready_cnt], which it protects, are not
    initialised by the constructor; [timestampStartup] is set by [beginTransaction]. *)
Record TransactionF := mkTF {
  writeset : list nat;
  readset : list nat;
  timestampStartup : Z;
  timestampCommit : Z;
  nodeId : Z;
  locksDetained : list Z;
  validated : bool;
  finished : bool;
  lockReady : option bool;
  rsp_mutex : option unit;
  lock_ready_cnt : Z }.

Record fw := mkFw {
  heap : nat → Content;
  deleted : list nat;
  brk : nat;
  cc : gmap Z CC_Lock;
  txns : gmap Z TransactionF }.

Definition set_cc (k : Z) (l : CC_Lock) (s : fw) : fw := mkFw (heap s) (deleted s) (brk s) (<[k := l]> (cc s)) (txns s).
Definition set_txn (t : Z) (x : TransactionF) (s : fw) : fw := mkFw (heap s) (deleted s) (brk s) (cc s) (<[t := x]> (txns s)).

Definition new_content (c : Content) (s : fw) : nat * fw :=
  (brk s, mkFw (<[brk s := c]> (heap s)) (deleted s) (S (brk s)) (cc s) (txns s)).
Definition deref (a : nat) (s : fw) : option Content :=
  ASSERT negb (bool_decide (a ∈ deleted s)); Some (heap s a).
Definition delete_content (a : nat) (s : fw) : option fw :=
  ASSERT negb (bool_decide (a ∈ deleted s));
  Some (mkFw (heap s) (a :: deleted s) (brk s) (cc s) (txns s)).

(** *** [TransactionF] *)

Definition new_txn (node : Z) : TransactionF := mkTF [] [] 0 0 node [] false false None None 0.

Definition addToReadSet (a : nat) (s : fw) (x : TransactionF) : option TransactionF :=
  c ← deref a s;
  Some (mkTF (writeset x) (readset x ++ [a]) (timestampStartup x) (timestampCommit x) (nodeId x)
    (locksDetained x ++ [c_key c]) (validated x) (finished x) (lockReady x) (rsp_mutex x) (lock_ready_cnt x)).
Definition addToWriteSet (a : nat) (s : fw) (x : TransactionF) : option TransactionF :=
  c ← deref a s;
  Some (mkTF (writeset x ++ [a]) (readset x) (timestampStartup x) (timestampCommit x) (nodeId x)
    (locksDetained x ++ [c_key c]) (validated x) (finished x) (lockReady x) (rsp_mutex x) (lock_ready_cnt x)).
Definition set_locks (l : list Z) (x : TransactionF) : TransactionF :=
  mkTF (writeset x) (readset x) (timestampStartup x) (timestampCommit x) (nodeId x) l (validated x) (finished x)
    (lockReady x) (rsp_mutex x) (lock_ready_cnt x).
Definition clearLocksDetained : TransactionF → TransactionF := set_locks [].
Definition setFinished (b : bool) (x : TransactionF) : TransactionF :=
  mkTF (writeset x) (readset x) (timestampStartup x) (timestampCommit x) (nodeId x) (locksDetained x) (validated x) b
    (lockReady x) (rsp_mutex x) (lock_ready_cnt x).
Definition setValidated (b : bool) (x : TransactionF) : TransactionF :=
  mkTF (writeset x) (readset x) (timestampStartup x) (timestampCommit x) (nodeId x) (locksDetained x) b (finished x)
    (lockReady x) (rsp_mutex x) (lock_ready_cnt x).
Definition clearSets (x : TransactionF) : TransactionF :=
  mkTF [] [] (timestampStartup x) (timestampCommit x) (nodeId x) (locksDetained x) (validated x) (finished x)
    (lockReady x) (rsp_mutex x) (lock_ready_cnt x).
Definition setTimestampStart (ts : Z) (x : TransactionF) : TransactionF :=
  mkTF (writeset x) (readset x) ts (timestampCommit x) (nodeId x) (locksDetained x) (validated x) (finished x)
    (lockReady x) (rsp_mutex x) (lock_ready_cnt x).
Definition setTimestampCommit (ts : Z) (x : TransactionF) : TransactionF :=
  mkTF (writeset x) (readset x) (timestampStartup x) ts (nodeId x) (locksDetained x) (validated x) (finished x)
    (lockReady x) (rsp_mutex x) (lock_ready_cnt x).

(** Both wait for the semaphore. *)
Definition set_lr (b : option bool) (n : Z) (x : TransactionF) : TransactionF :=
  mkTF (writeset x) (readset x) (timestampStartup x) (timestampCommit x) (nodeId x) (locksDetained x) (validated x)
    (finished x) b (rsp_mutex x) n.
Definition incr_lr (x : TransactionF) : option TransactionF :=
  _ ← rsp_mutex x; Some (set_lr (lockReady x) (wrap32 (lock_ready_cnt x + 1)) x).
Definition decr_lr (x : TransactionF) : option TransactionF :=
  _ ← rsp_mutex x; Some (set_lr (lockReady x) (wrap32 (lock_ready_cnt x - 1)) x).

(** ** [CC_Lock] *)

Definition conflict_lock (l1 l2 : lock_t) : bool :=
  match l1, l2 with
  | LOCK_NONE, _ | _, LOCK_NONE => false
  | LOCK_EX, _ | _, LOCK_EX => true
  | _, _ => false
  end.

Definition getOperationLock (op : access_t) : lock_t :=
  match op with RD => LOCK_SH | WR => LOCK_EX | _ => LOCK_NONE end.

Definition new_lock (c : nat) : CC_Lock := mkCC None c None LOCK_NONE 0 0 [] [] 0.

Section lock.
Context (alg : CC_ALG).

Definition ts_of (s : fw) (t : Z) : Z := default 0 (timestampStartup <$> txns s !! t).

(** A waiter is added in front of the first one that is not younger. *)
Definition put_waiter (s : fw) (en : CC_Entry) (l : CC_Lock) : CC_Lock :=
  mkCC (latch l) (content l) (previousContent l) (lockType l) (owner_cnt l) (wrap32 (waiter_cnt l + 1)) (owners l)
    (match alg with
     | WAIT_DIE => insert_after_while (λ w, ts_of s (en_txn en) <? ts_of s (en_txn w)) en (waiters l)
     | _ => waiters l ++ [en]
     end) (max_owner_ts l).

Definition add_owner (s : fw) (en : CC_Entry) (ws : list CC_Entry) (wcnt : Z) (l : CC_Lock) : CC_Lock :=
  mkCC (latch l) (content l) (previousContent l) (en_type en) (wrap32 (owner_cnt l + 1)) wcnt
    (if bool_decide (alg = NO_WAIT) then owners l else en :: owners l) ws
    (Z.max (max_owner_ts l) (ts_of s (en_txn en))).

(** The semaphore has to be initialised; otherwise the call blocks. *)
Definition start_waiting (tid : Z) (s : fw) : option fw :=
  x ← txns s !! tid;
  ready ← lockReady x;
  x ← incr_lr (set_lr (Some false) (lock_ready_cnt x) x);
  Some (set_txn tid x s).

(** The request is in conflict with the owners or with the waiters. *)
Definition in_conflict (tid : Z) (op : access_t) (s : fw) (l : CC_Lock) : bool :=
  conflict_lock (lockType l) (getOperationLock op) ||
  match alg, waiters l with
  | WAIT_DIE, w :: _ => ts_of s tid <? ts_of s (en_txn w)
  | CALVIN, _ :: _ => true
  | _, _ => false
  end.

(** A request in conflict waits. *)
Definition canwait (tid : Z) (s : fw) (l : CC_Lock) : bool :=
  match alg with
  | WAIT_DIE => forallb (λ o, ts_of s tid <=? ts_of s (en_txn o)) (owners l)
  | CALVIN => true
  | _ => false
  end.

Definition getControl (tid : Z) (op : access_t) (k : Z) (s : fw) : option (bool * fw) :=
  l ← cc s !! k;
  ASSERT bool_decide (latch l = None); (* waits for the latch *)
  let en := mkCE (getOperationLock op) tid in
  if in_conflict tid op s l then
    if canwait tid s l then s ← start_waiting tid s; Some (false, set_cc k (put_waiter s en l) s)
    else Some (false, s)
  else
    ASSERT (owner_cnt l =? 0) || bool_decide (en_type en = LOCK_SH);
    Some (true, set_cc k (add_owner s en (waiters l) (waiter_cnt l) l) s).

(** The state in which [getControl] is blocked at the semaphore, which is not initialised,
    with the latch; CALVIN has put the request into the queue before. *)
Definition getControl_blocked (tid : Z) (op : access_t) (k : Z) (s : fw) : option fw :=
  l ← cc s !! k;
  ASSERT bool_decide (latch l = None);
  ASSERT in_conflict tid op s l && canwait tid s l;
  x ← txns s !! tid;
  ASSERT bool_decide (rsp_mutex x = None);
  let l := if bool_decide (alg = CALVIN) then put_waiter s (mkCE (getOperationLock op) tid) l else l in
  Some (set_cc k (mkCC (Some tid) (content l) (previousContent l) (lockType l) (owner_cnt l) (waiter_cnt l) (owners l)
                       (waiters l) (max_owner_ts l)) s).

(** The first waiters join the owners. *)
Fixpoint hand_over (k : Z) (ws : list CC_Entry) (s : fw) : option fw :=
  match ws with
  | [] => Some s
  | en :: ws =>
      l ← cc s !! k;
      if conflict_lock (lockType l) (en_type en) then Some s
      else
        let s := set_cc k (add_owner s en ws (wrap32 (waiter_cnt l - 1)) l) s in
        x ← txns s !! en_txn en;
        ready ← lockReady x;
        ASSERT negb ready;
        x ← decr_lr x;
        let x := if lock_ready_cnt x =? 0 then set_lr (Some true) 0 x else x in
        hand_over k ws (set_txn (en_txn en) x s)
  end.

(** The number of owners and the chain after one has left. *)
Definition leave (tid : Z) (l : CC_Lock) : option (Z * list CC_Entry) :=
  match alg with
  | NO_WAIT => Some (if 0 <? owner_cnt l then owner_cnt l - 1 else owner_cnt l, owners l)
  | _ => '(_, os) ← remove_first (λ o, en_txn o =? tid) (owners l); Some (wrap32 (owner_cnt l - 1), os)
  end.

Definition drop_owner (tid : Z) (l : CC_Lock) : option CC_Lock :=
  '(n, os) ← leave tid l;
  Some (mkCC (latch l) (content l) (previousContent l) (if n =? 0 then LOCK_NONE else lockType l) n (waiter_cnt l) os
          (waiters l) (max_owner_ts l)).

Definition releaseControl (tid : Z) (k : Z) (s : fw) : option fw :=
  l ← cc s !! k;
  ASSERT bool_decide (latch l = None); (* waits for the latch *)
  l ← drop_owner tid l;
  ASSERT negb (owner_cnt l =? 0) || bool_decide (lockType l = LOCK_NONE);
  hand_over k (waiters l) (set_cc k l s).

(** [return_invalidContent] is the result [None]. *)
Definition cc_read (tid k : Z) (s : fw) : option (option nat * fw) :=
  '(b, s) ← getControl tid RD k s;
  if (b : bool) then
    l ← cc s !! k;
    x ← txns s !! tid;
    x ← addToReadSet (content l) s x;
    Some (Some (content l), set_txn tid x s)
  else Some (None, s).

Definition cc_write (tid k : Z) (a : nat) (s : fw) : option (option nat * fw) :=
  '(b, s) ← getControl tid WR k s;
  if (b : bool) then
    l ← cc s !! k;
    x ← txns s !! tid;
    x ← addToWriteSet a s x;
    let l := mkCC (latch l) a (Some (content l)) (lockType l) (owner_cnt l) (waiter_cnt l) (owners l) (waiters l) (max_owner_ts l) in
    Some (Some a, set_cc k l (set_txn tid x s))
  else Some (None, s).

Definition commitWrites (k : Z) (s : fw) : option fw :=
  l ← cc s !! k; a ← previousContent l; delete_content a s.

Definition abortWrites (k : Z) (s : fw) : option fw :=
  l ← cc s !! k;
  s ← delete_content (content l) s;
  a ← previousContent l;
  Some (set_cc k (mkCC (latch l) a (previousContent l) (lockType l) (owner_cnt l) (waiter_cnt l) (owners l) (waiters l) (max_owner_ts l)) s).

End lock.

(** ** [ConcurrencyManagerLocks] *)

Section manager.
Context (alg : CC_ALG) (iso : ISOLATION_LEVEL).

(** [insert] of the map leaves a key that is there as it is. *)
Definition initContent (key row : Z) (s : fw) : fw :=
  let '(a, s) := new_content (mkContent key (Some row)) s in
  match cc s !! key with None => set_cc key (new_lock a) s | Some _ => s end.

(** The result is the address of the content that was read or written. *)
Definition manager_read (tid key : Z) (s : fw) : option (option nat * fw) :=
  '(r, s) ← cc_read alg tid key s;
  match r with
  | None => Some (None, s)
  | Some a =>
      c ← deref a s;
      match c_value c with
      | None => s ← delete_content a s; Some (None, s)
      | Some _ =>
          if bool_decide (iso = READ_COMMITTED ∨ iso = READ_UNCOMMITTED)
          then s ← releaseControl alg tid key s; Some (r, s) else Some (r, s)
      end
  end.

Definition manager_write (tid key row : Z) (s : fw) : option (option nat * fw) :=
  let '(a, s) := new_content (mkContent key (Some row)) s in
  '(r, s) ← cc_write alg tid key a s;
  match r with
  | None => Some (None, s)
  | Some _ =>
      if bool_decide (iso = READ_UNCOMMITTED)
      then s ← releaseControl alg tid key s; Some (r, s) else Some (r, s)
  end.

Fixpoint commit_writes (ws : list nat) (s : fw) : option fw :=
  match ws with
  | [] => Some s
  | a :: ws => c ← deref a s; s ← commitWrites (c_key c) s; commit_writes ws s
  end.
Fixpoint abort_writes (ws : list nat) (s : fw) : option fw :=
  match ws with
  | [] => Some s
  | a :: ws => c ← deref a s; s ← abortWrites (c_key c) s; abort_writes ws s
  end.

(** A key that is not in the map is reported and skipped. *)
Fixpoint release_all (tid : Z) (ks : list Z) (s : fw) : option fw :=
  match ks with
  | [] => Some s
  | k :: ks => s ← (if bool_decide (is_Some (cc s !! k)) then releaseControl alg tid k s else Some s); release_all tid ks s
  end.
Definition releaseLocks (tid : Z) (s : fw) : option fw :=
  x ← txns s !! tid;
  s ← release_all tid (locksDetained x) s;
  x ← txns s !! tid;
  Some (set_txn tid (clearLocksDetained x) s).

Definition manager_commit (tid : Z) (s : fw) : option fw :=
  x ← txns s !! tid; s ← commit_writes (writeset x) s; releaseLocks tid s.
Definition manager_abort (tid : Z) (s : fw) : option fw :=
  x ← txns s !! tid; s ← abort_writes (writeset x) s; releaseLocks tid s.
Definition manager_finish (tid : Z) (s : fw) : option fw :=
  x ← txns s !! tid;
  s ← (if bool_decide (locksDetained x = []) then Some s else releaseLocks tid s);
  x ← txns s !! tid;
  Some (set_txn tid (clearSets x) s).

End manager.

(** ** [FrameworkPessimisticDeneva] *)

Section framework.
Context (alg : CC_ALG) (iso : ISOLATION_LEVEL) (node : Z).

(** [clock] is what [Order] takes from the clock. *)
Definition addTransaction (tid : Z) (x : TransactionF) (s : fw) : fw := set_txn tid x s.
Definition beginTransaction (tid home clock : Z) (s : fw) : fw :=
  addTransaction tid (setTimestampStart clock (new_txn home)) s.

Definition fw_read (tid key : Z) (s : fw) : option (option nat * fw) :=
  match cc s !! key with None => Some (None, s) | Some _ => manager_read alg iso tid key s end.

(** The key is the primary key of the row, the one [initContent] inserts. *)
Definition fw_write (tid key row : Z) (s : fw) : option (option nat * fw) :=
  match cc s !! key with
  | None => manager_write alg iso tid key row (initContent key row s)
  | Some _ => manager_write alg iso tid key row s
  end.

Definition upd_txn (tid : Z) (f : TransactionF → TransactionF) (s : fw) : option fw :=
  x ← txns s !! tid; Some (set_txn tid (f x) s).

(** The message of [replicateResult], sent when there is a node to replicate to, has all
    contents of the transaction. *)
Fixpoint deref_all (l : list nat) (s : fw) : option unit :=
  match l with [] => Some tt | a :: l => _ ← deref a s; deref_all l s end.
Definition replicateResult (tid : Z) (s : fw) : option unit :=
  x ← txns s !! tid; deref_all (readset x ++ writeset x) s.

Definition local (x : TransactionF) : bool := nodeId x =? node.

Definition commit (tid clock : Z) (s : fw) : option fw :=
  x ← txns s !! tid;
  if local x then
    s ← upd_txn tid (setTimestampCommit clock) s;
    s ← manager_commit alg tid s;
    s ← upd_txn tid (setFinished true) s;
    _ ← replicateResult tid s;
    Some s
  else
    s ← manager_commit alg tid s;
    upd_txn tid (setFinished true) s.

Definition abort (tid : Z) (s : fw) : option fw :=
  s ← manager_abort alg tid s; upd_txn tid (setFinished true) s.

Definition endTransaction (tid : Z) (s : fw) : option fw :=
  x ← txns s !! tid;
  if finished x then manager_finish alg tid s else Some s.

End framework.

(** ** Runs *)

(** What a transaction is doing: using its locks, blocked for ever in [getControl],
    releasing the locks of a list, or done, until [endTransaction]; and whether it commits. *)
Inductive phase := Running | Blocked | Releasing (ks : list Z) (com : bool) | Finished (com : bool).
#[export] Instance phase_eq_dec : EqDecision phase.
Proof. solve_decision. Defined.

Inductive event := EInit (k v : Z) | ECommit (t : Z) (reads writes : list (Z * Z)).

(** The ghost state: the phases, the owners of each key, the transaction whose write of a
    key is not committed, the committed values, the values read and the history. *)
Record gst := mkGst {
  st : fw;
  ph : Z → phase;
  own : Z → list Z;
  pend : Z → option Z;
  db : gmap Z Z;
  rds : Z → list (Z * Z);
  hist : list event }.

Definition writes_of (s : fw) (x : TransactionF) : list (Z * Z) :=
  (λ a, (c_key (heap s a), default 0 (c_value (heap s a)))) <$> writeset x.
Definition put_all (ws : list (Z * Z)) (m : gmap Z Z) : gmap Z Z := foldl (λ m w, <[w.1 := w.2]> m) m ws.
Definition settle (t : Z) (pend : Z → option Z) : Z → option Z :=
  λ k, if decide (pend k = Some t) then None else pend k.
Definition remove_one (t : Z) (l : list Z) : list Z :=
  match remove_first (λ u, u =? t) l with Some (_, r) => r | None => l end.

Section runs.
Context (alg : CC_ALG) (node : Z).

Definition stamp (t clock : Z) (x : TransactionF) (s : fw) : fw :=
  if local node x then set_txn t (setTimestampCommit clock x) s else s.

(** A lock has fewer than 2^32 owners. *)
Inductive step (g : gst) : gst → Prop :=
  | step_begin t home clock :
      txns (st g) !! t = None →
      step g (mkGst (beginTransaction t home clock (st g)) (<[t := Running]> (ph g)) (own g) (pend g) (db g)
                    (<[t := []]> (rds g)) (hist g))
  | step_init k row :
      cc (st g) !! k = None →
      step g (mkGst (initContent k row (st g)) (ph g) (own g) (pend g) (<[k := row]> (db g)) (rds g)
                    (hist g ++ [EInit k row]))
  | step_read t k a s' :
      ph g t = Running → zlen (own g k) + 1 < u32_mod →
      fw_read alg SERIALIZABLE t k (st g) = Some (Some a, s') →
      step g (mkGst s' (ph g) (<[k := t :: own g k]> (own g)) (pend g) (db g)
                    (<[t := rds g t ++ [(k, default 0 (c_value (heap s' a)))]]> (rds g)) (hist g))
  | step_read_refused t k s' :
      ph g t = Running → fw_read alg SERIALIZABLE t k (st g) = Some (None, s') →
      step g (mkGst s' (ph g) (own g) (pend g) (db g) (rds g) (hist g))
  | step_write t k row a s' :
      ph g t = Running → cc (st g) !! k ≠ None →
      fw_write alg SERIALIZABLE t k row (st g) = Some (Some a, s') →
      step g (mkGst s' (ph g) (<[k := t :: own g k]> (own g)) (<[k := Some t]> (pend g)) (db g) (rds g) (hist g))
  | step_write_refused t k row s' :
      ph g t = Running → cc (st g) !! k ≠ None →
      fw_write alg SERIALIZABLE t k row (st g) = Some (None, s') →
      step g (mkGst s' (ph g) (own g) (pend g) (db g) (rds g) (hist g))
  | step_read_blocked t k s' :
      ph g t = Running → getControl_blocked alg t RD k (st g) = Some s' →
      step g (mkGst s' (<[t := Blocked]> (ph g)) (own g) (pend g) (db g) (rds g) (hist g))
  | step_write_blocked t k row s' :
      ph g t = Running → cc (st g) !! k ≠ None →
      getControl_blocked alg t WR k (new_content (mkContent k (Some row)) (st g)).2 = Some s' →
      step g (mkGst s' (<[t := Blocked]> (ph g)) (own g) (pend g) (db g) (rds g) (hist g))
  | step_commit t clock x s' :
      ph g t = Running → txns (st g) !! t = Some x →
      commit_writes (writeset x) (stamp t clock x (st g)) = Some s' →
      step g (mkGst s' (<[t := Releasing (locksDetained x) true]> (ph g)) (own g) (settle t (pend g))
                    (put_all (writes_of (st g) x) (db g)) (rds g)
                    (hist g ++ [ECommit t (rds g t) (writes_of (st g) x)]))
  | step_abort t x s' :
      ph g t = Running → txns (st g) !! t = Some x → abort_writes (writeset x) (st g) = Some s' →
      step g (mkGst s' (<[t := Releasing (locksDetained x) false]> (ph g)) (own g) (settle t (pend g)) (db g)
                    (rds g) (hist g))
  | step_release t k ks com s' :
      ph g t = Releasing (k :: ks) com → is_Some (txns (st g) !! t) → releaseControl alg t k (st g) = Some s' →
      step g (mkGst s' (<[t := Releasing ks com]> (ph g)) (<[k := remove_one t (own g k)]> (own g)) (pend g)
                    (db g) (rds g) (hist g))
  | step_released t com x :
      ph g t = Releasing [] com → txns (st g) !! t = Some x →
      step g (mkGst (set_txn t (setFinished true (clearLocksDetained x)) (st g)) (<[t := Finished com]> (ph g))
                    (own g) (pend g) (db g) (<[t := rds g t]> (rds g)) (hist g))
  | step_end t com s' :
      ph g t = Finished com → endTransaction alg t (st g) = Some s' →
      step g (mkGst s' (<[t := Running]> (ph g)) (own g) (pend g) (db g) (<[t := []]> (rds g)) (hist g)).

Definition init_fw : fw := mkFw (λ _, mkContent 0 None) [] 0 ∅ ∅.
Definition init_gst : gst := mkGst init_fw (λ _, Running) (λ _, []) (λ _, None) ∅ (λ _, []) [].
Definition reachable (g : gst) : Prop := rtc step init_gst g.

(** *** The reference: transactions one after the other *)

Definition apply_event (m : gmap Z Z) (e : event) : option (gmap Z Z) :=
  match e with
  | EInit k v => Some (<[k := v]> m)
  | ECommit _ reads writes =>
      if decide (Forall (λ r : Z * Z, m !! r.1 = Some r.2) reads) then Some (put_all writes m) else None
  end.
Definition replay (h : list event) : option (gmap Z Z) := foldl (λ o e, m ← o; apply_event m e) (Some ∅) h.

(** *** The invariant *)

Definition count {A} `{EqDecision A} (x : A) (l : list A) : nat := length (filter (λ y, y = x) l).

Definition held (g : gst) (t : Z) : list Z :=
  match txns (st g) !! t with
  | None => []
  | Some x => match ph g t with Running | Blocked => locksDetained x | Releasing ks _ => ks | Finished _ => [] end
  end.

Definition busy (p : phase) : Prop := p = Running ∨ p = Blocked.

Record valid (s : fw) (k : Z) (a : nat) : Prop := {
  va_brk : (a < brk s)%nat;
  va_del : a ∉ deleted s;
  va_key : c_key (heap s a) = k;
  va_val : is_Some (c_value (heap s a)) }.

Record lock_inv (g : gst) (k : Z) (l : CC_Lock) : Prop := {
  li_latch : alg = NO_WAIT → latch l = None;
  li_wait : latch l = None → waiters l = [];
  li_small : zlen (own g k) < u32_mod;
  li_cnt : owner_cnt l = zlen (own g k);
  li_none : lockType l = LOCK_NONE ↔ own g k = [];
  li_ex : lockType l = LOCK_EX → ∃ t, own g k = [t];
  li_own : alg ≠ NO_WAIT → en_txn <$> owners l = own g k;
  li_cont : valid (st g) k (content l);
  li_db : pend g k = None → c_value (heap (st g) (content l)) = db g !! k;
  li_pend : ∀ t, pend g k = Some t → lockType l = LOCK_EX ∧ own g k = [t] ∧ busy (ph g t) ∧
    ∃ x p, txns (st g) !! t = Some x ∧ content l ∈ writeset x ∧ previousContent l = Some p ∧
      valid (st g) k p ∧ p ≠ content l ∧ c_value (heap (st g) p) = db g !! k }.

Record txn_inv (g : gst) (t : Z) (x : TransactionF) : Prop := {
  ti_fresh : lockReady x = None ∧ rsp_mutex x = None;
  ti_write : ph g t = Running → ∀ a, a ∈ writeset x → pend g (c_key (heap (st g) a)) = Some t ∧
    ∃ l, cc (st g) !! c_key (heap (st g) a) = Some l ∧ content l = a;
  ti_nodup : ph g t = Running → NoDup ((λ a, c_key (heap (st g) a)) <$> writeset x);
  ti_read : ph g t = Running → ∀ k v, (k, v) ∈ rds g t → k ∈ locksDetained x ∧ db g !! k = Some v ∧
    ∃ l, cc (st g) !! k = Some l ∧ lockType l = LOCK_SH;
  ti_rset : ph g t = Running → ∀ a, a ∈ readset x → ∃ k v l, (k, v) ∈ rds g t ∧ cc (st g) !! k = Some l ∧ content l = a;
  ti_done : ∀ com, ph g t = Finished com → locksDetained x = [] ∧ finished x = true }.

Record inv (g : gst) : Prop := {
  i_lock : ∀ k l, cc (st g) !! k = Some l → lock_inv g k l;
  i_nolock : ∀ k, cc (st g) !! k = None → own g k = [] ∧ pend g k = None;
  i_count : ∀ t k, count t (own g k) = count k (held g t);
  i_txn : ∀ t x, txns (st g) !! t = Some x → txn_inv g t x;
  i_del : ∀ a, a ∈ deleted (st g) → (a < brk (st g))%nat;
  i_hist : replay (hist g) = Some (db g) }.

(** ** Lemmas *)

Lemma fw_count_cons {A} `{EqDecision A} (x y : A) l : count x (y :: l) = ((if decide (y = x) then 1 else 0) + count x l)%nat.
Proof. unfold count. rewrite filter_cons. by case_decide. Qed.

Lemma count_snoc {A} `{EqDecision A} (x y : A) l : count x (l ++ [y]) = ((if decide (y = x) then 1 else 0) + count x l)%nat.
Proof. unfold count. rewrite filter_app, length_app, filter_cons, filter_nil. case_decide; simpl; lia. Qed.

Lemma count_elem {A} `{EqDecision A} (x : A) l : x ∈ l ↔ (0 < count x l)%nat.
Proof.
  induction l as [|y l IH]; [split; [by intros ?%not_elem_of_nil|unfold count; simpl; lia]|].
  rewrite elem_of_cons, fw_count_cons, IH. case_decide; [subst|]; naive_solver lia.
Qed.

Lemma count_remove_one t l u : t ∈ l → (count u (remove_one t l) + (if decide (t = u) then 1 else 0))%nat = count u l.
Proof.
  intros Ht. unfold remove_one. induction l as [|y l IH]; [by apply not_elem_of_nil in Ht|]. cbn [remove_first].
  destruct (Z.eqb_spec y t) as [->|Hne]; [rewrite fw_count_cons; lia|].
  apply elem_of_cons in Ht as [->|Ht]; [done|]. specialize (IH Ht).
  destruct (remove_first _ l) as [[z r]|]; cbn [mbind option_bind]; rewrite !fw_count_cons; lia.
Qed.

Lemma replay_snoc h e m m' : replay h = Some m → apply_event m e = Some m' → replay (h ++ [e]) = Some m'.
Proof. unfold replay. intros Hh He. rewrite foldl_app. cbn [foldl]. by rewrite Hh. Qed.

Lemma held_owner g t k : inv g → k ∈ held g t ↔ t ∈ own g k.
Proof. intros Hi. by rewrite !count_elem, (i_count _ Hi). Qed.

Lemma held_lock g t k : inv g → k ∈ held g t → is_Some (cc (st g) !! k).
Proof.
  intros Hi Hk%(held_owner _ _ _ Hi). destruct (cc (st g) !! k) eqn:Hc; [by eexists|].
  destruct (i_nolock _ Hi _ Hc) as [Ho _]. rewrite Ho in Hk. by apply not_elem_of_nil in Hk.
Qed.

Lemma deref_valid s k a : valid s k a → deref a s = Some (heap s a).
Proof. intros [_ Hd _ _]. unfold deref. by rewrite bool_decide_false by done. Qed.

(** A lock that is not in conflict is granted; otherwise nothing changes, or the
    transaction would have to wait. *)
Lemma getControl_spec g t op k l : inv g → cc (st g) !! k = Some l → latch l = None → op = RD ∨ op = WR →
  if conflict_lock (lockType l) (getOperationLock op)
  then getControl alg t op k (st g) = Some (false, st g) ∨ (alg ≠ NO_WAIT ∧ getControl alg t op k (st g) = None)
  else getControl alg t op k (st g) =
    Some (true, set_cc k (add_owner alg (st g) (mkCE (getOperationLock op) t) [] (waiter_cnt l) l) (st g)).
Proof.
  intros Hi Hl Hlt Hop. destruct (i_lock _ Hi _ _ Hl) as [_ Hw _ Hcnt Hnone Hex _ _ _ _]. specialize (Hw Hlt).
  assert (start_waiting t (st g) = None) as Hsw.
  { unfold start_waiting. destruct (txns (st g) !! t) as [x|] eqn:Hx; [|done]. simpl.
    destruct (ti_fresh _ _ _ (i_txn _ Hi _ _ Hx)) as [-> _]. done. }
  unfold getControl. rewrite Hl. cbn [mbind option_bind]. rewrite assert_bind_true by (by apply bool_decide_eq_true).
  unfold in_conflict. rewrite Hw. cbn [en_type en_txn].
  destruct (conflict_lock (lockType l) (getOperationLock op)) eqn:Hc; cbn [orb].
  - destruct (canwait alg t (st g) l) eqn:Hcw; [|by left]. right. split; [intros Ha; unfold canwait in Hcw; by rewrite Ha in Hcw|].
    rewrite Hsw. done.
  - replace (match alg with WAIT_DIE | CALVIN | _ => false end) with false by (by destruct alg).
    rewrite assert_bind_true; [done|]. destruct Hop as [-> | ->]; [by rewrite orb_true_r|].
    destruct (lockType l) eqn:Hty; try done. assert (own g k = []) as Ho by (by apply Hnone).
    rewrite Hcnt, Ho. done.
Qed.

(** An access that returns has had the latch. *)
Lemma getControl_latch s t op k l r : cc s !! k = Some l → getControl alg t op k s = Some r → latch l = None.
Proof. unfold getControl. intros ->. cbn [mbind option_bind]. by intros [?%bool_decide_eq_true _]%assert_bind_Some. Qed.

(** What a step keeps of the lock of a key and of a transaction it is not about. *)
Lemma lock_inv_frame g g' k l : lock_inv g k l →
  own g' k = own g k → pend g' k = pend g k → db g' !! k = db g !! k →
  (∀ a, valid (st g) k a → valid (st g') k a ∧ heap (st g') a = heap (st g) a) →
  (∀ u x, pend g k = Some u → txns (st g) !! u = Some x →
    (busy (ph g u) → busy (ph g' u)) ∧ ∃ y, txns (st g') !! u = Some y ∧ writeset x ⊆ writeset y) →
  lock_inv g' k l.
Proof.
  intros [Hla H1 Hsm H2 H3 H4 H5 H6 H7 H8] Ho Hp Hd Hv Hx. destruct (Hv _ H6) as [Hv6 Hh].
  split; rewrite ?Ho, ?Hp, ?Hd, ?Hh; try done.
  intros u Hu. destruct (H8 u Hu) as (?&?&Hph&x&p&Hxu&Hw&?&Hvp&?&?). destruct (Hx _ _ Hu Hxu) as (Hb&y&Hy&Hxy).
  destruct (Hv _ Hvp) as [Hvp' Hhp]. do 2 (split; [done|]). split; [by apply Hb|]. exists y, p. rewrite Hhp. split; [done|]. split; [by apply Hxy|done].
Qed.

Lemma txn_inv_frame g g' u y : inv g → txns (st g) !! u = Some y → ph g' u = ph g u → rds g' u = rds g u →
  (∀ k a, valid (st g) k a → heap (st g') a = heap (st g) a) →
  (∀ k, pend g k = Some u → pend g' k = Some u) →
  (∀ k l, ph g u = Running → cc (st g) !! k = Some l → pend g k = Some u ∨ k ∈ locksDetained y →
    ∃ l', cc (st g') !! k = Some l' ∧ content l' = content l ∧
      (lockType l = LOCK_SH → lockType l' = LOCK_SH ∧ db g' !! k = db g !! k)) →
  txn_inv g' u y.
Proof.
  intros Hi Hy Hph Hrd Hh Hp Hcc. destruct (i_txn _ Hi _ _ Hy) as [H1 H2 H3 H4 H5 H6].
  assert (ph g u = Running → ∀ a, a ∈ writeset y → heap (st g') a = heap (st g) a) as Hw.
  { intros Hr a Ha. destruct (H2 Hr a Ha) as (_&l&Hl&Hc). rewrite <-Hc. eapply Hh, li_cont, (i_lock _ Hi _ _ Hl). }
  split; rewrite ?Hph, ?Hrd; try done.
  - intros Hr a Ha. destruct (H2 Hr a Ha) as (Hpa&l&Hl&Hc). rewrite Hw by done.
    destruct (Hcc _ l Hr Hl (or_introl Hpa)) as (l'&Hl'&Hc'&_). split; [by apply Hp|]. exists l'. by rewrite Hc'.
  - intros Hr. erewrite list_fmap_ext; [by apply H3|]. intros i a Ha. simpl. by rewrite Hw by (done || by eapply list_elem_of_lookup_2).
  - intros Hr k v Hkv. destruct (H4 Hr k v Hkv) as (Hk&Hd&l&Hl&Hs).
    destruct (Hcc k l Hr Hl (or_intror Hk)) as (l'&Hl'&_&[Hs' Hd']%(λ f, f Hs)). rewrite Hd'. eauto.
  - intros Hr a Ha. destruct (H5 Hr a Ha) as (k&v&l&Hkv&Hl&Hc). destruct (H4 Hr k v Hkv) as (Hk&_).
    destruct (Hcc k l Hr Hl (or_intror Hk)) as (l'&Hl'&Hc'&_). exists k, v, l'. by rewrite Hc'.
Qed.

Lemma inv_alloc g c : inv g →
  inv (mkGst (new_content c (st g)).2 (ph g) (own g) (pend g) (db g) (rds g) (hist g)).
Proof.
  intros Hi. assert (∀ k a, valid (st g) k a → valid (new_content c (st g)).2 k a ∧
    heap (new_content c (st g)).2 a = heap (st g) a) as Hv.
  { intros k a [H1 H2 H3 H4]. cbn [new_content snd]. assert ((<[brk (st g) := c]> (heap (st g))) a = heap (st g) a) as Hh
      by (apply fn_lookup_insert_ne; lia).
    split; [|done]. split; simpl; rewrite ?Hh; try done. lia. }
  split; simpl.
  - intros k l Hl. apply (lock_inv_frame g); simpl; eauto. by apply (i_lock _ Hi).
  - apply (i_nolock _ Hi).
  - apply (i_count _ Hi).
  - intros t x Hx. apply (txn_inv_frame g); simpl; eauto. intros k a Ha. by apply (Hv k).
  - intros a Ha. specialize (i_del _ Hi _ Ha). lia.
  - apply (i_hist _ Hi).
Qed.

(** The owners and the locks detained when a lock is granted. *)
Lemma count_grant g g' t k : inv g → own g' = <[k := t :: own g k]> (own g) → held g' t = held g t ++ [k] →
  (∀ u, u ≠ t → held g' u = held g u) → ∀ u k', count u (own g' k') = count k' (held g' u).
Proof.
  intros Hi Ho Ht Hu u k'. pose proof (i_count _ Hi u k') as Hc. rewrite Ho.
  destruct (decide (u = t)) as [->|Hut].
  - rewrite Ht, count_snoc. destruct (decide (k = k')) as [<-|Hk].
    + rewrite fn_lookup_insert, fw_count_cons, decide_True by done. lia.
    + rewrite fn_lookup_insert_ne by done. lia.
  - rewrite Hu by done. destruct (decide (k = k')) as [<-|Hk].
    + rewrite fn_lookup_insert, fw_count_cons, decide_False by done. lia.
    + rewrite fn_lookup_insert_ne by done. lia.
Qed.

Definition reads_key (a : nat) (k : Z) (x : TransactionF) : TransactionF :=
  mkTF (writeset x) (readset x ++ [a]) (timestampStartup x) (timestampCommit x) (nodeId x)
    (locksDetained x ++ [k]) (validated x) (finished x) (lockReady x) (rsp_mutex x) (lock_ready_cnt x).
Definition writes_key (a : nat) (k : Z) (x : TransactionF) : TransactionF :=
  mkTF (writeset x ++ [a]) (readset x) (timestampStartup x) (timestampCommit x) (nodeId x)
    (locksDetained x ++ [k]) (validated x) (finished x) (lockReady x) (rsp_mutex x) (lock_ready_cnt x).

Ltac fwcbn := cbn [st ph own pend db rds hist set_txn set_cc cc txns heap deleted brk latch content previousContent lockType
  owner_cnt waiter_cnt owners waiters max_owner_ts en_type en_txn writeset readset locksDetained lockReady rsp_mutex
  reads_key writes_key].

(** What a call that returns says about the latch. *)
Lemma fw_read_latch s t k l r : cc s !! k = Some l → fw_read alg SERIALIZABLE t k s = Some r → latch l = None.
Proof.
  intros Hl Hr. unfold fw_read in Hr. rewrite Hl in Hr. unfold manager_read, cc_read in Hr.
  destruct (getControl alg t RD k s) as [q|] eqn:Hg; [|done]. by eapply getControl_latch.
Qed.

Lemma fw_write_latch s t k row l r : cc s !! k = Some l → fw_write alg SERIALIZABLE t k row s = Some r → latch l = None.
Proof.
  intros Hl Hr. unfold fw_write in Hr. rewrite Hl in Hr. unfold manager_write in Hr. cbn [new_content] in Hr.
  unfold cc_write in Hr. destruct (getControl alg t WR k _) as [q|] eqn:Hg; [|done].
  refine (getControl_latch _ t WR k l _ _ Hg). exact Hl.
Qed.

Lemma fw_read_granted g t k l x : inv g → cc (st g) !! k = Some l → latch l = None → txns (st g) !! t = Some x →
  conflict_lock (lockType l) LOCK_SH = false →
  fw_read alg SERIALIZABLE t k (st g) = Some (Some (content l),
    set_txn t (reads_key (content l) k x) (set_cc k (add_owner alg (st g) (mkCE LOCK_SH t) [] (waiter_cnt l) l) (st g))).
Proof.
  intros Hi Hl Hlt Hx Hc. pose proof (getControl_spec g t RD k l Hi Hl Hlt (or_introl eq_refl)) as Hg. simpl in Hg. rewrite Hc in Hg.
  pose proof (li_cont _ _ _ (i_lock _ Hi _ _ Hl)) as Hv. destruct (va_val _ _ _ Hv) as [v Hval].
  unfold fw_read. rewrite Hl. unfold manager_read, cc_read. rewrite Hg. cbn [mbind option_bind set_cc cc txns].
  rewrite lookup_insert_eq. cbn [mbind option_bind]. rewrite Hx. cbn [mbind option_bind].
  unfold addToReadSet, add_owner. cbn [content]. rewrite (deref_valid _ k) by (destruct Hv; by split).
  cbn [mbind option_bind heap set_cc]. rewrite (va_key _ _ _ Hv). cbn [mbind option_bind].
  rewrite (deref_valid _ k) by (destruct Hv; by split). cbn [mbind option_bind heap set_txn set_cc]. rewrite Hval.
  by rewrite bool_decide_false by naive_solver.
Qed.

Lemma fw_read_cases g t k r s' : inv g → fw_read alg SERIALIZABLE t k (st g) = Some (r, s') →
  match r with
  | None => s' = st g
  | Some a => ∃ l x, cc (st g) !! k = Some l ∧ txns (st g) !! t = Some x ∧ conflict_lock (lockType l) LOCK_SH = false ∧
      a = content l ∧
      s' = set_txn t (reads_key a k x) (set_cc k (add_owner alg (st g) (mkCE LOCK_SH t) [] (waiter_cnt l) l) (st g))
  end.
Proof.
  intros Hi Hr. destruct (cc (st g) !! k) as [l|] eqn:Hl; [|unfold fw_read in Hr; rewrite Hl in Hr; by injection Hr as <- <-].
  pose proof (fw_read_latch _ _ _ _ _ Hl Hr) as Hlt.
  destruct (conflict_lock (lockType l) LOCK_SH) eqn:Hc.
  - pose proof (getControl_spec g t RD k l Hi Hl Hlt (or_introl eq_refl)) as Hg. simpl in Hg. rewrite Hc in Hg.
    unfold fw_read in Hr. rewrite Hl in Hr. unfold manager_read, cc_read in Hr.
    destruct Hg as [Hg|[_ Hg]]; rewrite Hg in Hr; [|done]. cbn [mbind option_bind] in Hr. by injection Hr as <- <-.
  - destruct (txns (st g) !! t) as [x|] eqn:Hx.
    + rewrite (fw_read_granted g t k l x) in Hr by done. injection Hr as <- <-. by exists l, x.
    + pose proof (getControl_spec g t RD k l Hi Hl Hlt (or_introl eq_refl)) as Hg. simpl in Hg. rewrite Hc in Hg.
      unfold fw_read in Hr. rewrite Hl in Hr. unfold manager_read, cc_read in Hr. rewrite Hg in Hr.
      cbn [mbind option_bind set_cc cc txns] in Hr. rewrite lookup_insert_eq in Hr. cbn [mbind option_bind] in Hr.
      by rewrite Hx in Hr.
Qed.

Lemma conflict_sh l g k : lock_inv g k l → conflict_lock (lockType l) LOCK_SH = false → lockType l ≠ LOCK_EX ∧ pend g k = None.
Proof.
  intros Hl Hc. assert (lockType l ≠ LOCK_EX) as Hne by (intros He; by rewrite He in Hc). split; [done|].
  destruct (pend g k) as [t|] eqn:Hp; [|done]. by destruct (li_pend _ _ _ Hl _ Hp).
Qed.

Lemma held_running g t x : txns (st g) !! t = Some x → ph g t = Running → held g t = locksDetained x.
Proof. unfold held. by intros -> ->. Qed.

Section read.
Context (g : gst) (t k : Z) (l : CC_Lock) (x : TransactionF).
Hypothesis (Hi : inv g) (Hph : ph g t = Running) (Hsz : zlen (own g k) + 1 < u32_mod).
Hypothesis (Hl : cc (st g) !! k = Some l) (Hx : txns (st g) !! t = Some x) (Hc : conflict_lock (lockType l) LOCK_SH = false).

Let l' := add_owner alg (st g) (mkCE LOCK_SH t) [] (waiter_cnt l) l.
Let s' := set_txn t (reads_key (content l) k x) (set_cc k l' (st g)).
Let g' := mkGst s' (ph g) (<[k := t :: own g k]> (own g)) (pend g) (db g)
  (<[t := rds g t ++ [(k, default 0 (c_value (heap s' (content l))))]]> (rds g)) (hist g).

Lemma read_lock_inv : lock_inv g' k l'.
Proof.
  pose proof (i_lock _ Hi _ _ Hl) as Hlk. destruct (conflict_sh l g k Hlk Hc) as [Hne Hpk].
  destruct Hlk as [Hla H1 Hsm H2 H3 H4 H5 H6 H7 H8]. unfold l', add_owner, g', s'.
  split; fwcbn; rewrite ?fn_lookup_insert; try done.
  - rewrite length_cons. lia.
  - rewrite H2, wrap32_small by (unfold is_u32; lia). rewrite length_cons. lia.
  - intros Ha. rewrite bool_decide_false, fmap_cons, H5 by done. done.
  - by destruct H6.
  - intros u Hu. congruence.
Qed.

Lemma read_frame rs u y : rs u = rds g u → txns (st g) !! u = Some y →
  txn_inv (mkGst s' (ph g) (own g') (pend g) (db g) rs (hist g)) u y.
Proof.
  intros Hr Hy. apply (txn_inv_frame g); unfold s'; fwcbn; try done. intros k' m _ Hm _.
  destruct (decide (k = k')) as [<-|Hk]; [exists l'; rewrite lookup_insert_eq; by simplify_eq|].
  exists m. by rewrite lookup_insert_ne.
Qed.

Lemma read_reader_inv : txn_inv g' t (reads_key (content l) k x).
Proof.
  pose proof (i_lock _ Hi _ _ Hl) as Hlk. destruct (conflict_sh l g k Hlk Hc) as [_ Hpk].
  destruct (read_frame (rds g) t x eq_refl Hx) as [H1 H2 H3 H4 H5 H6].
  unfold g'. split; fwcbn; rewrite ?fn_lookup_insert; try done.
  - intros _ k' v [Hv|[= -> ->]%list_elem_of_singleton]%elem_of_app; rewrite elem_of_app, list_elem_of_singleton.
    + destruct (H4 Hph k' v Hv) as (Hk&?). split; [by left|done].
    + split; [by right|]. rewrite <-(li_db _ _ _ Hlk Hpk). destruct (va_val _ _ _ (li_cont _ _ _ Hlk)) as [v Hv].
      unfold s'. fwcbn. rewrite Hv. split; [done|]. exists l'. by rewrite lookup_insert_eq.
  - intros _ a [Ha| ->%list_elem_of_singleton]%elem_of_app.
    + destruct (H5 Hph a Ha) as (k'&v&m&Hv&Hm). exists k', v, m. rewrite elem_of_app. auto.
    + eexists k, _, l'. rewrite elem_of_app, list_elem_of_singleton. split; [by right|].
      unfold s'. fwcbn. by rewrite lookup_insert_eq.
  - intros com. congruence.
Qed.

Lemma inv_read_granted : inv g'.
Proof.
  split; unfold g', s'; fwcbn.
  - intros k' m [[<- <-]|[Hk Hm]]%lookup_insert_Some; [exact read_lock_inv|].
    apply (lock_inv_frame g); fwcbn; rewrite ?fn_lookup_insert_ne by done; try done; [by apply (i_lock _ Hi)|by intros a []|].
    intros u y _ Hy. split; [done|]. destruct (decide (u = t)) as [->|Hut].
    + assert (y = x) as -> by congruence. eexists. by rewrite lookup_insert_eq.
    + exists y. by rewrite lookup_insert_ne.
  - intros k' [Hk Hn]%lookup_insert_None. rewrite fn_lookup_insert_ne by done. by apply (i_nolock _ Hi).
  - apply (count_grant g g' t k Hi eq_refl); unfold held, g', s'; fwcbn.
    + by rewrite lookup_insert_eq, Hph, Hx.
    + intros u Hu. by rewrite lookup_insert_ne.
  - intros u y [[<- <-]|[Hu Hy]]%lookup_insert_Some; [exact read_reader_inv|].
    apply read_frame; [|done]. by rewrite fn_lookup_insert_ne.
  - apply (i_del _ Hi).
  - apply (i_hist _ Hi).
Qed.

End read.

Lemma fw_inv_read g t k a s' : inv g → ph g t = Running → zlen (own g k) + 1 < u32_mod →
  fw_read alg SERIALIZABLE t k (st g) = Some (Some a, s') →
  inv (mkGst s' (ph g) (<[k := t :: own g k]> (own g)) (pend g) (db g)
             (<[t := rds g t ++ [(k, default 0 (c_value (heap s' a)))]]> (rds g)) (hist g)).
Proof.
  intros Hi Hph Hsz Hr. apply (fw_read_cases _ _ _ _ _ Hi) in Hr as (l&x&Hl&Hx&Hc&->&->). by apply inv_read_granted.
Qed.

(** The state with the new content, and the lock after a write. *)
Definition alloc_gst (c : Content) (g : gst) : gst :=
  mkGst (new_content c (st g)).2 (ph g) (own g) (pend g) (db g) (rds g) (hist g).

Definition write_lock (g : gst) (t : Z) (a : nat) (l : CC_Lock) : CC_Lock :=
  mkCC (latch l) a (Some (content l)) LOCK_EX (wrap32 (owner_cnt l + 1)) (waiter_cnt l)
    (if bool_decide (alg = NO_WAIT) then owners l else mkCE LOCK_EX t :: owners l) []
    (Z.max (max_owner_ts l) (ts_of (st g) t)).

Lemma fw_write_granted g t k row l x : inv g → cc (st g) !! k = Some l → latch l = None → txns (st g) !! t = Some x →
  conflict_lock (lockType l) LOCK_EX = false →
  fw_write alg SERIALIZABLE t k row (st g) = Some (Some (brk (st g)),
    set_cc k (write_lock g t (brk (st g)) l)
      (set_txn t (writes_key (brk (st g)) k x) (new_content (mkContent k (Some row)) (st g)).2)).
Proof.
  intros Hi Hl Hlt Hx Hc. set (g1 := alloc_gst (mkContent k (Some row)) g).
  assert (inv g1) as Hi1 by (by apply inv_alloc).
  pose proof (getControl_spec g1 t WR k l Hi1 Hl Hlt (or_intror eq_refl)) as Hg. cbn [getOperationLock] in Hg. rewrite Hc in Hg.
  unfold fw_write. rewrite Hl. unfold manager_write. cbn [new_content]. unfold cc_write.
  change (mkFw _ _ _ _ _) with (st g1). rewrite Hg. cbn [mbind option_bind set_cc cc txns].
  rewrite lookup_insert_eq. cbn [mbind option_bind]. change (txns (st g1)) with (txns (st g)). rewrite Hx.
  cbn [mbind option_bind]. unfold addToWriteSet, deref. cbn [set_cc deleted heap st g1 alloc_gst new_content snd].
  rewrite (bool_decide_false (brk (st g) ∈ _)) by (intros Hd%(i_del _ Hi); lia). cbn [negb]. rewrite assert_bind_true by done.
  cbn [mbind option_bind]. rewrite fn_lookup_insert. cbn [c_key].
  rewrite bool_decide_false by done. do 2 f_equal. unfold set_cc, set_txn, add_owner, write_lock. fwcbn.
  by rewrite insert_insert_eq.
Qed.

Lemma fw_write_refused g t k row l : inv g → cc (st g) !! k = Some l → latch l = None → conflict_lock (lockType l) LOCK_EX = true →
  fw_write alg SERIALIZABLE t k row (st g) = Some (None, (new_content (mkContent k (Some row)) (st g)).2) ∨
  (alg ≠ NO_WAIT ∧ fw_write alg SERIALIZABLE t k row (st g) = None).
Proof.
  intros Hi Hl Hlt Hc. set (g1 := alloc_gst (mkContent k (Some row)) g). assert (inv g1) as Hi1 by (by apply inv_alloc).
  pose proof (getControl_spec g1 t WR k l Hi1 Hl Hlt (or_intror eq_refl)) as Hg. cbn [getOperationLock] in Hg. rewrite Hc in Hg.
  unfold fw_write. rewrite Hl. unfold manager_write. cbn [new_content]. unfold cc_write. change (mkFw _ _ _ _ _) with (st g1).
  destruct Hg as [Hg|[Ha Hg]]; rewrite Hg; [left|right]; done.
Qed.

Lemma fw_write_cases g t k row r s' l : inv g → cc (st g) !! k = Some l →
  fw_write alg SERIALIZABLE t k row (st g) = Some (r, s') →
  match r with
  | None => s' = (new_content (mkContent k (Some row)) (st g)).2
  | Some a => ∃ x, txns (st g) !! t = Some x ∧ conflict_lock (lockType l) LOCK_EX = false ∧ a = brk (st g) ∧
      s' = set_cc k (write_lock g t a l) (set_txn t (writes_key a k x) (new_content (mkContent k (Some row)) (st g)).2)
  end.
Proof.
  intros Hi Hl Hr. pose proof (fw_write_latch _ _ _ _ _ _ Hl Hr) as Hlt. set (g1 := alloc_gst (mkContent k (Some row)) g). assert (inv g1) as Hi1 by (by apply inv_alloc).
  pose proof (getControl_spec g1 t WR k l Hi1 Hl Hlt (or_intror eq_refl)) as Hg. cbn [getOperationLock] in Hg.
  destruct (conflict_lock (lockType l) LOCK_EX) eqn:Hc.
  - destruct (fw_write_refused g t k row l Hi Hl Hlt Hc) as [Hw|[_ Hw]]; rewrite Hw in Hr; [|done]. by injection Hr as <- <-.
  - destruct (txns (st g) !! t) as [x|] eqn:Hx.
    + rewrite (fw_write_granted g t k row l x) in Hr by done. injection Hr as <- <-. by exists x.
    + unfold fw_write in Hr. rewrite Hl in Hr. unfold manager_write in Hr. cbn [new_content] in Hr. unfold cc_write in Hr.
      change (mkFw _ _ _ _ _) with (st g1) in Hr. rewrite Hg in Hr. cbn [mbind option_bind set_cc cc txns] in Hr.
      rewrite lookup_insert_eq in Hr. cbn [mbind option_bind] in Hr. change (txns (st g1)) with (txns (st g)) in Hr.
      by rewrite Hx in Hr.
Qed.

Lemma conflict_ex l g k : lock_inv g k l → conflict_lock (lockType l) LOCK_EX = false →
  lockType l = LOCK_NONE ∧ own g k = [] ∧ pend g k = None.
Proof.
  intros Hl Hc. assert (lockType l = LOCK_NONE) as Hn by (by destruct (lockType l)). split; [done|].
  split; [by apply (li_none _ _ _ Hl)|]. destruct (pend g k) as [t|] eqn:Hp; [|done].
  destruct (li_pend _ _ _ Hl _ Hp) as [He _]. congruence.
Qed.

(** [g] is the state with the new content [a]. *)
Section write.
Context (g : gst) (t k : Z) (a : nat) (l l' : CC_Lock) (x : TransactionF).
Hypothesis (Hi : inv g) (Hph : ph g t = Running) (Hva : valid (st g) k a) (Hne : content l ≠ a).
Hypothesis (Hl : cc (st g) !! k = Some l) (Hx : txns (st g) !! t = Some x) (Hc : conflict_lock (lockType l) LOCK_EX = false).
Hypothesis (Hl' : l' = write_lock g t a l).

Let s' := set_cc k l' (set_txn t (writes_key a k x) (st g)).
Let g' := mkGst s' (ph g) (<[k := t :: own g k]> (own g)) (<[k := Some t]> (pend g)) (db g) (rds g) (hist g).

Lemma write_lock_inv : lock_inv g' k l'.
Proof.
  pose proof (i_lock _ Hi _ _ Hl) as Hlk. destruct (conflict_ex l g k Hlk Hc) as (Hnone&Hown&Hpk).
  rewrite Hl'. unfold g', s', write_lock. rewrite Hown. split; fwcbn; rewrite ?fn_lookup_insert; try done.
  - apply (li_latch _ _ _ Hlk).
  - rewrite (li_cnt _ _ _ Hlk), Hown. done.
  - by exists t.
  - intros Ha. rewrite bool_decide_false, fmap_cons, (li_own _ _ _ Hlk), Hown by done. done.
  - by destruct Hva.
  - intros u [= <-]. split; [done|]. split; [done|]. split; [by left|]. exists (writes_key a k x), (content l).
    rewrite lookup_insert_eq. split; [done|]. split; [fwcbn; rewrite elem_of_app, list_elem_of_singleton; by right|].
    split; [done|]. split; [destruct (li_cont _ _ _ Hlk); by split|]. split; [done|]. by apply (li_db _ _ _ Hlk).
Qed.

Lemma write_frame u y : txns (st g) !! u = Some y → txn_inv g' u y.
Proof.
  destruct (conflict_ex l g k (i_lock _ Hi _ _ Hl) Hc) as (Hnone&Hown&Hpk).
  intros Hy. apply (txn_inv_frame g); unfold g', s'; fwcbn; try done.
  - intros k' Hk. rewrite fn_lookup_insert_ne; [done|congruence].
  - intros k' m Hr Hm Hk. exists m. rewrite lookup_insert_ne; [done|]. intros <-. destruct Hk as [Hk|Hk]; [congruence|].
    rewrite <-(held_running g u y), held_owner, Hown in Hk by done. by apply not_elem_of_nil in Hk.
Qed.

Lemma write_writer_inv : txn_inv g' t (writes_key a k x).
Proof.
  destruct (conflict_ex l g k (i_lock _ Hi _ _ Hl) Hc) as (Hnone&Hown&Hpk). pose proof (va_key _ _ _ Hva) as Hka.
  destruct (write_frame t x Hx) as [H1 H2 H3 H4 H5 H6]. split; fwcbn; try done.
  - intros _ b [Hb|Hb%list_elem_of_singleton]%elem_of_app; [by apply H2|]. subst b. unfold g', s'. fwcbn.
    rewrite Hka, fn_lookup_insert, lookup_insert_eq. split; [done|]. exists l'. split; [done|]. by rewrite Hl'.
  - intros _. rewrite fmap_app. apply NoDup_app. split; [by apply H3|]. split; [|apply NoDup_singleton].
    intros z (b&->&Hb)%list_elem_of_fmap Hz%list_elem_of_singleton. change (c_key (heap (st g) b) = c_key (heap (st g) a)) in Hz.
    rewrite Hka in Hz.
    destruct (ti_write _ _ _ (i_txn _ Hi _ _ Hx) Hph b Hb) as [Hp _]. congruence.
  - intros _ k' v Hv. destruct (H4 Hph k' v Hv) as (Hk&?). rewrite elem_of_app. split; [by left|done].
  - intros com. unfold g'. fwcbn. congruence.
Qed.

Lemma inv_write_granted : inv g'.
Proof.
  split; unfold g', s'; fwcbn.
  - intros k' m [[<- <-]|[Hk Hm]]%lookup_insert_Some; [exact write_lock_inv|].
    apply (lock_inv_frame g); fwcbn; rewrite ?fn_lookup_insert_ne by done; try done; [by apply (i_lock _ Hi)|by intros b []|].
    intros u y _ Hy. split; [done|]. destruct (decide (u = t)) as [->|Hut].
    + assert (y = x) as -> by congruence. eexists. rewrite lookup_insert_eq. split; [done|]. fwcbn. set_solver.
    + exists y. by rewrite lookup_insert_ne.
  - intros k' [Hk Hn]%lookup_insert_None. rewrite !fn_lookup_insert_ne by done. by apply (i_nolock _ Hi).
  - apply (count_grant g g' t k Hi eq_refl); unfold held, g', s'; fwcbn.
    + by rewrite lookup_insert_eq, Hph, Hx.
    + intros u Hu. by rewrite lookup_insert_ne.
  - intros u y [[<- <-]|[Hu Hy]]%lookup_insert_Some; [exact write_writer_inv|]. by apply write_frame.
  - apply (i_del _ Hi).
  - apply (i_hist _ Hi).
Qed.

End write.

Lemma valid_new g k row : inv g → valid (st (alloc_gst (mkContent k (Some row)) g)) k (brk (st g)).
Proof.
  intros Hi. split; simpl; [lia|intros Hd%(i_del _ Hi); lia|by rewrite fn_lookup_insert|by rewrite fn_lookup_insert].
Qed.

Lemma fw_inv_write g t k row a s' : inv g → ph g t = Running → cc (st g) !! k ≠ None →
  fw_write alg SERIALIZABLE t k row (st g) = Some (Some a, s') →
  inv (mkGst s' (ph g) (<[k := t :: own g k]> (own g)) (<[k := Some t]> (pend g)) (db g) (rds g) (hist g)).
Proof.
  intros Hi Hph Hk Hr. destruct (cc (st g) !! k) as [l|] eqn:Hl; [|done].
  apply (fw_write_cases _ _ _ _ _ _ _ Hi Hl) in Hr as (x&Hx&Hc&->&->).
  pose proof (va_brk _ _ _ (li_cont _ _ _ (i_lock _ Hi _ _ Hl))) as Hlt.
  apply (inv_write_granted (alloc_gst (mkContent k (Some row)) g) t k (brk (st g)) l); try done.
  - by apply inv_alloc.
  - by apply valid_new.
  - lia.
Qed.

Lemma inv_init_content g k row : inv g → cc (st g) !! k = None →
  inv (mkGst (initContent k row (st g)) (ph g) (own g) (pend g) (<[k := row]> (db g)) (rds g) (hist g ++ [EInit k row])).
Proof.
  intros Hi0 Hk0. pose proof (inv_alloc g (mkContent k (Some row)) Hi0) as Hi. pose proof (valid_new g k row Hi0) as Hva.
  unfold initContent. cbn [new_content cc]. rewrite Hk0. fold (alloc_gst (mkContent k (Some row)) g) in Hi.
  assert (c_value (heap (st (alloc_gst (mkContent k (Some row)) g)) (brk (st g))) = Some row) as Hrow by (simpl; by rewrite fn_lookup_insert).
  set (g1 := alloc_gst (mkContent k (Some row)) g) in *. change (mkFw _ _ _ _ _) with (st g1). set (a := brk (st g)) in *.
  assert (cc (st g1) !! k = None) as Hk by done. destruct (i_nolock _ Hi _ Hk) as [Hown Hpk].
  change (own g) with (own g1). change (pend g) with (pend g1). change (ph g) with (ph g1). change (db g) with (db g1).
  change (rds g) with (rds g1). change (hist g) with (hist g1). clearbody g1 a. clear Hi0 Hk0 g.
  split; fwcbn.
  - intros k' m [[<- <-]|[Hkk Hm]]%lookup_insert_Some.
    + split; fwcbn; cbn [new_lock]; fwcbn; rewrite ?Hown, ?Hpk, ?lookup_insert_eq; try done. by destruct Hva.
    + apply (lock_inv_frame g1); fwcbn; rewrite ?lookup_insert_ne by done; try done; [by apply (i_lock _ Hi)|by intros b []|].
      eauto.
  - intros k' [Hn _]%lookup_insert_None. by apply (i_nolock _ Hi).
  - apply (i_count _ Hi).
  - intros u y Hy. apply (txn_inv_frame g1); fwcbn; try done. intros k' m _ Hm _. exists m.
    rewrite !lookup_insert_ne by congruence. done.
  - apply (i_del _ Hi).
  - eapply replay_snoc; [apply (i_hist _ Hi)|done].
Qed.

(** A step that changes one transaction that has no uncommitted writes. *)
Lemma inv_upd_txn g t x p rs : inv g →
  (∀ k, pend g k ≠ Some t) →
  txn_inv (mkGst (set_txn t x (st g)) (<[t := p]> (ph g)) (own g) (pend g) (db g) (<[t := rs]> (rds g)) (hist g)) t x →
  held (mkGst (set_txn t x (st g)) (<[t := p]> (ph g)) (own g) (pend g) (db g) (<[t := rs]> (rds g)) (hist g)) t = held g t →
  inv (mkGst (set_txn t x (st g)) (<[t := p]> (ph g)) (own g) (pend g) (db g) (<[t := rs]> (rds g)) (hist g)).
Proof.
  intros Hi Hp Hx Hh. split; fwcbn.
  - intros k l Hl. apply (lock_inv_frame g); fwcbn; try done; [by apply (i_lock _ Hi)|by intros a []|].
    intros u y Hu Hy. assert (t ≠ u) by (intros ->; by apply (Hp k)). rewrite fn_lookup_insert_ne, lookup_insert_ne by done. eauto.
  - apply (i_nolock _ Hi).
  - intros u k. rewrite (i_count _ Hi u k). destruct (decide (u = t)) as [->|Hne]; [by rewrite Hh|].
    unfold held. fwcbn. by rewrite lookup_insert_ne, fn_lookup_insert_ne by done.
  - intros u y [[<- <-]|[Hne Hy]]%lookup_insert_Some; [done|].
    apply (txn_inv_frame g); fwcbn; rewrite ?fn_lookup_insert_ne by done; eauto.
  - apply (i_del _ Hi).
  - apply (i_hist _ Hi).
Qed.

Lemma no_pend g t : inv g → (txns (st g) !! t = None ∨ ¬ busy (ph g t)) → ∀ k, pend g k ≠ Some t.
Proof.
  intros Hi Ht k Hp. destruct (cc (st g) !! k) as [l|] eqn:Hl.
  - destruct (li_pend _ _ _ (i_lock _ Hi _ _ Hl) _ Hp) as (_&_&Hph&y&_&Hy&_). destruct Ht; [congruence|done].
  - destruct (i_nolock _ Hi _ Hl). congruence.
Qed.

Lemma fw_inv_begin g t home clock : inv g → txns (st g) !! t = None →
  inv (mkGst (beginTransaction t home clock (st g)) (<[t := Running]> (ph g)) (own g) (pend g) (db g) (<[t := []]> (rds g)) (hist g)).
Proof.
  intros Hi Ht. apply inv_upd_txn; [done|apply no_pend; auto| |].
  - split; fwcbn; cbn [setTimestampStart new_txn]; fwcbn; rewrite ?fn_lookup_insert; try done.
    + by intros _ a ?%not_elem_of_nil.
    + intros _. constructor.
    + by intros _ k v ?%not_elem_of_nil.
    + by intros _ a ?%not_elem_of_nil.
  - unfold held. fwcbn. by rewrite lookup_insert_eq, fn_lookup_insert, Ht.
Qed.

Lemma inv_released g t com x : inv g → ph g t = Releasing [] com → txns (st g) !! t = Some x →
  inv (mkGst (set_txn t (setFinished true (clearLocksDetained x)) (st g)) (<[t := Finished com]> (ph g)) (own g) (pend g)
             (db g) (<[t := rds g t]> (rds g)) (hist g)).
Proof.
  intros Hi Hph Hx. apply inv_upd_txn; [done|apply no_pend; [done|right; rewrite Hph; by intros [?|?]]| |].
  - destruct (i_txn _ Hi _ _ Hx) as [H1 H2 H3 H4 H5]. split; fwcbn; rewrite ?fn_lookup_insert; done.
  - unfold held. fwcbn. by rewrite lookup_insert_eq, fn_lookup_insert, Hx, Hph.
Qed.

Lemma end_spec g t com s' : inv g → ph g t = Finished com → endTransaction alg t (st g) = Some s' →
  ∃ x, txns (st g) !! t = Some x ∧ s' = set_txn t (clearSets x) (st g).
Proof.
  intros Hi Hph. unfold endTransaction. destruct (txns (st g) !! t) as [x|] eqn:Hx; [|done]. cbn [mbind option_bind].
  destruct (ti_done _ _ _ (i_txn _ Hi _ _ Hx) _ Hph) as [Hl Hf]. rewrite Hf. unfold manager_finish. rewrite Hx.
  cbn [mbind option_bind]. rewrite bool_decide_true by done. cbn [mbind option_bind]. rewrite Hx. intros [= <-]. eauto.
Qed.

Lemma fw_inv_end g t com s' : inv g → ph g t = Finished com → endTransaction alg t (st g) = Some s' →
  inv (mkGst s' (<[t := Running]> (ph g)) (own g) (pend g) (db g) (<[t := []]> (rds g)) (hist g)).
Proof.
  intros Hi Hph He. destruct (end_spec g t com s' Hi Hph He) as (x&Hx&->).
  destruct (i_txn _ Hi _ _ Hx) as [H1 _ _ _ _ H6]. destruct (H6 _ Hph) as [Hl _].
  apply inv_upd_txn; [done|apply no_pend; [done|right; rewrite Hph; by intros [?|?]]| |].
  - split; fwcbn; cbn [clearSets]; fwcbn; rewrite ?fn_lookup_insert; try done.
    + by intros _ a ?%not_elem_of_nil.
    + intros _. constructor.
    + by intros _ k v ?%not_elem_of_nil.
    + by intros _ a ?%not_elem_of_nil.
  - unfold held. fwcbn. by rewrite lookup_insert_eq, fn_lookup_insert, Hx, Hph.
Qed.

(** *** Releasing a lock *)

Lemma remove_first_fmap {A} (f : A → Z) t (l : list A) :
  remove_first (λ u, u =? t) (f <$> l : list Z) =
    match remove_first (λ y, f y =? t) l with Some (y, r) => Some (f y, (f <$> r : list Z)) | None => None end.
Proof.
  induction l as [|y l IH]; [done|]. rewrite fmap_cons. cbn [remove_first]. destruct (f y =? t); [done|].
  rewrite IH. by destruct (remove_first (λ y, f y =? t) l) as [[z r]|].
Qed.

Lemma remove_one_length t l : t ∈ l → length l = S (length (remove_one t l)).
Proof.
  intros Ht. unfold remove_one. destruct (remove_first_Some (λ u, u =? t) l t Ht) as [[z r] Hr]; [lia|].
  rewrite Hr. by destruct (remove_first_perm _ _ _ _ Hr) as [-> _].
Qed.

Definition release_lock (t : Z) (n : nat) (os : list CC_Entry) (l : CC_Lock) : CC_Lock :=
  mkCC (latch l) (content l) (previousContent l) (if Z.of_nat n =? 0 then LOCK_NONE else lockType l) (Z.of_nat n)
    (waiter_cnt l) os [] (max_owner_ts l).

Lemma release_spec g t k l : inv g → cc (st g) !! k = Some l → latch l = None → t ∈ own g k →
  ∃ os, releaseControl alg t k (st g) = Some (set_cc k (release_lock t (length (remove_one t (own g k))) os l) (st g)) ∧
    (alg ≠ NO_WAIT → en_txn <$> os = remove_one t (own g k)).
Proof.
  intros Hi Hl Hlt Ht. destruct (i_lock _ Hi _ _ Hl) as [Hla H1 Hsm H2 H3 H4 H5 H6 H7 H8].
  pose proof (remove_one_length t _ Ht) as Hlen. set (n := length (remove_one t (own g k))) in *.
  assert (∃ os, leave alg t l = Some (Z.of_nat n, os) ∧ (alg ≠ NO_WAIT → en_txn <$> os = remove_one t (own g k))) as (os&Hlv&Hos).
  { destruct (decide (alg = NO_WAIT)) as [->|Hne].
    - exists (owners l). unfold leave. rewrite H2, Hlen. split; [|done].
      rewrite (proj2 (Z.ltb_lt 0 _)) by lia. do 2 f_equal. lia.
    - specialize (H5 Hne). pose proof (remove_first_fmap en_txn t (owners l)) as Hrf. rewrite H5 in Hrf.
      destruct (remove_first_Some (λ u, u =? t) (own g k) t Ht) as [[z r] Hr]; [lia|]. rewrite Hr in Hrf.
      destruct (remove_first (λ o, en_txn o =? t) (owners l)) as [[y os]|] eqn:Ho; [|done]. exists os.
      assert (r = en_txn <$> os) as -> by (by injection Hrf). split.
      + unfold leave. replace (wrap32 (owner_cnt l - 1)) with (Z.of_nat n); [by destruct alg; rewrite ?Ho|].
        rewrite H2, wrap32_small; unfold is_u32; lia.
      + intros _. unfold remove_one. by rewrite Hr. }
  exists os. split; [|done]. unfold releaseControl, drop_owner. rewrite Hl. cbn [mbind option_bind].
  rewrite assert_bind_true by (by apply bool_decide_eq_true). rewrite Hlv.
  cbn [mbind option_bind owner_cnt lockType waiters]. rewrite assert_bind_true.
  - rewrite H1 by done. by cbn [hand_over].
  - destruct (Z.of_nat n =? 0); [|done]. by rewrite bool_decide_true.
Qed.

Section release.
Context (g : gst) (t k : Z) (ks : list Z) (com : bool) (l l' : CC_Lock) (os : list CC_Entry) (x : TransactionF).
Hypothesis (Hi : inv g) (Hph : ph g t = Releasing (k :: ks) com) (Hl : cc (st g) !! k = Some l) (Ht : t ∈ own g k).
Hypothesis (Hx : txns (st g) !! t = Some x) (Hos : alg ≠ NO_WAIT → en_txn <$> os = remove_one t (own g k)).
Hypothesis (Hl' : l' = release_lock t (length (remove_one t (own g k))) os l).

Let g' := mkGst (set_cc k l' (st g)) (<[t := Releasing ks com]> (ph g)) (<[k := remove_one t (own g k)]> (own g)) (pend g)
  (db g) (rds g) (hist g).

Lemma releaser_no_pend k' : pend g k' ≠ Some t.
Proof. apply no_pend; [done|]. rewrite Hph. right. by intros [?|?]. Qed.

Lemma released_no_pend : pend g k = None.
Proof.
  destruct (pend g k) as [u|] eqn:Hp; [|done]. destruct (li_pend _ _ _ (i_lock _ Hi _ _ Hl) u Hp) as (_&Ho&_).
  rewrite Ho in Ht. apply list_elem_of_singleton in Ht. subst u. by destruct (releaser_no_pend k).
Qed.

Lemma release_keeps_sh u y : txns (st g) !! u = Some y → ph g u = Running → k ∈ locksDetained y → lockType l' = lockType l.
Proof.
  intros Hy Hpu Hky. rewrite Hl'. unfold release_lock. fwcbn.
  destruct (Z.eqb_spec (Z.of_nat (length (remove_one t (own g k)))) 0) as [H0|]; [|done]. exfalso.
  assert (u ∈ own g k) as Hu by (apply held_owner; [done|by rewrite (held_running g u y)]).
  rewrite count_elem, <-(count_remove_one t (own g k) u Ht), decide_False in Hu by congruence.
  assert (length (remove_one t (own g k)) = 0%nat) as H0' by lia. apply nil_length_inv in H0'.
  rewrite H0' in Hu. unfold count in Hu. simpl in Hu. lia.
Qed.

Lemma release_lock_inv : lock_inv g' k l'.
Proof.
  pose proof (remove_one_length t _ Ht) as Hlen. pose proof released_no_pend as Hpk.
  destruct (i_lock _ Hi _ _ Hl) as [Hla H1 Hsm H2 H3 H4 H5 H6 H7 H8].
  rewrite Hl'. unfold g', release_lock. split; fwcbn; rewrite ?fn_lookup_insert; try done.
  - lia.
  - destruct (Z.eqb_spec (Z.of_nat (length (remove_one t (own g k)))) 0) as [H0|H0].
    + split; [intros _; apply nil_length_inv; lia|done].
    + split; [intros Hn; apply H3 in Hn; rewrite Hn in Ht; by apply not_elem_of_nil in Ht|]. intros Hn. by rewrite Hn in H0.
  - destruct (Z.eqb_spec (Z.of_nat (length (remove_one t (own g k)))) 0) as [H0|H0]; [done|].
    intros He. destruct (H4 He) as [u Hu]. assert (length (own g k) = 1%nat) by (by rewrite Hu). lia.
  - by destruct H6.
  - intros u Hu. congruence.
Qed.

Lemma release_count u k' : count u (own g' k') = count k' (held g' u).
Proof.
  pose proof (i_count _ Hi u k') as Hcnt. pose proof (count_remove_one t (own g k) u Ht) as Hrm.
  unfold held, g' in *. fwcbn. destruct (decide (u = t)) as [->|Hut].
  - rewrite Hx, fn_lookup_insert. rewrite Hx, Hph, fw_count_cons in Hcnt. rewrite decide_True in Hrm by done.
    destruct (decide (k = k')) as [<-|Hne]; [rewrite fn_lookup_insert; lia|]. rewrite fn_lookup_insert_ne by done. lia.
  - rewrite decide_False in Hrm by done.
    destruct (decide (k = k')) as [<-|Hne]; [rewrite fn_lookup_insert|]; rewrite !fn_lookup_insert_ne by done; lia.
Qed.

Lemma release_txn_inv u y : txns (st g) !! u = Some y → txn_inv g' u y.
Proof.
  intros Hy. destruct (decide (u = t)) as [->|Hut].
  { destruct (i_txn _ Hi _ _ Hy) as [H1 _ _ _ _ _]. unfold g'. split; fwcbn; rewrite ?fn_lookup_insert; done. }
  apply (txn_inv_frame g); unfold g'; fwcbn; rewrite ?fn_lookup_insert_ne by done; try done. intros k' m Hr Hm Hk.
  destruct (decide (k = k')) as [<-|Hne]; [|exists m; by rewrite lookup_insert_ne].
  assert (m = l) as -> by congruence. exists l'. rewrite lookup_insert_eq. split; [done|]. split; [by rewrite Hl'|].
  destruct Hk as [Hk|Hk]; [by rewrite released_no_pend in Hk|]. rewrite (release_keeps_sh u y); done.
Qed.

Lemma inv_release_lock : inv g'.
Proof.
  split; [|..|exact release_count|exact release_txn_inv|apply (i_del _ Hi)|apply (i_hist _ Hi)].
  - unfold g'. fwcbn. intros k' m [[<- <-]|[Hkk Hm]]%lookup_insert_Some; [exact release_lock_inv|].
    apply (lock_inv_frame g); fwcbn; rewrite ?fn_lookup_insert_ne by done; try done; [by apply (i_lock _ Hi)|by intros b []|].
    intros u y Hu Hy. assert (t ≠ u) by (intros Htu; apply (releaser_no_pend k'); congruence). rewrite fn_lookup_insert_ne by done. eauto.
  - unfold g'. fwcbn. intros k' [Hn Hne]%lookup_insert_None. rewrite fn_lookup_insert_ne by done. by apply (i_nolock _ Hi).
Qed.

End release.

Lemma fw_inv_release g t k ks com s' : inv g → ph g t = Releasing (k :: ks) com →
  is_Some (txns (st g) !! t) → releaseControl alg t k (st g) = Some s' →
  inv (mkGst s' (<[t := Releasing ks com]> (ph g)) (<[k := remove_one t (own g k)]> (own g)) (pend g) (db g) (rds g) (hist g)).
Proof.
  intros Hi Hph [x Hx] Hr. assert (k ∈ held g t) as Hk by (unfold held; rewrite Hx, Hph; by left).
  destruct (held_lock _ _ _ Hi Hk) as [l Hl]. assert (t ∈ own g k) as Ht by (by apply held_owner).
  assert (latch l = None) as Hlt.
  { unfold releaseControl in Hr. rewrite Hl in Hr. cbn [mbind option_bind] in Hr. by apply assert_bind_Some in Hr as [?%bool_decide_eq_true _]. }
  destruct (release_spec g t k l Hi Hl Hlt Ht) as (os&Hr'&Hos). rewrite Hr in Hr'. injection Hr' as ->.
  by eapply inv_release_lock.
Qed.

(** *** Committing and undoing writes *)

Definition key_at (s : fw) (a : nat) : Z := c_key (heap s a).

(** The contents of a write set, with the contents they replaced. *)
Definition undoable (s : fw) (ws : list nat) : Prop :=
  NoDup (key_at s <$> ws) ∧ ∀ a, a ∈ ws → valid s (key_at s a) a ∧
    ∃ l p, cc s !! key_at s a = Some l ∧ content l = a ∧ previousContent l = Some p ∧ valid s (key_at s a) p ∧ p ≠ a.

Lemma undoable_running g t x : inv g → txns (st g) !! t = Some x → ph g t = Running → undoable (st g) (writeset x).
Proof.
  intros Hi Hx Hph. destruct (i_txn _ Hi _ _ Hx) as [_ H2 H3 _ _ _]. split; [by apply H3|]. intros a Ha.
  destruct (H2 Hph a Ha) as (Hp&l&Hl&Hc). destruct (i_lock _ Hi _ _ Hl) as [_ _ _ _ _ _ _ Hv _ Hpd].
  destruct (Hpd _ Hp) as (_&_&_&y&p&_&_&Hprev&Hvp&Hne&_). rewrite Hc in Hv, Hne. unfold key_at. eauto 10.
Qed.

Lemma undoable_tail s a ws d : undoable s (a :: ws) → d = a ∨ key_at s d = key_at s a →
  ∀ cc', (∀ k, k ≠ key_at s a → cc' !! k = cc s !! k) →
  undoable (mkFw (heap s) (d :: deleted s) (brk s) cc' (txns s)) ws.
Proof.
  intros [Hnd Hws] Hd cc' Hcc. rewrite fmap_cons in Hnd. apply NoDup_cons in Hnd as [Hna Hnd]. split; [exact Hnd|]. intros b Hb.
  assert (key_at s b ≠ key_at s a) as Hne by (intros He; apply Hna; rewrite <-He; by apply list_elem_of_fmap_2).
  destruct (Hws b ltac:(by right)) as (Hv&l&p&Hl&Hc&Hp&Hvp&Hpb).
  assert (∀ e, valid s (key_at s b) e → valid (mkFw (heap s) (d :: deleted s) (brk s) cc' (txns s)) (key_at s b) e) as Hvd.
  { intros e [V1 V2 V3 V4]. split; try done. fwcbn. rewrite not_elem_of_cons. split; [|done]. intros ->.
    unfold key_at in *. destruct Hd; congruence. }
  split; [by apply Hvd|]. exists l, p. fwcbn. rewrite Hcc by done. eauto 10.
Qed.

Lemma commit_writes_spec ws : ∀ s, undoable s ws →
  ∃ ds, commit_writes ws s = Some (mkFw (heap s) (ds ++ deleted s) (brk s) (cc s) (txns s)) ∧
    ∀ d, d ∈ ds → ∃ a l, a ∈ ws ∧ cc s !! key_at s a = Some l ∧ previousContent l = Some d.
Proof.
  induction ws as [|a ws IH]; intros s Hu; [exists []; split; [by destruct s|by intros d ?%not_elem_of_nil]|].
  destruct (proj2 Hu a ltac:(by left)) as (Hv&l&p&Hl&Hc&Hp&Hvp&Hpa).
  destruct (IH _ (undoable_tail s a ws p Hu (or_intror (va_key _ _ _ Hvp)) (cc s) (λ _ _, eq_refl))) as (ds&Hds&Hin).
  exists (ds ++ [p]). split.
  - cbn [commit_writes]. rewrite (deref_valid _ _ _ Hv). cbn [mbind option_bind]. unfold commitWrites.
    fold (key_at s a). rewrite Hl. cbn [mbind option_bind]. rewrite Hp. cbn [mbind option_bind]. unfold delete_content.
    rewrite bool_decide_false by apply Hvp. cbn [negb]. rewrite assert_bind_true by done. cbn [mbind option_bind].
    rewrite Hds. by rewrite <-app_assoc.
  - intros d [Hd|Hd%list_elem_of_singleton]%elem_of_app.
    + destruct (Hin d Hd) as (b&m&Hb&Hm). exists b, m. split; [by right|done].
    + subst d. exists a, l. split; [by left|done].
Qed.

Definition with_content (c : nat) (p : option nat) (l : CC_Lock) : CC_Lock :=
  mkCC (latch l) c p (lockType l) (owner_cnt l) (waiter_cnt l) (owners l) (waiters l) (max_owner_ts l).
Definition undo (l : CC_Lock) : CC_Lock := with_content (default (content l) (previousContent l)) (previousContent l) l.

Lemma abort_writes_spec ws : ∀ s, undoable s ws →
  ∃ ds cc', abort_writes ws s = Some (mkFw (heap s) (ds ++ deleted s) (brk s) cc' (txns s)) ∧
    (∀ d, d ∈ ds → d ∈ ws) ∧
    ∀ k, cc' !! k = if decide (k ∈ key_at s <$> ws) then undo <$> cc s !! k else cc s !! k.
Proof.
  induction ws as [|a ws IH]; intros s Hu.
  { exists [], (cc s). split; [by destruct s|]. split; [done|]. intros k. by rewrite decide_False by apply not_elem_of_nil. }
  destruct (proj2 Hu a ltac:(by left)) as (Hv&l&p&Hl&Hc&Hp&Hvp&Hpa).
  destruct (IH _ (undoable_tail s a ws a Hu (or_introl eq_refl) (<[key_at s a := undo l]> (cc s)) (λ k Hk, lookup_insert_ne _ _ _ _ (not_eq_sym Hk))))
    as (ds&cc'&Hds&Hin&Hcc').
  exists (ds ++ [a]), cc'. split; [|split].
  - cbn [abort_writes]. rewrite (deref_valid _ _ _ Hv). cbn [mbind option_bind]. unfold abortWrites.
    fold (key_at s a). rewrite Hl. cbn [mbind option_bind]. rewrite Hc. unfold delete_content.
    rewrite bool_decide_false by apply Hv. cbn [negb]. rewrite assert_bind_true by done. cbn [mbind option_bind].
    rewrite Hp. cbn [mbind option_bind set_cc]. fwcbn. rewrite <-app_assoc. etransitivity; [|exact Hds]. unfold undo, with_content.
    by rewrite Hp.
  - intros d [Hd|Hd%list_elem_of_singleton]%elem_of_app; [right; by apply Hin|subst d; by left].
  - intros k. rewrite Hcc'. fwcbn. change (key_at (mkFw _ _ _ _ _)) with (key_at s).
    pose proof (proj1 Hu) as Hnd. rewrite fmap_cons in *. apply NoDup_cons in Hnd as [Hna _].
    destruct (decide (k = key_at s a)) as [->|Hne].
    + rewrite decide_False by done. rewrite lookup_insert_eq, decide_True by (by left). by rewrite Hl.
    + rewrite lookup_insert_ne by done. apply decide_ext. rewrite elem_of_cons. naive_solver.
Qed.

(** *** Leaving the running phase *)

Lemma pend_iff g t x k : inv g → txns (st g) !! t = Some x → ph g t = Running →
  pend g k = Some t ↔ k ∈ key_at (st g) <$> writeset x.
Proof.
  intros Hi Hx Hph. rewrite list_elem_of_fmap. split.
  - intros Hp. destruct (cc (st g) !! k) as [l|] eqn:Hl; [|by destruct (i_nolock _ Hi _ Hl); congruence].
    destruct (i_lock _ Hi _ _ Hl) as [_ _ _ _ _ _ _ Hv _ Hpd]. destruct (Hpd _ Hp) as (_&_&_&y&_&Hy&Hw&_).
    simplify_eq. exists (content l). split; [|done]. symmetry. apply Hv.
  - intros (a&->&Ha). by apply (ti_write _ _ _ (i_txn _ Hi _ _ Hx) Hph).
Qed.

(** What a commit or an abort does to the lock of a key: the lock stays as it is,
    the content of a key [t] has written is final and the others do not change. *)
Record settled (g : gst) (t : Z) (s' : fw) (D : gmap Z Z) (k : Z) (l : CC_Lock) (c : nat) (p : option nat) : Prop := {
  se_cc : cc s' !! k = Some (with_content c p l);
  se_mine : pend g k = Some t → valid s' k c ∧ c_value (heap s' c) = D !! k;
  se_other : pend g k ≠ Some t → c = content l ∧ p = previousContent l ∧ D !! k = db g !! k ∧
    ∀ a, valid (st g) k a → valid s' k a }.

Lemma inv_settled_lock g t x s' ph' D rs h k l c p : inv g → ph g t = Running →
  heap s' = heap (st g) → txns s' = <[t := x]> (txns (st g)) →
  cc (st g) !! k = Some l → settled g t s' D k l c p →
  (∀ u, u ≠ t → ph' u = ph g u) →
  lock_inv (mkGst s' ph' (own g) (settle t (pend g)) D rs h) k (with_content c p l).
Proof.
  intros Hi Hph Hheap Htx Hl [Hcc Hm Ho] Hph'. destruct (i_lock _ Hi _ _ Hl) as [Hla H1 Hsm H2 H3 H4 H5 H6 H7 H8].
  destruct (decide (pend g k = Some t)) as [Hp|Hp].
  - destruct (Hm Hp) as [Hv Hval]. split; fwcbn; cbn [with_content]; fwcbn; try done. unfold settle. by rewrite decide_True.
  - destruct (Ho Hp) as (->&->&HD&Hv). split; fwcbn; cbn [with_content]; fwcbn; try done.
    + by apply Hv.
    + unfold settle. rewrite decide_False, HD, Hheap by done. apply H7.
    + unfold settle. rewrite decide_False by done. intros u Hu. assert (u ≠ t) by congruence.
      destruct (H8 u Hu) as (?&?&?&y&q&Hy&Hw&?&Hq&?&Hcv). rewrite Hph', Htx, HD, Hheap by done. do 3 (split; [done|]).
      exists y, q. rewrite lookup_insert_ne by done. do 3 (split; [done|]). split; [by apply Hv|done].
Qed.

Lemma inv_settled_txn g t s' ph' D rs h u y : inv g → u ≠ t → txns (st g) !! u = Some y →
  heap s' = heap (st g) →
  (∀ k l, cc (st g) !! k = Some l → ∃ c p, settled g t s' D k l c p) →
  (∀ u, u ≠ t → ph' u = ph g u ∧ rs u = rds g u) →
  txn_inv (mkGst s' ph' (own g) (settle t (pend g)) D rs h) u y.
Proof.
  intros Hi Hut Hy Hheap Hse Hph'. destruct (Hph' u Hut) as [Hu Hr]. apply (txn_inv_frame g); fwcbn; try done.
  - intros. by rewrite Hheap.
  - intros k Hk. unfold settle. rewrite decide_False; [done|congruence].
  - intros k l Hrun Hl Hk. destruct (Hse _ _ Hl) as (c&p&[Hcc _ Ho]). eexists. split; [exact Hcc|].
    assert (pend g k ≠ Some t) as Hp.
    { intros Hp. destruct Hk as [Hk|Hk]; [congruence|]. destruct (li_pend _ _ _ (i_lock _ Hi _ _ Hl) _ Hp) as (_&Hown&_).
      rewrite <-(held_running g u y), held_owner, Hown in Hk by done. by apply list_elem_of_singleton in Hk. }
    destruct (Ho Hp) as (->&_&HD&_). done.
Qed.

Lemma inv_settle g t x x' com s' D h : inv g → ph g t = Running → txns (st g) !! t = Some x →
  heap s' = heap (st g) → brk s' = brk (st g) → txns s' = <[t := x']> (txns (st g)) →
  locksDetained x' = locksDetained x → lockReady x' = lockReady x → rsp_mutex x' = rsp_mutex x →
  (∀ a, a ∈ deleted s' → (a < brk (st g))%nat) →
  (∀ k, cc (st g) !! k = None → cc s' !! k = None) →
  (∀ k l, cc (st g) !! k = Some l → ∃ c p, settled g t s' D k l c p) →
  replay h = Some D →
  inv (mkGst s' (<[t := Releasing (locksDetained x) com]> (ph g)) (own g) (settle t (pend g)) D (rds g) h).
Proof.
  intros Hi Hph Hx Hheap Hbrk Htx Hld Hlr Hrm Hdel Hno Hse Hh. split; fwcbn; try done.
  - intros k l' Hl'. destruct (cc (st g) !! k) as [l|] eqn:Hl; [|by rewrite Hno in Hl'].
    destruct (Hse _ _ Hl) as (c&p&Hs). rewrite (se_cc _ _ _ _ _ _ _ _ Hs) in Hl'. injection Hl' as <-.
    eapply inv_settled_lock; eauto. intros u Hu. by rewrite fn_lookup_insert_ne.
  - intros k Hk. destruct (cc (st g) !! k) as [l|] eqn:Hl.
    + destruct (Hse _ _ Hl) as (c&p&Hs). by rewrite (se_cc _ _ _ _ _ _ _ _ Hs) in Hk.
    + destruct (i_nolock _ Hi _ Hl) as [H1 H2]. split; [done|]. unfold settle. by rewrite H2.
  - intros u k. rewrite (i_count _ Hi u k). unfold held. fwcbn. rewrite Htx. destruct (decide (u = t)) as [->|Hne].
    + by rewrite lookup_insert_eq, fn_lookup_insert, Hx, Hph.
    + by rewrite lookup_insert_ne, fn_lookup_insert_ne.
  - intros u y. rewrite Htx. intros [[<- <-]|[Hne Hy]]%lookup_insert_Some.
    + destruct (i_txn _ Hi _ _ Hx) as [H1 _ _ _ _]. split; fwcbn; rewrite ?fn_lookup_insert; try done. by rewrite Hlr, Hrm.
    + eapply inv_settled_txn; eauto. intros v Hv. by rewrite fn_lookup_insert_ne.
  - rewrite Hbrk. done.
Qed.

Lemma put_all_other ws : ∀ m k, k ∉ ws.*1 → put_all ws m !! k = m !! k.
Proof.
  unfold put_all. induction ws as [|[k v] ws IH]; intros m k' Hk; [done|]. cbn [foldl]. apply not_elem_of_cons in Hk.
  rewrite IH by apply Hk. apply lookup_insert_ne. intros He. by destruct Hk as [Hk _].
Qed.

Lemma put_all_mine ws : ∀ m k v, NoDup ws.*1 → (k, v) ∈ ws → put_all ws m !! k = Some v.
Proof.
  induction ws as [|[k v] ws IH]; intros m k' v' Hnd Hin; [by apply not_elem_of_nil in Hin|].
  apply NoDup_cons in Hnd as [Hk Hnd]. unfold put_all. cbn [foldl].
  apply elem_of_cons in Hin as [[= -> ->]|Hin]; [|by apply IH].
  etransitivity; [by apply (put_all_other ws)|]. apply lookup_insert_eq.
Qed.

Lemma writes_of_keys s x : (writes_of s x).*1 = key_at s <$> writeset x.
Proof. unfold writes_of. rewrite <-list_fmap_compose. done. Qed.

Lemma stamp_spec g t clock x : txns (st g) !! t = Some x →
  ∃ x', stamp t clock x (st g) = mkFw (heap (st g)) (deleted (st g)) (brk (st g)) (cc (st g)) (<[t := x']> (txns (st g))) ∧
    locksDetained x' = locksDetained x ∧ lockReady x' = lockReady x ∧ rsp_mutex x' = rsp_mutex x ∧
    writeset x' = writeset x ∧ readset x' = readset x.
Proof.
  intros Hx. unfold stamp. destruct (local node x); [by eexists|]. exists x. rewrite insert_id by done. by destruct (st g).
Qed.

Lemma commit_event g t x : inv g → txns (st g) !! t = Some x → ph g t = Running →
  replay (hist g ++ [ECommit t (rds g t) (writes_of (st g) x)]) = Some (put_all (writes_of (st g) x) (db g)).
Proof.
  intros Hi Hx Hph. eapply replay_snoc; [apply (i_hist _ Hi)|]. cbn [apply_event]. rewrite decide_True; [done|].
  apply Forall_forall. intros [k v] Hr. by apply (ti_read _ _ _ (i_txn _ Hi _ _ Hx) Hph).
Qed.

(** The deleted contents of a commit are those the written keys had before. *)
Lemma commit_settled g t x ds x' k l : inv g → txns (st g) !! t = Some x → ph g t = Running →
  (∀ d, d ∈ ds → ∃ a l, a ∈ writeset x ∧ cc (st g) !! key_at (st g) a = Some l ∧ previousContent l = Some d) →
  cc (st g) !! k = Some l →
  settled g t (mkFw (heap (st g)) (ds ++ deleted (st g)) (brk (st g)) (cc (st g)) (<[t := x']> (txns (st g))))
    (put_all (writes_of (st g) x) (db g)) k l (content l) (previousContent l).
Proof.
  intros Hi Hx Hph Hds Hl. pose proof (undoable_running g t x Hi Hx Hph) as [Hnd Hu].
  assert (∀ d, d ∈ ds → ∃ a l, a ∈ writeset x ∧ cc (st g) !! key_at (st g) a = Some l ∧ content l = a ∧ d ≠ a ∧
    valid (st g) (key_at (st g) a) d) as Hd.
  { intros d (a&m&Ha&Hm&Hp)%Hds. destruct (Hu a Ha) as (_&m'&q&Hm'&Hc&Hq&Hvq&Hqa). simplify_eq. eauto 10. }
  split; fwcbn; [by destruct l| |].
  - intros Hp. pose proof (proj1 (pend_iff g t x k Hi Hx Hph) Hp) as (a&->&Ha)%list_elem_of_fmap.
    destruct (Hu a Ha) as (Hv&m&q&Hm&Hc&_). simplify_eq. split.
    + destruct Hv as [V1 V2 V3 V4]. split; fwcbn; try done. intros [Hin|Hin]%elem_of_app; [|done].
      destruct (Hd _ Hin) as (b&m&Hb&Hm'&Hmb&Hne&Hvb). pose proof (va_key _ _ _ Hvb) as Hk. unfold key_at in *. rewrite Hk in *. congruence.
    + destruct (va_val _ _ _ Hv) as [v Hvv]. rewrite Hvv. symmetry. apply put_all_mine; [by rewrite writes_of_keys|].
      unfold writes_of. apply list_elem_of_fmap. eexists. split; [|exact Ha]. by rewrite Hvv.
  - intros Hp. do 2 (split; [done|]). split.
    + apply put_all_other. rewrite writes_of_keys. by rewrite <-(pend_iff g t x k).
    + intros a [V1 V2 V3 V4]. split; fwcbn; try done. intros [Hin|Hin]%elem_of_app; [|done].
      destruct (Hd _ Hin) as (b&m&Hb&Hm'&Hmb&Hne&Hvb). apply Hp, (pend_iff g t x k); [done..|].
      apply list_elem_of_fmap. exists b. split; [|done]. rewrite <-V3. apply Hvb.
Qed.

Lemma commit_writes_runs g t clock x : inv g → ph g t = Running → txns (st g) !! t = Some x →
  ∃ ds x', commit_writes (writeset x) (stamp t clock x (st g)) =
      Some (mkFw (heap (st g)) (ds ++ deleted (st g)) (brk (st g)) (cc (st g)) (<[t := x']> (txns (st g)))) ∧
    stamp t clock x (st g) = mkFw (heap (st g)) (deleted (st g)) (brk (st g)) (cc (st g)) (<[t := x']> (txns (st g))) ∧
    (locksDetained x' = locksDetained x ∧ lockReady x' = lockReady x ∧ rsp_mutex x' = rsp_mutex x ∧
     writeset x' = writeset x ∧ readset x' = readset x) ∧
    ∀ d, d ∈ ds → ∃ a l, a ∈ writeset x ∧ cc (st g) !! key_at (st g) a = Some l ∧ previousContent l = Some d.
Proof.
  intros Hi Hph Hx. destruct (stamp_spec g t clock x Hx) as (x'&Hst&Hx'). rewrite Hst.
  destruct (commit_writes_spec (writeset x) (mkFw (heap (st g)) (deleted (st g)) (brk (st g)) (cc (st g)) (<[t := x']> (txns (st g)))))
    as (ds&Hds&Hin); [|by exists ds, x'].
  destruct (undoable_running g t x Hi Hx Hph) as [Hnd Hu]. split; [exact Hnd|].
  intros a Ha. destruct (Hu a Ha) as ([]&l&q&?&?&?&[]&?). split; [done|]. by exists l, q.
Qed.

Lemma fw_inv_commit g t clock x s' : inv g → ph g t = Running → txns (st g) !! t = Some x →
  commit_writes (writeset x) (stamp t clock x (st g)) = Some s' →
  inv (mkGst s' (<[t := Releasing (locksDetained x) true]> (ph g)) (own g) (settle t (pend g))
             (put_all (writes_of (st g) x) (db g)) (rds g) (hist g ++ [ECommit t (rds g t) (writes_of (st g) x)])).
Proof.
  intros Hi Hph Hx Hs. destruct (commit_writes_runs g t clock x Hi Hph Hx) as (ds&x'&Hds&_&(Hl1&Hl2&Hl3&_)&Hin).
  rewrite Hs in Hds. injection Hds as ->.
  eapply (inv_settle g t x x'); fwcbn; try done.
  - intros a [Ha|Ha]%elem_of_app; [|by apply (i_del _ Hi)]. destruct (Hin a Ha) as (b&l&Hb&Hl&Hp).
    destruct (proj2 (undoable_running g t x Hi Hx Hph) b Hb) as (_&m&q&Hm&_&Hq&Hv&_). simplify_eq. apply Hv.
  - intros k l Hl. eexists _, _. eapply commit_settled; eauto.
  - by apply commit_event.
Qed.

Lemma abort_settled g t x ds cc' k l : inv g → txns (st g) !! t = Some x → ph g t = Running →
  (∀ d, d ∈ ds → d ∈ writeset x) →
  (∀ k, cc' !! k = if decide (k ∈ key_at (st g) <$> writeset x) then undo <$> cc (st g) !! k else cc (st g) !! k) →
  cc (st g) !! k = Some l →
  ∃ c p, settled g t (mkFw (heap (st g)) (ds ++ deleted (st g)) (brk (st g)) cc' (txns (st g))) (db g) k l c p.
Proof.
  intros Hi Hx Hph Hds Hcc Hl. destruct (i_lock _ Hi _ _ Hl) as [_ _ _ _ _ _ _ Hv _ Hpd]. specialize (Hcc k). rewrite Hl in Hcc.
  pose proof (pend_iff g t x k Hi Hx Hph) as Hpk.
  destruct (decide (pend g k = Some t)) as [Hp|Hp].
  - rewrite decide_True in Hcc by (by apply Hpk). destruct (Hpd _ Hp) as (_&_&_&y&q&Hy&Hw&Hq&Hvq&Hne&Hqv). simplify_eq.
    exists q, (previousContent l). split; fwcbn; [rewrite Hcc; cbn [fmap option_fmap option_map]; unfold undo; by rewrite Hq| |done]. intros _. split; [|done].
    destruct Hvq as [V1 V2 V3 V4]. split; fwcbn; try done. intros [Hin%Hds|Hin]%elem_of_app; [|done].
    destruct (ti_write _ _ _ (i_txn _ Hi _ _ Hx) Hph _ Hin) as (_&m&Hm&Hmc). rewrite V3 in Hm. congruence.
  - rewrite decide_False in Hcc by (by rewrite <-Hpk). exists (content l), (previousContent l).
    split; fwcbn; [rewrite Hcc; by destruct l|done|]. intros _. do 3 (split; [done|]).
    intros a [V1 V2 V3 V4]. split; fwcbn; try done. intros [Hin%Hds|Hin]%elem_of_app; [|done].
    apply Hp, Hpk, list_elem_of_fmap. by exists a.
Qed.

Lemma fw_inv_abort g t x s' : inv g → ph g t = Running → txns (st g) !! t = Some x → abort_writes (writeset x) (st g) = Some s' →
  inv (mkGst s' (<[t := Releasing (locksDetained x) false]> (ph g)) (own g) (settle t (pend g)) (db g) (rds g) (hist g)).
Proof.
  intros Hi Hph Hx Hs. pose proof (undoable_running g t x Hi Hx Hph) as Hu.
  destruct (abort_writes_spec (writeset x) (st g) Hu) as (ds&cc'&Hds&Hin&Hcc). rewrite Hs in Hds. injection Hds as ->.
  eapply (inv_settle g t x x); fwcbn; try done.
  - by rewrite insert_id.
  - intros a [Ha%Hin|Ha]%elem_of_app; [|by apply (i_del _ Hi)]. destruct (proj2 Hu a Ha) as ([]&_). done.
  - intros k Hk. rewrite Hcc, Hk. by case_decide.
  - intros k l Hl. eapply abort_settled; eauto.
  - apply (i_hist _ Hi).
Qed.

(** *** Blocking *)

Lemma blocked_spec s t op k s' : getControl_blocked alg t op k s = Some s' →
  ∃ l w c, cc s !! k = Some l ∧ alg ≠ NO_WAIT ∧
    s' = set_cc k (mkCC (Some t) (content l) (previousContent l) (lockType l) (owner_cnt l) c (owners l) w (max_owner_ts l)) s.
Proof.
  unfold getControl_blocked. destruct (cc s !! k) as [l|] eqn:Hl; [|done]. cbn [mbind option_bind].
  intros [_ H]%assert_bind_Some. apply assert_bind_Some in H as [[_ Hcw]%andb_true_iff H].
  destruct (txns s !! t) as [x|]; [|done]. cbn [mbind option_bind] in H. apply assert_bind_Some in H as [_ [= <-]].
  assert (alg ≠ NO_WAIT) as Ha by (intros Ha; unfold canwait in Hcw; by rewrite Ha in Hcw).
  case_bool_decide; eexists l, _, _; split_and!; done.
Qed.

Lemma busy_blocked (f : Z → phase) t u : busy (f u) → busy ((<[t := Blocked]> f) u).
Proof. intros Hb. destruct (decide (t = u)) as [->|Hne]; [rewrite fn_lookup_insert; by right|by rewrite fn_lookup_insert_ne]. Qed.

Lemma inv_blocked g t op k s' : inv g → ph g t = Running → getControl_blocked alg t op k (st g) = Some s' →
  inv (mkGst s' (<[t := Blocked]> (ph g)) (own g) (pend g) (db g) (rds g) (hist g)).
Proof.
  intros Hi Hph (l&w&c&Hl&Ha&->)%blocked_spec. split; fwcbn.
  - intros k' m [[<- <-]|[Hne Hm]]%lookup_insert_Some.
    + destruct (i_lock _ Hi _ _ Hl) as [Hla H1 Hsm H2 H3 H4 H5 H6 H7 H8]. split; fwcbn; try done; [by destruct H6|].
      intros u Hu. destruct (H8 u Hu) as (?&?&Hb&y&p&?&?&?&[]&?&?). do 2 (split; [done|]). split; [by apply busy_blocked|].
      by exists y, p.
    + apply (lock_inv_frame g); fwcbn; try done; [by apply (i_lock _ Hi)|by intros a []|].
      intros u y _ Hy. split; [apply busy_blocked|]. by exists y.
  - intros k' [Hk _]%lookup_insert_None. by apply (i_nolock _ Hi).
  - intros u k'. rewrite (i_count _ Hi u k'). unfold held. fwcbn. destruct (decide (t = u)) as [->|Hne].
    + by rewrite fn_lookup_insert, Hph.
    + by rewrite fn_lookup_insert_ne.
  - intros u y Hy. destruct (decide (t = u)) as [->|Hne].
    + destruct (i_txn _ Hi _ _ Hy) as [H1 _ _ _ _ _]. split; fwcbn; rewrite ?fn_lookup_insert; done.
    + apply (txn_inv_frame g); fwcbn; rewrite ?fn_lookup_insert_ne by done; try done. intros k' m _ Hm _.
      destruct (decide (k = k')) as [<-|Hk]; [eexists; rewrite lookup_insert_eq; by simplify_eq|].
      exists m. by rewrite lookup_insert_ne.
  - apply (i_del _ Hi).
  - apply (i_hist _ Hi).
Qed.

Lemma inv_init_gst : inv init_gst.
Proof.
  split; simpl; try done.
  intros a Ha. by apply not_elem_of_nil in Ha.
Qed.

Lemma fw_inv_step g g' : inv g → step g g' → inv g'.
Proof.
  intros Hi Hs. destruct Hs; [by apply fw_inv_begin|by apply inv_init_content|by eapply fw_inv_read| |by eapply fw_inv_write| |
    by eapply inv_blocked| |by eapply fw_inv_commit|by eapply fw_inv_abort|by eapply fw_inv_release|by apply inv_released|by eapply fw_inv_end].
  - apply fw_read_cases in H0; [|done]. subst s'. by destruct g.
  - destruct (cc (st g) !! k) as [l|] eqn:Hl; [|done]. eapply fw_write_cases in H1; [|done..]. subst s'. by apply inv_alloc.
  - by eapply (inv_blocked (alloc_gst (mkContent k (Some row)) g)); [apply inv_alloc|..].
Qed.

Lemma framework_inv g : reachable g → inv g.
Proof.
  intros Hr. refine (rtc_ind_r (λ g, inv g) init_gst inv_init_gst _ g Hr). intros y z _ Hs Hy. by apply (fw_inv_step y z).
Qed.

(** *** Whole calls *)

(** The write of a key that is not there inserts it first. *)
Lemma fw_write_new t k row s : cc s !! k = None →
  fw_write alg SERIALIZABLE t k row s = fw_write alg SERIALIZABLE t k row (initContent k row s).
Proof.
  intros Hk. unfold fw_write. rewrite Hk. unfold initContent. cbn [new_content]. fwcbn. rewrite Hk. fwcbn.
  by rewrite lookup_insert_eq.
Qed.

Definition unlatched (g : gst) (ks : list Z) : Prop := ∀ k l, k ∈ ks → cc (st g) !! k = Some l → latch l = None.

Lemma release_all_runs ks : ∀ g t com, inv g → unlatched g ks → ph g t = Releasing ks com → is_Some (txns (st g) !! t) →
  ∃ g', rtc step g g' ∧ release_all alg t ks (st g) = Some (st g') ∧ ph g' t = Releasing [] com ∧
    heap (st g') = heap (st g) ∧ deleted (st g') = deleted (st g) ∧ txns (st g') = txns (st g) ∧
    db g' = db g ∧ rds g' = rds g ∧ hist g' = hist g.
Proof.
  induction ks as [|k ks IH]; intros g t com Hi Hun Hph Hx; [exists g; by split; [apply rtc_refl|]|].
  assert (k ∈ held g t) as Hk by (unfold held; destruct Hx as [x ->]; rewrite Hph; by left).
  destruct (held_lock _ _ _ Hi Hk) as [l Hl]. assert (t ∈ own g k) as Ht by (by apply held_owner).
  assert (latch l = None) as Hlt by (by apply (Hun k l); [left|]).
  destruct (release_spec g t k l Hi Hl Hlt Ht) as (os&Hr&_). cbn [release_all]. rewrite bool_decide_true by (by rewrite Hl).
  rewrite Hr. cbn [mbind option_bind]. pose proof (step_release g t k ks com _ Hph Hx Hr) as Hs.
  destruct (IH _ t com (fw_inv_step _ _ Hi Hs)) as (g'&Hg'&Hra&Hph'&H1&H2&H3&H4&H5&H6); fwcbn; [|by rewrite fn_lookup_insert|done|].
  { intros k' m Hk'. fwcbn. intros [[<- <-]|[Hne Hm]]%lookup_insert_Some; [done|]. by apply (Hun k' m); [right|]. }
  exists g'. split; [by eapply rtc_l|]. done.
Qed.

(** [releaseLocks] and [setFinished]. *)
Lemma finish_runs g t com x : inv g → unlatched g (locksDetained x) → ph g t = Releasing (locksDetained x) com → txns (st g) !! t = Some x →
  ∃ g', rtc step g g' ∧ (s ← releaseLocks alg t (st g); upd_txn t (setFinished true) s) = Some (st g') ∧
    ph g' t = Finished com ∧ heap (st g') = heap (st g) ∧ deleted (st g') = deleted (st g) ∧
    txns (st g') !! t = Some (setFinished true (clearLocksDetained x)) ∧ db g' = db g ∧ hist g' = hist g.
Proof.
  intros Hi Hun Hph Hx. destruct (release_all_runs (locksDetained x) g t com Hi Hun Hph) as (g'&Hg'&Hra&Hph'&H1&H2&H3&H4&H5&H6); [by eexists|].
  assert (txns (st g') !! t = Some x) as Hx' by (by rewrite H3).
  eexists. split; [eapply rtc_r; [exact Hg'|]; by eapply step_released|]. fwcbn.
  rewrite fn_lookup_insert, lookup_insert_eq. split; [|done].
  unfold releaseLocks. rewrite Hx. cbn [mbind option_bind]. rewrite Hra. cbn [mbind option_bind]. rewrite Hx'.
  cbn [mbind option_bind]. unfold upd_txn. fwcbn. rewrite lookup_insert_eq. cbn [mbind option_bind]. unfold set_txn. fwcbn.
  by rewrite insert_insert_eq.
Qed.

Lemma deref_all_valid l s : (∀ a, a ∈ l → a ∉ deleted s) → deref_all l s = Some tt.
Proof.
  induction l as [|a l IH]; intros Hl; [done|]. cbn [deref_all]. unfold deref at 1.
  rewrite bool_decide_false by (apply Hl; by left). cbn [negb]. apply IH. intros b Hb. apply Hl. by right.
Qed.

(** The contents a transaction has read and written are there when it has committed its writes. *)
Lemma commit_keeps_sets g t x ds x' : inv g → ph g t = Running → txns (st g) !! t = Some x →
  (∀ d, d ∈ ds → ∃ a l, a ∈ writeset x ∧ cc (st g) !! key_at (st g) a = Some l ∧ previousContent l = Some d) →
  ∀ a, a ∈ readset x ++ writeset x →
  a ∉ deleted (mkFw (heap (st g)) (ds ++ deleted (st g)) (brk (st g)) (cc (st g)) (<[t := x']> (txns (st g)))).
Proof.
  intros Hi Hph Hx Hds a [Ha|Ha]%elem_of_app; destruct (i_txn _ Hi _ _ Hx) as [_ H2 _ H4 H5 _].
  - destruct (H5 Hph a Ha) as (k&v&l&Hkv&Hl&<-). destruct (H4 Hph k v Hkv) as (_&_&m&Hm&Hs). simplify_eq.
    destruct (commit_settled g t x ds x' k l Hi Hx Hph Hds Hl) as [_ _ Ho].
    eapply va_del, Ho, li_cont, (i_lock _ Hi _ _ Hl). intros Hp.
    destruct (li_pend _ _ _ (i_lock _ Hi _ _ Hl) _ Hp) as [He _]. congruence.
  - destruct (H2 Hph a Ha) as (Hp&l&Hl&Hc). destruct (commit_settled g t x ds x' _ l Hi Hx Hph Hds Hl) as [_ Hm _].
    rewrite <-Hc. eapply va_del, Hm, Hp.
Qed.

Lemma no_locks g t : inv g → (∃ com, ph g t = Finished com) → ∀ k, t ∉ own g k.
Proof.
  intros Hi [com Hph] k Hk. rewrite <-held_owner in Hk by done. unfold held in Hk. rewrite Hph in Hk.
  by destruct (txns (st g) !! t); apply not_elem_of_nil in Hk.
Qed.

Lemma commit_runs g t clock x : inv g → unlatched g (locksDetained x) → ph g t = Running → txns (st g) !! t = Some x →
  ∃ g', rtc step g g' ∧ commit alg node t clock (st g) = Some (st g') ∧ ph g' t = Finished true ∧
    db g' = put_all (writes_of (st g) x) (db g) ∧ hist g' = hist g ++ [ECommit t (rds g t) (writes_of (st g) x)].
Proof.
  intros Hi Hun Hph Hx. destruct (commit_writes_runs g t clock x Hi Hph Hx) as (ds&x'&Hds&Hst&(Hl1&_&_&Hw&Hr)&Hin).
  pose proof (step_commit g t clock x _ Hph Hx Hds) as Hs. pose proof (commit_keeps_sets g t x ds x' Hi Hph Hx Hin) as Hdel.
  destruct (finish_runs _ t true x' (fw_inv_step _ _ Hi Hs)) as (g'&Hg'&Hf&Hph'&_&Hd'&Hx''&Hdb&Hh); fwcbn.
  { by rewrite Hl1. }
  { by rewrite fn_lookup_insert, Hl1. }
  { apply lookup_insert_eq. }
  cbn [st] in Hf, Hd'. exists g'. split; [by eapply rtc_l|]. split; [|done].
  destruct (releaseLocks alg t _) as [s1|] eqn:Hrl in Hf; [|done]. cbn [mbind option_bind] in Hf.
  unfold commit. rewrite Hx. cbn [mbind option_bind]. unfold stamp in Hds, Hst. destruct (local node x).
  - assert (upd_txn t (setTimestampCommit clock) (st g) = Some (set_txn t (setTimestampCommit clock x) (st g))) as ->
      by (unfold upd_txn; by rewrite Hx).
    cbn [mbind option_bind]. unfold manager_commit. rewrite Hst. fwcbn. rewrite lookup_insert_eq.
    cbn [mbind option_bind]. rewrite Hw. rewrite Hst in Hds. rewrite Hds. cbn [mbind option_bind]. rewrite Hrl. cbn [mbind option_bind].
    rewrite Hf. cbn [mbind option_bind]. unfold replicateResult. rewrite Hx''. cbn [mbind option_bind].
    rewrite deref_all_valid; [done|]. intros a Ha. rewrite Hd'. apply Hdel. rewrite <-Hr, <-Hw. exact Ha.
  - unfold manager_commit. rewrite Hx. cbn [mbind option_bind]. rewrite Hds. cbn [mbind option_bind]. rewrite Hrl.
    cbn [mbind option_bind]. exact Hf.
Qed.

Lemma abort_runs g t x : inv g → unlatched g (locksDetained x) → ph g t = Running → txns (st g) !! t = Some x →
  ∃ g', rtc step g g' ∧ abort alg t (st g) = Some (st g') ∧ ph g' t = Finished false ∧ db g' = db g ∧ hist g' = hist g.
Proof.
  intros Hi Hun Hph Hx.
  destruct (abort_writes_spec (writeset x) (st g) (undoable_running g t x Hi Hx Hph)) as (ds&cc'&Hds&_&Hcc).
  pose proof (step_abort g t x _ Hph Hx Hds) as Hs.
  destruct (finish_runs _ t false x (fw_inv_step _ _ Hi Hs)) as (g'&Hg'&Hf&Hph'&_&_&_&Hdb&Hh); fwcbn.
  { intros k m Hk. fwcbn. rewrite Hcc. case_decide; [|by apply Hun].
    destruct (cc (st g) !! k) as [l|] eqn:Hl; [|done]. intros [= <-]. by apply (Hun k l). }
  { by rewrite fn_lookup_insert. }
  { done. }
  exists g'. split; [by eapply rtc_l|]. split; [|done].
  unfold abort, manager_abort. rewrite Hx. cbn [mbind option_bind]. rewrite Hds. exact Hf.
Qed.

(** *** Runs by computation *)

Inductive op :=
  | OBlockRead (t k : Z) | OBegin (t home clock : Z) | OInit (k row : Z) | ORead (t k : Z) | OWrite (t k row : Z) | OCommit (t clock : Z) | OAbort (t : Z)
  | ORelease (t : Z) | OReleased (t : Z) | OEnd (t : Z).

Definition run_op (o : op) (g : gst) : option gst :=
  match o with
  | OBlockRead t k =>
      ASSERT bool_decide (ph g t = Running);
      s ← getControl_blocked alg t RD k (st g);
      Some (mkGst s (<[t := Blocked]> (ph g)) (own g) (pend g) (db g) (rds g) (hist g))
  | OBegin t home clock =>
      ASSERT bool_decide (txns (st g) !! t = None);
      Some (mkGst (beginTransaction t home clock (st g)) (<[t := Running]> (ph g)) (own g) (pend g) (db g) (<[t := []]> (rds g)) (hist g))
  | OInit k row =>
      ASSERT bool_decide (cc (st g) !! k = None);
      Some (mkGst (initContent k row (st g)) (ph g) (own g) (pend g) (<[k := row]> (db g)) (rds g) (hist g ++ [EInit k row]))
  | ORead t k =>
      ASSERT bool_decide (ph g t = Running);
      ASSERT bool_decide (zlen (own g k) + 1 < u32_mod);
      '(r, s) ← fw_read alg SERIALIZABLE t k (st g);
      Some (match r with
            | Some a => mkGst s (ph g) (<[k := t :: own g k]> (own g)) (pend g) (db g)
                              (<[t := rds g t ++ [(k, default 0 (c_value (heap s a)))]]> (rds g)) (hist g)
            | None => mkGst s (ph g) (own g) (pend g) (db g) (rds g) (hist g)
            end)
  | OWrite t k row =>
      ASSERT bool_decide (ph g t = Running);
      ASSERT bool_decide (cc (st g) !! k ≠ None);
      '(r, s) ← fw_write alg SERIALIZABLE t k row (st g);
      Some (match r with
            | Some _ => mkGst s (ph g) (<[k := t :: own g k]> (own g)) (<[k := Some t]> (pend g)) (db g) (rds g) (hist g)
            | None => mkGst s (ph g) (own g) (pend g) (db g) (rds g) (hist g)
            end)
  | OCommit t clock =>
      ASSERT bool_decide (ph g t = Running);
      x ← txns (st g) !! t;
      s ← commit_writes (writeset x) (stamp t clock x (st g));
      Some (mkGst s (<[t := Releasing (locksDetained x) true]> (ph g)) (own g) (settle t (pend g))
                  (put_all (writes_of (st g) x) (db g)) (rds g) (hist g ++ [ECommit t (rds g t) (writes_of (st g) x)]))
  | OAbort t =>
      ASSERT bool_decide (ph g t = Running);
      x ← txns (st g) !! t;
      s ← abort_writes (writeset x) (st g);
      Some (mkGst s (<[t := Releasing (locksDetained x) false]> (ph g)) (own g) (settle t (pend g)) (db g) (rds g) (hist g))
  | ORelease t =>
      match ph g t, txns (st g) !! t with
      | Releasing (k :: ks) com, Some _ =>
          s ← releaseControl alg t k (st g);
          Some (mkGst s (<[t := Releasing ks com]> (ph g)) (<[k := remove_one t (own g k)]> (own g)) (pend g) (db g) (rds g) (hist g))
      | _, _ => None
      end
  | OReleased t =>
      match ph g t, txns (st g) !! t with
      | Releasing [] com, Some x =>
          Some (mkGst (set_txn t (setFinished true (clearLocksDetained x)) (st g)) (<[t := Finished com]> (ph g)) (own g) (pend g)
                      (db g) (<[t := rds g t]> (rds g)) (hist g))
      | _, _ => None
      end
  | OEnd t =>
      match ph g t with
      | Finished com =>
          s ← endTransaction alg t (st g);
          Some (mkGst s (<[t := Running]> (ph g)) (own g) (pend g) (db g) (<[t := []]> (rds g)) (hist g))
      | _ => None
      end
  end.
Fixpoint run_ops (os : list op) (g : gst) : option gst :=
  match os with [] => Some g | o :: os => g ← run_op o g; run_ops os g end.

Lemma run_op_step o g g' : run_op o g = Some g' → step g g'.
Proof.
  destruct o; cbn [run_op]; intros H.
  - apply assert_bind_Some in H as [?%bool_decide_eq_true H].
    destruct (getControl_blocked alg t RD k (st g)) as [s|] eqn:Hb; [|done]. injection H as <-. by eapply step_read_blocked.
  - apply assert_bind_Some in H as [?%bool_decide_eq_true [= <-]]. by constructor.
  - apply assert_bind_Some in H as [?%bool_decide_eq_true [= <-]]. by constructor.
  - apply assert_bind_Some in H as [?%bool_decide_eq_true H]. apply assert_bind_Some in H as [?%bool_decide_eq_true H].
    destruct (fw_read alg SERIALIZABLE t k (st g)) as [[[a|] s]|] eqn:Hr; [..|done]; injection H as <-.
    + by apply step_read.
    + by eapply step_read_refused.
  - apply assert_bind_Some in H as [?%bool_decide_eq_true H]. apply assert_bind_Some in H as [?%bool_decide_eq_true H].
    destruct (fw_write alg SERIALIZABLE t k row (st g)) as [[[a|] s]|] eqn:Hr; [..|done]; injection H as <-.
    + by eapply step_write.
    + by eapply step_write_refused.
  - apply assert_bind_Some in H as [?%bool_decide_eq_true H]. destruct (txns (st g) !! t) as [x|] eqn:Hx; [|done]. cbn [mbind option_bind] in H.
    destruct (commit_writes (writeset x) _) as [s|] eqn:Hs; [|done]. injection H as <-. by eapply step_commit.
  - apply assert_bind_Some in H as [?%bool_decide_eq_true H]. destruct (txns (st g) !! t) as [x|] eqn:Hx; [|done]. cbn [mbind option_bind] in H.
    destruct (abort_writes (writeset x) _) as [s|] eqn:Hs; [|done]. injection H as <-. by eapply step_abort.
  - destruct (ph g t) as [| |[|k ks] com|] eqn:Hph; try done. destruct (txns (st g) !! t) as [x|] eqn:Hx; [|done].
    destruct (releaseControl alg t k (st g)) as [s|] eqn:Hs; [|done]. injection H as <-. by eapply step_release.
  - destruct (ph g t) as [| |[|k ks] com|] eqn:Hph; try done. destruct (txns (st g) !! t) as [x|] eqn:Hx; [|done].
    injection H as <-. by apply step_released.
  - destruct (ph g t) as [| | |com] eqn:Hph; try done. destruct (endTransaction alg t (st g)) as [s|] eqn:Hs; [|done].
    injection H as <-. by eapply step_end.
Qed.

Lemma run_ops_reachable os : ∀ g g', reachable g → run_ops os g = Some g' → reachable g'.
Proof.
  induction os as [|o os IH]; intros g g' Hg H; [by injection H as <-|]. cbn [run_ops] in H.
  destruct (run_op o g) as [g1|] eqn:Ho; [|done]. apply (IH g1); [|done]. eapply rtc_r; [done|]. by eapply run_op_step.
Qed.

Definition after (os : list op) : gst := default init_gst (run_ops os init_gst).

Lemma after_reachable os : reachable (after os).
Proof.
  unfold after. destruct (run_ops os init_gst) as [g|] eqn:H; [|apply rtc_refl]. eapply run_ops_reachable; [|done]. apply rtc_refl.
Qed.

End runs.

(** ** Claims *)

(** C10: under two-phase locking the framework is strictly serializable. In every reachable
    state the committed transactions, replayed one after the other in the order of their
    commits, read exactly the values their granted reads returned and leave the committed values; a key
    without an uncommitted write holds its committed value, in a content that has not been
    deleted, and the lock of a key with an uncommitted write belongs to its writer alone. *)
Theorem framework_serializable alg node g : reachable alg node g →
  replay (hist g) = Some (db g) ∧
  (∀ k l, cc (st g) !! k = Some l → (content l ∉ deleted (st g)) ∧ owner_cnt l = zlen (own g k) ∧
    match pend g k with
    | None => c_value (heap (st g) (content l)) = db g !! k
    | Some t => lockType l = LOCK_EX ∧ own g k = [t] ∧
        ∃ p, previousContent l = Some p ∧ (p ∉ deleted (st g)) ∧ c_value (heap (st g) p) = db g !! k
    end).
Proof.
  intros Hi%framework_inv. split; [apply (i_hist _ _ Hi)|]. intros k l Hl.
  destruct (i_lock _ _ Hi _ _ Hl) as [_ _ _ Hcnt _ _ _ Hv Hdb Hp]. split; [apply Hv|]. split; [done|].
  destruct (pend g k) as [t|]; [|by apply Hdb].
  destruct (Hp t eq_refl) as (He&Ho&_&x&p&_&_&Hprev&Hvp&_&Hdbp). split; [done|]. split; [done|]. exists p.
  split; [done|]. split; [apply Hvp|done].
Qed.

(** Two writers and a reader; the first has committed, the second writes. *)
Definition run_two : list op :=
  [OInit 7 100; OInit 8 200; OBegin 1 0 10; OBegin 2 0 11; OWrite 1 7 101; ORead 1 8; ORead 2 7; OCommit 1 12; ORelease 1; ORelease 1;
   OReleased 1; ORead 2 7; OWrite 2 8 201].

Lemma framework_serializable_witness :
  hist (after NO_WAIT 0 run_two) = [EInit 7 100; EInit 8 200; ECommit 1 [(8, 200)] [(7, 101)]] ∧
  rds (after NO_WAIT 0 run_two) 2 = [(7, 101)] ∧
  pend (after NO_WAIT 0 run_two) 8 = Some 2 ∧
  replay (hist (after NO_WAIT 0 run_two)) = Some (db (after NO_WAIT 0 run_two)).
Proof.
  split; [vm_compute; reflexivity|]. split; [vm_compute; reflexivity|]. split; [vm_compute; reflexivity|].
  exact (proj1 (framework_serializable NO_WAIT 0 _ (after_reachable NO_WAIT 0 run_two))).
Defined.



(** Under WAIT_DIE an older transaction that reads a key of a younger writer is blocked with
    the latch, and the writer can neither commit nor abort: both wait for the latch. *)
Definition run_blocked : list op := [OInit 7 100; OBegin 1 0 10; OBegin 2 0 11; OWrite 2 7 101; OBlockRead 1 7].

Lemma framework_blocked :
  ph (after WAIT_DIE 0 run_blocked) 2 = Running ∧ txns (st (after WAIT_DIE 0 run_blocked)) !! 2 ≠ None ∧
  commit WAIT_DIE 0 2 20 (st (after WAIT_DIE 0 run_blocked)) = None ∧
  abort WAIT_DIE 2 (st (after WAIT_DIE 0 run_blocked)) = None.
Proof. split; [by vm_compute|]. split; [by vm_compute|]. split; by vm_compute. Qed.

(** Without waiting, the access to a key that exists returns at once. A read is refused
    when a transaction has written the key and not ended, and otherwise returns a content
    with the committed value; a write is granted when no transaction owns the lock, with a
    content of its own, and refused otherwise, also when the owner is the transaction
    itself. *)
Theorem framework_access node g t x k l row : reachable NO_WAIT node g → txns (st g) !! t = Some x →
  cc (st g) !! k = Some l →
  (if decide (lockType l = LOCK_EX) then fw_read NO_WAIT SERIALIZABLE t k (st g) = Some (None, st g)
   else ∃ s', fw_read NO_WAIT SERIALIZABLE t k (st g) = Some (Some (content l), s') ∧
     c_value (heap s' (content l)) = db g !! k) ∧
  (∃ s', fw_write NO_WAIT SERIALIZABLE t k row (st g) =
     Some (if decide (own g k = []) then Some (brk (st g)) else None, s')).
Proof.
  intros Hi%framework_inv Hx Hl. pose proof (i_lock _ _ Hi _ _ Hl) as Hlk.
  pose proof (li_latch _ _ _ _ Hlk eq_refl) as Hlt. split.
  - case_decide as He.
    + unfold fw_read. rewrite Hl. unfold manager_read, cc_read.
      pose proof (getControl_spec NO_WAIT g t RD k l Hi Hl Hlt (or_introl eq_refl)) as Hg. rewrite He in Hg.
      by destruct Hg as [Hg|[? _]]; [rewrite Hg|].
    + assert (conflict_lock (lockType l) LOCK_SH = false) as Hc by (by destruct (lockType l)).
      destruct (conflict_sh NO_WAIT l g k Hlk Hc) as [_ Hp].
      eexists. split; [by apply fw_read_granted|]. by apply (li_db _ _ _ _ Hlk).
  - destruct (conflict_lock (lockType l) LOCK_EX) eqn:Hc.
    + rewrite decide_False by (rewrite <-(li_none _ _ _ _ Hlk); by intros He; rewrite He in Hc).
      by destruct (fw_write_refused NO_WAIT g t k row l Hi Hl Hlt Hc) as [Hw|[? _]]; [eexists|].
    + rewrite decide_True by (by apply (conflict_ex NO_WAIT l g k)). eexists. by eapply fw_write_granted.
Qed.

Lemma framework_access_witness :
  fw_read NO_WAIT SERIALIZABLE 1 8 (st (after NO_WAIT 0 run_two)) = Some (None, st (after NO_WAIT 0 run_two)).
Proof.
  assert (∃ x, txns (st (after NO_WAIT 0 run_two)) !! 1 = Some x) as [x Hx] by (vm_compute; eexists; reflexivity).
  assert (∃ l, cc (st (after NO_WAIT 0 run_two)) !! 8 = Some l ∧ lockType l = LOCK_EX) as (l&Hl&He)
    by (vm_compute; eexists; split; reflexivity).
  pose proof (proj1 (framework_access 0 (after NO_WAIT 0 run_two) 1 x 8 l 0 (after_reachable NO_WAIT 0 run_two) Hx Hl)) as H.
  by rewrite decide_True in H by exact He.
Defined.

(** The first transaction has released its locks and is still in [commit] when the second
    overwrites the key it has written, and commits. *)
Definition run_overwritten : list op :=
  [OInit 7 100; OBegin 1 0 10; OBegin 2 0 11; OWrite 1 7 101; OCommit 1 12; ORelease 1; OReleased 1; OWrite 2 7 102; OCommit 2 13].

(** The locks are released before [commit] replicates the result: there is a reachable
    state in which a transaction has committed and released its locks, and the message of
    [replicateResult], which it sends next, reads a content that another transaction's commit
    has deleted. *)
Theorem framework_replicates_deleted :
  ∃ g, reachable NO_WAIT 0 g ∧ ph g 1 = Finished true ∧ txns (st g) !! 1 ≠ None ∧ replicateResult 1 (st g) = None.
Proof.
  exists (after NO_WAIT 0 run_overwritten). split; [apply after_reachable|]. split; [vm_compute; reflexivity|].
  split; [by vm_compute|]. vm_compute. reflexivity.
Qed.

End Framework.
