(* ===== verification/TpccTxn.v ===== *)
(** * TpccTxn: running TPC-C transactions on several nodes

    Model of [TPCCTxnManager] (benchmarks/tpcc_txn.cpp) outside Calvin, with the keys of
    benchmarks/tpcc_helper.cpp: the state machine of the payment and new-order transactions
    with what it reads and writes, the messages that carry the payment of a customer or runs
    of items to other nodes, and the handlers of [WorkerThread] that drive the machines.
    Rows are columns of 64 bits, found through the indexes of their node; what the
    concurrency control answers to [get_row] is an input.  The reference is the transaction
    as a list of accesses with their effects, executed one after the other. *)

From S2P Require Import Prelude Double Message TwoPC.

Module TpccTxn.
Import Double.Double Message.Message.

Inductive TPCCRemTxnType :=
  | TPCC_PAYMENT_S | TPCC_PAYMENT0 | TPCC_PAYMENT1 | TPCC_PAYMENT2 | TPCC_PAYMENT3 | TPCC_PAYMENT4 | TPCC_PAYMENT5
  | TPCC_NEWORDER_S | TPCC_NEWORDER0 | TPCC_NEWORDER1 | TPCC_NEWORDER2 | TPCC_NEWORDER3 | TPCC_NEWORDER4 | TPCC_NEWORDER5
  | TPCC_NEWORDER6 | TPCC_NEWORDER7 | TPCC_NEWORDER8 | TPCC_NEWORDER9 | TPCC_FIN | TPCC_RDONE.
Inductive TPCCTable :=
  | TPCC_WAREHOUSE | TPCC_DISTRICT | TPCC_CUSTOMER | TPCC_HISTORY | TPCC_NEWORDER | TPCC_ORDER | TPCC_ORDERLINE | TPCC_ITEM | TPCC_STOCK.
Inductive INDEX := i_item | i_warehouse | i_district | i_customer_id | i_customer_last | i_stock.

(** The columns the transactions use. *)
Inductive column :=
  | W_TAX | W_YTD | D_YTD | D_NEXT_O_ID | C_DISCOUNT | C_BALANCE | C_YTD_PAYMENT | C_PAYMENT_CNT | I_PRICE
  | S_QUANTITY | S_YTD | S_ORDER_CNT | S_REMOTE_CNT.

#[export] Instance TPCCRemTxnType_eq_dec : EqDecision TPCCRemTxnType.
Proof. solve_decision. Defined.
#[export] Instance TPCCTable_eq_dec : EqDecision TPCCTable.
Proof. solve_decision. Defined.
#[export] Instance column_eq_dec : EqDecision column.
Proof. solve_decision. Defined.

Definition table_of (col : column) : TPCCTable :=
  match col with
  | W_TAX | W_YTD => TPCC_WAREHOUSE
  | D_YTD | D_NEXT_O_ID => TPCC_DISTRICT
  | C_DISCOUNT | C_BALANCE | C_YTD_PAYMENT | C_PAYMENT_CNT => TPCC_CUSTOMER
  | I_PRICE => TPCC_ITEM
  | S_QUANTITY | S_YTD | S_ORDER_CNT | S_REMOTE_CNT => TPCC_STOCK
  end.

(** ** Rows and indexes of a node *)

Record row_t := mkRow { r_table : TPCCTable; r_col : column → Z }.

(** [idx i key] are the rows with a key; [rows] are the rows by address. *)
Record node := mkNode { idx : INDEX → Z → list nat; rows : nat → row_t }.

Definition get_value (n : node) (r : nat) (col : column) : option Z :=
  ASSERT bool_decide (table_of col = r_table (rows n r));
  Some (r_col (rows n r) col).
Definition set_value (r : nat) (col : column) (v : Z) (n : node) : option node :=
  ASSERT bool_decide (table_of col = r_table (rows n r));
  Some (mkNode (idx n) (<[r := mkRow (r_table (rows n r)) (<[col := v]> (r_col (rows n r)))]> (rows n))).

Definition index_read (n : node) (i : INDEX) (key : Z) : option nat := head (idx n i key).

(** The loop that looks for the customer in the middle: [it] and [mid] are the rests of the
    chain at the two pointers. *)
Fixpoint mid_loop (it mid : list nat) (cnt : nat) : list nat :=
  match it with
  | [] => mid
  | _ :: it => let cnt := S cnt in mid_loop it (if (cnt mod 2 =? 0)%nat then tail mid else mid) cnt
  end.
Definition mid_row (items : list nat) : option nat := head (mid_loop items items 0).

(** Rows that were inserted, with the columns that are set. *)
Inductive insert_t :=
  | History (h_c_id h_c_d_id h_c_w_id h_d_id h_w_id h_date h_amount : Z)
  | Order (o_id o_c_id o_d_id o_w_id o_entry_d o_ol_cnt o_all_local : Z)
  | NewOrder (no_o_id no_d_id no_w_id : Z)
  | OrderLine (ol_o_id ol_d_id ol_w_id ol_number ol_i_id ol_supply_w_id ol_quantity ol_amount : Z).

(** ** Configuration and keys *)

Record tconfig := mkTC {
  g_node_cnt : Z;
  g_part_cnt : Z;
  g_num_wh : Z;
  g_dist_per_wh : Z;
  g_cust_per_dist : Z;
  g_max_items : Z;
  g_wh_update : bool;
  g_max_items_per_txn : nat }.

Definition MAX_ROW_PER_TXN : nat := 64.

Section keys.
Context (c : tconfig).

Definition distKey (d_id d_w_id : Z) : Z := wrap64 (d_w_id * g_dist_per_wh c + d_id).
Definition custKey (c_id c_d_id c_w_id : Z) : Z := wrap64 (distKey c_d_id c_w_id * g_cust_per_dist c + c_id).
Definition stockKey (s_i_id s_w_id : Z) : Z := wrap64 (s_w_id * g_max_items c + s_i_id).

(** A [char] is signed; 65 is 'A'. *)
Definition schar (x : Z) : Z := if x <? 128 then x else x - 256.
Fixpoint np_loop (c_last : list Z) (key : Z) : Z :=
  match c_last with
  | [] => key
  | x :: l => if x =? 0 then key else np_loop l (wrap64 (Z.shiftl key 1 + (schar x - 65)))
  end.
Definition custNPKey (c_last : list Z) (c_d_id c_w_id : Z) : Z :=
  wrap64 (wrap64 (Z.shiftl (np_loop c_last 0) 10) + (c_w_id * g_dist_per_wh c + c_d_id)).

Definition wh_to_part (wid : Z) : option Z :=
  ASSERT g_part_cnt c <=? g_num_wh c;
  ASSERT negb (g_part_cnt c =? 0);
  Some (wrap64 (wid - 1) `mod` g_part_cnt c).
(** [GET_NODE_ID(wh_to_part(wid))] *)
Definition wh_node (wid : Z) : option Z := p ← wh_to_part wid; Some (p `mod` g_node_cnt c).

End keys.

(** ** The transaction manager of a node *)

(** [q_in] is the input; it is followed by what the transaction computes. *)
Record TPCCQuery := mkTQ { q_in : tpcc_input; ol_amount : Z; o_id : Z }.

(** [row] is a null pointer until a row is got; [last_row] is the row that was asked for last.
    [accesses] are the rows that were got, with their types. *)
Record TPCCTxnManager := mkT {
  query : TPCCQuery;
  state : TPCCRemTxnType;
  next_item_id : nat;
  row : option nat;
  last_row : option (nat * access_t);
  partitions_touched : list Z;
  accesses : list (nat * access_t);
  insert_rows : list insert_t }.

Definition set_state (st : TPCCRemTxnType) (t : TPCCTxnManager) : TPCCTxnManager :=
  mkT (query t) st (next_item_id t) (row t) (last_row t) (partitions_touched t) (accesses t) (insert_rows t).
Definition set_next (i : nat) (t : TPCCTxnManager) : TPCCTxnManager :=
  mkT (query t) (state t) i (row t) (last_row t) (partitions_touched t) (accesses t) (insert_rows t).
Definition set_query (q : TPCCQuery) (t : TPCCTxnManager) : TPCCTxnManager :=
  mkT q (state t) (next_item_id t) (row t) (last_row t) (partitions_touched t) (accesses t) (insert_rows t).
Definition touch (n : Z) (t : TPCCTxnManager) : TPCCTxnManager :=
  mkT (query t) (state t) (next_item_id t) (row t) (last_row t) (TwoPC.add_unique n (partitions_touched t)) (accesses t)
    (insert_rows t).
Definition q_items (t : TPCCTxnManager) : list Item_no := items (q_in (query t)).

Definition set_items (l : list Item_no) (q : tpcc_input) : tpcc_input :=
  mkTI (txn_type q) (w_id q) (d_id q) (c_id q) (d_w_id q) (c_w_id q) (c_d_id q) (c_last q) (h_amount q) (by_last_name q) l
    (rbk q) (remote q) (ol_cnt q) (o_entry_d q).
Definition set_payment (last : list Z) (amount : Z) (q : tpcc_input) : tpcc_input :=
  mkTI (txn_type q) (w_id q) (d_id q) (c_id q) (d_w_id q) (c_w_id q) (c_d_id q) last amount (by_last_name q) (items q)
    (rbk q) (remote q) (ol_cnt q) (o_entry_d q).

Definition LASTNAME_LEN : nat := 16.
(** The bytes of a string up to its end, if it has one. *)
Fixpoint c_string (s : list Z) : option (list Z) :=
  match s with [] => None | x :: s => if x =? 0 then Some [0] else l ← c_string s; Some (x :: l) end.
(** [strcpy] to an array [c_last].  The string has to end within the array; what the array
    has after the end, which nobody reads, is left out. *)
Definition strcpy (src : list Z) : option (list Z) :=
  s ← c_string src;
  ASSERT bool_decide (length s ≤ LASTNAME_LEN)%nat;
  Some s.

(** [TxnManager::get_row] and [get_row_post_wait], where the concurrency control answers
    [rc]; the row that is waited for is there. *)
Definition got_row (r : nat) (type : access_t) (t : TPCCTxnManager) : TPCCTxnManager :=
  mkT (query t) (state t) (next_item_id t) (Some r) (Some (r, type)) (partitions_touched t) (accesses t ++ [(r, type)]) (insert_rows t).
Definition no_row (r : nat) (type : access_t) (t : TPCCTxnManager) : TPCCTxnManager :=
  mkT (query t) (state t) (next_item_id t) None (Some (r, type)) (partitions_touched t) (accesses t) (insert_rows t).
Definition get_row (rc : RC) (r : nat) (type : access_t) (t : TPCCTxnManager) : RC * TPCCTxnManager :=
  (rc, if bool_decide (rc = Abort) || bool_decide (rc = WAIT) then no_row r type t else got_row r type t).
Definition get_row_post_wait (t : TPCCTxnManager) : option TPCCTxnManager :=
  '(r, type) ← last_row t; Some (got_row r type t).

Section manager.
Context (c : tconfig).

Definition insert_row (i : insert_t) (t : TPCCTxnManager) : option TPCCTxnManager :=
  ASSERT bool_decide (length (insert_rows t) < MAX_ROW_PER_TXN)%nat;
  ASSERT bool_decide (length (insert_rows t) < g_max_items_per_txn c + 10)%nat;
  Some (mkT (query t) (state t) (next_item_id t) (row t) (last_row t) (partitions_touched t) (accesses t) (insert_rows t ++ [i])).
Fixpoint insert_all (l : list insert_t) (t : TPCCTxnManager) : option TPCCTxnManager :=
  match l with [] => Some t | i :: l => t ← insert_row i t; insert_all l t end.

(** What a state computes with its row: the node, the order id it leaves in the query, if
    it sets one, and the rows it inserts. *)
Definition effect : Type := node * option Z * list insert_t.

(** *** Payment *)

Definition payment_0_row (w_id : Z) (n : node) : option nat := index_read n i_warehouse w_id.
Definition run_payment_1 (h_amount : Z) (r : nat) (n : node) : option effect :=
  w_ytd ← get_value n r W_YTD;
  n ← (if g_wh_update c then set_value r W_YTD (dadd w_ytd h_amount) n else Some n);
  Some (n, None, []).
Definition payment_2_row (d_id d_w_id : Z) (n : node) : option nat := index_read n i_district (distKey c d_id d_w_id).
Definition run_payment_3 (h_amount : Z) (r : nat) (n : node) : option effect :=
  d_ytd ← get_value n r D_YTD;
  n ← set_value r D_YTD (dadd d_ytd h_amount) n;
  Some (n, None, []).
Definition payment_4_row (c_id c_w_id c_d_id : Z) (c_last : list Z) (by_last_name : bool) (n : node) : option nat :=
  if by_last_name then mid_row (idx n i_customer_last (custNPKey c c_last c_d_id c_w_id))
  else index_read n i_customer_id (custKey c c_id c_d_id c_w_id).
Definition run_payment_5 (w_id d_id c_id c_w_id c_d_id h_amount : Z) (r : nat) (n : node) : option effect :=
  c_balance ← get_value n r C_BALANCE;
  n ← set_value r C_BALANCE (dsub c_balance h_amount) n;
  c_ytd_payment ← get_value n r C_YTD_PAYMENT;
  n ← set_value r C_YTD_PAYMENT (dadd c_ytd_payment h_amount) n;
  c_payment_cnt ← get_value n r C_PAYMENT_CNT;
  n ← set_value r C_PAYMENT_CNT (dadd c_payment_cnt d_one) n;
  Some (n, None, [History c_id c_d_id c_w_id d_id w_id 2013 h_amount]).

(** *** New order *)

Definition new_order_0_row (w_id : Z) (n : node) : option nat := index_read n i_warehouse w_id.
Definition new_order_1 (r : nat) (n : node) : option effect := w_tax ← get_value n r W_TAX; Some (n, None, []).
Definition new_order_2_row (w_id d_id c_id : Z) (n : node) : option nat := index_read n i_customer_id (custKey c c_id d_id w_id).
Definition new_order_3 (r : nat) (n : node) : option effect := c_discount ← get_value n r C_DISCOUNT; Some (n, None, []).
Definition new_order_4_row (w_id d_id : Z) (n : node) : option nat := index_read n i_district (distKey c d_id w_id).
Definition new_order_5 (w_id d_id c_id : Z) (remote : bool) (ol_cnt o_entry_d : Z) (r : nat) (n : node) : option effect :=
  next ← get_value n r D_NEXT_O_ID;
  let o := wrap64 (next + 1) in
  n ← set_value r D_NEXT_O_ID o n;
  Some (n, Some o, [Order o c_id d_id w_id o_entry_d ol_cnt (if remote then 0 else 1); NewOrder o d_id w_id]).
Definition new_order_6_row (ol_i_id : Z) (n : node) : option nat := index_read n i_item ol_i_id.
Definition new_order_7 (r : nat) (n : node) : option effect := i_price ← get_value n r I_PRICE; Some (n, None, []).
Definition new_order_8_row (ol_i_id ol_supply_w_id : Z) (n : node) : option nat :=
  index_read n i_stock (stockKey c ol_i_id ol_supply_w_id).
Definition new_quantity (s_quantity ol_quantity : Z) : Z :=
  if wrap64 (ol_quantity + 10) <? s_quantity then wrap64 (s_quantity - ol_quantity) else wrap64 (s_quantity - ol_quantity + 91).
Definition new_order_9 (w_id d_id : Z) (remote : bool) (it : Item_no) (ol_number ol_amount o_id : Z) (r : nat) (n : node)
    : option effect :=
  s_quantity ← get_value n r S_QUANTITY;
  s_ytd ← get_value n r S_YTD;
  n ← set_value r S_YTD (wrap64 (s_ytd + ol_quantity it)) n;
  s_order_cnt ← get_value n r S_ORDER_CNT;
  n ← set_value r S_ORDER_CNT (wrap64 (s_order_cnt + 1)) n;
  n ← (if remote then
         s_remote_cnt ← get_value n r S_REMOTE_CNT; set_value r S_REMOTE_CNT (wrap64 (s_remote_cnt + 1)) n
       else Some n);
  n ← set_value r S_QUANTITY (new_quantity s_quantity (ol_quantity it)) n;
  Some (n, None, [OrderLine o_id d_id w_id ol_number (ol_i_id it) (ol_supply_w_id it) (ol_quantity it) ol_amount]).

(** *** The machine *)

(** [g_node_id] is the node of the manager and [local] is [IS_LOCAL(txn->txn_id)]. *)
Context (g_node_id : Z) (local : bool).

Definition is_done (t : TPCCTxnManager) : option bool :=
  if txn_type (q_in (query t)) =? TPCC_PAYMENT then Some (bool_decide (state t = TPCC_FIN))
  else if txn_type (q_in (query t)) =? TPCC_NEW_ORDER then
    Some (bool_decide (next_item_id t = length (q_items t)) || bool_decide (state t = TPCC_FIN))
  else None.

Definition after_item (t : TPCCTxnManager) : option TPCCTxnManager :=
  done ← is_done t; Some (set_state (if negb local || negb done then TPCC_NEWORDER6 else TPCC_FIN) t).

Definition next_tpcc_state (t : TPCCTxnManager) : option TPCCTxnManager :=
  match state t with
  | TPCC_PAYMENT_S => Some (set_state TPCC_PAYMENT0 t)
  | TPCC_PAYMENT0 => Some (set_state TPCC_PAYMENT1 t)
  | TPCC_PAYMENT1 => Some (set_state TPCC_PAYMENT2 t)
  | TPCC_PAYMENT2 => Some (set_state TPCC_PAYMENT3 t)
  | TPCC_PAYMENT3 => Some (set_state TPCC_PAYMENT4 t)
  | TPCC_PAYMENT4 => Some (set_state TPCC_PAYMENT5 t)
  | TPCC_PAYMENT5 => Some (set_state TPCC_FIN t)
  | TPCC_NEWORDER_S => Some (set_state TPCC_NEWORDER0 t)
  | TPCC_NEWORDER0 => Some (set_state TPCC_NEWORDER1 t)
  | TPCC_NEWORDER1 => Some (set_state TPCC_NEWORDER2 t)
  | TPCC_NEWORDER2 => Some (set_state TPCC_NEWORDER3 t)
  | TPCC_NEWORDER3 => Some (set_state TPCC_NEWORDER4 t)
  | TPCC_NEWORDER4 => Some (set_state TPCC_NEWORDER5 t)
  | TPCC_NEWORDER5 => after_item t
  | TPCC_NEWORDER6 => Some (set_state TPCC_NEWORDER7 t)
  | TPCC_NEWORDER7 => Some (set_state TPCC_NEWORDER8 t)
  | TPCC_NEWORDER8 => Some (set_state TPCC_NEWORDER9 t)
  | TPCC_NEWORDER9 => after_item (set_next (S (next_item_id t)) t)
  | TPCC_FIN => Some t
  | TPCC_RDONE => None
  end.

(** The loop of [copy_remote_items] *)
Fixpoint remote_items (dest : Z) (l : list Item_no) : option (list Item_no) :=
  match l with
  | [] => Some []
  | it :: l =>
      n ← wh_node c (ol_supply_w_id it);
      if negb (n =? g_node_id) && (n =? dest) then its ← remote_items dest l; Some (it :: its) else Some []
  end.

(** [copy_from_txn] of the message, which has the state and the input; the fields of the
    other type of transaction are not copied, and not read either.  [h_amount] is a [double]
    in the query and an integer in the message. *)
Definition copy_from_txn (t : TPCCTxnManager) : option (tpcc_input * TPCCTxnManager) :=
  let q := q_in (query t) in
  if txn_type q =? TPCC_NEW_ORDER then
    it ← q_items t !! next_item_id t;
    dest ← wh_node c (ol_supply_w_id it);
    its ← remote_items dest (drop (next_item_id t) (q_items t));
    Some (set_items its q, set_next (next_item_id t + length its) t)
  else if txn_type q =? TPCC_PAYMENT then
    last ← strcpy (c_last q);
    amount ← d_to_u64 (h_amount q);
    Some (set_payment last amount q, t)
  else Some (q, t).

Definition send_remote_request (t : TPCCTxnManager) : option (Z * (TPCCRemTxnType * tpcc_input) * TPCCTxnManager) :=
  ASSERT local;
  let q := q_in (query t) in
  '(dest, next_state) ← match state t with
    | TPCC_PAYMENT0 => dest ← wh_node c (w_id q); Some (dest, TPCC_PAYMENT2)
    | TPCC_PAYMENT4 => dest ← wh_node c (c_w_id q); Some (dest, TPCC_FIN)
    | TPCC_NEWORDER0 => dest ← wh_node c (w_id q); Some (dest, TPCC_NEWORDER6)
    | TPCC_NEWORDER8 =>
        it ← q_items t !! next_item_id t;
        dest ← wh_node c (ol_supply_w_id it);
        done ← is_done t;
        Some (dest, if done : bool then TPCC_FIN else TPCC_NEWORDER6)
    | _ => None
    end;
  '(msg, t') ← copy_from_txn t;
  Some (dest, (state t, msg), set_state next_state (touch dest t')).

Definition answer_t : Type := RC * TPCCTxnManager * node * option (Z * (TPCCRemTxnType * tpcc_input)).

(** The three kinds of states: an access to a row, a computation with the row that was got,
    and a message. *)
Definition access_step (rc : RC) (r : option nat) (type : access_t) (t : TPCCTxnManager) (n : node) : option answer_t :=
  r ← r; let '(rc, t) := get_row rc r type t in Some (rc, t, n, None).
Definition compute_step (f : nat → node → option effect) (t : TPCCTxnManager) (n : node) : option answer_t :=
  r ← row t;
  '(n, o, ins) ← f r n;
  t ← insert_all ins (set_query (mkTQ (q_in (query t)) (ol_amount (query t)) (default (o_id (query t)) o)) t);
  Some (RCOK, t, n, None).
Definition send_step (t : TPCCTxnManager) (n : node) : option answer_t :=
  '(dest, msg, t) ← send_remote_request t; Some (WAIT_REM, t, n, Some (dest, msg)).

(** [rc] is the answer to [get_row], if it is called. *)
Definition run_txn_state (rc : RC) (t : TPCCTxnManager) (n : node) : option answer_t :=
  let q := q_in (query t) in
  it ← (if txn_type q =? TPCC_NEW_ORDER then q_items t !! next_item_id t else Some (mkItem 0 0 0));
  w ← wh_node c (w_id q);
  cw ← wh_node c (c_w_id q);
  sw ← wh_node c (ol_supply_w_id it);
  '(rc, t, n, out) ← match state t with
    | TPCC_PAYMENT0 =>
        if w =? g_node_id then access_step rc (payment_0_row (w_id q) n) (if g_wh_update c then WR else RD) t n else send_step t n
    | TPCC_PAYMENT1 => compute_step (run_payment_1 (h_amount q)) t n
    | TPCC_PAYMENT2 => access_step rc (payment_2_row (d_id q) (d_w_id q) n) WR t n
    | TPCC_PAYMENT3 => compute_step (run_payment_3 (h_amount q)) t n
    | TPCC_PAYMENT4 =>
        if cw =? g_node_id
        then access_step rc (payment_4_row (c_id q) (c_w_id q) (c_d_id q) (c_last q) (by_last_name q) n) WR t n
        else send_step t n
    | TPCC_PAYMENT5 => compute_step (run_payment_5 (w_id q) (d_id q) (c_id q) (c_w_id q) (c_d_id q) (h_amount q)) t n
    | TPCC_NEWORDER0 => if w =? g_node_id then access_step rc (new_order_0_row (w_id q) n) RD t n else send_step t n
    | TPCC_NEWORDER1 => compute_step new_order_1 t n
    | TPCC_NEWORDER2 => access_step rc (new_order_2_row (w_id q) (d_id q) (c_id q) n) RD t n
    | TPCC_NEWORDER3 => compute_step new_order_3 t n
    | TPCC_NEWORDER4 => access_step rc (new_order_4_row (w_id q) (d_id q) n) WR t n
    | TPCC_NEWORDER5 => compute_step (new_order_5 (w_id q) (d_id q) (c_id q) (remote q) (ol_cnt q) (o_entry_d q)) t n
    | TPCC_NEWORDER6 => access_step rc (new_order_6_row (ol_i_id it) n) RD t n
    | TPCC_NEWORDER7 => compute_step new_order_7 t n
    | TPCC_NEWORDER8 =>
        if sw =? g_node_id then access_step rc (new_order_8_row (ol_i_id it) (ol_supply_w_id it) n) WR t n else send_step t n
    | TPCC_NEWORDER9 =>
        compute_step (new_order_9 (w_id q) (d_id q) (remote q) it (Z.of_nat (next_item_id t)) (ol_amount (query t)) (o_id (query t))) t n
    | TPCC_FIN => Some (if rbk q then Abort else RCOK, t, n, None)
    | _ => None
    end;
  t ← (if bool_decide (rc = RCOK) then next_tpcc_state t else Some t);
  Some (rc, t, n, out).

(** The start of [run_txn], and [run_txn_post_wait]. *)
Definition run_txn (t : TPCCTxnManager) : TPCCTxnManager :=
  if local && (bool_decide (state t = TPCC_PAYMENT0) || bool_decide (state t = TPCC_NEWORDER0)) then touch g_node_id t else t.
Definition run_txn_post_wait (t : TPCCTxnManager) : option TPCCTxnManager :=
  t ← get_row_post_wait t; next_tpcc_state t.

End manager.

(** [TPCCClientQueryMessage::copy_from_query], for the query that a client has generated. *)
Definition copy_from_query (q : tpcc_input) : option tpcc_input :=
  last ← strcpy (c_last q);
  amount ← d_to_u64 (h_amount q);
  Some (set_payment last amount q).

(** [TPCCClientQueryMessage::copy_to_txn] and [TPCCQueryMessage::copy_to_txn]; [append]
    asserts that the items fit. *)
Definition append_items (c : tconfig) (l : list Item_no) (t : TPCCTxnManager) : option (list Item_no) :=
  ASSERT bool_decide (length (q_items t) + length l ≤ g_max_items_per_txn c)%nat;
  Some (q_items t ++ l).
Definition client_copy_to_txn (c : tconfig) (m : tpcc_input) (t : TPCCTxnManager) : option TPCCTxnManager :=
  last ← strcpy (c_last m);
  its ← append_items c (items m) t;
  let t := set_query (mkTQ (set_items its (set_payment last (d_of_Z (h_amount m)) m)) (ol_amount (query t)) (o_id (query t))) t in
  Some (if txn_type m =? TPCC_PAYMENT then set_state TPCC_PAYMENT0 t
        else if txn_type m =? TPCC_NEW_ORDER then set_state TPCC_NEWORDER0 t else t).
Definition copy_to_txn (c : tconfig) (msg : TPCCRemTxnType * tpcc_input) (t : TPCCTxnManager) : option TPCCTxnManager :=
  let '(st, m) := msg in
  let q := q_in (query t) in
  let pay := txn_type m =? TPCC_PAYMENT in
  let ord := txn_type m =? TPCC_NEW_ORDER in
  last ← (if pay then strcpy (c_last m) else Some (c_last q));
  its ← (if ord then append_items c (items m) t else Some (q_items t));
  let sel {A} (b : bool) (f : tpcc_input → A) : A := f (if b then m else q) in
  Some (set_state st (set_query (mkTQ (mkTI (txn_type m) (w_id m) (d_id m) (c_id m)
    (sel pay d_w_id) (sel pay c_w_id) (sel pay c_d_id) last (if pay then d_of_Z (h_amount m) else h_amount q) (sel pay by_last_name)
    its (sel ord rbk) (sel ord remote) (sel ord ol_cnt) (sel ord o_entry_d)) (ol_amount (query t)) (o_id (query t))) t)).

(** ** All nodes *)

(** The node whose manager runs, the managers of the transaction and the rows of all
    nodes. *)
Record sys := mkSys { turn : Z; mgr : Z → TPCCTxnManager; nodes : Z → node }.

Inductive outcome := Next (s : sys) | Stop (rc : RC) (s : sys).

Section sys.
(** [ans n i] is what [get_row] answers on node [n] when [i] rows were got there. *)
Context (c : tconfig) (home : Z) (ans : Z → nat → RC).

(** One iteration of the loop of [run_txn]; at its end [process_rtxn], [process_rtxn_cont],
    [process_rqry], [process_rqry_cont] or [process_rqry_rsp] go on, up to [start_commit] or
    [start_abort] of the home node. *)
Definition sys_step (s : sys) : option outcome :=
  let g := turn s in
  let local := g =? home in
  done ← is_done (mgr s g);
  if done : bool then
    Some (if local then Stop RCOK s
          else Next (mkSys home (<[home := run_txn home true (mgr s home)]> (mgr s)) (nodes s)))
  else
    '(rc, t, n, out) ← run_txn_state c g local (ans g (length (accesses (mgr s g)))) (mgr s g) (nodes s g);
    let ns := <[g := n]> (nodes s) in
    match rc with
    | RCOK => Some (Next (mkSys g (<[g := t]> (mgr s)) ns))
    | WAIT => t ← run_txn_post_wait local t; Some (Next (mkSys g (<[g := run_txn g local t]> (mgr s)) ns))
    | Abort => Some (Stop Abort (mkSys g (<[g := t]> (mgr s)) ns))
    | WAIT_REM =>
        '(dest, msg) ← out;
        ASSERT negb (dest =? home);
        p ← copy_to_txn c msg (<[g := t]> (mgr s) dest);
        Some (Next (mkSys dest (<[dest := run_txn dest false p]> (<[g := t]> (mgr s))) ns))
    | _ => None
    end.

Fixpoint run (fuel : nat) (s : sys) : option (RC * sys) :=
  match fuel with
  | O => None
  | S fuel => o ← sys_step s; match o with Next s => run fuel s | Stop rc s => Some (rc, s) end
  end.

(** The message of a client with a query; the managers come from the pool. *)
Definition run_query (fuel : nat) (m : tpcc_input) (pool : Z → TPCCTxnManager) (ns : Z → node) : option (RC * sys) :=
  t ← client_copy_to_txn c m (pool home);
  run fuel (mkSys home (<[home := run_txn home true t]> pool) ns).

End sys.

(** ** The reference *)

(** An access of a transaction, with what is computed from its row; a line of an order has
    its number on the node that inserts it. *)
Inductive tunit :=
  | PayWh | PayDist | PayCust | OrdWh | OrdCust | OrdDist | OrdItem (it : Item_no) | OrdStock (num : nat) (it : Item_no).

(** The rows got and inserted, the order id and the rows of each node. *)
Record rstate := mkR {
  r_acc : Z → list (nat * access_t);
  r_ins : Z → list insert_t;
  r_oid : Z → Z;
  r_nodes : Z → node }.

Section reference.
Context (c : tconfig) (home : Z) (ans : Z → nat → RC) (q : tpcc_input) (amount : Z → Z).

Definition unit_row (u : tunit) (n : node) : option nat :=
  match u with
  | PayWh => payment_0_row (w_id q) n
  | PayDist => payment_2_row c (d_id q) (d_w_id q) n
  | PayCust => payment_4_row c (c_id q) (c_w_id q) (c_d_id q) (c_last q) (by_last_name q) n
  | OrdWh => new_order_0_row (w_id q) n
  | OrdCust => new_order_2_row c (w_id q) (d_id q) (c_id q) n
  | OrdDist => new_order_4_row c (w_id q) (d_id q) n
  | OrdItem it => new_order_6_row (ol_i_id it) n
  | OrdStock _ it => new_order_8_row c (ol_i_id it) (ol_supply_w_id it) n
  end.
Definition unit_type (u : tunit) : access_t :=
  match u with PayWh => if g_wh_update c then WR else RD | OrdWh | OrdCust | OrdItem _ => RD | _ => WR end.
Definition unit_effect (u : tunit) (amt oid : Z) : nat → node → option effect :=
  match u with
  | PayWh => run_payment_1 c (h_amount q)
  | PayDist => run_payment_3 (h_amount q)
  | PayCust => run_payment_5 (w_id q) (d_id q) (c_id q) (c_w_id q) (c_d_id q) (h_amount q)
  | OrdWh => new_order_1
  | OrdCust => new_order_3
  | OrdDist => new_order_5 (w_id q) (d_id q) (c_id q) (remote q) (ol_cnt q) (o_entry_d q)
  | OrdItem _ => new_order_7
  | OrdStock num it => new_order_9 (w_id q) (d_id q) (remote q) it (Z.of_nat num) amt oid
  end.

Definition do_unit (gu : Z * tunit) (R : rstate) : option (RC * rstate) :=
  let '(g, u) := gu in
  r ← unit_row u (r_nodes R g);
  if bool_decide (ans g (length (r_acc R g)) = Abort) then Some (Abort, R)
  else
    '(n, o, ins) ← unit_effect u (amount g) (r_oid R g) r (r_nodes R g);
    Some (RCOK, mkR (<[g := r_acc R g ++ [(r, unit_type u)]]> (r_acc R)) (<[g := r_ins R g ++ ins]> (r_ins R))
                    (<[g := default (r_oid R g) o]> (r_oid R)) (<[g := n]> (r_nodes R))).

Fixpoint do_units (l : list (Z * tunit)) (R : rstate) : option (RC * rstate) :=
  match l with
  | [] => Some (RCOK, R)
  | gu :: l => '(rc, R) ← do_unit gu R; if bool_decide (rc = RCOK) then do_units l R else Some (rc, R)
  end.

(** The node of a warehouse. *)
Definition owner (w : Z) : Z := (wrap64 (w - 1) `mod` g_part_cnt c) `mod` g_node_cnt c.
Definition item_node (it : Item_no) : Z := owner (ol_supply_w_id it).

Definition payment_plan : list (Z * tunit) := [(home, PayWh); (home, PayDist); (owner (c_w_id q), PayCust)].

(** Consecutive items of another node go there in one message; the home node has looked up
    the first of them.  [cnt n] items went to node [n] before. *)
Fixpoint item_plan (k : nat) (cnt : Z → nat) (prev : option Z) (l : list Item_no) : list (Z * tunit) :=
  match l with
  | [] => []
  | it :: l =>
      let n := item_node it in
      if decide (n = home) then (home, OrdItem it) :: (home, OrdStock k it) :: item_plan (S k) cnt None l
      else (if decide (prev = Some n) then n else home, OrdItem it) :: (n, OrdStock (cnt n) it) ::
             item_plan (S k) (<[n := S (cnt n)]> cnt) (Some n) l
  end.
Definition order_plan : list (Z * tunit) :=
  [(home, OrdWh); (home, OrdCust); (home, OrdDist)] ++ item_plan 0 (λ _, 0%nat) None (items q).

Definition plan : list (Z * tunit) := if txn_type q =? TPCC_PAYMENT then payment_plan else order_plan.

Lemma plan_payment : txn_type q = TPCC_PAYMENT → plan = payment_plan.
Proof. unfold plan. by intros ->. Qed.
Lemma plan_order : txn_type q = TPCC_NEW_ORDER → plan = order_plan.
Proof. unfold plan. by intros ->. Qed.

Lemma do_units_app l l' R : do_units (l ++ l') R =
  ('(rc, R) ← do_units l R; if bool_decide (rc = RCOK) then do_units l' R else Some (rc, R)).
Proof.
  revert R. induction l as [|gu l IH]; intros R; [done|]. cbn [app do_units].
  destruct (do_unit gu R) as [[rc R1]|]; [|done]. cbn [mbind option_bind]. case_bool_decide as Hrc; [apply IH|].
  cbn [mbind option_bind]. by rewrite bool_decide_false.
Qed.

End reference.

End TpccTxn.
