(* ===== verification/TpccRun.v ===== *)
(** * TpccRun: the state machines of TPC-C execute the reference

    The simulation between [TpccTxn.run_query], the managers of all nodes with their
    messages, and the list of accesses of the transaction: an access with its computation,
    a message with the items another node serves, the answer, and the whole transaction. *)

From S2P Require Import Prelude Double Message TwoPC TpccTxn.

Module TpccRun.
Import Double.Double Message.Message TpccTxn.TpccTxn.

(** ** One unit *)

Definition unit_state (u : tunit) : TPCCRemTxnType :=
  match u with
  | PayWh => TPCC_PAYMENT0 | PayDist => TPCC_PAYMENT2 | PayCust => TPCC_PAYMENT4
  | OrdWh => TPCC_NEWORDER0 | OrdCust => TPCC_NEWORDER2 | OrdDist => TPCC_NEWORDER4
  | OrdItem _ => TPCC_NEWORDER6 | OrdStock _ _ => TPCC_NEWORDER8
  end.
Definition got_state (u : tunit) : TPCCRemTxnType :=
  match u with
  | PayWh => TPCC_PAYMENT1 | PayDist => TPCC_PAYMENT3 | PayCust => TPCC_PAYMENT5
  | OrdWh => TPCC_NEWORDER1 | OrdCust => TPCC_NEWORDER3 | OrdDist => TPCC_NEWORDER5
  | OrdItem _ => TPCC_NEWORDER7 | OrdStock _ _ => TPCC_NEWORDER9
  end.
Definition unit_txn (u : tunit) : Z := match u with PayWh | PayDist | PayCust => TPCC_PAYMENT | _ => TPCC_NEW_ORDER end.
Definition unit_inserts (u : tunit) : nat := match u with PayCust | OrdStock _ _ => 1 | OrdDist => 2 | _ => 0 end.
(** The state and the item after the unit. *)
Definition unit_next (local : bool) (u : tunit) (k len : nat) : TPCCRemTxnType * nat :=
  match u with
  | PayWh => (TPCC_PAYMENT2, k) | PayDist => (TPCC_PAYMENT4, k) | PayCust => (TPCC_FIN, k)
  | OrdWh => (TPCC_NEWORDER2, k) | OrdCust => (TPCC_NEWORDER4, k) | OrdItem _ => (TPCC_NEWORDER8, k)
  | OrdDist => (if negb local || negb (bool_decide (k = len)) then TPCC_NEWORDER6 else TPCC_FIN, k)
  | OrdStock _ _ => (if negb local || negb (bool_decide (S k = len)) then TPCC_NEWORDER6 else TPCC_FIN, S k)
  end.

Definition row_answer (rc : RC) : Prop := rc = RCOK ∨ rc = WAIT ∨ rc = Abort.

(** ** The input of the home node *)

Lemma c_string_idem s l : c_string s = Some l → c_string l = Some l.
Proof.
  revert l. induction s as [|x s IH]; intros l; [done|]. cbn [c_string]. destruct (Z.eqb_spec x 0) as [->|Hx].
  - by intros [= <-].
  - intros (l'&Hl&[= <-])%bind_Some. cbn [c_string]. rewrite (proj2 (Z.eqb_neq x 0)) by done. by rewrite (IH l').
Qed.
Lemma strcpy_idem s l : strcpy s = Some l → strcpy l = Some l.
Proof.
  unfold strcpy. intros (l'&Hl&(Hlen&[= <-])%assert_bind_Some)%bind_Some.
  rewrite (c_string_idem _ _ Hl). cbn [mbind option_bind]. by rewrite assert_bind_true.
Qed.

(** What the home node knows from the message of the client: the name up to its end, and
    the amount as a [double]. *)
Definition input_of (m : tpcc_input) : tpcc_input := set_payment (default [] (strcpy (c_last m))) (d_of_Z (h_amount m)) m.

(** What is to be assumed of the input, which messages carry to other nodes. *)
Definition portable (q : tpcc_input) : Prop :=
  strcpy (c_last q) = Some (c_last q) ∧ ∃ amount, d_to_u64 (h_amount q) = Some amount ∧ d_of_Z amount = h_amount q.

Lemma input_of_portable m : is_Some (strcpy (c_last m)) → 0 ≤ h_amount m < 2 ^ 53 → portable (input_of m).
Proof.
  intros [l Hl] Ha. unfold input_of. rewrite Hl. split; [by apply (strcpy_idem (c_last m))|].
  exists (h_amount m). split; [by apply d_to_u64_of_Z|done].
Qed.

(** The rest of [client_copy_to_txn]. *)
Definition start_txn (c : tconfig) (q : tpcc_input) (t : TPCCTxnManager) : option TPCCTxnManager :=
  its ← append_items c (items q) t;
  let t := set_query (mkTQ (set_items its q) (ol_amount (query t)) (o_id (query t))) t in
  Some (if txn_type q =? TPCC_PAYMENT then set_state TPCC_PAYMENT0 t
        else if txn_type q =? TPCC_NEW_ORDER then set_state TPCC_NEWORDER0 t else t).

Lemma client_copy_start c m t : is_Some (strcpy (c_last m)) → client_copy_to_txn c m t = start_txn c (input_of m) t.
Proof. intros [l Hl]. unfold client_copy_to_txn, start_txn, input_of. by rewrite Hl. Qed.

Section run.
Context (c : tconfig) (home : Z) (ans : Z → nat → RC) (q : tpcc_input) (amount : Z → Z).
Context (Hans : ∀ n i, row_answer (ans n i)) (Hpart : g_part_cnt c ≤ g_num_wh c) (Hpart0 : 0 < g_part_cnt c).

#[local] Abbreviation owner := (owner c).
#[local] Abbreviation item_node := (item_node c).
#[local] Abbreviation do_unit := (do_unit c ans q amount).
#[local] Abbreviation do_units := (do_units c ans q amount).
#[local] Abbreviation run := (run c home ans).
#[local] Abbreviation sys_step := (sys_step c home ans).

Lemma wh_node_owner w : wh_node c w = Some (owner w).
Proof. unfold wh_node, wh_to_part. rewrite !assert_bind_true by lia. done. Qed.

(** The input as a manager knows it, on the home node or from a message. *)
Record input_ok (m : tpcc_input) : Prop := {
  in_type : txn_type m = txn_type q;
  in_w : w_id m = w_id q;
  in_d : d_id m = d_id q;
  in_c : c_id m = c_id q;
  in_pay : txn_type q = TPCC_PAYMENT → d_w_id m = d_w_id q ∧ c_w_id m = c_w_id q ∧ c_d_id m = c_d_id q ∧
    c_last m = c_last q ∧ h_amount m = h_amount q ∧ by_last_name m = by_last_name q;
  in_ord : txn_type q = TPCC_NEW_ORDER → remote m = remote q ∧ ol_cnt m = ol_cnt q ∧ o_entry_d m = o_entry_d q }.

(** The manager of node [g] is about to run the unit, or has its row. *)
Record unit_at (st : tunit → TPCCRemTxnType) (g : Z) (t : TPCCTxnManager) (u : tunit) : Prop := {
  ua_state : state t = st u;
  ua_in : input_ok (q_in (query t));
  ua_type : txn_type q = unit_txn u;
  ua_item : match u with
    | PayWh | PayDist | PayCust => True
    | OrdWh | OrdCust | OrdDist => is_Some (q_items t !! next_item_id t)
    | OrdItem it => q_items t !! next_item_id t = Some it
    | OrdStock num it => q_items t !! next_item_id t = Some it ∧ num = next_item_id t
    end;
  ua_node : match u with
    | PayWh | OrdWh => owner (w_id q) = g
    | PayCust => owner (c_w_id q) = g
    | OrdStock _ it => item_node it = g
    | _ => True
    end }.

Lemma unit_not_done st g t u : unit_at st g t u → st u ≠ TPCC_FIN → is_done t = Some false.
Proof.
  intros [Hs Hin Ht Hit _] Hf. unfold is_done. rewrite (in_type _ Hin), Ht, Hs. rewrite (bool_decide_false (st u = TPCC_FIN)) by done.
  destruct u; cbn [unit_txn]; cbn; try done; f_equal; rewrite orb_false_r; apply bool_decide_eq_false; intros He;
    [destruct Hit as [? Hit]..| |destruct Hit as [Hit _]]; apply lookup_lt_Some in Hit; lia.
Qed.

(** The item [run_txn_state] looks up before it looks at the state. *)
Lemma unit_item st g t u : unit_at st g t u → ∃ it,
  (match u with OrdItem it' | OrdStock _ it' => it' = it | _ => True end) ∧
  (if txn_type (q_in (query t)) =? TPCC_NEW_ORDER then q_items t !! next_item_id t else Some (mkItem 0 0 0)) = Some it.
Proof.
  intros [Hs Hin Ht Hit _]. rewrite (in_type _ Hin), Ht. destruct u; cbn; try (by exists (mkItem 0 0 0));
    try (by destruct Hit as [it Hit]; exists it). { by exists it. } { exists it. by destruct Hit as [Hit _]. }
Qed.

Lemma access_then {A} rc X type t n (K : answer_t → option A) :
  (access_step rc X type t n ≫= K) = (X ≫= λ r, K (rc, (get_row rc r type t).2, n, None)).
Proof. by destruct X. Qed.

Lemma unit_access g local t u rc n : unit_at unit_state g t u →
  run_txn_state c g local rc t n =
    (r ← unit_row c q u n;
     let t1 := (get_row rc r (unit_type c u) t).2 in
     Some (rc, if bool_decide (rc = RCOK) then set_state (got_state u) t1 else t1, n, None)).
Proof.
  intros Hu. destruct (unit_item _ g t u Hu) as (it&Hit'&Hit). destruct Hu as [Hs Hin Ht Hi Hn].
  unfold run_txn_state. rewrite Hit. cbn [mbind option_bind]. rewrite !wh_node_owner. cbn [mbind option_bind].
  rewrite Hs, (in_w _ Hin), (in_d _ Hin), (in_c _ Hin).
  destruct u; cbn [unit_state unit_row unit_type got_state unit_txn] in *;
    try destruct (in_pay _ Hin Ht) as (P1&P2&P3&P4&P5&P6); rewrite ?P1, ?P2, ?P3, ?P4, ?P5, ?P6; try subst it0;
    unfold item_node in Hn; rewrite ?Hn, ?Z.eqb_refl;
    rewrite access_then; (apply option_bind_ext; [intros r|done]); cbn [get_row snd]; (case_bool_decide as Hrc; [|done]);
    subst rc; rewrite !bool_decide_false by done; unfold next_tpcc_state; cbn; by rewrite Hs.
Qed.

Lemma insert_all_room l t : (length (insert_rows t) + length l ≤ MAX_ROW_PER_TXN)%nat →
  (length (insert_rows t) + length l ≤ g_max_items_per_txn c + 10)%nat →
  insert_all c l t = Some (mkT (query t) (state t) (next_item_id t) (row t) (last_row t) (partitions_touched t) (accesses t)
    (insert_rows t ++ l)).
Proof.
  revert t. induction l as [|i l IH]; intros t H1 H2; [cbn; rewrite app_nil_r; by destruct t|]. cbn [insert_all length] in *.
  unfold insert_row. rewrite !assert_bind_true by (apply bool_decide_eq_true; lia). cbn [mbind option_bind].
  rewrite IH by (cbn; rewrite length_app; cbn; lia). cbn. by rewrite <-app_assoc.
Qed.

Lemma unit_effect_inserts u amt oid r n n' o ins : unit_effect c q u amt oid r n = Some (n', o, ins) → length ins = unit_inserts u.
Proof.
  destruct u; cbn [unit_effect unit_inserts];
    unfold run_payment_1, run_payment_3, run_payment_5, new_order_1, new_order_3, new_order_5, new_order_7, new_order_9;
    intros H; inv_option; by simplify_eq.
Qed.

(** The manager after the unit. *)
Definition after_unit (local : bool) (u : tunit) (o : option Z) (ins : list insert_t) (t : TPCCTxnManager) : TPCCTxnManager :=
  let '(st, k) := unit_next local u (next_item_id t) (length (q_items t)) in
  mkT (mkTQ (q_in (query t)) (ol_amount (query t)) (default (o_id (query t)) o)) st k (row t) (last_row t) (partitions_touched t)
    (accesses t) (insert_rows t ++ ins).

Lemma unit_compute g local t u r rc n : unit_at got_state g t u → row t = Some r →
  (length (insert_rows t) + unit_inserts u ≤ MAX_ROW_PER_TXN)%nat →
  (length (insert_rows t) + unit_inserts u ≤ g_max_items_per_txn c + 10)%nat →
  run_txn_state c g local rc t n =
    ('(n, o, ins) ← unit_effect c q u (ol_amount (query t)) (o_id (query t)) r n;
     Some (RCOK, after_unit local u o ins t, n, None)).
Proof.
  intros Hu Hr H1 H2. destruct (unit_item _ g t u Hu) as (it&Hit'&Hit). destruct Hu as [Hs Hin Ht Hi Hn].
  pose proof (λ amt oid n n' o ins, unit_effect_inserts u amt oid r n n' o ins) as Hlen.
  unfold run_txn_state. rewrite Hit. cbn [mbind option_bind]. rewrite !wh_node_owner. cbn [mbind option_bind].
  rewrite Hs, (in_w _ Hin), (in_d _ Hin), (in_c _ Hin).
  transitivity ('(rc, t, n, out) ← compute_step c (unit_effect c q u (ol_amount (query t)) (o_id (query t))) t n;
    t ← (if bool_decide (rc = RCOK) then next_tpcc_state local t else Some t); Some (rc, t, n, out)).
  { destruct u; cbn [got_state unit_effect unit_txn] in *;
      try destruct (in_pay _ Hin Ht) as (P1&P2&P3&P4&P5&P6); rewrite ?P1, ?P2, ?P3, ?P4, ?P5, ?P6;
      try destruct (in_ord _ Hin Ht) as (Q1&Q2&Q3); rewrite ?Q1, ?Q2, ?Q3; try subst it0; try done.
    by destruct Hi as [_ ->]. }
  unfold compute_step. rewrite Hr. cbn [mbind option_bind].
  destruct (unit_effect c q u _ _ r n) as [[[n' o] ins]|] eqn:He; [|done]. cbn [mbind option_bind].
  rewrite insert_all_room by (cbn; rewrite (Hlen _ _ _ _ _ _ He); lia). cbn [mbind option_bind]. rewrite bool_decide_true by done.
  unfold next_tpcc_state, after_unit, after_item, is_done. cbn. rewrite Hs, (in_type _ Hin), Ht.
  destruct u; cbn; try done; rewrite orb_false_r; by destruct local, (bool_decide _).
Qed.

(** The managers and nodes have done what the reference has done. *)
Record sim (s : sys) (R : rstate) : Prop := {
  sim_acc : ∀ n, accesses (mgr s n) = r_acc R n;
  sim_ins : ∀ n, insert_rows (mgr s n) = r_ins R n;
  sim_oid : ∀ n, o_id (query (mgr s n)) = r_oid R n;
  sim_amt : ∀ n, ol_amount (query (mgr s n)) = amount n;
  sim_nodes : ∀ n, nodes s n = r_nodes R n;
  sim_turn : turn s ∈ partitions_touched (mgr s home);
  sim_touched : ∀ n, r_acc R n ≠ [] → n ∈ partitions_touched (mgr s home) }.

Record moved (local : bool) (u : tunit) (t t' : TPCCTxnManager) : Prop := {
  mo_in : q_in (query t') = q_in (query t);
  mo_touched : partitions_touched t' = partitions_touched t;
  mo_next : (state t', next_item_id t') = unit_next local u (next_item_id t) (length (q_items t)) }.

(** The manager of the turn is replaced. *)
Lemma sim_update s R t n acc ins oid : sim s R →
  accesses t = acc → insert_rows t = ins → o_id (query t) = oid → ol_amount (query t) = ol_amount (query (mgr s (turn s))) →
  partitions_touched t = partitions_touched (mgr s (turn s)) →
  sim (mkSys (turn s) (<[turn s := t]> (mgr s)) (<[turn s := n]> (nodes s)))
      (mkR (<[turn s := acc]> (r_acc R)) (<[turn s := ins]> (r_ins R)) (<[turn s := oid]> (r_oid R)) (<[turn s := n]> (r_nodes R))).
Proof.
  intros [H1 H2 H3 H4 H5 H6 H7] Ha Hi Ho Hm Ht.
  assert (partitions_touched (<[turn s := t]> (mgr s) home) = partitions_touched (mgr s home)) as Hth.
  { destruct (decide (turn s = home)) as [He|He]; [by rewrite <-He at 1 2; rewrite fn_lookup_insert, Ht, He|by rewrite fn_lookup_insert_ne]. }
  split; cbn; rewrite ?Hth; try done; intros m; (destruct (decide (turn s = m)) as [<-|Hne];
    [rewrite ?fn_lookup_insert|rewrite ?fn_lookup_insert_ne by done]); try done; try apply H4; try congruence.
  by apply H7.
Qed.

Lemma sim_ext s s' R R' : sim s R → turn s' = turn s → (∀ n, mgr s' n = mgr s n) → (∀ n, nodes s' n = nodes s n) →
  (∀ n, r_acc R' n = r_acc R n ∧ r_ins R' n = r_ins R n ∧ r_oid R' n = r_oid R n ∧ r_nodes R' n = r_nodes R n) → sim s' R'.
Proof.
  intros [H1 H2 H3 H4 H5 H6 H7] Ht Hm Hn HR. split; rewrite ?Ht, ?Hm; try done; intros n; destruct (HR n) as (E1&E2&E3&E4);
    rewrite ?Hm, ?Hn, ?E1, ?E2, ?E3, ?E4; done || by apply H7.
Qed.

(** Only fields the reference does not have are changed. *)
Lemma sim_replace s R t ns : sim s R → accesses t = accesses (mgr s (turn s)) → insert_rows t = insert_rows (mgr s (turn s)) →
  o_id (query t) = o_id (query (mgr s (turn s))) → ol_amount (query t) = ol_amount (query (mgr s (turn s))) →
  partitions_touched t = partitions_touched (mgr s (turn s)) → (∀ n, ns n = nodes s n) →
  sim (mkSys (turn s) (<[turn s := t]> (mgr s)) ns) R.
Proof.
  intros Hs Ha Hi Ho Hm Ht Hn. eapply sim_ext; [eapply (sim_update s R t (nodes s (turn s))); eauto|done|done|..].
  - intros n. cbn [nodes]. rewrite Hn. destruct (decide (turn s = n)) as [<-|Hne]; [by rewrite fn_lookup_insert|by rewrite fn_lookup_insert_ne].
  - intros n. cbn [r_acc r_ins r_oid r_nodes]. rewrite (sim_acc _ _ Hs), (sim_ins _ _ Hs), (sim_oid _ _ Hs), (sim_nodes _ _ Hs).
    destruct (decide (turn s = n)) as [<-|Hne]; [by rewrite !fn_lookup_insert|by rewrite !fn_lookup_insert_ne].
Qed.

(** After the access the row is there, with or without waiting. *)
Definition with_row (u : tunit) (r : nat) (t : TPCCTxnManager) : TPCCTxnManager :=
  mkT (query t) (got_state u) (next_item_id t) (Some r) (Some (r, unit_type c u)) (partitions_touched t)
    (accesses t ++ [(r, unit_type c u)]) (insert_rows t).

Lemma access_run s u r : unit_at unit_state (turn s) (mgr s (turn s)) u → unit_row c q u (nodes s (turn s)) = Some r →
  ans (turn s) (length (accesses (mgr s (turn s)))) ≠ Abort →
  ∀ f, run (S f) s =
    run f (mkSys (turn s) (<[turn s := with_row u r (mgr s (turn s))]> (mgr s)) (<[turn s := nodes s (turn s)]> (nodes s))).
Proof.
  intros Hu Hr Ha. destruct (Hans (turn s) (length (accesses (mgr s (turn s))))) as [Hrc|[Hrc|Hrc]]; [| |done].
  - intros f. cbn [TpccTxn.run]. unfold TpccTxn.sys_step.
    rewrite (unit_not_done _ _ _ _ Hu) by (by destruct u). cbn [mbind option_bind].
    rewrite unit_access with (u := u) by done. rewrite Hr, Hrc. cbn [mbind option_bind get_row snd].
    rewrite (bool_decide_true (RCOK = RCOK)), !bool_decide_false by done. done.
  - intros f. cbn [TpccTxn.run]. unfold TpccTxn.sys_step.
    rewrite (unit_not_done _ _ _ _ Hu) by (by destruct u). cbn [mbind option_bind].
    rewrite unit_access with (u := u) by done. rewrite Hr, Hrc. cbn [mbind option_bind get_row snd].
    rewrite (bool_decide_false (WAIT = RCOK)), (bool_decide_false (WAIT = Abort)), bool_decide_true by done. cbn [orb].
    unfold run_txn_post_wait, get_row_post_wait. cbn [no_row last_row mbind option_bind].
    unfold next_tpcc_state. cbn [got_row no_row state]. rewrite (ua_state _ _ _ _ Hu).
    destruct u; cbn [unit_state mbind option_bind]; unfold run_txn; cbn [set_state state];
      rewrite !bool_decide_false, andb_false_r by done; done.
Qed.

Lemma unit_at_got g u r t : unit_at unit_state g t u → unit_at got_state g (with_row u r t) u.
Proof. intros [H1 H2 H3 H4 H5]. by split. Qed.

Lemma refused_run s R u : sim s R → unit_at unit_state (turn s) (mgr s (turn s)) u → is_Some (unit_row c q u (nodes s (turn s))) →
  ans (turn s) (length (accesses (mgr s (turn s)))) = Abort →
  ∃ s', (∀ f, run (S f) s = Some (Abort, s')) ∧ sim s' R.
Proof.
  intros Hsim Hu [r Hr] Ha. eexists. split.
  - intros f. cbn [TpccTxn.run]. unfold TpccTxn.sys_step. rewrite (unit_not_done _ _ _ _ Hu) by (by destruct u). cbn [mbind option_bind].
    rewrite unit_access with (u := u) by done. rewrite Hr, Ha. cbn [mbind option_bind get_row snd].
    rewrite (bool_decide_true (Abort = Abort)), (bool_decide_false (Abort = RCOK)) by done. cbn [orb]. reflexivity.
  - apply sim_replace; try done. intros n.
    destruct (decide (turn s = n)) as [<-|Hne]; [by rewrite fn_lookup_insert|by rewrite fn_lookup_insert_ne].
Qed.

Definition room (l : list insert_t) (k : nat) : Prop :=
  (length l + k ≤ MAX_ROW_PER_TXN)%nat ∧ (length l + k ≤ g_max_items_per_txn c + 10)%nat.

Lemma unit_run s R u rc R' : sim s R → unit_at unit_state (turn s) (mgr s (turn s)) u → room (r_ins R (turn s)) (unit_inserts u) →
  do_unit (turn s, u) R = Some (rc, R') →
  (rc = Abort ∧ ∃ s', (∀ f, run (S f) s = Some (Abort, s')) ∧ sim s' R') ∨
  (rc = RCOK ∧ ∃ s', (∀ f, run (S (S f)) s = run f s') ∧ sim s' R' ∧ turn s' = turn s ∧
    (∀ n, n ≠ turn s → mgr s' n = mgr s n) ∧ moved (turn s =? home) u (mgr s (turn s)) (mgr s' (turn s))).
Proof.
  intros Hsim Hu [Hroom1 Hroom2] Hd. unfold TpccTxn.do_unit in Hd. pose proof Hsim as [H1 H2 H3 H4 H5 H6 H7].
  rewrite <-H1, <-H5 in Hd. destruct (unit_row c q u (nodes s (turn s))) as [r|] eqn:Hr; [|done]. cbn [mbind option_bind] in Hd.
  case_bool_decide as Ha.
  { injection Hd as <- <-. left. split; [done|]. eapply refused_run; eauto. }
  rewrite <-H3, <-H4 in Hd. destruct (unit_effect c q u _ _ r (nodes s (turn s))) as [[[n o] ins]|] eqn:He; [|done]. cbn [mbind option_bind] in Hd.
  injection Hd as <- <-. right. split; [done|]. pose proof (access_run s u r Hu Hr Ha) as Hl.
  pose proof (unit_effect_inserts _ _ _ _ _ _ _ _ He) as Hlen.
  set (t1 := with_row u r (mgr s (turn s))) in *. pose proof (unit_at_got _ _ r _ Hu) as Hu1. fold t1 in Hu1.
  eexists. split_and!.
  - intros f. rewrite Hl. cbn [TpccTxn.run]. unfold TpccTxn.sys_step. cbn [turn mgr nodes]. rewrite !fn_lookup_insert.
    rewrite (unit_not_done _ _ _ _ Hu1) by (by destruct u). cbn [mbind option_bind].
    rewrite (unit_compute _ _ _ _ r) by (done || (cbn; rewrite H2; done)). cbn [t1 with_row query]. rewrite He. cbn [mbind option_bind].
    reflexivity.
  - eapply sim_ext; [eapply (sim_update s R (after_unit (turn s =? home) u o ins t1) n)|done|..]; try done;
      try (unfold after_unit; by destruct (unit_next _ _ _ _)); intros m; cbn [mgr nodes r_acc r_ins r_oid r_nodes];
      (destruct (decide (turn s = m)) as [<-|Hne]; [rewrite ?fn_lookup_insert|rewrite ?fn_lookup_insert_ne by done]); try done;
      unfold after_unit; destruct (unit_next _ _ _ _); cbn; by rewrite ?H1, ?H2, ?H3.
  - done.
  - intros m Hm. cbn [mgr]. by rewrite !fn_lookup_insert_ne.
  - cbn [mgr]. rewrite fn_lookup_insert. unfold after_unit. cbn [next_item_id t1 with_row q_items query].
    destruct (unit_next _ _ _ _) eqn:Hn. by split.
Qed.

(** From [s], within [b] steps, the execution aborts or is at a state with [P]; either way
    it has done what the reference has done. *)
Definition goes (s : sys) (b : nat) (rc : RC) (R : rstate) (P : sys → Prop) : Prop :=
  ∃ s' k, (k ≤ b)%nat ∧ sim s' R ∧
    ((rc = Abort ∧ ∀ f, run (k + f) s = Some (Abort, s')) ∨ (rc = RCOK ∧ (∀ f, run (k + f) s = run f s') ∧ P s')).

Lemma goes_step s s1 b rc R P : (∀ f, run (S f) s = run f s1) → goes s1 b rc R P → goes s (S b) rc R P.
Proof.
  intros Hs (s'&k&Hk&Hsim&[[-> Hr]|(->&Hr&HP)]); exists s', (S k); (split; [lia|]); (split; [done|]); [left|right]; split; try done.
  - intros f. cbn [Nat.add]. by rewrite Hs.
  - split; [|done]. intros f. cbn [Nat.add]. by rewrite Hs.
Qed.

Lemma goes_here s R (P : sys → Prop) : sim s R → P s → goes s 0 RCOK R P.
Proof. intros Hs HP. exists s, 0%nat. split; [lia|]. split; [done|]. by right. Qed.

Lemma goes_mono s b b' rc R P (Q : sys → Prop) : goes s b rc R P → (b ≤ b')%nat → (∀ s', P s' → Q s') → goes s b' rc R Q.
Proof. intros (s'&k&Hk&Hsim&H) Hb HPQ. exists s', k. split; [lia|]. split; [done|]. naive_solver. Qed.

Lemma goes_bind s b b' rc1 R1 X rc R' (P Q : sys → Prop) : goes s b rc1 R1 P →
  (∀ s1, rc1 = RCOK → sim s1 R1 → P s1 → X = Some (rc, R') → goes s1 b' rc R' Q) →
  (if bool_decide (rc1 = RCOK) then X else Some (rc1, R1)) = Some (rc, R') → goes s (b + b') rc R' Q.
Proof.
  intros (s1&k&Hk&Hsim&[[-> Hr]|(->&Hr&HP)]) H2 Hd.
  - rewrite bool_decide_false in Hd by done. injection Hd as <- <-. exists s1, k. split; [lia|]. split; [done|]. by left.
  - rewrite bool_decide_true in Hd by done. destruct (H2 s1 eq_refl Hsim HP Hd) as (s2&k2&Hk2&Hsim2&Hcase).
    exists s2, (k + k2)%nat. split; [lia|]. split; [done|]. destruct Hcase as [[-> Hr2]|(->&Hr2&HQ)]; [left|right]; (split; [done|]).
    + intros f. by rewrite <-Nat.add_assoc, Hr.
    + split; [|done]. intros f. by rewrite <-Nat.add_assoc, Hr.
Qed.

Lemma goes_units s gu l R b b' rc R' (P Q : sys → Prop) :
  (∀ rc1 R1, do_unit gu R = Some (rc1, R1) → goes s b rc1 R1 P) →
  (∀ s1 R1, do_unit gu R = Some (RCOK, R1) → sim s1 R1 → P s1 → do_units l R1 = Some (rc, R') → goes s1 b' rc R' Q) →
  do_units (gu :: l) R = Some (rc, R') → goes s (b + b') rc R' Q.
Proof.
  intros H1 H2. cbn [TpccTxn.do_units]. destruct (do_unit gu R) as [[rc1 R1]|] eqn:Hu; [|done]. cbn [mbind option_bind].
  apply (goes_bind _ _ _ _ _ _ _ _ P); [by apply H1|]. intros s1 ->. by apply H2.
Qed.

Lemma goes_app s l l' R b b' rc R' (P Q : sys → Prop) :
  (∀ rc1 R1, do_units l R = Some (rc1, R1) → goes s b rc1 R1 P) →
  (∀ s1 R1, do_units l R = Some (RCOK, R1) → sim s1 R1 → P s1 → do_units l' R1 = Some (rc, R') → goes s1 b' rc R' Q) →
  do_units (l ++ l') R = Some (rc, R') → goes s (b + b') rc R' Q.
Proof.
  intros H1 H2. rewrite do_units_app. destruct (do_units l R) as [[rc1 R1]|] eqn:Hu; [|done]. cbn [mbind option_bind].
  apply (goes_bind _ _ _ _ _ _ _ _ P); [by apply H1|]. intros s1 ->. by apply H2.
Qed.

Lemma goes_then s b b' rc R (P Q : sys → Prop) : goes s b rc R P → (∀ s1, sim s1 R → P s1 → goes s1 b' RCOK R Q) → goes s (b + b') rc R Q.
Proof.
  intros H1 H2. apply (goes_bind s b b' rc R (Some (rc, R)) rc R P Q H1); [|by case_bool_decide].
  intros s1 -> Hs1 HP _. by apply H2.
Qed.

(** What a unit leaves of the other managers. *)
Record unit_done (s s' : sys) (u : tunit) : Prop := {
  ud_turn : turn s' = turn s;
  ud_others : ∀ n, n ≠ turn s → mgr s' n = mgr s n;
  ud_moved : moved (turn s =? home) u (mgr s (turn s)) (mgr s' (turn s)) }.

Lemma unit_goes s R u rc R' : sim s R → unit_at unit_state (turn s) (mgr s (turn s)) u → room (r_ins R (turn s)) (unit_inserts u) →
  do_unit (turn s, u) R = Some (rc, R') → goes s 2 rc R' (λ s', unit_done s s' u).
Proof.
  intros Hs Hu Hr Hd. destruct (unit_run s R u rc R' Hs Hu Hr Hd) as [(->&s'&Hrun&Hs')|(->&s'&Hrun&Hs'&H1&H2&H3)].
  - exists s', 1%nat. split; [lia|]. split; [done|]. by left.
  - exists s', 2%nat. split; [lia|]. split; [done|]. right. split; [done|]. split; [exact Hrun|]. by split.
Qed.

(** At most this many rows are inserted. *)
Lemma do_unit_inserts g u R R' n : do_unit (g, u) R = Some (RCOK, R') →
  (length (r_ins R' n) ≤ length (r_ins R n) + if decide (n = g) then unit_inserts u else 0)%nat.
Proof.
  unfold TpccTxn.do_unit. destruct (unit_row c q u (r_nodes R g)) as [r|]; [|done]. cbn [mbind option_bind]. case_bool_decide; [done|].
  destruct (unit_effect c q u _ _ r _) as [[[m o] ins]|] eqn:He; [|done]. cbn [mbind option_bind]. intros [= <-]. cbn [r_ins].
  pose proof (unit_effect_inserts _ _ _ _ _ _ _ _ He) as Hlen.
  case_decide as Hm; [subst n; rewrite fn_lookup_insert, length_app; lia|]. rewrite fn_lookup_insert_ne by done. lia.
Qed.

(** *** Messages and returns *)

Lemma touch_mem x n t : x ∈ partitions_touched (touch n t) ↔ x = n ∨ x ∈ partitions_touched t.
Proof. cbn. unfold TwoPC.add_unique. case_bool_decide; set_solver. Qed.

(** A message moves the turn and touches its destination. *)
Lemma sim_turn_to s s1 R : sim s R → (∀ m, accesses (mgr s1 m) = accesses (mgr s m) ∧ insert_rows (mgr s1 m) = insert_rows (mgr s m) ∧
    o_id (query (mgr s1 m)) = o_id (query (mgr s m)) ∧ ol_amount (query (mgr s1 m)) = ol_amount (query (mgr s m)) ∧ nodes s1 m = nodes s m) →
  (∀ x, x = turn s1 ∨ x ∈ partitions_touched (mgr s home) → x ∈ partitions_touched (mgr s1 home)) → sim s1 R.
Proof.
  intros [H1 H2 H3 H4 H5 H6 H7] Hm Ht. split; try (intros n; destruct (Hm n) as (E1&E2&E3&E4&E5); congruence); auto.
Qed.

(** A remote manager that is done answers, and the home node goes on. *)
Lemma return_run s : turn s ≠ home → is_done (mgr s (turn s)) = Some true →
  state (mgr s home) ≠ TPCC_PAYMENT0 → state (mgr s home) ≠ TPCC_NEWORDER0 →
  ∃ s1, (∀ f, run (S f) s = run f s1) ∧ turn s1 = home ∧ (∀ m, mgr s1 m = mgr s m) ∧ nodes s1 = nodes s.
Proof.
  intros Ht Hd H1 H2. eexists. split; [|split_and!].
  - intros f. cbn [TpccTxn.run]. unfold TpccTxn.sys_step. rewrite Hd. cbn [mbind option_bind].
    rewrite (proj2 (Z.eqb_neq _ _) Ht). reflexivity.
  - done.
  - intros m. cbn [mgr]. unfold run_txn. rewrite !bool_decide_false by done. cbn [andb orb].
    destruct (decide (home = m)) as [<-|Hne]; [by rewrite fn_lookup_insert|by rewrite fn_lookup_insert_ne].
  - done.
Qed.

Lemma return_goes s R : sim s R → turn s ≠ home → is_done (mgr s (turn s)) = Some true →
  state (mgr s home) ≠ TPCC_PAYMENT0 → state (mgr s home) ≠ TPCC_NEWORDER0 → home ∈ partitions_touched (mgr s home) →
  goes s 1 RCOK R (λ s', turn s' = home ∧ ∀ m, mgr s' m = mgr s m).
Proof.
  intros Hs Ht Hd H1 H2 Hh. destruct (return_run s Ht Hd H1 H2) as (s1&Hr&E1&E2&E3). eapply goes_step; [done|].
  apply goes_here; [|done]. eapply sim_turn_to; [done|intros m; by rewrite E2, E3|]. rewrite E1, E2. naive_solver.
Qed.

Definition at_end (s : sys) : Prop := turn s = home ∧ is_done (mgr s home) = Some true.

(** ** New orders *)

Section order.
Context (Hord : txn_type q = TPCC_NEW_ORDER).

(** *** Another node serves a run of items *)

Fixpoint serve_plan (n : Z) (j : nat) (its : list Item_no) : list (Z * tunit) :=
  match its with [] => [] | it :: its => (n, OrdItem it) :: (n, OrdStock j it) :: serve_plan n (S j) its end.

(** The manager of the turn is before item [j], and [its] are left. *)
Record serving (j : nat) (its : list Item_no) (s : sys) : Prop := {
  sv_in : input_ok (q_in (query (mgr s (turn s))));
  sv_next : next_item_id (mgr s (turn s)) = j;
  sv_its : drop j (q_items (mgr s (turn s))) = its;
  sv_len : length (q_items (mgr s (turn s))) = (j + length its)%nat }.

Lemma serving_lookup j it its s : serving j (it :: its) s → q_items (mgr s (turn s)) !! next_item_id (mgr s (turn s)) = Some it.
Proof. intros [_ -> Hd _]. apply (f_equal head) in Hd. by rewrite head_lookup, lookup_drop, Nat.add_0_r in Hd. Qed.

(** The unit of the stock of the item. *)
Lemma stock_goes s R j it its rc R' : sim s R → serving j (it :: its) s → state (mgr s (turn s)) = TPCC_NEWORDER8 →
  item_node it = turn s → room (r_ins R (turn s)) 1 → do_unit (turn s, OrdStock j it) R = Some (rc, R') →
  goes s 2 rc R' (λ s', serving (S j) its s' ∧ turn s' = turn s ∧ (∀ n, n ≠ turn s → mgr s' n = mgr s n) ∧
    q_items (mgr s' (turn s)) = q_items (mgr s (turn s)) ∧ partitions_touched (mgr s' (turn s)) = partitions_touched (mgr s (turn s)) ∧
    (its ≠ [] ∨ turn s ≠ home → state (mgr s' (turn s)) = TPCC_NEWORDER6)).
Proof.
  intros Hs Hsv Hst Hn Hroom Hd. pose proof (serving_lookup _ _ _ _ Hsv) as Hit. destruct Hsv as [S1 S2 S3 S4].
  eapply goes_mono; [eapply (unit_goes s R (OrdStock j it)); [done| |done|done]|done|].
  - split; [done|done|done| |done]. split; [done|congruence].
  - intros s' [U1 U2 [M1 M2 M3]]. cbn [unit_next] in M3. rewrite S2, S4 in M3. injection M3 as M3 M4.
    assert (q_items (mgr s' (turn s)) = q_items (mgr s (turn s))) as Hq by (unfold q_items; by rewrite M1).
    split_and!; try done.
    + split; rewrite U1, ?Hq, ?M1; try done.
      * replace (S j) with (j + 1)%nat by lia. by rewrite <-drop_drop, S3.
      * rewrite S4. cbn. lia.
    + intros Hcase. rewrite M3. destruct Hcase as [Hne|Hne].
      * rewrite bool_decide_false by (destruct its; [done|cbn; lia]). by rewrite orb_true_r.
      * by rewrite (proj2 (Z.eqb_neq _ _) Hne).
Qed.

Lemma item_goes s R j it its rc R' : sim s R → serving j (it :: its) s → state (mgr s (turn s)) = TPCC_NEWORDER6 →
  room (r_ins R (turn s)) 0 → do_unit (turn s, OrdItem it) R = Some (rc, R') →
  goes s 2 rc R' (λ s', serving j (it :: its) s' ∧ turn s' = turn s ∧ (∀ n, n ≠ turn s → mgr s' n = mgr s n) ∧
    q_items (mgr s' (turn s)) = q_items (mgr s (turn s)) ∧ partitions_touched (mgr s' (turn s)) = partitions_touched (mgr s (turn s)) ∧
    state (mgr s' (turn s)) = TPCC_NEWORDER8).
Proof.
  intros Hs Hsv Hst Hroom Hd. pose proof (serving_lookup _ _ _ _ Hsv) as Hit. destruct Hsv as [S1 S2 S3 S4].
  eapply goes_mono; [eapply (unit_goes s R (OrdItem it)); [done| |done|done]|done|].
  - by split.
  - intros s' [U1 U2 [M1 M2 M3]]. cbn [unit_next] in M3. injection M3 as M3 M4.
    assert (q_items (mgr s' (turn s)) = q_items (mgr s (turn s))) as Hq by (unfold q_items; by rewrite M1).
    split_and!; try done. split; rewrite U1, ?Hq, ?M1; try done. congruence.
Qed.

Lemma room_S l k : room l (S k) → room l 1.
Proof. unfold room. lia. Qed.

Lemma room_after g u R R' n k : do_unit (g, u) R = Some (RCOK, R') → room (r_ins R n) (unit_inserts u + k) → room (r_ins R' n) k.
Proof. intros Hd%(do_unit_inserts _ _ _ _ n) Hr. unfold room in *. case_decide; lia. Qed.

Lemma serve_items its : ∀ s R j rc R', sim s R → turn s ≠ home → serving j its s → (its ≠ [] → state (mgr s (turn s)) = TPCC_NEWORDER6) →
  room (r_ins R (turn s)) (length its) → Forall (λ it, item_node it = turn s) its → do_units (serve_plan (turn s) j its) R = Some (rc, R') →
  goes s (4 * length its) rc R' (λ s', serving (j + length its) [] s' ∧ turn s' = turn s ∧ (∀ n, n ≠ turn s → mgr s' n = mgr s n) ∧
    q_items (mgr s' (turn s)) = q_items (mgr s (turn s))).
Proof.
  induction its as [|it its IH]; intros s R j rc R' Hs Hh Hsv Hst Hroom Hn Hd.
  { injection Hd as <- <-. apply goes_here; [done|]. rewrite Nat.add_0_r. done. }
  apply Forall_cons in Hn as [Hn Hns]. cbn [serve_plan length] in *.
  replace (4 * S (length its))%nat with (2 + (2 + 4 * length its))%nat by lia.
  revert Hd. eapply goes_units.
  - intros rc1 R1 H1. apply (item_goes s R j it its); [done|done|by apply Hst|unfold room in *; lia|done].
  - intros s1 R1 H1 Hs1 (V1&V2&V3&V4&_&V5). pose proof (room_after _ _ _ _ (turn s) (S (length its)) H1 Hroom) as Hroom1.
    rewrite <-V2. eapply goes_units.
    + intros rc2 R2 H2. apply (stock_goes s1 R1 j it its); [done|done|by rewrite V2|congruence|rewrite V2; by eapply room_S|done].
    + intros s2 R2 H2 Hs2 (W1&W2&W3&W4&_&W5). rewrite V2 in W2, W3, W4, W5, H2.
      pose proof (room_after _ _ _ _ (turn s) (length its) H2 Hroom1) as Hroom2. rewrite V2, <-W2. intros H3.
      eapply goes_mono; [eapply (IH s2 R2 (S j))|done|]; try done; try (rewrite W2; done); try congruence.
      * intros _. rewrite W2. apply W5. by right.
      * intros s' (X1&X2&X3&X4). rewrite Nat.add_succ_r. split_and!; [done|congruence| |congruence].
        intros n Hne. rewrite X3, W3, V3 by congruence. done.
Qed.

(** *** A message with items *)

(** The items of a message are the next ones that belong to its destination. *)
Lemma remote_items_run n l : n ≠ home → ∃ its rest, l = its ++ rest ∧ remote_items c home n l = Some its ∧
  Forall (λ it, item_node it = n) its ∧ (∀ it rest', rest = it :: rest' → item_node it ≠ n).
Proof.
  intros Hn. induction l as [|it l (its&rest&->&Hr&Hf&Hd)]; [by exists [], []|].
  cbn [remote_items]. rewrite wh_node_owner. cbn [mbind option_bind]. destruct (decide (item_node it = n)) as [He|He].
  - exists (it :: its), rest. split; [done|]. rewrite Hr. unfold TpccTxn.item_node in He. rewrite He.
    rewrite (proj2 (Z.eqb_neq _ _) Hn), Z.eqb_refl. split; [done|]. split; [|done]. by constructor.
  - exists [], (it :: its ++ rest). split; [done|]. unfold TpccTxn.item_node in He. rewrite (proj2 (Z.eqb_neq _ n) He), andb_false_r.
    split; [done|]. split; [done|]. intros it' r' [= -> _]. done.
Qed.

(** The manager of the destination, and of the home node, after the message. *)
Record sent (n : Z) (its : list Item_no) (s s1 : sys) : Prop := {
  se_turn : turn s1 = n;
  se_home : mgr s1 home = set_state TPCC_NEWORDER6 (touch n (set_next (next_item_id (mgr s home) + length its) (mgr s home)));
  se_others : ∀ m, m ≠ n → m ≠ home → mgr s1 m = mgr s m;
  se_in : input_ok (q_in (query (mgr s1 n)));
  se_items : q_items (mgr s1 n) = q_items (mgr s n) ++ its;
  se_next : next_item_id (mgr s1 n) = next_item_id (mgr s n);
  se_state : state (mgr s1 n) = TPCC_NEWORDER8 }.

Lemma send_items rc t n it its : input_ok (q_in (query t)) → state t = TPCC_NEWORDER8 → q_items t !! next_item_id t = Some it →
  is_done t = Some false → item_node it ≠ home → remote_items c home (item_node it) (drop (next_item_id t) (q_items t)) = Some its →
  run_txn_state c home true rc t n =
    Some (WAIT_REM, set_state TPCC_NEWORDER6 (touch (item_node it) (set_next (next_item_id t + length its) t)), n,
      Some (item_node it, (TPCC_NEWORDER8, set_items its (q_in (query t))))).
Proof.
  intros Hin Hst Hit Hnd Hn Hr. unfold run_txn_state, send_step, send_remote_request, copy_from_txn.
  rewrite (in_type _ Hin), Hord. change (TPCC_NEW_ORDER =? TPCC_NEW_ORDER) with true. cbn iota.
  rewrite Hit, !wh_node_owner, Hst, assert_bind_true, Hnd by done. cbn [mbind option_bind]. rewrite wh_node_owner. cbn [mbind option_bind].
  fold (item_node it). by rewrite (proj2 (Z.eqb_neq _ _) Hn), Hr.
Qed.

(** The message at its destination. *)
Lemma copy_items m its t : input_ok m → (length (q_items t) + length its ≤ g_max_items_per_txn c)%nat →
  ∃ p, copy_to_txn c (TPCC_NEWORDER8, set_items its m) t = Some p ∧ input_ok (q_in (query p)) ∧ q_items p = q_items t ++ its ∧
    next_item_id p = next_item_id t ∧ state p = TPCC_NEWORDER8 ∧ accesses p = accesses t ∧ insert_rows p = insert_rows t ∧
    o_id (query p) = o_id (query t) ∧ ol_amount (query p) = ol_amount (query t).
Proof.
  intros Hin Hcap. unfold copy_to_txn, append_items. cbn [set_items txn_type items]. rewrite (in_type _ Hin), Hord.
  change (TPCC_NEW_ORDER =? TPCC_NEW_ORDER) with true. change (TPCC_NEW_ORDER =? TPCC_PAYMENT) with false. cbn iota.
  rewrite assert_bind_true by (by apply bool_decide_eq_true). eexists. split; [reflexivity|]. split; [|done].
  destruct Hin as [I1 I2 I3 I4 I5 I6]. split; cbn; try done. intros Hp. by rewrite Hord in Hp.
Qed.

Lemma send_run s R k it l its : sim s R → turn s = home → serving k (it :: l) s → state (mgr s home) = TPCC_NEWORDER8 →
  item_node it ≠ home → remote_items c home (item_node it) (it :: l) = Some its →
  (length (q_items (mgr s (item_node it))) + length its ≤ g_max_items_per_txn c)%nat →
  ∃ s1, (∀ f, run (S f) s = run f s1) ∧ sim s1 R ∧ sent (item_node it) its s s1.
Proof.
  intros Hs Ht Hsv Hst Hn Hr Hcap. pose proof (serving_lookup _ _ _ _ Hsv) as Hit. destruct Hsv as [S1 S2 S3 S4].
  rewrite Ht in *. set (n := item_node it) in *.
  assert (is_done (mgr s home) = Some false) as Hnd.
  { unfold is_done. rewrite (in_type _ S1), Hord, Hst. cbn. f_equal. rewrite orb_false_r. apply bool_decide_eq_false. rewrite S2, S4. cbn. lia. }
  rewrite <-S3, <-S2 in Hr. destruct (copy_items _ its (mgr s n) S1 Hcap) as (p&Hp&P1&P2&P3&P4&P5&P6&P7&P8).
  set (t := set_state TPCC_NEWORDER6 (touch n (set_next (next_item_id (mgr s home) + length its) (mgr s home)))).
  exists (mkSys n (<[n := p]> (<[home := t]> (mgr s))) (<[home := nodes s home]> (nodes s))). split_and!.
  - intros f. cbn [TpccTxn.run]. unfold TpccTxn.sys_step. rewrite Ht, Hnd, Z.eqb_refl. cbn [mbind option_bind].
    rewrite (send_items _ _ _ it its) by done. cbn [mbind option_bind]. rewrite assert_bind_true by (apply negb_true_iff, Z.eqb_neq; done).
    rewrite fn_lookup_insert_ne by done. fold n. by rewrite Hp.
  - eapply sim_turn_to; [done|..]; cbn [mgr nodes turn].
    + intros m. destruct (decide (n = m)) as [<-|Hne]; [rewrite fn_lookup_insert, fn_lookup_insert_ne by done; done|].
      rewrite fn_lookup_insert_ne by done. destruct (decide (home = m)) as [<-|Hne']; [by rewrite !fn_lookup_insert|].
      by rewrite !fn_lookup_insert_ne.
    + intros x Hx. rewrite fn_lookup_insert_ne, fn_lookup_insert by done. apply touch_mem. naive_solver.
  - split; cbn [mgr turn]; rewrite ?fn_lookup_insert; try done.
    + by rewrite fn_lookup_insert_ne, fn_lookup_insert by done.
    + intros m Hm Hh. by rewrite !fn_lookup_insert_ne by done.
Qed.

(** *** All items *)

Lemma item_plan_prev n k cnt l : (∀ it l', l = it :: l' → item_node it ≠ n) →
  item_plan c home k cnt (Some n) l = item_plan c home k cnt None l.
Proof.
  destruct l as [|it l]; intros Hl; [done|]. cbn [item_plan]. pose proof (Hl it l eq_refl).
  case_decide; [done|]. rewrite !decide_False by congruence. done.
Qed.

(** The items of a message are a part of the plan. *)
Lemma item_plan_run n its rest : ∀ k cnt, n ≠ home → Forall (λ it, item_node it = n) its →
  (∀ it l', rest = it :: l' → item_node it ≠ n) → ∃ cnt',
  cnt' n = (cnt n + length its)%nat ∧ (∀ m, m ≠ n → cnt' m = cnt m) ∧
  item_plan c home k cnt (Some n) (its ++ rest) = serve_plan n (cnt n) its ++ item_plan c home (k + length its) cnt' None rest.
Proof.
  intros k cnt Hn Hf Hr. revert k cnt. induction Hf as [|it its Hit Hf IH]; intros k cnt.
  { exists cnt. rewrite !Nat.add_0_r. split; [done|]. split; [done|]. by apply item_plan_prev. }
  destruct (IH (S k) (<[n := S (cnt n)]> cnt)) as (cnt'&C1&C2&C3). exists cnt'. cbn [app item_plan length serve_plan]. rewrite Hit.
  rewrite (decide_False (P := n = home)), decide_True by done. rewrite C3, C1, fn_lookup_insert. split; [lia|]. split.
  - intros m Hm. by rewrite C2, fn_lookup_insert_ne.
  - by rewrite Nat.add_succ_r.
Qed.

Lemma serve_inserts n its : ∀ j R R', do_units (serve_plan n j its) R = Some (RCOK, R') →
  ∀ m, (length (r_ins R' m) ≤ length (r_ins R m) + length its)%nat.
Proof.
  induction its as [|it its IH]; intros j R R' Hd m; [injection Hd as <-; cbn; lia|]. cbn [serve_plan TpccTxn.do_units] in Hd.
  destruct (do_unit (n, OrdItem it) R) as [[rc1 R1]|] eqn:H1; [|done]. cbn [mbind option_bind] in Hd. case_bool_decide; [subst rc1|congruence].
  destruct (do_unit (n, OrdStock j it) R1) as [[rc2 R2]|] eqn:H2; [|done]. cbn [mbind option_bind] in Hd. case_bool_decide; [subst rc2|congruence].
  pose proof (do_unit_inserts _ _ _ _ m H1). pose proof (do_unit_inserts _ _ _ _ m H2). specialize (IH _ _ _ Hd m).
  cbn [length]. repeat case_decide; cbn in *; lia.
Qed.

(** The home node is before item [k]; [cnt n] items were served by node [n]. *)
Record at_item (k : nat) (cnt : Z → nat) (l : list Item_no) (s : sys) : Prop := {
  at_turn : turn s = home;
  at_home : serving k l s;
  at_state : l ≠ [] → state (mgr s home) = TPCC_NEWORDER6;
  at_cnt : ∀ n, n ≠ home → next_item_id (mgr s n) = cnt n ∧ length (q_items (mgr s n)) = cnt n ∧ (cnt n ≤ k)%nat }.

Lemma serving_done j s : serving j [] s → is_done (mgr s (turn s)) = Some true.
Proof.
  intros [S1 S2 S3 S4]. unfold is_done. rewrite (in_type _ S1), Hord. cbn. rewrite bool_decide_true; [done|]. rewrite S2, S4. cbn. lia.
Qed.

(** The manager of the destination serves the items of the message. *)
Lemma sent_serving s s1 k n its : sent n its s s1 → next_item_id (mgr s n) = k → length (q_items (mgr s n)) = k → serving k its s1.
Proof.
  intros [E1 E2 E3 E4 E5 E6 E7] Hk Hl. split; rewrite E1; [done|congruence|rewrite E5; by apply drop_app_length'|].
  rewrite E5, length_app. lia.
Qed.

(** The home node after the answer. *)
Lemma back_home s s1 s2 k n its rest : turn s = home → n ≠ home → serving k (its ++ rest) s → sent n its s s1 →
  turn s2 = home → mgr s2 home = mgr s1 home → serving (k + length its) rest s2.
Proof.
  intros Ht Hn [S1 S2 S3 S4] [E1 E2 E3 E4 E5 E6 E7] Ht2 Hm. rewrite Ht in *.
  split; rewrite Ht2, Hm, E2; cbn [set_state touch set_next query next_item_id]; try done.
  - congruence.
  - change (drop (k + length its) (q_items (mgr s home)) = rest). by rewrite <-drop_drop, S3, drop_app_length.
  - change (length (q_items (mgr s home)) = (k + length its + length rest)%nat). rewrite S4, length_app. lia.
Qed.

Lemma remote_block s R k cnt cnt' it its rest rc R' (n := item_node it) : sim s R → turn s = home → serving k (it :: its ++ rest) s →
  state (mgr s home) = TPCC_NEWORDER8 →
  (∀ m, m ≠ home → next_item_id (mgr s m) = cnt m ∧ length (q_items (mgr s m)) = cnt m ∧ (cnt m ≤ k)%nat) →
  n ≠ home → Forall (λ it, item_node it = n) its → remote_items c home n (it :: its ++ rest) = Some (it :: its) →
  (k + S (length its) ≤ g_max_items_per_txn c)%nat → room (r_ins R n) (S (length its)) →
  cnt' n = (S (cnt n) + length its)%nat → (∀ m, m ≠ n → cnt' m = cnt m) → home ∈ partitions_touched (mgr s home) →
  do_units ((n, OrdStock (cnt n) it) :: serve_plan n (S (cnt n)) its) R = Some (rc, R') →
  goes s (4 * S (length its)) rc R' (at_item (k + S (length its)) cnt' rest).
Proof.
  intros Hs Ht Hsv Hst Hcnt Hn Hf Hri Hcap Hroom Hc1 Hc2 Hhome Hd. destruct (Hcnt n Hn) as (N1&N2&N3).
  destruct (send_run s R k it (its ++ rest) (it :: its)) as (s1&Hr&Hs1&Hsent); [done..|fold n; cbn [length]; lia|]. fold n in Hsent.
  pose proof (sent_serving _ _ _ _ _ Hsent N1 N2) as Hsv1. pose proof Hsent as [E1 E2 E3 E4 E5 E6 E7].
  replace (4 * S (length its))%nat with (S (2 + (4 * length its + 1)))%nat by lia. eapply goes_step; [done|].
  revert Hd. rewrite <-E1 in Hroom, Hf, Hn |- *. eapply goes_units.
  - intros rc1 R1 H1. apply (stock_goes s1 R (cnt (turn s1)) it its); try done; [by rewrite E1..|by eapply room_S].
  - intros s2 R2 H2 Hs2 (W1&W2&W3&W4&_&W5) Hd. rewrite <-W2 in Hd, W1. eapply goes_then.
    + eapply serve_items; [done|by rewrite W2|done|..|done]; try (by rewrite W2).
      * intros _. rewrite W2. apply W5. by right.
      * rewrite W2. by eapply room_after.
    + intros s3 Hs3 (X1&X2&X3&X4). rewrite W2 in X1, X2, X3, X4.
      assert (mgr s3 home = mgr s1 home) as Hh by (rewrite X3, W3; done).
      eapply goes_mono; [apply return_goes; try done|done|].
      * congruence.
      * by eapply serving_done.
      * by rewrite Hh, E2.
      * by rewrite Hh, E2.
      * rewrite Hh, E2. cbn [set_state partitions_touched]. apply touch_mem. by right.
      * intros s4 (Y1&Y2). split; [done| |by rewrite Y2, Hh, E2|].
        -- eapply (back_home s s1 s4 k n (it :: its) rest); try done; congruence.
        -- intros m Hm. rewrite Y2. destruct X1 as [_ T2 _ T4]. cbn in T4.
           destruct (decide (m = n)) as [->|Hmn].
           ++ rewrite X2, !E1 in T2, T4. rewrite T2, T4, Hc1. lia.
           ++ destruct (Hcnt m Hm) as (M1&M2&M3). rewrite X3, W3, E3, Hc2 by congruence. split_and!; [done..|lia].
Qed.

(** The same with the row of the item, before the row of its stock. *)
Record at_stock (k : nat) (cnt : Z → nat) (l : list Item_no) (s : sys) : Prop := {
  as_turn : turn s = home;
  as_home : serving k l s;
  as_state : state (mgr s home) = TPCC_NEWORDER8;
  as_cnt : ∀ n, n ≠ home → next_item_id (mgr s n) = cnt n ∧ length (q_items (mgr s n)) = cnt n ∧ (cnt n ≤ k)%nat }.

Lemma home_item s R k cnt it l rc R' : sim s R → at_item k cnt (it :: l) s → room (r_ins R home) 0 →
  do_unit (home, OrdItem it) R = Some (rc, R') → goes s 2 rc R' (at_stock k cnt (it :: l)).
Proof.
  intros Hs [A1 A2 A3 A4] Hroom Hd. rewrite <-A1 in Hroom, Hd, A3.
  eapply goes_mono; [eapply item_goes; try done; by apply A3|done|]. rewrite !A1. intros s' (V1&V2&V3&_&_&V5).
  split; [done..|]. intros n Hn. rewrite V3 by done. by apply A4.
Qed.

Lemma home_stock s R k cnt it l rc R' : sim s R → at_stock k cnt (it :: l) s → item_node it = home → room (r_ins R home) 1 →
  do_unit (home, OrdStock k it) R = Some (rc, R') → goes s 2 rc R' (at_item (S k) cnt l).
Proof.
  intros Hs [A1 A2 A3 A4] Hn Hroom Hd. rewrite <-A1 in Hroom, Hd, A3, Hn.
  eapply goes_mono; [by eapply stock_goes|done|]. rewrite !A1. intros s' (V1&V2&V3&_&_&V5).
  split; [done|done|naive_solver|]. intros n Hm. rewrite V3 by done. destruct (A4 n Hm) as (?&?&?). split_and!; [done..|lia].
Qed.

(** The items go through from every position. *)
Definition items_ok (l : list Item_no) : Prop := ∀ s R k cnt rc R', sim s R → at_item k cnt l s →
  (k + length l ≤ g_max_items_per_txn c)%nat → (k + length l + 2 ≤ MAX_ROW_PER_TXN)%nat → (∀ n, (length (r_ins R n) ≤ 2 + k)%nat) →
  do_units (item_plan c home k cnt None l) R = Some (rc, R') → goes s (6 * length l) rc R' at_end.

Lemma inserts_room R k l n k' : (k + length l ≤ g_max_items_per_txn c)%nat → (k + length l + 2 ≤ MAX_ROW_PER_TXN)%nat →
  (∀ n, (length (r_ins R n) ≤ 2 + k)%nat) → (k' ≤ @length Item_no l)%nat → room (r_ins R n) k'.
Proof. intros H1 H2 H3 H4. specialize (H3 n). unfold room. lia. Qed.

Lemma items_nil : items_ok [].
Proof.
  intros s R k cnt rc R' Hs [A1 A2 A3 A4] _ _ _ Hd. injection Hd as <- <-. apply goes_here; [done|]. split; [done|].
  rewrite <-A1. by eapply serving_done.
Qed.

Lemma items_here it l s R k cnt rc R' : items_ok l → sim s R → at_stock k cnt (it :: l) s → item_node it = home →
  (k + S (length l) ≤ g_max_items_per_txn c)%nat → (k + S (length l) + 2 ≤ MAX_ROW_PER_TXN)%nat → (∀ n, (length (r_ins R n) ≤ 2 + k)%nat) →
  do_units ((home, OrdStock k it) :: item_plan c home (S k) cnt None l) R = Some (rc, R') → goes s (2 + 6 * length l) rc R' at_end.
Proof.
  intros IH Hs Hat Hn H1 H2 H3. eapply goes_units.
  - intros rc1 R1 Hd. eapply home_stock; try done. eapply (inserts_room R k (it :: l)); try done; cbn; lia.
  - intros s1 R1 Hd Hs1 Hat1 Hd1. eapply IH; try done; try lia. intros n.
    pose proof (do_unit_inserts _ _ _ _ n Hd) as Hi. specialize (H3 n). case_decide; cbn in Hi; lia.
Qed.

Lemma items_there it its rest s R k cnt cnt' rc R' (n := item_node it) : items_ok rest → sim s R → at_stock k cnt (it :: its ++ rest) s →
  n ≠ home → Forall (λ it, item_node it = n) its → remote_items c home n (it :: its ++ rest) = Some (it :: its) →
  cnt' n = (S (cnt n) + length its)%nat → (∀ m, m ≠ n → cnt' m = cnt m) →
  (k + S (length (its ++ rest)) ≤ g_max_items_per_txn c)%nat → (k + S (length (its ++ rest)) + 2 ≤ MAX_ROW_PER_TXN)%nat →
  (∀ n, (length (r_ins R n) ≤ 2 + k)%nat) →
  do_units (((n, OrdStock (cnt n) it) :: serve_plan n (S (cnt n)) its) ++ item_plan c home (k + S (length its)) cnt' None rest) R = Some (rc, R') →
  goes s (4 * S (length its) + 6 * length rest) rc R' at_end.
Proof.
  intros IH Hs [A1 A2 A3 A4] Hn Hf Hri Hc1 Hc2 H1 H2 H3. rewrite length_app in H1, H2. eapply goes_app.
  - intros rc1 R1 Hd. apply (remote_block s R k cnt cnt' it its rest); try done; [lia| |].
    + eapply (inserts_room R k (it :: its ++ rest)); try done; cbn; rewrite length_app; lia.
    + rewrite <-A1 at 1. apply (sim_turn _ _ Hs).
  - intros s1 R1 Hd Hs1 Hat1 Hd1. eapply IH; try done; try lia. intros m. specialize (H3 m). cbn [TpccTxn.do_units] in Hd.
    destruct (do_unit (n, OrdStock (cnt n) it) R) as [[rc2 R2]|] eqn:Hd2; [|done]. cbn [mbind option_bind] in Hd.
    case_bool_decide; [subst rc2|congruence]. pose proof (do_unit_inserts _ _ _ _ m Hd2) as Hi. pose proof (serve_inserts _ _ _ _ _ Hd m).
    case_decide; cbn in Hi; lia.
Qed.

Lemma items_go m : ∀ l, (length l ≤ m)%nat → items_ok l.
Proof.
  induction m as [|m IH]; intros [|it l] Hm; try apply items_nil; cbn [length] in Hm; [lia|].
  intros s R k cnt rc R' Hs Hat H1 H2 H3 Hd. cbn [item_plan length] in *.
  assert (∀ R1, do_unit (home, OrdItem it) R = Some (RCOK, R1) → ∀ n, (length (r_ins R1 n) ≤ 2 + k)%nat) as H3'.
  { intros R1 Hd1 n. pose proof (do_unit_inserts _ _ _ _ n Hd1) as Hi. specialize (H3 n). case_decide; cbn in Hi; lia. }
  assert (∀ rc1 R1, do_unit (home, OrdItem it) R = Some (rc1, R1) → goes s 2 rc1 R1 (at_stock k cnt (it :: l))) as Hfirst.
  { intros rc1 R1 Hd1. eapply home_item; try done. eapply (inserts_room R k (it :: l)); try done; cbn; lia. }
  case_decide as Hn.
  - eapply goes_mono with (b := (2 + (2 + 6 * length l))%nat) (P := at_end); [eapply goes_units; [exact Hfirst| |exact Hd]|..|done].
    + intros s1 R1 Hd1 Hs1 Hat1. eapply items_here; eauto. apply IH. lia.
    + lia.
  - destruct (remote_items_run (item_node it) (it :: l) Hn) as (its&rest&Hl&Hri&Hf&Hrest).
    destruct its as [|it' its]; [by specialize (Hrest it l (eq_sym Hl))|]. injection Hl as <- ->. apply Forall_cons in Hf as [_ Hf].
    rewrite decide_False in Hd by done.
    destruct (item_plan_run (item_node it) its rest (S k) (<[item_node it := S (cnt (item_node it))]> cnt)) as (cnt'&C1&C2&C3); [done..|].
    rewrite C3, fn_lookup_insert in Hd. rewrite fn_lookup_insert in C1. rewrite length_app in *.
    eapply goes_mono with (b := (2 + (4 * S (length its) + 6 * length rest))%nat) (P := at_end);
      [eapply goes_units; [exact Hfirst| |exact Hd]|..|done].
    + clear Hd. intros s1 R1 Hd1 Hs1 Hat1 Hd. eapply (items_there it its rest); try done; try (rewrite length_app; lia); eauto.
      * apply IH. lia.
      * intros m' Hm'. by rewrite C2, fn_lookup_insert_ne.
      * by rewrite Nat.add_succ_r.
    + lia.
Qed.

(** *** The whole order *)

(** No item was looked up. *)
Record fresh (st : TPCCRemTxnType) (s : sys) : Prop := {
  fr_turn : turn s = home;
  fr_in : input_ok (q_in (query (mgr s home)));
  fr_state : state (mgr s home) = st;
  fr_items : q_items (mgr s home) = items q;
  fr_next : next_item_id (mgr s home) = 0%nat;
  fr_others : ∀ n, n ≠ home → next_item_id (mgr s n) = 0%nat ∧ q_items (mgr s n) = [] }.

Lemma fresh_goes u s R rc R' : (u = OrdWh ∨ u = OrdCust ∨ u = OrdDist) → sim s R → fresh (unit_state u) s → owner (w_id q) = home →
  items q ≠ [] → room (r_ins R home) (unit_inserts u) → do_unit (home, u) R = Some (rc, R') →
  goes s 2 rc R' (fresh (unit_next true u 0 (length (items q))).1).
Proof.
  intros Hu Hs [F1 F2 F3 F4 F5 F6] Hw Hit Hroom Hd. rewrite <-F1 in Hroom, Hd.
  assert (is_Some (items q !! 0%nat)) as Hit0 by (destruct (items q); [done|by eexists]).
  eapply goes_mono; [eapply (unit_goes s R u); try done|done|]; rewrite F1 in *.
  - split; [done|done|..]; destruct Hu as [->|[->| ->]]; rewrite ?F4, ?F5; done.
  - intros s' [U1 U2 [M1 M2 M3]]. rewrite F1 in *. rewrite Z.eqb_refl, F4, F5 in M3.
    assert ((unit_next true u 0 (length (items q))).2 = 0%nat) as Hk by (by destruct Hu as [->|[->| ->]]).
    split; unfold q_items; rewrite ?U1, ?M1; try done.
    + by rewrite <-M3.
    + rewrite <-Hk, <-M3. done.
    + intros n Hn. rewrite U2 by done. by apply F6.
Qed.

Lemma order_go s R rc R' : sim s R → fresh TPCC_NEWORDER0 s → owner (w_id q) = home → items q ≠ [] →
  (length (items q) ≤ g_max_items_per_txn c)%nat → (length (items q) + 2 ≤ MAX_ROW_PER_TXN)%nat → (∀ n, r_ins R n = []) →
  do_units (order_plan c home q) R = Some (rc, R') → goes s (6 + 6 * length (items q)) rc R' at_end.
Proof.
  intros Hs Hf Hw Hit H1 H2 Hins. change (6 + 6 * length (items q))%nat with (2 + (2 + (2 + 6 * length (items q))))%nat.
  assert (∀ k, (k ≤ 2)%nat → room (r_ins R home) k) as Hroom by (intros k Hk; rewrite Hins; unfold room, MAX_ROW_PER_TXN; cbn; lia).
  eapply goes_units.
  { intros rc1 R1 Hd. eapply (fresh_goes OrdWh); eauto. }
  intros s1 R1 D1 Hs1 Hf1. pose proof (λ n, do_unit_inserts _ _ _ _ n D1) as I1. eapply goes_units.
  { intros rc2 R2 Hd. eapply (fresh_goes OrdCust); eauto. eapply (room_after _ _ _ _ _ _ D1), Hroom. cbn. lia. }
  intros s2 R2 D2 Hs2 Hf2. pose proof (λ n, do_unit_inserts _ _ _ _ n D2) as I2. eapply goes_units.
  { intros rc3 R3 Hd. eapply (fresh_goes OrdDist); eauto. eapply (room_after _ _ _ _ _ _ D2), (room_after _ _ _ _ _ _ D1), Hroom. cbn. lia. }
  intros s3 R3 D3 Hs3 [F1 F2 F3 F4 F5 F6]. pose proof (λ n, do_unit_inserts _ _ _ _ n D3) as I3.
  assert (0%nat ≠ length (items q)) as Hne by (destruct (items q); done).
  eapply (items_go (length (items q))); [done|done| |done|cbn; lia|].
  - split; [done| |by rewrite F3; cbn; rewrite bool_decide_false by done|].
    + split; rewrite F1; [done|done|by rewrite F4|by rewrite F4].
    + intros n Hn. destruct (F6 n Hn) as [E1 E2]. by rewrite E1, E2.
  - intros n. specialize (I1 n). specialize (I2 n). specialize (I3 n). rewrite Hins in I1. repeat case_decide; cbn in *; lia.
Qed.

End order.

(** ** Payments *)

Section payment.
Context (Hpay : txn_type q = TPCC_PAYMENT) (Hport : portable q).

Record paying (st : TPCCRemTxnType) (s : sys) : Prop := {
  pa_turn : turn s = home;
  pa_in : input_ok (q_in (query (mgr s home)));
  pa_state : state (mgr s home) = st }.

Lemma paying_goes u s R rc R' : unit_txn u = TPCC_PAYMENT → sim s R → paying (unit_state u) s →
  match u with PayWh => owner (w_id q) = home | PayCust => owner (c_w_id q) = home | _ => True end →
  room (r_ins R home) (unit_inserts u) → do_unit (home, u) R = Some (rc, R') →
  goes s 2 rc R' (paying (unit_next true u 0 0).1).
Proof.
  intros Hu Hs [F1 F2 F3] Hw Hroom Hd. rewrite <-F1 in Hroom, Hd.
  eapply goes_mono; [eapply (unit_goes s R u); try done|done|]; rewrite F1 in *.
  - split; [done|done|congruence|..]; by destruct u.
  - intros s' [U1 U2 [M1 M2 M3]]. rewrite F1 in *. split; rewrite ?U1, ?M1; try done.
    apply (f_equal fst) in M3. cbn [fst] in M3. rewrite M3. by destruct u.
Qed.

Lemma paid m : input_ok (q_in (query m)) → state m = TPCC_FIN → is_done m = Some true.
Proof. intros Hin Hst. unfold is_done. rewrite (in_type _ Hin), Hpay, Hst. by rewrite bool_decide_true. Qed.

(** The payment of the customer goes to another node. *)
Lemma send_payment s R (n := owner (c_w_id q)) : sim s R → paying TPCC_PAYMENT4 s → n ≠ home →
  ∃ s1, (∀ f, run (S f) s = run f s1) ∧ sim s1 R ∧ turn s1 = n ∧
    mgr s1 home = set_state TPCC_FIN (touch n (mgr s home)) ∧ input_ok (q_in (query (mgr s1 n))) ∧ state (mgr s1 n) = TPCC_PAYMENT4.
Proof.
  intros Hs [F1 F2 F3] Hn. pose proof (in_type _ F2) as Ht. rewrite Hpay in Ht. destruct (in_pay _ F2 Hpay) as (P1&P2&P3&P4&P5&P6).
  destruct Hport as (Hl&am&Ham&Hda). rewrite <-P4 in Hl. rewrite <-P5 in Ham, Hda.
  set (m := set_payment (c_last (q_in (query (mgr s home)))) am (q_in (query (mgr s home)))).
  set (p := default (mgr s n) (copy_to_txn c (TPCC_PAYMENT4, m) (mgr s n))).
  assert (copy_to_txn c (TPCC_PAYMENT4, m) (mgr s n) = Some p) as Hp.
  { unfold p, m, copy_to_txn. cbn [set_payment txn_type c_last]. by rewrite Ht, Hl. }
  exists (mkSys n (<[n := p]> (<[home := set_state TPCC_FIN (touch n (mgr s home))]> (mgr s))) (<[home := nodes s home]> (nodes s))).
  split_and!; cbn [turn mgr nodes]; rewrite ?fn_lookup_insert; try done.
  - intros f. cbn [TpccTxn.run]. unfold TpccTxn.sys_step, is_done. rewrite F1, Z.eqb_refl, Ht, F3. cbn [mbind option_bind].
    unfold run_txn_state, send_step, send_remote_request, copy_from_txn. rewrite Ht, F3, P2, !wh_node_owner.
    change (TPCC_PAYMENT =? TPCC_PAYMENT) with true. change (TPCC_PAYMENT =? TPCC_NEW_ORDER) with false. cbn iota. cbn [mbind option_bind].
    rewrite !wh_node_owner. cbn [mbind option_bind]. fold n. rewrite (proj2 (Z.eqb_neq _ _) Hn), assert_bind_true by done. cbn [mbind option_bind].
    rewrite Hl, Ham. cbn [mbind option_bind]. fold m.
    rewrite !bool_decide_false by done. cbn [mbind option_bind]. rewrite assert_bind_true by (apply negb_true_iff, Z.eqb_neq; done).
    rewrite fn_lookup_insert_ne, Hp by done. done.
  - eapply sim_turn_to; [done|..]; cbn [mgr nodes turn].
    + intros k. destruct (decide (n = k)) as [<-|Hne].
      * rewrite fn_lookup_insert, fn_lookup_insert_ne by done. unfold p, m, copy_to_txn. cbn [set_payment txn_type c_last]. by rewrite Ht, Hl.
      * rewrite fn_lookup_insert_ne by done. destruct (decide (home = k)) as [<-|Hne']; [by rewrite !fn_lookup_insert|].
        by rewrite !fn_lookup_insert_ne.
    + intros x Hx. rewrite fn_lookup_insert_ne, fn_lookup_insert by done. apply touch_mem. naive_solver.
  - by rewrite fn_lookup_insert_ne, fn_lookup_insert.
  - unfold p, m, copy_to_txn. cbn [set_payment txn_type c_last]. rewrite Ht, Hl. destruct F2 as [I1 I2 I3 I4 I5 I6]. split; try done.
    + intros _. cbn -[d_of_Z]. by rewrite Hda.
    + by rewrite Hpay.
  - unfold p, m, copy_to_txn. cbn [set_payment txn_type c_last]. by rewrite Ht, Hl.
Qed.

Lemma remote_payment_go s R rc R' : sim s R → paying TPCC_PAYMENT4 s → owner (c_w_id q) ≠ home →
  room (r_ins R (owner (c_w_id q))) 1 → do_unit (owner (c_w_id q), PayCust) R = Some (rc, R') → goes s 4 rc R' at_end.
Proof.
  intros Hs Hpa Hn Hroom Hd. destruct (send_payment s R Hs Hpa Hn) as (s1&Hr&Hs1&E1&E2&E3&E4).
  assert (home ∈ partitions_touched (mgr s home)) as Hh by (rewrite <-(pa_turn _ _ Hpa) at 1; apply (sim_turn _ _ Hs)).
  eapply goes_step; [done|]. rewrite <-E1 in Hd, Hroom, E3, E4. change 3%nat with (2 + 1)%nat. eapply goes_then.
  - eapply (unit_goes s1 R PayCust); [done| |done|done]. by split.
  - intros s2 Hs2 [U1 U2 [M1 M2 M3]]. injection M3 as M3 _. assert (mgr s2 home = mgr s1 home) as Hm by (apply U2; congruence).
    assert (input_ok (q_in (query (mgr s2 home)))) as Hin by (rewrite Hm, E2; apply (pa_in _ _ Hpa)).
    eapply goes_mono; [apply return_goes; try done|done|].
    + congruence.
    + rewrite U1. apply paid; [by rewrite M1|done].
    + by rewrite Hm, E2.
    + by rewrite Hm, E2.
    + rewrite Hm, E2. cbn [set_state partitions_touched]. apply touch_mem. by right.
    + intros s3 (Y1&Y2). split; [done|]. rewrite Y2. apply paid; [done|]. by rewrite Hm, E2.
Qed.

Lemma payment_go s R rc R' : sim s R → paying TPCC_PAYMENT0 s → owner (w_id q) = home → (∀ n, r_ins R n = []) →
  do_units (payment_plan c home q) R = Some (rc, R') → goes s 8 rc R' at_end.
Proof.
  intros Hs Hf Hw Hins. change 8%nat with (2 + (2 + (4 + 0)))%nat.
  assert (∀ n k, (k ≤ 2)%nat → room (r_ins R n) k) as Hroom by (intros n k Hk; rewrite Hins; unfold room, MAX_ROW_PER_TXN; cbn; lia).
  eapply goes_units; [intros rc1 R1 Hd; eapply (paying_goes PayWh); eauto|]. intros s1 R1 D1 Hs1 Hf1.
  pose proof (λ n k, room_after _ _ _ _ n k D1) as Hroom1. cbn in Hroom1.
  eapply goes_units; [intros rc1 R2 Hd; eapply (paying_goes PayDist); eauto; cbn; auto|]. intros s2 R2 D2 Hs2 Hf2.
  pose proof (λ n k, room_after _ _ _ _ n k D2) as Hroom2. cbn in Hroom2.
  eapply goes_units; [|intros s3 R3 _ Hs3 Hend [= <- <-]; by apply goes_here].
  intros rc3 R3 Hd. destruct (decide (owner (c_w_id q) = home)) as [He|He]; [|eapply remote_payment_go; eauto].
  rewrite He in Hd. eapply goes_mono; [eapply (paying_goes PayCust); eauto; cbn; auto|lia|]. intros s3 [A1 A2 A3]. split; [done|]. by apply paid.
Qed.

End payment.

Lemma at_end_run s f : at_end s → run (S f) s = Some (RCOK, s).
Proof. intros [Ht Hd]. cbn [TpccTxn.run]. unfold TpccTxn.sys_step. rewrite Ht, Hd. cbn [mbind option_bind]. by rewrite Z.eqb_refl. Qed.

Lemma goes_run s b rc R fuel : goes s b rc R at_end → (b < fuel)%nat → ∃ s', run fuel s = Some (rc, s') ∧ sim s' R.
Proof.
  intros (s'&k&Hk&Hs&[[-> Hr]|(->&Hr&HP)]) Hf; exists s'; (split; [|done]).
  - replace fuel with (k + (fuel - k))%nat by lia. apply Hr.
  - replace fuel with (k + S (fuel - k - 1))%nat by lia. rewrite Hr. by apply at_end_run.
Qed.

(** A manager of the pool; what the transaction before it computed may be left. *)
Definition clean (t : TPCCTxnManager) : Prop :=
  q_items t = [] ∧ next_item_id t = 0%nat ∧ partitions_touched t = [] ∧ accesses t = [] ∧ insert_rows t = [].

Lemma start_order pool ns t : (∀ n, clean (pool n)) → txn_type q = TPCC_NEW_ORDER → start_txn c q (pool home) = Some t →
  fresh TPCC_NEWORDER0 (mkSys home (<[home := run_txn home true t]> pool) ns).
Proof.
  intros Hc Ho. unfold start_txn, append_items. destruct (Hc home) as (C1&C2&C3&C4&C5).
  intros (its&(_&[= <-])%assert_bind_Some&Ht)%bind_Some. rewrite Ho in Ht. cbn in Ht. injection Ht as <-.
  split; cbn [turn mgr]; rewrite ?fn_lookup_insert; try done.
  - change (q_items (pool home) ++ items q = items q). by rewrite C1.
  - intros n Hn. rewrite fn_lookup_insert_ne by done. by destruct (Hc n) as (?&?&_).
Qed.

Lemma start_payment pool ns t : txn_type q = TPCC_PAYMENT → start_txn c q (pool home) = Some t →
  paying TPCC_PAYMENT0 (mkSys home (<[home := run_txn home true t]> pool) ns).
Proof.
  intros Ho. unfold start_txn, append_items. intros (its&(_&[= <-])%assert_bind_Some&Ht)%bind_Some.
  rewrite Ho in Ht. cbn in Ht. injection Ht as <-. split; cbn [turn mgr]; by rewrite ?fn_lookup_insert.
Qed.

(** The reference before the transaction. *)
Definition start_ref (pool : Z → TPCCTxnManager) (ns : Z → node) : rstate :=
  mkR (λ _, []) (λ _, []) (λ n, o_id (query (pool n))) ns.

Lemma start_sim pool ns t : (∀ n, clean (pool n)) → (∀ n, ol_amount (query (pool n)) = amount n) →
  txn_type q = TPCC_PAYMENT ∨ txn_type q = TPCC_NEW_ORDER → start_txn c q (pool home) = Some t →
  sim (mkSys home (<[home := run_txn home true t]> pool) ns) (start_ref pool ns).
Proof.
  intros Hc Ha Hty. unfold start_txn, append_items.
  intros (its&_&Ht)%bind_Some. injection Ht as <-.
  assert (∀ t, run_txn home true (if txn_type q =? TPCC_PAYMENT then set_state TPCC_PAYMENT0 t
    else if txn_type q =? TPCC_NEW_ORDER then set_state TPCC_NEWORDER0 t else t) =
    touch home (set_state (if txn_type q =? TPCC_PAYMENT then TPCC_PAYMENT0 else TPCC_NEWORDER0) t)) as Hr by (by destruct Hty as [->| ->]).
  rewrite Hr. split; cbn [turn mgr nodes start_ref r_acc r_ins r_oid r_nodes]; rewrite ?fn_lookup_insert; try done;
    try (intros n; destruct (Hc n) as (C1&C2&C3&C4&C5); destruct (decide (home = n)) as [<-|Hne];
         [rewrite fn_lookup_insert|rewrite fn_lookup_insert_ne by done]; done || apply Ha).
  apply touch_mem. by left.
Qed.

Lemma start_run_ref pool ns fuel rc R' : (∀ n, clean (pool n)) → (∀ n, ol_amount (query (pool n)) = amount n) →
  (txn_type q = TPCC_PAYMENT ∧ portable q) ∨ (txn_type q = TPCC_NEW_ORDER ∧ items q ≠ []) → owner (w_id q) = home →
  (length (items q) ≤ g_max_items_per_txn c)%nat → (length (items q) + 2 ≤ MAX_ROW_PER_TXN)%nat →
  do_units (plan c home q) (start_ref pool ns) = Some (rc, R') → (6 * length (items q) + 8 < fuel)%nat →
  ∃ t s', start_txn c q (pool home) = Some t ∧ run fuel (mkSys home (<[home := run_txn home true t]> pool) ns) = Some (rc, s') ∧ sim s' R'.
Proof.
  intros Hc Ha Hty Hw H1 H2 Hd Hf. destruct (start_txn c q (pool home)) as [t|] eqn:Ht.
  2: { unfold start_txn, append_items in Ht. destruct (Hc home) as (C1&_). rewrite C1, assert_bind_true in Ht by by apply bool_decide_eq_true.
       done. }
  exists t. pose proof (λ H, start_sim pool ns t Hc Ha H Ht) as Hs.
  cut (∃ s', run fuel (mkSys home (<[home := run_txn home true t]> pool) ns) = Some (rc, s') ∧ sim s' R').
  { intros (s'&H). by exists s'. }
  destruct Hty as [[Hty Hport]|[Hty Hit]]; [rewrite plan_payment in Hd by done|rewrite plan_order in Hd by done]; specialize (Hs ltac:(naive_solver)).
  - eapply (goes_run _ 8); [|lia]. eapply payment_go; try done. by apply start_payment.
  - eapply (goes_run _ (6 + 6 * length (items q))); [|lia]. eapply order_go; try done. by apply start_order.
Qed.

End run.

End TpccRun.
