(* ===== verification/TpccProps.v ===== *)
(** * TpccProps: what TPC-C transactions do to the rows

    The reference of [TpccTxn] returns on loaded nodes, and with the simulation of
    [TpccRun] so do the managers; what payments and new orders change of the columns, the
    ids of orders and of their lines, and the quantities of the stock. *)

From S2P Require Import Prelude Double Message TwoPC TpccTxn TpccRun.

Module TpccProps.
Import Double.Double Message.Message TpccTxn.TpccTxn TpccRun.TpccRun.

(** ** The reference returns *)

Definition index_table (i : INDEX) : TPCCTable :=
  match i with
  | i_item => TPCC_ITEM | i_warehouse => TPCC_WAREHOUSE | i_district => TPCC_DISTRICT
  | i_customer_id | i_customer_last => TPCC_CUSTOMER | i_stock => TPCC_STOCK
  end.
(** The rows of an index are rows of its table. *)
Definition node_ok (n : node) : Prop := ∀ i key r, r ∈ idx n i key → r_table (rows n r) = index_table i.

(** The columns change, and nothing else. *)
Record same_shape (n n' : node) : Prop := {
  sh_idx : idx n' = idx n;
  sh_table : ∀ r, r_table (rows n' r) = r_table (rows n r) }.

#[export] Instance same_shape_preorder : PreOrder same_shape.
Proof. split; [by intros n|intros n1 n2 n3 [A1 A2] [B1 B2]; split; [congruence|intros r; by rewrite B2]]. Qed.

Lemma get_value_total n r col : table_of col = r_table (rows n r) → get_value n r col = Some (r_col (rows n r) col).
Proof. intros Ht. unfold get_value. by rewrite assert_bind_true by by apply bool_decide_eq_true. Qed.

Lemma set_value_total n r col v : table_of col = r_table (rows n r) → ∃ n', set_value r col v n = Some n' ∧ same_shape n n'.
Proof.
  intros Ht. unfold set_value. rewrite assert_bind_true by by apply bool_decide_eq_true. eexists. split; [done|]. split; [done|].
  intros r'. cbn. destruct (decide (r = r')) as [<-|Hne]; [by rewrite fn_lookup_insert|by rewrite fn_lookup_insert_ne].
Qed.

Definition unit_table (u : tunit) : TPCCTable :=
  match u with
  | PayWh | OrdWh => TPCC_WAREHOUSE | PayDist | OrdDist => TPCC_DISTRICT | PayCust | OrdCust => TPCC_CUSTOMER
  | OrdItem _ => TPCC_ITEM | OrdStock _ _ => TPCC_STOCK
  end.

(** Reads and writes the columns of a row of the right table. *)
Ltac columns :=
  repeat match goal with
  | |- context [get_value ?n ?r ?col] =>
      rewrite (get_value_total n r col) by (cbn [table_of]; repeat (match goal with H : same_shape _ ?m |- context [rows ?m] => rewrite (sh_table _ _ H) end); congruence);
      cbn [mbind option_bind]
  | |- context [set_value ?r ?col ?v ?n] =>
      let n' := fresh "n" in let Hset := fresh "Hset" in let Hsh := fresh "Hsh" in
      destruct (set_value_total n r col v) as (n'&Hset&Hsh);
        [cbn [table_of]; repeat (match goal with H : same_shape _ ?m |- context [rows ?m] => rewrite (sh_table _ _ H) end); congruence|];
      rewrite Hset; cbn [mbind option_bind]
  end.

Lemma effect_total c q u amt oid r n : r_table (rows n r) = unit_table u →
  ∃ n' o ins, unit_effect c q u amt oid r n = Some (n', o, ins) ∧ same_shape n n'.
Proof.
  intros Ht. destruct u; cbn [unit_effect unit_table] in *;
    unfold run_payment_1, run_payment_3, run_payment_5, new_order_1, new_order_3, new_order_5, new_order_7, new_order_9.
  - columns. destruct (g_wh_update c); columns; eauto 6. by do 3 eexists.
  - columns. eauto 6.
  - columns. do 3 eexists. split; [done|]. repeat (etrans; [eassumption|]). done.
  - columns. by do 3 eexists.
  - columns. by do 3 eexists.
  - columns. eauto 6.
  - columns. by do 3 eexists.
  - columns. destruct (remote q); cbn [mbind option_bind]; columns; do 3 eexists; (split; [done|]); repeat (etrans; [eassumption|]); done.
Qed.

(** The customer in the middle of the list. *)
Lemma mid_loop_drop it : ∀ mid cnt, mid_loop it mid cnt = drop ((cnt + length it) / 2 - cnt / 2) mid.
Proof.
  induction it as [|r it IH]; intros mid cnt; cbn [mid_loop length]; [by rewrite Nat.add_0_r, Nat.sub_diag|].
  rewrite IH. replace (cnt + S (length it))%nat with (S cnt + length it)%nat by lia.
  pose proof (Nat.div_mod_eq (S cnt) 2) as H1. pose proof (Nat.div_mod_eq cnt 2) as H2. pose proof (Nat.mod_upper_bound (S cnt) 2).
  pose proof (Nat.mod_upper_bound cnt 2). destruct (Nat.eqb_spec (S cnt mod 2) 0) as [He|He].
  - assert (S cnt / 2 <= (S cnt + length it) / 2)%nat by (apply Nat.Div0.div_le_mono; lia).
    replace ((S cnt + length it) / 2 - cnt / 2)%nat with (S ((S cnt + length it) / 2 - S cnt / 2)) by lia. destruct mid; cbn [tail drop]; by rewrite ?drop_nil.
  - f_equal. lia.
Qed.

Lemma mid_row_spec items : mid_row items = items !! (length items / 2)%nat.
Proof. unfold mid_row. rewrite mid_loop_drop, head_lookup, lookup_drop. f_equal. rewrite Nat.add_0_l, Nat.Div0.div_0_l. lia. Qed.

Lemma unit_row_table c q u n r : node_ok n → unit_row c q u n = Some r → r_table (rows n r) = unit_table u.
Proof.
  intros Hok Hr. assert (∀ i key, index_read n i key = Some r → r_table (rows n r) = index_table i) as Hi.
  { intros i key Hx. apply (Hok i key). unfold index_read in Hx. rewrite head_lookup in Hx. by eapply list_elem_of_lookup_2. }
  destruct u; cbn [unit_row unit_table] in *; try by apply Hi in Hr.
  unfold payment_4_row in Hr. destruct (by_last_name q); [|by apply Hi in Hr]. rewrite mid_row_spec in Hr.
  eapply (Hok i_customer_last), list_elem_of_lookup_2, Hr.
Qed.

Lemma unit_row_shape c q u n n' : same_shape n n' → unit_row c q u n' = unit_row c q u n.
Proof.
  intros [Hi _]. destruct u; cbn [unit_row]; unfold payment_0_row, payment_2_row, payment_4_row, new_order_0_row, new_order_2_row,
    new_order_4_row, new_order_6_row, new_order_8_row, index_read; by rewrite Hi.
Qed.

Lemma node_ok_shape n n' : node_ok n → same_shape n n' → node_ok n'.
Proof. intros Hok [Hi Ht] i key r Hr. rewrite Ht. apply (Hok i key). by rewrite <-Hi. Qed.

Lemma do_units_total c ans q amount l : ∀ R, (∀ n, node_ok (r_nodes R n)) → Forall (λ '(g, u), is_Some (unit_row c q u (r_nodes R g))) l →
  ∃ rc R', do_units c ans q amount l R = Some (rc, R').
Proof.
  induction l as [|[g u] l IH]; intros R Hok Hl; [by do 2 eexists|]. apply Forall_cons in Hl as [[r Hr] Hl].
  cbn [do_units]. unfold do_unit. rewrite Hr. cbn [mbind option_bind]. case_bool_decide; [cbn; rewrite bool_decide_false; eauto|].
  destruct (effect_total c q u (amount g) (r_oid R g) r (r_nodes R g)) as (n'&o&ins&He&Hsh); [by apply (unit_row_table c q)|].
  rewrite He. cbn [mbind option_bind]. rewrite bool_decide_true by done. apply IH; cbn [r_nodes].
  - intros n. destruct (decide (g = n)) as [<-|Hne]; [rewrite fn_lookup_insert; by eapply node_ok_shape|by rewrite fn_lookup_insert_ne].
  - eapply Forall_impl; [exact Hl|]. intros [g' u'] Hu. destruct (decide (g = g')) as [<-|Hne]; [|by rewrite fn_lookup_insert_ne].
    rewrite fn_lookup_insert. by rewrite (unit_row_shape c q u' _ _ Hsh).
Qed.

(** ** What the units write *)

Lemma get_value_Some n r col v : get_value n r col = Some v → v = r_col (rows n r) col.
Proof. by intros (_&[= <-])%assert_bind_Some. Qed.
Lemma set_value_eq r col v n n' : set_value r col v n = Some n' → r_col (rows n' r) col = v.
Proof. intros (_&[= <-])%assert_bind_Some. cbn. by rewrite fn_lookup_insert; cbn; rewrite fn_lookup_insert. Qed.
Lemma set_value_ne r col v n n' r' col' : set_value r col v n = Some n' → r ≠ r' ∨ col ≠ col' →
  r_col (rows n' r') col' = r_col (rows n r') col'.
Proof.
  intros (_&[= <-])%assert_bind_Some Hne. cbn. destruct (decide (r = r')) as [<-|]; [|by rewrite fn_lookup_insert_ne].
  rewrite fn_lookup_insert. cbn. rewrite fn_lookup_insert_ne; naive_solver.
Qed.

(** The operations of a unit that has an effect. *)
Ltac inv_effect H :=
  cbn [unit_effect] in H;
  unfold run_payment_1, run_payment_3, run_payment_5, new_order_1, new_order_3, new_order_5, new_order_7, new_order_9 in H;
  inv_option; simplify_eq;
  repeat (match goal with Hif : (if ?b then _ else _) = Some _ |- _ => destruct b eqn:?; inv_option; simplify_eq end);
  repeat (match goal with Hget : get_value _ _ _ = Some _ |- _ => apply get_value_Some in Hget; simplify_eq end).
Ltac unwritten tac :=
  repeat match goal with
  | H : set_value _ _ _ _ = Some ?n |- context [r_col (rows ?n ?r) ?col] => rewrite (set_value_ne _ _ _ _ _ r col H) by tac
  end.

Definition unit_writes (u : tunit) : list column :=
  match u with
  | PayWh => [W_YTD] | PayDist => [D_YTD] | PayCust => [C_BALANCE; C_YTD_PAYMENT; C_PAYMENT_CNT] | OrdDist => [D_NEXT_O_ID]
  | OrdStock _ _ => [S_QUANTITY; S_YTD; S_ORDER_CNT; S_REMOTE_CNT] | _ => []
  end.

Lemma effect_frame c q u amt oid r n n' o ins r' col : unit_effect c q u amt oid r n = Some (n', o, ins) →
  r ≠ r' ∨ col ∉ unit_writes u → r_col (rows n' r') col = r_col (rows n r') col.
Proof.
  intros H Hne. destruct u; inv_effect H; try done;
    unwritten ltac:(destruct Hne as [?|Hne]; [by left|right; intros <-; apply Hne; cbn [unit_writes]; set_solver]); done.
Qed.

Definition d_next (n : node) (r : nat) : Z := r_col (rows n r) D_NEXT_O_ID.
Definition quantity (n : node) (r : nat) : Z := r_col (rows n r) S_QUANTITY.

(** The order id. *)
Lemma effect_order c q amt oid r n n' o ins : unit_effect c q OrdDist amt oid r n = Some (n', o, ins) →
  d_next n' r = wrap64 (d_next n r + 1) ∧ o = Some (d_next n' r) ∧
  ins = [Order (d_next n' r) (c_id q) (d_id q) (w_id q) (o_entry_d q) (ol_cnt q) (if remote q then 0 else 1); NewOrder (d_next n' r) (d_id q) (w_id q)].
Proof. intros H. inv_effect H. unfold d_next. match goal with Hs : set_value _ _ _ _ = Some _ |- _ => by rewrite (set_value_eq _ _ _ _ _ Hs) end. Qed.

(** A line of an order. *)
Lemma effect_line c q num it amt oid r n n' o ins : unit_effect c q (OrdStock num it) amt oid r n = Some (n', o, ins) →
  quantity n' r = new_quantity (quantity n r) (ol_quantity it) ∧ o = None ∧
  ins = [OrderLine oid (d_id q) (w_id q) (Z.of_nat num) (ol_i_id it) (ol_supply_w_id it) (ol_quantity it) amt].
Proof.
  intros H. unfold quantity. inv_effect H; (split; [|done]);
    match goal with Hs : set_value _ S_QUANTITY _ _ = Some _ |- _ => rewrite (set_value_eq _ _ _ _ _ Hs) end; done.
Qed.

(** The other units insert a row of the history or nothing. *)
Lemma effect_other c q u amt oid r n n' o ins : unit_effect c q u amt oid r n = Some (n', o, ins) →
  match u with OrdDist | OrdStock _ _ => True | _ => o = None ∧ ∀ i, i ∈ ins → match i with History _ _ _ _ _ _ _ => True | _ => False end end.
Proof. intros H. destruct u; inv_effect H; try done; (split; [done|]); intros i Hi; set_solver. Qed.

(** ** Invariants of the reference *)

Section invariants.
Context (c : tconfig) (ans : Z → nat → RC) (q : tpcc_input) (amount : Z → Z).

#[local] Abbreviation do_unit := (do_unit c ans q amount).
#[local] Abbreviation do_units := (do_units c ans q amount).

Definition put_unit (g : Z) (u : tunit) (r : nat) (n : node) (o : option Z) (ins : list insert_t) (R : rstate) : rstate :=
  mkR (<[g := r_acc R g ++ [(r, unit_type c u)]]> (r_acc R)) (<[g := r_ins R g ++ ins]> (r_ins R))
      (<[g := default (r_oid R g) o]> (r_oid R)) (<[g := n]> (r_nodes R)).

Lemma do_unit_inv g u R rc R' : do_unit (g, u) R = Some (rc, R') → (rc = Abort ∧ R' = R) ∨ (rc = RCOK ∧ ∃ r n o ins,
  unit_row c q u (r_nodes R g) = Some r ∧ unit_effect c q u (amount g) (r_oid R g) r (r_nodes R g) = Some (n, o, ins) ∧
  R' = put_unit g u r n o ins R).
Proof.
  unfold TpccTxn.do_unit. destruct (unit_row c q u (r_nodes R g)) as [r|]; [|done]. cbn [mbind option_bind].
  case_bool_decide; [intros [= <- <-]; by left|]. destruct (unit_effect _ _ _ _ _ _ _) as [[[n o] ins]|] eqn:He; [|done].
  cbn [mbind option_bind]. intros [= <- <-]. right. split; [done|]. by exists r, n, o, ins.
Qed.

Lemma do_units_inv (P : rstate → Prop) l : ∀ R rc R',
  (∀ g u r n o ins R, (g, u) ∈ l → P R → unit_row c q u (r_nodes R g) = Some r →
    unit_effect c q u (amount g) (r_oid R g) r (r_nodes R g) = Some (n, o, ins) → P (put_unit g u r n o ins R)) →
  P R → do_units l R = Some (rc, R') → P R'.
Proof.
  induction l as [|[g u] l IH]; intros R rc R' Hl HP Hd; [by injection Hd as _ <-|]. cbn [TpccTxn.do_units] in Hd.
  destruct (do_unit (g, u) R) as [[rc1 R1]|] eqn:Hu; [|done]. cbn [mbind option_bind] in Hd.
  destruct (do_unit_inv _ _ _ _ _ Hu) as [[-> ->]|(->&r&n&o&ins&Hr&He&->)].
  - rewrite bool_decide_false in Hd by done. by injection Hd as _ <-.
  - rewrite bool_decide_true in Hd by done. eapply IH; [| |done]; [|by eapply Hl; [left|..]].
    intros g' u' r' n' o' ins' R1 Hin. apply Hl. by right.
Qed.

(** The indexes and the tables of the rows do not change. *)
Lemma do_units_shape l R rc R' : (∀ n, node_ok (r_nodes R n)) → do_units l R = Some (rc, R') → ∀ n, same_shape (r_nodes R n) (r_nodes R' n).
Proof.
  intros Hok Hd. eapply (do_units_inv (λ R1, ∀ n, same_shape (r_nodes R n) (r_nodes R1 n))); [|done|done].
  intros g u r n o ins R1 _ HP Hr He m. cbn. destruct (decide (g = m)) as [<-|Hne]; [rewrite fn_lookup_insert|by rewrite fn_lookup_insert_ne].
  etrans; [apply HP|]. destruct (effect_total c q u (amount g) (r_oid R1 g) r (r_nodes R1 g)) as (?&?&?&He'&Hsh); [|by simplify_eq].
  apply (unit_row_table c q); [|done]. eapply node_ok_shape; [apply Hok|apply HP].
Qed.

(** *** Stock *)

Definition stock_ok (n : node) : Prop := ∀ r, r_table (rows n r) = TPCC_STOCK → 10 ≤ quantity n r ≤ 101.

Lemma new_quantity_bounds s o : 10 ≤ s ≤ 101 → 1 ≤ o ≤ 10 → 10 ≤ new_quantity s o ≤ 101.
Proof.
  intros Hs Ho. unfold new_quantity. rewrite (wrap64_small (o + 10)) by (unfold is_u64, u64_mod; lia).
  destruct (Z.ltb_spec (o + 10) s); rewrite wrap64_small by (unfold is_u64, u64_mod; lia); lia.
Qed.

Lemma do_units_stock l R rc R' : (∀ n, node_ok (r_nodes R n)) → (∀ g num it, (g, OrdStock num it) ∈ l → 1 ≤ ol_quantity it ≤ 10) →
  (∀ n, stock_ok (r_nodes R n)) → do_units l R = Some (rc, R') → ∀ n, stock_ok (r_nodes R' n).
Proof.
  intros Hok Hl Hs Hd n r Hr. rewrite (sh_table _ _ (do_units_shape _ _ _ _ Hok Hd n)) in Hr. revert n r Hr.
  eapply (do_units_inv (λ R1, ∀ n r, r_table (rows (r_nodes R n) r) = TPCC_STOCK → 10 ≤ quantity (r_nodes R1 n) r ≤ 101)); [|exact Hs|exact Hd].
  intros g u r n o ins R1 Hin HP Hr He m r' Hr'. cbn. destruct (decide (g = m)) as [<-|Hne]; [rewrite fn_lookup_insert|rewrite fn_lookup_insert_ne by done; by apply HP].
  specialize (HP g r' Hr').
  destruct u as [| | | | | | |num it]; try (unfold quantity; erewrite effect_frame; [exact HP|exact He|right; cbn; set_solver]).
  destruct (decide (r = r')) as [<-|Hne]; [|unfold quantity; erewrite effect_frame; [exact HP|exact He|by left]].
  apply effect_line in He as (->&_). apply new_quantity_bounds; [done|]. by eapply Hl.
Qed.

(** *** Orders *)

(** The ids of the orders of a district, among rows that were inserted. *)
Definition order_id (w d : Z) (i : insert_t) : option Z :=
  match i with Order o _ d' w' _ _ _ => if bool_decide (w' = w ∧ d' = d) then Some o else None | _ => None end.
Definition order_ids (w d : Z) (l : list insert_t) : list Z := omap (order_id w d) l.
Definition line_id (i : insert_t) : option Z := match i with OrderLine o _ _ _ _ _ _ _ => Some o | _ => None end.

Lemma order_ids_none w d l : (∀ i, i ∈ l → order_id w d i = None) → order_ids w d l = [].
Proof.
  induction l as [|i l IH]; intros Hl; [done|]. cbn. rewrite (Hl i) by left. apply IH. intros j Hj. apply Hl. by right.
Qed.

(** Units other than that of the district leave the orders alone. *)
Lemma effect_quiet u amt oid r n n' o ins : unit_effect c q u amt oid r n = Some (n', o, ins) → u ≠ OrdDist →
  o = None ∧ (∀ r', d_next n' r' = d_next n r') ∧ (∀ w d, order_ids w d ins = []) ∧ (∀ i o', i ∈ ins → line_id i = Some o' → o' = oid).
Proof.
  intros He Hu. assert (∀ r', d_next n' r' = d_next n r') as Hn.
  { intros r'. unfold d_next. eapply effect_frame; [done|]. right. destruct u; cbn; set_solver. }
  pose proof (effect_other _ _ _ _ _ _ _ _ _ _ He) as Ho. destruct u as [| | | | | | |num it]; try done;
    try (lazymatch type of Ho with _ ∧ _ => destruct Ho as [-> Hi] end; split_and!; [done|done|intros w d; apply order_ids_none|];
         intros i; intros; specialize (Hi i); destruct i; naive_solver).
  apply effect_line in He as (_&->&->). split_and!; [done|done|done|]. intros i o' Hi. set_unfold in Hi. destruct Hi as [->|[]]. by intros [= <-].
Qed.

Record quiet (R R' : rstate) : Prop := {
  qt_oid : ∀ g, r_oid R' g = r_oid R g;
  qt_next : ∀ g r, d_next (r_nodes R' g) r = d_next (r_nodes R g) r;
  qt_orders : ∀ g w d, order_ids w d (r_ins R' g) = order_ids w d (r_ins R g);
  qt_lines : ∀ g i o, i ∈ r_ins R' g → line_id i = Some o → i ∈ r_ins R g ∨ o = r_oid R g;
  qt_ins : ∀ g i, i ∈ r_ins R g → i ∈ r_ins R' g }.

Lemma do_units_quiet l R rc R' : (∀ g u, (g, u) ∈ l → u ≠ OrdDist) → do_units l R = Some (rc, R') → quiet R R'.
Proof.
  intros Hl Hd. eapply (do_units_inv (quiet R)); [| |exact Hd]; [|by split; auto].
  intros g u r n o ins R1 Hin [Q1 Q2 Q3 Q4 Q5] Hr He. destruct (effect_quiet _ _ _ _ _ _ _ _ He (Hl _ _ Hin)) as (->&E2&E3&E4).
  split; intros m; cbn [put_unit r_oid r_nodes r_ins default]; (destruct (decide (g = m)) as [<-|Hne]; [rewrite fn_lookup_insert|rewrite fn_lookup_insert_ne by done]); auto.
  - intros r'. by rewrite E2.
  - intros w d. unfold order_ids in *. by rewrite omap_app, E3, app_nil_r.
  - intros i o [Hi|Hi]%elem_of_app Ho; [by apply Q4|]. right. rewrite <-Q1. by eapply E4.
  - intros i Hi. apply elem_of_app. auto.
Qed.

(** The unit of the district. *)
Lemma do_unit_order g R rc R' : do_unit (g, OrdDist) R = Some (rc, R') → rc = RCOK → ∃ r,
  unit_row c q OrdDist (r_nodes R g) = Some r ∧ (∀ g' r', d_next (r_nodes R' g') r' =
    if decide (g' = g ∧ r' = r) then wrap64 (d_next (r_nodes R g) r + 1) else d_next (r_nodes R g') r') ∧
  r_oid R' g = wrap64 (d_next (r_nodes R g) r + 1) ∧ (∀ g', g' ≠ g → r_oid R' g' = r_oid R g' ∧ r_ins R' g' = r_ins R g') ∧
  r_ins R' g = r_ins R g ++ [Order (r_oid R' g) (c_id q) (d_id q) (w_id q) (o_entry_d q) (ol_cnt q) (if remote q then 0 else 1);
    NewOrder (r_oid R' g) (d_id q) (w_id q)].
Proof.
  intros [[-> ->]|(_&r&n&o&ins&Hr&He&->)]%do_unit_inv Hrc; [done|]. exists r. split; [done|].
  pose proof (effect_order _ _ _ _ _ _ _ _ _ He) as (E1&->&->). cbn. rewrite !fn_lookup_insert. cbn. rewrite E1. split_and!; try done.
  - intros g' r'. destruct (decide (g = g')) as [<-|Hne]; [rewrite fn_lookup_insert|rewrite fn_lookup_insert_ne, decide_False by naive_solver; done].
    destruct (decide (r = r')) as [<-|Hne]; [by rewrite decide_True|]. rewrite decide_False by naive_solver.
    unfold d_next. eapply effect_frame; [exact He|by left].
  - intros g' Hg. by rewrite !fn_lookup_insert_ne.
Qed.

Lemma do_units_app_ok l l' R R' : do_units (l ++ l') R = Some (RCOK, R') → ∃ R1, do_units l R = Some (RCOK, R1) ∧ do_units l' R1 = Some (RCOK, R').
Proof.
  rewrite do_units_app. destruct (do_units l R) as [[rc R1]|]; [|done]. cbn [mbind option_bind]. case_bool_decide; [|congruence].
  subst rc. by exists R1.
Qed.

Lemma item_plan_units home k cnt prev l g u : (g, u) ∈ item_plan c home k cnt prev l →
  ∃ it, it ∈ l ∧ (u = OrdItem it ∨ ∃ num, u = OrdStock num it).
Proof.
  revert k cnt prev. induction l as [|it l IH]; intros k cnt prev Hin; [by apply not_elem_of_nil in Hin|]. cbn [item_plan] in Hin.
  case_decide; (apply elem_of_cons in Hin as [[= -> ->]|[[= -> ->]|Hin]%elem_of_cons];
    [exists it; split; [left|by left]|exists it; split; [left|right; eauto]|]); destruct (IH _ _ _ Hin) as (it'&Hit'&Hu); exists it'; (split; [by right|done]).
Qed.

Lemma do_units_no_inserts l R rc R' : (∀ g u, (g, u) ∈ l → unit_inserts u = 0%nat) → (∀ n, r_ins R n = []) →
  do_units l R = Some (rc, R') → ∀ n, r_ins R' n = [].
Proof.
  intros Hl HR Hd. eapply (do_units_inv (λ R1, ∀ n, r_ins R1 n = [])); [|done|done].
  intros g u r n o ins R1 Hin HP Hr He m. cbn [put_unit r_ins]. pose proof (unit_effect_inserts _ _ _ _ _ _ _ _ _ _ He) as Hlen.
  rewrite (Hl g u Hin) in Hlen. apply nil_length_inv in Hlen as ->. destruct (decide (g = m)) as [<-|Hne].
  - by rewrite fn_lookup_insert, HP.
  - by rewrite fn_lookup_insert_ne.
Qed.

(** What a new order that commits leaves. *)
Record ordered (home : Z) (R R' : rstate) (r : nat) (o : Z) : Prop := {
  od_row : unit_row c q OrdDist (r_nodes R home) = Some r;
  od_id : o = wrap64 (d_next (r_nodes R home) r + 1);
  od_next : ∀ g' r', d_next (r_nodes R' g') r' = if decide (g' = home ∧ r' = r) then o else d_next (r_nodes R g') r';
  od_ids : ∀ w d, order_ids w d (r_ins R' home) = if decide (w_id q = w ∧ d_id q = d) then [o] else [];
  od_order : Order o (c_id q) (d_id q) (w_id q) (o_entry_d q) (ol_cnt q) (if remote q then 0 else 1) ∈ r_ins R' home;
  od_lines : ∀ g i o', i ∈ r_ins R' g → line_id i = Some o' → o' = if decide (g = home) then o else r_oid R g }.

Lemma order_plan_ordered home R R' : (∀ n, node_ok (r_nodes R n)) → (∀ n, r_ins R n = []) →
  do_units (order_plan c home q) R = Some (RCOK, R') → ∃ r o, ordered home R R' r o.
Proof.
  intros Hok Hins Hd. unfold order_plan in Hd.
  change ([_; _; _] ++ ?x) with ([(home, OrdWh); (home, OrdCust)] ++ [(home, OrdDist)] ++ x) in Hd.
  apply do_units_app_ok in Hd as (R1&D1&(R2&D2&D3)%do_units_app_ok).
  assert (∀ g u, (g, u) ∈ [(home, OrdWh); (home, OrdCust)] → u ≠ OrdDist ∧ unit_inserts u = 0%nat) as Hpre.
  { intros g u Hin. set_unfold in Hin. naive_solver. }
  pose proof (do_units_shape _ _ _ _ Hok D1 home) as Hsh. pose proof (do_units_quiet _ _ _ _ (λ g u H, proj1 (Hpre g u H)) D1) as [A1 A2 A3 A4 A5].
  pose proof (do_units_no_inserts _ _ _ _ (λ g u H, proj2 (Hpre g u H)) Hins D1) as Hins1.
  assert (quiet R2 R') as [B1 B2 B3 B4 B5].
  { eapply do_units_quiet; [|done]. intros g u (it&_&[->|[num ->]])%item_plan_units; done. }
  cbn [TpccTxn.do_units] in D2. destruct (do_unit (home, OrdDist) R1) as [[rc R2']|] eqn:Hu; [|done]. cbn [mbind option_bind] in D2.
  case_bool_decide as Hrc; [|congruence]. injection D2 as ->.
  destruct (do_unit_order _ _ _ _ Hu Hrc) as (r&E1&E2&E3&E4&E5). rewrite (unit_row_shape c q _ _ _ Hsh) in E1.
  exists r, (r_oid R2 home). rewrite A2 in E2, E3. rewrite <-E3 in E2. rewrite Hins1 in E5. cbn in E5. split; [done|done|..].
  - intros g' r'. by rewrite B2, E2, A2.
  - intros w d. rewrite B3, E5. cbn. case_bool_decide; [by rewrite decide_True|by rewrite decide_False].
  - apply B5. rewrite E5. left.
  - intros g i o' Hi Ho. destruct (decide (g = home)) as [->|Hg]; destruct (B4 _ _ _ Hi Ho) as [Hi2|Ho2]; try done.
    + rewrite E5 in Hi2. set_unfold in Hi2. naive_solver.
    + destruct (E4 g Hg) as [_ Hi3]. rewrite Hi3, Hins1 in Hi2. by apply not_elem_of_nil in Hi2.
    + rewrite Ho2. destruct (E4 g Hg) as [-> _]. apply A1.
Qed.

End invariants.

(** ** A query on loaded nodes *)

(** [q] is the message of the client, and [input_of q] the query the home node makes of it.
    The name ends within its array, and the amount of a payment is a [double] without
    rounding. *)
Record query_ok (c : tconfig) (home : Z) (ans : Z → nat → RC) (q : tpcc_input) (pool : Z → TPCCTxnManager) (ns : Z → node) : Prop := {
  qo_ans : ∀ n i, row_answer (ans n i);
  qo_part : 0 < g_part_cnt c ≤ g_num_wh c;
  qo_type : txn_type q = TPCC_PAYMENT ∨ (txn_type q = TPCC_NEW_ORDER ∧ items q ≠ []);
  qo_name : is_Some (strcpy (c_last q));
  qo_amount : txn_type q = TPCC_PAYMENT → 0 ≤ h_amount q < 2 ^ 53;
  qo_home : owner c (w_id q) = home;
  qo_items : (length (items q) ≤ g_max_items_per_txn c ∧ length (items q) + 2 ≤ MAX_ROW_PER_TXN)%nat;
  qo_pool : ∀ n, clean (pool n);
  qo_nodes : ∀ n, node_ok (ns n);
  qo_rows : Forall (λ '(g, u), is_Some (unit_row c (input_of q) u (ns g))) (plan c home (input_of q)) }.

(** The reference on the same query. *)
Definition ref_query (c : tconfig) (home : Z) (ans : Z → nat → RC) (q : tpcc_input) (pool : Z → TPCCTxnManager) (ns : Z → node)
    : option (RC * rstate) :=
  do_units c ans (input_of q) (λ n, ol_amount (query (pool n))) (plan c home (input_of q)) (start_ref pool ns).

Definition enough (q : tpcc_input) (fuel : nat) : Prop := (6 * length (items q) + 8 < fuel)%nat.

Lemma run_query_total c home ans q pool ns fuel : query_ok c home ans q pool ns → enough q fuel → ∃ rc s' R',
  run_query c home ans fuel q pool ns = Some (rc, s') ∧ ref_query c home ans q pool ns = Some (rc, R') ∧
  sim home (λ n, ol_amount (query (pool n))) s' R'.
Proof.
  intros [H1 [H2 H3] H4 HN HA H5 [H6 H7] H8 H9 H10] Hf.
  destruct (do_units_total c ans (input_of q) (λ n, ol_amount (query (pool n))) (plan c home (input_of q)) (start_ref pool ns))
    as (rc&R'&Hd); [done|done|].
  destruct (start_run_ref c home ans (input_of q) (λ n, ol_amount (query (pool n))) H1 H3 H2 pool ns fuel rc R') as (t&s'&Ht&Hr&Hs); try done.
  { destruct H4 as [H4|H4]; [left|by right]. split; [done|]. by apply input_of_portable; [|apply HA]. }
  exists rc, s', R'. split; [|done]. unfold run_query. rewrite client_copy_start, Ht by done. exact Hr.
Qed.

Lemma query_ok_shape c home ans q pool ns ns' : query_ok c home ans q pool ns → (∀ n, same_shape (ns n) (ns' n)) → query_ok c home ans q pool ns'.
Proof.
  intros [H1 H2 H4 HN HA H5 H6 H8 H9 H10] Hsh. split; try done.
  - intros n. by eapply node_ok_shape.
  - eapply Forall_impl; [exact H10|]. intros [g u] Hu. by rewrite (unit_row_shape c (input_of q) u _ _ (Hsh g)).
Qed.

Lemma distKey_inj c d w d' w' : 1 ≤ d ≤ g_dist_per_wh c → 1 ≤ d' ≤ g_dist_per_wh c → 0 ≤ w → 0 ≤ w' →
  (w + 1) * g_dist_per_wh c < u64_mod → (w' + 1) * g_dist_per_wh c < u64_mod → distKey c d w = distKey c d' w' → w = w' ∧ d = d'.
Proof.
  intros Hd Hd' Hw Hw' Hb Hb'. unfold distKey. rewrite !wrap64_small by (unfold is_u64; nia). intros He.
  by apply (radix_inj (g_dist_per_wh c)).
Qed.

(** *** Transactions one after the other *)

Record txn := mkTxn { x_query : tpcc_input; x_ans : Z → nat → RC; x_pool : Z → TPCCTxnManager }.

Section serial.
Context (c : tconfig) (fuel : nat).

Definition x_home (x : txn) : Z := owner c (w_id (x_query x)).

(** The result, the rows that are inserted on the home node and the rows after the
    transaction; one that aborts is rolled back. *)
Definition serial_one (x : txn) (ns : Z → node) : option (RC * list insert_t * (Z → node)) :=
  '(rc, s) ← run_query c (x_home x) (x_ans x) fuel (x_query x) (x_pool x) ns;
  Some (rc, if bool_decide (rc = RCOK) then insert_rows (mgr s (x_home x)) else [], if bool_decide (rc = RCOK) then nodes s else ns).

Fixpoint serial (l : list txn) (ns : Z → node) : option (list RC * list insert_t * (Z → node)) :=
  match l with
  | [] => Some ([], [], ns)
  | x :: l => '(rc, log, ns) ← serial_one x ns; '(rcs, log', ns) ← serial l ns; Some (rc :: rcs, log ++ log', ns)
  end.

(** The orders of a district that commit. *)
Definition takes (w d : Z) (x : txn) (rc : RC) : bool :=
  bool_decide (rc = RCOK ∧ txn_type (x_query x) = TPCC_NEW_ORDER ∧ w_id (x_query x) = w ∧ d_id (x_query x) = d).
Fixpoint taken (w d : Z) (l : list txn) (rcs : list RC) : nat :=
  match l, rcs with x :: l, rc :: rcs => ((if takes w d x rc then 1 else 0) + taken w d l rcs)%nat | _, _ => 0 end.

(** A transaction that can run, with its district among those of the warehouse. *)
Definition dist_ok (w d : Z) : Prop := 1 ≤ d ≤ g_dist_per_wh c ∧ 0 ≤ w ∧ (w + 1) * g_dist_per_wh c < u64_mod.
Definition txn_ok (ns : Z → node) (x : txn) : Prop :=
  query_ok c (x_home x) (x_ans x) (x_query x) (x_pool x) ns ∧ enough (x_query x) fuel ∧ dist_ok (w_id (x_query x)) (d_id (x_query x)).

(** A row has one key. *)
Definition keys_ok (n : node) : Prop :=
  ∀ k k' r, index_read n i_district k = Some r → index_read n i_district k' = Some r → k = k'.

Lemma txn_ok_shape x ns ns' : txn_ok ns x → (∀ n, same_shape (ns n) (ns' n)) → txn_ok ns' x.
Proof. intros (H1&H2&H3) Hsh. split; [by eapply query_ok_shape|done]. Qed.

(** A transaction takes the next id of the district or leaves it. *)
Lemma serial_one_ids x ns w d r (g := owner c w) : txn_ok ns x → dist_ok w d → keys_ok (ns g) →
  index_read (ns g) i_district (distKey c d w) = Some r → ∃ rc log ns', serial_one x ns = Some (rc, log, ns') ∧
  (∀ n, same_shape (ns n) (ns' n)) ∧
  if takes w d x rc then order_ids w d log = [wrap64 (d_next (ns g) r + 1)] ∧ d_next (ns' g) r = wrap64 (d_next (ns g) r + 1)
  else order_ids w d log = [] ∧ d_next (ns' g) r = d_next (ns g) r.
Proof.
  intros (Hok&Hf&Hd') Hd Hk Hr. destruct (run_query_total _ _ _ _ _ _ _ Hok Hf) as (rc&s&R'&Hrun&Href&Hs).
  unfold serial_one, takes. rewrite Hrun. cbn [mbind option_bind]. eexists _, _, _. split; [done|].
  case_bool_decide as Hrc; [|by rewrite bool_decide_false by naive_solver].
  subst rc. rewrite (sim_ins _ _ _ _ Hs). pose proof (sim_nodes _ _ _ _ Hs) as Hn.
  split; [intros n; rewrite Hn; eapply (do_units_shape _ _ _ _ _ (start_ref _ ns)); [apply (qo_nodes _ _ _ _ _ _ Hok)|exact Href]|].
  rewrite Hn. unfold ref_query in Href. destruct (qo_type _ _ _ _ _ _ Hok) as [Ht|[Ht _]]; rewrite Ht;
    [rewrite plan_payment in Href by done|rewrite plan_order in Href by done].
  - rewrite bool_decide_false by naive_solver.
    apply do_units_quiet in Href as [_ A2 A3 _ _]; [|intros g' u Hin; unfold payment_plan in Hin; set_unfold in Hin; naive_solver].
    by rewrite A3, A2.
  - apply order_plan_ordered in Href as (r'&o&[O1 O2 O3 O4 _ _]); [|apply (qo_nodes _ _ _ _ _ _ Hok)|done].
    unfold unit_row, new_order_4_row in O1. cbn [start_ref r_nodes input_of set_payment w_id d_id] in O1, O2, O3, O4.
    rewrite O4, O3. destruct (decide (w_id (x_query x) = w ∧ d_id (x_query x) = d)) as [[Hw Hdd]|Hne].
    + rewrite bool_decide_true by done. unfold x_home in O1. rewrite Hw, Hdd in O1. fold g in O1.
      rewrite Hr in O1. injection O1 as <-.
      unfold x_home in O2 |- *. rewrite Hw in O2 |- *. fold g in O2 |- *. rewrite decide_True by done. by rewrite O2.
    + rewrite bool_decide_false by naive_solver. split; [done|]. rewrite decide_False; [done|]. intros [Hg <-]. apply Hne.
      rewrite <-Hg in O1. destruct Hd as (?&?&?), Hd' as (?&?&?). eapply distKey_inj; eauto.
Qed.

(** The ids that a run gives the orders of a district. *)
Lemma serial_ids l : ∀ ns w d r (g := owner c w), Forall (txn_ok ns) l → dist_ok w d → keys_ok (ns g) →
  index_read (ns g) i_district (distKey c d w) = Some r → 0 ≤ d_next (ns g) r → d_next (ns g) r + zlen l < u64_mod →
  ∃ rcs log ns', serial l ns = Some (rcs, log, ns') ∧ length rcs = length l ∧
    d_next (ns' g) r = d_next (ns g) r + Z.of_nat (taken w d l rcs) ∧
    order_ids w d log = map (λ i, d_next (ns g) r + Z.of_nat i) (seq 1 (taken w d l rcs)).
Proof.
  induction l as [|x l IH]; intros ns w d r g Hl Hd Hk Hr H0 Hb.
  { exists [], [], ns. split_and!; [done|done|cbn; lia|done]. }
  apply Forall_cons in Hl as [Hx Hl]. cbn [length] in Hb. destruct (serial_one_ids x ns w d r Hx Hd Hk Hr) as (rc&log&ns1&H1&Hsh&Hids). fold g in Hids.
  assert (0 ≤ d_next (ns1 g) r ≤ d_next (ns g) r + 1) as Hn1.
  { destruct (takes w d x rc); destruct Hids as [_ ->]; rewrite ?wrap64_small by (unfold is_u64; lia); lia. }
  destruct (IH ns1 w d r) as (rcs&log'&ns'&H2&Hlen&Hn&Hi); try done; fold g; try lia.
  - eapply Forall_impl; [exact Hl|]. intros y Hy. by eapply txn_ok_shape.
  - intros k k' r'. unfold index_read. fold g. rewrite (sh_idx _ _ (Hsh g)). apply Hk.
  - unfold index_read. by rewrite (sh_idx _ _ (Hsh g)).
  - exists (rc :: rcs), (log ++ log'), ns'. cbn [serial]. rewrite H1. cbn [mbind option_bind]. rewrite H2. cbn [mbind option_bind length taken].
    fold g in Hn, Hi. split_and!; [done|lia|rewrite Hn|unfold order_ids in *; rewrite omap_app, Hi]; destruct (takes w d x rc); destruct Hids as [Hlog ->];
      rewrite ?Hlog, ?wrap64_small by (unfold is_u64; lia); try lia; [|done]. cbn [Nat.add seq map app]. f_equal.
    rewrite <-(seq_shift _ 1), map_map. apply map_ext. intros i. lia.
Qed.

(** Transactions that run one after the other give the orders of a district consecutive
    ids, one for each new order of the district that commits, after [D_NEXT_O_ID] of the
    district, which ends at the last id; all transactions return. *)
Theorem tpcc_order_ids l : ∀ ns w d r (g := owner c w), Forall (txn_ok ns) l → dist_ok w d → keys_ok (ns g) →
  index_read (ns g) i_district (distKey c d w) = Some r → 0 ≤ d_next (ns g) r → d_next (ns g) r + zlen l < u64_mod →
  ∃ rcs log ns', serial l ns = Some (rcs, log, ns') ∧ length rcs = length l ∧
    d_next (ns' g) r = d_next (ns g) r + Z.of_nat (taken w d l rcs) ∧
    order_ids w d log = map (λ i, d_next (ns g) r + Z.of_nat i) (seq 1 (taken w d l rcs)).
Proof. exact (serial_ids l). Qed.

End serial.

(** ** Correctness *)

(** C12: A payment or a new order that a client sends to the node of its warehouse returns,
    where the nodes have the rows it asks for, [get_row] grants, waits or aborts, the
    managers are clean, the last name ends within its array and the amount of a payment is
    below 2^53, so that the [double] of the query and the integer of the messages are the
    same number.  On every node it gets the rows, changes the columns and inserts the rows that the list
    of its accesses says, in that order, up to an access that is refused, which aborts it;
    the nodes whose rows it got are among those that take part in the commit. *)
Theorem tpcc_query_exact c home ans q pool ns fuel : query_ok c home ans q pool ns → enough q fuel → ∃ rc s' R',
  run_query c home ans fuel q pool ns = Some (rc, s') ∧ ref_query c home ans q pool ns = Some (rc, R') ∧
  ∀ n, accesses (mgr s' n) = r_acc R' n ∧ insert_rows (mgr s' n) = r_ins R' n ∧ nodes s' n = r_nodes R' n ∧
    (accesses (mgr s' n) ≠ [] → n ∈ partitions_touched (mgr s' home)).
Proof.
  intros Hok Hf. destruct (run_query_total _ _ _ _ _ _ _ Hok Hf) as (rc&s'&R'&Hr&Hd&[S1 S2 S3 S4 S5 S6 S7]).
  exists rc, s', R'. split; [done|]. split; [done|]. intros n. split_and!; try done. rewrite S1. apply S7.
Qed.

(** With quantities from 1 to 10 a transaction, committed or not, keeps every stock
    quantity between 10 and 101; the subtraction of the quantity never wraps around. *)
Theorem tpcc_stock_bounds c home ans q pool ns fuel : query_ok c home ans q pool ns → enough q fuel →
  (∀ it, it ∈ items q → 1 ≤ ol_quantity it ≤ 10) → (∀ n, stock_ok (ns n)) → ∃ rc s',
  run_query c home ans fuel q pool ns = Some (rc, s') ∧ ∀ n, stock_ok (nodes s' n).
Proof.
  intros Hok Hf Hq Hs. destruct (run_query_total _ _ _ _ _ _ _ Hok Hf) as (rc&s'&R'&Hr&Hd&Hsim). exists rc, s'. split; [done|].
  intros n. rewrite (sim_nodes _ _ _ _ Hsim). revert n. eapply (do_units_stock _ _ _ _ _ (start_ref pool ns)); [apply (qo_nodes _ _ _ _ _ _ Hok)| |exact Hs|exact Hd].
  intros g num it Hin. apply Hq. destruct (qo_type _ _ _ _ _ _ Hok) as [Ht|[Ht _]].
  - rewrite plan_payment in Hin by done. unfold payment_plan in Hin. set_unfold in Hin. naive_solver.
  - rewrite plan_order in Hin by done. unfold order_plan in Hin.
    apply elem_of_app in Hin as [Hin|(it'&Hit&[Hu|[num' Hu]])%item_plan_units]; [set_unfold in Hin; naive_solver|done|].
    injection Hu as -> ->. done.
Qed.

(** C37: A new order that commits has one id, after [D_NEXT_O_ID] of its district.  Its lines
    on the home node have that id; but the message to another node does not have it, and
    lines on other nodes have whatever id their transaction manager had before. *)
Theorem tpcc_remote_line_ids c home ans q pool ns fuel s' : query_ok c home ans q pool ns → enough q fuel → txn_type q = TPCC_NEW_ORDER →
  run_query c home ans fuel q pool ns = Some (RCOK, s') → ∃ r o,
  index_read (ns home) i_district (distKey c (d_id q) (w_id q)) = Some r ∧ o = wrap64 (d_next (ns home) r + 1) ∧
  order_ids (w_id q) (d_id q) (insert_rows (mgr s' home)) = [o] ∧
  ∀ n i o', i ∈ insert_rows (mgr s' n) → line_id i = Some o' → o' = if decide (n = home) then o else o_id (query (pool n)).
Proof.
  intros Hok Hf Ht Hrun. destruct (run_query_total _ _ _ _ _ _ _ Hok Hf) as (rc&s1&R'&Hr&Hd&Hsim). rewrite Hr in Hrun. injection Hrun as -> ->.
  unfold ref_query in Hd. rewrite plan_order in Hd by done.
  apply order_plan_ordered in Hd as (r&o&[O1 O2 O3 O4 O5 O6]); [|apply (qo_nodes _ _ _ _ _ _ Hok)|done]. exists r, o.
  split; [exact O1|]. split; [exact O2|]. rewrite (sim_ins _ _ _ _ Hsim), O4, decide_True by done. split; [done|].
  intros n i o' Hi. rewrite (sim_ins _ _ _ _ Hsim) in Hi. by apply O6.
Qed.

(** ** An example: two nodes with a warehouse each *)

Module Example.

Definition ex_c : tconfig := mkTC 2 2 2 1 1 2 true 15.

(** Warehouse [w]: the rows of the warehouse, its district and its customer, of two items
    and of their stock. *)
Definition ex_idx (w : Z) (i : INDEX) (key : Z) : list nat :=
  let at1 (k : Z) (l : list nat) := if key =? k then l else [] in
  match i with
  | i_warehouse => at1 w [0%nat] | i_district => at1 (w + 1) [1%nat] | i_customer_id => at1 (w + 2) [2%nat]
  | i_customer_last => [2%nat] | i_item => at1 1 [3%nat] ++ at1 2 [4%nat]
  | i_stock => at1 (2 * w + 1) [5%nat] ++ at1 (2 * w + 2) [6%nat]
  end.
Definition ex_tables : list TPCCTable :=
  [TPCC_WAREHOUSE; TPCC_DISTRICT; TPCC_CUSTOMER; TPCC_ITEM; TPCC_ITEM; TPCC_STOCK; TPCC_STOCK].
Definition ex_col (col : column) : Z := match col with D_NEXT_O_ID => 3001 | S_QUANTITY => 12 | _ => 0 end.
Definition ex_node (n : Z) : node :=
  mkNode (ex_idx (n + 1)) (λ r, mkRow (default TPCC_HISTORY (ex_tables !! r)) ex_col).

Definition ex_order : tpcc_input :=
  mkTI TPCC_NEW_ORDER 1 1 1 0 0 0 (replicate 16 0) 0 false [mkItem 1 1 5; mkItem 2 2 3; mkItem 1 2 2] false true 3 2013.
Definition ex_payment : tpcc_input := mkTI TPCC_PAYMENT 1 1 1 1 2 1 (66 :: replicate 15 0) 4000 true [] false false 0 0.

Definition ex_pool (n : Z) : TPCCTxnManager :=
  mkT (mkTQ (set_items [] ex_payment) 0 (if n =? 0 then 3001 else 17)) TPCC_FIN 0 None None [] [] [].
Definition ex_ans (n : Z) (i : nat) : RC := if (i =? 1)%nat then WAIT else RCOK.
Definition ex_refuse (n : Z) (i : nat) : RC := if (n =? 1) && (i =? 1)%nat then Abort else RCOK.

Definition ex_txns : list txn :=
  [mkTxn ex_order ex_ans ex_pool; mkTxn ex_order ex_refuse ex_pool; mkTxn ex_payment ex_ans ex_pool; mkTxn ex_order ex_ans ex_pool].

Lemma ex_node_ok n : node_ok (ex_node n).
Proof.
  intros i key r Hr. destruct i; cbn in Hr; repeat (destruct (_ =? _) in Hr; cbn in Hr); set_unfold in Hr;
    repeat (destruct Hr as [->|Hr]; [done|]); try done; by subst r.
Qed.

Lemma ex_answers ans : ans = ex_ans ∨ ans = ex_refuse → ∀ n i, row_answer (ans n i).
Proof. intros [->| ->] n i; unfold ex_ans, ex_refuse, row_answer; case_match; auto. Qed.

Lemma ex_rows q l : forallb (λ '(g, u), match unit_row ex_c q u (ex_node g) with Some _ => true | None => false end) l = true →
  Forall (λ '(g, u), is_Some (unit_row ex_c q u (ex_node g))) l.
Proof. intros Hl. apply Forall_forall. intros [g u] Hin%list_elem_of_In. rewrite forallb_forall in Hl. specialize (Hl _ Hin). cbn in Hl. by case_match. Qed.

Lemma ex_query_ok ans q : ans = ex_ans ∨ ans = ex_refuse → q = ex_order ∨ q = ex_payment → query_ok ex_c 0 ans q ex_pool ex_node.
Proof.
  intros Ha Hq. split; try (by apply ex_answers); try (by intros n; apply ex_node_ok); try (by destruct Hq as [->| ->]).
  - destruct Hq as [->| ->]; [by right|by left].
  - destruct Hq as [->| ->]; cbn; unfold MAX_ROW_PER_TXN; lia.
  - apply ex_rows. destruct Hq as [->| ->]; vm_compute; reflexivity.
Qed.

Lemma ex_txn_ok ans q : ans = ex_ans ∨ ans = ex_refuse → q = ex_order ∨ q = ex_payment → txn_ok ex_c 27 ex_node (mkTxn q ans ex_pool).
Proof.
  intros Ha Hq. unfold txn_ok, x_home. cbn [x_query x_ans x_pool]. replace (owner ex_c (w_id q)) with 0 by (by destruct Hq as [->| ->]).
  split; [by apply ex_query_ok|]. destruct Hq as [->| ->]; unfold enough, dist_ok, u64_mod; cbn; lia.
Qed.

End Example.
Import Example.

Lemma tpcc_query_exact_witness :
  (∃ rc s' R', run_query ex_c 0 ex_refuse 27 ex_order ex_pool ex_node = Some (rc, s') ∧
    ref_query ex_c 0 ex_refuse ex_order ex_pool ex_node = Some (rc, R') ∧
    ∀ n, accesses (mgr s' n) = r_acc R' n ∧ insert_rows (mgr s' n) = r_ins R' n ∧ nodes s' n = r_nodes R' n ∧
      (accesses (mgr s' n) ≠ [] → n ∈ partitions_touched (mgr s' 0))) ∧
  fst <$> run_query ex_c 0 ex_refuse 27 ex_order ex_pool ex_node = Some Abort ∧
  fst <$> run_query ex_c 0 ex_ans 27 ex_order ex_pool ex_node = Some RCOK ∧
  fst <$> run_query ex_c 0 ex_ans 9 ex_payment ex_pool ex_node = Some RCOK.
Proof.
  split; [apply (tpcc_query_exact ex_c 0 ex_refuse ex_order ex_pool ex_node 27)|split_and!; vm_compute; reflexivity].
  - apply ex_query_ok; auto.
  - unfold enough. cbn. lia.
Defined.

Lemma tpcc_stock_bounds_witness : ∃ rc s',
  run_query ex_c 0 ex_ans 27 ex_order ex_pool ex_node = Some (rc, s') ∧ ∀ n, stock_ok (nodes s' n).
Proof.
  apply (tpcc_stock_bounds ex_c 0 ex_ans ex_order ex_pool ex_node 27).
  - apply ex_query_ok; auto.
  - unfold enough. cbn. lia.
  - intros it Hit. cbn in Hit. set_unfold in Hit. destruct Hit as [->|[->|[->|[]]]]; cbn; lia.
  - intros n r _. cbn. lia.
Defined.

(** The order of the home node has id 3002, its lines on the other node have id 17. *)
Lemma tpcc_remote_line_ids_witness : ∃ s',
  run_query ex_c 0 ex_ans 27 ex_order ex_pool ex_node = Some (RCOK, s') ∧
  omap line_id (insert_rows (mgr s' 0)) = [3002] ∧ omap line_id (insert_rows (mgr s' 1)) = [17; 17] ∧
  ∃ r o, index_read (ex_node 0) i_district (distKey ex_c 1 1) = Some r ∧ o = wrap64 (d_next (ex_node 0) r + 1) ∧
    order_ids 1 1 (insert_rows (mgr s' 0)) = [o] ∧
    ∀ n i o', i ∈ insert_rows (mgr s' n) → line_id i = Some o' → o' = if decide (n = 0) then o else o_id (query (ex_pool n)).
Proof.
  assert ((λ '(rc, s), (rc, omap line_id (insert_rows (mgr s 0)), omap line_id (insert_rows (mgr s 1)))) <$>
    run_query ex_c 0 ex_ans 27 ex_order ex_pool ex_node = Some (RCOK, [3002], [17; 17])) as Hrun by (vm_compute; reflexivity).
  destruct (run_query ex_c 0 ex_ans 27 ex_order ex_pool ex_node) as [[rc s']|] eqn:Hr; [|done]. injection Hrun as -> H0 H1.
  exists s'. split; [done|]. split; [done|]. split; [done|].
  apply (tpcc_remote_line_ids ex_c 0 ex_ans ex_order ex_pool ex_node 27).
  - apply ex_query_ok; auto.
  - unfold enough. cbn. lia.
  - done.
  - done.
Defined.

(** The order that is refused and the payment take no id. *)
Lemma tpcc_order_ids_witness :
  (∃ rcs log ns', serial ex_c 27 ex_txns ex_node = Some (rcs, log, ns') ∧ length rcs = length ex_txns ∧
    d_next (ns' (owner ex_c 1)) 1 = d_next (ex_node (owner ex_c 1)) 1 + Z.of_nat (taken 1 1 ex_txns rcs) ∧
    order_ids 1 1 log = map (λ i, d_next (ex_node (owner ex_c 1)) 1 + Z.of_nat i) (seq 1 (taken 1 1 ex_txns rcs))) ∧
  (λ '(rcs, log, _), (rcs, order_ids 1 1 log)) <$> serial ex_c 27 ex_txns ex_node = Some ([RCOK; Abort; RCOK; RCOK], [3002; 3003]).
Proof.
  split; [|vm_compute; reflexivity]. apply (tpcc_order_ids ex_c 27 ex_txns ex_node 1 1 1).
  - unfold ex_txns. repeat (apply Forall_cons; split; [apply ex_txn_ok; auto|]). done.
  - unfold dist_ok, u64_mod. cbn. lia.
  - intros k k' r. unfold index_read. cbn. set (m := owner ex_c 1 + 1 + 1). destruct (Z.eqb_spec k m), (Z.eqb_spec k' m); try done. congruence.
  - vm_compute. reflexivity.
  - by vm_compute.
  - by vm_compute.
Defined.

End TpccProps.
