(* ===== verification/CalvinExec.v ===== *)
(** * CalvinExec: how the nodes of a transaction execute it under Calvin

    Model of [run_calvin_txn] (the same loop in benchmarks/ycsb_txn.cpp and
    benchmarks/tpcc_txn.cpp), [TxnManager::send_remote_reads], and the handlers
    [WorkerThread::process_calvin_rtxn] and [process_rfwd]: each node analyses the query,
    performs its local reads, forwards them to the active nodes, and an active node performs
    its writes when the forwarded reads of all participants have arrived.  The nodes start
    in any order, also after messages of others have arrived, and messages are delivered in
    any order.  What the loop needs of the analysis of a query is the class [Analysis];
    the queries of YCSB and TPC-C implement it.  What the phases with reads and writes do to
    the rows of a node is a function of the workload, which may fail. *)

From S2P Require Import Prelude Message.

Module CalvinExec.
Import Message.Message.

Inductive CALVIN_PHASE := CALVIN_RW_ANALYSIS | CALVIN_LOC_RD | CALVIN_SERVE_RD | CALVIN_COLLECT_RD | CALVIN_EXEC_WR | CALVIN_DONE.

#[export] Instance CALVIN_PHASE_eq_dec : EqDecision CALVIN_PHASE.
Proof. solve_decision. Defined.

(** ** The analysis of a query *)

(** What [get_participants] leaves: the two arrays and the count.  [exchange] says whether
    reads are forwarded at all, and [checks] whether the loop asserts that a node which
    waits expects messages. *)
Record analysis := mkA {
  participant_nodes : list Z;
  active_nodes : list Z;
  participant_cnt : Z;
  exchange : bool;
  checks : bool }.

Definition is_set (l : list Z) (g : nat) : Prop := l !! g = Some 1.
#[export] Instance is_set_dec l g : Decision (is_set l g).
Proof. unfold is_set. apply _. Defined.

Definition participants (a : analysis) : list nat := filter (is_set (participant_nodes a)) (seq 0 (length (participant_nodes a))).

(** The loop relies on the count being that of the array. *)
Class Analysis (a : analysis) : Prop := {
  an_cnt : participant_cnt a = Z.of_nat (length (participants a));
  an_len : length (active_nodes a) = length (participant_nodes a) }.

(** ** The transaction manager of a node *)

Record cmgr := mkC { phase : CALVIN_PHASE; rsp_cnt : Z; calvin_expected_rsp_cnt : Z; txn_rc : RC }.

Definition set_phase (p : CALVIN_PHASE) (t : cmgr) : cmgr := mkC p (rsp_cnt t) (calvin_expected_rsp_cnt t) (txn_rc t).
Definition new_mgr : cmgr := mkC CALVIN_RW_ANALYSIS 0 0 RCOK.

Section exec.
(** [work g ph] is [run_ycsb], or [run_tpcc_phase2] and [run_tpcc_phase5], on the node [g]
    in the phase; it is [None] where they fail an assertion.  They return [RCOK]. *)
Context (a : analysis) {W : Type} (work : nat → CALVIN_PHASE → W → option W).

Definition calvin_exec_phase_done (t : cmgr) : bool := bool_decide (phase t = CALVIN_DONE) && negb (bool_decide (txn_rc t = WAIT)).
Definition calvin_collect_phase_done (t : cmgr) : bool :=
  bool_decide (phase t = CALVIN_COLLECT_RD) && (rsp_cnt t =? calvin_expected_rsp_cnt t).

(** The destinations of the forwarded reads. *)
Definition send_remote_reads (g : nat) : list nat :=
  if exchange a then filter (λ i, i ≠ g ∧ is_set (active_nodes a) i) (seq 0 (length (active_nodes a))) else [].

(** The work of a node in a phase. *)
Definition event : Type := nat * CALVIN_PHASE.

(** What a run leaves: the result, the manager, the rows, the messages and the work. *)
Definition result : Type := RC * cmgr * W * list nat * list event.

(** One iteration of the loop. *)
Definition phase_step (g : nat) (t : cmgr) (w : W) : option result :=
  match phase t with
  | CALVIN_RW_ANALYSIS =>
      p ← participant_nodes a !! g;
      let cnt := if exchange a then (if p =? 1 then participant_cnt a - 1 else participant_cnt a) else 0 in
      Some (RCOK, mkC CALVIN_LOC_RD (rsp_cnt t) cnt (txn_rc t), w, [], [])
  | CALVIN_LOC_RD => w ← work g CALVIN_LOC_RD w; Some (RCOK, set_phase CALVIN_SERVE_RD t, w, [], [(g, CALVIN_LOC_RD)])
  | CALVIN_SERVE_RD =>
      p ← participant_nodes a !! g;
      let out := if p =? 1 then send_remote_reads g else [] in
      act ← active_nodes a !! g;
      if act =? 1 then
        let t := set_phase CALVIN_COLLECT_RD t in
        if calvin_collect_phase_done t then Some (RCOK, t, w, out, [])
        else ASSERT negb (checks a) || (0 <? calvin_expected_rsp_cnt t); Some (WAIT, t, w, out, [])
      else Some (RCOK, set_phase CALVIN_DONE t, w, out, [])
  | CALVIN_COLLECT_RD => Some (RCOK, set_phase CALVIN_EXEC_WR t, w, [], [])
  | CALVIN_EXEC_WR => w ← work g CALVIN_EXEC_WR w; Some (RCOK, set_phase CALVIN_DONE t, w, [], [(g, CALVIN_EXEC_WR)])
  | CALVIN_DONE => None
  end.

(** The loop ends after at most five iterations. *)
Fixpoint run_loop (fuel : nat) (g : nat) (rc : RC) (t : cmgr) (w : W) : option result :=
  if negb (calvin_exec_phase_done t) && bool_decide (rc = RCOK) then
    match fuel with
    | O => None
    | S fuel =>
        '(rc, t, w, out, ev) ← phase_step g t w;
        '(rc, t, w, out', ev') ← run_loop fuel g rc t w;
        Some (rc, t, w, out ++ out', ev ++ ev')
    end
  else Some (rc, t, w, [], []).
Definition run_calvin_txn (g : nat) (t : cmgr) (w : W) : option result := run_loop 5 g RCOK t w.

Definition received_response (rc : RC) (t : cmgr) : option cmgr :=
  ASSERT bool_decide (txn_rc t = RCOK) || bool_decide (txn_rc t = Abort);
  Some (mkC (phase t) (rsp_cnt t + 1) (calvin_expected_rsp_cnt t) (if bool_decide (txn_rc t = RCOK) then rc else txn_rc t)).

(** ** All nodes *)

(** Messages are pairs of the node that sent and the node that receives.  [started] has
    taken the transaction out of its work queue, [finished] has released the manager;
    [ws] are the rows of the nodes. *)
Record sys := mkS { cm : nat → cmgr; net : list (nat * nat); started : list nat; finished : list nat; log : list event; ws : nat → W }.

Definition init (w0 : nat → W) : sys := mkS (λ _, new_mgr) [] [] [] [] w0.

(** [calvin_wrapup] at the end. *)
Definition continue (g : nat) (t : cmgr) (s : sys) : option sys :=
  '(rc, t, w, out, ev) ← run_calvin_txn g t (ws s g);
  let done := bool_decide (rc = RCOK) && calvin_exec_phase_done t in
  Some (mkS (<[g := if done then new_mgr else t]> (cm s)) (net s ++ ((λ i, (g, i)) <$> out)) (started s)
            (if done then g :: finished s else finished s) (log s ++ ev) (<[g := w]> (ws s))).

Definition process_calvin_rtxn (g : nat) (s : sys) : option sys :=
  continue g (cm s g) (mkS (cm s) (net s) (g :: started s) (finished s) (log s) (ws s)).

Definition process_rfwd (g : nat) (s : sys) : option sys :=
  t ← received_response RCOK (cm s g);
  ASSERT 0 <=? rsp_cnt t;
  if calvin_collect_phase_done t then continue g t s
  else Some (mkS (<[g := t]> (cm s)) (net s) (started s) (finished s) (log s) (ws s)).

(** The nodes that are sent the transaction. *)
Definition involved (g : nat) : Prop := is_set (participant_nodes a) g ∨ is_set (active_nodes a) g.

Inductive step (s s' : sys) : Prop :=
  | do_start g : involved g → g ∉ started s → process_calvin_rtxn g s = Some s' → step s s'
  | do_deliver i p g : net s !! i = Some (p, g) →
      process_rfwd g (mkS (cm s) (delete i (net s)) (started s) (finished s) (log s) (ws s)) = Some s' → step s s'.

(** ** What a handler does *)

Context `{Analysis a}.

#[local] Abbreviation part := (is_set (participant_nodes a)).
#[local] Abbreviation active := (is_set (active_nodes a)).

Definition others (g : nat) : list nat := filter (λ p, p ≠ g) (participants a).
(** The messages a node expects. *)
Definition expected (g : nat) : Z := if exchange a then Z.of_nat (length (others g)) else 0.
Definition outgoing (g : nat) : list nat := if decide (part g) then send_remote_reads g else [].

Lemma elem_of_participants g : g ∈ participants a ↔ part g.
Proof.
  unfold participants. rewrite list_elem_of_filter, elem_of_seq. split; [by intros [? _]|]. intros Hp. split; [done|].
  apply lookup_lt_Some in Hp. lia.
Qed.

Lemma NoDup_participants : NoDup (participants a).
Proof. apply NoDup_filter, NoDup_seq. Qed.

Lemma length_filter_ne (l : list nat) g : NoDup l → length (filter (λ p, p ≠ g) l) = (length l - if decide (g ∈ l) then 1 else 0)%nat.
Proof.
  induction 1 as [|x l Hx Hl IH]; [done|]. rewrite filter_cons. destruct (decide (x = g)) as [->|Hne].
  - rewrite decide_False by (by intros []). rewrite IH, decide_False, decide_True by (done || left). cbn. lia.
  - rewrite decide_True by done. cbn [length]. rewrite IH. destruct (decide (g ∈ l)) as [Hin|Hin].
    + rewrite decide_True by (by right). assert (0 < length l)%nat by (by destruct l; [apply not_elem_of_nil in Hin|cbn; lia]). lia.
    + rewrite decide_False; [lia|]. intros [->|?]%elem_of_cons; done.
Qed.

Lemma expected_spec g p : participant_nodes a !! g = Some p →
  (if exchange a then (if p =? 1 then participant_cnt a - 1 else participant_cnt a) else 0) = expected g.
Proof.
  intros Hp. unfold expected, others. destruct (exchange a); [|done]. rewrite an_cnt, length_filter_ne by apply NoDup_participants.
  destruct (Z.eqb_spec p 1) as [->|Hne].
  - rewrite decide_True by (by apply elem_of_participants).
    assert (0 < length (participants a))%nat by (pose proof (proj2 (elem_of_participants g) Hp) as Hin; destruct (participants a); [by apply not_elem_of_nil in Hin|cbn; lia]).
    lia.
  - rewrite decide_False; [f_equal; lia|]. rewrite elem_of_participants. unfold is_set. congruence.
Qed.

Lemma involved_lookup g : involved g → ∃ p act, participant_nodes a !! g = Some p ∧ active_nodes a !! g = Some act.
Proof.
  intros Hg. assert (g < length (participant_nodes a))%nat as Hlt.
  { destruct Hg as [Hg|Hg]; apply lookup_lt_Some in Hg; [done|by rewrite an_len in Hg]. }
  destruct (lookup_lt_is_Some_2 _ _ Hlt) as [p Hp]. rewrite <-an_len in Hlt. destruct (lookup_lt_is_Some_2 _ _ Hlt) as [act Ha]. by exists p, act.
Qed.

Lemma run_loop_step f g t w : phase t ≠ CALVIN_DONE → run_loop (S f) g RCOK t w =
  ('(rc, t, w, out, ev) ← phase_step g t w; '(rc, t, w, out', ev') ← run_loop f g rc t w; Some (rc, t, w, out ++ out', ev ++ ev')).
Proof. intros Hp. cbn [run_loop]. unfold calvin_exec_phase_done. by rewrite (bool_decide_false (phase t = _)), (bool_decide_true (RCOK = RCOK)). Qed.
Lemma run_loop_done f g t w : phase t = CALVIN_DONE → txn_rc t = RCOK → run_loop f g RCOK t w = Some (RCOK, t, w, [], []).
Proof.
  intros Hp Hr. assert (calvin_exec_phase_done t = true) as Hd by (unfold calvin_exec_phase_done; by rewrite Hp, Hr, bool_decide_true, bool_decide_false by done).
  destruct f; cbn [run_loop]; by rewrite Hd.
Qed.
Lemma run_loop_wait f g t w : run_loop f g WAIT t w = Some (WAIT, t, w, [], []).
Proof. destruct f; cbn [run_loop]; by rewrite (bool_decide_false (WAIT = RCOK)), andb_false_r by done. Qed.

Lemma run_loop_collected g f r e w : run_loop (S (S f)) g RCOK (mkC CALVIN_COLLECT_RD r e RCOK) w =
  (w ← work g CALVIN_EXEC_WR w; Some (RCOK, mkC CALVIN_DONE r e RCOK, w, [], [(g, CALVIN_EXEC_WR)])).
Proof.
  rewrite run_loop_step by done. cbn [phase_step phase mbind option_bind]. unfold set_phase. rewrite run_loop_step by done.
  cbn [phase_step phase]. destruct (work g CALVIN_EXEC_WR w) as [w1|]; [|done]. cbn [mbind option_bind]. by rewrite run_loop_done.
Qed.

(** A node that starts with [r] messages. *)
Lemma run_new g r e w : involved g → (active g → r ≠ expected g → checks a = true → 0 < expected g) →
  run_calvin_txn g (mkC CALVIN_RW_ANALYSIS r e RCOK) w =
    (w ← work g CALVIN_LOC_RD w;
     if decide (active g) then
       if decide (r = expected g) then
         w ← work g CALVIN_EXEC_WR w;
         Some (RCOK, mkC CALVIN_DONE r (expected g) RCOK, w, outgoing g, [(g, CALVIN_LOC_RD); (g, CALVIN_EXEC_WR)])
       else Some (WAIT, mkC CALVIN_COLLECT_RD r (expected g) RCOK, w, outgoing g, [(g, CALVIN_LOC_RD)])
     else Some (RCOK, mkC CALVIN_DONE r (expected g) RCOK, w, outgoing g, [(g, CALVIN_LOC_RD)])).
Proof.
  intros (p&act&Hp&Ha)%involved_lookup Hpos. unfold run_calvin_txn.
  assert ((if p =? 1 then send_remote_reads g else []) = outgoing g) as Hout.
  { unfold outgoing. destruct (Z.eqb_spec p 1) as [->|Hne]; [by rewrite decide_True|]. rewrite decide_False; [done|]. unfold is_set. congruence. }
  rewrite run_loop_step by done. cbn [phase_step phase]. rewrite Hp. cbn [mbind option_bind]. rewrite (expected_spec g p Hp).
  rewrite run_loop_step by done. cbn [phase_step phase]. destruct (work g CALVIN_LOC_RD w) as [w1|]; [|done]. cbn [mbind option_bind].
  unfold set_phase. cbn [rsp_cnt calvin_expected_rsp_cnt txn_rc].
  rewrite run_loop_step by done. cbn [phase_step phase]. rewrite Hp, Ha. unfold set_phase. cbn [mbind option_bind rsp_cnt calvin_expected_rsp_cnt txn_rc].
  rewrite Hout. unfold calvin_collect_phase_done. cbn [phase rsp_cnt calvin_expected_rsp_cnt]. rewrite (bool_decide_true (CALVIN_COLLECT_RD = _)) by done.
  destruct (decide (active g)) as [Hact|Hact].
  - unfold is_set in Hact. rewrite Ha in Hact. injection Hact as ->. cbn [Z.eqb andb].
    destruct (Z.eqb_spec r (expected g)) as [->|Hne].
    { rewrite decide_True by done. cbn [Pos.eqb mbind option_bind]. rewrite run_loop_collected. destruct (work g CALVIN_EXEC_WR w1); cbn; by rewrite ?app_nil_r. }
    rewrite decide_False by done. cbn [Pos.eqb]. rewrite assert_bind_true.
    + cbn [mbind option_bind]. rewrite run_loop_wait. cbn. by rewrite !app_nil_r.
    + destruct (checks a) eqn:Hchk; [|done]. cbn. by apply Z.ltb_lt, Hpos.
  - rewrite (proj2 (Z.eqb_neq act 1)) by (intros ->; done). cbn [mbind option_bind].
    rewrite run_loop_done by done. cbn. by rewrite !app_nil_r.
Qed.

Lemma run_collected g r e w : run_calvin_txn g (mkC CALVIN_COLLECT_RD r e RCOK) w =
  (w ← work g CALVIN_EXEC_WR w; Some (RCOK, mkC CALVIN_DONE r e RCOK, w, [], [(g, CALVIN_EXEC_WR)])).
Proof. apply run_loop_collected. Qed.

(** ** The invariant *)

(** The participants among the nodes [l] whose reads come to [g]. *)
Definition came (g : nat) (l : list nat) : list nat := filter (λ p, part p ∧ p ≠ g) l.
Definition pending (g : nat) (l : list (nat * nat)) : list (nat * nat) := filter (λ m, m.2 = g) l.

Lemma exec_elem_of_others g p : p ∈ others g ↔ part p ∧ p ≠ g.
Proof. unfold others. rewrite list_elem_of_filter, elem_of_participants. naive_solver. Qed.
Lemma came_sub g l : NoDup l → came g l ⊆+ others g.
Proof. intros Hl. apply NoDup_submseteq; [by apply NoDup_filter|]. intros p. unfold came. rewrite list_elem_of_filter, exec_elem_of_others. naive_solver. Qed.
Lemma came_all g l p : NoDup l → (length (others g) ≤ length (came g l))%nat → part p → p ≠ g → p ∈ l.
Proof.
  intros Hl Hle Hp Hne. pose proof (submseteq_length_Permutation _ _ (came_sub g l Hl) Hle) as Hperm.
  assert (p ∈ came g l) as Hin by (rewrite Hperm; by apply exec_elem_of_others). unfold came in Hin. by apply list_elem_of_filter in Hin as [_ Hin].
Qed.

Lemma elem_of_outgoing g i : i ∈ outgoing g ↔ exchange a = true ∧ part g ∧ i ≠ g ∧ active i.
Proof.
  unfold outgoing, send_remote_reads. destruct (decide (part g)) as [Hp|Hp]; [|split; [by intros []%not_elem_of_nil|naive_solver]].
  destruct (exchange a); [|split; [by intros []%not_elem_of_nil|naive_solver]]. rewrite list_elem_of_filter, elem_of_seq. split; [naive_solver|].
  intros (_&_&Hi&Ha). split; [done|]. apply lookup_lt_Some in Ha. lia.
Qed.
Lemma NoDup_outgoing g : NoDup (outgoing g).
Proof. unfold outgoing, send_remote_reads. destruct (decide (part g)), (exchange a); try apply NoDup_nil_2. apply NoDup_filter, NoDup_seq. Qed.

Lemma pending_sent g h out : NoDup out → length (pending h ((λ i, (g, i)) <$> out)) = if decide (h ∈ out) then 1%nat else 0%nat.
Proof.
  induction 1 as [|i out Hi Hout IH]; [done|]. cbn [fmap list_fmap]. unfold pending in *. rewrite filter_cons. cbn [snd].
  destruct (decide (i = h)) as [->|Hne].
  - cbn [length]. rewrite IH, decide_False, decide_True by (done || left). done.
  - rewrite IH. destruct (decide (h ∈ out)); [by rewrite decide_True by (by right)|]. rewrite decide_False; [done|]. intros [->|?]%elem_of_cons; done.
Qed.

(** The writes of a node come after the reads of all participants. *)
Definition reads_first (l : list event) : Prop := ∀ i g, l !! i = Some (g, CALVIN_EXEC_WR) → exchange a = true →
  ∀ p, part p → ∃ j, (j < i)%nat ∧ l !! j = Some (p, CALVIN_LOC_RD).

Lemma reads_first_snoc l g ph : reads_first l → (ph = CALVIN_EXEC_WR → exchange a = true → ∀ p, part p → (p, CALVIN_LOC_RD) ∈ l) →
  reads_first (l ++ [(g, ph)]).
Proof.
  intros Hl Hph i g' Hi He p Hp. apply lookup_app_Some in Hi as [Hi|[Hlen Hi]].
  - destruct (Hl i g' Hi He p Hp) as (j&Hj&Hlj). exists j. split; [done|]. by apply lookup_app_l_Some.
  - apply list_lookup_singleton_Some in Hi as [Hi [= <- ->]]. destruct (list_elem_of_lookup_1 _ _ (Hph eq_refl He p Hp)) as [j Hj].
    exists j. pose proof (lookup_lt_Some _ _ _ Hj). split; [lia|]. by apply lookup_app_l_Some.
Qed.

(** [ex] is a node inside a handler. *)
Record inv (ex : nat → Prop) (s : sys) : Prop := {
  iv_started : NoDup (started s) ∧ ∀ g, g ∈ started s → involved g;
  iv_finished : NoDup (finished s) ∧ ∀ g, g ∈ finished s → g ∈ started s;
  iv_net : NoDup (net s) ∧ ∀ p g, (p, g) ∈ net s → exchange a = true ∧ p ∈ started s ∧ part p ∧ active g ∧ p ≠ g ∧ g ∉ finished s;
  iv_rc : ∀ g, txn_rc (cm s g) = RCOK ∧ 0 ≤ rsp_cnt (cm s g);
  iv_new : ∀ g, g ∉ started s → phase (cm s g) = CALVIN_RW_ANALYSIS;
  iv_wait : ∀ g, g ∈ started s → g ∉ finished s → ¬ ex g → active g ∧ phase (cm s g) = CALVIN_COLLECT_RD ∧
    calvin_expected_rsp_cnt (cm s g) = expected g ∧ rsp_cnt (cm s g) ≠ expected g;
  iv_count : ∀ g, g ∉ finished s → rsp_cnt (cm s g) + Z.of_nat (length (pending g (net s))) =
    if decide (exchange a = true ∧ active g) then Z.of_nat (length (came g (started s))) else 0;
  iv_all : ∀ g, exchange a = true → g ∈ finished s → active g → ∀ p, part p → p ≠ g → p ∈ started s;
  iv_log : NoDup (log s) ∧ ∀ g ph, (g, ph) ∈ log s ↔
    (ph = CALVIN_LOC_RD ∧ g ∈ started s) ∨ (ph = CALVIN_EXEC_WR ∧ g ∈ finished s ∧ active g);
  iv_first : reads_first (log s) }.

(** A node never has more messages than it expects. *)
Lemma rsp_le ex s g : inv ex s → g ∉ finished s → rsp_cnt (cm s g) + Z.of_nat (length (pending g (net s))) ≤ expected g.
Proof.
  intros Hi Hf. rewrite (iv_count _ _ Hi g Hf). unfold expected. pose proof (submseteq_length _ _ (came_sub g (started s) (proj1 (iv_started _ _ Hi)))).
  destruct (decide (exchange a = true ∧ active g)) as [[-> _]|]; [lia|]. destruct (exchange a); lia.
Qed.

Lemma exec_init_inv w0 : inv (λ _, False) (init w0).
Proof.
  split; cbn; try done; try (split; [apply NoDup_nil_2|]); try (intros g; split; done || lia); try (by intros ? ?%not_elem_of_nil);
    try (by intros ? ? ?%not_elem_of_nil).
  - intros g _. by destruct (decide _).
  - intros g ph. split; [by intros ?%not_elem_of_nil|]. intros [[_ Hg]|[_ [Hg _]]]; by apply not_elem_of_nil in Hg.
Qed.

(** ** The steps keep it *)

Lemma at_node {A} (f : nat → A) g x h (P : A → Prop) : (h = g → P x) → (h ≠ g → P (f h)) → P ((<[g := x]> f) h).
Proof. intros H1 H2. destruct (decide (h = g)) as [->|Hne]; [rewrite fn_lookup_insert|rewrite fn_lookup_insert_ne by done]; auto. Qed.

(** A node starts: its reads are done and sent. *)
Lemma exec_start_inv s g t w : inv (λ _, False) s → involved g → g ∉ started s → rsp_cnt t = rsp_cnt (cm s g) → txn_rc t = RCOK →
  inv (λ h, h = g) (mkS (<[g := t]> (cm s)) (net s ++ ((λ i, (g, i)) <$> outgoing g)) (g :: started s) (finished s) (log s ++ [(g, CALVIN_LOC_RD)]) w).
Proof.
  intros [[I1 I1'] [I2 I2'] [I3 I3'] I4 I5 I6 I7 I8 [I9 I9'] I10] Hg Hns Hr Hrc.
  assert (g ∉ finished s) as Hnf by (intros Hf; by apply Hns, I2').
  assert (∀ h, (g, h) ∈ net s → False) as Hno by (intros h Hin; by destruct (I3' g h Hin) as (_&?&_)).
  split; cbn [cm net started finished log].
  - split; [by constructor|]. intros h [->|Hh]%elem_of_cons; auto.
  - split; [done|]. intros h Hh. right. auto.
  - split.
    + apply NoDup_app. split; [done|]. split; [|apply NoDup_fmap_2; [by intros ?? [= ->]|apply NoDup_outgoing]].
      intros [p h] Hin (i&[= -> ->]&_)%list_elem_of_fmap. by eapply Hno.
    + intros p h [Hin|Hin]%elem_of_app; [destruct (I3' p h Hin) as (?&?&?&?&?&?); split_and!; try done; by right|].
      apply list_elem_of_fmap in Hin as (i&[= -> ->]&(He&Hp&Hne&Ha)%elem_of_outgoing). split_and!; try done; [left|].
      intros Hf. apply Hns. by eapply (I8 i).
  - intros h. apply at_node; intros ?; [split; [done|rewrite Hr; apply I4]|apply I4].
  - intros h Hh. apply not_elem_of_cons in Hh as [Hne Hh]. rewrite fn_lookup_insert_ne by done. by apply I5.
  - intros h [->|Hh]%elem_of_cons Hhf Hne; [done|]. rewrite fn_lookup_insert_ne by done. apply I6; [done|done|by intros []].
  - intros h Hh. unfold pending. rewrite filter_app, length_app. fold (pending h (net s)). fold (pending h ((λ i, (g, i)) <$> outgoing g)).
    rewrite pending_sent by apply NoDup_outgoing. specialize (I7 h Hh).
    assert (rsp_cnt ((<[g := t]> (cm s)) h) = rsp_cnt (cm s h)) as -> by (apply at_node; intros; by subst).
    unfold came. rewrite filter_cons. fold (came h (started s)). pose proof (elem_of_outgoing g h) as Hout.
    destruct (decide (exchange a = true ∧ active h)) as [[He Ha]|Hna].
    + destruct (decide (part g ∧ g ≠ h)) as [[Hp Hne]|Hn].
      * rewrite decide_True by naive_solver. cbn [length]. lia.
      * rewrite decide_False by naive_solver. lia.
    + rewrite decide_False by naive_solver. lia.
  - intros h He Hf Ha p Hp Hne. right. by eapply I8.
  - split.
    + apply NoDup_app. split; [done|]. split; [|apply NoDup_singleton]. intros [h ph] Hin Hin2%list_elem_of_singleton. injection Hin2 as -> ->.
      apply I9' in Hin as [[_ ?]|[? _]]; done.
    + intros h ph. rewrite elem_of_app, I9', list_elem_of_singleton, elem_of_cons. naive_solver.
  - by apply reads_first_snoc.
Qed.

(** A node that waits for nothing any more performs its writes and finishes. *)
Lemma exec_finish_inv s g ev w : inv (λ h, h = g) s → g ∈ started s → g ∉ finished s → (active g → rsp_cnt (cm s g) = expected g) →
  ev = (if decide (active g) then [(g, CALVIN_EXEC_WR)] else []) →
  inv (λ _, False) (mkS (<[g := new_mgr]> (cm s)) (net s) (started s) (g :: finished s) (log s ++ ev) w).
Proof.
  intros Hinv Hs Hnf Hexp ->. pose proof (rsp_le _ _ g Hinv Hnf) as Hle. destruct Hinv as [[I1 I1'] [I2 I2'] [I3 I3'] I4 I5 I6 I7 I8 [I9 I9'] I10].
  specialize (I4 g) as HI4. specialize (I7 g Hnf) as HI7.
  assert (active g → exchange a = true → ∀ p, part p → p ≠ g → p ∈ started s) as Hall.
  { intros Ha He p Hp Hne. eapply (came_all g); try done. rewrite decide_True in HI7 by done. rewrite Hexp in Hle, HI7 by done.
    unfold expected in *. rewrite He in Hle, HI7. lia. }
  assert (∀ p, (p, g) ∈ net s → False) as Hno.
  { intros p Hin. destruct (I3' p g Hin) as (_&_&_&Ha&_). rewrite Hexp in Hle by done.
    assert (pending g (net s) ≠ []) as Hne by (intros He; apply (not_elem_of_nil (p, g)); rewrite <-He; by apply list_elem_of_filter).
    destruct (pending g (net s)); [done|]. cbn [length] in Hle. lia. }
  split; cbn [cm net started finished log]; try done.
  - split; [by constructor|]. intros h [->|Hh]%elem_of_cons; auto.
  - split; [done|]. intros p h Hin. destruct (I3' p h Hin) as (?&?&?&?&?&?). split_and!; try done.
    intros [->|?]%elem_of_cons; [by eapply Hno|done].
  - intros h. apply at_node; [done|intros _; apply I4].
  - intros h Hh. rewrite fn_lookup_insert_ne by congruence. by apply I5.
  - intros h Hh Hhf _. apply not_elem_of_cons in Hhf as [Hne Hhf]. rewrite fn_lookup_insert_ne by done. by apply I6.
  - intros h Hh. apply not_elem_of_cons in Hh as [Hne Hh]. rewrite fn_lookup_insert_ne by done. by apply I7.
  - intros h He [->|Hf]%elem_of_cons Ha; [by apply Hall|by apply I8].
  - destruct (decide (active g)) as [Ha|Ha]; [|rewrite app_nil_r; split; [done|]; intros h ph; rewrite I9', elem_of_cons; naive_solver].
    split; [|intros h ph; rewrite elem_of_app, I9', list_elem_of_singleton, elem_of_cons; naive_solver].
    apply NoDup_app. split; [done|]. split; [|apply NoDup_singleton]. intros [h ph] Hin Hin2%list_elem_of_singleton. injection Hin2 as -> ->.
    apply I9' in Hin as [[? _]|[_ [? _]]]; done.
  - destruct (decide (active g)) as [Ha|Ha]; [|by rewrite app_nil_r]. apply reads_first_snoc; [done|]. intros _ He p Hp. apply I9'. left. split; [done|].
    destruct (decide (p = g)) as [->|Hne]; [done|by apply Hall].
Qed.

(** A message arrives. *)
Lemma arrive_inv s i p g t w : inv (λ _, False) s → net s !! i = Some (p, g) → rsp_cnt t = rsp_cnt (cm s g) + 1 → txn_rc t = RCOK → phase t = phase (cm s g) →
  inv (λ h, h = g) (mkS (<[g := t]> (cm s)) (delete i (net s)) (started s) (finished s) (log s) w).
Proof.
  intros [[I1 I1'] [I2 I2'] [I3 I3'] I4 I5 I6 I7 I8 [I9 I9'] I10] Hi Hr Hrc Hph. pose proof (delete_Permutation _ _ _ Hi) as Hperm.
  assert (∀ m, m ∈ delete i (net s) → m ∈ net s) as Hsub by (intros m Hm; rewrite Hperm; by right).
  split; cbn [cm net started finished log]; try done.
  - split; [rewrite Hperm in I3; by apply NoDup_cons in I3 as [_ ?]|]. intros p' h Hin. by apply I3', Hsub.
  - intros h. pose proof (I4 h) as HI4. apply at_node; [intros ->; split; [done|lia]|done].
  - intros h Hh. pose proof (I5 h Hh) as HI5. apply at_node; [intros ->; by rewrite Hph|done].
  - intros h Hh Hhf Hne. rewrite fn_lookup_insert_ne by done. apply I6; [done|done|by intros []].
  - intros h Hh. specialize (I7 h Hh). rewrite <-I7. unfold pending. revert Hperm. generalize (delete i (net s)). intros d Hperm.
    rewrite Hperm, filter_cons. cbn [snd]. destruct (decide (g = h)) as [->|Hne]; [rewrite fn_lookup_insert, Hr; cbn [length]; lia|by rewrite fn_lookup_insert_ne].
Qed.

Lemma inv_wait s g : inv (λ h, h = g) s → (g ∈ started s → active g ∧ phase (cm s g) = CALVIN_COLLECT_RD ∧
    calvin_expected_rsp_cnt (cm s g) = expected g ∧ rsp_cnt (cm s g) ≠ expected g) → inv (λ _, False) s.
Proof. intros [I1 I2 I3 I4 I5 I6 I7 I8 I9 I10] Hg. split; try done. intros h Hh Hf _. destruct (decide (h = g)) as [->|Hne]; [by apply Hg|by apply I6]. Qed.

Lemma inv_ext ex s s' : inv ex s → (∀ h, cm s' h = cm s h) → net s' = net s → started s' = started s → finished s' = finished s → log s' = log s → inv ex s'.
Proof.
  intros [I1 I2 I3 I4 I5 I6 I7 I8 I9 I10] Hc Hn Hs Hf Hl. split; rewrite ?Hn, ?Hs, ?Hf, ?Hl; try done; intros h; rewrite Hc; [apply I4|apply I5|apply I6|apply I7].
Qed.

Lemma insert_twice {A} (f : nat → A) g x y h : (<[g := y]> (<[g := x]> f)) h = (<[g := y]> f) h.
Proof. destruct (decide (h = g)) as [->|Hne]; [by rewrite !fn_lookup_insert|by rewrite !fn_lookup_insert_ne]. Qed.

(** *** The rows *)

(** The work of a node, with rows that the transaction finds as they are in [w0]. *)
Definition work_of (g : nat) (w : W) : option W :=
  w ← work g CALVIN_LOC_RD w; if decide (active g) then work g CALVIN_EXEC_WR w else Some w.

Record rows_inv (w0 : nat → W) (s : sys) : Prop := {
  ri_new : ∀ g, g ∉ started s → ws s g = w0 g;
  ri_wait : ∀ g, g ∈ started s → g ∉ finished s → work g CALVIN_LOC_RD (w0 g) = Some (ws s g);
  ri_done : ∀ g, g ∈ finished s → work_of g (w0 g) = Some (ws s g) }.

Lemma exec_init_rows w0 : rows_inv w0 (init w0).
Proof. split; cbn; [done|by intros g ?%not_elem_of_nil..]. Qed.

(** A handler on the node [g] keeps it when it leaves the rows of [g] as the node is now. *)
Lemma rows_inv_at w0 s s' g w : rows_inv w0 s → (∀ h, h ≠ g → (h ∈ started s' ↔ h ∈ started s) ∧ (h ∈ finished s' ↔ h ∈ finished s)) →
  (∀ h, ws s' h = (<[g := w]> (ws s)) h) → g ∈ started s' →
  (g ∉ finished s' → work g CALVIN_LOC_RD (w0 g) = Some w) → (g ∈ finished s' → work_of g (w0 g) = Some w) → rows_inv w0 s'.
Proof.
  intros [R1 R2 R3] Hh Hw Hs H1 H2.
  split; intros h; rewrite Hw; (destruct (decide (h = g)) as [->|Hne]; [rewrite fn_lookup_insert|rewrite fn_lookup_insert_ne by done]); try done.
  all: destruct (Hh h Hne) as [Es Ef]; rewrite ?Es, ?Ef; auto.
Qed.

(** ** The handlers *)

Lemma exec_start_ok w0 s g : inv (λ _, False) s → rows_inv w0 s → involved g → g ∉ started s →
  (∀ s', process_calvin_rtxn g s = Some s' → inv (λ _, False) s' ∧ rows_inv w0 s' ∧
     started s' = g :: started s ∧ net s' = net s ++ ((λ i, (g, i)) <$> outgoing g)) ∧
  (is_Some (work_of g (w0 g)) → is_Some (process_calvin_rtxn g s)).
Proof.
  intros Hinv Hri Hg Hns. assert (g ∉ finished s) as Hnf by (intros Hf; by apply Hns, (iv_finished _ _ Hinv)).
  pose proof (rsp_le _ _ g Hinv Hnf) as Hle. pose proof (iv_rc _ _ Hinv g) as [Hrc Hpos]. pose proof (iv_new _ _ Hinv g Hns) as Hph.
  pose proof (λ t w, exec_start_inv s g t w Hinv Hg Hns) as Hst. pose proof (ri_new _ _ Hri g Hns) as Hw0.
  unfold process_calvin_rtxn, continue, work_of. destruct (cm s g) as [ph r e rc] eqn:Ht. cbn in Hle, Hrc, Hpos, Hph, Hst. subst ph rc.
  rewrite run_new by (done || (intros; lia)). cbn [cm net started finished log ws]. rewrite Hw0.
  assert (∀ f s', started s' = g :: started s → finished s' = f → (f = finished s ∨ f = g :: finished s) →
    ∀ h, h ≠ g → (h ∈ started s' ↔ h ∈ started s) ∧ (h ∈ finished s' ↔ h ∈ finished s)) as Hmem.
  { intros f s' -> -> [->| ->] h Hne; rewrite ?elem_of_cons; naive_solver. }
  destruct (work g CALVIN_LOC_RD (w0 g)) as [w1|] eqn:Hw1; [|split; [done|by intros []]]. cbn [mbind option_bind].
  destruct (decide (active g)) as [Ha|Ha]; [destruct (decide (r = expected g)) as [Hr|Hr]|]; cbn [mbind option_bind].
  - destruct (work g CALVIN_EXEC_WR w1) as [w2|] eqn:Hw2; [|split; [done|by intros []]]. cbn [mbind option_bind]. split; [|by eexists].
    intros s' [= <-]. split; [|split; [|done]].
    + eapply inv_ext; [eapply (exec_finish_inv _ g _ (ws s)); [apply (Hst (mkC CALVIN_COLLECT_RD r (expected g) RCOK) (ws s)); done|..]|..]; cbn [cm started finished log net]; try done.
      * left.
      * by rewrite fn_lookup_insert.
      * intros h. cbn. by rewrite insert_twice.
      * by rewrite decide_True, <-app_assoc.
    + eapply (rows_inv_at _ _ _ g w2); [exact Hri|eapply Hmem; [done|done|by right]|done|left|cbn; intros []; left|].
      intros _. unfold work_of. rewrite Hw1. cbn [mbind option_bind]. by rewrite decide_True.
  - split; [|by eexists]. intros s' [= <-]. split; [|split; [|done]].
    + eapply inv_wait; [apply (Hst (mkC CALVIN_COLLECT_RD r (expected g) RCOK)); done|]. cbn. by rewrite fn_lookup_insert.
    + by eapply (rows_inv_at _ _ _ g w1); [exact Hri|eapply Hmem; [done|done|by left]|done|left|..].
  - split; [|by eexists]. intros s' [= <-]. split; [|split; [|done]].
    + eapply inv_ext; [eapply (exec_finish_inv _ g _ (ws s)); [apply (Hst (mkC CALVIN_COLLECT_RD r (expected g) RCOK) (ws s)); done|..]|..]; cbn [cm started finished log net]; try done.
      * left.
      * intros h. cbn. by rewrite insert_twice.
      * by rewrite decide_False, app_nil_r.
    + eapply (rows_inv_at _ _ _ g w1); [exact Hri|eapply Hmem; [done|done|by right]|done|left|cbn; intros []; left|].
      intros _. unfold work_of. rewrite Hw1. cbn [mbind option_bind]. by rewrite decide_False.
Qed.

Lemma deliver_ok w0 s i p g : inv (λ _, False) s → rows_inv w0 s → net s !! i = Some (p, g) →
  (∀ s', process_rfwd g (mkS (cm s) (delete i (net s)) (started s) (finished s) (log s) (ws s)) = Some s' →
     inv (λ _, False) s' ∧ rows_inv w0 s' ∧ started s' = started s ∧ net s' = delete i (net s)) ∧
  (is_Some (work_of g (w0 g)) → is_Some (process_rfwd g (mkS (cm s) (delete i (net s)) (started s) (finished s) (log s) (ws s)))).
Proof.
  intros Hinv Hri Hi. destruct (proj2 (iv_net _ _ Hinv) p g) as (He&_&_&Ha&_&Hnf); [by eapply list_elem_of_lookup_2|].
  pose proof (iv_rc _ _ Hinv g) as [Hrc Hpos]. pose proof (λ t w, arrive_inv s i p g t w Hinv Hi) as Hst.
  pose proof (iv_new _ _ Hinv g) as Hnew. pose proof (λ H, iv_wait _ _ Hinv g H Hnf (λ x, x)) as Hwait.
  unfold process_rfwd, received_response. cbn [cm]. rewrite Hrc. rewrite assert_bind_true by done. cbn [mbind option_bind rsp_cnt].
  rewrite assert_bind_true by (apply Z.leb_le; lia). set (t := mkC _ _ _ _) in *.
  assert (inv (λ h, h = g) (mkS (<[g := t]> (cm s)) (delete i (net s)) (started s) (finished s) (log s) (ws s))) as Hinv1 by (by apply Hst).
  unfold calvin_collect_phase_done. cbn [t phase rsp_cnt calvin_expected_rsp_cnt].
  destruct (decide (g ∈ started s)) as [Hs|Hs].
  2: { rewrite (Hnew Hs), bool_decide_false by done. cbn [andb]. split; [|by eexists]. intros s' [= <-].
       split; [by eapply inv_wait; [exact Hinv1|]|]. split; [|done]. by destruct Hri. }
  destruct (Hwait Hs) as (_&Hph&Hexp&Hne).
  rewrite Hph, Hexp, bool_decide_true by done. cbn [andb]. destruct (Z.eqb_spec (rsp_cnt (cm s g) + 1) (expected g)) as [Heq|Hneq].
  - pose proof (ri_wait _ _ Hri g Hs Hnf) as Hw1.
    unfold continue, work_of. unfold t. rewrite Hph, Hexp. rewrite (bool_decide_true (RCOK = RCOK)) by done. rewrite run_collected. cbn [ws].
    rewrite Hw1. cbn [mbind option_bind]. rewrite decide_True by done.
    destruct (work g CALVIN_EXEC_WR (ws s g)) as [w2|] eqn:Hw2; [|split; [done|by intros []]]. cbn [mbind option_bind]. split; [|by eexists].
    intros s' [= <-]. cbn [started net fmap list_fmap]. rewrite app_nil_r. split; [|split; [|done]].
    + eapply inv_ext; [eapply (exec_finish_inv _ g _ (ws s)); [exact Hinv1|..]|..]; cbn [cm started finished log net]; try done.
      * intros _. rewrite fn_lookup_insert. done.
      * intros h. cbn. by rewrite insert_twice.
      * by rewrite decide_True.
    + eapply (rows_inv_at _ _ _ g w2); [exact Hri| |done|done|cbn; intros []; left|].
      * intros h Hh. cbn. rewrite elem_of_cons. naive_solver.
      * intros _. unfold work_of. rewrite Hw1. cbn [mbind option_bind]. by rewrite decide_True.
  - split; [|by eexists]. intros s' [= <-]. split; [|split; [by destruct Hri|done]].
    eapply inv_wait; [exact Hinv1|]. intros _. cbn [cm]. rewrite fn_lookup_insert. by rewrite <-Hexp in Hneq |- *.
Qed.

(** ** All executions *)

Definition size : nat := length (participant_nodes a).
(** A step starts a node or delivers one of the at most [size] messages a start sends. *)
Definition left_over (s : sys) : nat := ((size - length (started s)) * S size + length (net s))%nat.

Lemma started_le s : inv (λ _, False) s → (length (started s) ≤ size)%nat.
Proof.
  intros Hinv. destruct (iv_started _ _ Hinv) as [Hnd Hin]. transitivity (length (seq 0 size)); [|by rewrite length_seq]. apply submseteq_length, NoDup_submseteq; [done|].
  intros g (p&act&Hp&_)%Hin%involved_lookup. apply elem_of_seq. apply lookup_lt_Some in Hp. unfold size. lia.
Qed.

Lemma outgoing_le g : (length (outgoing g) ≤ size)%nat.
Proof.
  transitivity (length (seq 0 size)); [|by rewrite length_seq]. apply submseteq_length, NoDup_submseteq; [apply NoDup_outgoing|]. intros i (_&_&_&Ha)%elem_of_outgoing.
  apply elem_of_seq. apply lookup_lt_Some in Ha. rewrite an_len in Ha. unfold size. lia.
Qed.

Lemma exec_step_inv w0 s s' : inv (λ _, False) s → rows_inv w0 s → step s s' →
  inv (λ _, False) s' ∧ rows_inv w0 s' ∧ (left_over s' < left_over s)%nat.
Proof.
  intros Hinv Hri [g Hg Hns Hs|i p g Hi Hs].
  - destruct (proj1 (exec_start_ok w0 s g Hinv Hri Hg Hns) s' Hs) as (Hinv1&Hri1&E1&E2). split; [done|]. split; [done|].
    unfold left_over. pose proof (started_le _ Hinv1) as Hle. rewrite E1 in Hle |- *. rewrite E2, length_app, length_fmap. cbn [length] in *.
    pose proof (outgoing_le g). nia.
  - destruct (proj1 (deliver_ok w0 s i p g Hinv Hri Hi) s' Hs) as (Hinv1&Hri1&E1&E2). split; [done|]. split; [done|].
    unfold left_over. rewrite E1, E2. rewrite length_delete by done. apply lookup_lt_Some in Hi. lia.
Qed.

Lemma exec_run_inv w0 n s : nsteps step n (init w0) s → inv (λ _, False) s ∧ rows_inv w0 s ∧ (n + left_over s ≤ size * S size)%nat.
Proof.
  assert (∀ s0 n s, nsteps step n s0 s → inv (λ _, False) s0 → rows_inv w0 s0 →
    inv (λ _, False) s ∧ rows_inv w0 s ∧ (n + left_over s ≤ left_over s0)%nat) as Hgen.
  { clear n s. intros s0 n s Hn. induction Hn as [s|n s1 s2 s3 H12 H23 IH]; intros Hinv Hri; [split; [done|split; [done|lia]]|].
    destruct (exec_step_inv _ _ _ Hinv Hri H12) as (Hinv2&Hri2&Hlt). destruct (IH Hinv2 Hri2) as (Hinv3&Hri3&Hle). split; [done|]. split; [done|lia]. }
  intros Hn. destruct (Hgen _ _ _ Hn (exec_init_inv w0) (exec_init_rows w0)) as (Hinv&Hri&Hle). split; [done|]. split; [done|].
  unfold left_over at 2 in Hle. cbn in Hle. lia.
Qed.

(** When nothing is left to do and the work can be done, all nodes are done. *)
Lemma stuck_finished w0 s : inv (λ _, False) s → rows_inv w0 s → (∀ g, involved g → is_Some (work_of g (w0 g))) →
  (∀ s', ¬ step s s') → ∀ g, involved g → g ∈ finished s.
Proof.
  intros Hinv Hri Hwork Hstuck. assert (∀ g, involved g → g ∈ started s) as Hall.
  { intros g Hg. destruct (decide (g ∈ started s)) as [|Hns]; [done|]. destruct (proj2 (exec_start_ok w0 s g Hinv Hri Hg Hns) (Hwork g Hg)) as [s1 Hs1].
    destruct (Hstuck s1). by eapply do_start. }
  assert (net s = []) as Hnet.
  { destruct (net s) as [|[p g] l] eqn:Hnet; [done|]. assert (net s !! 0%nat = Some (p, g)) as Hi by (by rewrite Hnet).
    assert (active g) as Ha by (apply (proj2 (iv_net _ _ Hinv) p g); rewrite Hnet; left).
    destruct (proj2 (deliver_ok w0 s 0 p g Hinv Hri Hi) (Hwork g (or_intror Ha))) as [s1 Hs1]. destruct (Hstuck s1). by eapply (do_deliver _ _ 0). }
  intros g Hg. destruct (decide (g ∈ finished s)) as [|Hf]; [done|]. destruct (iv_wait _ _ Hinv g (Hall g Hg) Hf (λ x, x)) as (Ha&_&_&Hne).
  destruct Hne. pose proof (iv_count _ _ Hinv g Hf) as Hc. rewrite Hnet in Hc. cbn in Hc. rewrite Z.add_0_r in Hc. rewrite Hc. unfold expected.
  destruct (exchange a) eqn:He; [|by rewrite decide_False by naive_solver]. rewrite decide_True by done. f_equal. apply Nat.le_antisymm.
  - apply submseteq_length, came_sub, (iv_started _ _ Hinv).
  - apply submseteq_length, NoDup_submseteq; [apply NoDup_filter, NoDup_participants|]. intros p [Hp Hpg]%exec_elem_of_others.
    unfold came. rewrite list_elem_of_filter. split; [done|]. apply Hall. by left.
Qed.

End exec.

Arguments mkS {W} _ _ _ _ _ _.
Arguments init {W} _.
Arguments cm {W} _ _.
Arguments net {W} _.
Arguments started {W} _.
Arguments finished {W} _.
Arguments log {W} _.
Arguments ws {W} _ _.

End CalvinExec.
