(* ===== verification/TpccCalvin.v ===== *)
(** * TpccCalvin: TPC-C transactions under Calvin

    [TPCCTxnManager::acquire_locks], [run_tpcc_phase2] and [run_tpcc_phase5]
    (benchmarks/tpcc_txn.cpp) on one node: which rows the lock thread locks for a
    transaction, and which rows the phases of [CalvinExec] then access. *)

From S2P Require Import Prelude Double Message TwoPC TpccTxn TpccRun TpccProps.

Module TpccCalvin.
Import Double.Double Message.Message TpccTxn.TpccTxn TpccRun.TpccRun TpccProps.TpccProps.

(** ** Locks *)

(** [TxnManager::get_lock]: a row is locked once. *)
Definition get_lock (r : nat) (type : access_t) (locked : list (nat * access_t)) : list (nat * access_t) :=
  if bool_decide (r ∈ locked.*1) then locked else locked ++ [(r, type)].
Definition lock (r : option nat) (type : access_t) (locked : list (nat * access_t)) : option (list (nat * access_t)) :=
  r ← r; Some (get_lock r type locked).

Section node.
Context (c : tconfig) (g_node_id : Z) (q : tpcc_input).

Definition is_local (w : Z) : option bool := n ← wh_node c w; Some (n =? g_node_id).

(** The loops over the items run to [ol_cnt]. *)
Definition order_items : option (list Item_no) :=
  ASSERT ol_cnt q <=? zlen (items q);
  Some (take (Z.to_nat (ol_cnt q)) (items q)).

Fixpoint lock_items (n : node) (l : list Item_no) (locked : list (nat * access_t)) : option (list (nat * access_t)) :=
  match l with
  | [] => Some locked
  | it :: l =>
      loc ← is_local (ol_supply_w_id it);
      if loc : bool then
        locked ← lock (new_order_6_row (ol_i_id it) n) RD locked;
        locked ← lock (new_order_8_row c (ol_i_id it) (ol_supply_w_id it) n) WR locked;
        lock_items n l locked
      else lock_items n l locked
  end.

Definition acquire_locks (n : node) : option (list (nat * access_t)) :=
  w_loc ← is_local (w_id q);
  c_w_loc ← is_local (c_w_id q);
  if txn_type q =? TPCC_PAYMENT then
    locked ← (if w_loc : bool then
                locked ← lock (payment_0_row (w_id q) n) (if g_wh_update c then WR else RD) [];
                lock (payment_2_row c (d_id q) (d_w_id q) n) WR locked
              else Some []);
    if c_w_loc : bool
    then lock (payment_4_row c (c_id q) (c_w_id q) (c_d_id q) (c_last q) (by_last_name q) n) WR locked else Some locked
  else if txn_type q =? TPCC_NEW_ORDER then
    locked ← (if w_loc : bool then
                locked ← lock (new_order_0_row (w_id q) n) RD [];
                locked ← lock (new_order_2_row c (w_id q) (d_id q) (c_id q) n) RD locked;
                lock (new_order_4_row c (w_id q) (d_id q) n) WR locked
              else Some []);
    its ← order_items; lock_items n its locked
  else None.

(** ** Phases *)

Definition mstate : Type := TPCCTxnManager * node.

(** The concurrency control grants every access. *)
Definition access (rowf : node → option nat) (type : access_t) (s : mstate) : option mstate :=
  let '(t, n) := s in r ← rowf n; Some ((get_row RCOK r type t).2, n).
Definition compute (f : nat → node → option effect) (s : mstate) : option mstate :=
  let '(t, n) := s in '(_, t, n, _) ← compute_step c f t n; Some (t, n).

Fixpoint read_items (l : list Item_no) (s : mstate) : option mstate :=
  match l with
  | [] => Some s
  | it :: l =>
      loc ← is_local (ol_supply_w_id it);
      if loc : bool then
        s ← access (new_order_6_row (ol_i_id it)) RD s;
        s ← compute new_order_7 s;
        read_items l s
      else read_items l s
  end.

Definition order_home (s : mstate) : option mstate :=
  s ← access (new_order_0_row (w_id q)) RD s;
  s ← compute new_order_1 s;
  s ← access (new_order_2_row c (w_id q) (d_id q) (c_id q)) RD s;
  s ← compute new_order_3 s;
  '(t, n) ← access (new_order_4_row c (w_id q) (d_id q)) WR s;
  r ← row t;
  o ← get_value n r D_NEXT_O_ID;
  Some (set_query (mkTQ (q_in (query t)) (ol_amount (query t)) o) t, n).

Definition run_tpcc_phase2 (s : mstate) : option mstate :=
  w_loc ← is_local (w_id q);
  if txn_type q =? TPCC_PAYMENT then Some s
  else if txn_type q =? TPCC_NEW_ORDER then
    s ← (if w_loc : bool then order_home s else Some s);
    its ← order_items; read_items its s
  else None.

Fixpoint write_items (i : nat) (o_id : Z) (l : list Item_no) (s : mstate) : option mstate :=
  match l with
  | [] => Some s
  | it :: l =>
      loc ← is_local (ol_supply_w_id it);
      if loc : bool then
        s ← access (new_order_8_row c (ol_i_id it) (ol_supply_w_id it)) WR s;
        s ← compute (new_order_9 (w_id q) (d_id q) (remote q) it (Z.of_nat i) (ol_amount (query s.1)) o_id) s;
        write_items (S i) o_id l s
      else write_items (S i) o_id l s
  end.

Definition payment_home (s : mstate) : option mstate :=
  s ← access (payment_0_row (w_id q)) (if g_wh_update c then WR else RD) s;
  s ← compute (run_payment_1 c (h_amount q)) s;
  s ← access (payment_2_row c (d_id q) (d_w_id q)) WR s;
  compute (run_payment_3 (h_amount q)) s.

(** The order id of the lines is read before [new_order_5]. *)
Definition run_tpcc_phase5 (s : mstate) : option mstate :=
  w_loc ← is_local (w_id q);
  c_w_loc ← is_local (c_w_id q);
  if txn_type q =? TPCC_PAYMENT then
    s ← (if w_loc : bool then payment_home s else Some s);
    if c_w_loc : bool then
      s ← access (payment_4_row c (c_id q) (c_w_id q) (c_d_id q) (c_last q) (by_last_name q)) WR s;
      compute (run_payment_5 (w_id q) (d_id q) (c_id q) (c_w_id q) (c_d_id q) (h_amount q)) s
    else Some s
  else if txn_type q =? TPCC_NEW_ORDER then
    let o := o_id (query s.1) in
    s ← (if w_loc : bool then compute (new_order_5 (w_id q) (d_id q) (c_id q) (remote q) (ol_cnt q) (o_entry_d q)) s else Some s);
    its ← order_items; write_items 0 o its s
  else None.

(** The phases of [run_calvin_txn] that access rows. *)
Definition run_phases (s : mstate) : option mstate := s ← run_tpcc_phase2 s; run_tpcc_phase5 s.

(** ** The rows of a node *)

Context (n0 : node) (Hpart : 0 < g_part_cnt c ≤ g_num_wh c) (Hok : node_ok n0).

Lemma is_local_owner w : is_local w = Some (owner c w =? g_node_id).
Proof. unfold is_local. rewrite wh_node_owner by lia. done. Qed.

(** In a transaction the table of a row says how it is accessed. *)
Definition lock_type (tab : TPCCTable) : access_t :=
  match tab with
  | TPCC_WAREHOUSE => if txn_type q =? TPCC_PAYMENT then (if g_wh_update c then WR else RD) else RD
  | TPCC_CUSTOMER => if txn_type q =? TPCC_PAYMENT then WR else RD
  | TPCC_DISTRICT | TPCC_STOCK => WR
  | _ => RD
  end.
Definition typed (l : list (nat * access_t)) : Prop := ∀ x, x ∈ l → x.2 = lock_type (r_table (rows n0 x.1)).

Lemma unit_lock_type u : unit_txn u = txn_type q → unit_type c u = lock_type (unit_table u).
Proof. intros Ht. destruct u; cbn in Ht |- *; try done; by rewrite <-Ht. Qed.

(** The row of an access. *)
Definition row_of (u : tunit) (x : nat * access_t) : Prop := unit_row c q u n0 = Some x.1 ∧ x.2 = unit_type c u.

Lemma lock_unit u l l' : unit_txn u = txn_type q → typed l → lock (unit_row c q u n0) (unit_type c u) l = Some l' →
  is_Some (unit_row c q u n0) ∧ typed l' ∧ ∀ x, x ∈ l' ↔ x ∈ l ∨ row_of u x.
Proof.
  intros Ht Hl. unfold lock, row_of. destruct (unit_row c q u n0) as [r|] eqn:Hr; [|done]. cbn [mbind option_bind]. intros [= <-].
  pose proof (unit_row_table c q u n0 r Hok Hr) as Htab. pose proof (unit_lock_type u Ht) as Hty. rewrite <-Htab in Hty. split; [by eexists|].
  assert (∀ x, x ∈ get_lock r (unit_type c u) l ↔ x ∈ l ∨ Some r = Some x.1 ∧ x.2 = unit_type c u) as Hmem.
  { intros [r' ty]. unfold get_lock. cbn [fst snd]. case_bool_decide as Hin; [|rewrite elem_of_app, list_elem_of_singleton; naive_solver].
    split; [by left|]. intros [?|[[= <-] ->]]; [done|]. apply list_elem_of_fmap in Hin as ([r1 ty1]&->&Hin). cbn [fst] in *.
    pose proof (Hl _ Hin) as Hx. cbn [fst snd] in Hx. by rewrite Hty, <-Hx. }
  split; [|done]. intros x [Hx|[[= <-] ->]]%Hmem; [by apply Hl|done].
Qed.

Definition item_loc (it : Item_no) : Prop := owner c (ol_supply_w_id it) = g_node_id.

Lemma lock_items_mem l : ∀ locked locked', txn_type q = TPCC_NEW_ORDER → typed locked → lock_items n0 l locked = Some locked' →
  (∀ it, it ∈ l → item_loc it → is_Some (unit_row c q (OrdItem it) n0) ∧ is_Some (unit_row c q (OrdStock 0 it) n0)) ∧
  ∀ x, x ∈ locked' ↔ x ∈ locked ∨ ∃ it, it ∈ l ∧ item_loc it ∧ (row_of (OrdItem it) x ∨ row_of (OrdStock 0 it) x).
Proof.
  induction l as [|it l IH]; intros locked locked' Ht Hty Hd; cbn [lock_items] in Hd.
  { injection Hd as <-. split; [by intros it ?%not_elem_of_nil|]. intros x. split; [by left|]. intros [?|(it&Hit&_)]; [done|by apply not_elem_of_nil in Hit]. }
  rewrite is_local_owner in Hd. cbn [mbind option_bind] in Hd. destruct (Z.eqb_spec (owner c (ol_supply_w_id it)) g_node_id) as [Hloc|Hloc].
  - change (new_order_6_row (ol_i_id it) n0) with (unit_row c q (OrdItem it) n0) in Hd.
    change (new_order_8_row c (ol_i_id it) (ol_supply_w_id it) n0) with (unit_row c q (OrdStock 0 it) n0) in Hd.
    destruct (lock (unit_row c q (OrdItem it) n0) RD locked) as [l1|] eqn:H1; [|done]. cbn [mbind option_bind] in Hd.
    destruct (lock (unit_row c q (OrdStock 0 it) n0) WR l1) as [l2|] eqn:H2; [|done]. cbn [mbind option_bind] in Hd.
    destruct (lock_unit (OrdItem it) _ _ (eq_sym Ht) Hty H1) as (E1&T1&M1). destruct (lock_unit (OrdStock 0 it) _ _ (eq_sym Ht) T1 H2) as (E2&T2&M2).
    destruct (IH _ _ Ht T2 Hd) as [Hrows Hmem]. split.
    + intros it' [->|Hin]%elem_of_cons Hl; [done|by apply Hrows].
    + intros x. rewrite Hmem, M2, M1, exists_cons. tauto.
  - destruct (IH _ _ Ht Hty Hd) as [Hrows Hmem]. split; [intros it' [->|Hin]%elem_of_cons Hl; [done|by apply Hrows]|].
    intros x. rewrite Hmem, exists_cons. tauto.
Qed.

(** ** An access with its computation *)

(** The accesses of the transaction so far are the rows with [P]. *)
Record doing (P : nat * access_t → Prop) (k : nat) (s : mstate) : Prop := {
  dg_shape : same_shape n0 s.2;
  dg_acc : ∀ x, x ∈ accesses s.1 ↔ P x;
  dg_ins : length (insert_rows s.1) = k }.

Lemma doing_ext (P Q : nat * access_t → Prop) k s : doing P k s → (∀ x, P x ↔ Q x) → doing Q k s.
Proof. intros [H1 H2 H3] HPQ. split; [done| |done]. intros x. by rewrite H2. Qed.

Lemma access_unit u P k s : doing P k s → is_Some (unit_row c q u n0) → ∃ r s',
  unit_row c q u n0 = Some r ∧ access (unit_row c q u) (unit_type c u) s = Some s' ∧ doing (λ x, P x ∨ row_of u x) k s' ∧
  row s'.1 = Some r ∧ query s'.1 = query s.1.
Proof.
  destruct s as [t n]. intros [D1 D2 D3] [r Hr]. cbn [fst snd] in *. exists r. eexists. split; [done|]. unfold access. rewrite (unit_row_shape c q u _ _ D1), Hr.
  cbn [mbind option_bind]. split; [done|]. unfold get_row. rewrite !bool_decide_false by done. cbn. split; [|done]. split; cbn; [done| |done].
  intros [r' ty]. rewrite elem_of_app, D2, list_elem_of_singleton. unfold row_of. rewrite Hr. cbn. naive_solver.
Qed.

(** [k] rows were inserted; that many can be. *)
Definition fits (k : nat) : Prop := (k ≤ MAX_ROW_PER_TXN ∧ k ≤ g_max_items_per_txn c + 10)%nat.

Lemma compute_unit u amt oid r P k s : doing P k s → row s.1 = Some r → unit_row c q u n0 = Some r → fits (k + unit_inserts u) →
  ∃ s', compute (unit_effect c q u amt oid) s = Some s' ∧ doing P (k + unit_inserts u) s' ∧ row s'.1 = Some r.
Proof.
  destruct s as [t n]. intros [D1 D2 D3] Hr Hu [F1 F2]. cbn [fst snd] in *. unfold compute, compute_step. rewrite Hr. cbn [mbind option_bind].
  destruct (effect_total c q u amt oid r n) as (n'&o&ins&He&Hsh); [rewrite (sh_table _ _ D1); by apply (unit_row_table c q)|].
  rewrite He. cbn [mbind option_bind]. pose proof (unit_effect_inserts _ _ _ _ _ _ _ _ _ _ He) as Hlen.
  rewrite insert_all_room by (cbn; lia). cbn [mbind option_bind]. eexists. split; [done|]. split; [|done]. split; cbn; [by etrans|done|rewrite length_app; lia].
Qed.

Lemma run_unit u amt oid P k s : doing P k s → is_Some (unit_row c q u n0) → fits (k + unit_inserts u) → ∃ s1 s2,
  access (unit_row c q u) (unit_type c u) s = Some s1 ∧ compute (unit_effect c q u amt oid) s1 = Some s2 ∧
  doing (λ x, P x ∨ row_of u x) (k + unit_inserts u) s2 ∧ query s1.1 = query s.1.
Proof.
  intros Hd Hu Hf. destruct (access_unit u P k s Hd Hu) as (r&s1&Hr&H1&Hd1&Hrow&Hq).
  destruct (compute_unit u amt oid r _ k s1 Hd1 Hrow Hr Hf) as (s2&H2&Hd2&_). by exists s1, s2.
Qed.

(** ** Payments *)

Lemma acquire_payment locked : txn_type q = TPCC_PAYMENT → acquire_locks n0 = Some locked →
  (owner c (w_id q) = g_node_id → is_Some (unit_row c q PayWh n0) ∧ is_Some (unit_row c q PayDist n0)) ∧
  (owner c (c_w_id q) = g_node_id → is_Some (unit_row c q PayCust n0)) ∧
  ∀ x, x ∈ locked ↔ (owner c (w_id q) = g_node_id ∧ (row_of PayWh x ∨ row_of PayDist x)) ∨ (owner c (c_w_id q) = g_node_id ∧ row_of PayCust x).
Proof.
  intros Ht. unfold acquire_locks. rewrite !is_local_owner, Ht. cbn [mbind option_bind].
  change (TPCC_PAYMENT =? TPCC_PAYMENT) with true. cbn iota.
  assert (∀ x : nat * access_t, x ∉ []) as Hnil by (intros x; apply not_elem_of_nil).
  assert (typed []) as T0 by (by intros x ?%not_elem_of_nil).
  destruct (Z.eqb_spec (owner c (w_id q)) g_node_id) as [Hw|Hw].
  - change (payment_0_row (w_id q) n0) with (unit_row c q PayWh n0). change (payment_2_row c (d_id q) (d_w_id q) n0) with (unit_row c q PayDist n0).
    destruct (lock (unit_row c q PayWh n0) (if g_wh_update c then WR else RD) []) as [l1|] eqn:H1; [|done]. cbn [mbind option_bind].
    destruct (lock (unit_row c q PayDist n0) WR l1) as [l2|] eqn:H2; [|done]. cbn [mbind option_bind].
    destruct (lock_unit PayWh _ _ (eq_sym Ht) T0 H1) as (E1&T1&M1). destruct (lock_unit PayDist _ _ (eq_sym Ht) T1 H2) as (E2&T2&M2).
    destruct (Z.eqb_spec (owner c (c_w_id q)) g_node_id) as [Hc|Hc].
    + intros (E3&T3&M3)%(lock_unit PayCust _ _ (eq_sym Ht) T2). split_and!; try done. intros x. rewrite M3, M2, M1. specialize (Hnil x). tauto.
    + intros [= <-]. split_and!; try done. intros x. rewrite M2, M1. specialize (Hnil x). tauto.
  - cbn [mbind option_bind]. destruct (Z.eqb_spec (owner c (c_w_id q)) g_node_id) as [Hc|Hc].
    + intros (E3&T3&M3)%(lock_unit PayCust _ _ (eq_sym Ht) T0). split_and!; try done. intros x. rewrite M3. specialize (Hnil x). tauto.
    + intros [= <-]. split_and!; try done. intros x. specialize (Hnil x). tauto.
Qed.

Lemma payment_home_ok P s : doing P 0 s → is_Some (unit_row c q PayWh n0) → is_Some (unit_row c q PayDist n0) →
  ∃ s', payment_home s = Some s' ∧ doing (λ x, (P x ∨ row_of PayWh x) ∨ row_of PayDist x) 0 s'.
Proof.
  intros D0 E1 E2. assert (fits 0) as Hf by (unfold fits, MAX_ROW_PER_TXN; lia). unfold payment_home.
  destruct (run_unit PayWh 0 0 _ _ _ D0 E1) as (s1&s2&A1&A2&D1&_); [done|].
  change (access (payment_0_row (w_id q)) (if g_wh_update c then WR else RD) s = Some s1) in A1.
  change (compute (run_payment_1 c (h_amount q)) s1 = Some s2) in A2. rewrite A1. cbn [mbind option_bind]. rewrite A2. cbn [mbind option_bind].
  destruct (run_unit PayDist 0 0 _ _ _ D1 E2) as (s3&s4&A3&A4&D4&_); [done|].
  change (access (payment_2_row c (d_id q) (d_w_id q)) WR s2 = Some s3) in A3. rewrite A3. cbn [mbind option_bind]. by exists s4.
Qed.

(** The state before the phases. *)
Lemma doing_start t : clean t → doing (λ _, False) 0 (t, n0).
Proof. intros (C1&C2&C3&C4&C5). split; cbn; [done|intros x; rewrite C4; split; [by intros ?%not_elem_of_nil|done]|by rewrite C5]. Qed.

Lemma payment_phases locked t : txn_type q = TPCC_PAYMENT → acquire_locks n0 = Some locked → clean t →
  ∃ s', run_phases (t, n0) = Some s' ∧ ∀ x, x ∈ accesses s'.1 ↔ x ∈ locked.
Proof.
  intros Ht (Ew&Ec&Hmem)%acquire_payment D0%doing_start; [|done]. unfold run_phases, run_tpcc_phase2, run_tpcc_phase5.
  rewrite !is_local_owner, Ht. cbn [mbind option_bind].
  change (TPCC_PAYMENT =? TPCC_PAYMENT) with true. cbn iota. cbn [mbind option_bind].
  assert (∃ s2, (if owner c (w_id q) =? g_node_id then payment_home (t, n0) else @Some mstate (t, n0)) = Some s2 ∧
    doing (λ x, owner c (w_id q) = g_node_id ∧ (row_of PayWh x ∨ row_of PayDist x)) 0 s2) as (s2&H2&D2).
  { destruct (Z.eqb_spec (owner c (w_id q)) g_node_id) as [Hw|Hw]; [|exists (t, n0); split; [done|]; eapply doing_ext; [exact D0|naive_solver]].
    destruct (Ew Hw) as [E1 E2]. destruct (payment_home_ok _ _ D0 E1 E2) as (s2&H2&D2). exists s2. split; [done|]. eapply doing_ext; [exact D2|naive_solver]. }
  rewrite H2. cbn [mbind option_bind]. destruct (Z.eqb_spec (owner c (c_w_id q)) g_node_id) as [Hc|Hc].
  - destruct (run_unit PayCust 0 0 _ _ _ D2 (Ec Hc)) as (s3&s4&A3&A4&D4&_); [unfold fits, MAX_ROW_PER_TXN; cbn; lia|].
    change (access (payment_4_row c (c_id q) (c_w_id q) (c_d_id q) (c_last q) (by_last_name q)) WR s2 = Some s3) in A3.
    rewrite A3. cbn [mbind option_bind]. exists s4. split; [done|]. intros x. rewrite (dg_acc _ _ _ D4), Hmem. tauto.
  - exists s2. split; [done|]. intros x. rewrite (dg_acc _ _ _ D2), Hmem. tauto.
Qed.

(** ** New orders *)

Lemma acquire_order locked : txn_type q = TPCC_NEW_ORDER → acquire_locks n0 = Some locked → ∃ its, order_items = Some its ∧
  (owner c (w_id q) = g_node_id → is_Some (unit_row c q OrdWh n0) ∧ is_Some (unit_row c q OrdCust n0) ∧ is_Some (unit_row c q OrdDist n0)) ∧
  (∀ it, it ∈ its → item_loc it → is_Some (unit_row c q (OrdItem it) n0) ∧ is_Some (unit_row c q (OrdStock 0 it) n0)) ∧
  ∀ x, x ∈ locked ↔ (owner c (w_id q) = g_node_id ∧ (row_of OrdWh x ∨ row_of OrdCust x ∨ row_of OrdDist x)) ∨
    ∃ it, it ∈ its ∧ item_loc it ∧ (row_of (OrdItem it) x ∨ row_of (OrdStock 0 it) x).
Proof.
  intros Ht. unfold acquire_locks. rewrite !is_local_owner, Ht. cbn [mbind option_bind].
  change (TPCC_NEW_ORDER =? TPCC_PAYMENT) with false. change (TPCC_NEW_ORDER =? TPCC_NEW_ORDER) with true. cbn iota.
  assert (∀ x : nat * access_t, x ∉ []) as Hnil by (intros x; apply not_elem_of_nil).
  assert (typed []) as T0 by (by intros x ?%not_elem_of_nil).
  destruct (Z.eqb_spec (owner c (w_id q)) g_node_id) as [Hw|Hw].
  - change (new_order_0_row (w_id q) n0) with (unit_row c q OrdWh n0). change (new_order_2_row c (w_id q) (d_id q) (c_id q) n0) with (unit_row c q OrdCust n0).
    change (new_order_4_row c (w_id q) (d_id q) n0) with (unit_row c q OrdDist n0).
    destruct (lock (unit_row c q OrdWh n0) RD []) as [l1|] eqn:H1; [|done]. cbn [mbind option_bind].
    destruct (lock (unit_row c q OrdCust n0) RD l1) as [l2|] eqn:H2; [|done]. cbn [mbind option_bind].
    destruct (lock (unit_row c q OrdDist n0) WR l2) as [l3|] eqn:H3; [|done]. cbn [mbind option_bind].
    destruct (lock_unit OrdWh _ _ (eq_sym Ht) T0 H1) as (E1&T1&M1). destruct (lock_unit OrdCust _ _ (eq_sym Ht) T1 H2) as (E2&T2&M2).
    destruct (lock_unit OrdDist _ _ (eq_sym Ht) T2 H3) as (E3&T3&M3). destruct order_items as [its|]; [|done]. cbn [mbind option_bind].
    intros [Hrows Hmem]%lock_items_mem; [|done|done]. exists its. split_and!; try done. intros x. rewrite Hmem, M3, M2, M1. specialize (Hnil x). tauto.
  - cbn [mbind option_bind]. destruct order_items as [its|]; [|done]. cbn [mbind option_bind].
    intros [Hrows Hmem]%lock_items_mem; [|done|done]. exists its. split_and!; try done. intros x. rewrite Hmem. specialize (Hnil x). tauto.
Qed.

Lemma order_home_ok P s : doing P 0 s → is_Some (unit_row c q OrdWh n0) → is_Some (unit_row c q OrdCust n0) → is_Some (unit_row c q OrdDist n0) →
  ∃ r s', order_home s = Some s' ∧ doing (λ x, ((P x ∨ row_of OrdWh x) ∨ row_of OrdCust x) ∨ row_of OrdDist x) 0 s' ∧
    row s'.1 = Some r ∧ unit_row c q OrdDist n0 = Some r.
Proof.
  intros D0 E1 E2 E3. assert (fits 0) as Hf by (unfold fits, MAX_ROW_PER_TXN; lia). unfold order_home.
  destruct (run_unit OrdWh 0 0 _ _ _ D0 E1) as (s1&s2&A1&A2&D1&_); [done|].
  change (access (new_order_0_row (w_id q)) RD s = Some s1) in A1. change (compute new_order_1 s1 = Some s2) in A2.
  rewrite A1. cbn [mbind option_bind]. rewrite A2. cbn [mbind option_bind].
  destruct (run_unit OrdCust 0 0 _ _ _ D1 E2) as (s3&s4&A3&A4&D4&_); [done|].
  change (access (new_order_2_row c (w_id q) (d_id q) (c_id q)) RD s2 = Some s3) in A3. change (compute new_order_3 s3 = Some s4) in A4.
  rewrite A3. cbn [mbind option_bind]. rewrite A4. cbn [mbind option_bind].
  destruct (access_unit OrdDist _ _ _ D4 E3) as (r&[t n]&Hr&A5&D5&Hrow&_).
  change (access (new_order_4_row c (w_id q) (d_id q)) WR s4 = Some (t, n)) in A5. rewrite A5. cbn [mbind option_bind]. cbn [fst] in Hrow. rewrite Hrow. cbn [mbind option_bind].
  pose proof D5 as [B1 B2 B3]. cbn [fst snd] in *.
  rewrite get_value_total by (cbn; rewrite (sh_table _ _ B1); symmetry; by apply (unit_row_table c q OrdDist)). cbn [mbind option_bind].
  exists r. eexists. split; [done|]. split; [|done]. by split.
Qed.

Lemma read_items_ok l : ∀ P s, doing P 0 s → (∀ it, it ∈ l → item_loc it → is_Some (unit_row c q (OrdItem it) n0)) → ∃ s', read_items l s = Some s' ∧
  doing (λ x, P x ∨ ∃ it, it ∈ l ∧ item_loc it ∧ row_of (OrdItem it) x) 0 s' ∧ ((∀ it, it ∈ l → ¬ item_loc it) → s' = s).
Proof.
  assert (fits 0) as Hf by (unfold fits, MAX_ROW_PER_TXN; lia).
  induction l as [|it l IH]; intros P s D Hrows; cbn [read_items].
  { exists s. split; [done|]. split; [|done]. eapply doing_ext; [exact D|]. intros x. split; [by left|]. intros [?|(it&Hit&_)]; [done|by apply not_elem_of_nil in Hit]. }
  rewrite is_local_owner. cbn [mbind option_bind]. destruct (Z.eqb_spec (owner c (ol_supply_w_id it)) g_node_id) as [Hloc|Hloc].
  - destruct (run_unit (OrdItem it) 0 0 _ _ _ D) as (s1&s2&A1&A2&D1&_); [apply Hrows; [left|done]|done|].
    change (access (new_order_6_row (ol_i_id it)) RD s = Some s1) in A1. change (compute new_order_7 s1 = Some s2) in A2.
    rewrite A1. cbn [mbind option_bind]. rewrite A2. cbn [mbind option_bind].
    destruct (IH _ _ D1) as (s'&H'&D'&_); [intros it' Hin; apply Hrows; by right|]. exists s'. split; [done|]. split.
    + eapply doing_ext; [exact D'|]. intros x. rewrite exists_cons. tauto.
    + intros Hno. by destruct (Hno it ltac:(left)).
  - destruct (IH _ _ D) as (s'&H'&D'&Hs'); [intros it' Hin; apply Hrows; by right|]. exists s'. split; [done|]. split.
    + eapply doing_ext; [exact D'|]. intros x. rewrite exists_cons. tauto.
    + intros Hno. apply Hs'. intros it' Hin. apply Hno. by right.
Qed.

Lemma write_items_ok l : ∀ P k i o s, doing P k s → fits (k + length l) → (∀ it, it ∈ l → item_loc it → is_Some (unit_row c q (OrdStock 0 it) n0)) →
  ∃ s' k', write_items i o l s = Some s' ∧ doing (λ x, P x ∨ ∃ it, it ∈ l ∧ item_loc it ∧ row_of (OrdStock 0 it) x) k' s'.
Proof.
  induction l as [|it l IH]; intros P k i o s D Hf Hrows; cbn [write_items length] in *.
  { exists s, k. split; [done|]. eapply doing_ext; [exact D|]. intros x. split; [by left|]. intros [?|(it&Hit&_)]; [done|by apply not_elem_of_nil in Hit]. }
  rewrite is_local_owner. cbn [mbind option_bind]. destruct (Z.eqb_spec (owner c (ol_supply_w_id it)) g_node_id) as [Hloc|Hloc].
  - destruct (run_unit (OrdStock i it) (ol_amount (query s.1)) o _ _ _ D) as (s1&s2&A1&A2&D1&Hq);
      [apply Hrows; [left|done]|unfold fits in *; cbn; lia|].
    change (access (new_order_8_row c (ol_i_id it) (ol_supply_w_id it)) WR s = Some s1) in A1.
    change (compute (new_order_9 (w_id q) (d_id q) (remote q) it (Z.of_nat i) (ol_amount (query s.1)) o) s1 = Some s2) in A2.
    rewrite A1. cbn [mbind option_bind]. rewrite Hq, A2. cbn [mbind option_bind].
    destruct (IH _ _ (S i) o _ D1) as (s'&k'&H'&D'); [unfold fits in *; cbn; lia|intros it' Hin; apply Hrows; by right|].
    exists s', k'. split; [done|]. eapply doing_ext; [exact D'|]. intros x. rewrite exists_cons. change (row_of (OrdStock i it) x) with (row_of (OrdStock 0 it) x). tauto.
  - destruct (IH _ _ (S i) o _ D) as (s'&k'&H'&D'); [unfold fits in *; lia|intros it' Hin; apply Hrows; by right|].
    exists s', k'. split; [done|]. eapply doing_ext; [exact D'|]. intros x. rewrite exists_cons. tauto.
Qed.

Lemma order_items_length its : order_items = Some its → (length its ≤ length (items q))%nat.
Proof. unfold order_items. intros [_ [= <-]]%assert_bind_Some. rewrite length_take. lia. Qed.

Lemma order_phases locked t : txn_type q = TPCC_NEW_ORDER → acquire_locks n0 = Some locked → clean t → fits (length (items q) + 2) →
  (owner c (w_id q) ≠ g_node_id ∨ ∀ it, it ∈ items q → ¬ item_loc it) →
  ∃ s', run_phases (t, n0) = Some s' ∧ ∀ x, x ∈ accesses s'.1 ↔ x ∈ locked.
Proof.
  intros Ht (its&Hits&Ew&Ei&Hmem)%acquire_order D0%doing_start Hf Hcase; [|done].
  pose proof (order_items_length _ Hits) as Hlen. unfold run_phases, run_tpcc_phase2, run_tpcc_phase5.
  rewrite !is_local_owner, Ht. cbn [mbind option_bind].
  change (TPCC_NEW_ORDER =? TPCC_PAYMENT) with false. change (TPCC_NEW_ORDER =? TPCC_NEW_ORDER) with true. cbn iota. rewrite Hits.
  destruct (Z.eqb_spec (owner c (w_id q)) g_node_id) as [Hw|Hw].
  - destruct Hcase as [|Hno]; [done|]. destruct (Ew Hw) as (E1&E2&E3). destruct (order_home_ok _ _ D0 E1 E2 E3) as (r&s1&H1&D1&Hrow&Hr). rewrite H1. cbn [mbind option_bind].
    assert (∀ it, it ∈ its → ¬ item_loc it) as Hno'.
    { intros it Hin. apply Hno. unfold order_items in Hits. apply assert_bind_Some in Hits as [_ [= <-]]. apply elem_of_take in Hin as (i&Hl&_). by eapply list_elem_of_lookup_2. }
    destruct (read_items_ok its _ _ D1) as (s2&H2&_&Hs2); [intros it Hin Hl; by destruct (Hno' it Hin)|]. rewrite (Hs2 Hno') in H2. rewrite H2. cbn [mbind option_bind].
    destruct (compute_unit OrdDist 0 0 r _ _ _ D1 Hrow Hr) as (s3&H3&D3&_); [unfold fits in *; cbn; lia|].
    change (compute (new_order_5 (w_id q) (d_id q) (c_id q) (remote q) (ol_cnt q) (o_entry_d q)) s1 = Some s3) in H3. rewrite H3. cbn [mbind option_bind].
    destruct (write_items_ok its _ _ 0 (o_id (query s1.1)) _ D3) as (s4&k4&H4&D4); [unfold fits in *; cbn; lia|intros it Hin Hl; by destruct (Hno' it Hin)|].
    exists s4. split; [done|]. intros x. rewrite (dg_acc _ _ _ D4), Hmem. naive_solver.
  - cbn [mbind option_bind]. destruct (read_items_ok its _ _ D0) as (s2&H2&D2&_); [intros it Hin Hl; by apply Ei|]. rewrite H2. cbn [mbind option_bind].
    destruct (write_items_ok its _ _ 0 (o_id (query s2.1)) _ D2) as (s4&k4&H4&D4); [unfold fits in *; lia|intros it Hin Hl; by apply Ei|].
    exists s4. split; [done|]. intros x. rewrite (dg_acc _ _ _ D4), Hmem. naive_solver.
Qed.

(** The functions that only read leave the node alone. *)
Lemma read_same f s s' : (∀ r n n' o ins, f r n = Some (n', o, ins) → n' = n) → compute f s = Some s' → s'.2 = s.2.
Proof.
  intros Hf. destruct s as [t n]. unfold compute, compute_step. intros Hc. inv_option. repeat case_match; inv_option; simplify_eq. cbn. by eapply Hf.
Qed.
Lemma insert_all_row l : ∀ t t', insert_all c l t = Some t' → row t' = row t.
Proof.
  induction l as [|i l IH]; intros t t' Hd; cbn [insert_all] in Hd; [by injection Hd as <-|]. unfold insert_row in Hd.
  apply bind_Some in Hd as (t1&(_&(_&[= <-])%assert_bind_Some)%assert_bind_Some&Hd). by apply IH in Hd.
Qed.
Lemma compute_row f s s' : compute f s = Some s' → row s'.1 = row s.1.
Proof.
  destruct s as [t n]. unfold compute, compute_step.
  intros ([[[rc t1] n1] out]&(r&Hr&([[n2 o] ins]&Hf&(t2&Hi&[= <- <- <- <-])%bind_Some)%bind_Some)%bind_Some&[= <-])%bind_Some.
  by apply insert_all_row in Hi.
Qed.
Lemma access_row rowf type s s' : access rowf type s = Some s' → ∃ r, rowf s.2 = Some r ∧ row s'.1 = Some r.
Proof. destruct s as [t n]. unfold access. intros (r&Hr&[= <-])%bind_Some. by exists r. Qed.
Lemma access_same rowf type s s' : access rowf type s = Some s' → s'.2 = s.2.
Proof. destruct s as [t n]. unfold access. intros Ha. inv_option. by simplify_eq. Qed.

(** Reading an item leaves its row in [row]. *)
Lemma read_items_row l : ∀ s s', same_shape n0 s.2 → read_items l s = Some s' → same_shape n0 s'.2 ∧
  ((∃ r, row s.1 = Some r ∧ r_table (rows n0 r) = TPCC_ITEM) ∨ (∃ it, it ∈ l ∧ item_loc it) → ∃ r, row s'.1 = Some r ∧ r_table (rows n0 r) = TPCC_ITEM).
Proof.
  induction l as [|it l IH]; intros [t n] s' Hsh Hd; cbn [read_items] in Hd.
  { injection Hd as <-. split; [done|]. intros [?|(it&Hit&_)]; [done|by apply not_elem_of_nil in Hit]. }
  rewrite is_local_owner in Hd. cbn [mbind option_bind] in Hd. destruct (Z.eqb_spec (owner c (ol_supply_w_id it)) g_node_id) as [Hloc|Hloc].
  - apply bind_Some in Hd as (s1&H1&(s2&H2&Hd)%bind_Some). destruct (access_row _ _ _ _ H1) as (r&Hr&R1). pose proof (compute_row _ _ _ H2) as R2.
    apply access_same in H1. apply read_same in H2; [|intros r1 n1 n2 o1 ins; unfold new_order_7; intros; inv_option; by simplify_eq].
    cbn [fst snd] in *. apply IH in Hd as [Hsh' Himp]; [|by rewrite H2, H1]. split; [done|]. intros _. apply Himp. left. exists r. split; [by rewrite R2|].
    change (unit_row c q (OrdItem it) n = Some r) in Hr. rewrite (unit_row_shape c q (OrdItem it) _ _ Hsh) in Hr.
    by apply (unit_row_table c q (OrdItem it)).
  - apply IH in Hd as [Hsh' Himp]; [|done]. split; [done|]. intros [Hrow|(it'&[->|Hin]%elem_of_cons&Hl)]; [apply Himp; by left|done|apply Himp; right; eauto].
Qed.

Lemma order_home_same s s' : order_home s = Some s' → s'.2 = s.2.
Proof.
  unfold order_home. intros (s1&H1&(s2&H2&(s3&H3&(s4&H4&([t n]&H5&(r&H6&(o&H7&[= <-])%bind_Some)%bind_Some)%bind_Some)%bind_Some)%bind_Some)%bind_Some)%bind_Some.
  apply access_same in H1, H3, H5. cbn [snd] in *.
  apply read_same in H2; [|intros r1 n1 n2 o1 ins; unfold new_order_1; intros; inv_option; by simplify_eq].
  apply read_same in H4; [|intros r1 n1 n2 o1 ins; unfold new_order_3; intros; inv_option; by simplify_eq]. congruence.
Qed.

Lemma order_fails t its : txn_type q = TPCC_NEW_ORDER → owner c (w_id q) = g_node_id → order_items = Some its → (∃ it, it ∈ its ∧ item_loc it) →
  run_phases (t, n0) = None.
Proof.
  intros Ht Hw Hits Hloc. unfold run_phases, run_tpcc_phase2, run_tpcc_phase5. rewrite !is_local_owner, Ht, Hw, Z.eqb_refl. cbn [mbind option_bind].
  change (TPCC_NEW_ORDER =? TPCC_PAYMENT) with false. change (TPCC_NEW_ORDER =? TPCC_NEW_ORDER) with true. cbn iota. rewrite Hits, !Z.eqb_refl.
  destruct (order_home (t, n0)) as [s1|] eqn:H1; [|done]. apply order_home_same in H1. cbn [mbind option_bind snd] in *.
  destruct (read_items its s1) as [[t2 n2]|] eqn:H2; [|done]. cbn [mbind option_bind].
  apply read_items_row in H2 as [Hsh Hrow]; [|by rewrite H1]. destruct Hrow as (r&Hr&Htab); [by right|]. cbn [fst snd] in *.
  unfold compute at 1, compute_step. rewrite Hr. cbn [mbind option_bind]. unfold new_order_5, get_value.
  rewrite (assert_bind_false (bool_decide (table_of D_NEXT_O_ID = _))); [done|]. apply bool_decide_eq_false. cbn. by rewrite (sh_table _ _ Hsh), Htab.
Qed.

End node.

(** ** Correctness *)

(** C38: When the lock thread finds the rows of a payment on a node, the phases of Calvin
    run there and access exactly the rows that are locked, in the same modes; so they do
    for a new order, except on the node of its warehouse when items are supplied there. *)
Theorem tpcc_calvin_locks c g q n t locked : 0 < g_part_cnt c ≤ g_num_wh c → node_ok n → clean t →
  (length (items q) + 2 ≤ MAX_ROW_PER_TXN ∧ length (items q) ≤ g_max_items_per_txn c + 8)%nat →
  acquire_locks c g q n = Some locked →
  txn_type q = TPCC_PAYMENT ∨ (txn_type q = TPCC_NEW_ORDER ∧ (owner c (w_id q) ≠ g ∨ ∀ it, it ∈ items q → owner c (ol_supply_w_id it) ≠ g)) →
  ∃ t' n', run_phases c g q (t, n) = Some (t', n') ∧ ∀ x, x ∈ accesses t' ↔ x ∈ locked.
Proof.
  intros Hp Hok Ht Hf Hl [Hty|[Hty Hcase]].
  - destruct (payment_phases c g q n Hp Hok locked t Hty Hl Ht) as ([t' n']&Hr&Hm). by exists t', n'.
  - destruct (order_phases c g q n Hp Hok locked t Hty Hl Ht) as ([t' n']&Hr&Hm); [unfold fits; lia|done|]. by exists t', n'.
Qed.

(** A new order with an item that the home warehouse supplies never gets through the
    phases of Calvin on its home node: phase 2 leaves the row of the item in [row], where
    [new_order_5] of phase 5 expects the row of the district. *)
Theorem tpcc_calvin_order_fails c g q n t its : 0 < g_part_cnt c ≤ g_num_wh c → node_ok n →
  txn_type q = TPCC_NEW_ORDER → owner c (w_id q) = g → order_items q = Some its → (∃ it, it ∈ its ∧ owner c (ol_supply_w_id it) = g) →
  run_phases c g q (t, n) = None.
Proof. intros Hp Hok. by apply order_fails. Qed.

Import TpccProps.Example.

(** The node that supplies the other items of the order, and both nodes of the payment. *)
Lemma tpcc_calvin_locks_witness :
  (∃ t' n', run_phases ex_c 1 ex_order (ex_pool 1, ex_node 1) = Some (t', n') ∧
    ∀ x, x ∈ accesses t' ↔ x ∈ [(4, RD); (6, WR); (3, RD); (5, WR)]%nat) ∧
  acquire_locks ex_c 0 ex_payment (ex_node 0) = Some [(0, WR); (1, WR)]%nat ∧
  acquire_locks ex_c 1 ex_payment (ex_node 1) = Some [(2, WR)]%nat.
Proof.
  split; [|split; vm_compute; reflexivity].
  apply (tpcc_calvin_locks ex_c 1 ex_order (ex_node 1) (ex_pool 1)).
  - cbn. lia.
  - apply ex_node_ok.
  - done.
  - cbn. unfold MAX_ROW_PER_TXN. lia.
  - vm_compute. reflexivity.
  - right. split; [done|]. left. by vm_compute.
Defined.

Lemma tpcc_calvin_order_fails_witness : run_phases ex_c 0 ex_order (ex_pool 0, ex_node 0) = None.
Proof.
  apply (tpcc_calvin_order_fails ex_c 0 ex_order (ex_node 0) (ex_pool 0) (items ex_order)).
  - cbn. lia.
  - apply ex_node_ok.
  - done.
  - vm_compute. reflexivity.
  - vm_compute. reflexivity.
  - exists (mkItem 1 1 5). split; [cbn; left|vm_compute; reflexivity].
Defined.

End TpccCalvin.
