(* ===== verification/CalvinQueries.v ===== *)
(** * CalvinQueries: the queries of YCSB and TPC-C under Calvin

    [get_participants] of [YCSBQuery] and [TPCCQuery] (benchmarks/ycsb_query.cpp,
    benchmarks/tpcc_query.cpp) implement what the protocol of [CalvinExec] relies on, so
    its theorems hold for the transactions of both.  The work of the phases is that of
    [YCSBTxnManager::run_ycsb], and of [run_tpcc_phase2] and [run_tpcc_phase5] in
    [TpccCalvin]. *)

From S2P Require Import Prelude Message Globals Sequencer YcsbTxn TpccTxn TpccRun TpccProps CalvinExec TpccCalvin.

Module CalvinQueries.
Import CalvinExec.CalvinExec.

(** ** Arrays of flags *)

(** The loops count a node when they set its flag for the first time. *)
Definition count_node (n : nat) (st : Z * list Z) : option (Z * list Z) :=
  let '(cnt, l) := st in v ← l !! n; Some (if v =? 0 then cnt + 1 else cnt, <[n := 1]> l).
Definition set_node (n : nat) (l : list Z) : option (list Z) :=
  ASSERT bool_decide (n < length l)%nat; Some (<[n := 1]> l).

Definition flags (l : list Z) : Prop := Forall (λ v, v = 0 ∨ v = 1) l.
Definition set_nodes (l : list Z) : list nat := filter (is_set l) (seq 0 (length l)).
(** The count is that of the flags. *)
Definition counted (st : Z * list Z) : Prop := flags st.2 ∧ st.1 = zlen (set_nodes st.2).

Lemma elem_of_set_nodes l n : n ∈ set_nodes l ↔ is_set l n.
Proof.
  unfold set_nodes. rewrite list_elem_of_filter, elem_of_seq. split; [by intros [? _]|]. intros Hn. split; [done|].
  apply lookup_lt_Some in Hn. lia.
Qed.
Lemma is_set_insert l n m : is_set (<[n := 1]> l) m ↔ (m = n ∧ (n < length l)%nat) ∨ is_set l m.
Proof.
  unfold is_set. rewrite list_lookup_insert_Some. split; [naive_solver|]. intros [[-> Hn]|Hm]; [by left|].
  destruct (decide (n = m)) as [->|]; [left|by right]. apply lookup_lt_Some in Hm. done.
Qed.

Lemma flags_insert l n : flags l → flags (<[n := 1]> l).
Proof. intros Hl. apply Forall_insert; auto. Qed.

Lemma count_node_ok n st : counted st → (n < length st.2)%nat → ∃ st', count_node n st = Some st' ∧ counted st' ∧ length st'.2 = length st.2 ∧
  st'.2 = <[n := 1]> st.2.
Proof.
  destruct st as [cnt l]. cbn [fst snd]. intros [Hf Hc] Hn. destruct (lookup_lt_is_Some_2 _ _ Hn) as [v Hv]. unfold count_node. rewrite Hv. cbn [mbind option_bind].
  eexists. split; [done|]. cbn [fst snd] in *. rewrite length_insert. split; [|done]. split; [by apply flags_insert|]. cbn [fst snd]. subst cnt.
  destruct (Forall_lookup_1 _ _ _ _ Hf Hv) as [->| ->]; cbn [Z.eqb].
  - assert (set_nodes (<[n := 1]> l) ≡ₚ n :: set_nodes l) as ->; [|cbn [length]; lia]. apply NoDup_Permutation.
    + apply NoDup_filter, NoDup_seq.
    + apply NoDup_cons. split; [|apply NoDup_filter, NoDup_seq]. rewrite elem_of_set_nodes. unfold is_set. congruence.
    + intros m. rewrite elem_of_cons, !elem_of_set_nodes, is_set_insert. naive_solver.
  - by rewrite list_insert_id.
Qed.

Lemma zeros_counted n : counted (0, replicate n 0).
Proof.
  split; cbn [fst snd]; [apply Forall_replicate; by left|]. assert (set_nodes (replicate n 0) = []) as ->; [|done].
  apply elem_of_nil_inv. intros m. rewrite elem_of_set_nodes. unfold is_set. by intros [? _]%lookup_replicate.
Qed.

(** ** YCSB *)

Section ycsb.
Context (c : Sequencer.config) (YCSB_ABORT_MODE : bool).

Definition node_of (r : Sequencer.ycsb_request) : nat := Z.to_nat (YcsbTxn.owner c r).

Fixpoint ycsb_scan (reqs : list Sequencer.ycsb_request) (st : Z * list Z) (act : list Z) : option (Z * list Z * list Z) :=
  match reqs with
  | [] => Some (st, act)
  | r :: reqs =>
      st ← (if bool_decide (Sequencer.acctype r = RD) then count_node (node_of r) st else Some st);
      act ← (if bool_decide (Sequencer.acctype r = WR) then set_node (node_of r) act else Some act);
      ycsb_scan reqs st act
  end.
Definition ycsb_get_participants (reqs : list Sequencer.ycsb_request) : option (Z * list Z * list Z) :=
  ycsb_scan reqs (0, replicate (Sequencer.g_node_cnt c) 0) (replicate (Sequencer.g_node_cnt c) 0).

(** The requests that [run_ycsb] executes in a phase, on the node [g]. *)
Definition run_ycsb (g : nat) (ph : CALVIN_PHASE) (reqs : list Sequencer.ycsb_request) : list Sequencer.ycsb_request :=
  filter (λ r, ¬ (ph = CALVIN_LOC_RD ∧ Sequencer.acctype r = WR) ∧ ¬ (ph = CALVIN_EXEC_WR ∧ Sequencer.acctype r = RD) ∧ node_of r = g) reqs.

(** The rows of a node: the index, the first field of each row, and the accesses so far. *)
Record ynode := mkYN { the_index : Z → option nat; field_0 : nat → Z; y_accesses : list (nat * access_t) }.

(** [get_row] grants the access, since the locks are held. *)
Definition run_ycsb_0 (req : Sequencer.ycsb_request) (n : ynode) : option (nat * ynode) :=
  r ← the_index n (Sequencer.key req);
  Some (r, mkYN (the_index n) (field_0 n) (y_accesses n ++ [(r, Sequencer.acctype req)])).
Definition run_ycsb_1 (acctype : access_t) (r : nat) (n : ynode) : option ynode :=
  if bool_decide (acctype = RD) || bool_decide (acctype = SCAN) then Some n
  else ASSERT bool_decide (acctype = WR); Some (mkYN (the_index n) (<[r := 0]> (field_0 n)) (y_accesses n)).
Fixpoint run_requests (reqs : list Sequencer.ycsb_request) (n : ynode) : option ynode :=
  match reqs with
  | [] => Some n
  | req :: reqs => '(r, n) ← run_ycsb_0 req n; n ← run_ycsb_1 (Sequencer.acctype req) r n; run_requests reqs n
  end.

End ycsb.

(** ** TPC-C *)

Section tpcc.
Context (c : TpccTxn.tconfig).

Fixpoint tpcc_scan (l : list Message.Item_no) (st : Z * list Z) (act : list Z) : option (Z * list Z * list Z) :=
  match l with
  | [] => Some (st, act)
  | it :: l =>
      n ← TpccTxn.wh_node c (Message.ol_supply_w_id it);
      v ← st.2 !! Z.to_nat n;
      if v =? 0 then
        st ← count_node (Z.to_nat n) st; act ← set_node (Z.to_nat n) act; tpcc_scan l st act
      else tpcc_scan l st act
  end.

Definition tpcc_get_participants (q : Message.tpcc_input) : option (Z * list Z * list Z) :=
  let zeros := replicate (Z.to_nat (TpccTxn.g_node_cnt c)) 0 in
  home ← TpccTxn.wh_node c (Message.w_id q);
  parts ← set_node (Z.to_nat home) zeros;
  act ← set_node (Z.to_nat home) zeros;
  if Message.txn_type q =? Message.TPCC_PAYMENT then
    n ← TpccTxn.wh_node c (Message.c_w_id q);
    v ← parts !! Z.to_nat n;
    if v =? 0 then st ← count_node (Z.to_nat n) (1, parts); act ← set_node (Z.to_nat n) act; Some (st, act)
    else Some (1, parts, act)
  else if Message.txn_type q =? Message.TPCC_NEW_ORDER then
    ASSERT Message.ol_cnt q <=? zlen (Message.items q);
    tpcc_scan (take (Z.to_nat (Message.ol_cnt q)) (Message.items q)) (1, parts) act
  else Some (1, parts, act).

End tpcc.

(** ** The analysis of a query *)

Inductive cquery :=
  | YcsbQ (c : Sequencer.config) (YCSB_ABORT_MODE : bool) (reqs : list Sequencer.ycsb_request)
  | TpccQ (c : TpccTxn.tconfig) (q : Message.tpcc_input).

(** Phase 1, with what the loops of the two workloads differ in. *)
Definition analyse (wq : cquery) : option analysis :=
  match wq with
  | YcsbQ c ab reqs => '(cnt, parts, act) ← ycsb_get_participants c reqs; Some (mkA parts act cnt ab false)
  | TpccQ c q => '(cnt, parts, act) ← tpcc_get_participants c q; Some (mkA parts act cnt true true)
  end.

(** The rows of a node with the manager of the transaction, and what the phases do. *)
Definition wstate (wq : cquery) : Type := match wq with YcsbQ _ _ _ => ynode | TpccQ _ _ => TpccCalvin.mstate end.
Definition work (wq : cquery) : nat → CALVIN_PHASE → wstate wq → option (wstate wq) :=
  match wq with
  | YcsbQ c _ reqs => λ g ph, run_requests (run_ycsb c g ph reqs)
  | TpccQ c q => λ g ph, if bool_decide (ph = CALVIN_LOC_RD) then TpccCalvin.run_tpcc_phase2 c (Z.of_nat g) q
                         else TpccCalvin.run_tpcc_phase5 c (Z.of_nat g) q
  end.

(** The rows the phases ask for are there; under TPC-C the lock threads have found them, and
    no item of an order is supplied by the node of its warehouse, where phase 5 fails
    ([TpccCalvin.tpcc_calvin_order_fails]). *)
Definition ready (wq : cquery) : (nat → wstate wq) → Prop :=
  match wq with
  | YcsbQ c _ reqs => λ w0, ∀ r, r ∈ reqs → YcsbTxn.req_ok r ∧ is_Some (the_index (w0 (node_of c r)) (Sequencer.key r))
  | TpccQ c q => λ w0,
      (Message.txn_type q = Message.TPCC_PAYMENT ∨ (Message.txn_type q = Message.TPCC_NEW_ORDER ∧
        ∀ it, it ∈ Message.items q → TpccTxn.owner c (Message.ol_supply_w_id it) ≠ TpccTxn.owner c (Message.w_id q))) ∧
      (length (Message.items q) + 2 ≤ TpccTxn.MAX_ROW_PER_TXN ∧ length (Message.items q) ≤ TpccTxn.g_max_items_per_txn c + 8)%nat ∧
      ∀ g, (g < Z.to_nat (TpccTxn.g_node_cnt c))%nat → TpccRun.clean (w0 g).1 ∧ TpccProps.node_ok (w0 g).2 ∧
        is_Some (TpccCalvin.acquire_locks c (Z.of_nat g) q (w0 g).2)
  end.

Definition cquery_ok (wq : cquery) : Prop :=
  match wq with
  | YcsbQ c _ reqs => (0 < Sequencer.g_node_cnt c)%nat
  | TpccQ c q => 0 < TpccTxn.g_node_cnt c ∧ 0 < TpccTxn.g_part_cnt c ≤ TpccTxn.g_num_wh c ∧
      Message.ol_cnt q ≤ zlen (Message.items q)
  end.

Lemma node_of_lt c r : (0 < Sequencer.g_node_cnt c)%nat → (node_of c r < Sequencer.g_node_cnt c)%nat.
Proof. intros Hc. unfold node_of, YcsbTxn.owner, Sequencer.GET_NODE_ID. pose proof (Z.mod_pos_bound (Sequencer.key_to_part c (Sequencer.key r)) (Z.of_nat (Sequencer.g_node_cnt c))). lia. Qed.

Lemma set_node_ok n l : (n < length l)%nat → set_node n l = Some (<[n := 1]> l).
Proof. intros Hn. unfold set_node. by rewrite assert_bind_true by by apply bool_decide_eq_true. Qed.

Lemma ycsb_scan_ok c reqs : (0 < Sequencer.g_node_cnt c)%nat → ∀ st act, counted st → length st.2 = Sequencer.g_node_cnt c →
  length act = Sequencer.g_node_cnt c → ∃ st' act', ycsb_scan c reqs st act = Some (st', act') ∧ counted st' ∧
  length st'.2 = Sequencer.g_node_cnt c ∧ length act' = Sequencer.g_node_cnt c ∧
  (∀ g, is_set st'.2 g ↔ is_set st.2 g ∨ ∃ r, r ∈ reqs ∧ Sequencer.acctype r = RD ∧ node_of c r = g) ∧
  (∀ g, is_set act' g ↔ is_set act g ∨ ∃ r, r ∈ reqs ∧ Sequencer.acctype r = WR ∧ node_of c r = g).
Proof.
  intros Hc. induction reqs as [|r reqs IH]; intros st act Hst Hl Ha.
  { exists st, act. split_and!; try done; intros g; (split; [by left|]); (intros [?|(r&Hr&_)]; [done|by apply not_elem_of_nil in Hr]). }
  cbn [ycsb_scan]. pose proof (node_of_lt c r Hc) as Hn.
  destruct (decide (Sequencer.acctype r = RD)) as [Hrd|Hrd]; [rewrite (bool_decide_true (_ = RD)) by done|rewrite (bool_decide_false (_ = RD)) by done].
  - destruct (count_node_ok (node_of c r) st Hst) as (st1&Hst1&Hc1&Hl1&E1); [lia|]. rewrite Hst1. cbn [mbind option_bind].
    rewrite bool_decide_false by (by rewrite Hrd). cbn [mbind option_bind].
    destruct (IH st1 act) as (st'&act'&H1&H2&H3&H4&H5&H6); [done|congruence|done|]. exists st', act'. split_and!; try done.
    + intros g. rewrite H5, E1, is_set_insert, exists_cons. assert (g = node_of c r ∧ (node_of c r < length st.2)%nat ↔ node_of c r = g) by lia. tauto.
    + intros g. rewrite H6, exists_cons. assert (Sequencer.acctype r ≠ WR) by congruence. tauto.
  - cbn [mbind option_bind]. destruct (decide (Sequencer.acctype r = WR)) as [Hwr|Hwr]; [rewrite bool_decide_true by done|rewrite bool_decide_false by done].
    + rewrite set_node_ok by lia. cbn [mbind option_bind]. destruct (IH st (<[node_of c r := 1]> act)) as (st'&act'&H1&H2&H3&H4&H5&H6); [done|done|by rewrite length_insert|].
      exists st', act'. split_and!; try done.
      * intros g. rewrite H5, exists_cons. tauto.
      * intros g. rewrite H6, is_set_insert, exists_cons. assert (g = node_of c r ∧ (node_of c r < length act)%nat ↔ node_of c r = g) by lia. tauto.
    + cbn [mbind option_bind]. destruct (IH st act) as (st'&act'&H1&H2&H3&H4&H5&H6); [done..|]. exists st', act'. split_and!; try done;
        intros g; [rewrite H5|rewrite H6]; rewrite exists_cons; tauto.
Qed.

Lemma wh_node_lt c w : 0 < TpccTxn.g_node_cnt c → 0 < TpccTxn.g_part_cnt c ≤ TpccTxn.g_num_wh c →
  ∃ n, TpccTxn.wh_node c w = Some n ∧ (Z.to_nat n < Z.to_nat (TpccTxn.g_node_cnt c))%nat.
Proof.
  intros Hn Hp. unfold TpccTxn.wh_node, TpccTxn.wh_to_part. rewrite !assert_bind_true by lia. cbn [mbind option_bind]. eexists. split; [done|].
  pose proof (Z.mod_pos_bound (wrap64 (w - 1) `mod` TpccTxn.g_part_cnt c) (TpccTxn.g_node_cnt c) Hn). lia.
Qed.

Lemma tpcc_scan_ok c l N : 0 < TpccTxn.g_node_cnt c → 0 < TpccTxn.g_part_cnt c ≤ TpccTxn.g_num_wh c → N = Z.to_nat (TpccTxn.g_node_cnt c) →
  ∀ st act, counted st → length st.2 = N → length act = N → ∃ st' act', tpcc_scan c l st act = Some (st', act') ∧
  counted st' ∧ length st'.2 = N ∧ length act' = N.
Proof.
  intros Hn Hp HN. induction l as [|it l IH]; intros st act Hst Hl Ha; [by exists st, act|].
  cbn [tpcc_scan]. destruct (wh_node_lt c (Message.ol_supply_w_id it) Hn Hp) as (n&E&Hlt). rewrite E. cbn [mbind option_bind].
  destruct (lookup_lt_is_Some_2 st.2 (Z.to_nat n)) as [v Hv]; [lia|]. rewrite Hv. cbn [mbind option_bind]. destruct (v =? 0); [|by apply IH].
  destruct (count_node_ok (Z.to_nat n) st Hst) as (st1&Hst1&Hc1&Hl1&_); [lia|]. rewrite Hst1. cbn [mbind option_bind].
  rewrite set_node_ok by lia. cbn [mbind option_bind]. apply IH; [done|congruence|by rewrite length_insert].
Qed.

(** The arrays that [tpcc_get_participants] starts with. *)
Lemma home_counted n N : (n < N)%nat → counted (1, <[n := 1]> (replicate N 0)).
Proof.
  intros Hn. destruct (count_node_ok n _ (zeros_counted N)) as ([cnt l]&Hc&Hok&_&Hl); [cbn [snd]; by rewrite length_replicate|]. cbn in Hc, Hl.
  rewrite lookup_replicate_2 in Hc by done. cbn in Hc. by injection Hc as <- <-.
Qed.

Lemma tpcc_participants_ok c q : cquery_ok (TpccQ c q) → ∃ st act, tpcc_get_participants c q = Some (st, act) ∧ counted st ∧
  length st.2 = Z.to_nat (TpccTxn.g_node_cnt c) ∧ length act = Z.to_nat (TpccTxn.g_node_cnt c).
Proof.
  intros (Hn&Hp&Hol). unfold tpcc_get_participants. destruct (wh_node_lt c (Message.w_id q) Hn Hp) as (h&E&Hlt). rewrite E. cbn [mbind option_bind].
  set (N := Z.to_nat (TpccTxn.g_node_cnt c)) in *. rewrite !set_node_ok by (by rewrite length_replicate). cbn [mbind option_bind].
  pose proof (home_counted _ _ Hlt) as Hc. assert (length (<[Z.to_nat h := 1]> (replicate N 0)) = N) as Hl by (by rewrite length_insert, length_replicate).
  destruct (Message.txn_type q =? _); [|destruct (Message.txn_type q =? _)].
  - destruct (wh_node_lt c (Message.c_w_id q) Hn Hp) as (n&E'&Hlt'). rewrite E'. cbn [mbind option_bind].
    destruct (lookup_lt_is_Some_2 (<[Z.to_nat h := 1]> (replicate N 0)) (Z.to_nat n)) as [v Hv]; [by rewrite Hl|]. rewrite Hv. cbn [mbind option_bind].
    destruct (v =? 0); [|by eexists _, _].
    destruct (count_node_ok (Z.to_nat n) _ Hc) as (st1&Hst1&Hc1&Hl1&_); [cbn; by rewrite Hl|]. rewrite Hst1. cbn [mbind option_bind].
    rewrite set_node_ok by (by rewrite Hl). cbn [mbind option_bind]. eexists _, _. split; [done|]. split; [done|]. rewrite Hl1, length_insert. cbn. by rewrite Hl.
  - rewrite assert_bind_true by lia. destruct (tpcc_scan_ok c (take (Z.to_nat (Message.ol_cnt q)) (Message.items q)) N Hn Hp eq_refl _ _ Hc Hl Hl)
      as (st'&act'&H1&H2&H3&H4). by exists st', act'.
  - by eexists _, _.
Qed.

(** What the protocol relies on holds for the queries of both workloads. *)
Lemma analyse_ok wq : cquery_ok wq → ∃ a, analyse wq = Some a ∧ Analysis a.
Proof.
  intros Hok. destruct wq as [c ab reqs|c q]; cbn [analyse].
  - unfold ycsb_get_participants. destruct (ycsb_scan_ok c reqs Hok (0, replicate (Sequencer.g_node_cnt c) 0) (replicate (Sequencer.g_node_cnt c) 0))
      as ([cnt parts]&act&H1&[_ H2]&H3&H4&_); [apply zeros_counted|apply length_replicate..|]. rewrite H1. cbn [mbind option_bind].
    eexists. split; [done|]. split; [done|]. cbn in *. congruence.
  - destruct (tpcc_participants_ok c q Hok) as ([cnt parts]&act&H1&[_ H2]&H3&H4). rewrite H1. cbn [mbind option_bind].
    eexists. split; [done|]. split; [done|]. cbn in *. congruence.
Qed.

(** *** The work of the phases *)

Lemma run_requests_ok reqs : ∀ n, (∀ r, r ∈ reqs → YcsbTxn.req_ok r ∧ is_Some (the_index n (Sequencer.key r))) →
  ∃ n', run_requests reqs n = Some n' ∧ the_index n' = the_index n.
Proof.
  induction reqs as [|r reqs IH]; intros n Hn; [by exists n|]. cbn [run_requests]. unfold run_ycsb_0, run_ycsb_1.
  destruct (Hn r ltac:(left)) as [Hr [x Hx]]. rewrite Hx. cbn [mbind option_bind].
  assert (∀ r, r ∈ reqs → YcsbTxn.req_ok r ∧ is_Some (the_index n (Sequencer.key r))) as Hn' by (intros r' Hr'; apply Hn; by right).
  destruct Hr as [Hr|[Hr|Hr]]; rewrite Hr; [exact (IH (mkYN (the_index n) _ _) Hn')|exact (IH (mkYN (the_index n) _ _) Hn')|]. rewrite !(bool_decide_false (WR = _)) by done. cbn [orb].
  rewrite assert_bind_true by done. exact (IH (mkYN (the_index n) _ _) Hn').
Qed.

(** Only nodes of the array are involved. *)
Lemma tpcc_involved_lt c q a g : cquery_ok (TpccQ c q) → analyse (TpccQ c q) = Some a → involved a g → (g < Z.to_nat (TpccTxn.g_node_cnt c))%nat.
Proof.
  intros Hok Ha Hg. destruct (tpcc_participants_ok c q Hok) as ([cnt parts]&act&H1&_&H3&H4). cbn [analyse] in Ha. rewrite H1 in Ha. cbn in Ha.
  injection Ha as <-. cbn in H3. destruct Hg as [Hg|Hg]; apply lookup_lt_Some in Hg; cbn in Hg; congruence.
Qed.

Lemma ready_work wq a w0 : cquery_ok wq → analyse wq = Some a → ready wq w0 → ∀ g, involved a g → is_Some (work_of a (work wq) g (w0 g)).
Proof.
  intros Hok Ha Hr g Hg. unfold work_of. destruct wq as [c ab reqs|c q].
  - cbn [work]. assert (∀ n ph, the_index n = the_index (w0 g) → ∃ n', run_requests (run_ycsb c g ph reqs) n = Some n' ∧ the_index n' = the_index (w0 g)) as Hrun.
    { intros n ph Hn. rewrite <-Hn. apply run_requests_ok. intros r ((_&_&Hg')&Hin)%list_elem_of_filter. rewrite Hn, <-Hg'. by apply Hr. }
    destruct (Hrun (w0 g) CALVIN_LOC_RD eq_refl) as (n1&H1&E1). rewrite H1. cbn [mbind option_bind]. case_decide; [|by eexists].
    destruct (Hrun n1 CALVIN_EXEC_WR E1) as (n2&H2&_). by exists n2.
  - pose proof Hok as (_&Hp&_). destruct Hr as (Hty&Hlen&Hall). pose proof (tpcc_involved_lt c q a g Hok Ha Hg) as Hlt.
    destruct (Hall g Hlt) as (Hc&Hn&[locked Hl]). cbn [work wstate] in *. destruct (w0 g) as [t n].
    assert (is_Some (TpccCalvin.run_phases c (Z.of_nat g) q (t, n))) as [s' Hs'].
    { destruct Hty as [Ht|[Ht Hno]]; [destruct (TpccCalvin.payment_phases c (Z.of_nat g) q n Hp Hn locked t Ht Hl Hc) as (s'&Hs'&_); by exists s'|].
      destruct (TpccCalvin.order_phases c (Z.of_nat g) q n Hp Hn locked t Ht Hl Hc) as (s'&Hs'&_); [unfold TpccCalvin.fits; cbn in Hlen; lia| |by exists s'].
      destruct (decide (TpccTxn.owner c (Message.w_id q) = Z.of_nat g)) as [He|He]; [right|by left]. intros it Hit. unfold TpccCalvin.item_loc. rewrite <-He. by apply Hno. }
    unfold TpccCalvin.run_phases in Hs'. apply bind_Some in Hs' as (s1&H1&H2).
    rewrite (bool_decide_true (CALVIN_LOC_RD = _)), H1 by done. cbn [mbind option_bind]. case_decide; [|by eexists].
    rewrite (bool_decide_false (CALVIN_EXEC_WR = _)) by done. by exists s'.
Qed.

(** ** All executions *)

(** C9: Under Calvin the nodes of a YCSB or TPC-C transaction start in any order and get
    the forwarded reads in any order, even before they start.  No message reaches a node
    that has finished, no node works through a phase twice, and where reads are exchanged a
    node performs its writes after all participants have performed their reads.  No
    assertion fails in a handler when the rows are there and the node of the warehouse of a
    TPC-C order supplies none of its items. *)
Theorem calvin_reads_first wq w0 : cquery_ok wq → ∃ a, analyse wq = Some a ∧ ∀ s, rtc (step a (work wq)) (init w0) s →
  (ready wq w0 →
    (∀ g, involved a g → g ∉ started s → is_Some (process_calvin_rtxn a (work wq) g s)) ∧
    (∀ i p g, net s !! i = Some (p, g) →
      is_Some (process_rfwd a (work wq) g (mkS (cm s) (delete i (net s)) (started s) (finished s) (log s) (ws s))))) ∧
  (∀ p g, (p, g) ∈ net s → g ∉ finished s) ∧ NoDup (log s) ∧ reads_first a (log s).
Proof.
  intros Hok. destruct (analyse_ok wq Hok) as (a&Ha&Han). exists a. split; [done|]. intros s [n Hn]%rtc_nsteps_1.
  destruct (exec_run_inv a (work wq) w0 n s Hn) as (Hinv&Hri&_).
  assert (∀ p g, (p, g) ∈ net s → is_set (active_nodes a) g ∧ g ∉ finished s) as Hnet by (intros p g Hin; apply (iv_net _ _ _ Hinv) in Hin; tauto).
  split_and!; [|intros p g Hin; by apply (Hnet p g)|apply (iv_log _ _ _ Hinv)|apply (iv_first _ _ _ Hinv)].
  intros Hrd. pose proof (ready_work wq a w0 Hok Ha Hrd) as Hr. split.
  - intros g Hg Hs. by apply (exec_start_ok a (work wq) w0 s g Hinv Hri Hg Hs), Hr.
  - intros i p g Hi. apply (deliver_ok a (work wq) w0 s i p g Hinv Hri Hi), Hr. right. apply list_elem_of_lookup_2 in Hi. by apply (Hnet p g).
Qed.

(** C17: Every execution of a transaction on its nodes ends: with [N] nodes there are at
    most [N (N + 1)] steps.  When the rows are there and the node of the warehouse of a
    TPC-C order supplies none of its items, and no step is left, then every node has
    performed its reads, every active node its writes, all have released their transaction
    managers, and the rows of each node are what its phases make of those before. *)
Theorem calvin_exec_ends wq w0 : cquery_ok wq → ∃ a, analyse wq = Some a ∧ ∀ n s, nsteps (step a (work wq)) n (init w0) s →
  (n ≤ size a * S (size a))%nat ∧
  (ready wq w0 → (∀ s', ¬ step a (work wq) s s') → ∀ g, involved a g →
    g ∈ finished s ∧ (g, CALVIN_LOC_RD) ∈ log s ∧ ((g, CALVIN_EXEC_WR) ∈ log s ↔ is_set (active_nodes a) g) ∧
    work_of a (work wq) g (w0 g) = Some (ws s g)).
Proof.
  intros Hok. destruct (analyse_ok wq Hok) as (a&Ha&Han). exists a. split; [done|]. intros n s Hn.
  destruct (exec_run_inv a (work wq) w0 n s Hn) as (Hinv&Hri&Hle). split; [lia|].
  intros Hr Hstuck g Hg. pose proof (stuck_finished a (work wq) w0 s Hinv Hri (ready_work wq a w0 Hok Ha Hr) Hstuck g Hg) as Hf.
  split; [done|]. rewrite !(proj2 (iv_log _ _ _ Hinv)). pose proof (proj2 (iv_finished _ _ _ Hinv) g Hf).
  pose proof (ri_done _ _ _ _ Hri g Hf). naive_solver.
Qed.

(** ** What YCSB transactions execute *)

(** The requests that node [g] executes in the phases of the log. *)
Definition executed (c : Sequencer.config) (g : nat) (reqs : list Sequencer.ycsb_request) (l : list event) : list Sequencer.ycsb_request :=
  l ≫= λ '(h, ph), if decide (h = g) then run_ycsb c g ph reqs else [].

Definition read_write (r : Sequencer.ycsb_request) : Prop := Sequencer.acctype r = RD ∨ Sequencer.acctype r = WR.

Lemma ycsb_analyse_ok c ab reqs : (0 < Sequencer.g_node_cnt c)%nat → ∃ a, analyse (YcsbQ c ab reqs) = Some a ∧ Analysis a ∧
  (∀ g, is_set (participant_nodes a) g ↔ ∃ r, r ∈ reqs ∧ Sequencer.acctype r = RD ∧ node_of c r = g) ∧
  (∀ g, is_set (active_nodes a) g ↔ ∃ r, r ∈ reqs ∧ Sequencer.acctype r = WR ∧ node_of c r = g).
Proof.
  intros Hc. destruct (analyse_ok (YcsbQ c ab reqs) Hc) as (a&Ha&Han). exists a. split; [done|]. split; [done|]. cbn [analyse] in Ha.
  unfold ycsb_get_participants in Ha. destruct (ycsb_scan_ok c reqs Hc (0, replicate (Sequencer.g_node_cnt c) 0) (replicate (Sequencer.g_node_cnt c) 0))
    as ([cnt parts]&act&H1&_&_&_&H5&H6); [apply zeros_counted|apply length_replicate..|]. rewrite H1 in Ha. cbn in Ha. injection Ha as <-. cbn.
  assert (∀ g, ¬ is_set (replicate (Sequencer.g_node_cnt c) 0) g) as Hz by (intros g; unfold is_set; by intros [? _]%lookup_replicate).
  split; intros g; [rewrite (H5 g)|rewrite (H6 g)]; cbn; specialize (Hz g); tauto.
Qed.

(** The events of a node, when all are done. *)
Lemma node_events {W} a (s : sys (W := W)) g : Analysis a → inv a (λ _, False) s →
  (∀ g, involved a g → g ∈ finished s) →
  filter (λ e : event, e.1 = g) (log s) ≡ₚ
  (if decide (involved a g) then [(g, CALVIN_LOC_RD)] else []) ++ (if decide (is_set (active_nodes a) g) then [(g, CALVIN_EXEC_WR)] else []).
Proof.
  intros Han Hinv Hdone. destruct (iv_log _ _ _ Hinv) as [Hnd Hlog]. apply NoDup_Permutation.
  - by apply NoDup_filter.
  - repeat case_decide; repeat constructor; set_solver.
  - intros [h ph]. rewrite list_elem_of_filter, Hlog, elem_of_app. cbn [fst].
    pose proof (Hdone g) as Hf. pose proof (proj2 (iv_finished _ _ _ Hinv) g) as Hfs. pose proof (proj2 (iv_started _ _ _ Hinv) g) as Hs.
    assert (is_set (active_nodes a) g → involved a g) by (by right).
    split; [intros [-> [[-> Hg]|[-> [Hg Ha]]]]|intros [Hin|Hin]].
    + left. rewrite decide_True by auto. left.
    + right. rewrite decide_True by done. left.
    + case_decide; [|by apply not_elem_of_nil in Hin]. apply list_elem_of_singleton in Hin as [= -> ->]. split; [done|]. left. auto.
    + case_decide; [|by apply not_elem_of_nil in Hin]. apply list_elem_of_singleton in Hin as [= -> ->]. split; [done|]. right. auto.
Qed.

Lemma executed_events c g reqs l : executed c g reqs l = executed c g reqs (filter (λ e : event, e.1 = g) l).
Proof.
  induction l as [|[h ph] l IH]; [done|]. rewrite filter_cons. cbn [fst]. unfold executed in *. cbn [mbind list_bind]. rewrite IH.
  destruct (decide (h = g)) as [->|Hne]; [|done]. cbn [mbind list_bind]. by rewrite decide_True.
Qed.

(** The two phases of a node share out its requests. *)
Lemma run_ycsb_phases c g reqs : Forall read_write reqs →
  run_ycsb c g CALVIN_LOC_RD reqs ++ run_ycsb c g CALVIN_EXEC_WR reqs ≡ₚ filter (λ r, node_of c r = g) reqs.
Proof.
  induction 1 as [|r reqs Hr Hreqs IH]; [done|]. unfold run_ycsb in *. rewrite !filter_cons. destruct (decide (node_of c r = g)) as [Hn|Hn].
  - destruct Hr as [Hr|Hr].
    + rewrite (decide_True (P := _ ∧ _)) by (rewrite Hr; naive_solver). rewrite decide_False by (rewrite Hr; naive_solver). cbn [app]. by rewrite IH.
    + rewrite (decide_False (P := _ ∧ _)) by (rewrite Hr; naive_solver). rewrite decide_True by (rewrite Hr; naive_solver).
      by rewrite <-Permutation_middle, IH.
  - rewrite !decide_False by naive_solver. done.
Qed.

Lemma run_ycsb_none c g ph reqs : (∀ r, r ∈ reqs → node_of c r = g → (ph = CALVIN_LOC_RD ∧ Sequencer.acctype r = WR) ∨ (ph = CALVIN_EXEC_WR ∧ Sequencer.acctype r = RD)) →
  run_ycsb c g ph reqs = [].
Proof. intros Hn. apply elem_of_nil_inv. intros r (Hc&Hr)%list_elem_of_filter. specialize (Hn r Hr). tauto. Qed.

Lemma elem_of_seq_participants c m g : g ∈ Sequencer.participants c m ↔ ∃ r, r ∈ Sequencer.requests m ∧ node_of c r = g.
Proof.
  unfold Sequencer.participants. rewrite list_elem_of_fmap.
  assert (∀ l s z, z ∈ foldl (λ s req, sset_insert (Sequencer.GET_NODE_ID c (Sequencer.key_to_part c (Sequencer.key req))) s) s l ↔
    z ∈ s ∨ ∃ r, r ∈ l ∧ z = YcsbTxn.owner c r) as Hf.
  { induction l as [|r l IH]; intros s z; cbn [foldl]; [split; [by left|]; intros [?|(r&Hr&_)]; [done|by apply not_elem_of_nil in Hr]|].
    rewrite IH, elem_of_sset_insert, exists_cons. unfold YcsbTxn.owner. tauto. }
  split.
  - intros (z&->&[Hz|(r&Hr&->)]%Hf); [by apply not_elem_of_nil in Hz|]. by exists r.
  - intros (r&Hr&<-). exists (YcsbTxn.owner c r). split; [done|]. apply Hf. right. by exists r.
Qed.

(** C18: A YCSB transaction under Calvin runs on the nodes the sequencer sends it to, and in
    every complete execution each node executes each of its own requests exactly once, and
    no others.  An execution is complete when all nodes have finished, or, where the rows of
    the requests are there, when no step is left. *)
Theorem ycsb_calvin_exact c ab m w0 : (0 < Sequencer.g_node_cnt c)%nat → Forall read_write (Sequencer.requests m) → ∃ a,
  analyse (YcsbQ c ab (Sequencer.requests m)) = Some a ∧ (∀ g, g ∈ Sequencer.participants c m ↔ involved a g) ∧
  ∀ s, rtc (step a (work (YcsbQ c ab (Sequencer.requests m)))) (init w0) s →
  (∀ g, involved a g → g ∈ finished s) ∨
    (ready (YcsbQ c ab (Sequencer.requests m)) w0 ∧ ∀ s', ¬ step a (work (YcsbQ c ab (Sequencer.requests m))) s s') → ∀ g,
  executed c g (Sequencer.requests m) (log s) ≡ₚ filter (λ r, node_of c r = g) (Sequencer.requests m).
Proof.
  intros Hc Hrw. set (reqs := Sequencer.requests m) in *. destruct (ycsb_analyse_ok c ab reqs Hc) as (a&Ha&Han&Hp&Hact). rewrite Forall_forall in Hrw.
  assert (∀ g, involved a g ↔ ∃ r, r ∈ reqs ∧ node_of c r = g) as Hinvd.
  { intros g. unfold involved. rewrite Hp, Hact. unfold read_write in Hrw. naive_solver. }
  exists a. split; [done|]. split; [intros g; by rewrite elem_of_seq_participants, Hinvd|].
  intros s [n Hn]%rtc_nsteps_1 Hdone g. destruct (exec_run_inv a _ w0 n s Hn) as (Hinv&Hri&_).
  assert (∀ g, involved a g → g ∈ finished s) as Hfin.
  { destruct Hdone as [|[Hr Hstuck]]; [done|]. by apply (stuck_finished a _ w0 s Hinv Hri (ready_work _ a w0 Hc Ha Hr)). }
  rewrite <-run_ycsb_phases by (by apply Forall_forall). rewrite executed_events. unfold executed. rewrite (node_events a s g Han Hinv Hfin).
  rewrite bind_app. f_equiv.
  - case_decide as Hi; cbn [mbind list_bind]; [by rewrite decide_True, app_nil_r|]. rewrite run_ycsb_none; [done|]. intros r Hr Hg. destruct Hi. apply Hinvd. eauto.
  - case_decide as Hi; cbn [mbind list_bind]; [by rewrite decide_True, app_nil_r|]. rewrite run_ycsb_none; [done|]. intros r Hr Hg.
    destruct (Hrw r Hr) as [Hrd|Hwr]; [by right|]. destruct Hi. apply Hact. eauto.
Qed.

(** ** Examples *)

(** A new order of the first of two nodes with items of the second. *)
Definition ex_order : cquery :=
  TpccQ TpccProps.Example.ex_c
    (Message.mkTI Message.TPCC_NEW_ORDER 1 1 1 0 0 0 [0] 0 false [Message.mkItem 1 2 5; Message.mkItem 2 2 3] false true 2 2013).
Definition ex_rows (g : nat) : TpccCalvin.mstate := (TpccProps.Example.ex_pool (Z.of_nat g), TpccProps.Example.ex_node (Z.of_nat g)).
Definition ex_cfg : Sequencer.config := Sequencer.mkCfg 3 1 3 1.
(** Reads of the first two nodes and a write of the third. *)
Definition ex_msg : Sequencer.Message :=
  Sequencer.mkMsg Sequencer.CL_QRY 0 0 0 [Sequencer.mkReq RD 3; Sequencer.mkReq WR 5; Sequencer.mkReq RD 4] 0.
(** The row of a key is at its number. *)
Definition ex_ycsb_rows (g : nat) : ynode := mkYN (λ k, Some (Z.to_nat k)) (λ _, 7) [].

Lemma ex_order_ok : cquery_ok ex_order.
Proof. cbn. lia. Qed.
Lemma ex_order_ready : ready ex_order ex_rows.
Proof.
  split; [|split].
  - right. split; [done|]. intros it Hit. cbn in Hit. set_unfold in Hit. by destruct Hit as [->|[->|[]]].
  - cbn. unfold TpccTxn.MAX_ROW_PER_TXN. lia.
  - intros g Hg. cbn in Hg. split; [done|]. split; [apply TpccProps.Example.ex_node_ok|].
    destruct g as [|[|g]]; [by eexists; vm_compute..|lia].
Qed.

(** The second node starts first and waits for the reads of the first. *)
Lemma calvin_reads_first_witness :
  (∃ a, analyse ex_order = Some a ∧ ∀ s, rtc (step a (work ex_order)) (init ex_rows) s →
    (ready ex_order ex_rows →
      (∀ g, involved a g → g ∉ started s → is_Some (process_calvin_rtxn a (work ex_order) g s)) ∧
      (∀ i p g, net s !! i = Some (p, g) →
        is_Some (process_rfwd a (work ex_order) g (mkS (cm s) (delete i (net s)) (started s) (finished s) (log s) (ws s))))) ∧
    (∀ p g, (p, g) ∈ net s → g ∉ finished s) ∧ NoDup (log s) ∧ reads_first a (log s)) ∧
  ready ex_order ex_rows ∧
  (a ← analyse ex_order; s ← process_calvin_rtxn a (work ex_order) 1 (init ex_rows); s ← process_calvin_rtxn a (work ex_order) 0 s;
   Some (participant_nodes a, net s, finished s, log s))
    = Some ([1; 1], [(1, 0); (0, 1)]%nat, [], [(1, CALVIN_LOC_RD); (0, CALVIN_LOC_RD)]%nat).
Proof.
  split; [|split; [apply ex_order_ready|vm_compute; reflexivity]]. apply (calvin_reads_first ex_order ex_rows), ex_order_ok.
Defined.

Lemma calvin_exec_ends_witness : (∃ a, analyse ex_order = Some a ∧ ∀ n s, nsteps (step a (work ex_order)) n (init ex_rows) s →
  (n ≤ size a * S (size a))%nat ∧
  (ready ex_order ex_rows → (∀ s', ¬ step a (work ex_order) s s') → ∀ g, involved a g →
    g ∈ finished s ∧ (g, CALVIN_LOC_RD) ∈ log s ∧ ((g, CALVIN_EXEC_WR) ∈ log s ↔ is_set (active_nodes a) g) ∧
    work_of a (work ex_order) g (ex_rows g) = Some (ws s g))) ∧ ready ex_order ex_rows.
Proof. split; [|apply ex_order_ready]. apply (calvin_exec_ends ex_order ex_rows), ex_order_ok. Defined.

Lemma ycsb_calvin_exact_witness :
  (∃ a, analyse (YcsbQ ex_cfg true (Sequencer.requests ex_msg)) = Some a ∧ (∀ g, g ∈ Sequencer.participants ex_cfg ex_msg ↔ involved a g) ∧
    ∀ s, rtc (step a (work (YcsbQ ex_cfg true (Sequencer.requests ex_msg)))) (init ex_ycsb_rows) s →
    (∀ g, involved a g → g ∈ finished s) ∨
      (ready (YcsbQ ex_cfg true (Sequencer.requests ex_msg)) ex_ycsb_rows ∧
       ∀ s', ¬ step a (work (YcsbQ ex_cfg true (Sequencer.requests ex_msg))) s s') → ∀ g,
    executed ex_cfg g (Sequencer.requests ex_msg) (log s) ≡ₚ filter (λ r, node_of ex_cfg r = g) (Sequencer.requests ex_msg)) ∧
  ready (YcsbQ ex_cfg true (Sequencer.requests ex_msg)) ex_ycsb_rows ∧
  (λ a, (participant_nodes a, active_nodes a)) <$> analyse (YcsbQ ex_cfg true (Sequencer.requests ex_msg)) = Some ([1; 1; 0], [0; 0; 1]).
Proof.
  split; [|split; [|vm_compute; reflexivity]].
  - apply (ycsb_calvin_exact ex_cfg true ex_msg ex_ycsb_rows); [cbn; lia|].
    repeat (apply Forall_cons_2; [by (left + right)|]). apply Forall_nil_2.
  - intros r Hr. split; [|by eexists]. unfold YcsbTxn.req_ok. cbn in Hr. set_unfold in Hr. destruct Hr as [->|[->|[->|[]]]]; cbn; auto.
Defined.

End CalvinQueries.
