(* ===== verification/TpccRandom.v ===== *)
(** * TpccRandom: random values of TPC-C

    Model of the helpers of benchmarks/tpcc_helper.cpp that draw random numbers and strings
    and make the last names of customers.  [rand()] is an input, any number of 31 bits. *)

From Stdlib Require Import Strings.String Strings.Ascii.
From S2P Require Import Prelude Rand Double Message TwoPC TpccTxn.

Module TpccRandom.
Import Rand.Rand.

Definition bytes (s : string) : list Z := (λ a, Z.of_N (N_of_ascii a)) <$> list_ascii_of_string s.

Definition RAND (max : Z) : rand Z := (
  _ <-- check (negb (max =? 0));
  d <-- next;
  rret ((d `mod` 2 ^ 31) `mod` max))%rand.
Definition URand (x y : Z) : rand Z := (r <-- RAND (wrap64 (y - x + 1)); rret (wrap64 (x + r)))%rand.

(** The static variables of [NURand], before and after they are set. *)
Record nu_consts := mkNu { C_255 : option Z; C_1023 : option Z; C_8191 : option Z }.

Definition nu_const (A : Z) (st : nu_consts) : rand (Z * nu_consts) :=
  let init (v : option Z) (set : Z → nu_consts) : rand (Z * nu_consts) :=
    match v with Some C => rret (C, st) | None => (C <-- URand 0 A; rret (C, set C))%rand end in
  if A =? 255 then init (C_255 st) (λ C, mkNu (Some C) (C_1023 st) (C_8191 st))
  else if A =? 1023 then init (C_1023 st) (λ C, mkNu (C_255 st) (Some C) (C_8191 st))
  else if A =? 8191 then init (C_8191 st) (λ C, mkNu (C_255 st) (C_1023 st) (Some C))
  else λ _, Fail.
Definition nu_value (C A x y : Z) : rand Z := (
  a <-- URand 0 A;
  b <-- URand x y;
  _ <-- check (negb (wrap64 (y - x + 1) =? 0));
  rret (wrap64 (wrap64 (Z.lor a b + C) `mod` wrap64 (y - x + 1) + x)))%rand.
Definition NURand (A x y : Z) (st : nu_consts) : rand (Z * nu_consts) :=
  ('(C, st) <-- nu_const A st; v <-- nu_value C A x y; rret (v, st))%rand.

Definition char_list : list Z := bytes "123456789abcdefghijklmnopqrstuvwxyzABCDEFGHIJKLMNOPQRSTUVWXYZ".
Definition MakeAlphaString (min max : Z) : rand (list Z) := (
  cnt <-- URand min max;
  str <-- rmap (λ _, i <-- URand 0 60; lift (char_list !! Z.to_nat i))%rand (seq 0 (Z.to_nat cnt));
  rret (str ++ replicate (Z.to_nat (max - cnt)) 0))%rand.
(** The characters that are written; the rest of the array stays as it is. *)
Definition MakeNumberString (min max : Z) : rand (list Z) := (
  cnt <-- URand min max;
  rmap (λ _, r <-- URand 0 9; rret (48 + r))%rand (seq 0 (Z.to_nat cnt)))%rand.

Definition LASTNAME_LEN : nat := 16.
Definition name_parts : list (list Z) :=
  bytes <$> ["BAR"; "OUGHT"; "ABLE"; "PRI"; "PRES"; "ESE"; "ANTI"; "CALLY"; "ATION"; "EING"]%string.
(** The string with its end, in an array of [LASTNAME_LEN] characters. *)
Definition Lastname (num : Z) : option (list Z) :=
  a ← name_parts !! Z.to_nat (num / 100);
  b ← name_parts !! Z.to_nat ((num / 10) `mod` 10);
  d ← name_parts !! Z.to_nat (num `mod` 10);
  let name := a ++ b ++ d ++ [0] in
  ASSERT bool_decide (length name ≤ LASTNAME_LEN)%nat;
  Some name.

(** ** Ranges *)

Lemma good_RAND max : 0 < max → good (RAND max) (λ r, 0 ≤ r < max).
Proof.
  intros Hm. unfold RAND. draw good_check as _ _. draw good_next as d _. apply good_ret, Z.mod_pos_bound, Hm.
Qed.

Lemma good_URand x y : 0 ≤ x ≤ y → y < u64_mod - 1 → good (URand x y) (λ v, x ≤ v ≤ y).
Proof.
  intros Hx Hy. unfold URand. rewrite wrap64_small by (unfold is_u64; lia). draw good_RAND as r Hr. apply good_ret. rewrite wrap64_small by (unfold is_u64; lia). lia.
Qed.

Lemma eats_URand x y : eats (URand x y).
Proof.
  intros ds a r. unfold URand, RAND, rbind, check, next, rret. destruct (negb _); [|done]. destruct ds; [done|]. intros [= _ <-]. simpl. lia.
Qed.

Lemma reaches_URand x y v : 0 ≤ x → x ≤ v ≤ y → y - x < 2 ^ 31 → y < u64_mod - 1 → reaches (URand x y) v.
Proof.
  intros Hx Hv Hd Hy. exists [v - x]. intros l. unfold URand, RAND, rbind, check, next, rret.
  rewrite (wrap64_small (y - x + 1)) by (unfold is_u64; lia). destruct (negb _) eqn:Hb; [|lia]. cbn [app].
  rewrite (Z.mod_small (v - x) (2 ^ 31)), Z.mod_small, wrap64_small by (try unfold is_u64; lia). do 2 f_equal. lia.
Qed.

(** Constants that were set are in the range of [URand]. *)
Definition nu_ok (st : nu_consts) : Prop := Forall (from_option (λ C, 0 ≤ C ≤ 8191) True) [C_255 st; C_1023 st; C_8191 st].

Lemma good_nu_const A st : A = 255 ∨ A = 1023 ∨ A = 8191 → nu_ok st → good (nu_const A st) (λ '(C, st'), 0 ≤ C ≤ 8191 ∧ nu_ok st').
Proof.
  unfold nu_ok. rewrite !Forall_cons. intros HA (H1&H2&H3&_). destruct st as [c1 c2 c3]. unfold nu_const. cbn [C_255 C_1023 C_8191] in *.
  destruct HA as [->|[->| ->]]; cbn [Z.eqb Pos.eqb]; cbv zeta;
    [destruct c1|destruct c2|destruct c3]; try (apply good_ret; split; [done|by rewrite !Forall_cons]);
    draw good_URand as C HC; apply good_ret; (split; [lia|]); rewrite !Forall_cons; cbn [from_option C_255 C_1023 C_8191]; (split_and!; [..|done]); done || lia.
Qed.

Lemma good_nu_value C A x y : 0 ≤ A < u64_mod - 1 → 0 ≤ x ≤ y → y < u64_mod - 1 → good (nu_value C A x y) (λ v, x ≤ v ≤ y).
Proof.
  intros HA Hx Hy. unfold nu_value. draw good_URand as a _. draw good_URand as b _.
  rewrite wrap64_small by (unfold is_u64; lia). draw good_check as _ _. apply good_ret.
  pose proof (Z.mod_pos_bound (wrap64 (Z.lor a b + C)) (y - x + 1) ltac:(lia)). rewrite wrap64_small by (unfold is_u64; lia). lia.
Qed.

Lemma eats_nu_value C A x y : eats (nu_value C A x y).
Proof.
  intros ds v r. unfold nu_value, rbind at 1. destruct (URand 0 A ds) as [a r1| |] eqn:H1; [|done..]. apply eats_URand in H1.
  unfold rbind at 1. destruct (URand x y r1) as [b r2| |] eqn:H2; [|done..]. apply eats_URand in H2.
  unfold rbind, check, rret. destruct (negb _); [|done]. intros [= _ <-]. lia.
Qed.

(** Every value of the range can come out. *)
Lemma reaches_nu_value C A x y v : 0 ≤ A < 2 ^ 31 → 0 ≤ C < 2 ^ 32 → 0 ≤ x → x ≤ v ≤ y → y < 2 ^ 31 → reaches (nu_value C A x y) v.
Proof.
  intros HA HC Hx Hv Hy. set (n := y - x + 1).
  set (b := x + (v - 2 * x - C) `mod` n). pose proof (Z.mod_pos_bound (v - 2 * x - C) n ltac:(lia)) as Hb. fold n in Hb.
  destruct (reaches_URand 0 A 0) as [d1 H1]; [lia..|unfold u64_mod; lia|]. destruct (reaches_URand x y b) as [d2 H2]; [lia..|unfold u64_mod; lia|].
  exists (d1 ++ d2). intros l. unfold nu_value, rbind at 1. rewrite <-app_assoc, H1. unfold rbind at 1. rewrite H2.
  rewrite (wrap64_small (y - x + 1)) by (unfold is_u64, u64_mod; lia). unfold rbind, check, rret. destruct (negb _) eqn:Hn; [|lia].
  rewrite Z.lor_0_l, (wrap64_small (b + C)) by (unfold is_u64, u64_mod; lia). fold n.
  assert ((b + C) `mod` n = v - x) as ->.
  { unfold b. replace (x + (v - 2 * x - C) `mod` n + C) with ((v - 2 * x - C) `mod` n + (x + C)) by lia.
    rewrite Zplus_mod_idemp_l. replace (v - 2 * x - C + (x + C)) with (v - x) by lia. apply Z.mod_small. lia. }
  rewrite wrap64_small by (unfold is_u64, u64_mod; lia). do 2 f_equal. lia.
Qed.

Lemma good_NURand A x y st : A = 255 ∨ A = 1023 ∨ A = 8191 → 0 ≤ x ≤ y → y < u64_mod - 1 → nu_ok st →
  good (NURand A x y st) (λ '(v, st'), x ≤ v ≤ y ∧ nu_ok st').
Proof.
  intros HA Hx Hy Hst. unfold NURand. draw good_nu_const as [C st'] [HC Hst']. draw good_nu_value as v Hv. by apply good_ret.
Qed.

(** ** Strings *)

Lemma good_MakeAlphaString min max : 0 ≤ min ≤ max → max < 2 ^ 31 → good (MakeAlphaString min max) (λ s, length s = Z.to_nat max).
Proof.
  intros Hm Hx. unfold MakeAlphaString. draw good_URand as cnt Hc.
  eapply good_bind; [apply (good_rmap _ (λ _ _, True))|].
  - intros i _. draw good_URand as v Hv.
    destruct (char_list !! Z.to_nat v) as [ch|] eqn:Hch; [by eapply good_lift|]. apply lookup_ge_None in Hch.
    change (length char_list) with 61%nat in Hch. lia.
  - intros str Hs%Forall2_length. apply good_ret. rewrite length_app, length_replicate, <-Hs, length_seq. lia.
Qed.

Lemma good_MakeNumberString min max : 0 ≤ min ≤ max → max < 2 ^ 31 → good (MakeNumberString min max) (λ s, (length s ≤ Z.to_nat max)%nat).
Proof.
  intros Hm Hx. unfold MakeNumberString. draw good_URand as cnt Hc.
  eapply good_impl; [apply (good_rmap _ (λ _ _, True))|].
  - intros i _. draw good_URand as v _. by apply good_ret.
  - intros str Hs%Forall2_length. rewrite <-Hs, length_seq. lia.
Qed.

(** The names of the numbers up to 999 fit into their array. *)
Lemma name_part i : 0 ≤ i < 10 → ∃ p, name_parts !! Z.to_nat i = Some p ∧ (length p ≤ 5)%nat.
Proof.
  intros Hi. destruct (lookup_lt_is_Some_2 name_parts (Z.to_nat i)) as [p Hp]; [change (length name_parts) with 10%nat; lia|].
  exists p. split; [done|]. assert (Forall (λ p, length p ≤ 5)%nat name_parts) as Hl by (repeat constructor).
  by eapply Forall_lookup_1 in Hl.
Qed.

Lemma Lastname_total num : 0 ≤ num < 1000 → is_Some (Lastname num).
Proof.
  intros Hn. unfold Lastname.
  destruct (name_part (num / 100)) as (a&->&Ha); [split; [apply Z.div_pos; lia|apply Z.div_lt_upper_bound; lia]|].
  destruct (name_part ((num / 10) `mod` 10)) as (b&->&Hb); [apply Z.mod_pos_bound; lia|].
  destruct (name_part (num `mod` 10)) as (d&->&Hd); [apply Z.mod_pos_bound; lia|].
  cbn [mbind option_bind]. rewrite assert_bind_true; [by eexists|]. apply bool_decide_eq_true. rewrite !length_app. unfold LASTNAME_LEN.
  cbn [length]. lia.
Qed.

(** The key of a name does not tell names apart: the sums of the shifted letters of two
    names can be equal. *)
Lemma custNPKey_collision : ∃ n1 n2, Lastname 40 = Some n1 ∧ Lastname 530 = Some n2 ∧ n1 ≠ n2 ∧
  ∀ c d w, TpccTxn.custNPKey c n1 d w = TpccTxn.custNPKey c n2 d w.
Proof. eexists _, _. split; [vm_compute; reflexivity|]. split; [vm_compute; reflexivity|]. split; [done|]. intros c d w. reflexivity. Qed.

End TpccRandom.
