(* ===== verification/TpccLoad.v ===== *)
(** * TpccLoad: the tables of TPC-C

    Model of the loader of TPC-C (benchmarks/tpcc_wl.cpp): the rows that its threads make,
    with every column that is set, and their insertion into the hash indexes of the node,
    whose sizes come from [Schema].  The threads of a phase run at once, their steps in any
    order; the phases follow each other.  The theorem says which rows a node has, and that
    every lookup of a transaction finds the row it means. *)

From Stdlib Require Import Strings.String.
From S2P Require Import Prelude Rand Double IndexHash Schema Message TwoPC TpccTxn TpccRun TpccProps TpccRandom.

Module TpccLoad.
Import Rand.Rand Double.Double TpccTxn.TpccTxn TpccProps.TpccProps TpccRandom.TpccRandom.
#[local] Open Scope string_scope.
#[local] Open Scope list_scope.
#[local] Open Scope Z_scope.

#[export] Instance INDEX_eq_dec : EqDecision INDEX.
Proof. solve_decision. Defined.

(** ** Rows *)

(** What [set_value] copies into a column: 8 bytes; a 4-byte integer with the 4 bytes [hi]
    that follow it in memory; or characters, the rest of whose array is not initialised. *)
Inductive value := V64 (v : Z) | V32 (v hi : Z) | VStr (s : list Z).

Record lrow := mkLR { l_table : TPCCTable; l_primary : Z; l_vals : list (string * value) }.

(** A row with the indexes and keys it is inserted under. *)
Definition entry : Type := lrow * list (INDEX * Z).

(** [UInt32] and [int] arguments select the overloads for 4 bytes. *)
Definition int32 (v : Z) : rand value := (hi <-- next; rret (V32 v (hi `mod` 2 ^ 32)))%rand.
Definition alpha (min max : Z) : rand value := (s <-- MakeAlphaString min max; rret (VStr s))%rand.
Definition number (min max : Z) : rand value := (s <-- MakeNumberString min max; rret (VStr s))%rand.
(** An array that nobody writes. *)
Definition undefined : value := VStr [].

Definition original : list Z := bytes "original" ++ [0].

Section load.
Context (c : tconfig) (g_init_parallelism g_node_id : Z) (fuel : nat).

Definition item_row (i : Z) : rand entry := (
  id <-- int32 i;
  im <-- URand 1 10000;
  price <-- URand 1 100;
  r <-- RAND 10;
  rret (mkLR TPCC_ITEM i
    [("I_ID", id); ("I_IM_ID", V64 im); ("I_NAME", undefined); ("I_PRICE", V64 price);
     ("I_DATA", if r =? 0 then VStr original else undefined)],
    [(i_item, i)]))%rand.

Definition wh_row (wid : Z) : rand entry := (
  id <-- int32 wid;
  name <-- alpha 6 10;
  street_1 <-- alpha 10 20;
  street_2 <-- alpha 10 20;
  city <-- alpha 10 20;
  state <-- alpha 2 2;
  zip <-- number 9 9;
  tax <-- URand 0 200;
  rret (mkLR TPCC_WAREHOUSE wid
    [("W_ID", id); ("W_NAME", name); ("W_STREET_1", street_1); ("W_STREET_2", street_2); ("W_CITY", city);
     ("W_STATE", state); ("W_ZIP", zip); ("W_TAX", V64 (ddiv (d_of_Z tax) (d_of_Z 1000))); ("W_YTD", V64 (d_of_Z 300000))],
    [(i_warehouse, wid)]))%rand.

Definition dist_row (did wid : Z) : rand entry := (
  name <-- alpha 6 10;
  street_1 <-- alpha 10 20;
  street_2 <-- alpha 10 20;
  city <-- alpha 10 20;
  state <-- alpha 2 2;
  zip <-- number 9 9;
  tax <-- URand 0 200;
  next_o_id <-- int32 3001;
  rret (mkLR TPCC_DISTRICT did
    [("D_ID", V64 did); ("D_W_ID", V64 wid); ("D_NAME", name); ("D_STREET_1", street_1); ("D_STREET_2", street_2);
     ("D_CITY", city); ("D_STATE", state); ("D_ZIP", zip); ("D_TAX", V64 (ddiv (d_of_Z tax) (d_of_Z 1000)));
     ("D_YTD", V64 (d_of_Z 30000)); ("D_NEXT_O_ID", next_o_id)],
    [(i_district, distKey c did wid)]))%rand.

Definition s_dist : list (string * value) :=
  (λ name, (name, undefined)) <$>
  ["S_DIST_01"; "S_DIST_02"; "S_DIST_03"; "S_DIST_04"; "S_DIST_05"; "S_DIST_06"; "S_DIST_07"; "S_DIST_08"; "S_DIST_09"; "S_DIST_10"].

Definition stock_row (wid sid : Z) : rand entry := (
  id <-- int32 sid;
  quantity <-- URand 10 100;
  remote_cnt <-- int32 0;
  ytd <-- int32 0;
  order_cnt <-- int32 0;
  rret (mkLR TPCC_STOCK sid
    ([("S_I_ID", id); ("S_W_ID", V64 wid); ("S_QUANTITY", V64 quantity); ("S_REMOTE_CNT", remote_cnt)] ++ s_dist ++
     [("S_YTD", ytd); ("S_ORDER_CNT", order_cnt); ("S_DATA", undefined)]),
    [(i_stock, stockKey c sid wid)]))%rand.

Definition cust_name (cid : Z) (nu : nu_consts) : rand (Z * nu_consts) :=
  if cid <=? 1000 then rret (cid - 1, nu) else NURand 255 0 999 nu.
Definition cust_row (did wid cid : Z) (nu : nu_consts) : rand (entry * nu_consts) := (
  id <-- int32 cid;
  '(num, nu) <-- cust_name cid nu;
  c_last <-- lift (Lastname num);
  r <-- RAND 10;
  discount <-- RAND 5000;
  payment_cnt <-- int32 1;
  rret ((mkLR TPCC_CUSTOMER cid
    [("C_ID", id); ("C_D_ID", V64 did); ("C_W_ID", V64 wid); ("C_LAST", VStr c_last);
     ("C_CREDIT", VStr (bytes (if r =? 0 then "GC" else "BC"))); ("C_DISCOUNT", V64 (ddiv (d_of_Z discount) (d_of_Z 10000)));
     ("C_BALANCE", V64 (dopp (d_of_Z 10))); ("C_YTD_PAYMENT", V64 (d_of_Z 10)); ("C_PAYMENT_CNT", payment_cnt)],
    [(i_customer_last, custNPKey c c_last did wid); (i_customer_id, custKey c cid did wid)]), nu))%rand.

Definition init_tab_hist (w_id d_id c_id : Z) : rand entry := (
  date <-- int32 0;
  rret (mkLR TPCC_HISTORY 0
    [("H_C_ID", V64 c_id); ("H_C_D_ID", V64 d_id); ("H_D_ID", V64 d_id); ("H_C_W_ID", V64 w_id); ("H_W_ID", V64 w_id);
     ("H_DATE", date); ("H_AMOUNT", V64 (d_of_Z 10)); ("H_DATA", undefined)],
    []))%rand.

(** ** Loops *)

(** [for (i; i <= hi; i += step)] with a counter that wraps around. *)
Fixpoint for_ids (wrap : Z → Z) (fuel : nat) (i hi step : Z) : option (list Z) :=
  match fuel with
  | O => None
  | S fuel => if i <=? hi then (i ::.) <$> for_ids wrap fuel (wrap (i + step)) hi step else Some []
  end.
Definition ids64 (hi : Z) : rand (list Z) := lift (for_ids wrap64 fuel 1 hi 1).
Definition ids32 (id hi : Z) : rand (list Z) := lift (for_ids wrap32 fuel (wrap32 (id + 1)) hi g_init_parallelism).

Fixpoint keep_local (wids : list Z) : option (list Z) :=
  match wids with
  | [] => Some []
  | w :: wids => n ← wh_node c w; ws ← keep_local wids; Some (if n =? g_node_id then w :: ws else ws)
  end.
Definition local_whs : rand (list Z) := (ws <-- ids64 (g_num_wh c); lift (keep_local ws))%rand.

Definition init_tab_item (id : Z) : rand (list entry) := (iids <-- ids32 id (g_max_items c); rmap item_row iids)%rand.
Definition init_tab_wh : rand (list entry) := (
  ws <-- lift (for_ids wrap32 fuel 1 (g_num_wh c) 1);
  ws <-- lift (keep_local ws);
  rmap wh_row ws)%rand.
Definition init_tab_dist (wid : Z) : rand (list entry) :=
  (dids <-- ids64 (g_dist_per_wh c); rmap (λ did, dist_row did wid) dids)%rand.
Definition init_tab_stock (id wid : Z) : rand (list entry) := (sids <-- ids32 id (g_max_items c); rmap (stock_row wid) sids)%rand.
Definition init_tab_cust (id wid did : Z) (nu : nu_consts) : rand (list entry * nu_consts) := (
  _ <-- check (1000 <=? g_cust_per_dist c);
  cids <-- ids32 id (g_cust_per_dist c);
  rmapS (cust_row did wid) cids nu)%rand.

Definition threadInitItem (id : Z) : rand (list entry) := init_tab_item id.
Definition threadInitWh : rand (list entry) := init_tab_wh.
Definition threadInitDist : rand (list entry) := (
  ws <-- local_whs; l <-- rmap init_tab_dist ws; rret (concat l))%rand.
Definition threadInitStock (id : Z) : rand (list entry) := (
  ws <-- local_whs; l <-- rmap (init_tab_stock id) ws; rret (concat l))%rand.
Definition threadInitCust (id : Z) (nu : nu_consts) : rand (list entry * nu_consts) := (
  ws <-- local_whs;
  '(l, nu) <-- rmapS (λ wid nu,
    dids <-- ids64 (g_dist_per_wh c); '(l, nu) <-- rmapS (init_tab_cust id wid) dids nu; rret (concat l, nu))%rand ws nu;
  rret (concat l, nu))%rand.
Definition threadInitHist : rand (list entry) := (
  ws <-- local_whs;
  l <-- rmap (λ wid, dids <-- ids64 (g_dist_per_wh c);
    l <-- rmap (λ did, cids <-- ids64 (g_cust_per_dist c); rmap (init_tab_hist wid did) cids)%rand dids; rret (concat l))%rand ws;
  rret (concat l))%rand.

(** ** All threads *)

(** A thread makes a row, and inserts its address into an index. *)
Inductive step_t := New (r : nat) (row : lrow) | Ins (i : INDEX) (key : Z) (r : nat).

Record db := mkDb { tix : INDEX → IndexHash.index; mem : nat → lrow }.

Definition do_step (s : step_t) (d : db) : option db :=
  match s with
  | New r row => Some (mkDb (tix d) (<[r := row]> (mem d)))
  | Ins i key r =>
      t ← IndexHash.index_insert TPCC (g_part_cnt c) key r (tix d i); Some (mkDb (<[i := t]> (tix d)) (mem d))
  end.
Fixpoint do_steps (l : list step_t) (d : db) : option db :=
  match l with [] => Some d | s :: l => d ← do_step s d; do_steps l d end.

(** The steps of a thread; [a n] is the address of its [n]-th row. *)
Definition entry_steps (r : nat) (e : entry) : list step_t := New r e.1 :: ((λ '(i, key), Ins i key r) <$> e.2).
Definition steps (a : nat → nat) (es : list entry) : list step_t := concat (imap (λ n e, entry_steps (a n) e) es).

(** The rows that the threads of the three phases make, and those of the calls after them. *)
Record threads := mkTh { th_par : list (list (list entry)); th_seq : list (list entry) }.

Definition ran {A} (m : rand A) (a : A) : Prop := ∃ ds rest, m ds = Done a rest.
Definition phase (th : Z → list entry → Prop) (es : list (list entry)) : Prop := Forall2 th (seqZ 0 g_init_parallelism) es.

Definition made (T : threads) : Prop :=
  Forall2 (λ th es, phase th es)
    [λ id es, ran (threadInitStock id) es; λ id es, ran (threadInitItem id) es;
     λ id es, ∃ nu nu', nu_ok nu ∧ ran (threadInitCust id nu) (es, nu')] (th_par T) ∧
  Forall2 (λ m es, ran m es) [threadInitWh; threadInitDist; threadInitHist] (th_seq T).

(** [init_table]: the threads of a phase run at once and are joined before the next phase.
    The rows have addresses of their own. *)
Definition init_table (addr : nat → nat → nat → nat) (T : threads) (l : list step_t) : Prop := ∃ ps,
  Forall2 (λ p r, interleave p r) (imap (λ ph es, imap (λ tid es, steps (addr ph tid) es) es) (th_par T)) ps ∧
  l = concat ps ++ concat (imap (λ k es, steps (addr (3 + k)%nat 0%nat) es) (th_seq T)).

(** The indexes before the loading, with the sizes that the schema gives them. *)
Definition globals_of : Schema.globals :=
  Schema.mkG (g_part_cnt c) 0 (g_num_wh c) (g_dist_per_wh c) (g_cust_per_dist c) (g_max_items c) 0 0 0.
Definition table_name (i : INDEX) : string :=
  match i with
  | i_item => "ITEM" | i_warehouse => "WAREHOUSE" | i_district => "DISTRICT" | i_customer_id | i_customer_last => "CUSTOMER"
  | i_stock => "STOCK"
  end.
Definition index_size (i : INDEX) : Z :=
  default 0 (Schema.table_size TPCC globals_of (Ascii.ascii_of_nat 9 :: Schema.str (table_name i))).
Definition empty_db : db := mkDb (λ i, IndexHash.init (index_size i)) (λ _, mkLR TPCC_HISTORY 0 []).

(** ** The node of the transactions *)

Definition col_name (col : column) : string :=
  match col with
  | W_TAX => "W_TAX" | W_YTD => "W_YTD" | D_YTD => "D_YTD" | D_NEXT_O_ID => "D_NEXT_O_ID" | C_DISCOUNT => "C_DISCOUNT"
  | C_BALANCE => "C_BALANCE" | C_YTD_PAYMENT => "C_YTD_PAYMENT" | C_PAYMENT_CNT => "C_PAYMENT_CNT" | I_PRICE => "I_PRICE"
  | S_QUANTITY => "S_QUANTITY" | S_YTD => "S_YTD" | S_ORDER_CNT => "S_ORDER_CNT" | S_REMOTE_CNT => "S_REMOTE_CNT"
  end.
(** Every column is set once. *)
Fixpoint find_val (name : string) (l : list (string * value)) : option value :=
  match l with [] => None | (n, v) :: l => if String.eqb n name then Some v else find_val name l end.
Definition word (v : value) : Z := match v with V64 v => v | V32 v hi => hi * 2 ^ 32 + v | VStr _ => 0 end.
Definition to_row (row : lrow) : row_t := mkRow (l_table row) (λ col, from_option word 0 (find_val (col_name col) (l_vals row))).

Definition lookup (i : INDEX) (key : Z) (d : db) : list nat := default [] (IndexHash.index_read TPCC (g_part_cnt c) key (tix d i)).
Definition to_node (d : db) : node := mkNode (λ i key, lookup i key d) (λ r, to_row (mem d r)).

End load.

(** ** Which rows there are *)

Inductive rowid :=
  | RItem (i : Z) | RWh (w : Z) | RDist (d w : Z) | RStock (s w : Z) | RCust (cid d w : Z) | RHist (cid d w : Z).

Section spec.
Context (c : tconfig) (me : Z).

(** The rows of node [me]. *)
Definition local (w : Z) : Prop := 1 ≤ w ≤ g_num_wh c ∧ owner c w = me.
Definition in_range (id : rowid) : Prop :=
  match id with
  | RItem i => 1 ≤ i ≤ g_max_items c
  | RWh w => local w
  | RDist d w => 1 ≤ d ≤ g_dist_per_wh c ∧ local w
  | RStock s w => 1 ≤ s ≤ g_max_items c ∧ local w
  | RCust cid d w | RHist cid d w => 1 ≤ cid ≤ g_cust_per_dist c ∧ 1 ≤ d ≤ g_dist_per_wh c ∧ local w
  end.

Definition has (row : lrow) (name : string) (v : value) : Prop := find_val name (l_vals row) = Some v.

(** The columns that identify a row and those with a range, and the keys of the row. *)
Definition describes (id : rowid) (e : entry) : Prop :=
  let '(row, ins) := e in
  match id with
  | RItem i => l_table row = TPCC_ITEM ∧ (∃ hi, has row "I_ID" (V32 i hi)) ∧ ins = [(i_item, i)]
  | RWh w => l_table row = TPCC_WAREHOUSE ∧ (∃ hi, has row "W_ID" (V32 w hi)) ∧ ins = [(i_warehouse, w)]
  | RDist d w => l_table row = TPCC_DISTRICT ∧ has row "D_ID" (V64 d) ∧ has row "D_W_ID" (V64 w) ∧
      (∃ hi, 0 ≤ hi < 2 ^ 32 ∧ has row "D_NEXT_O_ID" (V32 3001 hi)) ∧ ins = [(i_district, distKey c d w)]
  | RStock s w => l_table row = TPCC_STOCK ∧ (∃ hi, has row "S_I_ID" (V32 s hi)) ∧ has row "S_W_ID" (V64 w) ∧
      (∃ q, 10 ≤ q ≤ 100 ∧ has row "S_QUANTITY" (V64 q)) ∧ ins = [(i_stock, stockKey c s w)]
  | RCust cid d w => l_table row = TPCC_CUSTOMER ∧ (∃ hi, has row "C_ID" (V32 cid hi)) ∧ has row "C_D_ID" (V64 d) ∧
      has row "C_W_ID" (V64 w) ∧ ∃ num name, 0 ≤ num < 1000 ∧ Lastname num = Some name ∧ (cid ≤ 1000 → num = cid - 1) ∧
      has row "C_LAST" (VStr name) ∧ ins = [(i_customer_last, custNPKey c name d w); (i_customer_id, custKey c cid d w)]
  | RHist cid d w => l_table row = TPCC_HISTORY ∧ has row "H_C_ID" (V64 cid) ∧ has row "H_C_D_ID" (V64 d) ∧
      has row "H_C_W_ID" (V64 w) ∧ ins = []
  end.

(** The rows of a list are those of the ids. *)
Definition covers (ids : rowid → Prop) (es : list entry) : Prop :=
  (∀ e, e ∈ es → ∃ id, ids id ∧ describes id e) ∧ (∀ id, ids id → ∃ e, e ∈ es ∧ describes id e).

Lemma covers_iff ids ids' es : covers ids es → (∀ id, ids id ↔ ids' id) → covers ids' es.
Proof.
  intros [H1 H2] Hi. split; [|intros id Hid; apply H2; by apply Hi].
  intros e He. destruct (H1 e He) as (id&Hid&Hd). exists id. split; [by apply Hi|done].
Qed.

Lemma covers_rows {A} (mk : A → rowid) l es : Forall2 (λ a e, describes (mk a) e) l es → covers (λ id, ∃ a, a ∈ l ∧ id = mk a) es.
Proof.
  induction 1 as [|a e l es Hd _ [IH1 IH2]].
  - split; [by intros e ?%not_elem_of_nil|]. by intros id (a&?%not_elem_of_nil&_).
  - split.
    + intros x [->|Hx]%elem_of_cons; [exists (mk a); split; [exists a; split; [left|]|]; done|].
      destruct (IH1 x Hx) as (id&(b&Hb&->)&Hx'). exists (mk b). split; [exists b; split; [by right|done]|done].
    + intros id (b&[->|Hb]%elem_of_cons&->); [exists e; split; [left|done]|].
      destruct (IH2 (mk b)) as (x&Hx&Hx'); [by exists b|]. exists x. split; [by right|done].
Qed.

Lemma covers_concat {A} (ids : A → rowid → Prop) l ess : Forall2 (λ a es, covers (ids a) es) l ess →
  covers (λ id, ∃ a, a ∈ l ∧ ids a id) (concat ess).
Proof.
  induction 1 as [|a es l ess [H1 H2] _ [IH1 IH2]].
  - split; [by intros e ?%not_elem_of_nil|]. by intros id (a&?%not_elem_of_nil&_).
  - split; cbn [concat].
    + intros x [Hx|Hx]%elem_of_app.
      * destruct (H1 x Hx) as (id&Hid&Hd). exists id. split; [exists a; split; [left|done]|done].
      * destruct (IH1 x Hx) as (id&(b&Hb&Hid)&Hd). exists id. split; [exists b; split; [by right|done]|done].
    + intros id (b&[->|Hb]%elem_of_cons&Hid).
      * destruct (H2 id Hid) as (x&Hx&Hd). exists x. rewrite elem_of_app. auto.
      * destruct (IH2 id) as (x&Hx&Hd); [by exists b|]. exists x. rewrite elem_of_app. auto.
Qed.

Lemma covers_app ids ids' es es' : covers ids es → covers ids' es' → covers (λ id, ids id ∨ ids' id) (es ++ es').
Proof.
  intros [H1 H2] [H1' H2']. split.
  - intros e [He|He]%elem_of_app; [destruct (H1 e He) as (id&?&?)|destruct (H1' e He) as (id&?&?)]; exists id; auto.
  - intros id [Hi|Hi]; [destruct (H2 id Hi) as (e&?&?)|destruct (H2' id Hi) as (e&?&?)]; exists e; rewrite elem_of_app; auto.
Qed.

(** A node after loading; [m] are its rows with all their columns. *)
Record loaded (n : node) (m : nat → lrow) : Prop := {
  ld_rows : ∀ r, rows n r = to_row (m r);
  ld_sound : ∀ i key r, r ∈ idx n i key → ∃ id ins, in_range id ∧ describes id (m r, ins) ∧ (i, key) ∈ ins;
  ld_complete : ∀ id, in_range id → ∃ r ins, describes id (m r, ins) ∧ ∀ i key, (i, key) ∈ ins → r ∈ idx n i key;
  ld_mem : ∀ r, m r = mem (empty_db c) r ∨ ∃ id ins, in_range id ∧ describes id (m r, ins) }.

End spec.

(** ** What the threads make *)

Section threads_proofs.
Context (c : tconfig) (P me : Z) (fuel : nat).

Record load_ok : Prop := {
  lo_part : 0 < g_part_cnt c ≤ g_num_wh c;
  lo_items : 0 < g_max_items c;
  lo_dist : 0 < g_dist_per_wh c;
  lo_cust : 1000 ≤ g_cust_per_dist c;
  lo_par : 0 < P;
  lo_32 : g_num_wh c + 1 < u32_mod ∧ g_max_items c + P < u32_mod ∧ g_cust_per_dist c + P < u32_mod ∧ g_dist_per_wh c + 1 < u32_mod;
  lo_fuel : (Z.to_nat (g_num_wh c) < fuel ∧ Z.to_nat (g_max_items c) < fuel ∧ Z.to_nat (g_cust_per_dist c) < fuel ∧
    Z.to_nat (g_dist_per_wh c) < fuel)%nat }.
Context (Hok : load_ok).

#[local] Abbreviation describes := (describes c).
#[local] Abbreviation covers := (covers c).
#[local] Abbreviation local := (local c me).

Lemma for_ids_spec wrap M hi step fuel' : (∀ z, 0 ≤ z < M → wrap z = z) → 0 < step → hi + step < M →
  ∀ i, 0 ≤ i → (Z.to_nat (hi + 1 - i) < fuel')%nat → ∃ l, for_ids wrap fuel' i hi step = Some l ∧
    ∀ k, k ∈ l ↔ i ≤ k ≤ hi ∧ (k - i) `mod` step = 0.
Proof.
  intros Hw Hs Hh. induction fuel' as [|f IH]; intros i Hi Hf; [lia|]. cbn [for_ids]. destruct (Z.leb_spec i hi) as [Hle|Hgt].
  2:{ exists []. split; [done|]. intros k. rewrite elem_of_nil. split; [done|lia]. }
  rewrite Hw by lia. destruct (IH (i + step)) as (l&Hl&Hin); [lia..|]. rewrite Hl. exists (i :: l). split; [done|].
  intros k. rewrite elem_of_cons, Hin. split.
  - intros [->|[Hk Hm]]; [split; [lia|]; by rewrite Z.sub_diag, Z.mod_0_l by lia|]. split; [lia|].
    replace (k - i) with (k - (i + step) + 1 * step) by lia. by rewrite Z.mod_add by lia.
  - intros [Hk Hm]. destruct (decide (k = i)) as [|Hne]; [by left|right]. apply Z.mod_divide in Hm as [m Hm]; [|lia].
    assert (1 ≤ m) by nia. split; [nia|]. replace (k - (i + step)) with ((m - 1) * step) by lia. apply Z.mod_mul. lia.
Qed.

Lemma good_ids64 hi : hi + 1 < u32_mod → (Z.to_nat hi < fuel)%nat → good (ids64 fuel hi) (λ l, ∀ k, k ∈ l ↔ 1 ≤ k ≤ hi).
Proof.
  intros Hh Hf. destruct (for_ids_spec wrap64 u64_mod hi 1 fuel) with (i := 1) as (l&Hl&Hin);
    [intros z Hz; by apply wrap64_small|lia|unfold u64_mod, u32_mod in *; lia|lia|lia|].
  eapply good_lift; [exact Hl|]. intros k. rewrite Hin, Z.mod_1_r. naive_solver.
Qed.

Lemma good_ids32 id hi : 0 ≤ id < P → 0 < hi → hi + P < u32_mod → (Z.to_nat hi < fuel)%nat →
  good (ids32 P fuel id hi) (λ l, ∀ k, k ∈ l ↔ 1 ≤ k ≤ hi ∧ (k - 1) `mod` P = id).
Proof.
  intros Hid H0 Hh Hf. pose proof (lo_par Hok). unfold ids32. rewrite wrap32_small by (unfold is_u32, u32_mod in *; lia).
  destruct (for_ids_spec wrap32 u32_mod hi P fuel) with (i := id + 1) as (l&Hl&Hin);
    [intros z Hz; by apply wrap32_small|lia..|].
  eapply good_lift; [exact Hl|]. intros k. rewrite Hin. split.
  - intros [Hk Hm]. split; [lia|]. apply Z.mod_divide in Hm as [m Hm]; [|lia]. replace (k - 1) with (id + m * P) by lia.
    rewrite Z.mod_add, Z.mod_small by lia. done.
  - intros [Hk Hm]. pose proof (Z.div_mod (k - 1) P ltac:(lia)) as Hd. rewrite Hm in Hd.
    assert (0 ≤ (k - 1) / P) by (apply Z.div_pos; lia). split; [nia|]. replace (k - (id + 1)) with ((k - 1) / P * P) by lia. apply Z.mod_mul. lia.
Qed.

Lemma keep_local_spec ws : ∃ l, keep_local c me ws = Some l ∧ ∀ w, w ∈ l ↔ w ∈ ws ∧ owner c w = me.
Proof.
  pose proof (lo_part Hok). induction ws as [|w ws (l&Hl&Hin)]; [exists []; split; [done|]; set_solver|].
  cbn [keep_local]. rewrite TpccRun.TpccRun.wh_node_owner by lia. cbn [mbind option_bind]. rewrite Hl. cbn [mbind option_bind].
  eexists. split; [done|]. intros x. destruct (Z.eqb_spec (owner c w) me); set_solver.
Qed.

Lemma good_local_whs : good (local_whs c me fuel) (λ l, ∀ w, w ∈ l ↔ local w).
Proof.
  pose proof (lo_32 Hok). pose proof (lo_fuel Hok). unfold local_whs. draw good_ids64 as ws Hws. destruct (keep_local_spec ws) as (l&Hl&Hin).
  eapply good_lift; [exact Hl|]. intros w. by rewrite Hin, Hws.
Qed.

(** *** Rows *)

Lemma good_int32 v : good (int32 v) (λ x, ∃ hi, 0 ≤ hi < 2 ^ 32 ∧ x = V32 v hi).
Proof. unfold int32. draw good_next as hi _. apply good_ret. eexists. split; [|done]. apply Z.mod_pos_bound. lia. Qed.
Lemma good_alpha min max : 0 ≤ min ≤ max → max < 2 ^ 31 → good (alpha min max) (λ _, True).
Proof. intros Hm Hx. unfold alpha. draw good_MakeAlphaString as str _. by apply good_ret. Qed.
Lemma good_number min max : 0 ≤ min ≤ max → max < 2 ^ 31 → good (number min max) (λ _, True).
Proof. intros Hm Hx. unfold number. draw good_MakeNumberString as str _. by apply good_ret. Qed.

Lemma good_item_row i : good (item_row i) (describes (RItem i)).
Proof.
  unfold item_row. draw good_int32 as ? (hi&_&->). draw good_URand as im _. draw good_URand as price _. draw good_RAND as r _.
  apply good_ret. split_and!; [done|by exists hi|done].
Qed.

Lemma good_wh_row w : good (wh_row w) (describes (RWh w)).
Proof.
  unfold wh_row. draw good_int32 as ? (hi&_&->). do 5 (draw good_alpha as ? _). draw good_number as ? _. draw good_URand as ? _.
  apply good_ret. split_and!; [done|by exists hi|done].
Qed.

Lemma good_dist_row d w : good (dist_row c d w) (describes (RDist d w)).
Proof.
  unfold dist_row. do 5 (draw good_alpha as ? _). draw good_number as ? _. draw good_URand as ? _. draw good_int32 as ? (hi&Hhi&->).
  apply good_ret. split_and!; try done. by exists hi.
Qed.

Lemma good_stock_row w s : good (stock_row c w s) (describes (RStock s w)).
Proof.
  unfold stock_row. draw good_int32 as ? (hi&_&->). draw good_URand as q Hq. do 3 (draw good_int32 as ? (?&_&->)).
  apply good_ret. split_and!; [done|by exists hi|done|by exists q|done].
Qed.

Lemma good_cust_row d w cid nu : 1 ≤ cid → nu_ok nu → good (cust_row c d w cid nu) (λ '(e, nu'), describes (RCust cid d w) e ∧ nu_ok nu').
Proof.
  intros Hc Hnu. unfold cust_row. draw good_int32 as ? (hi&_&->).
  eapply (good_bind _ _ (λ '(num, nu'), 0 ≤ num < 1000 ∧ (cid ≤ 1000 → num = cid - 1) ∧ nu_ok nu')).
  { unfold cust_name. destruct (Z.leb_spec cid 1000); [apply good_ret; split_and!; try done; lia|].
    eapply good_impl; [apply good_NURand; rand_side|]. intros [num nu'] [Hnum Hnu']. split_and!; try done; lia. }
  intros [num nu'] (Hnum&Heq&Hnu'). destruct (Lastname_total num Hnum) as [name Hname]. eapply good_bind; [by apply (good_lift _ name (λ x, x = name))|].
  intros ? ->. draw good_RAND as r _. draw good_RAND as disc _. draw good_int32 as ? (hi'&_&->).
  apply good_ret. split; [|done]. split_and!; [done|by exists hi|done..|]. exists num, name. split; [done|]. by split_and!.
Qed.

Lemma good_hist_row w d cid : good (init_tab_hist w d cid) (describes (RHist cid d w)).
Proof. unfold init_tab_hist. draw good_int32 as ? (hi&_&->). by apply good_ret. Qed.

(** *** Threads *)

Lemma good_rows (f : Z → rand entry) (mk : Z → rowid) l : (∀ a, a ∈ l → good (f a) (describes (mk a))) →
  good (rmap f l) (covers (λ id, ∃ a, a ∈ l ∧ id = mk a)).
Proof. intros Hf. eapply good_impl; [by apply (good_rmap f (λ a, describes (mk a)))|]. intros es. apply covers_rows. Qed.

Lemma good_all {A} (f : A → rand (list entry)) (ids : A → rowid → Prop) l : (∀ a, a ∈ l → good (f a) (covers (ids a))) →
  good (ess <-- rmap f l; rret (concat ess))%rand (covers (λ id, ∃ a, a ∈ l ∧ ids a id)).
Proof. intros Hf. eapply good_bind; [by apply (good_rmap f (λ a, covers (ids a)))|]. intros ess He. by apply good_ret, covers_concat. Qed.

Lemma good_threadInitItem id : 0 ≤ id < P → good (threadInitItem c P fuel id)
  (covers (λ x, ∃ i, x = RItem i ∧ in_range c me x ∧ (i - 1) `mod` P = id)).
Proof.
  intros Hid. pose proof (lo_32 Hok). pose proof (lo_fuel Hok). pose proof (lo_items Hok). unfold threadInitItem, init_tab_item.
  draw good_ids32 as l Hl. eapply good_impl; [apply (good_rows _ RItem); intros; apply good_item_row|].
  intros es He. eapply covers_iff; [exact He|]. intros x. cbv beta. setoid_rewrite Hl. split; [intros (i&[Hi Hm]&->)|intros (i&->&Hi&Hm)]; exists i; split_and!; auto; apply Hi.
Qed.

Lemma good_threadInitWh : good (threadInitWh c me fuel) (covers (λ x, ∃ w, x = RWh w ∧ in_range c me x)).
Proof.
  pose proof (lo_32 Hok). pose proof (lo_fuel Hok). unfold threadInitWh, init_tab_wh.
  destruct (for_ids_spec wrap32 u32_mod (g_num_wh c) 1 fuel) with (i := 1) as (l&Hl&Hin); [intros z Hz; by apply wrap32_small|lia..|].
  eapply good_bind; [by apply (good_lift _ l (λ x, x = l))|]. intros ? ->. destruct (keep_local_spec l) as (ws&Hws&Hin').
  eapply good_bind; [by apply (good_lift _ ws (λ x, x = ws))|]. intros ? ->.
  eapply good_impl; [apply (good_rows _ RWh); intros; apply good_wh_row|].
  intros es He. eapply covers_iff; [exact He|]. intros x. cbv beta. setoid_rewrite Hin'. setoid_rewrite Hin.
  split; [intros (w&[[Hw _] Ho]&->)|intros (w&->&Hw&Ho)]; exists w; [by split_and!|]. split; [|done]. split; [|done]. split; [done|]. apply Z.mod_1_r.
Qed.

Lemma good_threadInitDist : good (threadInitDist c me fuel) (covers (λ x, ∃ d w, x = RDist d w ∧ in_range c me x)).
Proof.
  pose proof (lo_32 Hok). pose proof (lo_fuel Hok). unfold threadInitDist. draw good_local_whs as ws Hws.
  eapply good_impl; [apply (good_all _ (λ w id, ∃ d, 1 ≤ d ≤ g_dist_per_wh c ∧ id = RDist d w))|].
  - intros w _. unfold init_tab_dist. draw good_ids64 as l Hl. eapply good_impl; [apply (good_rows _ (λ d, RDist d w)); intros; apply good_dist_row|].
    intros es He. eapply covers_iff; [exact He|]. intros x. cbv beta. by setoid_rewrite Hl.
  - intros es He. eapply covers_iff; [exact He|]. intros x. cbv beta. setoid_rewrite Hws. cbn [in_range]. naive_solver.
Qed.

Lemma good_threadInitStock id : 0 ≤ id < P → good (threadInitStock c P me fuel id)
  (covers (λ x, ∃ s w, x = RStock s w ∧ in_range c me x ∧ (s - 1) `mod` P = id)).
Proof.
  intros Hid. pose proof (lo_32 Hok). pose proof (lo_fuel Hok). pose proof (lo_items Hok). unfold threadInitStock. draw good_local_whs as ws Hws.
  eapply good_impl; [apply (good_all _ (λ w x, ∃ s, (1 ≤ s ≤ g_max_items c ∧ (s - 1) `mod` P = id) ∧ x = RStock s w))|].
  - intros w _. unfold init_tab_stock. draw good_ids32 as l Hl. eapply good_impl; [apply (good_rows _ (λ s, RStock s w)); intros; apply good_stock_row|].
    intros es He. eapply covers_iff; [exact He|]. intros x. cbv beta. by setoid_rewrite Hl.
  - intros es He. eapply covers_iff; [exact He|]. intros x. cbv beta. setoid_rewrite Hws. cbn [in_range]. naive_solver.
Qed.

Lemma good_threadInitHist : good (threadInitHist c me fuel) (covers (λ x, ∃ cid d w, x = RHist cid d w ∧ in_range c me x)).
Proof.
  pose proof (lo_32 Hok). pose proof (lo_fuel Hok). pose proof (lo_par Hok). unfold threadInitHist. draw good_local_whs as ws Hws.
  eapply good_impl; [apply (good_all _ (λ w x, ∃ d, 1 ≤ d ≤ g_dist_per_wh c ∧ ∃ cid, 1 ≤ cid ≤ g_cust_per_dist c ∧ x = RHist cid d w))|].
  - intros w _. draw good_ids64 as l Hl.
    eapply good_impl; [apply (good_all _ (λ d x, ∃ cid, 1 ≤ cid ≤ g_cust_per_dist c ∧ x = RHist cid d w))|].
    + intros d _. draw good_ids64 as l' Hl'. eapply good_impl; [apply (good_rows _ (λ cid, RHist cid d w)); intros; apply good_hist_row|].
      intros es He. eapply covers_iff; [exact He|]. intros x. cbv beta. by setoid_rewrite Hl'.
    + intros es He. eapply covers_iff; [exact He|]. intros x. cbv beta. by setoid_rewrite Hl.
  - intros es He. eapply covers_iff; [exact He|]. intros x. cbv beta. setoid_rewrite Hws. cbn [in_range]. naive_solver.
Qed.

Lemma good_allS {A} (f : A → nu_consts → rand (list entry * nu_consts)) (ids : A → rowid → Prop) l nu :
  (∀ a nu, a ∈ l → nu_ok nu → good (f a nu) (λ '(es, nu'), covers (ids a) es ∧ nu_ok nu')) → nu_ok nu →
  good ('(ess, nu) <-- rmapS f l nu; rret (concat ess, nu))%rand (λ '(es, nu'), covers (λ id, ∃ a, a ∈ l ∧ ids a id) es ∧ nu_ok nu').
Proof.
  intros Hf Hnu. eapply good_bind; [by apply (good_rmapS f (λ a, covers (ids a)) nu_ok)|]. intros [ess nu'] [He Hnu'].
  apply good_ret. split; [by apply covers_concat|done].
Qed.

Lemma good_threadInitCust id nu : 0 ≤ id < P → nu_ok nu → good (threadInitCust c P me fuel id nu)
  (λ '(es, nu'), covers (λ x, ∃ cid d w, x = RCust cid d w ∧ in_range c me x ∧ (cid - 1) `mod` P = id) es ∧ nu_ok nu').
Proof.
  intros Hid Hnu. pose proof (lo_32 Hok). pose proof (lo_fuel Hok). pose proof (lo_cust Hok). unfold threadInitCust. draw good_local_whs as ws Hws.
  eapply good_impl; [apply (good_allS _ (λ w x, ∃ d, 1 ≤ d ≤ g_dist_per_wh c ∧
    ∃ cid, (1 ≤ cid ≤ g_cust_per_dist c ∧ (cid - 1) `mod` P = id) ∧ x = RCust cid d w)); [|done]|].
  - intros w nu1 _ Hnu1. draw good_ids64 as l Hl.
    eapply good_impl; [apply (good_allS _ (λ d x, ∃ cid, (1 ≤ cid ≤ g_cust_per_dist c ∧ (cid - 1) `mod` P = id) ∧ x = RCust cid d w)); [|done]|].
    + intros d nu2 _ Hnu2. unfold init_tab_cust. draw good_check as _ _. draw good_ids32 as l' Hl'.
      eapply good_impl; [apply (good_rmapS _ (λ cid, describes (RCust cid d w)) nu_ok); [|done]|].
      * intros cid nu3 Hcid. apply good_cust_row. apply Hl' in Hcid. lia.
      * intros [es nu'] [He%(covers_rows c (λ cid, RCust cid d w)) Hnu']. split; [|done]. eapply covers_iff; [exact He|]. intros x. cbv beta. by setoid_rewrite Hl'.
    + intros [es nu'] [He Hnu']. split; [|done]. eapply covers_iff; [exact He|]. intros x. cbv beta. by setoid_rewrite Hl.
  - intros [es nu'] [He Hnu']. split; [|done]. eapply covers_iff; [exact He|]. intros x. cbv beta. setoid_rewrite Hws. cbn [in_range]. naive_solver.
Qed.

End threads_proofs.

(** ** The steps of all threads *)

Section steps_proofs.
Context (c : tconfig).

#[local] Abbreviation wf := (IndexHash.wf TPCC (g_part_cnt c)).
#[local] Abbreviation index_insert := (IndexHash.index_insert TPCC (g_part_cnt c)).

Lemma insert_elem key r t : wf t → ∃ t', index_insert key r t = Some t' ∧ wf t' ∧ ∀ k x,
  x ∈ default [] (IndexHash.index_read TPCC (g_part_cnt c) k t') ↔
  (k = key ∧ x = r) ∨ x ∈ default [] (IndexHash.index_read TPCC (g_part_cnt c) k t).
Proof.
  intros Hwf. destruct (IndexHash.index_insert_spec TPCC (g_part_cnt c) t _ key r Hwf (λ k, eq_refl)) as (t'&Ht&Hwf'&Ha).
  exists t'. split; [done|]. split; [done|]. intros k x.
  rewrite (IndexHash.index_read_spec TPCC (g_part_cnt c) t' _ k Hwf' Ha), (IndexHash.index_read_spec TPCC (g_part_cnt c) t _ k Hwf (λ k, eq_refl)).
  unfold IndexHash.spec_insert. destruct (decide (key = k)) as [<-|Hne].
  - rewrite fn_lookup_insert. destruct (IndexHash.abstract TPCC (g_part_cnt c) t key) as [|l rest]; simpl; rewrite !elem_of_cons, ?elem_of_nil; naive_solver.
  - rewrite fn_lookup_insert_ne by done. naive_solver.
Qed.

(** The state after the steps [l]. *)
Record after (l : list step_t) (d : db) : Prop := {
  af_wf : ∀ i, wf (tix d i);
  af_idx : ∀ i key r, r ∈ lookup c i key d ↔ Ins i key r ∈ l;
  af_mem : ∀ r, (mem d r = mem (empty_db c) r ∧ ∀ row, New r row ∉ l) ∨ New r (mem d r) ∈ l }.

Lemma do_step_after l d s : after l d → ∃ d', do_step c s d = Some d' ∧ after (l ++ [s]) d'.
Proof.
  intros [H1 H2 H3]. destruct s as [r row|i key r]; cbn [do_step].
  - eexists. split; [done|]. split; [done| |].
    + intros i key r'. unfold lookup in *. cbn [tix]. rewrite H2, elem_of_app, list_elem_of_singleton. naive_solver.
    + intros r'. cbn [mem]. setoid_rewrite elem_of_app. setoid_rewrite list_elem_of_singleton. destruct (decide (r = r')) as [<-|Hne].
      * rewrite fn_lookup_insert. by right; right.
      * rewrite fn_lookup_insert_ne by done. destruct (H3 r') as [[He Hn]|Hn]; [left; split; [done|]|by right; left].
        intros row' [Hin|[= -> ->]]; [by apply (Hn row')|done].
  - destruct (insert_elem key r (tix d i) (H1 i)) as (t&Ht&Hwf&Hin). rewrite Ht. cbn [mbind option_bind]. eexists. split; [done|]. split.
    + intros j. cbn [tix]. destruct (decide (i = j)) as [<-|Hne]; [by rewrite fn_lookup_insert|by rewrite fn_lookup_insert_ne].
    + intros j k x. unfold lookup in *. cbn [tix]. rewrite elem_of_app, list_elem_of_singleton. destruct (decide (i = j)) as [<-|Hne].
      * rewrite fn_lookup_insert, Hin, H2. naive_solver.
      * rewrite fn_lookup_insert_ne by done. rewrite H2. naive_solver.
    + intros x. cbn [mem]. setoid_rewrite elem_of_app. setoid_rewrite list_elem_of_singleton.
      destruct (H3 x) as [[He Hn]|Hn]; [left; split; [done|]|by right; left]. intros row' [Hin'|?]; [by apply (Hn row')|done].
Qed.

Lemma do_steps_after l : ∀ l0 d, after l0 d → ∃ d', do_steps c l d = Some d' ∧ after (l0 ++ l) d'.
Proof.
  induction l as [|s l IH]; intros l0 d Hd; [exists d; by rewrite app_nil_r|]. destruct (do_step_after l0 d s Hd) as (d1&H1&Hd1).
  cbn [do_steps]. rewrite H1. cbn [mbind option_bind]. destruct (IH _ _ Hd1) as (d'&H2&Hd'). exists d'. split; [done|]. by rewrite <-app_assoc in Hd'.
Qed.

Lemma empty_after : (∀ i, 0 < index_size c i) → after [] (empty_db c).
Proof.
  intros Hs. assert (∀ i, IndexHash.wf TPCC (g_part_cnt c) (IndexHash.init (index_size c i)) ∧
    ∀ k, IndexHash.abstract TPCC (g_part_cnt c) (IndexHash.init (index_size c i)) k = []) as Hi by (intros i; by apply IndexHash.init_abstract).
  split; cbn [empty_db tix mem]; [apply Hi| |].
  - intros i key r. unfold lookup. cbn [empty_db tix]. rewrite (IndexHash.index_read_spec TPCC (g_part_cnt c) _ _ key (proj1 (Hi i)) (proj2 (Hi i))).
    simpl. by rewrite !elem_of_nil.
  - intros r. left. split; [done|]. intros row. apply not_elem_of_nil.
Qed.

(** Where the rows of the threads are. *)
Definition entry_in (T : threads) (ph tid n : nat) (e : entry) : Prop :=
  (∃ ts es, th_par T !! ph = Some ts ∧ ts !! tid = Some es ∧ es !! n = Some e) ∨
  (∃ k es, ph = (3 + k)%nat ∧ tid = 0%nat ∧ th_seq T !! k = Some es ∧ es !! n = Some e).

Lemma elem_of_steps a es s : s ∈ steps a es ↔ ∃ n e, es !! n = Some e ∧ s ∈ entry_steps (a n) e.
Proof.
  unfold steps. rewrite list_elem_of_In, in_concat. setoid_rewrite <-list_elem_of_In. setoid_rewrite elem_of_lookup_imap. naive_solver.
Qed.

Lemma elem_of_init_table addr T l s : init_table addr T l →
  (s ∈ l ↔ ∃ ph tid n e, entry_in T ph tid n e ∧ s ∈ entry_steps (addr ph tid n) e).
Proof.
  intros (ps&Hps&->). assert (s ∈ concat ps ↔ ∃ ph ts tid es, th_par T !! ph = Some ts ∧ ts !! tid = Some es ∧ s ∈ steps (addr ph tid) es) as Hpar.
  { assert (concat ps ≡ₚ concat (concat (imap (λ ph es, imap (λ tid es, steps (addr ph tid) es) es) (th_par T)))) as ->.
    { clear - Hps. induction Hps as [|p r ls ps Hi%interleave_perm _ IH]; [done|]. cbn [concat]. rewrite concat_app. by rewrite Hi, IH. }
    rewrite list_elem_of_In, in_concat. setoid_rewrite in_concat. setoid_rewrite <-list_elem_of_In. setoid_rewrite elem_of_lookup_imap.
    split; [intros (x&(y&(ph&ts&->&Hts)&(tid&es&->&Hes)%elem_of_lookup_imap)&Hs); eauto 9|].
    intros (ph&ts&tid&es&Hts&Hes&Hs). exists (steps (addr ph tid) es). split; [|done]. eexists. split; [by exists ph, ts|].
    apply elem_of_lookup_imap. by exists tid, es. }
  rewrite elem_of_app, Hpar, (list_elem_of_In (concat (imap _ _))), in_concat. setoid_rewrite <-list_elem_of_In.
  setoid_rewrite elem_of_lookup_imap. unfold entry_in. split.
  - intros [(ph&ts&tid&es&Hts&Hes&(n&e&Hn&Hs)%elem_of_steps)|(x&(k&es&->&Hes)&(n&e&Hn&Hs)%elem_of_steps)].
    + exists ph, tid, n, e. split; [left; eauto|done].
    + exists (3 + k)%nat, 0%nat, n, e. split; [right; eauto 6|done].
  - intros (ph&tid&n&e&[(ts&es&Hts&Hes&Hn)|(k&es&->&->&Hes&Hn)]&Hs).
    + left. exists ph, ts, tid, es. split_and!; try done. apply elem_of_steps. eauto.
    + right. eexists. split; [by exists k, es|]. apply elem_of_steps. eauto.
Qed.

Lemma entry_in_fun T ph tid n e e' : length (th_par T) = 3%nat → entry_in T ph tid n e → entry_in T ph tid n e' → e = e'.
Proof.
  intros Hl [(ts&es&H1&H2&H3)|(k&es&->&->&H1&H2)] [(ts'&es'&H1'&H2'&H3')|(k'&es'&?&?&H1'&H2')]; simplify_eq; try done.
  - apply lookup_lt_Some in H1. lia.
  - apply lookup_lt_Some in H1'. lia.
Qed.

End steps_proofs.

(** ** A loaded node *)

Section load_proofs.
Context (c : tconfig) (P me : Z) (fuel : nat) (Hok : load_ok c P fuel).
Context (Hsize : g_num_wh c / g_part_cnt c * g_dist_per_wh c * g_cust_per_dist c < u32_mod ∧
  g_num_wh c / g_part_cnt c * g_max_items c < u32_mod).

Lemma index_size_pos i : 0 < index_size c i.
Proof.
  destruct (lo_part _ _ _ Hok) as [Hp1 Hp2]. pose proof (lo_items _ _ _ Hok). pose proof (lo_dist _ _ _ Hok). pose proof (lo_cust _ _ _ Hok).
  assert (0 < g_num_wh c / g_part_cnt c) as Hw by (apply Z.div_str_pos; lia). destruct Hsize as [S1 S2].
  assert (Schema.per_part (globals_of c) (g_num_wh c) = Some (g_num_wh c / g_part_cnt c)) as Hpp.
  { unfold Schema.per_part. cbn [globals_of Schema.g_part_cnt]. by rewrite assert_bind_true by lia. }
  set (W := g_num_wh c / g_part_cnt c) in *.
  assert (0 < W * g_dist_per_wh c) by nia. assert (0 < W * g_max_items c) by nia. assert (0 < W * g_dist_per_wh c * g_cust_per_dist c) by nia.
  assert (W * g_dist_per_wh c < u32_mod) by nia.
  destruct i; unfold index_size, Schema.table_size; (rewrite assert_bind_true by done);
    repeat (match goal with |- context [bool_decide ?B] => let b := eval vm_compute in (bool_decide B) in change (bool_decide B) with b end);
    cbn [orb globals_of Schema.g_num_wh Schema.g_dist_per_wh Schema.g_cust_per_dist Schema.g_max_items]; rewrite ?Hpp; cbn [mbind option_bind from_option id];
    rewrite ?wrap32_small; unfold is_u32; (lia || (rewrite wrap32_small by (unfold is_u32; lia); lia)).
Qed.

Lemma ran_good {A} (m : rand A) (Q : A → Prop) a : ran m a → good m Q → Q a.
Proof. intros (ds&rest&Hm) [Hs _]. specialize (Hs ds). by rewrite Hm in Hs. Qed.

Lemma phase_covers (th : Z → list entry → Prop) (ids : Z → rowid → Prop) ess : phase P th ess →
  (∀ id es, 0 ≤ id < P → th id es → covers c (ids id) es) → covers c (λ x, ∃ id, 0 ≤ id < P ∧ ids id x) (concat ess).
Proof.
  intros Hp Hth. eapply covers_iff; [apply (covers_concat c ids (seqZ 0 P))|].
  - unfold phase in Hp. apply Forall2_same_length_lookup. split; [by eapply Forall2_length|].
    intros i id es Hid He. apply Hth; [apply lookup_seqZ in Hid; lia|by eapply (Forall2_lookup_lr th)].
  - intros x. cbv beta. setoid_rewrite elem_of_seqZ. by setoid_rewrite Z.add_0_l.
Qed.

Ltac pick_disjunct tac := first [solve [tac] | left; pick_disjunct tac | right; pick_disjunct tac].

Lemma made_covers T : made c P me fuel T →
  length (th_par T) = 3%nat ∧ covers c (in_range c me) (concat (concat (th_par T)) ++ concat (th_seq T)).
Proof.
  intros [Hp Hs]. pose proof (Forall2_length _ _ _ Hp) as Hl. pose proof (Forall2_length _ _ _ Hs) as Hl'. split; [done|].
  destruct (th_par T) as [|e1 [|e2 [|e3 [|]]]]; try done. destruct (th_seq T) as [|s1 [|s2 [|s3 [|]]]]; try done.
  rewrite !Forall2_cons in Hp. rewrite !Forall2_cons in Hs. destruct Hp as (H1&H2&H3&_), Hs as (S1&S2&S3&_). pose proof (lo_par _ _ _ Hok) as HP.
  eapply (phase_covers _ _ _) in H1; [|intros id es Hid Hr; exact (ran_good _ _ _ Hr (good_threadInitStock c P me fuel Hok id Hid))].
  eapply (phase_covers _ _ _) in H2; [|intros id es Hid Hr; exact (ran_good _ _ _ Hr (good_threadInitItem c P me fuel Hok id Hid))].
  eapply (phase_covers _ (λ id x, ∃ cid d w, x = RCust cid d w ∧ in_range c me x ∧ (cid - 1) `mod` P = id) _) in H3;
    [|intros id es Hid (nu&nu'&Hnu&Hr); exact (proj1 (ran_good _ _ _ Hr (good_threadInitCust c P me fuel Hok id nu Hid Hnu)))].
  pose proof (ran_good _ _ _ S1 (good_threadInitWh c P me fuel Hok)) as C1.
  pose proof (ran_good _ _ _ S2 (good_threadInitDist c P me fuel Hok)) as C2.
  pose proof (ran_good _ _ _ S3 (good_threadInitHist c P me fuel Hok)) as C3.
  cbn [concat]. rewrite !app_nil_r, !concat_app.
  eapply covers_iff; [repeat (first [eassumption | eapply covers_app])|].
  intros x. cbv beta. assert (∀ k, 0 ≤ (k - 1) `mod` P < P) as Hm by (intros k; by apply Z.mod_pos_bound).
  split; [naive_solver|]. destruct x; intros Hx; pick_disjunct ltac:(first
    [ eexists; split; [apply Hm|]; first [eexists _, _, _; by split_and! | eexists _, _; by split_and! | eexists; by split_and!]
    | first [eexists _, _, _; by split_and! | eexists _, _; by split_and! | eexists; by split_and!]]).
Qed.

Lemma elem_of_all T e : e ∈ concat (concat (th_par T)) ++ concat (th_seq T) ↔ ∃ ph tid n, entry_in T ph tid n e.
Proof.
  rewrite elem_of_app, !list_elem_of_In, !in_concat. setoid_rewrite in_concat. setoid_rewrite <-list_elem_of_In. unfold entry_in. split.
  - intros [(es&(ts&[ph Hts]%list_elem_of_lookup&[tid Hes]%list_elem_of_lookup)&[n Hn]%list_elem_of_lookup)|(es&[k Hes]%list_elem_of_lookup&[n Hn]%list_elem_of_lookup)].
    + exists ph, tid, n. left. eauto.
    + exists (3 + k)%nat, 0%nat, n. right. eauto 6.
  - intros (ph&tid&n&[(ts&es&Hts&Hes&Hn)|(k&es&_&_&Hes&Hn)]).
    + left. exists es. split; [exists ts; split|]; by eapply list_elem_of_lookup_2.
    + right. exists es. split; by eapply list_elem_of_lookup_2.
Qed.

Context (addr : nat → nat → nat → nat).
Definition distinct : Prop := ∀ ph tid n ph' tid' n', addr ph tid n = addr ph' tid' n' → ph = ph' ∧ tid = tid' ∧ n = n'.
Context (Haddr : distinct).

Lemma elem_of_entry_steps r e s : s ∈ entry_steps r e ↔ s = New r e.1 ∨ ∃ i key, (i, key) ∈ e.2 ∧ s = Ins i key r.
Proof.
  unfold entry_steps. rewrite elem_of_cons, list_elem_of_fmap. split; [intros [?|([i key]&->&Hin)]; eauto|].
  intros [?|(i&key&Hin&->)]; [by left|right]. by exists (i, key).
Qed.

Lemma load_node T l : made c P me fuel T → init_table addr T l →
  ∃ d, do_steps c l (empty_db c) = Some d ∧ loaded c me (to_node c d) (mem d).
Proof.
  intros [Hlen [Hsound Hcomplete]]%made_covers Hl. pose proof (λ s, elem_of_init_table addr T l s Hl) as Hel.
  destruct (do_steps_after c l [] (empty_db c)) as (d&Hd&[_ Hidx Hmem]); [apply empty_after, index_size_pos|]. exists d. split; [done|].
  cbn [app] in *. setoid_rewrite elem_of_entry_steps in Hel.
  assert (∀ ph tid n e, entry_in T ph tid n e → mem d (addr ph tid n) = e.1) as Hrow.
  { intros ph tid n e He. destruct (Hmem (addr ph tid n)) as [[_ Hn]|Hn].
    - exfalso. apply (Hn e.1), Hel. eauto 8.
    - apply Hel in Hn as (ph'&tid'&n'&e'&He'&[[= Ha ->]|(?&?&_&[=])]). apply Haddr in Ha as (<-&<-&<-). by rewrite (entry_in_fun _ _ _ _ _ _ Hlen He He'). }
  split; [done| | |].
  - intros i key r Hr. apply Hidx, Hel in Hr as (ph&tid&n&[row ins]&He&[[=]|(i'&key'&Hin&[= <- <- ->])]).
    destruct (Hsound (row, ins)) as (id&Hid&Hde); [apply elem_of_all; eauto|]. exists id, ins. rewrite (Hrow _ _ _ _ He). done.
  - intros id Hid. destruct (Hcomplete id Hid) as ([row ins]&(ph&tid&n&He)%elem_of_all&Hde). exists (addr ph tid n), ins.
    rewrite (Hrow _ _ _ _ He). split; [done|]. intros i key Hin. apply Hidx, Hel. eauto 12.
  - intros r. destruct (Hmem r) as [[He _]|Hn]; [by left|right]. apply Hel in Hn as (ph&tid&n&[row ins]&He&[[= -> Hm]|(?&?&_&[=])]).
    destruct (Hsound (row, ins)) as (id&Hid&Hde); [apply elem_of_all; eauto|]. exists id, ins. by rewrite Hm.
Qed.

(** The threads can be run, one after the other. *)
Lemma good_ran {A} (m : rand A) (Q : A → Prop) : good m Q → ∃ a, ran m a.
Proof. intros [_ Ht]. destruct (Ht []) as (ds&a&rest&H1&_). exists a, ([] ++ ds ++ []), (rest ++ []). apply H1. Qed.

Lemma phase_exists (th : Z → list entry → Prop) : (∀ id, 0 ≤ id < P → ∃ es, th id es) → ∃ ess, phase P th ess.
Proof.
  intros Hth. unfold phase. assert (∀ id, id ∈ seqZ 0 P → ∃ es, th id es) as Hex by (intros id ?%elem_of_seqZ; apply Hth; lia).
  induction (seqZ 0 P) as [|id l IH]; [by exists []|]. destruct (Hex id) as [es Hes]; [left|].
  destruct IH as [ess Hess]; [intros x Hx; apply Hex; by right|]. exists (es :: ess). by constructor.
Qed.

Lemma load_exists : ∃ T l, made c P me fuel T ∧ init_table addr T l.
Proof.
  destruct (phase_exists (λ id es, ran (threadInitStock c P me fuel id) es)) as [e1 H1]; [intros id Hid; eapply good_ran, good_threadInitStock; eauto|].
  destruct (phase_exists (λ id es, ran (threadInitItem c P fuel id) es)) as [e2 H2]; [intros id Hid; eapply good_ran, (good_threadInitItem c P me fuel); eauto|].
  destruct (phase_exists (λ id es, ∃ nu nu', nu_ok nu ∧ ran (threadInitCust c P me fuel id nu) (es, nu'))) as [e3 H3].
  { intros id Hid. set (nu := mkNu None None None). assert (nu_ok nu) as Hnu by (by repeat constructor).
    destruct (good_ran _ _ (good_threadInitCust c P me fuel Hok id nu Hid Hnu)) as [[es nu'] Hr]. by exists es, nu, nu'. }
  destruct (good_ran _ _ (good_threadInitWh c P me fuel Hok)) as [s1 S1]. destruct (good_ran _ _ (good_threadInitDist c P me fuel Hok)) as [s2 S2].
  destruct (good_ran _ _ (good_threadInitHist c P me fuel Hok)) as [s3 S3].
  eexists (mkTh [e1; e2; e3] [s1; s2; s3]), _. split; [split; cbn [th_par th_seq]; by repeat constructor|].
  eexists. split; [|reflexivity]. cbn [th_par imap]. repeat (apply Forall2_cons; split; [apply interleave_concat|]). by apply Forall2_nil.
Qed.

End load_proofs.

(** ** Lookups *)

Section lookups.
Context (c : tconfig) (me : Z).

(** Keys do not wrap around. *)
Definition keys_fit : Prop :=
  ((g_num_wh c + 1) * g_dist_per_wh c + 1) * g_cust_per_dist c < u64_mod ∧ (g_num_wh c + 1) * g_max_items c < u64_mod ∧
  0 ≤ g_dist_per_wh c ∧ 1 ≤ g_cust_per_dist c.
Context (Hfit : keys_fit).

(** The index and the key of a row, other than by the last name. *)
Definition primary (id : rowid) : option (INDEX * Z) :=
  match id with
  | RItem i => Some (i_item, i) | RWh w => Some (i_warehouse, w) | RDist d w => Some (i_district, distKey c d w)
  | RStock s w => Some (i_stock, stockKey c s w) | RCust cid d w => Some (i_customer_id, custKey c cid d w) | RHist _ _ _ => None
  end.

Lemma dist_number d w : 1 ≤ d ≤ g_dist_per_wh c → 1 ≤ w ≤ g_num_wh c →
  distKey c d w = w * g_dist_per_wh c + d ∧ 1 ≤ w * g_dist_per_wh c + d ≤ (g_num_wh c + 1) * g_dist_per_wh c.
Proof.
  intros Hd Hw. destruct Hfit as (H1&_&H2&H3). assert (1 ≤ w * g_dist_per_wh c + d ≤ (g_num_wh c + 1) * g_dist_per_wh c) as Hb by nia.
  split; [|done]. unfold distKey. apply wrap64_small. unfold is_u64. nia.
Qed.

Lemma primary_inj id id' p : in_range c me id → in_range c me id' → primary id = Some p → primary id' = Some p → id = id'.
Proof.
  intros Hr Hr' Hp He. destruct Hfit as (H1&H2&H3&H4).
  destruct id, id'; try done; cbn [primary in_range] in *; unfold local in *; rewrite <-Hp in He; injection He as He; try congruence; clear Hp.
  - rewrite (proj1 (dist_number d w ltac:(tauto) ltac:(tauto))), (proj1 (dist_number d0 w0 ltac:(tauto) ltac:(tauto))) in He.
    destruct (radix_inj (g_dist_per_wh c) w0 d0 w d) as [-> ->]; [tauto|tauto|lia|lia|done|done].
  - unfold stockKey in He. rewrite !wrap64_small in He by (unfold is_u64; nia).
    destruct (radix_inj (g_max_items c) w0 s0 w s) as [-> ->]; [tauto|tauto|lia|lia|done|done].
  - destruct Hr as (Hc&Hd&Hw&_), Hr' as (Hc'&Hd'&Hw'&_). destruct (dist_number d w Hd Hw) as [K1 B1], (dist_number d0 w0 Hd' Hw') as [K2 B2].
    unfold custKey in He. rewrite K1, K2 in He. rewrite !wrap64_small in He by (unfold is_u64; nia).
    destruct (radix_inj (g_cust_per_dist c) (w0 * g_dist_per_wh c + d0) cid0 (w * g_dist_per_wh c + d) cid) as [E ->]; [lia|lia|lia|lia|done|].
    destruct (radix_inj (g_dist_per_wh c) w0 d0 w d) as [-> ->]; [lia|lia|lia|lia|done|done].
Qed.

Lemma describes_primary id row ins i key : describes c id (row, ins) → (i, key) ∈ ins → i = i_customer_last ∨ primary id = Some (i, key).
Proof.
  intros Hd Hin. destruct id; cbn [describes primary] in *; destruct_and?; destruct_or?; naive_solver (set_solver).
Qed.

Context (n : node) (m : nat → lrow) (Hn : loaded c me n m).

(** A lookup finds the row it means, if the node has it, and nothing otherwise. *)
Lemma lookup_found id i key : in_range c me id → primary id = Some (i, key) →
  ∃ r ins, index_read n i key = Some r ∧ describes c id (m r, ins).
Proof.
  intros Hid Hp. destruct (ld_complete _ _ _ _ Hn id Hid) as (r&ins&Hde&Hin).
  assert (r ∈ idx n i key) as Hr.
  { apply Hin. destruct id; cbn [describes primary] in *; destruct_and?; naive_solver (set_solver). }
  unfold index_read. destruct (idx n i key) as [|r' l] eqn:Hl; [by apply not_elem_of_nil in Hr|]. cbn [head].
  destruct (ld_sound _ _ _ _ Hn i key r') as (id'&ins'&Hid'&Hde'&Hin'); [rewrite Hl; left|].
  destruct (describes_primary _ _ _ _ _ Hde' Hin') as [->|Hp']; [by destruct id|].
  rewrite (primary_inj id id' (i, key)) by done. by exists r', ins'.
Qed.

(** The customers with a last name can be found by it, among others. *)
Lemma name_found num name cid d w : in_range c me (RCust cid d w) → num = cid - 1 → cid ≤ 1000 → Lastname num = Some name →
  ∃ r ins, r ∈ idx n i_customer_last (custNPKey c name d w) ∧ describes c (RCust cid d w) (m r, ins) ∧ has (m r) "C_LAST" (VStr name).
Proof.
  intros Hr -> Hc Hname. destruct (ld_complete _ _ _ _ Hn _ Hr) as (r&ins&Hde&Hin). exists r, ins.
  pose proof Hde as (_&_&_&_&num&name'&_&Hname'&Hnum&Hlast&Hins). rewrite (Hnum Hc), Hname in Hname'. injection Hname' as <-.
  split; [|done]. apply Hin. rewrite Hins. left.
Qed.

Lemma loaded_node_ok : node_ok n.
Proof.
  intros i key r Hr. rewrite (ld_rows _ _ _ _ Hn). cbn [to_row r_table].
  destruct (ld_sound _ _ _ _ Hn _ _ _ Hr) as (id&ins&_&Hde&Hin). destruct id; cbn [describes] in Hde; destruct_and?; naive_solver (set_solver).
Qed.

Lemma loaded_stock_ok : stock_ok n.
Proof.
  intros r. unfold quantity. rewrite (ld_rows _ _ _ _ Hn). cbn [to_row r_table r_col]. intros Ht.
  destruct (ld_mem _ _ _ _ Hn r) as [He|(id&ins&_&Hde)]; [by rewrite He in Ht|].
  destruct id; cbn [describes] in Hde; destruct Hde as [Ht' Hde]; rewrite Ht in Ht'; try done.
  destruct Hde as (_&_&(q&Hq&Hv)&_). unfold has in Hv. cbn [col_name]. rewrite Hv. cbn [from_option word]. lia.
Qed.

Lemma loaded_keys_ok : keys_ok n.
Proof.
  intros k k' r Hk Hk'. unfold index_read in *. rewrite head_lookup in *. apply list_elem_of_lookup_2 in Hk, Hk'.
  destruct (ld_sound _ _ _ _ Hn _ _ _ Hk) as (id&ins&_&Hde&Hin), (ld_sound _ _ _ _ Hn _ _ _ Hk') as (id'&ins'&_&Hde'&Hin').
  destruct (describes_primary _ _ _ _ _ Hde Hin) as [|Hp], (describes_primary _ _ _ _ _ Hde' Hin') as [|Hp']; try done.
  destruct id, id'; try done; cbn [describes primary] in *; unfold has in *. destruct_and?; naive_solver.
Qed.

End lookups.

(** ** Correctness *)

Definition sizes_fit (c : tconfig) : Prop :=
  g_num_wh c / g_part_cnt c * g_dist_per_wh c * g_cust_per_dist c < u32_mod ∧ g_num_wh c / g_part_cnt c * g_max_items c < u32_mod.

(** C14: Every thread of the loader comes to its end, whatever numbers it draws, and no
    assertion fails.  Whatever the order in which the threads of each phase run, all
    insertions succeed, and the node then has exactly the rows of its warehouses and all
    items, each under its keys, with the columns that identify it; a lookup of a
    warehouse, district, customer, item or stock finds the row that is meant. *)
Theorem tpcc_load c P me fuel addr : load_ok c P fuel → sizes_fit c → keys_fit c → distinct addr →
  (∀ id nu, 0 ≤ id < P → nu_ok nu → completes (threadInitStock c P me fuel id) ∧ completes (threadInitItem c P fuel id) ∧
    completes (threadInitCust c P me fuel id nu)) ∧
  completes (threadInitWh c me fuel) ∧ completes (threadInitDist c me fuel) ∧ completes (threadInitHist c me fuel) ∧
  ∀ T l, made c P me fuel T → init_table addr T l → ∃ d, do_steps c l (empty_db c) = Some d ∧
    loaded c me (to_node c d) (mem d) ∧
    ∀ id i key, in_range c me id → primary c id = Some (i, key) →
      ∃ r ins, index_read (to_node c d) i key = Some r ∧ describes c id (mem d r, ins).
Proof.
  intros Hok Hs Hf Ha. split; [|split; [|split; [|split]]].
  - intros id nu Hid Hnu. split; [|split]; eapply good_completes;
      [by apply (good_threadInitStock c P me)|by apply (good_threadInitItem c P me)|by apply (good_threadInitCust c P me)].
  - eapply good_completes, (good_threadInitWh c P me fuel Hok).
  - eapply good_completes, (good_threadInitDist c P me fuel Hok).
  - eapply good_completes, (good_threadInitHist c P me fuel Hok).
  - intros T l HT Hl. destruct (load_node c P me fuel Hok Hs addr Ha T l HT Hl) as (d&Hd&Hn). exists d. split; [done|]. split; [done|].
    intros id i key. by apply (lookup_found c me Hf _ _ Hn).
Qed.

(** C39: The index of last names does not tell all names apart: in every district of a loaded
    node the customers found under the name "ESEPRIBAR" include one whose name is
    "BARPRESBAR", so that a payment by last name can go to a customer of another name. *)
Theorem tpcc_last_name_mixed c me n m d w : loaded c me n m → in_range c me (RDist d w) → 1000 ≤ g_cust_per_dist c →
  ∃ name name' r r', Lastname 530 = Some name ∧ name ≠ name' ∧
    r ∈ idx n i_customer_last (custNPKey c name d w) ∧ has (m r) "C_LAST" (VStr name) ∧
    r' ∈ idx n i_customer_last (custNPKey c name d w) ∧ has (m r') "C_LAST" (VStr name').
Proof.
  intros Hn Hr Hc. destruct custNPKey_collision as (name'&name&H1&H2&Hne&Hkey). exists name, name'.
  destruct (name_found c me n m Hn 530 name 531 d w) as (r&_&Hin&_&Hl); [split; [lia|exact Hr]|done|lia|done|].
  destruct (name_found c me n m Hn 40 name' 41 d w) as (r'&_&Hin'&_&Hl'); [split; [lia|exact Hr]|done|lia|done|].
  exists r, r'. split; [done|]. split; [done|]. split; [done|]. split; [done|]. split; [|done]. by rewrite <-Hkey.
Qed.

(** ** An example: the default tables on two nodes *)

Module Example.

Definition ex_c : tconfig := mkTC 2 2 2 10 3000 100000 true 15.
Definition ex_fuel : nat := Z.to_nat 100001.
Definition ex_addr (ph tid n : nat) : nat := encode_nat (ph, tid, n).

Lemma ex_load_ok P : 0 < P < 100 → load_ok ex_c P ex_fuel.
Proof. intros HP. unfold ex_fuel, u32_mod. split; cbn; unfold u32_mod; lia. Qed.
Lemma ex_sizes_fit : sizes_fit ex_c.
Proof. by split. Qed.
Lemma ex_keys_fit : keys_fit ex_c.
Proof. by split_and!. Qed.
Lemma ex_distinct : distinct ex_addr.
Proof. intros ph tid n ph' tid' n' He. unfold ex_addr in He. apply (inj encode_nat) in He. by injection He. Qed.

Lemma ex_loaded me : ∃ n m, loaded ex_c me n m.
Proof.
  destruct (load_exists ex_c 4 me ex_fuel (ex_load_ok 4 ltac:(lia)) ex_addr) as (T&l&HT&Hl).
  destruct (load_node ex_c 4 me ex_fuel (ex_load_ok 4 ltac:(lia)) ex_sizes_fit ex_addr ex_distinct T l HT Hl) as (d&_&Hd). eauto.
Qed.

End Example.
Import Example.

Lemma tpcc_load_witness : ∃ T l d, made ex_c 4 1 ex_fuel T ∧ init_table ex_addr T l ∧ do_steps ex_c l (empty_db ex_c) = Some d ∧
  (∃ r ins, index_read (to_node ex_c d) i_stock (stockKey ex_c 77 2) = Some r ∧ describes ex_c (RStock 77 2) (mem d r, ins)) ∧
  completes (threadInitWh ex_c 1 ex_fuel).
Proof.
  destruct (tpcc_load ex_c 4 1 ex_fuel ex_addr) as (_&Hwh&_&_&Hload).
  - apply ex_load_ok. lia.
  - apply ex_sizes_fit.
  - apply ex_keys_fit.
  - apply ex_distinct.
  - destruct (load_exists ex_c 4 1 ex_fuel (ex_load_ok 4 ltac:(lia)) ex_addr) as (T&l&HT&Hl). destruct (Hload T l HT Hl) as (d&Hd&_&Hfound).
    exists T, l, d. split; [done|]. split; [done|]. split; [done|]. split; [|done]. apply Hfound; [|done]. split; cbn; [lia|]. by split.
Defined.

Lemma tpcc_last_name_mixed_witness : ∃ n m name name' r r', loaded ex_c 0 n m ∧ Lastname 530 = Some name ∧ name ≠ name' ∧
  r ∈ idx n i_customer_last (custNPKey ex_c name 3 1) ∧ has (m r) "C_LAST" (VStr name) ∧
  r' ∈ idx n i_customer_last (custNPKey ex_c name 3 1) ∧ has (m r') "C_LAST" (VStr name').
Proof.
  destruct (ex_loaded 0) as (n&m&Hn). exists n, m.
  destruct (tpcc_last_name_mixed ex_c 0 n m 3 1 Hn) as (name&name'&r&r'&H); [split; cbn; [lia|by split]|cbn; lia|].
  exists name, name', r, r'. by split.
Defined.

End TpccLoad.
