(* ===== verification/TpccGen.v ===== *)
(** * TpccGen: the queries of TPC-C

    Model of [TPCCQueryGenerator] (benchmarks/tpcc_query.cpp).  A query is made from the
    random numbers drawn and from the memory it is allocated in, since not every field is
    set.  The theorems say what the generated payments and new orders ask for, and that they
    run to their end on nodes that [TpccLoad] has loaded. *)

From S2P Require Import Prelude Rand Double Message TwoPC Sequencer TpccTxn TpccRun TpccProps TpccRandom TpccLoad.

Module TpccGen.
Import Rand.Rand Double.Double Message.Message Sequencer.Sequencer TpccTxn.TpccTxn TpccRun.TpccRun TpccProps.TpccProps
  TpccRandom.TpccRandom TpccLoad.TpccLoad.

Record gparams := mkGP {
  g_perc_payment : Z;
  g_mpr : Z;
  g_part_per_txn : Z;
  FIRST_PART_LOCAL : bool }.

(** [(double)(rand() % n) / n] *)
Definition fraction (n : Z) : rand Z := (d <-- next; rret (ddiv (d_of_Z ((d `mod` 2 ^ 31) `mod` n)) (d_of_Z n)))%rand.
Definition d_0_15 : Z := ddiv (d_of_Z 15) (d_of_Z 100).
Definition d_0_01 : Z := ddiv (d_of_Z 1) (d_of_Z 100).

Section gen.
(** [q0] is the memory of the query before it is filled. *)
Context (c : tconfig) (p : gparams) (home_partition : Z) (q0 : tpcc_input).

(** A warehouse and its partition *)
Definition draw_wh : rand (Z * Z) := (w <-- URand 1 (g_num_wh c); part <-- lift (wh_to_part c w); rret (w, part))%rand.
Definition home_wh : rand Z :=
  if FIRST_PART_LOCAL p then ('(w, _) <-- until draw_wh (λ '(_, part), part =? home_partition); rret w)%rand
  else URand 1 (g_num_wh c).

Definition gen_payment (nu : nu_consts) : rand (tpcc_input * list Z * nu_consts) := (
  w <-- home_wh;
  part <-- lift (wh_to_part c w);
  let accessed := sset_insert part [] in
  d <-- URand 1 (g_dist_per_wh c);
  amount <-- URand 1 5000;
  x <-- fraction 10000;
  y <-- URand 1 100;
  '(cd, cw, accessed) <-- (
    if dltb d_0_15 x then rret (d, w, accessed)
    else
      cd <-- URand 1 (g_dist_per_wh c);
      if 1 <? g_num_wh c then
        cw <-- until (URand 1 (g_num_wh c)) (λ cw, negb (cw =? w));
        cpart <-- lift (wh_to_part c cw);
        rret (cd, cw, if negb (part =? cpart) then sset_insert cpart accessed else accessed)
      else rret (cd, w, accessed));
  '(by_last, last, cid, nu) <-- (
    if y <=? 60 then ('(num, nu) <-- NURand 255 0 999 nu; name <-- lift (Lastname num); rret (true, name, c_id q0, nu))
    else ('(cid, nu) <-- NURand 1023 1 (g_cust_per_dist c) nu; rret (false, c_last q0, cid, nu)));
  rret (mkTI TPCC_PAYMENT w d cid w cw cd last (d_of_Z amount) by_last [] false (remote q0) (ol_cnt q0) (o_entry_d q0), accessed, nu))%rand.

Record gen_state := mkGS { gs_items : list Item_no; accessed : list Z; gs_nu : nu_consts }.

(** One pass of the loop *)
Definition gen_item (w r_mpr part_limit : Z) (st : gen_state) : rand gen_state := (
  '(C, nu) <-- nu_const 8191 (gs_nu st);
  i <-- until (nu_value C 8191 1 (g_max_items c)) (λ i, bool_decide (i ∉ (ol_i_id <$> gs_items st)));
  quantity <-- URand 1 10;
  r_rem <-- fraction 100000;
  '(sw, accs) <-- (
    if dltb d_0_01 r_rem || dltb (g_mpr p) r_mpr || (g_num_wh c =? 1) then rret (w, accessed st)
    else if zlen (accessed st) <? part_limit then ('(sw, part) <-- draw_wh; rret (sw, sset_insert part (accessed st)))
    else ('(sw, _) <-- until draw_wh (λ '(_, part), sset_count part (accessed st)); rret (sw, accessed st)));
  _ <-- check (bool_decide (length (gs_items st) < g_max_items_per_txn c)%nat);
  rret (mkGS (gs_items st ++ [mkItem i sw quantity]) accs nu))%rand.
Fixpoint gen_items (n : nat) (w r_mpr part_limit : Z) (st : gen_state) : rand gen_state :=
  match n with O => rret st | S n => (st <-- gen_item w r_mpr part_limit st; gen_items n w r_mpr part_limit st)%rand end.

Definition gen_new_order (nu : nu_consts) : rand (tpcc_input * list Z * nu_consts) := (
  w <-- home_wh;
  d <-- URand 1 (g_dist_per_wh c);
  '(cid, nu) <-- NURand 1023 1 (g_cust_per_dist c) nu;
  cnt <-- URand 5 (Z.of_nat (g_max_items_per_txn c));
  part <-- lift (wh_to_part c w);
  r_mpr <-- fraction 10000;
  let part_limit := if dltb r_mpr (g_mpr p) then g_part_per_txn p else 1 in
  st <-- gen_items (Z.to_nat cnt) w r_mpr part_limit (mkGS [] (sset_insert part []) nu);
  rret (mkTI TPCC_NEW_ORDER w d cid (d_w_id q0) (c_w_id q0) (c_d_id q0) (c_last q0) (h_amount q0) (by_last_name q0) (gs_items st)
          false (remote q0) cnt 2013, accessed st, gs_nu st))%rand.

Definition create_query (nu : nu_consts) : rand (tpcc_input * list Z * nu_consts) :=
  (x <-- fraction 100; if dltb x (g_perc_payment p) then gen_payment nu else gen_new_order nu)%rand.

End gen.

(** ** What is generated *)

Section gen_proofs.
Context (c : tconfig) (p : gparams) (home : Z) (q0 : tpcc_input).

Record gen_conf : Prop := {
  gc_part : 0 < g_part_cnt c ≤ g_num_wh c;
  gc_home : 0 ≤ home < g_part_cnt c;
  gc_wh : g_num_wh c < 2 ^ 31;
  gc_dist : 0 < g_dist_per_wh c < 2 ^ 31;
  gc_cust : 0 < g_cust_per_dist c < 2 ^ 31;
  gc_txn : (5 ≤ g_max_items_per_txn c)%nat;
  gc_items : Z.of_nat (g_max_items_per_txn c) ≤ g_max_items c < 2 ^ 31;
  gc_ppt : 1 ≤ g_part_per_txn p }.
Context (Hc : gen_conf).

(** The partition of a warehouse. *)
Definition part_of (w : Z) : Z := wrap64 (w - 1) `mod` g_part_cnt c.

Lemma wh_to_part_eq w : wh_to_part c w = Some (part_of w).
Proof. pose proof (gc_part Hc). unfold wh_to_part. by rewrite !assert_bind_true by lia. Qed.

Lemma good_part w : good (lift (wh_to_part c w)) (λ x, x = part_of w).
Proof. by apply (good_lift _ (part_of w)); [apply wh_to_part_eq|]. Qed.

Definition is_wh (w : Z) : Prop := 1 ≤ w ≤ g_num_wh c.
Definition is_home (w : Z) : Prop := is_wh w ∧ (FIRST_PART_LOCAL p = true → part_of w = home).

(** *** Warehouses *)

Lemma good_draw_wh : good (draw_wh c) (λ '(w, part), is_wh w ∧ part = part_of w).
Proof.
  pose proof (gc_part Hc). pose proof (gc_wh Hc). unfold draw_wh. draw good_URand as w Hw.
  eapply good_bind; [apply (good_part w)|]. intros ? ->. by apply good_ret.
Qed.

Lemma eats_draw_wh : eats (draw_wh c).
Proof.
  intros ds [w part] r. unfold draw_wh, rbind at 1. destruct (URand 1 (g_num_wh c) ds) as [a r1| |] eqn:H1; [|done..]. apply eats_URand in H1.
  unfold rbind, lift. rewrite wh_to_part_eq. unfold rret. by intros [= _ _ <-].
Qed.

Lemma reaches_draw_wh w : is_wh w → reaches (draw_wh c) (w, part_of w).
Proof.
  intros Hw. pose proof (gc_wh Hc). unfold is_wh in Hw. destruct (reaches_URand 1 (g_num_wh c) w) as [ds Hds]; [lia..|unfold u64_mod; lia|].
  exists ds. intros x. unfold draw_wh, rbind at 1. rewrite Hds. unfold rbind, lift. by rewrite wh_to_part_eq.
Qed.

Lemma good_home_wh : good (home_wh c p home) is_home.
Proof.
  pose proof (gc_part Hc). pose proof (gc_wh Hc). pose proof (gc_home Hc). unfold home_wh, is_home. destruct (FIRST_PART_LOCAL p).
  - assert (is_wh (home + 1)) as Hh by (unfold is_wh; lia).
    eapply good_bind; [apply (good_until _ _ _ good_draw_wh eats_draw_wh _ (reaches_draw_wh _ Hh))|].
    + unfold part_of. replace (home + 1 - 1) with home by lia. rewrite wrap64_small by (unfold is_u64, u64_mod; lia). rewrite Z.mod_small by lia. apply Z.eqb_refl.
    + intros [w part] [[Hw ->] Hp%Z.eqb_eq]. by apply good_ret.
  - eapply good_impl; [apply good_URand; rand_side|]. by intros w Hw.
Qed.

Lemma good_fraction n : good (fraction n) (λ _, True).
Proof. unfold fraction. draw good_next as d _. by apply good_ret. Qed.

(** *** Payments *)

Record payment_ok (q : tpcc_input) (parts : list Z) : Prop := {
  po_type : txn_type q = TPCC_PAYMENT;
  po_w : is_home (w_id q);
  po_d : 1 ≤ d_id q ≤ g_dist_per_wh c;
  po_dw : d_w_id q = w_id q;
  po_cw : is_wh (c_w_id q);
  po_cd : 1 ≤ c_d_id q ≤ g_dist_per_wh c;
  po_cust : if by_last_name q then ∃ num, 0 ≤ num < 1000 ∧ Lastname num = Some (c_last q) else 1 ≤ c_id q ≤ g_cust_per_dist c;
  po_name : by_last_name q = false → c_last q = c_last q0;
  po_amount : ∃ amount, 1 ≤ amount ≤ 5000 ∧ h_amount q = d_of_Z amount;
  po_items : items q = [];
  po_parts : ∀ x, x ∈ parts ↔ x = part_of (w_id q) ∨ x = part_of (c_w_id q) }.

Lemma good_gen_payment nu : nu_ok nu → good (gen_payment c p home q0 nu) (λ '(q, parts, nu'), payment_ok q parts ∧ nu_ok nu').
Proof.
  intros Hnu. pose proof (gc_part Hc). pose proof (gc_wh Hc). pose proof (gc_dist Hc). pose proof (gc_cust Hc). unfold gen_payment.
  eapply good_bind; [apply good_home_wh|]. intros w Hw.
  eapply good_bind; [apply (good_part w)|]. intros ? ->. cbv zeta.
  draw good_URand as d Hd. draw good_URand as amount Hamount. draw good_fraction as x _. draw good_URand as y _.
  eapply (good_bind _ _ (λ '(cd, cw, accs), 1 ≤ cd ≤ g_dist_per_wh c ∧ is_wh cw ∧ ∀ x, x ∈ accs ↔ x = part_of w ∨ x = part_of cw)).
  { assert (∀ x, x ∈ sset_insert (part_of w) [] ↔ x = part_of w ∨ x = part_of w) as Hone by (intros z; rewrite elem_of_sset_insert, elem_of_nil; tauto).
    destruct (dltb d_0_15 x); [apply good_ret; split; [done|]; split; [apply Hw|done]|]. draw good_URand as cd Hcd.
    destruct (Z.ltb_spec 1 (g_num_wh c)); [|apply good_ret; split; [done|]; split; [apply Hw|done]].
    set (v := if w =? 1 then 2 else 1). assert (v ≠ w ∧ 1 ≤ v ≤ g_num_wh c) as [Hv1 Hv2] by (unfold v; destruct (Z.eqb_spec w 1); lia).
    eapply good_bind; [apply (good_until (URand 1 (g_num_wh c)) _ is_wh) with (a0 := v)|].
    - apply good_URand; rand_side.
    - apply eats_URand.
    - apply reaches_URand; rand_side.
    - apply negb_true_iff, Z.eqb_neq. done.
    - intros cw [Hcw _].
      eapply good_bind; [apply (good_part cw)|]. intros ? ->.
      apply good_ret. split; [done|]. split; [done|]. intros z. destruct (Z.eqb_spec (part_of w) (part_of cw)) as [He|He]; cbn [negb].
      + rewrite Hone. rewrite He. tauto.
      + rewrite elem_of_sset_insert, Hone. tauto. }
  intros [[cd cw] accs] (Hcd&Hcw&Hacc).
  eapply (good_bind _ _ (λ '(by_last, last, cid, nu'), ((if by_last : bool then ∃ num, 0 ≤ num < 1000 ∧ Lastname num = Some last
    else 1 ≤ cid ≤ g_cust_per_dist c) ∧ (by_last = false → last = c_last q0)) ∧ nu_ok nu')).
  { destruct (y <=? 60).
    - draw good_NURand as [num nu'] [Hnum Hnu']. destruct (Lastname_total num) as [name Hname]; [lia|].
      eapply good_bind; [by apply (good_lift _ name (λ x, x = name))|]. intros ? ->. apply good_ret. split; [|done]. split; [|done]. exists num. split; [lia|done].
    - draw good_NURand as [cid nu'] [Hcid Hnu']. by apply good_ret. }
  intros [[[by_last last] cid] nu'] [[Hcust Hlast] Hnu']. apply good_ret. split; [|done]. split; try done. by exists amount.
Qed.

(** *** New orders *)

Definition item_ok (it : Item_no) : Prop := 1 ≤ ol_i_id it ≤ g_max_items c ∧ is_wh (ol_supply_w_id it) ∧ 1 ≤ ol_quantity it ≤ 10.

(** The items so far, with their partitions. *)
Record st_ok (w limit : Z) (st : gen_state) : Prop := {
  so_nodup : NoDup (ol_i_id <$> gs_items st);
  so_items : Forall item_ok (gs_items st);
  so_parts : ∀ x, x ∈ accessed st ↔ x = part_of w ∨ ∃ it, it ∈ gs_items st ∧ x = part_of (ol_supply_w_id it);
  so_sorted : StronglySorted Z.lt (accessed st);
  so_limit : zlen (accessed st) ≤ limit;
  so_nu : nu_ok (gs_nu st) }.

Lemma st_ok_add w limit st i sw quantity accs nu : st_ok w limit st → item_ok (mkItem i sw quantity) → i ∉ (ol_i_id <$> gs_items st) →
  nu_ok nu → (∀ x, x ∈ accs ↔ x = part_of sw ∨ x ∈ accessed st) → StronglySorted Z.lt accs → zlen accs ≤ limit →
  st_ok w limit (mkGS (gs_items st ++ [mkItem i sw quantity]) accs nu).
Proof.
  intros [H1 H2 H3 H4 H5 H6] Hit Hnew Hnu Hacc Hs Hl. split; cbn [gs_items accessed gs_nu]; try done.
  - rewrite fmap_app. apply NoDup_app. split; [done|]. split; [|apply NoDup_singleton]. intros x Hx ->%list_elem_of_singleton. done.
  - apply Forall_app. split; [done|]. by constructor.
  - intros x. rewrite Hacc, H3. setoid_rewrite elem_of_app. setoid_rewrite list_elem_of_singleton. split.
    + intros [->|[?|(it&Hit'&?)]]; [right; eexists; split; [by right|done]|by left|right; eauto].
    + intros [?|(it&[Hin| ->]&?)]; [by right; left|right; right; eauto|by left].
Qed.

(** Where an item comes from. *)
Lemma good_supply w limit r_mpr r_rem st : is_wh w → st_ok w limit st →
  good (if dltb d_0_01 r_rem || dltb (g_mpr p) r_mpr || (g_num_wh c =? 1) then rret (w, accessed st)
    else if zlen (accessed st) <? limit then '(sw, part) <-- draw_wh c; rret (sw, sset_insert part (accessed st))
    else '(sw, _) <-- until (draw_wh c) (λ '(_, part), sset_count part (accessed st)); rret (sw, accessed st))%rand
  (λ '(sw, accs), is_wh sw ∧ (∀ x, x ∈ accs ↔ x = part_of sw ∨ x ∈ accessed st) ∧ StronglySorted Z.lt accs ∧ zlen accs ≤ limit).
Proof.
  intros Hw Hst. pose proof Hst as [_ _ H3 H4 H5 _]. assert (part_of w ∈ accessed st) as Hin by (apply H3; by left).
  destruct (_ || _); [apply good_ret; split_and!; try done; [apply Hw..|naive_solver]|]. destruct (Z.ltb_spec (zlen (accessed st)) limit).
  - eapply good_bind; [apply good_draw_wh|]. intros [sw part] [Hsw ->]. apply good_ret. split; [done|]. split; [intros x; apply elem_of_sset_insert|].
    split; [by apply sset_insert_sorted|]. rewrite sset_insert_length by done. case_decide; lia.
  - eapply good_bind; [apply (good_until _ _ _ good_draw_wh eats_draw_wh _ (reaches_draw_wh _ Hw)); by apply bool_decide_eq_true|].
    intros [sw part] [[Hsw ->] Hp%bool_decide_eq_true]. apply good_ret. split; [done|]. split; [naive_solver|done].
Qed.

Lemma good_gen_item w limit r_mpr st : is_wh w → st_ok w limit st → (length (gs_items st) < g_max_items_per_txn c)%nat →
  good (gen_item c p w r_mpr limit st) (λ st', st_ok w limit st' ∧ length (gs_items st') = S (length (gs_items st))).
Proof.
  intros Hw Hst Hlen. pose proof (gc_items Hc). unfold gen_item. pose proof (so_nu _ _ _ Hst). draw good_nu_const as [C nu] [HC Hnu].
  destruct (pick_fresh (seqZ 1 (g_max_items c)) (ol_i_id <$> gs_items st)) as (i0&Hi0%elem_of_seqZ&Hnew0).
  { apply NoDup_seqZ. }
  { rewrite length_fmap, length_seqZ. lia. }
  eapply good_bind; [apply (good_until (nu_value C 8191 1 (g_max_items c)) _ (λ v, 1 ≤ v ≤ g_max_items c)) with (a0 := i0)|].
  { apply good_nu_value; rand_side. }
  { apply eats_nu_value. }
  { apply reaches_nu_value; lia. }
  { by apply bool_decide_eq_true. }
  intros i [Hi Hnew%bool_decide_eq_true]. draw good_URand as quantity Hq. draw good_fraction as r_rem _.
  eapply good_bind; [by apply (good_supply w limit)|]. intros [sw accs] (Hsw&Hacc&Hs&Hl).
  eapply good_bind; [apply good_check, bool_decide_eq_true; lia|]. intros _ _. apply good_ret. split; [|cbn; rewrite length_app; cbn; lia].
  by apply st_ok_add.
Qed.

Lemma good_gen_items w limit r_mpr n : ∀ st, is_wh w → st_ok w limit st → (length (gs_items st) + n ≤ g_max_items_per_txn c)%nat →
  good (gen_items c p n w r_mpr limit st) (λ st', st_ok w limit st' ∧ length (gs_items st') = (length (gs_items st) + n)%nat).
Proof.
  induction n as [|n IH]; intros st Hw Hst Hlen; cbn [gen_items]; [apply good_ret; split; [done|lia]|].
  eapply good_bind; [apply good_gen_item; [done|done|lia]|]. intros st' [Hst' Hl']. eapply good_impl; [apply IH; [done|done|lia]|].
  intros st2 [H2 L2]. split; [done|lia].
Qed.

Record order_ok (q : tpcc_input) (parts : list Z) : Prop := {
  oo_type : txn_type q = TPCC_NEW_ORDER;
  oo_w : is_home (w_id q);
  oo_d : 1 ≤ d_id q ≤ g_dist_per_wh c;
  oo_c : 1 ≤ c_id q ≤ g_cust_per_dist c;
  oo_cnt : 5 ≤ ol_cnt q ≤ Z.of_nat (g_max_items_per_txn c) ∧ zlen (items q) = ol_cnt q;
  oo_memory : c_last q = c_last q0 ∧ h_amount q = h_amount q0;
  oo_nodup : NoDup (ol_i_id <$> items q);
  oo_items : Forall item_ok (items q);
  oo_parts : ∀ x, x ∈ parts ↔ x = part_of (w_id q) ∨ ∃ it, it ∈ items q ∧ x = part_of (ol_supply_w_id it);
  oo_limit : zlen parts ≤ g_part_per_txn p }.

Lemma good_gen_new_order nu : nu_ok nu → good (gen_new_order c p home q0 nu) (λ '(q, parts, nu'), order_ok q parts ∧ nu_ok nu').
Proof.
  intros Hnu. pose proof (gc_part Hc). pose proof (gc_dist Hc). pose proof (gc_cust Hc). pose proof (gc_items Hc). pose proof (gc_txn Hc). pose proof (gc_ppt Hc).
  unfold gen_new_order. eapply good_bind; [apply good_home_wh|]. intros w Hw. draw good_URand as d Hd. draw good_NURand as [cid nu1] [Hcid Hnu1].
  draw good_URand as cnt Hcnt. eapply good_bind; [apply (good_part w)|]. intros ? ->. draw good_fraction as r_mpr _.
  set (limit := if dltb r_mpr (g_mpr p) then g_part_per_txn p else 1). assert (1 ≤ limit ≤ g_part_per_txn p) as Hlim by (unfold limit; case_match; lia).
  clearbody limit. cbv zeta. assert (st_ok w limit (mkGS [] (sset_insert (part_of w) []) nu1)) as Hst.
  { split; cbn; [constructor|constructor| |repeat constructor|lia|done]. intros x. rewrite list_elem_of_singleton. split; [by left|].
    intros [?|(it&?%not_elem_of_nil&_)]; done. }
  eapply good_bind; [apply good_gen_items; [apply Hw|exact Hst|cbn; lia]|]. intros st [[S1 S2 S3 S4 S5 S6] Hl]. cbn in Hl.
  apply good_ret. split; [|done]. split; cbn; try done; lia.
Qed.

Definition query_gen_ok (q : tpcc_input) (parts : list Z) : Prop := payment_ok q parts ∨ order_ok q parts.

Lemma good_create_query nu : nu_ok nu → good (create_query c p home q0 nu) (λ '(q, parts, nu'), query_gen_ok q parts ∧ nu_ok nu').
Proof.
  intros Hnu. unfold create_query. draw good_fraction as x _. destruct (dltb x (g_perc_payment p)).
  - eapply good_impl; [by apply good_gen_payment|]. intros [[q parts] nu'] [Hq Hn]. split; [by left|done].
  - eapply good_impl; [by apply good_gen_new_order|]. intros [[q parts] nu'] [Hq Hn]. split; [by right|done].
Qed.

End gen_proofs.

(** ** The message of the client *)

(** The names of the generator are strings that fit. *)
Lemma Lastname_strcpy num name : 0 ≤ num < 1000 → Lastname num = Some name → is_Some (strcpy name).
Proof.
  intros Hn Hname. assert (forallb (λ n, match Lastname n with Some s => bool_decide (is_Some (strcpy s)) | None => true end) (seqZ 0 1000) = true)
    as Hall by (vm_compute; reflexivity).
  rewrite forallb_forall in Hall. specialize (Hall num). rewrite Hname in Hall. apply (bool_decide_eq_true_1 _), Hall, list_elem_of_In, elem_of_seqZ. lia.
Qed.

(** A key reads a name only up to its end. *)
Lemma np_loop_c_string s l key : c_string s = Some l → np_loop l key = np_loop s key.
Proof.
  revert l key. induction s as [|x s IH]; intros l key; [done|]. cbn [c_string np_loop]. destruct (Z.eqb_spec x 0) as [->|Hx].
  - by intros [= <-].
  - intros (l'&Hl&[= <-])%bind_Some. cbn [np_loop]. rewrite (proj2 (Z.eqb_neq x 0)) by done. by apply IH.
Qed.

Lemma strcpy_c_string s l : strcpy s = Some l → c_string s = Some l.
Proof. unfold strcpy. by intros (l'&Hl&(_&[= <-])%assert_bind_Some)%bind_Some. Qed.

(** ** Generated queries on loaded nodes *)

Section compose.
Context (c : tconfig) (p : gparams) (home : Z) (q0 : tpcc_input) (Hc : gen_conf c p home).
Context (Hfit : keys_fit c) (Hcust : 1000 ≤ g_cust_per_dist c) (Hrows : (g_max_items_per_txn c + 2 ≤ MAX_ROW_PER_TXN)%nat).
Context (ns : Z → node) (Hns : ∀ n, ∃ m, loaded c n (ns n) m).

#[local] Abbreviation payment_ok := (payment_ok c p home q0).
#[local] Abbreviation order_ok := (order_ok c p home q0).
#[local] Abbreviation query_gen_ok := (query_gen_ok c p home q0).

Lemma found n id i key : in_range c n id → primary c id = Some (i, key) → is_Some (index_read (ns n) i key).
Proof. intros Hid Hp. destruct (Hns n) as [m Hm]. destruct (lookup_found c n Hfit _ _ Hm id i key Hid Hp) as (r&_&Hr&_). by exists r. Qed.

(** The customer of a payment exists on the node of its warehouse. *)
Lemma customer_found q parts : payment_ok q parts →
  is_Some (payment_4_row c (c_id q) (c_w_id q) (c_d_id q) (c_last q) (by_last_name q) (ns (owner c (c_w_id q)))).
Proof.
  intros [_ _ _ _ Hcw Hcd Hcu _ _ _ _]. unfold payment_4_row. destruct (by_last_name q).
  - destruct Hcu as (num&Hnum&Hname). destruct (Hns (owner c (c_w_id q))) as [m Hm].
    destruct (name_found c _ _ _ Hm num (c_last q) (num + 1) (c_d_id q) (c_w_id q)) as (r&_&Hin&_); [split; [lia|split; [done|by split]]|lia|lia|done|].
    rewrite mid_row_spec. apply lookup_lt_is_Some_2. destruct (idx _ _ _) as [|x l]; [by apply not_elem_of_nil in Hin|]. apply Nat.div_lt; cbn [length]; lia.
  - apply (found _ (RCust (c_id q) (c_d_id q) (c_w_id q))); [split; [done|split; [done|by split]]|done].
Qed.

Lemma item_plan_nodes g0 k cnt prev l g u : (g, u) ∈ item_plan c g0 k cnt prev l → ∃ it, it ∈ l ∧
  (u = OrdItem it ∧ (g = g0 ∨ g = item_node c it) ∨ ∃ num, u = OrdStock num it ∧ g = item_node c it).
Proof.
  revert k cnt prev. induction l as [|it l IH]; intros k cnt prev Hin; [by apply not_elem_of_nil in Hin|]. cbn [item_plan] in Hin.
  case_decide; (apply elem_of_cons in Hin as [[= -> ->]|[[= -> ->]|Hin]%elem_of_cons];
    [exists it; split; [left|]|exists it; split; [left|]|destruct (IH _ _ _ Hin) as (it'&Hit'&Hu); exists it'; split; [by right|done]]); [left; auto|right; eauto|left|right; eauto].
  split; [done|]. case_decide; auto.
Qed.

(** Every access of a generated query finds its row, on a node of the query's partitions. *)
Lemma plan_rows q parts g u : query_gen_ok q parts → (g, u) ∈ plan c (owner c (w_id q)) q →
  is_Some (unit_row c q u (ns g)) ∧ ∃ x, x ∈ parts ∧ g = x `mod` g_node_cnt c.
Proof.
  intros [Hq|Hq].
  - pose proof Hq as [H1 [H2 _] H3 H4 H5 H6 _ _ _ _ H9]. rewrite plan_payment by done. unfold payment_plan.
    assert (∃ x, x ∈ parts ∧ owner c (w_id q) = x `mod` g_node_cnt c) by (exists (part_of c (w_id q)); split; [apply H9; by left|done]).
    intros [[= -> ->]|[[= -> ->]|[[= -> ->]|[]%not_elem_of_nil]%elem_of_cons]%elem_of_cons]%elem_of_cons; (split; [|try done]); cbn [unit_row].
    + apply (found _ (RWh (w_id q))); [by split|done].
    + apply (found _ (RDist (d_id q) (w_id q))); [by split|cbn; by rewrite H4].
    + by apply (customer_found q parts).
    + exists (part_of c (c_w_id q)). split; [apply H9; by right|done].
  - pose proof Hq as [H1 [H2 _] H3 H4 _ _ _ H7 H8 _]. rewrite plan_order by done. unfold order_plan. rewrite Forall_forall in H7.
    assert (∃ x, x ∈ parts ∧ owner c (w_id q) = x `mod` g_node_cnt c) as Hhome by (exists (part_of c (w_id q)); split; [apply H8; by left|done]).
    assert (∀ it, it ∈ items q → ∃ x, x ∈ parts ∧ item_node c it = x `mod` g_node_cnt c) as Hitem.
    { intros it Hit. exists (part_of c (ol_supply_w_id it)). split; [apply H8; right; eauto|done]. }
    intros [Hin|(it&Hit&[[-> Hg]|(num&->&->)])%item_plan_nodes]%elem_of_app; cbn [unit_row].
    + apply elem_of_cons in Hin as [[= -> ->]|[[= -> ->]|[[= -> ->]|[]%not_elem_of_nil]%elem_of_cons]%elem_of_cons]; (split; [|done]); cbn [unit_row].
      * apply (found _ (RWh (w_id q))); [by split|done].
      * apply (found _ (RCust (c_id q) (d_id q) (w_id q))); [split; [done|split; [done|by split]]|done].
      * apply (found _ (RDist (d_id q) (w_id q))); [by split|done].
    + split; [apply (found _ (RItem (ol_i_id it))); [apply (H7 it Hit)|done]|]. destruct Hg as [->| ->]; auto.
    + split; [|auto]. destruct (H7 it Hit) as (Hi&Hw&_). by apply (found _ (RStock (ol_i_id it) (ol_supply_w_id it))); [split|].
Qed.

Lemma unit_row_name q l a u n : strcpy (c_last q) = Some l → unit_row c (set_payment l a q) u n = unit_row c q u n.
Proof.
  intros Hl. destruct u; try done. cbn [unit_row set_payment c_last c_id c_w_id c_d_id by_last_name].
  unfold payment_4_row, custNPKey. by rewrite (np_loop_c_string _ _ 0 (strcpy_c_string _ _ Hl)).
Qed.

(** The memory of a query before it is filled: a string, and a number that fits. *)
Definition memory_ok : Prop := is_Some (strcpy (c_last q0)) ∧ is_Some (d_to_u64 (h_amount q0)).

Lemma generated_message q parts : memory_ok → query_gen_ok q parts → ∃ l a, copy_from_query q = Some (set_payment l a q) ∧
  strcpy (c_last q) = Some l ∧ (txn_type q = TPCC_PAYMENT → 0 ≤ a < 2 ^ 53).
Proof.
  clear Hrows Hcust. intros [Hm1 Hm2] Hq. unfold copy_from_query.
  assert (is_Some (strcpy (c_last q))) as [l Hl].
  { destruct Hq as [Hq|Hq]; [|by rewrite (proj1 (oo_memory _ _ _ _ _ _ Hq))]. pose proof (po_cust _ _ _ _ _ _ Hq) as Hcu.
    pose proof (po_name _ _ _ _ _ _ Hq) as Hna. destruct (by_last_name q); [|by rewrite Hna].
    destruct Hcu as (num&Hnum&Hname). by eapply Lastname_strcpy. }
  destruct Hq as [Hq|Hq].
  - destruct (po_amount _ _ _ _ _ _ Hq) as (a&Ha&He). exists l, a. rewrite Hl, He, d_to_u64_of_Z by lia. split; [done|]. split; [done|lia].
  - destruct (oo_memory _ _ _ _ _ _ Hq) as [_ He]. destruct Hm2 as [a Ha]. exists l, a. rewrite Hl, He, Ha. split; [done|]. split; [done|].
    by rewrite (oo_type _ _ _ _ _ _ Hq).
Qed.

Lemma generated_query_ok ans q parts pool l a : query_gen_ok q parts → strcpy (c_last q) = Some l → (txn_type q = TPCC_PAYMENT → 0 ≤ a < 2 ^ 53) →
  (∀ n i, row_answer (ans n i)) → (∀ n, clean (pool n)) → query_ok c (owner c (w_id q)) ans (set_payment l a q) pool ns.
Proof.
  intros Hq Hl Ham Ha Hp. pose proof (strcpy_idem _ _ Hl) as Hll. split; try done.
  - apply (gc_part _ _ _ Hc).
  - destruct Hq as [Hq|Hq]; [left; apply Hq|right; split; [apply Hq|]]. destruct (oo_cnt _ _ _ _ _ _ Hq) as [Hcnt Hlen].
    cbn [set_payment items]. intros He. rewrite He in Hlen. cbn in Hlen. lia.
  - cbn [set_payment items]. destruct Hq as [Hq|Hq]; [rewrite (po_items _ _ _ _ _ _ Hq); cbn; lia|].
    destruct (oo_cnt _ _ _ _ _ _ Hq) as [Hcnt Hlen]. lia.
  - intros n. destruct (Hns n) as [m Hm]. by eapply loaded_node_ok.
  - assert (input_of (set_payment l a q) = set_payment l (d_of_Z a) q) as -> by (unfold input_of; cbn [set_payment c_last]; by rewrite Hll).
    apply Forall_forall. intros [g u] Hin. rewrite unit_row_name by done. by apply (plan_rows q parts).
Qed.

End compose.

Lemma plan_quantities c p home q0 q parts g num it : query_gen_ok c p home q0 q parts → (g, OrdStock num it) ∈ plan c (owner c (w_id q)) q →
  1 ≤ ol_quantity it ≤ 10.
Proof.
  intros [Hq|Hq] Hin.
  - rewrite plan_payment in Hin by apply Hq. unfold payment_plan in Hin. set_unfold in Hin. naive_solver.
  - rewrite plan_order in Hin by apply Hq. unfold order_plan in Hin. apply elem_of_app in Hin as [Hin|(it'&Hit&Hu)%item_plan_nodes]; [set_unfold in Hin; naive_solver|].
    pose proof (oo_items _ _ _ _ _ _ Hq) as Hi. rewrite Forall_forall in Hi. destruct (Hi it' Hit) as (_&_&?). naive_solver.
Qed.

(** The result of the reference, and the nodes it uses. *)
Lemma do_units_result c ans q amount l : ∀ R rc R', do_units c ans q amount l R = Some (rc, R') →
  (rc = RCOK ∨ rc = Abort) ∧ ((∀ n i, ans n i ≠ Abort) → rc = RCOK).
Proof.
  induction l as [|[g u] l IH]; intros R rc R' Hd; [injection Hd as <- _; auto|]. cbn [do_units] in Hd.
  destruct (do_unit c ans q amount (g, u) R) as [[rc1 R1]|] eqn:Hu; [|done]. cbn [mbind option_bind] in Hd.
  case_bool_decide as Hrc; [by eapply IH|]. injection Hd as <- <-. unfold do_unit in Hu. destruct (unit_row _ _ _ _) as [r|]; [|done]. cbn [mbind option_bind] in Hu.
  case_bool_decide as Ha; [injection Hu as <- _; split; [by right|]; intros Hn; by apply Hn in Ha|].
  destruct (unit_effect _ _ _ _ _ _ _) as [[[? ?] ?]|]; [|done]. cbn [mbind option_bind] in Hu. by injection Hu as <- _.
Qed.

Lemma do_units_nodes c ans q amount l R rc R' n : do_units c ans q amount l R = Some (rc, R') → (∀ n, r_acc R n = []) →
  r_acc R' n ≠ [] → ∃ u, (n, u) ∈ l.
Proof.
  intros Hd HR. revert n. eapply (do_units_inv c ans q amount (λ R1, ∀ n, r_acc R1 n ≠ [] → ∃ u, (n, u) ∈ l)); [|by intros n; rewrite HR|exact Hd].
  intros g u r n o ins R1 Hin HP _ _ m. cbn [put_unit r_acc]. destruct (decide (g = m)) as [<-|Hne]; [eauto|].
  rewrite fn_lookup_insert_ne by done. apply HP.
Qed.

(** ** Correctness *)

(** C19: The generator comes to its end whatever numbers it draws, and no assertion fails.  A
    payment has a warehouse of the home partition, a district, an amount from 1 to 5000, and a
    customer of some warehouse by number or by one of the thousand last names; a new order has 5 to the
    maximal number of items, all different, with existing warehouses and quantities from 1
    to 10.  The partitions of the query are exactly those of its warehouses, and a new order
    has no more than it may use. *)
Theorem tpcc_gen c p home q0 nu : gen_conf c p home → nu_ok nu → completes (create_query c p home q0 nu) ∧
  ∀ ds q parts nu' rest, create_query c p home q0 nu ds = Done (q, parts, nu') rest → query_gen_ok c p home q0 q parts.
Proof.
  intros Hc Hnu. pose proof (good_create_query c p home q0 Hc nu Hnu) as Hg. split; [by eapply good_completes|].
  intros ds q parts nu' rest Hd. destruct Hg as [Hs _]. specialize (Hs ds). rewrite Hd in Hs. apply Hs.
Qed.

(** C13: A client makes a message of a generated query, and the query runs to its end on
    loaded nodes: it finds all its rows, uses only nodes of its partitions, and commits
    unless a row is refused; the stock stays between 10 and 101.  The memory of the query
    has to be a string within [c_last] and a number that fits within [h_amount] before it is
    filled, since a new order leaves them as they are and the message is made of them. *)
Theorem tpcc_generated_query_runs c p home q0 nu ds q parts nu' rest ns ans pool fuel :
  gen_conf c p home → keys_fit c → 1000 ≤ g_cust_per_dist c → (g_max_items_per_txn c + 2 ≤ MAX_ROW_PER_TXN)%nat →
  (∀ n, ∃ m, loaded c n (ns n) m) → nu_ok nu → memory_ok q0 → create_query c p home q0 nu ds = Done (q, parts, nu') rest →
  (∀ n i, row_answer (ans n i)) → (∀ n, clean (pool n)) → (6 * g_max_items_per_txn c + 8 < fuel)%nat →
  ∃ m rc s', copy_from_query q = Some m ∧ run_query c (owner c (w_id q)) ans fuel m pool ns = Some (rc, s') ∧ (rc = RCOK ∨ rc = Abort) ∧
    ((∀ n i, ans n i ≠ Abort) → rc = RCOK) ∧ (∀ n, stock_ok (nodes s' n)) ∧
    ∀ n, accesses (mgr s' n) ≠ [] → ∃ x, x ∈ parts ∧ n = x `mod` g_node_cnt c.
Proof.
  intros Hc Hfit Hcust Hrows Hns Hnu Hmem Hd Ha Hp Hf.
  assert (query_gen_ok c p home q0 q parts) as Hq by (pose proof (proj1 (good_create_query c p home q0 Hc nu Hnu) ds) as Hs; rewrite Hd in Hs; apply Hs).
  destruct (generated_message c p home q0 q parts Hmem Hq) as (l&a&Hm&Hl&Ham).
  pose proof (generated_query_ok c p home q0 Hc Hfit Hcust Hrows ns Hns ans q parts pool l a Hq Hl Ham Ha Hp) as Hok.
  assert (enough (set_payment l a q) fuel) as Hen by (unfold enough; pose proof (qo_items _ _ _ _ _ _ Hok); lia).
  destruct (run_query_total _ _ _ _ _ _ _ Hok Hen) as (rc&s'&R'&Hr&Href&Hsim). exists (set_payment l a q), rc, s'. split; [done|]. split; [done|].
  destruct (do_units_result _ _ _ _ _ _ _ _ Href) as [H1 H2]. split; [done|]. split; [done|]. split.
  - intros n. rewrite (sim_nodes _ _ _ _ Hsim). revert n. eapply (do_units_stock _ _ _ _ _ (start_ref pool ns)); [apply (qo_nodes _ _ _ _ _ _ Hok)| | |exact Href].
    + intros g num it. by apply (plan_quantities c p home q0 q parts).
    + intros n. destruct (Hns n) as [m' Hm']. by eapply loaded_stock_ok.
  - intros n Hn. rewrite (sim_acc _ _ _ _ Hsim) in Hn. destruct (do_units_nodes _ _ _ _ _ _ _ _ n Href (λ _, eq_refl) Hn) as [u Hu].
    by eapply (plan_rows c p home q0 Hfit Hcust Hrows ns Hns q parts n u).
Qed.

(** ** An example: the default tables on two nodes *)

Module Example.
Import TpccLoad.TpccLoad.Example.

Definition ex_p : gparams := mkGP (ddiv (d_of_Z 1) (d_of_Z 2)) d_one 2 true.
Definition ex_memory : tpcc_input := mkTI 77 77 77 77 77 77 77 (66 :: replicate 15 0) 77 true [] true true 77 77.
Definition ex_nu : nu_consts := mkNu None None None.
(** The first number makes a new order or a payment. *)
Definition ex_draws (x : Z) : list Z := x :: ((λ i, 37 * i) <$> seqZ 0 300).
Definition ex_pool (n : Z) : TPCCTxnManager :=
  mkT (mkTQ (mkTI 0 0 0 0 0 0 0 [0] 0 false [] false false 0 0) 0 0) TPCC_FIN 0 None None [] [] [].

Definition query_of (r : res (tpcc_input * list Z * nu_consts)) : option (tpcc_input * list Z) :=
  match r with Done (q, parts, _) _ => Some (q, parts) | _ => None end.

Lemma ex_gen_conf : gen_conf ex_c ex_p 0.
Proof. split; cbn; lia. Qed.
Lemma ex_memory_ok : memory_ok ex_memory.
Proof. by split; eexists; vm_compute. Qed.
Lemma ex_nu_ok : nu_ok ex_nu.
Proof. by repeat constructor. Qed.
Lemma ex_clean n : clean (ex_pool n).
Proof. by split_and!. Qed.
(** Nodes without warehouses have the same rows. *)
Lemma ex_nodes : ∃ ns : Z → node, ∀ n, ∃ m, loaded ex_c n (ns n) m.
Proof.
  destruct (ex_loaded 0) as (n0&m0&H0), (ex_loaded 1) as (n1&m1&H1), (ex_loaded 2) as (n2&m2&[A1 A2 A3 A4]).
  exists (λ n, if decide (n = 0) then n0 else if decide (n = 1) then n1 else n2). intros n. case_decide; [subst; eauto|].
  case_decide; [subst; eauto|]. exists m2.
  assert (∀ w, owner ex_c w = 0 ∨ owner ex_c w = 1) as Ho.
  { intros w. unfold owner. cbn. pose proof (Z.mod_pos_bound (wrap64 (w - 1) `mod` 2) 2). lia. }
  assert (∀ id, in_range ex_c n id ↔ in_range ex_c 2 id) as Hr.
  { assert (∀ w, local ex_c n w ↔ local ex_c 2 w) as Hl by (intros w; unfold local; destruct (Ho w) as [-> | ->]; naive_solver lia).
    intros []; cbn [in_range]; rewrite ?Hl; done. }
  split; try done; [|by intros id Hid%Hr; apply A3|]; setoid_rewrite Hr; done.
Qed.

End Example.
Import Example TpccLoad.TpccLoad.Example.

Lemma tpcc_gen_witness : completes (create_query ex_c ex_p 0 ex_memory ex_nu) ∧
  ∃ q parts, query_of (create_query ex_c ex_p 0 ex_memory ex_nu (ex_draws 99)) = Some (q, parts) ∧ query_gen_ok ex_c ex_p 0 ex_memory q parts ∧
    txn_type q = TPCC_NEW_ORDER ∧ length (items q) = 14%nat ∧ parts = [0; 1].
Proof.
  destruct (tpcc_gen ex_c ex_p 0 ex_memory ex_nu ex_gen_conf ex_nu_ok) as [Hcomp Hgen]. split; [exact Hcomp|].
  specialize (Hgen (ex_draws 99)).
  assert ((λ '(q, parts), (txn_type q, length (items q), parts)) <$> query_of (create_query ex_c ex_p 0 ex_memory ex_nu (ex_draws 99)) =
    Some (TPCC_NEW_ORDER, 14%nat, [0; 1])) as Hrun by (vm_compute; reflexivity).
  destruct (create_query ex_c ex_p 0 ex_memory ex_nu (ex_draws 99)) as [[[q parts] nu'] rest| |]; [|done..].
  injection Hrun as H1 H2 H3. exists q, parts. split; [reflexivity|]. split; [by eapply Hgen|]. split; [done|]. split; done.
Defined.

Lemma tpcc_generated_query_runs_witness : ∃ ns q parts m rc s',
  query_of (create_query ex_c ex_p 0 ex_memory ex_nu (ex_draws 0)) = Some (q, parts) ∧ txn_type q = TPCC_PAYMENT ∧
  copy_from_query q = Some m ∧ run_query ex_c (owner ex_c (w_id q)) (λ _ _, RCOK) 99 m ex_pool ns = Some (rc, s') ∧ (rc = RCOK ∨ rc = Abort) ∧
  ((∀ (n : Z) (i : nat), RCOK ≠ Abort) → rc = RCOK) ∧ (∀ n, stock_ok (nodes s' n)) ∧
  ∀ n, accesses (mgr s' n) ≠ [] → ∃ x, x ∈ parts ∧ n = x `mod` 2.
Proof.
  destruct ex_nodes as [ns Hns]. exists ns.
  assert ((λ '(q, _), txn_type q) <$> query_of (create_query ex_c ex_p 0 ex_memory ex_nu (ex_draws 0)) = Some TPCC_PAYMENT) as Hrun by (vm_compute; reflexivity).
  destruct (create_query ex_c ex_p 0 ex_memory ex_nu (ex_draws 0)) as [[[q parts] nu'] rest| |] eqn:Hq; [|done..]. injection Hrun as Ht.
  destruct (tpcc_generated_query_runs ex_c ex_p 0 ex_memory ex_nu (ex_draws 0) q parts nu' rest ns (λ _ _, RCOK) ex_pool 99
    ex_gen_conf ex_keys_fit) as (m&rc&s'&H); [cbn; lia|cbn; unfold MAX_ROW_PER_TXN; lia|done|apply ex_nu_ok|apply ex_memory_ok|done|by left|apply ex_clean|cbn; lia|].
  exists q, parts, m, rc, s'. split; [reflexivity|]. split; [exact Ht|exact H].
Defined.

End TpccGen.
